(* ===== verification/_CoqProject ===== *)
-Q . S2P
Prelude.v
Ring.v
BufferedPipe.v
Semaphore.v
InterpreterPool.v
ThreadPool.v
PidAllocator.v
FreeList.v
EnvManager.v
PermuteArgs.v
CString.v
Getopt.v
GetoptLong.v
LongSelect.v
LongRoundtrip.v
ProcessEnv.v
ProcessTable.v
Sleep.v
SessionIO.v
Warn.v
WebAssembly.v
Quoting.v
ShellParser.v
Substitution.v
Pipeline.v
PipelineRun.v
Async.v
SessionManager.v
SessionState.v
SessionThread.v
SessionRace.v
Arguments.v
ShCommand.v
WindowSize.v
Waitpid.v
Redirections.v
Paths.v
Directories.v
CommandThread.v
Variables.v
Aliases.v
CommandLine.v
Wildcards.v
Scripts.v
Slots.v
ChildStreams.v
CommandList.v
