(* ===== verification/Prelude.v ===== *)
(** * Verification of the core of ios_system

    ios_system runs Unix commands inside one iOS application: a command is a
    thread, and what a process gets from the kernel (a number, an environment,
    a working directory, standard streams, pipes, signals) is provided by C
    code in [src/].  This development models that code and proves the
    properties its callers rely on.

    *** The program and the files that model it

    - [src/ios_buffered_pipe.c], the pipe between two commands:
      [Ring] (list lemmas on ring buffers) and [BufferedPipe].
    - [src/ios_interpreter_pool.c], the slots for interpreters such as Python,
      claimed by compare-and-swap behind a counting semaphore: [Semaphore] (the
      interface of the dispatch semaphore, with an implementation) and
      [InterpreterPool].
    - [src/ios_thread_pool.c], worker threads and four bounded priority queues
      of reference-counted work items: [ThreadPool].
    - [src/ios_pid_allocator.c], process contexts in a hash table with a
      lock-free list of free ones: [PidAllocator] (the operations, one at a
      time) and [FreeList] (push and pop by their atomic operations).
    - [src/ios_env_manager.c], one environment per thread: [EnvManager].
    - [src/getopt.c]: [CString] (C strings) and [Getopt].
    - [src/getopt_long.c]: [PermuteArgs] (the in-place exchange of two blocks
      of arguments), [GetoptLong] (all definitions, and termination),
      [LongSelect] (which long option a word selects) and [LongRoundtrip].
    - [src/libc_replacement.c], the replacements of libc functions:
      [ProcessEnv] (environments by process number, on top of [EnvManager]),
      [ProcessTable] (fork and release), [Waitpid] (the waits, on top of
      [ProcessTable]), [Sleep], [SessionIO] ([poll], [select], [read], [write]
      and stdio), [Warn] and [WebAssembly] (the counters of commands being
      prepared).
    - [src/ios_session_manager.m], the table of sessions: [SessionManager] (the
      operations, one at a time, against an abstract specification),
      [SessionState] (what a session owns, and its cancellation) and
      [SessionRace] (the operations by their atomic steps).
    - [src/ios_async.m], commands that run by themselves: [Async] (the thread of
      the command and a client with the handle, by their atomic steps).
    - [src/ios_shell_parser.m]: [Quoting] (the scanners for quoted text),
      [ShellParser] (sequences and conditions) and [Substitution].
    - [src/ios_pipeline.m]: [Pipeline] (parsing, and the streams of the stages)
      and [PipelineRun] (the threads of the stages, waiting and killing).
    - [src/ios_system.m], in the order in which [ios_system] gets to them:
      [CommandLine] (from the line to the command: quotes, variables in front,
      substitutions, aliases), [Aliases] (the commands [alias] and [unalias] and
      the expansion), [Quoting] and [ShellParser] (the search for operators and
      the choice they lead to), [Redirections] (the files named on the line and
      the streams they open), [Arguments] (making lines of words and taking them
      apart), [Variables] (variables, tildes and bookmarks in a word),
      [Wildcards], [Scripts] (the search of [PATH] for scripts, bitcode and
      WebAssembly), [Slots] (the copies of interpreters), [CommandList] (the
      dictionary of commands, its cache, and the functions found) and
      [CommandThread] (the thread of a command up to the end of
      [cleanup_function]).
    - Of the same file, the services for commands: [Paths] ([pathNormalize] and
      [pathJoin]), [Directories] ([cd], [chdir] and the jail of a session),
      [ChildStreams] ([ios_dup2] and [ios_popen]), [ShCommand] (the commands of
      [sh]), [SessionThread] (the session of a thread) and [WindowSize].

    How they interact: [ios_system] expands substitutions, then hands sequences
    and conditions to the shell parser, which calls [ios_system] again for each
    command between a fork and a wait ([Waitpid]); lines with bars go to the
    pipeline, which runs [ios_system] in a thread per stage; other lines lose
    their redirections, are taken apart into words and expanded, and the first
    word becomes a script's interpreter or a function of the dictionary.  That
    command runs in a thread of its own and sees the libc replacement, its
    environment, and the session the thread is in; [cleanup_function] closes its
    streams and gives back its process number and its copy of an interpreter.

    This file holds what they share: machine integers with their wrap-around,
    [outcome] (a value, or one of the kinds of undefined behaviour), memory
    blocks as lists, labelled transition systems and reachability.

    *** How code becomes definitions

    A struct is a [Record], an enum an [Inductive], an operation a [Definition]
    with the name it has in the source that takes the state and returns the new
    state and the result.  Undefined behaviour is a value: an index out of
    bounds, a use after free or a division by zero gives [Undef], and the
    safety theorems prove that it does not occur.  Failing allocations and
    system calls are arguments or answers of an interface.

    Code that several threads run at a time is a transition system: an event
    says which thread takes its next step, a step is the code between two
    points at which other threads can interfere (a whole critical section
    under a mutex, one atomic operation otherwise), and theorems quantify over
    all sequences of events, by induction on reachability with an inductive
    invariant.  Wake-ups of condition variables are part of the state, so that
    a lost wake-up would be visible.

    *** What the theorems show

    - Pipes: the bytes read are the bytes written, in order, under every
      interleaving; end of file only after the last byte; no undefined
      behaviour; no deadlock.
    - Interpreter pool: two threads never own one slot; a thread that passed
      the semaphore finds a slot; acquire and release are inverse.
    - Thread pool: items are taken in the order of submission within a
      priority and by priority across; memory safety of the reference counts;
      bounded queues; no deadlock; shutdown reaches all workers.
    - Process contexts: numbers of live processes are unique, look-up and
      release are exact; the lock-free list is correct with one allocating
      thread at a time and has the ABA defect with two.
    - Environments: the arrays refine finite maps, per thread and per process
      number; inheritance and clean-up.
    - Options: a command line printed from options and operands is parsed back
      to them by [getopt] and [getopt_long]; both terminate on all inputs
      within the vector; the permutation and the choice among abbreviations
      equal their reference definitions.
    - Processes: live commands have distinct numbers; fork hands out the next
      free number in cyclic order and release undoes it; with all 127 numbers
      taken fork hangs for good; a wait ends exactly at the first look that
      finds the number given back, and does end.
    - Sleeps and session I/O: the replacements keep the contracts of
      [nanosleep], [poll] and [select], report a cancellation as [EINTR], end
      after finitely many signals, and route the standard streams.
    - Sessions: every sequence of calls refines a specification with live
      sessions and held references, a session is in memory exactly while it is
      one of them, nothing it owns leaks; creation by many threads at a time
      yields one session.  Deletion concurrent with other calls is not safe.
    - Shell: [strstrquoted] equals its reference for patterns of one character;
      sequences and chains of one connective run as in a POSIX shell;
      substitutions are expanded inside out, once each; an argument vector
      survives being made a line and taken apart again; the arrays are large
      enough on all lines but the ones that are named.
    - Pipelines: the stages close every end of every pipe exactly once in any
      order, and no stream of the caller; a wait ends, after all stages and
      whatever its time-out, with the value of the last.
    - Asynchronous commands: a client that waits and then releases its handle
      uses no freed memory and gets the command's value, and its callback is
      called exactly once.
    - Commands: the steps from the line to the command free no block twice or in
      its middle, but for the lines that are named; an alias stands for the line
      it was defined with; redirections are found in any order; variables, a
      tilde and wildcards are replaced as documented, in vectors that are large
      enough; a script runs under the interpreter of its first line; the cache
      of commands changes no answer while the dictionary is not changed, but
      outlives the library it points into; no two commands have one copy of Perl
      or of a Python library; a command gives back all it took, but for the ones
      whose parameters hold an interpreter's handle nobody stored.
    - Directories and streams: [pathNormalize] gives the normal form of every
      path; a session with a mini-root never leaves its directories; after
      [ios_dup2] the next command's stream is on the descriptor, and
      [ios_popen] of a command that fails is undefined.
    - Where the code does not do what its comments, its header or POSIX say, a
      theorem exhibits the behaviour (for instance
      [EnvManager.env_cleanup_leaks], [ThreadPool.tp_cancelled_runs],
      [ProcessTable.waitpid_any_option], [Sleep.nanosleep_timeout_overflow],
      [CommandLine.assignment_then_substitution], [Scripts.bitcode_overruns],
      [CommandList.replace_after_use]).

    *** Fuel and bounds

    Loops that are not structural take fuel and the theorems show how much is
    enough: the number of live contexts for a walk of a hash bucket, one call
    per character of the arguments for option parsing, 127 rounds for the
    search for a process number when one is free, one round more than the
    signals that arrive for the loops that retry system calls, one more than the
    characters of a line for the loops that take lines apart, one more than the
    size of a word for the expansion of its substitutions, one per dollar sign
    for the expansion of variables whose values have none (values with dollars
    can make it endless), one per argument for wildcards.  Integers are
    kept at their width where the code computes with them; sizes of memory
    blocks are assumed to be below the address space where a theorem says so.

    *** Parameters

    The dispatch semaphore ([Semaphore]); [chdir_nolock] ([ProcessTable]);
    whether [POSIXLY_CORRECT] is set ([GetoptLong]); the clock and [poll]
    ([Sleep]); the operating system and the session as the class
    [SessionIO.Kernel] with the documented laws of [poll] and [select], and an
    instance; [strerror] and the formatting of messages ([Warn]); running one
    command ([ShellParser.Shell]) and running it with its output redirected
    ([Substitution.Capture]); the addresses of [malloc] and, between the table
    of sessions and what a session owns, [SessionManager.SessionParams], which
    [SessionState] implements; [fopen] and the numbers of streams
    ([Redirections], [ChildStreams], [CommandThread]); the files as the classes
    [Directories.FileManager] and [Scripts.FileSystem]; [glob] ([Wildcards]);
    the environment, the home directory and the bookmarks ([Variables]);
    [dlopen] and [dlsym] ([CommandList]); [ios_system] in
    [ios_popen] ([ChildStreams]).

    *** Not modelled

    The memory model is sequentially consistent; the code's weaker atomics are
    not distinguished.  The [fdopen] wrappers of the pipe and the function of the
    application that runs WebAssembly commands are left out.  Of
    [src/ios_system.m] these parts are not modelled: the terminal, alerts and
    notifications (calls into the application), the text in which bookmarks are
    displayed, the list of background commands, [ios_kill] and the joining of
    threads, and the property list the dictionary starts with.  The loop over the dictionary of aliases
    prints in the order of [map_to_list], not in that of Foundation.  The
    commands under [src/*_cmds], [src/curl] and [src/ssh_keygen] are third-party
    programs.

    Possible extensions: the waits of [Waitpid] as an instance of
    [ShellParser.Shell]; the stages of [Pipeline] on top of [SessionThread];
    [Async] with several clients of one handle. *)

From Stdlib Require Export ZArith Lia.
From stdpp Require Export base tactics list gmap strings numbers option.

(** ** Machine integers

    A C integer is a [Z]; the width is written where the code computes.
    [wrapU w] is the value of an unsigned computation of width [w];
    [wrapS w] is the two's-complement value of a signed one (the code's
    atomic counters wrap: C11 atomics have no overflow trap). *)

Declare Scope c_scope.
Delimit Scope c_scope with C.

Definition wrapU (w x : Z) : Z := (x `mod` 2 ^ w)%Z.
Definition wrapS (w x : Z) : Z := ((x + 2 ^ (w - 1)) `mod` 2 ^ w - 2 ^ (w - 1))%Z.

Notation "x +sz y" := (wrapU 64 (x + y)%Z) (at level 50, left associativity) : c_scope.
Notation "x -sz y" := (wrapU 64 (x - y)%Z) (at level 50, left associativity) : c_scope.
Notation "x +u64 y" := (wrapU 64 (x + y)%Z) (at level 50, left associativity) : c_scope.
Notation "x +i32 y" := (wrapS 32 (x + y)%Z) (at level 50, left associativity) : c_scope.
Notation "x -i32 y" := (wrapS 32 (x - y)%Z) (at level 50, left associativity) : c_scope.

Definition SIZE_MAX : Z := (2 ^ 64 - 1)%Z.
Definition INT_MAX : Z := (2 ^ 31 - 1)%Z.
Definition INT_MIN : Z := (- 2 ^ 31)%Z.
Definition PTRDIFF_MAX : Z := (2 ^ 63 - 1)%Z.

Lemma wrapU_small (w x : Z) : (0 ≤ x < 2 ^ w)%Z → wrapU w x = x.
Proof. intros. by apply Z.mod_small. Qed.

Lemma wrapU_range (w x : Z) : (0 ≤ w)%Z → (0 ≤ wrapU w x < 2 ^ w)%Z.
Proof. intros. apply Z.mod_pos_bound. lia. Qed.

Lemma wrapS_small (w x : Z) :
  (0 < w)%Z → (- 2 ^ (w - 1) ≤ x < 2 ^ (w - 1))%Z → wrapS w x = x.
Proof.
  intros Hw Hx. unfold wrapS.
  assert (2 ^ w = 2 * 2 ^ (w - 1))%Z as E.
  { rewrite <- Z.pow_succ_r by lia. f_equal. lia. }
  rewrite Z.mod_small; lia.
Qed.

Lemma wrapS_range (w x : Z) :
  (0 < w)%Z → (- 2 ^ (w - 1) ≤ wrapS w x < 2 ^ (w - 1))%Z.
Proof.
  intros Hw. unfold wrapS.
  assert (2 ^ w = 2 * 2 ^ (w - 1))%Z as E.
  { rewrite <- Z.pow_succ_r by lia. f_equal. lia. }
  pose proof (Z.mod_pos_bound (x + 2 ^ (w - 1)) (2 ^ w)). lia.
Qed.

Lemma wrapS_add_idemp (w x y : Z) : (0 < w)%Z → wrapS w (wrapS w x + y) = wrapS w (x + y).
Proof.
  intros Hw. unfold wrapS. f_equal.
  replace ((x + 2 ^ (w - 1)) `mod` 2 ^ w - 2 ^ (w - 1) + y + 2 ^ (w - 1))%Z
    with ((x + 2 ^ (w - 1)) `mod` 2 ^ w + y)%Z by lia.
  rewrite Zplus_mod_idemp_l. f_equal. lia.
Qed.

Lemma wrapS_idemp (w x : Z) : (0 < w)%Z → wrapS w (wrapS w x) = wrapS w x.
Proof. intros Hw. pose proof (wrapS_add_idemp w x 0 Hw) as H. by rewrite !Z.add_0_r in H. Qed.

(** Removes the wrap-around of computations whose operands are in range,
    innermost first. *)
Ltac range_solve := unfold SIZE_MAX, PTRDIFF_MAX, INT_MAX, INT_MIN in *; simpl in *; lia.
Ltac nowrap :=
  repeat match goal with
  | |- context [wrapU ?w ?x] =>
      lazymatch x with
      | context [wrapU] => fail
      | _ => rewrite (wrapU_small w x) by range_solve
      end
  | |- context [wrapS ?w ?x] =>
      lazymatch x with
      | context [wrapS] => fail
      | _ => rewrite (wrapS_small w x) by range_solve
      end
  end.

(** ** Outcomes of C code

    A computation returns or has undefined behaviour; the kinds of undefined
    behaviour are the ones the modelled code could run into. *)

Inductive ub : Set :=
  | OutOfBounds | UseAfterFree | NullDeref | Uninitialised
  | DivByZero | ShiftTooLarge | LockMisuse | SignedOverflow
  | DoubleFree | AssertFailed
  | BadFree      (* [free] of a pointer into a block *)
  | OutOfFuel.   (* the fuel of a loop ran out: excluded by the theorems *)

Inductive outcome (A : Type) : Type :=
  | Ret (a : A)
  | Undef (u : ub).
Global Arguments Ret {_} _.
Global Arguments Undef {_} _.

Global Instance outcome_ret : MRet outcome := λ A a, Ret a.
Global Instance outcome_bind : MBind outcome := λ A B f m,
  match m with Ret a => f a | Undef u => Undef u end.
Global Instance outcome_fmap : FMap outcome := λ A B f m,
  match m with Ret a => Ret (f a) | Undef u => Undef u end.

Definition defined {A} (m : outcome A) : Prop := ∃ a, m = Ret a.

Lemma outcome_bind_Ret {A B} (m : outcome A) (f : A → outcome B) b :
  (m ≫= f) = Ret b ↔ ∃ a, m = Ret a ∧ f a = Ret b.
Proof.
  destruct m as [a|u]; simpl; split.
  - eauto.
  - by intros (? & [= ->] & ?).
  - done.
  - by intros (? & ? & _).
Qed.

Lemma outcome_fmap_Ret {A B} (m : outcome A) (f : A → B) b :
  (f <$> m) = Ret b ↔ ∃ a, m = Ret a ∧ f a = b.
Proof.
  destruct m as [a|u]; simpl; split.
  - intros [= <-]. eauto.
  - by intros (? & [= ->] & <-).
  - done.
  - by intros (? & ? & _).
Qed.

(** [errno] values the modelled code sets. *)
Inductive errno : Set :=
  | EINVAL | EPIPE | ETIMEDOUT | ENOMEM | ESRCH | EINTR | EBADF
  | Eother (code : Z).   (* another error of a system call *)
Global Instance errno_eq_dec : EqDecision errno.
Proof. solve_decision. Defined.

(** ** Memory blocks as lists *)

Definition zlen {A} (l : list A) : Z := Z.of_nat (length l).
Definition ztake {A} (n : Z) (l : list A) : list A := take (Z.to_nat n) l.
Definition zdrop {A} (n : Z) (l : list A) : list A := drop (Z.to_nat n) l.

(** [memcpy (dst + d) (src + s) n] on two disjoint blocks. *)
Definition memcpy {A} (dst : list A) (d : Z) (src : list A) (s n : Z) : outcome (list A) :=
  if bool_decide (0 ≤ d ∧ 0 ≤ n ∧ d + n ≤ zlen dst ∧ 0 ≤ s ∧ s + n ≤ zlen src)%Z
  then Ret (ztake d dst ++ ztake n (zdrop s src) ++ zdrop (d + n) dst)
  else Undef OutOfBounds.

Lemma memcpy_ok {A} (dst src : list A) (d s n : Z) :
  (0 ≤ d)%Z → (0 ≤ n)%Z → (d + n ≤ zlen dst)%Z → (0 ≤ s)%Z → (s + n ≤ zlen src)%Z →
  memcpy dst d src s n = Ret (ztake d dst ++ ztake n (zdrop s src) ++ zdrop (d + n) dst).
Proof. intros. unfold memcpy. rewrite bool_decide_eq_true_2; [done|lia]. Qed.

(** ** Labelled transition systems

    A component shared by several threads is a state with a partial step
    function indexed by events: [None] means that the event is not enabled.
    The interleavings are the event sequences. *)

Section lts.
Context {S E : Type} (step : E → S → option S).

Fixpoint run (es : list E) (s : S) : option S :=
  match es with
  | [] => Some s
  | e :: es => match step e s with Some s' => run es s' | None => None end
  end.

Inductive reachable (init : S → Prop) : S → Prop :=
  | reachable_init s : init s → reachable init s
  | reachable_step e s s' :
      reachable init s → step e s = Some s' → reachable init s'.

Lemma reachable_invariant (init I : S → Prop) :
  (∀ s, init s → I s) →
  (∀ e s s', I s → step e s = Some s' → I s') →
  ∀ s, reachable init s → I s.
Proof. intros Hi Hs s. induction 1; eauto. Qed.

Lemma run_reachable (init : S → Prop) es s s' :
  reachable init s → run es s = Some s' → reachable init s'.
Proof.
  revert s. induction es as [|e es IH]; simpl; intros s Hr Hrun.
  - by simplify_eq.
  - destruct (step e s) as [s1|] eqn:E1; [|done].
    eapply IH; [|done]. by eapply reachable_step.
Qed.
End lts.

(** ** Shared automation *)

Create HintDb csys.
#[export] Hint Resolve wrapU_range : csys.

(** Inverts the option/outcome plumbing of a step that succeeded. *)
Ltac step_inv :=
  repeat match goal with
  | H : Some _ = Some _ |- _ => injection H as H; subst
  | H : Ret _ = Ret _ |- _ => injection H as H; subst
  | H : None = Some _ |- _ => discriminate H
  | H : Undef _ = Ret _ |- _ => discriminate H
  | H : (_ <$> _) = Ret _ |- _ => apply outcome_fmap_Ret in H as (? & ? & H)
  | H : (_ ≫= _) = Ret _ |- _ => apply outcome_bind_Ret in H as (? & ? & H)
  | H : context [match ?x with _ => _ end] |- _ => destruct x eqn:?; try discriminate H
  end.

Lemma bool_decide_negb_eq (P : Prop) `{Decision P} :
  negb (bool_decide P) = bool_decide (¬ P).
Proof. repeat case_bool_decide; done. Qed.

(** ** Lists updated by index *)

Lemma insert_forall {A} (l : list A) i x (P : nat → A → Prop) : P i x →
  (∀ j y, j ≠ i → l !! j = Some y → P j y) → ∀ j y, <[i := x]> l !! j = Some y → P j y.
Proof.
  intros Hi Hj j y Hl. destruct (decide (j = i)) as [->|Hne].
  - apply list_lookup_insert_Some in Hl as [(_ & -> & _)|[? _]]; done.
  - rewrite list_lookup_insert_ne in Hl by done. by apply Hj.
Qed.

(** ** Counting over the threads of a transition system *)

Lemma sum_list_with_insert {A} (f : A → nat) (l : list A) i x y :
  l !! i = Some x →
  sum_list_with f (<[i := y]> l) + f x = sum_list_with f l + f y.
Proof.
  revert i. induction l as [|z l IH]; intros [|i] Hi; simplify_eq/=; [lia|].
  specialize (IH i Hi). lia.
Qed.

Lemma sum_list_with_lookup {A} (f : A → nat) (l : list A) i x :
  l !! i = Some x → f x ≤ sum_list_with f l.
Proof.
  revert i. induction l as [|z l IH]; intros [|i] Hi; simplify_eq/=; [lia|].
  specialize (IH i Hi). lia.
Qed.
