(* ===== verification/Ring.v ===== *)
(** * Circular buffers

    The pipe ([ios_buffered_pipe.c]) and the work queues of the thread pool
    ([ios_thread_pool.c]) are both arrays used as rings.  This file is their
    common theory: the content of a ring is the list [ring_slice buf h n] of
    the [n] cells that start at index [h] and wrap around. *)

From S2P Require Import Prelude.

Definition ring_slice {A} (buf : list A) (h n : nat) : list A :=
  take n (drop h buf ++ buf).

(** Storing a block at index [t], in two parts when it wraps around. *)
Definition ring_store {A} (buf : list A) (t : nat) (data : list A) : list A :=
  let first := Nat.min (length buf - t) (length data) in
  let buf1 := take t buf ++ take first data ++ drop (t + first) buf in
  drop first data ++ drop (length data - first) buf1.

Lemma mod_once (x c : nat) :
  x < c + c → x `mod` c = if decide (x < c) then x else x - c.
Proof.
  intros. case_decide; [by apply Nat.mod_small|].
  replace x with ((x - c) + 1 * c) at 1 by lia.
  rewrite Nat.Div0.mod_add. apply Nat.mod_small. lia.
Qed.

Section ring.
Context {A : Type}.
Implicit Types (buf data : list A) (h n t i k : nat).

Lemma length_ring_slice buf h n :
  h ≤ length buf → n ≤ length buf → length (ring_slice buf h n) = n.
Proof. intros. unfold ring_slice. rewrite length_take, length_app, length_drop. lia. Qed.

Lemma ring_slice_lookup buf h n i :
  h < length buf → n ≤ length buf → i < n →
  ring_slice buf h n !! i = buf !! ((h + i) `mod` length buf).
Proof.
  intros. unfold ring_slice. rewrite lookup_take_lt by lia.
  rewrite mod_once by lia. case_decide.
  - rewrite lookup_app_l by (rewrite length_drop; lia). apply lookup_drop.
  - rewrite lookup_app_r by (rewrite length_drop; lia). rewrite length_drop.
    f_equal. lia.
Qed.

Lemma length_ring_store buf t data :
  t < length buf → length data ≤ length buf →
  length (ring_store buf t data) = length buf.
Proof.
  intros. unfold ring_store. cbv zeta.
  rewrite !length_app, !length_drop, !length_app, !length_take, !length_drop. lia.
Qed.

Lemma ring_store_lookup_in buf t data i :
  t < length buf → length data ≤ length buf → i < length data →
  ring_store buf t data !! ((t + i) `mod` length buf) = data !! i.
Proof.
  intros Ht Hd Hi. unfold ring_store. cbv zeta.
  set (f := Nat.min _ _). rewrite mod_once by lia. case_decide as Hlt.
  - assert (i < f) by (subst f; lia).
    rewrite lookup_app_r by (rewrite length_drop; lia).
    rewrite lookup_drop, length_drop.
    rewrite lookup_app_r by (rewrite length_take; lia).
    rewrite length_take, lookup_app_l by (rewrite length_take; lia).
    rewrite lookup_take_lt by lia. f_equal. lia.
  - assert (f = length buf - t) by (subst f; lia).
    rewrite lookup_app_l by (rewrite length_drop; lia).
    rewrite lookup_drop. f_equal. lia.
Qed.

Lemma ring_store_lookup_out buf t data i :
  t < length buf → length data ≤ i → i < length buf →
  ring_store buf t data !! ((t + i) `mod` length buf) =
  buf !! ((t + i) `mod` length buf).
Proof.
  intros Ht Hd Hi. unfold ring_store. cbv zeta.
  set (f := Nat.min _ _). rewrite mod_once by lia.
  assert (length (take f data) = f) as Lf by (rewrite length_take; lia).
  case_decide as Hlt.
  - assert (f = length data) by (subst f; lia).
    rewrite lookup_app_r by (rewrite length_drop; lia).
    rewrite lookup_drop, length_drop.
    rewrite lookup_app_r by (rewrite length_take; lia).
    rewrite lookup_app_r by (rewrite Lf, length_take; lia).
    rewrite lookup_drop, Lf, length_take. f_equal. lia.
  - rewrite lookup_app_r by (rewrite length_drop; lia).
    rewrite lookup_drop, length_drop.
    rewrite lookup_app_l by (rewrite length_take; lia).
    rewrite lookup_take_lt by lia. f_equal. lia.
Qed.

Lemma mod_add_assoc h n i c :
  ((h + n) `mod` c + i) `mod` c = (h + (n + i)) `mod` c.
Proof. rewrite Nat.Div0.add_mod_idemp_l. f_equal. lia. Qed.

(** A block stored at the end of the content extends the content. *)
Lemma ring_slice_store buf h n data :
  h < length buf → n + length data ≤ length buf →
  ring_slice (ring_store buf ((h + n) `mod` length buf) data) h (n + length data)
  = ring_slice buf h n ++ data.
Proof.
  intros Hh Hn.
  assert ((h + n) `mod` length buf < length buf) as Ht by (apply Nat.mod_upper_bound; lia).
  pose proof (length_ring_store buf _ data Ht ltac:(lia)) as Hlen.
  apply list_eq_same_length with (n := n + length data);
    [by rewrite length_app, length_ring_slice by lia | by rewrite length_ring_slice by lia |].
  intros i x y Hi Hx Hy. rewrite ring_slice_lookup in Hx by lia.
  rewrite Hlen in Hx. destruct (decide (i < n)) as [Hlt|Hge].
  - rewrite lookup_app_l, ring_slice_lookup in Hy
      by (rewrite ?length_ring_slice by lia; lia).
    assert ((h + i) `mod` length buf =
            ((h + n) `mod` length buf + (length buf - n + i)) `mod` length buf) as E.
    { rewrite mod_add_assoc. replace (h + (n + (length buf - n + i))) with (h + i + 1 * length buf) by lia.
      by rewrite Nat.Div0.mod_add. }
    rewrite E, ring_store_lookup_out in Hx by lia. rewrite <- E in Hx. congruence.
  - rewrite lookup_app_r, length_ring_slice in Hy
      by (rewrite ?length_ring_slice by lia; lia).
    replace (h + i) with (h + (n + (i - n))) in Hx by lia.
    rewrite <- mod_add_assoc, ring_store_lookup_in in Hx by lia. congruence.
Qed.

(** Advancing the read index drops a prefix of the content. *)
Lemma ring_slice_drop buf h n k :
  h < length buf → n ≤ length buf → k ≤ n →
  ring_slice buf ((h + k) `mod` length buf) (n - k) = drop k (ring_slice buf h n).
Proof.
  intros Hh Hn Hk.
  assert ((h + k) `mod` length buf < length buf) as Ht by (apply Nat.mod_upper_bound; lia).
  apply list_eq_same_length with (n := n - k);
    [by rewrite length_drop, length_ring_slice by lia | by rewrite length_ring_slice by lia |].
  intros i x y Hi Hx Hy. rewrite ring_slice_lookup, mod_add_assoc in Hx by lia.
  rewrite lookup_drop, ring_slice_lookup in Hy by lia. congruence.
Qed.

Lemma ring_slice_take buf h n k :
  k ≤ n → ring_slice buf h k = take k (ring_slice buf h n).
Proof. intros. unfold ring_slice. rewrite take_take. f_equal. lia. Qed.

(** A cell outside the content can be overwritten. *)
Lemma ring_slice_insert_out buf h n k x :
  h < length buf → n ≤ k → k < length buf →
  ring_slice (<[(h + k) `mod` length buf := x]> buf) h n = ring_slice buf h n.
Proof.
  intros Hh Hn Hk.
  apply list_eq_same_length with (n := n);
    [by rewrite length_ring_slice by lia
    | by rewrite length_ring_slice by (rewrite ?length_insert; lia) |].
  intros i a b Hi Ha Hb. rewrite ring_slice_lookup in Ha, Hb by (rewrite ?length_insert; lia).
  rewrite length_insert in Ha. rewrite list_lookup_insert_ne in Ha; [congruence|].
  rewrite !mod_once by lia. repeat case_decide; lia.
Qed.

Lemma ring_store_one buf t x :
  t < length buf → ring_store buf t [x] = <[t := x]> buf.
Proof.
  intros. unfold ring_store. cbv zeta. simpl length.
  replace (Nat.min (length buf - t) 1) with 1 by lia. simpl.
  rewrite drop_0, insert_take_drop by done. f_equal. simpl. f_equal. f_equal. lia.
Qed.
End ring.
