(* ===== verification/BufferedPipe.v ===== *)
(** * The buffered pipe ([src/ios_buffered_pipe.c])

    A ring buffer of bytes protected by a mutex, with one writer, one reader
    and any number of threads that close its ends.  The file has
    - the data of [struct _ios_buffered_pipe] and the ring operations that run
      under the mutex ([ring_buffer_*]);
    - [ios_pipe_write_timeout] and [ios_pipe_read_timeout] cut at the points
      where the mutex is released: the checks before the lock, one loop
      iteration under the lock ([write_iter], [read_iter]), the wait;
    - the transition system [pipe_step] of the writer, the reader and the
      closers with their condition variables;
    - the theorems: stream integrity, absence of undefined behaviour, no
      lost wake-up, no deadlock. *)

From S2P Require Import Prelude Ring.
From Stdlib Require Import Strings.Byte.

Local Open Scope Z_scope.
Local Open Scope c_scope.

(** A byte of the [malloc]ed buffer: [None] while it is indeterminate. *)
Definition cell : Type := option byte.

Definition DEFAULT_BUFFER_SIZE : Z := 64 * 1024.
Definition DEFAULT_TIMEOUT_MS : Z := -1.

Record ios_pipe_config_t := PipeConfig {
  cfg_buffer_size : Z;
  cfg_read_timeout_ms : Z;
  cfg_write_timeout_ms : Z;
  cfg_suppress_sigpipe : bool }.

Record ios_buffered_pipe := Pipe {
  p_buffer : list cell;
  p_capacity : Z;
  p_head : Z;
  p_tail : Z;
  p_write_closed : bool;
  p_read_closed : bool;
  p_suppress_sigpipe : bool;
  p_read_timeout_ms : Z;
  p_write_timeout_ms : Z;
  p_total_written : Z;
  p_total_read : Z;
  p_writer_waits : Z;
  p_reader_waits : Z }.

(** Field updates. *)
Definition set_ring (p : ios_buffered_pipe) (b : list cell) (h t : Z) : ios_buffered_pipe :=
  Pipe b (p_capacity p) h t (p_write_closed p) (p_read_closed p) (p_suppress_sigpipe p)
    (p_read_timeout_ms p) (p_write_timeout_ms p) (p_total_written p) (p_total_read p)
    (p_writer_waits p) (p_reader_waits p).
Definition set_closed (p : ios_buffered_pipe) (w r : bool) : ios_buffered_pipe :=
  Pipe (p_buffer p) (p_capacity p) (p_head p) (p_tail p) w r (p_suppress_sigpipe p)
    (p_read_timeout_ms p) (p_write_timeout_ms p) (p_total_written p) (p_total_read p)
    (p_writer_waits p) (p_reader_waits p).
Definition set_stats (p : ios_buffered_pipe) (tw tr ww rw : Z) : ios_buffered_pipe :=
  Pipe (p_buffer p) (p_capacity p) (p_head p) (p_tail p) (p_write_closed p) (p_read_closed p)
    (p_suppress_sigpipe p) (p_read_timeout_ms p) (p_write_timeout_ms p) tw tr ww rw.

Definition add_total_written (p : ios_buffered_pipe) (n : Z) : ios_buffered_pipe :=
  set_stats p (p_total_written p +u64 n) (p_total_read p) (p_writer_waits p) (p_reader_waits p).
Definition add_total_read (p : ios_buffered_pipe) (n : Z) : ios_buffered_pipe :=
  set_stats p (p_total_written p) (p_total_read p +u64 n) (p_writer_waits p) (p_reader_waits p).
Definition incr_writer_waits (p : ios_buffered_pipe) : ios_buffered_pipe :=
  set_stats p (p_total_written p) (p_total_read p) (p_writer_waits p +i32 1) (p_reader_waits p).
Definition incr_reader_waits (p : ios_buffered_pipe) : ios_buffered_pipe :=
  set_stats p (p_total_written p) (p_total_read p) (p_writer_waits p) (p_reader_waits p +i32 1).

(** ** Ring operations (the caller holds the mutex) *)

Definition ring_buffer_available (p : ios_buffered_pipe) : Z :=
  let h := p_head p in
  let t := p_tail p in
  if bool_decide (h ≤ t) then t -sz h else (p_capacity p -sz h) +sz t.

Definition ring_buffer_space (p : ios_buffered_pipe) : Z :=
  (p_capacity p -sz ring_buffer_available p) -sz 1.

(** [ring_buffer_write(pipe, src + off, size)]: the pipe and the count. *)
Definition ring_buffer_write (p : ios_buffered_pipe) (src : list cell) (off size : Z)
    : outcome (ios_buffered_pipe * Z) :=
  let space := ring_buffer_space p in
  let to_write := if bool_decide (size < space) then size else space in
  if bool_decide (to_write = 0) then Ret (p, 0) else
  let t := p_tail p in
  let first_part0 := p_capacity p -sz t in
  let first_part := if bool_decide (to_write < first_part0) then to_write else first_part0 in
  b1 ← memcpy (p_buffer p) t src off first_part;
  b2 ← (if bool_decide (first_part < to_write)
        then memcpy b1 0 src (off + first_part) (to_write -sz first_part)
        else Ret b1);
  Ret (set_ring p b2 (p_head p) ((t +sz to_write) `mod` p_capacity p), to_write).

(** [ring_buffer_read(pipe, dest + off, size)]: the pipe, the caller's block
    and the count. *)
Definition ring_buffer_read (p : ios_buffered_pipe) (dest : list cell) (off size : Z)
    : outcome (ios_buffered_pipe * list cell * Z) :=
  let available := ring_buffer_available p in
  let to_read := if bool_decide (size < available) then size else available in
  if bool_decide (to_read = 0) then Ret (p, dest, 0) else
  let h := p_head p in
  let first_part0 := p_capacity p -sz h in
  let first_part := if bool_decide (to_read < first_part0) then to_read else first_part0 in
  d1 ← memcpy dest off (p_buffer p) h first_part;
  d2 ← (if bool_decide (first_part < to_read)
        then memcpy d1 (off + first_part) (p_buffer p) 0 (to_read -sz first_part)
        else Ret d1);
  Ret (set_ring p (p_buffer p) ((h +sz to_read) `mod` p_capacity p) (p_tail p), d2, to_read).

(** ** Waiting *)

Record timespec := Timespec { tv_sec : Z; tv_nsec : Z }.

Inductive wait_call :=
  | CondWait                            (* pthread_cond_wait *)
  | CondTimedWait (deadline : timespec) (* pthread_cond_timedwait *)
  | WaitReturns (e : errno).            (* no wait at all *)

(** [wait_with_timeout]: what is called, with the time of [clock_gettime]. *)
Definition wait_with_timeout (timeout_ms : Z) (now : timespec) : wait_call :=
  if bool_decide (timeout_ms < 0) then CondWait
  else if bool_decide (timeout_ms = 0) then WaitReturns ETIMEDOUT
  else
    let sec := tv_sec now + timeout_ms ÷ 1000 in
    let nsec := tv_nsec now + Z.rem timeout_ms 1000 * 1000000 in
    if bool_decide (1000000000 ≤ nsec)
    then CondTimedWait (Timespec (sec + 1) (nsec - 1000000000))
    else CondTimedWait (Timespec sec nsec).

(** ** Creation *)

(** [malloc_ok n]: whether [malloc(n)] succeeds. *)
Definition ios_pipe_create (calloc_ok : bool) (malloc_ok : Z → bool)
    (config : ios_pipe_config_t) : option ios_buffered_pipe :=
  if calloc_ok then
    let capacity := if bool_decide (0 < cfg_buffer_size config)
                    then cfg_buffer_size config else DEFAULT_BUFFER_SIZE in
    if malloc_ok capacity then
      Some (Pipe (replicate (Z.to_nat capacity) None) capacity 0 0 false false
              (cfg_suppress_sigpipe config) (cfg_read_timeout_ms config)
              (cfg_write_timeout_ms config) 0 0 0 0)
    else None
  else None.

Definition default_config : ios_pipe_config_t :=
  PipeConfig DEFAULT_BUFFER_SIZE DEFAULT_TIMEOUT_MS DEFAULT_TIMEOUT_MS true.

Definition ios_pipe_create_default (calloc_ok : bool) (malloc_ok : Z → bool)
    : option ios_buffered_pipe :=
  ios_pipe_create calloc_ok malloc_ok default_config.

(** ** Writing *)

(** How one pass through the loop of [ios_pipe_write_timeout] ends: the
    function returns, or it is about to wait on [space_available].  [sig]
    tells whether [data_available] was signalled. *)
Inductive write_end :=
  | WriteReturns (p : ios_buffered_pipe) (sig : bool) (ret : Z) (err : option errno)
  | WriteWaits (p : ios_buffered_pipe) (sig : bool) (total_written : Z).

Definition ssize_cast (n : Z) : Z := wrapS 64 n.

Definition write_iter (p : ios_buffered_pipe) (data : list byte) (size total : Z)
    : outcome write_end :=
  if bool_decide (total < size) then
    if p_read_closed p then
      Ret (WriteReturns p false (if bool_decide (0 < total) then ssize_cast total else -1)
             (Some EPIPE))
    else
      '(p1, written) ← ring_buffer_write p (Some <$> data) total (size -sz total);
      if bool_decide (0 < written) then
        let total1 := total +sz written in
        let p2 := add_total_written p1 written in
        if bool_decide (size ≤ total1)
        then Ret (WriteReturns p2 true (ssize_cast total1) None)
        else Ret (WriteWaits (incr_writer_waits p2) true total1)
      else Ret (WriteWaits (incr_writer_waits p1) false total)
  else Ret (WriteReturns p false (ssize_cast total) None).

(** The return value after [ETIMEDOUT]. *)
Definition write_timed_out (total : Z) : Z :=
  if bool_decide (0 < total) then ssize_cast total else -1.

(** ** Reading *)

Inductive read_end :=
  | ReadReturns (p : ios_buffered_pipe) (sig : bool) (dest : list cell) (ret : Z)
  | ReadWaits (p : ios_buffered_pipe) (total_read : Z).

Definition read_iter (p : ios_buffered_pipe) (dest : list cell) (size total : Z)
    : outcome read_end :=
  if bool_decide (total < size) then
    '(p1, dest1, bytes_read) ← ring_buffer_read p dest total (size -sz total);
    if bool_decide (0 < bytes_read) then
      let total1 := total +sz bytes_read in
      Ret (ReadReturns (add_total_read p1 bytes_read) true dest1 (ssize_cast total1))
    else if p_write_closed p1 then Ret (ReadReturns p1 false dest1 (ssize_cast total))
    else Ret (ReadWaits (incr_reader_waits p1) total)
  else Ret (ReadReturns p false dest (ssize_cast total)).

Definition read_timed_out (total : Z) : Z :=
  if bool_decide (0 < total) then ssize_cast total else -1.

(** ** Queries *)

Definition ios_pipe_poll_readable (pipe : option ios_buffered_pipe) : bool :=
  match pipe with
  | None => false
  | Some p => bool_decide (0 < ring_buffer_available p) || p_write_closed p
  end.

Definition ios_pipe_poll_writable (pipe : option ios_buffered_pipe) : bool :=
  match pipe with
  | None => false
  | Some p => bool_decide (0 < ring_buffer_space p)
              && negb (p_write_closed p) && negb (p_read_closed p)
  end.

Definition ios_pipe_available (pipe : option ios_buffered_pipe) : Z :=
  match pipe with None => 0 | Some p => ring_buffer_available p end.

Definition ios_pipe_space_available (pipe : option ios_buffered_pipe) : Z :=
  match pipe with None => 0 | Some p => ring_buffer_space p end.

Record ios_pipe_stats_t := PipeStats {
  bytes_written : Z; bytes_read : Z; buffer_used : Z; buffer_size : Z;
  writer_waits : Z; reader_waits : Z; is_closed : bool; is_eof : bool }.

(** [have_stats]: the caller's [stats] pointer is not [NULL]. *)
Definition ios_pipe_get_stats (pipe : option ios_buffered_pipe) (have_stats : bool)
    : ios_pipe_stats_t + errno :=
  match pipe with
  | Some p =>
      if have_stats then
        let used := ring_buffer_available p in
        inl (PipeStats (p_total_written p) (p_total_read p) used (p_capacity p)
               (p_writer_waits p) (p_reader_waits p) (p_write_closed p)
               (p_write_closed p && bool_decide (used = 0)))
      else inr EINVAL
  | None => inr EINVAL
  end.

(** One pass of the polling loop of [ios_pipe_flush]; [start] and [now] are
    the two readings of the clock.  [None]: sleep and poll again. *)
Definition flush_iter (p : ios_buffered_pipe) (timeout_ms : Z) (start now : timespec)
    : option (Z * option errno) :=
  if bool_decide (0 < ring_buffer_available p) then
    if bool_decide (0 ≤ timeout_ms) then
      let elapsed_ms := (tv_sec now - tv_sec start) * 1000
                        + (tv_nsec now - tv_nsec start) ÷ 1000000 in
      if bool_decide (timeout_ms ≤ elapsed_ms) then Some (-1, Some ETIMEDOUT) else None
    else None
  else Some (0, None).

Definition ios_pipe_get_read_fd (pipe : option ios_buffered_pipe) : Z := -1.
Definition ios_pipe_get_write_fd (pipe : option ios_buffered_pipe) : Z := -1.

(** The [funopen] callbacks: an [int] size becomes a [size_t]; a result
    becomes an [int]. *)
Definition fn_size (size : Z) : Z := wrapU 64 size.
Definition fn_result (result : Z) : Z := if bool_decide (result < 0) then -1 else wrapS 32 result.

(** ** The threads around a pipe

    One writer, one reader (the header of the C file: "single writer only",
    "single reader only") and closers.  A thread is at one of the points where
    it does not hold the mutex.  [woken] records that the condition variable
    the thread sleeps on was signalled; a sleeping thread may also wake up
    spuriously, so [woken] does not guard the wake-up events. *)

Inductive writer :=
  | WIdle
  | WCheckRead (data : list byte) (size timeout_ms : Z)
  | WLock (data : list byte) (size timeout_ms : Z)
  | WSleep (data : list byte) (size timeout_ms total : Z) (call : wait_call) (woken : bool).

Inductive reader :=
  | RIdle
  | RLock (dest : list cell) (size timeout_ms : Z)
  | RSleep (dest : list cell) (size timeout_ms total : Z) (call : wait_call) (woken : bool).

(** A finished call: the caller's block, the return value and [errno]. *)
Definition write_log : Type := list (list byte * Z * option errno).
Definition read_log : Type := list (list cell * Z * option errno).

Record sys := Sys {
  s_pipe : ios_buffered_pipe;
  s_writer : writer;
  s_reader : reader;
  s_closing_write : nat;  (* closers between the store and the broadcast *)
  s_closing_read : nat;
  s_writes : write_log;
  s_reads : read_log }.

Definition wake_reader (r : reader) : reader :=
  match r with RSleep d sz to n c _ => RSleep d sz to n c true | _ => r end.
Definition wake_writer (w : writer) : writer :=
  match w with WSleep d sz to n c _ => WSleep d sz to n c true | _ => w end.

Definition write_return (s : sys) (d : list byte) (ret : Z) (e : option errno) : sys :=
  Sys (s_pipe s) WIdle (s_reader s) (s_closing_write s) (s_closing_read s)
    (s_writes s ++ [(d, ret, e)]) (s_reads s).
Definition read_return (s : sys) (d : list cell) (ret : Z) (e : option errno) : sys :=
  Sys (s_pipe s) (s_writer s) RIdle (s_closing_write s) (s_closing_read s)
    (s_writes s) (s_reads s ++ [(d, ret, e)]).
Definition with_pipe (s : sys) (p : ios_buffered_pipe) : sys :=
  Sys p (s_writer s) (s_reader s) (s_closing_write s) (s_closing_read s) (s_writes s) (s_reads s).
Definition with_writer (s : sys) (w : writer) : sys :=
  Sys (s_pipe s) w (s_reader s) (s_closing_write s) (s_closing_read s) (s_writes s) (s_reads s).
Definition with_reader (s : sys) (r : reader) : sys :=
  Sys (s_pipe s) (s_writer s) r (s_closing_write s) (s_closing_read s) (s_writes s) (s_reads s).
Definition with_closing (s : sys) (w r : nat) : sys :=
  Sys (s_pipe s) (s_writer s) (s_reader s) w r (s_writes s) (s_reads s).

(** The rest of [ios_pipe_write_timeout] once it holds the mutex: one pass of
    the loop, then the return or the wait. *)
Definition write_locked (s : sys) (d : list byte) (size timeout_ms total : Z) (now : timespec)
    : outcome sys :=
  r ← write_iter (s_pipe s) d size total;
  Ret match r with
      | WriteReturns p sig ret e =>
          write_return (with_reader (with_pipe s p)
            (if sig then wake_reader (s_reader s) else s_reader s)) d ret e
      | WriteWaits p sig total1 =>
          let s1 := with_reader (with_pipe s p)
                      (if sig then wake_reader (s_reader s) else s_reader s) in
          match wait_with_timeout timeout_ms now with
          | WaitReturns e => write_return s1 d (write_timed_out total1) (Some e)
          | c => with_writer s1 (WSleep d size timeout_ms total1 c false)
          end
      end.

Definition read_locked (s : sys) (d : list cell) (size timeout_ms total : Z) (now : timespec)
    : outcome sys :=
  r ← read_iter (s_pipe s) d size total;
  Ret match r with
      | ReadReturns p sig d1 ret =>
          read_return (with_writer (with_pipe s p)
            (if sig then wake_writer (s_writer s) else s_writer s)) d1 ret None
      | ReadWaits p total1 =>
          let s1 := with_pipe s p in
          match wait_with_timeout timeout_ms now with
          | WaitReturns e => read_return s1 d (read_timed_out total1) (Some e)
          | c => with_reader s1 (RSleep d size timeout_ms total1 c false)
          end
      end.

(** The checks of [ios_pipe_write_timeout] before the lock: the arguments and
    [write_closed], then [read_closed]. *)
Definition write_enter (s : sys) (data : option (list byte)) (size timeout_ms : Z) : sys :=
  match data with
  | None => write_return s [] (-1) (Some EINVAL)
  | Some d =>
      if p_write_closed (s_pipe s) then write_return s d (-1) (Some EPIPE)
      else with_writer s (WCheckRead d size timeout_ms)
  end.
Definition write_check_read (s : sys) (d : list byte) (size timeout_ms : Z) : sys :=
  if p_read_closed (s_pipe s) then write_return s d 0 (Some EPIPE)
  else with_writer s (WLock d size timeout_ms).

(** The checks of [ios_pipe_read_timeout] before the lock. *)
Definition read_enter (s : sys) (dest : option (list cell)) (size timeout_ms : Z) : sys :=
  match dest with
  | None => read_return s [] (-1) (Some EINVAL)
  | Some d =>
      if p_read_closed (s_pipe s) then read_return s d 0 None
      else with_reader s (RLock d size timeout_ms)
  end.

(** The two halves of [ios_pipe_close_write] and [ios_pipe_close_read]: the
    atomic store, then the broadcast under the mutex. *)
Definition close_write_store (s : sys) : sys :=
  with_closing (with_pipe s (set_closed (s_pipe s) true (p_read_closed (s_pipe s))))
    (S (s_closing_write s)) (s_closing_read s).
Definition close_write_broadcast (s : sys) : sys :=
  with_closing (with_reader s (wake_reader (s_reader s)))
    (Nat.pred (s_closing_write s)) (s_closing_read s).
Definition close_read_store (s : sys) : sys :=
  with_closing (with_pipe s (set_closed (s_pipe s) (p_write_closed (s_pipe s)) true))
    (s_closing_write s) (S (s_closing_read s)).
Definition close_read_broadcast (s : sys) : sys :=
  with_closing (with_writer s (wake_writer (s_writer s)))
    (s_closing_write s) (Nat.pred (s_closing_read s)).

(** The uninterrupted calls, with their return value; [None] is a [NULL]
    pipe. *)
Definition ios_pipe_close_write (s : option sys) : option sys * Z * option errno :=
  match s with
  | None => (None, -1, Some EINVAL)
  | Some s => (Some (close_write_broadcast (close_write_store s)), 0, None)
  end.
Definition ios_pipe_close_read (s : option sys) : option sys * Z * option errno :=
  match s with
  | None => (None, -1, Some EINVAL)
  | Some s => (Some (close_read_broadcast (close_read_store s)), 0, None)
  end.

(** [ios_pipe_destroy] frees the pipe while no call is in progress on it;
    destroying a condition variable with a waiter is undefined. *)
Definition ios_pipe_destroy (s : option sys) : outcome (option sys) :=
  match s with
  | None => Ret None
  | Some s =>
      let '(s1, _, _) := ios_pipe_close_write (Some s) in
      let '(s2, _, _) := ios_pipe_close_read s1 in
      match s2 with
      | Some s2 =>
          match s_writer s2, s_reader s2 with
          | WIdle, RIdle => Ret None
          | _, _ => Undef LockMisuse
          end
      | None => Ret None
      end
  end.

(** [ios_pipe_write] and [ios_pipe_read] read the timeout of the pipe before
    the callee checks the pointer. *)
Definition ios_pipe_write (s : option sys) (data : option (list byte)) (size : Z) : outcome sys :=
  match s with
  | None => Undef NullDeref
  | Some s => Ret (write_enter s data size (p_write_timeout_ms (s_pipe s)))
  end.
Definition ios_pipe_read (s : option sys) (dest : option (list cell)) (size : Z) : outcome sys :=
  match s with
  | None => Undef NullDeref
  | Some s => Ret (read_enter s dest size (p_read_timeout_ms (s_pipe s)))
  end.

Inductive pipe_event :=
  | EvWrite (data : option (list byte)) (size timeout_ms : Z)
  | EvWriteCheckRead
  | EvWriteRun (now : timespec)     (* the mutex is acquired *)
  | EvWriteWake (now : timespec)    (* the wait returns, not by timeout *)
  | EvWriteTimeout
  | EvRead (dest : option (list cell)) (size timeout_ms : Z)
  | EvReadRun (now : timespec)
  | EvReadWake (now : timespec)
  | EvReadTimeout
  | EvCloseWrite | EvCloseWriteBroadcast
  | EvCloseRead | EvCloseReadBroadcast.

(** What a caller owes: a block of at least [size] bytes. *)
Definition block_ok {A} (d : option (list A)) (size : Z) : bool :=
  match d with
  | None => true
  | Some d => bool_decide (0 ≤ size ∧ size ≤ zlen d ∧ size ≤ PTRDIFF_MAX)
  end.

(** [Ret None]: the event is not enabled. *)
Definition pipe_exec (ev : pipe_event) (s : sys) : outcome (option sys) :=
  match ev, s_writer s, s_reader s with
  | EvWrite d size to, WIdle, _ =>
      if block_ok d size then Ret (Some (write_enter s d size to)) else Ret None
  | EvWriteCheckRead, WCheckRead d size to, _ => Ret (Some (write_check_read s d size to))
  | EvWriteRun now, WLock d size to, _ => Some <$> write_locked s d size to 0 now
  | EvWriteWake now, WSleep d size to total c w, _ => Some <$> write_locked s d size to total now
  | EvWriteTimeout, WSleep d size to total (CondTimedWait _) w, _ =>
      Ret (Some (write_return s d (write_timed_out total) (Some ETIMEDOUT)))
  | EvRead d size to, _, RIdle =>
      if block_ok d size then Ret (Some (read_enter s d size to)) else Ret None
  | EvReadRun now, _, RLock d size to => Some <$> read_locked s d size to 0 now
  | EvReadWake now, _, RSleep d size to total c w => Some <$> read_locked s d size to total now
  | EvReadTimeout, _, RSleep d size to total (CondTimedWait _) w =>
      Ret (Some (read_return s d (read_timed_out total) (Some ETIMEDOUT)))
  | EvCloseWrite, _, _ => Ret (Some (close_write_store s))
  | EvCloseWriteBroadcast, _, _ =>
      if bool_decide (0 < s_closing_write s)%nat
      then Ret (Some (close_write_broadcast s)) else Ret None
  | EvCloseRead, _, _ => Ret (Some (close_read_store s))
  | EvCloseReadBroadcast, _, _ =>
      if bool_decide (0 < s_closing_read s)%nat
      then Ret (Some (close_read_broadcast s)) else Ret None
  | _, _, _ => Ret None
  end.

Definition pipe_step (ev : pipe_event) (s : sys) : option sys :=
  match pipe_exec ev s with Ret o => o | Undef _ => None end.

(** A pipe that was just created; the allocation bound is the one of every
    C implementation ([malloc] never returns a block above [PTRDIFF_MAX]). *)
Definition pipe_init (s : sys) : Prop :=
  ∃ config p, ios_pipe_create true (λ n, bool_decide (n ≤ PTRDIFF_MAX)) config = Some p
              ∧ s = Sys p WIdle RIdle 0 0 [] [].

(** ** The ring under the mutex *)

Record pipe_wf (p : ios_buffered_pipe) : Prop := {
  wf_len : zlen (p_buffer p) = p_capacity p;
  wf_cap : 0 < p_capacity p ≤ PTRDIFF_MAX;
  wf_head : 0 ≤ p_head p < p_capacity p;
  wf_tail : 0 ≤ p_tail p < p_capacity p }.

(** The bytes in flight, oldest first. *)
Definition contents (p : ios_buffered_pipe) : list cell :=
  ring_slice (p_buffer p) (Z.to_nat (p_head p)) (Z.to_nat (ring_buffer_available p)).

Section ring_ops.
Context (p : ios_buffered_pipe) (Hwf : pipe_wf p).

Lemma available_eq :
  ring_buffer_available p =
  if bool_decide (p_head p ≤ p_tail p) then p_tail p - p_head p
  else p_capacity p - p_head p + p_tail p.
Proof using Hwf.
  destruct Hwf. unfold ring_buffer_available. case_bool_decide; by nowrap.
Qed.

Lemma available_range : 0 ≤ ring_buffer_available p < p_capacity p.
Proof using Hwf. destruct Hwf. rewrite available_eq. case_bool_decide; lia. Qed.

Lemma space_eq : ring_buffer_space p = p_capacity p - 1 - ring_buffer_available p.
Proof using Hwf.
  pose proof available_range. destruct Hwf. unfold ring_buffer_space. nowrap. lia.
Qed.

Lemma buffer_length : length (p_buffer p) = Z.to_nat (p_capacity p).
Proof using Hwf. destruct Hwf as [Hl ???]. unfold zlen in Hl. lia. Qed.

Lemma length_contents : zlen (contents p) = ring_buffer_available p.
Proof using Hwf.
  pose proof available_range. pose proof buffer_length. destruct Hwf.
  unfold contents, zlen. rewrite length_ring_slice by lia. lia.
Qed.

Lemma contents_nil : ring_buffer_available p = 0 → contents p = [].
Proof using Hwf. intros H. pose proof length_contents as L. rewrite H in L.
  apply nil_length_inv. unfold zlen in L. lia. Qed.

(** [tail] is [head] plus the number of bytes, modulo the capacity. *)
Lemma tail_eq :
  Z.to_nat (p_tail p) =
  ((Z.to_nat (p_head p) + Z.to_nat (ring_buffer_available p)) `mod` length (p_buffer p))%nat.
Proof using Hwf.
  pose proof available_range. rewrite buffer_length. rewrite available_eq in *. destruct Hwf.
  rewrite mod_once by (case_bool_decide; lia).
  case_bool_decide; case_decide; lia.
Qed.
End ring_ops.

(** The available count of a ring whose indices are [head] and [head + n]. *)
Lemma available_set (p : ios_buffered_pipe) b h n :
  pipe_wf p → 0 ≤ h < p_capacity p → 0 ≤ n < p_capacity p →
  ring_buffer_available (set_ring p b h ((h + n) `mod` p_capacity p)) = n.
Proof.
  intros [] ??. unfold ring_buffer_available, set_ring; simpl.
  destruct (decide (h + n < p_capacity p)).
  - rewrite Z.mod_small by lia. rewrite bool_decide_eq_true_2 by lia. nowrap. lia.
  - replace (h + n) with ((h + n - p_capacity p) + 1 * p_capacity p) by lia.
    rewrite Z.mod_add, Z.mod_small by lia.
    rewrite bool_decide_eq_false_2 by lia. nowrap. lia.
Qed.

(** The two [memcpy] calls of a write store the block in the ring. *)
Lemma copy_in_ring (buf src : list cell) (t off n : Z) :
  0 ≤ t < zlen buf → 0 < n ≤ zlen buf → 0 ≤ off → off + n ≤ zlen src →
  let first := if bool_decide (n < zlen buf - t) then n else zlen buf - t in
  (b1 ← memcpy buf t src off first;
   if bool_decide (first < n) then memcpy b1 0 src (off + first) (n - first) else Ret b1)
  = Ret (ring_store buf (Z.to_nat t) (ztake n (zdrop off src))).
Proof.
  intros Ht Hn Ho Hs first. unfold zlen in *.
  assert (0 < first ≤ n ∧ first ≤ Z.of_nat (length buf) - t) as Hf
    by (subst first; case_bool_decide; lia).
  assert (length (ztake n (zdrop off src)) = Z.to_nat n) as Hl.
  { unfold ztake, zdrop. rewrite length_take, length_drop. lia. }
  rewrite memcpy_ok by (unfold zlen; lia). simpl.
  set (b1 := _ ++ _ ++ _).
  assert (length b1 = length buf) as Hb1.
  { subst b1. unfold ztake, zdrop.
    rewrite !length_app, !length_take, !length_drop. lia. }
  assert (Z.to_nat first = Nat.min (length buf - Z.to_nat t) (Z.to_nat n)) as Ef.
  { subst first. case_bool_decide; lia. }
  unfold ring_store. rewrite Hl, <- Ef.
  assert (b1 = take (Z.to_nat t) buf ++ take (Z.to_nat first) (ztake n (zdrop off src))
               ++ drop (Z.to_nat t + Z.to_nat first) buf) as <-.
  { subst b1. unfold ztake, zdrop. rewrite take_take.
    replace (Nat.min (Z.to_nat first) (Z.to_nat n)) with (Z.to_nat first) by lia.
    do 3 f_equal. lia. }
  case_bool_decide.
  - rewrite memcpy_ok by (unfold zlen; lia). unfold ztake, zdrop. simpl.
    f_equal. f_equal; [|f_equal; lia].
    rewrite skipn_firstn_comm, drop_drop.
    f_equal; [lia|]. f_equal. lia.
  - replace (Z.to_nat n - Z.to_nat first)%nat with 0%nat by lia.
    rewrite drop_ge by lia. done.
Qed.

(** The two [memcpy] calls of a read copy the ring out. *)
Lemma copy_out_ring (buf dest : list cell) (h off n : Z) :
  0 ≤ h < zlen buf → 0 < n ≤ zlen buf → 0 ≤ off → off + n ≤ zlen dest →
  let first := if bool_decide (n < zlen buf - h) then n else zlen buf - h in
  (d1 ← memcpy dest off buf h first;
   if bool_decide (first < n) then memcpy d1 (off + first) buf 0 (n - first) else Ret d1)
  = Ret (ztake off dest ++ ring_slice buf (Z.to_nat h) (Z.to_nat n) ++ zdrop (off + n) dest).
Proof.
  intros Hh Hn Ho Hd first. unfold zlen in *.
  assert (0 < first ≤ n ∧ first ≤ Z.of_nat (length buf) - h) as Hf
    by (subst first; case_bool_decide; lia).
  rewrite memcpy_ok by (unfold zlen; lia). simpl. unfold ztake, zdrop.
  set (pre := take (Z.to_nat off) dest).
  assert (length pre = Z.to_nat off) as Lp by (subst pre; rewrite length_take; lia).
  set (a := take (Z.to_nat first) (drop (Z.to_nat h) buf)).
  assert (length a = Z.to_nat first) as La by (subst a; rewrite length_take, length_drop; lia).
  unfold ring_slice. case_bool_decide.
  - assert (first = Z.of_nat (length buf) - h) as Ef by (subst first; case_bool_decide; lia).
    assert (a = drop (Z.to_nat h) buf) as -> by (subst a; apply take_ge; rewrite length_drop; lia).
    rewrite length_drop in La.
    rewrite memcpy_ok by (unfold zlen; rewrite ?length_app, ?length_drop; lia).
    unfold ztake, zdrop. f_equal.
    rewrite (app_assoc pre), take_app_length' by (rewrite length_app, length_drop; lia).
    rewrite drop_app_ge by (rewrite length_app, length_drop; lia).
    rewrite drop_drop, length_app, length_drop, <- app_assoc. f_equal.
    rewrite (take_app_ge (drop (Z.to_nat h) buf)) by (rewrite length_drop; lia).
    rewrite length_drop, drop_0, <- app_assoc. f_equal.
    f_equal; f_equal; lia.
  - assert (first = n) as Ef by (subst first; case_bool_decide; lia).
    rewrite Ef. f_equal. f_equal. f_equal.
    subst a. rewrite take_app_le by (rewrite length_drop; lia). f_equal. lia.
Qed.

(** [ring_buffer_write]: it stores as many bytes as fit, after the content. *)
Lemma ring_buffer_write_spec p src off size :
  pipe_wf p → 0 ≤ off → 0 ≤ size → off + size ≤ zlen src →
  ∃ p', let n := Z.min size (ring_buffer_space p) in
    ring_buffer_write p src off size = Ret (p', n) ∧ pipe_wf p' ∧
    contents p' = contents p ++ ztake n (zdrop off src) ∧
    ring_buffer_available p' = ring_buffer_available p + n ∧
    p' = set_ring p (p_buffer p') (p_head p) (p_tail p').
Proof.
  intros Hwf Ho Hs Hl. pose proof (available_range p Hwf) as Ha.
  pose proof (space_eq p Hwf) as Hsp. pose proof (buffer_length p Hwf) as Hb.
  pose proof (tail_eq p Hwf) as Ht. pose proof Hwf as [Hlen Hcap Hhd Htl].
  unfold ring_buffer_write.
  assert ((if bool_decide (size < ring_buffer_space p) then size else ring_buffer_space p)
          = Z.min size (ring_buffer_space p)) as -> by (case_bool_decide; lia).
  set (n := Z.min _ _). case_bool_decide as Hn.
  { exists p. rewrite Hn. unfold ztake. simpl. rewrite app_nil_r, Z.add_0_r.
    split_and!; try done. by destruct p. }
  rewrite (wrapU_small 64 (p_capacity p - p_tail p)) by range_solve.
  set (first := if bool_decide (n < _) then n else _).
  assert (0 < first ≤ n) as Hf by (subst first; case_bool_decide; lia).
  rewrite (wrapU_small 64 (n - first)) by range_solve.
  rewrite (wrapU_small 64 (p_tail p + n)) by range_solve.
  pose proof (copy_in_ring (p_buffer p) src (p_tail p) off n) as Hc.
  rewrite Hlen in Hc. specialize (Hc ltac:(lia) ltac:(lia) ltac:(lia) ltac:(lia)).
  cbv zeta in Hc. fold first in Hc.
  apply outcome_bind_Ret in Hc as (b1 & Hc1 & Hc2). rewrite Hc1. simpl. rewrite Hc2. simpl.
  clear Hc1 Hc2.
  set (buf' := ring_store _ _ _). set (data := ztake n (zdrop off src)) in *.
  assert (length data = Z.to_nat n) as Hd.
  { unfold data, ztake, zdrop. unfold zlen in Hl. rewrite length_take, length_drop. lia. }
  assert (length buf' = length (p_buffer p)) as Hb' by (apply length_ring_store; lia).
  assert ((p_tail p + n) `mod` p_capacity p =
          (p_head p + (ring_buffer_available p + n)) `mod` p_capacity p) as Et.
  { rewrite available_eq by done. case_bool_decide; [f_equal; lia|].
    replace (p_head p + (p_capacity p - p_head p + p_tail p + n))
      with (p_tail p + n + 1 * p_capacity p) by lia. by rewrite Z.mod_add by lia. }
  rewrite Et. eexists. split_and!; [done| | | |done].
  - split; simpl; try done; [unfold zlen in *; lia|]. apply Z.mod_pos_bound. lia.
  - unfold contents. rewrite (available_set p buf' (p_head p) (ring_buffer_available p + n)) by (done || lia).
    simpl. unfold buf'. rewrite Z2Nat.inj_add, <- Hd, Ht by lia.
    apply ring_slice_store; lia.
  - apply available_set; done || lia.
Qed.

(** [ring_buffer_read]: it delivers the oldest bytes and removes them. *)
Lemma ring_buffer_read_spec p dest off size :
  pipe_wf p → 0 ≤ off → 0 ≤ size → off + size ≤ zlen dest →
  ∃ p', let n := Z.min size (ring_buffer_available p) in
    ring_buffer_read p dest off size =
      Ret (p', ztake off dest ++ ztake n (contents p) ++ zdrop (off + n) dest, n) ∧
    pipe_wf p' ∧ contents p' = zdrop n (contents p) ∧
    ring_buffer_available p' = ring_buffer_available p - n ∧
    p' = set_ring p (p_buffer p) (p_head p') (p_tail p).
Proof.
  intros Hwf Ho Hs Hl. pose proof (available_range p Hwf) as Ha.
  pose proof (buffer_length p Hwf) as Hb.
  pose proof Hwf as [Hlen Hcap Hhd Htl].
  unfold ring_buffer_read.
  assert ((if bool_decide (size < ring_buffer_available p) then size else ring_buffer_available p)
          = Z.min size (ring_buffer_available p)) as -> by (case_bool_decide; lia).
  set (n := Z.min _ _). case_bool_decide as Hn.
  { exists p. rewrite Hn. unfold ztake, zdrop. simpl.
    rewrite !Z.add_0_r, Z.sub_0_r, take_drop. split_and!; try done. by destruct p. }
  rewrite (wrapU_small 64 (p_capacity p - p_head p)) by range_solve.
  set (first := if bool_decide (n < _) then n else _).
  assert (0 < first ≤ n) as Hf by (subst first; case_bool_decide; lia).
  rewrite (wrapU_small 64 (n - first)) by range_solve.
  rewrite (wrapU_small 64 (p_head p + n)) by range_solve.
  pose proof (copy_out_ring (p_buffer p) dest (p_head p) off n) as Hc.
  rewrite Hlen in Hc. specialize (Hc ltac:(lia) ltac:(lia) ltac:(lia) ltac:(lia)).
  cbv zeta in Hc. fold first in Hc.
  apply outcome_bind_Ret in Hc as (b1 & Hc1 & Hc2). rewrite Hc1. simpl. rewrite Hc2. simpl.
  clear Hc1 Hc2.
  set (h' := (p_head p + n) `mod` p_capacity p).
  assert (0 ≤ h' < p_capacity p) as Hh' by (apply Z.mod_pos_bound; lia).
  assert (p_tail p = (h' + (ring_buffer_available p - n)) `mod` p_capacity p) as Et.
  { unfold h'. rewrite Zplus_mod_idemp_l.
    replace (p_head p + n + (ring_buffer_available p - n))
      with (p_head p + ring_buffer_available p) by lia.
    rewrite available_eq by done. case_bool_decide.
    - rewrite Z.mod_small; lia.
    - replace (p_head p + (p_capacity p - p_head p + p_tail p))
        with (p_tail p + 1 * p_capacity p) by lia.
      rewrite Z.mod_add, Z.mod_small by lia. done. }
  assert (ring_buffer_available (set_ring p (p_buffer p) h' (p_tail p))
          = ring_buffer_available p - n) as Hav.
  { rewrite Et. apply available_set; done || lia. }
  exists (set_ring p (p_buffer p) h' (p_tail p)). split_and!.
  - unfold contents, ztake at 3. by rewrite <- (ring_slice_take _ _ _ (Z.to_nat n)) by lia.
  - by split.
  - unfold contents. rewrite Hav. simpl. unfold zdrop.
    rewrite <- (ring_slice_drop _ _ _ (Z.to_nat n)) by lia. f_equal; [|lia].
    unfold h'. rewrite Hb, Z2Nat.inj_mod by lia. f_equal. lia.
  - done.
  - done.
Qed.

(** ** One pass of the loops *)

(** [p'] is [p] after the bytes [total .. total') of [data] were stored. *)
Record wrote (p p' : ios_buffered_pipe) (data : list byte) (total total' : Z) : Prop := {
  wrote_wf : pipe_wf p';
  wrote_le : total ≤ total';
  wrote_contents :
    contents p' = contents p ++ (Some <$> ztake (total' - total) (zdrop total data));
  wrote_available : ring_buffer_available p' = ring_buffer_available p + (total' - total);
  wrote_closed : p_write_closed p' = p_write_closed p ∧ p_read_closed p' = p_read_closed p;
  wrote_capacity : p_capacity p' = p_capacity p }.

Lemma wrote_stats p p' data m n a b c d :
  wrote p p' data m n → wrote p (set_stats p' a b c d) data m n.
Proof. intros [Hw ? ? ? ? ?]. split; try done. by destruct Hw; split. Qed.

Lemma wrote_refl p data total : pipe_wf p → wrote p p data total total.
Proof. intros. split; try done; rewrite ?Z.sub_diag; [|lia]. unfold ztake. simpl. by rewrite app_nil_r. Qed.

(** The bytes of a block that a call accepted, by its return value. *)
Definition accepted (d : list byte) (ret : Z) : list byte := ztake ret d.

Definition write_end_ok (p : ios_buffered_pipe) (data : list byte) (size total : Z)
    (r : write_end) : Prop :=
  match r with
  | WriteReturns p' sig ret e =>
      ∃ total', wrote p p' data total total' ∧ total' ≤ size ∧
        accepted data ret = ztake total' data ∧ (sig = false → total' = total) ∧
        (e = None → total' = size ∧ ret = size) ∧
        (∀ err, e = Some err → err = EPIPE ∧ p_read_closed p = true)
  | WriteWaits p' sig total' =>
      wrote p p' data total total' ∧ total' < size ∧
      (sig = false → total' = total) ∧
      ring_buffer_space p' = 0 ∧ p_read_closed p' = false
  end.

Lemma ssize_cast_id n : 0 ≤ n ≤ PTRDIFF_MAX → ssize_cast n = n.
Proof. intros. unfold ssize_cast. by nowrap. Qed.

Lemma timed_out_accepted (d : list byte) n :
  0 ≤ n ≤ PTRDIFF_MAX → accepted d (write_timed_out n) = ztake n d.
Proof.
  intros. unfold accepted, write_timed_out. case_bool_decide; [by rewrite ssize_cast_id|].
  by replace n with 0 by lia.
Qed.

Lemma write_iter_spec p data size total :
  pipe_wf p → 0 ≤ total ≤ size → size ≤ zlen data → size ≤ PTRDIFF_MAX →
  ∃ r, write_iter p data size total = Ret r ∧ write_end_ok p data size total r.
Proof.
  intros Hwf Ht Hd Hm. unfold write_iter. case_bool_decide as Hlt.
  2:{ eexists; split; [done|]. exists total. rewrite ssize_cast_id by lia.
      split_and!; [by apply wrote_refl|lia|done|done|intros _; lia|done]. }
  destruct (p_read_closed p) eqn:Hrc.
  { eexists; split; [done|]. exists total.
    split_and!; [by apply wrote_refl|lia| |done|done|].
    - apply timed_out_accepted; lia.
    - by intros ? [= <-]. }
  rewrite (wrapU_small 64 (size - total)) by range_solve.
  destruct (ring_buffer_write_spec p (Some <$> data) total (size - total))
    as (p' & Hw & Hwf' & Hc & Ha & Hp'); [done|lia|lia| |].
  { unfold zlen in *. rewrite length_fmap. lia. }
  rewrite Hw. simpl. set (n := Z.min _ _) in *.
  pose proof (available_range p Hwf) as Hr. pose proof (space_eq p Hwf) as Hs.
  pose proof (space_eq p' Hwf') as Hs'. pose proof (wf_cap p Hwf).
  assert (p_capacity p' = p_capacity p) as Hcap by (by rewrite Hp').
  assert (wrote p p' data total (total + n)) as Hwrote.
  { split; [done|lia| |lia|rewrite Hp'; done|done].
    rewrite Hc. f_equal. replace (total + n - total) with n by lia.
    unfold ztake, zdrop. by rewrite fmap_take, fmap_drop. }
  case_bool_decide as Hpos.
  - rewrite (wrapU_small 64 (total + n)) by range_solve. case_bool_decide as Hdone.
    + eexists; split; [done|]. exists (total + n). rewrite ssize_cast_id by lia.
      split_and!; [by repeat apply wrote_stats|lia|done|done| |done]. intros _. lia.
    + eexists; split; [done|]. split_and!; [by repeat apply wrote_stats|lia|done| |].
      * change (ring_buffer_space (incr_writer_waits (add_total_written p' n)))
          with (ring_buffer_space p'). lia.
      * simpl. by rewrite Hp'.
  - eexists; split; [done|]. replace total with (total + n) at 2 by lia.
    split_and!; [by repeat apply wrote_stats|lia|lia| |].
    + change (ring_buffer_space (incr_writer_waits p')) with (ring_buffer_space p'). lia.
    + simpl. by rewrite Hp'.
Qed.

(** [p'] is [p] after its [n] oldest bytes were removed. *)
Record took (p p' : ios_buffered_pipe) (n : Z) : Prop := {
  took_wf : pipe_wf p';
  took_range : 0 ≤ n ≤ ring_buffer_available p;
  took_contents : contents p' = zdrop n (contents p);
  took_available : ring_buffer_available p' = ring_buffer_available p - n;
  took_closed : p_write_closed p' = p_write_closed p ∧ p_read_closed p' = p_read_closed p;
  took_capacity : p_capacity p' = p_capacity p }.

Definition read_end_ok (p : ios_buffered_pipe) (size : Z) (r : read_end) : Prop :=
  match r with
  | ReadReturns p' sig d ret =>
      took p p' ret ∧ ztake ret d = ztake ret (contents p) ∧ ret ≤ size ∧
      (sig = false → ret = 0) ∧
      (ret = 0 → size = 0 ∨ (p_write_closed p = true ∧ contents p = []))
  | ReadWaits p' total' =>
      took p p' 0 ∧ total' = 0 ∧ 0 < size ∧ contents p = [] ∧ p_write_closed p' = false
  end.

Lemma took_stats p p' n a b c d : took p p' n → took p (set_stats p' a b c d) n.
Proof. intros [Hw ? ? ? ? ?]. split; try done. by destruct Hw; split. Qed.

Lemma took_refl p : pipe_wf p → took p p 0.
Proof. intros. pose proof (available_range p H). split; try done; lia. Qed.

Lemma read_iter_spec p dest size :
  pipe_wf p → 0 ≤ size ≤ zlen dest → size ≤ PTRDIFF_MAX →
  ∃ r, read_iter p dest size 0 = Ret r ∧ read_end_ok p size r.
Proof.
  intros Hwf Hd Hm. unfold read_iter. case_bool_decide as Hlt.
  2:{ eexists; split; [done|]. rewrite ssize_cast_id by done.
      split_and!; [by apply took_refl|done|lia|done|intros _; lia]. }
  rewrite (wrapU_small 64 (size - 0)) by range_solve. rewrite Z.sub_0_r.
  destruct (ring_buffer_read_spec p dest 0 size) as (p' & Hr & Hwf' & Hc & Ha & Hp');
    [done|lia|lia|lia|].
  rewrite Hr. simpl. set (n := Z.min _ _) in *.
  pose proof (available_range p Hwf) as Hav. pose proof (wf_cap p Hwf).
  pose proof (length_contents p Hwf) as Hlc.
  assert (took p p' n) as Htook.
  { split; try done; try lia; rewrite Hp'; done. }
  case_bool_decide as Hpos; simpl.
  - rewrite Z.add_0_l, (wrapU_small 64 n) by range_solve. eexists; split; [done|].
    rewrite ssize_cast_id by lia. simpl.
    split_and!; [by apply took_stats| |lia|done|lia].
    unfold ztake. simpl. rewrite take_app_le, take_take; [f_equal; lia|].
    unfold zlen in Hlc. rewrite length_take. lia.
  - assert (n = 0) as En by lia. rewrite En in *.
    assert (contents p = []) as Hnil by (apply contents_nil; [done|lia]).
    destruct (p_write_closed p') eqn:Hwc.
    + eexists; split; [done|]. change (ssize_cast 0) with 0.
      split_and!; [done|done|lia|done|]. intros _. right. split; [|done].
      destruct Htook as [_ _ _ _ [? _] _]. congruence.
    + eexists; split; [done|]. by split_and!; [apply took_stats|..].
Qed.

(** ** The invariant of the threads around a pipe *)

(** The bytes that the finished writes accepted and the reads delivered. *)
Definition acked (l : write_log) : list byte :=
  concat (map (λ e, accepted e.1.1 e.1.2) l).
Definition delivered (l : read_log) : list cell :=
  concat (map (λ e, ztake e.1.2 e.1.1) l).

(** The bytes of the write in progress that are already in the ring. *)
Definition in_progress (w : writer) : list byte :=
  match w with WSleep d _ _ total _ _ => ztake total d | _ => [] end.

Definition writer_ok (s : sys) : Prop :=
  match s_writer s with
  | WIdle => True
  | WCheckRead d size _ | WLock d size _ =>
      0 ≤ size ∧ size ≤ zlen d ∧ size ≤ PTRDIFF_MAX
  | WSleep d size _ total c woken =>
      (0 ≤ total < size ∧ size ≤ zlen d ∧ size ≤ PTRDIFF_MAX) ∧
      (woken = false →
       ring_buffer_space (s_pipe s) = 0 ∧
       (p_read_closed (s_pipe s) = true → (0 < s_closing_read s)%nat))
  end.

Definition reader_ok (s : sys) : Prop :=
  match s_reader s with
  | RIdle => True
  | RLock d size _ => 0 ≤ size ∧ size ≤ zlen d ∧ size ≤ PTRDIFF_MAX
  | RSleep d size _ total c woken =>
      (total = 0 ∧ 0 < size ∧ size ≤ zlen d ∧ size ≤ PTRDIFF_MAX) ∧
      (woken = false →
       ring_buffer_available (s_pipe s) = 0 ∧
       (p_write_closed (s_pipe s) = true → (0 < s_closing_write s)%nat))
  end.

Record sys_inv (s : sys) : Prop := {
  inv_wf : pipe_wf (s_pipe s);
  inv_stream : delivered (s_reads s) ++ contents (s_pipe s)
               = Some <$> (acked (s_writes s) ++ in_progress (s_writer s));
  inv_writer : writer_ok s;
  inv_reader : reader_ok s }.

Lemma acked_snoc l d r e : acked (l ++ [(d, r, e)]) = acked l ++ accepted d r.
Proof. unfold acked. rewrite map_app, concat_app. simpl. by rewrite app_nil_r. Qed.
Lemma delivered_snoc l d r e : delivered (l ++ [(d, r, e)]) = delivered l ++ ztake r d.
Proof. unfold delivered. rewrite map_app, concat_app. simpl. by rewrite app_nil_r. Qed.

Lemma acked_none l d r e : r ≤ 0 → acked (l ++ [(d, r, e)]) = acked l.
Proof.
  intros. rewrite acked_snoc. unfold accepted, ztake.
  replace (Z.to_nat r) with 0%nat by lia. apply app_nil_r.
Qed.
Lemma delivered_none l d r e : r ≤ 0 → delivered (l ++ [(d, r, e)]) = delivered l.
Proof.
  intros. rewrite delivered_snoc. unfold ztake.
  replace (Z.to_nat r) with 0%nat by lia. apply app_nil_r.
Qed.

Lemma in_progress_wake w : in_progress (wake_writer w) = in_progress w.
Proof. by destruct w. Qed.

(** Waking a thread up never breaks its condition. *)
Lemma writer_ok_wake p w r p' r' cw cr wl rl cw' cr' wl' rl' :
  writer_ok (Sys p w r cw cr wl rl) →
  writer_ok (Sys p' (wake_writer w) r' cw' cr' wl' rl').
Proof. unfold writer_ok. intros H. destruct w; simpl in *; try done. split; [tauto|done]. Qed.

Lemma reader_ok_wake p w r w' p' cw cr wl rl cw' cr' wl' rl' :
  reader_ok (Sys p w r cw cr wl rl) →
  reader_ok (Sys p' w' (wake_reader r) cw' cr' wl' rl').
Proof. unfold reader_ok. intros H. destruct r; simpl in *; try done. split; [tauto|done]. Qed.

(** A reader is not disturbed by a write that did not signal it, nor a
    writer by a read that did not. *)
Lemma reader_ok_wrote s p' w' wl' d m (sig : bool) n :
  reader_ok s → wrote (s_pipe s) p' d m n → (sig = false → n = m) →
  reader_ok (Sys p' w' (if sig then wake_reader (s_reader s) else s_reader s)
               (s_closing_write s) (s_closing_read s) wl' (s_reads s)).
Proof.
  intros Hr [_ _ _ Ha [Hwc _] _] Hs. destruct s as [p w r cw cr wl rl]; simpl in *.
  destruct sig; [by eapply reader_ok_wake|]. specialize (Hs eq_refl). subst n.
  unfold reader_ok in *. destruct r; simpl in *; try done.
  split; [tauto|]. intros Hw. destruct Hr as [_ Hr]. specialize (Hr Hw).
  rewrite Ha, Hwc. split; [lia|tauto].
Qed.

Lemma writer_ok_took s p' r' rl' (sig : bool) n :
  pipe_wf (s_pipe s) → writer_ok s → took (s_pipe s) p' n → (sig = false → n = 0) →
  writer_ok (Sys p' (if sig then wake_writer (s_writer s) else s_writer s) r'
               (s_closing_write s) (s_closing_read s) (s_writes s) rl').
Proof.
  intros Hwf Hw [Hwf' _ _ Ha [_ Hrc] Hcap] Hs. destruct s as [p w r cw cr wl rl]; simpl in *.
  destruct sig; [by eapply writer_ok_wake|]. specialize (Hs eq_refl). subst n.
  unfold writer_ok in *. destruct w; simpl in *; try done.
  split; [tauto|]. intros Hk. destruct Hw as [_ Hw]. specialize (Hw Hk).
  rewrite Hrc. rewrite !space_eq in * by done. split; [lia|tauto].
Qed.

Lemma ztake_extend {A} (d : list A) m n :
  0 ≤ m ≤ n → ztake m d ++ ztake (n - m) (zdrop m d) = ztake n d.
Proof.
  intros. unfold ztake, zdrop. rewrite take_take_drop. f_equal. lia.
Qed.

Lemma wrote_stream (s : sys) p' d total total' :
  sys_inv s → in_progress (s_writer s) = ztake total d → 0 ≤ total →
  wrote (s_pipe s) p' d total total' →
  delivered (s_reads s) ++ contents p' = Some <$> (acked (s_writes s) ++ ztake total' d).
Proof.
  intros [_ Hst _ _] Hp Ht [_ Hle Hc _ _ _]. rewrite Hc, app_assoc, Hst, Hp.
  rewrite <- fmap_app, <- app_assoc, ztake_extend by lia. done.
Qed.

(** The locked part of a write keeps the invariant and is well defined. *)
Lemma write_locked_inv s d size to total now :
  sys_inv s → in_progress (s_writer s) = ztake total d →
  0 ≤ total ≤ size → size ≤ zlen d → size ≤ PTRDIFF_MAX →
  ∃ s', write_locked s d size to total now = Ret s' ∧ sys_inv s'.
Proof.
  intros Hinv Hp Ht Hd Hm. pose proof Hinv as [Hwf Hst Hw Hr].
  destruct (write_iter_spec (s_pipe s) d size total) as (r & Hit & Hok); try done.
  unfold write_locked. rewrite Hit. simpl. eexists. split; [done|].
  destruct r as [p' sig ret e|p' sig total'].
  - destruct Hok as (total' & Hwr & Hle & Hacc & Hsig & _ & _).
    pose proof (wrote_stream _ _ _ _ _ Hinv Hp ltac:(lia) Hwr) as Hst'.
    split; simpl; [apply Hwr| |done|exact (reader_ok_wrote s p' _ _ d total sig total' Hr Hwr Hsig)].
    by rewrite acked_snoc, Hacc, app_nil_r.
  - destruct Hok as (Hwr & Hlt & Hsig & Hsp & Hrc).
    pose proof (wrote_stream _ _ _ _ _ Hinv Hp ltac:(lia) Hwr) as Hst'.
    pose proof (wrote_le _ _ _ _ _ Hwr).
    assert (accepted d (write_timed_out total') = ztake total' d) as Hto
      by (apply timed_out_accepted; lia).
    destruct (wait_with_timeout to now); (split; simpl; [apply Hwr| | |exact (reader_ok_wrote s p' _ _ d total sig total' Hr Hwr Hsig)]);
      rewrite ?acked_snoc, ?Hto, ?app_nil_r; try done.
    all: unfold writer_ok; simpl; split; [lia|]; intros _; split; [done|]; by rewrite Hrc.
Qed.

Lemma took_stream (s : sys) p' d n :
  sys_inv s → took (s_pipe s) p' n → ztake n d = ztake n (contents (s_pipe s)) →
  delivered (s_reads s) ++ ztake n d ++ contents p'
  = Some <$> (acked (s_writes s) ++ in_progress (s_writer s)).
Proof.
  intros [_ Hst _ _] [_ _ Hc _ _ _] ->. rewrite Hc. unfold ztake, zdrop. by rewrite take_drop.
Qed.

Lemma read_locked_inv s d size to now :
  sys_inv s → 0 ≤ size → size ≤ zlen d → size ≤ PTRDIFF_MAX →
  ∃ s', read_locked s d size to 0 now = Ret s' ∧ sys_inv s'.
Proof.
  intros Hinv Hs Hd Hm. pose proof Hinv as [Hwf Hst Hw Hr].
  destruct (read_iter_spec (s_pipe s) d size) as (r & Hit & Hok); try done.
  unfold read_locked. rewrite Hit. simpl. eexists. split; [done|].
  destruct r as [p' sig d' ret|p' total'].
  - destruct Hok as (Htk & Hdel & Hle & Hsig & _).
    pose proof (took_stream _ _ _ _ Hinv Htk Hdel) as Hst'.
    split; simpl; [apply Htk| |exact (writer_ok_took s p' _ _ sig ret Hwf Hw Htk Hsig)|done].
    rewrite delivered_snoc, <- app_assoc, Hst'. by destruct sig; rewrite ?in_progress_wake.
  - destruct Hok as (Htk & -> & Hpos & Hnil & Hwc).
    pose proof (took_stream _ _ d _ Hinv Htk eq_refl) as Hst'.
    assert (writer_ok (Sys p' (s_writer s) (s_reader s) (s_closing_write s) (s_closing_read s)
                         (s_writes s) (s_reads s))) as Hw'
      by exact (writer_ok_took s p' (s_reader s) (s_reads s) false 0 Hwf Hw Htk (λ _, eq_refl)).
    assert (ring_buffer_available p' = 0) as Hav.
    { destruct Htk as [Hwf' ? Hc Ha _ _]. rewrite <- length_contents by done.
      rewrite Hc, Hnil. done. }
    destruct (wait_with_timeout to now); (split; simpl; [apply Htk| |done|]);
      rewrite ?delivered_snoc, <- ?app_assoc; try done.
    all: unfold reader_ok; simpl; split; [lia|]; intros _; split; [done|]; by rewrite Hwc.
Qed.

(** The steps outside the lock keep the invariant. *)
Lemma write_enter_inv s d size to :
  sys_inv s → s_writer s = WIdle → block_ok d size = true → sys_inv (write_enter s d size to).
Proof.
  intros [Hwf Hst Hw Hr] Hi Hb. unfold write_enter. rewrite Hi in Hst. simpl in Hst.
  destruct d as [d|]; [case_match|]; split; simpl; try done.
  - by rewrite acked_none.
  - by apply bool_decide_eq_true in Hb.
  - by rewrite acked_none.
Qed.

Lemma write_check_read_inv s d size to :
  sys_inv s → s_writer s = WCheckRead d size to → sys_inv (write_check_read s d size to).
Proof.
  intros [Hwf Hst Hw Hr] Hi. unfold write_check_read, writer_ok in *. rewrite Hi in *.
  case_match; split; simpl; try done. by rewrite acked_none.
Qed.

Lemma write_timeout_inv s d size to total c w :
  sys_inv s → s_writer s = WSleep d size to total c w →
  sys_inv (write_return s d (write_timed_out total) (Some ETIMEDOUT)).
Proof.
  intros [Hwf Hst Hw Hr] Hi. unfold writer_ok in Hw. rewrite Hi in *. destruct Hw as [Hw _].
  split; simpl; try done. rewrite acked_snoc, timed_out_accepted, app_nil_r by lia. done.
Qed.

Lemma read_enter_inv s d size to :
  sys_inv s → s_reader s = RIdle → block_ok d size = true → sys_inv (read_enter s d size to).
Proof.
  intros [Hwf Hst Hw Hr] Hi Hb. unfold read_enter.
  destruct d as [d|]; [case_match|]; split; simpl; try done.
  - by rewrite delivered_none.
  - by apply bool_decide_eq_true in Hb.
  - by rewrite delivered_none.
Qed.

Lemma read_timeout_inv s d size to total c w :
  sys_inv s → s_reader s = RSleep d size to total c w →
  sys_inv (read_return s d (read_timed_out total) (Some ETIMEDOUT)).
Proof.
  intros [Hwf Hst Hw Hr] Hi. unfold reader_ok in Hr. rewrite Hi in *.
  destruct Hr as [[-> _] _]. split; simpl; try done. by rewrite delivered_none.
Qed.

Lemma close_write_inv s : sys_inv s → sys_inv (close_write_store s).
Proof.
  intros [[] Hst Hw Hr]. split; simpl; [by split|done|done|].
  unfold reader_ok in *. simpl in *. destruct (s_reader s); try done.
  destruct Hr as [? Hr]. split; [done|]. intros Hk. destruct (Hr Hk). split; [done|lia].
Qed.

Lemma close_read_inv s : sys_inv s → sys_inv (close_read_store s).
Proof.
  intros [[] Hst Hw Hr]. split; simpl; [by split|done| |done].
  unfold writer_ok in *. simpl in *. destruct (s_writer s); try done.
  destruct Hw as [? Hw]. split; [done|]. intros Hk. destruct (Hw Hk). split; [done|lia].
Qed.

Lemma close_write_broadcast_inv s : sys_inv s → sys_inv (close_write_broadcast s).
Proof.
  intros [Hwf Hst Hw Hr]. destruct s. split; simpl in *; try done. by eapply reader_ok_wake.
Qed.

Lemma close_read_broadcast_inv s : sys_inv s → sys_inv (close_read_broadcast s).
Proof.
  intros [Hwf Hst Hw Hr]. destruct s. split; simpl in *; try done.
  - by rewrite in_progress_wake.
  - by eapply writer_ok_wake.
Qed.

#[export] Hint Resolve write_enter_inv write_check_read_inv write_timeout_inv read_enter_inv
  read_timeout_inv close_write_inv close_read_inv close_write_broadcast_inv
  close_read_broadcast_inv : csys.

(** Every event is well defined and keeps the invariant. *)
Lemma pipe_exec_inv ev s :
  sys_inv s → ∃ o, pipe_exec ev s = Ret o ∧ ∀ s', o = Some s' → sys_inv s'.
Proof.
  intros Hinv.
  assert (∃ o, Ret (A:=option sys) None = Ret o ∧ ∀ s', o = Some s' → sys_inv s') as Hno
    by (eexists; split; [done|]; by intros ?).
  assert (∀ s1, sys_inv s1 → ∃ o, Ret (Some s1) = Ret o ∧ ∀ s', o = Some s' → sys_inv s') as Hyes
    by (intros ? ?; eexists; split; [done|]; by intros ? [= <-]).
  assert (∀ m, (∃ s1, m = Ret s1 ∧ sys_inv s1) →
          ∃ o, Some <$> m = Ret o ∧ ∀ s', o = Some s' → sys_inv s') as Hlock
    by (intros m (s1 & -> & Hi); by apply Hyes).
  pose proof (inv_writer s Hinv) as Hw. pose proof (inv_reader s Hinv) as Hr.
  unfold pipe_exec, writer_ok, reader_ok in *.
  destruct ev; repeat case_match; try exact Hno;
    try (apply Hyes; by eauto with csys).
  all: apply Hlock.
  all: lazymatch goal with
       | |- ∃ _, write_locked _ _ _ _ _ _ = _ ∧ _ =>
           apply write_locked_inv; [done| |lia..];
           match goal with H : s_writer _ = _ |- _ => by rewrite H end
       | |- ∃ _, read_locked _ _ _ _ 0 _ = _ ∧ _ => apply read_locked_inv; done || lia
       | |- _ => destruct Hr as [(-> & ?) _]; apply read_locked_inv; done || lia
       end.
Qed.

Lemma pipe_init_inv s : pipe_init s → sys_inv s.
Proof.
  intros (config & p & Hc & ->). unfold ios_pipe_create in Hc.
  set (cap := if bool_decide (0 < cfg_buffer_size config) then _ else _) in Hc.
  assert (0 < cap) as Hpos
    by (clear Hc; unfold cap, DEFAULT_BUFFER_SIZE; case_bool_decide; lia).
  case_bool_decide as Hmax; simplify_eq.
  split; simpl; try done. split; simpl; try lia.
  unfold zlen. rewrite length_replicate. lia.
Qed.

Lemma pipe_step_inv ev s s' : sys_inv s → pipe_step ev s = Some s' → sys_inv s'.
Proof.
  intros Hinv. unfold pipe_step.
  destruct (pipe_exec_inv ev s Hinv) as (o & -> & Ho). eauto.
Qed.

Lemma pipe_reachable_inv s : reachable pipe_step pipe_init s → sys_inv s.
Proof. apply reachable_invariant; eauto using pipe_init_inv, pipe_step_inv. Qed.

(** ** Theorems *)

(** A run with backpressure: a pipe of 4 bytes, a write of 5 that blocks, a
    read of 2, the writer resumes and blocks no more. *)
Definition demo_config : ios_pipe_config_t := PipeConfig 4 (-1) (-1) true.
Definition demo_pipe : ios_buffered_pipe :=
  Pipe (replicate 4 None) 4 0 0 false false true (-1) (-1) 0 0 0 0.
Definition demo_init : sys := Sys demo_pipe WIdle RIdle 0 0 [] [].
Definition demo_data : list byte := [x61; x62; x63; x64; x65]%byte.
Definition t0 : timespec := Timespec 0 0.
Definition demo_events : list pipe_event :=
  [EvWrite (Some demo_data) 5 (-1); EvWriteCheckRead; EvWriteRun t0;
   EvRead (Some (replicate 2 None)) 2 (-1); EvReadRun t0; EvWriteWake t0;
   EvRead (Some (replicate 8 None)) 8 (-1); EvReadRun t0;
   EvRead (Some (replicate 8 None)) 8 (-1); EvReadRun t0].
Definition demo_state (n : nat) : sys :=
  default demo_init (run pipe_step (take n demo_events) demo_init).

Lemma demo_reachable n :
  run pipe_step (take n demo_events) demo_init = Some (demo_state n) →
  reachable pipe_step pipe_init (demo_state n).
Proof.
  apply run_reachable, reachable_init. by exists demo_config, demo_pipe.
Defined.

(** C1: stream integrity.  In every interleaving of the writer, the reader and
    the closers, the bytes delivered by the finished reads followed by the
    bytes in the ring are exactly the bytes that the finished writes reported
    as written (each by its return value) followed by the part of the write in
    progress that is already stored: nothing is lost, duplicated, reordered or
    read uninitialised, and short counts are exact. *)
Theorem pipe_stream_integrity s :
  reachable pipe_step pipe_init s →
  delivered (s_reads s) ++ contents (s_pipe s)
  = Some <$> (acked (s_writes s) ++ in_progress (s_writer s)).
Proof. intros. by apply inv_stream, pipe_reachable_inv. Qed.

Lemma pipe_stream_integrity_witness :
  delivered (s_reads (demo_state 8)) ++ contents (s_pipe (demo_state 8))
  = Some <$> (acked (s_writes (demo_state 8)) ++ in_progress (s_writer (demo_state 8)))
  ∧ delivered (s_reads (demo_state 8)) = Some <$> demo_data.
Proof.
  split; [|by vm_compute].
  apply pipe_stream_integrity, demo_reachable. by vm_compute.
Defined.

(** memory safety of the ring.  No event of a reachable state has undefined
    behaviour: both [memcpy] of a read and of a write stay inside the ring and
    the caller's block, whatever the interleaving and the wrap-around. *)
Theorem pipe_no_undefined s ev :
  reachable pipe_step pipe_init s → defined (pipe_exec ev s).
Proof.
  intros Hr%pipe_reachable_inv. destruct (pipe_exec_inv ev s Hr) as (o & ? & _). by exists o.
Qed.

Lemma pipe_no_undefined_witness : defined (pipe_exec (EvWriteWake t0) (demo_state 5)).
Proof. apply pipe_no_undefined, demo_reachable. by vm_compute. Defined.

(** The condition variables: who sleeps without a pending wake-up. *)
Definition writer_asleep (s : sys) : Prop :=
  match s_writer s with WSleep _ _ _ _ _ false => True | _ => False end.
Definition reader_asleep (s : sys) : Prop :=
  match s_reader s with RSleep _ _ _ _ _ false => True | _ => False end.

(** no lost wake-up.  A writer that sleeps unsignalled sleeps on a full ring
    that still has a reader end, and a reader that sleeps unsignalled sleeps on
    an empty ring that still has a writer end; when the other end is already
    closed, its closer has yet to broadcast. *)
Theorem pipe_no_lost_wakeup s :
  reachable pipe_step pipe_init s →
  (writer_asleep s →
     ring_buffer_space (s_pipe s) = 0 ∧
     (p_read_closed (s_pipe s) = false ∨ (0 < s_closing_read s)%nat)) ∧
  (reader_asleep s →
     contents (s_pipe s) = [] ∧
     (p_write_closed (s_pipe s) = false ∨ (0 < s_closing_write s)%nat)).
Proof.
  intros [Hwf _ Hw Hr]%pipe_reachable_inv.
  unfold writer_ok, reader_ok, writer_asleep, reader_asleep in *. split; intros Ha.
  - destruct (s_writer s) as [| | |????? []]; try done. destruct Hw as [_ Hw].
    destruct (Hw eq_refl) as [? Hc]. destruct (p_read_closed (s_pipe s)); auto.
  - destruct (s_reader s) as [| |????? []]; try done. destruct Hr as [_ Hr].
    destruct (Hr eq_refl) as [? Hc]. split; [by apply contents_nil|].
    destruct (p_write_closed (s_pipe s)); auto.
Qed.

Lemma pipe_no_lost_wakeup_witness :
  writer_asleep (demo_state 3) ∧ ring_buffer_space (s_pipe (demo_state 3)) = 0.
Proof.
  assert (writer_asleep (demo_state 3)) as H by (vm_compute; exact I).
  split; [exact H|].
  refine (proj1 (proj1 (pipe_no_lost_wakeup (demo_state 3) _) H)).
  apply demo_reachable. by vm_compute.
Defined.

(** C33: deadlock freedom.  With room for at least one byte (a capacity of 2 or
    more), the writer and the reader never sleep at the same time without a
    pending wake-up. *)
Theorem pipe_no_deadlock s :
  reachable pipe_step pipe_init s → 2 ≤ p_capacity (s_pipe s) →
  ¬ (writer_asleep s ∧ reader_asleep s).
Proof.
  intros [Hwf _ Hw Hr]%pipe_reachable_inv Hcap [Ha Hb].
  unfold writer_ok, reader_ok, writer_asleep, reader_asleep in *.
  destruct (s_writer s) as [| | |????? []]; try done.
  destruct (s_reader s) as [| |????? []]; try done.
  destruct Hw as [_ Hw], Hr as [_ Hr]. destruct (Hw eq_refl), (Hr eq_refl).
  rewrite space_eq in * by done. lia.
Qed.

Lemma pipe_no_deadlock_witness :
  reader_asleep (demo_state 10) ∧
  ¬ (writer_asleep (demo_state 10) ∧ reader_asleep (demo_state 10)).
Proof.
  split; [vm_compute; exact I|].
  apply pipe_no_deadlock; [|by vm_compute]. apply demo_reachable. by vm_compute.
Defined.

(** The size a read in progress asked for. *)
Definition reader_size (r : reader) : Z :=
  match r with RIdle => 0 | RLock _ size _ | RSleep _ size _ _ _ _ => size end.

Lemma read_locked_eof s d size to now s' d' e :
  sys_inv s → 0 < size → size ≤ zlen d → size ≤ PTRDIFF_MAX →
  read_locked s d size to 0 now = Ret s' → s_reads s' = s_reads s ++ [(d', 0, e)] →
  p_write_closed (s_pipe s) = true ∧ contents (s_pipe s) = [].
Proof.
  intros [Hwf _ _ _] Hs Hd Hm Hl Hlog.
  destruct (read_iter_spec (s_pipe s) d size) as (r & Hit & Hok); [done|lia|done|].
  unfold read_locked in Hl. rewrite Hit in Hl. simpl in Hl.
  destruct r as [p' sig d1 ret|p' total'].
  - destruct Hok as (_ & _ & _ & _ & Hz). simplify_eq/=. destruct (Hz eq_refl) as [?|?]; [lia|done].
  - destruct Hok as (_ & -> & _). destruct (wait_with_timeout to now); simplify_eq/=.
    all: apply (f_equal length) in Hlog; rewrite length_app in Hlog; simpl in Hlog; lia.
Qed.

(** end of file is complete.  A read of a non-empty block that returns 0
    from inside the lock does so only when the write end is closed and every
    byte that any write stored has been delivered. *)
Theorem pipe_eof_complete s s' ev now d e :
  reachable pipe_step pipe_init s → ev = EvReadRun now ∨ ev = EvReadWake now →
  pipe_step ev s = Some s' → 0 < reader_size (s_reader s) →
  s_reads s' = s_reads s ++ [(d, 0, e)] →
  p_write_closed (s_pipe s) = true ∧
  delivered (s_reads s') = Some <$> (acked (s_writes s) ++ in_progress (s_writer s)).
Proof.
  intros Hreach Hev Hstep Hsz Hlog.
  pose proof (pipe_reachable_inv s Hreach) as Hinv. pose proof (inv_reader s Hinv) as Hr.
  assert (p_write_closed (s_pipe s) = true ∧ contents (s_pipe s) = []) as [Hwc Hnil].
  { unfold reader_ok, pipe_step, pipe_exec in *.
    destruct Hev as [-> | ->]; destruct (s_reader s); simpl in Hsz; try done; try lia;
      destruct (s_writer s); try done.
    all: try (destruct Hr as [(-> & ? & ? & ?) _]).
    all: match goal with
         | H : context [read_locked ?s ?d ?sz ?to 0 ?now] |- _ =>
             destruct (read_locked s d sz to 0 now) eqn:Hl; simplify_eq/=;
             eapply (read_locked_eof s d sz to now); eauto; lia
         end. }
  split; [done|]. rewrite Hlog, delivered_none by done.
  rewrite <- (inv_stream s Hinv), Hnil. by rewrite app_nil_r.
Qed.

Definition eof_events : list pipe_event :=
  [EvWrite (Some [x61]%byte) 1 (-1); EvWriteCheckRead; EvWriteRun t0; EvCloseWrite;
   EvRead (Some [None]) 1 (-1); EvReadRun t0; EvRead (Some [None]) 1 (-1)].
Definition eof_state : sys := default demo_init (run pipe_step eof_events demo_init).
Definition eof_state' : sys := default demo_init (pipe_step (EvReadRun t0) eof_state).

Lemma pipe_eof_complete_witness :
  p_write_closed (s_pipe eof_state) = true ∧
  delivered (s_reads eof_state')
  = Some <$> (acked (s_writes eof_state) ++ in_progress (s_writer eof_state)).
Proof.
  apply (pipe_eof_complete eof_state eof_state' (EvReadRun t0) t0 [None] None).
  - apply (run_reachable pipe_step pipe_init eof_events demo_init);
      [|by vm_compute]. apply reachable_init. by exists demo_config, demo_pipe.
  - by left.
  - by vm_compute.
  - by vm_compute.
  - by vm_compute.
Defined.

(** the ring is a queue.  From any well-formed state, storing a block that
    fits and then reading everything gives the old content followed by the
    block, whatever the wrap-around, and leaves the ring empty. *)
Theorem ring_roundtrip p (d : list byte) (dest : list cell) :
  pipe_wf p → zlen d ≤ ring_buffer_space p →
  zlen dest = ring_buffer_available p + zlen d →
  ∃ p1 p2,
    ring_buffer_write p (Some <$> d) 0 (zlen d) = Ret (p1, zlen d) ∧
    ring_buffer_read p1 dest 0 (zlen dest)
      = Ret (p2, contents p ++ (Some <$> d), zlen dest) ∧
    contents p2 = [].
Proof.
  intros Hwf Hfit Hdest. assert (0 ≤ zlen d) by (unfold zlen; lia).
  destruct (ring_buffer_write_spec p (Some <$> d) 0 (zlen d)) as (p1 & Hw & Hwf1 & Hc1 & Ha1 & _);
    [done|lia|lia|by unfold zlen; rewrite length_fmap|].
  rewrite Z.min_l in * by done.
  assert (contents p1 = contents p ++ (Some <$> d)) as Hc.
  { rewrite Hc1. f_equal. unfold ztake, zdrop, zlen. rewrite drop_0, Nat2Z.id.
    apply take_ge. by rewrite length_fmap. }
  assert (0 ≤ zlen dest) by (unfold zlen; lia).
  destruct (ring_buffer_read_spec p1 dest 0 (zlen dest)) as (p2 & Hr & Hwf2 & Hc2 & Ha2 & _);
    [done|lia|lia|lia|].
  assert (Z.min (zlen dest) (ring_buffer_available p1) = zlen dest) as Hmin by lia.
  rewrite Hmin in *. exists p1, p2. split_and!; [done| |apply contents_nil; [done|lia]].
  rewrite Hr. do 2 f_equal. f_equal. unfold ztake at 1. simpl. rewrite <- Hc.
  assert (ztake (zlen dest) (contents p1) = contents p1) as ->.
  { unfold ztake. apply take_ge. pose proof (length_contents p1 Hwf1) as Hl.
    unfold zlen in *. lia. }
  rewrite <- (app_nil_r (contents p1)) at 2. f_equal.
  unfold zdrop, zlen. apply drop_ge. lia.
Qed.

Definition wrapped_pipe : ios_buffered_pipe :=
  Pipe [None; None; None; Some x41] 4 3 0 false false true (-1) (-1) 0 0 0 0.
Lemma ring_roundtrip_witness :
  ∃ p1 p2,
    ring_buffer_write wrapped_pipe (Some <$> [x42; x43]%byte) 0 2 = Ret (p1, 2) ∧
    ring_buffer_read p1 [None; None; None] 0 3
      = Ret (p2, contents wrapped_pipe ++ (Some <$> [x42; x43]%byte), 3) ∧
    contents p2 = [].
Proof.
  apply (ring_roundtrip wrapped_pipe [x42; x43]%byte [None; None; None]);
    [split; by vm_compute|by vm_compute|by vm_compute].
Defined.

(** a timed wait ends exactly [timeout_ms] after the clock reading, and the
    deadline is a normalised [timespec]. *)
Theorem wait_deadline_exact timeout_ms now :
  0 < timeout_ms ≤ INT_MAX → 0 ≤ tv_nsec now < 1000000000 →
  ∃ dl, wait_with_timeout timeout_ms now = CondTimedWait dl ∧
    0 ≤ tv_nsec dl < 1000000000 ∧
    tv_sec dl * 1000000000 + tv_nsec dl
    = tv_sec now * 1000000000 + tv_nsec now + timeout_ms * 1000000.
Proof.
  intros Ht Hn. unfold wait_with_timeout.
  rewrite (bool_decide_eq_false_2 (timeout_ms < 0)) by lia.
  rewrite (bool_decide_eq_false_2 (timeout_ms = 0)) by lia.
  pose proof (Z.quot_rem' timeout_ms 1000). pose proof (Z.rem_bound_pos timeout_ms 1000).
  case_bool_decide; (eexists; split; [done|]; simpl; split; lia).
Qed.

Lemma wait_deadline_exact_witness :
  ∃ dl, wait_with_timeout 1500 (Timespec 7 600000000) = CondTimedWait dl ∧
    0 ≤ tv_nsec dl < 1000000000 ∧
    tv_sec dl * 1000000000 + tv_nsec dl = 7 * 1000000000 + 600000000 + 1500 * 1000000.
Proof.
  apply (wait_deadline_exact 1500 (Timespec 7 600000000)); [|simpl; lia].
  unfold INT_MAX. lia.
Defined.

(** a pipe configured with a one-byte buffer never carries a byte.  One slot
    of the ring is kept free, so every write finds no room; the header only
    asks for a positive [buffer_size]. *)
Theorem one_byte_pipe_stuck p src off size :
  pipe_wf p → p_capacity p = 1 → 0 ≤ size →
  ring_buffer_write p src off size = Ret (p, 0).
Proof.
  intros Hwf Hcap Hs. pose proof (space_eq p Hwf). pose proof (available_range p Hwf).
  unfold ring_buffer_write.
  rewrite (bool_decide_eq_false_2 (size < ring_buffer_space p)) by lia.
  by rewrite bool_decide_eq_true_2 by lia.
Qed.

Lemma one_byte_pipe_stuck_witness :
  ring_buffer_write (Pipe [None] 1 0 0 false false true (-1) (-1) 0 0 0 0) [Some x61] 0 1
  = Ret (Pipe [None] 1 0 0 false false true (-1) (-1) 0 0 0 0, 0).
Proof. apply one_byte_pipe_stuck; [split; by vm_compute|done|done]. Defined.
