(* ===== verification/Semaphore.v ===== *)
(** * Counting semaphores

    [ios_interpreter_pool.c] relies on the system's dispatch semaphores.  Their
    code is not part of the repository, so the pool is modelled over the
    interface [Semaphore] with the documented laws [SemaphoreLaws]; the counter
    at the end of the file shows that the laws can be met. *)

From S2P Require Import Prelude.

Local Open Scope Z_scope.

Class Semaphore (S : Type) := {
  sem_create : Z → S;         (* dispatch_semaphore_create *)
  sem_wait : S → option S;    (* dispatch_semaphore_wait; [None]: it would block *)
  sem_signal : S → S;         (* dispatch_semaphore_signal *)
  sem_value : S → Z           (* the number of waits that succeed at once *)
}.

Class SemaphoreLaws (S : Type) `{!Semaphore S} : Prop := {
  sem_value_create n : 0 ≤ n → sem_value (sem_create n) = n;
  sem_wait_Some s s' : sem_wait s = Some s' → 0 < sem_value s ∧ sem_value s' = sem_value s - 1;
  sem_wait_None s : sem_wait s = None → sem_value s = 0;
  sem_value_signal s : sem_value (sem_signal s) = sem_value s + 1
}.

(** The counter. *)
Record counter := Counter { count : N }.

#[export] Instance counter_semaphore : Semaphore counter := {
  sem_create n := Counter (Z.to_N n);
  sem_wait s := if bool_decide (count s = 0%N) then None else Some (Counter (count s - 1)%N);
  sem_signal s := Counter (count s + 1)%N;
  sem_value s := Z.of_N (count s)
}.

#[export] Instance counter_laws : SemaphoreLaws counter.
Proof.
  split; simpl.
  - intros. lia.
  - intros s s'. case_bool_decide; [done|]. intros [= <-]. simpl. lia.
  - intros s. case_bool_decide as E; [|done]. rewrite E. done.
  - intros s. lia.
Qed.

Lemma sem_wait_pos {S} `{SemaphoreLaws S} (s : S) :
  0 < sem_value s → ∃ s', sem_wait s = Some s'.
Proof.
  intros Hpos. destruct (sem_wait s) as [s'|] eqn:E; [eauto|].
  apply sem_wait_None in E. lia.
Qed.
