(* ===== verification/InterpreterPool.v ===== *)
(** * The interpreter pools ([src/ios_interpreter_pool.c])

    Per interpreter type, a bitmap of used slots updated by compare-and-swap
    and a semaphore that counts the free slots.  The file has
    - the operations as a single thread runs them ([ios_interp_acquire], ...),
      with the lazy initialisation, the configuration mutex and the error
      branches;
    - the transition system [pool_step] of any number of threads that acquire
      and release slots of one pool, cut at the atomic operations on the bitmap
      and the semaphore;
    - the theorems: mutual exclusion of slots, the accounting of the semaphore,
      the unreachability of the branch the code calls impossible. *)

From S2P Require Import Prelude Semaphore.

Local Open Scope Z_scope.
Local Open Scope c_scope.

Definition MAX_SLOTS_PER_TYPE : Z := 32.

Inductive ios_interpreter_type_t : Set :=
  | IOS_INTERP_PYTHON | IOS_INTERP_PERL | IOS_INTERP_TEX
  | IOS_INTERP_DASH | IOS_INTERP_SSH | IOS_INTERP_CURL | IOS_INTERP_MAX.
Global Instance interp_type_eq_dec : EqDecision ios_interpreter_type_t.
Proof. solve_decision. Defined.

Definition type_index (t : ios_interpreter_type_t) : nat :=
  match t with
  | IOS_INTERP_PYTHON => 0 | IOS_INTERP_PERL => 1 | IOS_INTERP_TEX => 2
  | IOS_INTERP_DASH => 3 | IOS_INTERP_SSH => 4 | IOS_INTERP_CURL => 5
  | IOS_INTERP_MAX => 6
  end%nat.

Definition get_default_pool_size (t : ios_interpreter_type_t) : Z :=
  match t with
  | IOS_INTERP_PYTHON => 6
  | IOS_INTERP_PERL => 4
  | IOS_INTERP_TEX => 2
  | IOS_INTERP_DASH => 6
  | IOS_INTERP_SSH => 2
  | IOS_INTERP_CURL => 1
  | IOS_INTERP_MAX => 1
  end.

Definition ios_interp_type_name (t : ios_interpreter_type_t) : string :=
  match t with
  | IOS_INTERP_PYTHON => "Python"
  | IOS_INTERP_PERL => "Perl"
  | IOS_INTERP_TEX => "TeX"
  | IOS_INTERP_DASH => "Dash"
  | IOS_INTERP_SSH => "SSH"
  | IOS_INTERP_CURL => "Curl"
  | IOS_INTERP_MAX => "Unknown"
  end.

(** ** Bitmaps of 32 slots *)

(** [1U << slot] has a value only below the width. *)
Definition slot_mask (slot : Z) : outcome Z :=
  if bool_decide (0 ≤ slot < 32) then Ret (Z.shiftl 1 slot) else Undef ShiftTooLarge.

(** [__builtin_popcount]. *)
Definition popcount (b : Z) : Z :=
  Z.of_nat (length (filter (λ i, Z.testbit b (Z.of_nat i) = true) (seq 0 32))).

(** The scan of [interp_pool_find_free_slot] over a snapshot of the bitmap,
    from [slot] on with [n] slots left: the first clear bit. *)
Fixpoint scan (bitmap slot : Z) (n : nat) : option Z :=
  match n with
  | O => None
  | S n => if bool_decide (Z.land bitmap (Z.shiftl 1 slot) = 0) then Some slot
           else scan bitmap (slot + 1) n
  end.

(** ** Single-threaded operations *)

Section operations.
Context {SEM : Type} `{!Semaphore SEM}.

Record interpreter_pool_t := Pool {
  ip_type : ios_interpreter_type_t;
  ip_max_slots : Z;
  ip_slot_bitmap : Z;
  ip_semaphore : option SEM;   (* [None]: the pointer is NULL *)
  ip_wait_count : Z;
  ip_mutex_live : bool;        (* config_mutex is initialised and not destroyed *)
  ip_initialized : bool }.

Record ios_interp_slot_handle := Handle {
  h_type : ios_interpreter_type_t;
  h_slot_number : Z }.

(** The globals of the file. *)
Record interp_state := InterpState {
  g_init_once : bool;            (* pthread_once has run *)
  manager_initialized : bool;
  g_pools : list interpreter_pool_t }.

Definition get_pool (g : interp_state) (t : ios_interpreter_type_t)
    : outcome interpreter_pool_t :=
  match g_pools g !! type_index t with Some p => Ret p | None => Undef OutOfBounds end.
Definition put_pool (g : interp_state) (t : ios_interpreter_type_t) (p : interpreter_pool_t)
    : interp_state :=
  InterpState (g_init_once g) (manager_initialized g) (<[type_index t := p]> (g_pools g)).

Definition set_bitmap (p : interpreter_pool_t) (b : Z) : interpreter_pool_t :=
  Pool (ip_type p) (ip_max_slots p) b (ip_semaphore p) (ip_wait_count p)
    (ip_mutex_live p) (ip_initialized p).
Definition set_sem (p : interpreter_pool_t) (s : option SEM) : interpreter_pool_t :=
  Pool (ip_type p) (ip_max_slots p) (ip_slot_bitmap p) s (ip_wait_count p)
    (ip_mutex_live p) (ip_initialized p).
Definition set_wait_count (p : interpreter_pool_t) (n : Z) : interpreter_pool_t :=
  Pool (ip_type p) (ip_max_slots p) (ip_slot_bitmap p) (ip_semaphore p) n
    (ip_mutex_live p) (ip_initialized p).

Definition interp_pool_init_once (g : interp_state) : interp_state :=
  InterpState true true
    (map (λ t, Pool t 0 0 None 0 true false)
       [IOS_INTERP_PYTHON; IOS_INTERP_PERL; IOS_INTERP_TEX;
        IOS_INTERP_DASH; IOS_INTERP_SSH; IOS_INTERP_CURL]).

Definition ios_interp_pool_init (g : interp_state) : interp_state :=
  if g_init_once g then g else interp_pool_init_once g.

(** [sem_ok]: [dispatch_semaphore_create] does not return [NULL]. *)
Definition interp_pool_init_type (sem_ok : bool) (g : interp_state)
    (t : ios_interpreter_type_t) (max_slots : Z) : outcome (interp_state * Z) :=
  if bool_decide (t = IOS_INTERP_MAX ∨ max_slots ≤ 0 ∨ MAX_SLOTS_PER_TYPE < max_slots)
  then Ret (g, -1) else
  pool ← get_pool g t;
  if ip_mutex_live pool then
    if ip_initialized pool then Ret (g, 0)
    else if sem_ok then
      Ret (put_pool g t (Pool (ip_type pool) max_slots 0 (Some (sem_create max_slots))
             (ip_wait_count pool) true true), 0)
    else
      Ret (put_pool g t (Pool (ip_type pool) max_slots 0 None (ip_wait_count pool) true false), -1)
  else Undef LockMisuse.

Definition shutdown_pool (p : interpreter_pool_t) : interpreter_pool_t :=
  Pool (ip_type p) (ip_max_slots p) (ip_slot_bitmap p) (ip_semaphore p) (ip_wait_count p) false
    (match ip_semaphore p with Some _ => false | None => ip_initialized p end).

Definition ios_interp_pool_shutdown (g : interp_state) : interp_state :=
  if manager_initialized g
  then InterpState (g_init_once g) false (map shutdown_pool (g_pools g))
  else g.

Definition ios_interp_pool_configure (sem_ok : bool) (g : interp_state)
    (t : ios_interpreter_type_t) (max_slots : Z) : outcome (interp_state * Z) :=
  let g := ios_interp_pool_init g in
  if bool_decide (t = IOS_INTERP_MAX) then Ret (g, -1) else
  pool ← get_pool g t;
  if ip_initialized pool then Ret (g, -1)
  else interp_pool_init_type sem_ok g t max_slots.

(** Without another thread the compare-and-swap succeeds. *)
Definition interp_pool_find_free_slot (p : interpreter_pool_t) : interpreter_pool_t * Z :=
  match scan (ip_slot_bitmap p) 0 (Z.to_nat (ip_max_slots p)) with
  | Some slot => (set_bitmap p (Z.lor (ip_slot_bitmap p) (Z.shiftl 1 slot)), slot)
  | None => (p, -1)
  end.

Definition interp_pool_try_acquire_slot_internal (p : interpreter_pool_t) (slot_num : Z)
    : outcome (interpreter_pool_t * bool) :=
  if bool_decide (slot_num < 0 ∨ ip_max_slots p ≤ slot_num) then Ret (p, false) else
  mask ← slot_mask slot_num;
  if bool_decide (Z.land (ip_slot_bitmap p) mask ≠ 0) then Ret (p, false)
  else Ret (set_bitmap p (Z.lor (ip_slot_bitmap p) mask), true).

(** How an acquisition ends; [Blocks]: the caller sleeps on the semaphore
    (an infinite timeout). *)
Inductive acquired :=
  | Acquired (h : ios_interp_slot_handle)
  | NotAcquired
  | Blocks.

Definition lazy_init (sem_ok : bool) (g : interp_state) (t : ios_interpreter_type_t)
    : outcome (interp_state * Z) :=
  pool ← get_pool g t;
  if ip_initialized pool then Ret (g, 0)
  else interp_pool_init_type sem_ok g t (get_default_pool_size t).

Definition ios_interp_acquire (sem_ok : bool) (g : interp_state)
    (t : ios_interpreter_type_t) (timeout_ms : Z) : outcome (interp_state * acquired) :=
  let g := ios_interp_pool_init g in
  if bool_decide (t = IOS_INTERP_MAX) then Ret (g, NotAcquired) else
  '(g, rc) ← lazy_init sem_ok g t;
  if bool_decide (rc ≠ 0) then Ret (g, NotAcquired) else
  pool ← get_pool g t;
  let pool := set_wait_count pool (ip_wait_count pool +i32 1) in
  match ip_semaphore pool with
  | None => Undef NullDeref
  | Some sem =>
      match sem_wait sem with
      | None =>
          if bool_decide (timeout_ms < 0) then Ret (put_pool g t pool, Blocks)
          else Ret (put_pool g t (set_wait_count pool (ip_wait_count pool -i32 1)), NotAcquired)
      | Some sem =>
          let pool := set_sem (set_wait_count pool (ip_wait_count pool -i32 1)) (Some sem) in
          let '(pool, slot) := interp_pool_find_free_slot pool in
          if bool_decide (slot < 0)
          then Ret (put_pool g t (set_sem pool (Some (sem_signal sem))), NotAcquired)
          else Ret (put_pool g t pool, Acquired (Handle t slot))
      end
  end.

Definition ios_interp_try_acquire_slot (sem_ok : bool) (g : interp_state)
    (t : ios_interpreter_type_t) (slot_number : Z)
    : outcome (interp_state * option ios_interp_slot_handle) :=
  let g := ios_interp_pool_init g in
  if bool_decide (t = IOS_INTERP_MAX) then Ret (g, None) else
  '(g, rc) ← lazy_init sem_ok g t;
  if bool_decide (rc ≠ 0) then Ret (g, None) else
  pool ← get_pool g t;
  match ip_semaphore pool with
  | None => Undef NullDeref
  | Some sem =>
      match sem_wait sem with
      | None => Ret (g, None)
      | Some sem =>
          let pool := set_sem pool (Some sem) in
          '(pool, ok) ← interp_pool_try_acquire_slot_internal pool slot_number;
          if (ok : bool) then Ret (put_pool g t pool, Some (Handle t slot_number))
          else Ret (put_pool g t (set_sem pool (Some (sem_signal sem))), None)
      end
  end.

(** [~mask] on 32 bits. *)
Definition clear_mask (bitmap mask : Z) : Z := Z.ldiff bitmap mask.

Definition ios_interp_release (g : interp_state) (handle : option ios_interp_slot_handle)
    : outcome interp_state :=
  match handle with
  | None => Ret g
  | Some h =>
      pool ← get_pool g (h_type h);
      if ip_initialized pool then
        mask ← slot_mask (h_slot_number h);
        match ip_semaphore pool with
        | None => Undef NullDeref
        | Some sem =>
            Ret (put_pool g (h_type h)
                   (set_sem (set_bitmap pool (clear_mask (ip_slot_bitmap pool) mask))
                      (Some (sem_signal sem))))
        end
      else Ret g
  end.

Definition ios_interp_get_slot_number (handle : option ios_interp_slot_handle) : Z :=
  match handle with Some h => h_slot_number h | None => -1 end.
Definition ios_interp_get_type (handle : option ios_interp_slot_handle)
    : ios_interpreter_type_t :=
  match handle with Some h => h_type h | None => IOS_INTERP_MAX end.

Definition ios_interp_has_available_slot (g : interp_state) (t : ios_interpreter_type_t)
    : outcome bool :=
  if bool_decide (t = IOS_INTERP_MAX) then Ret false else
  pool ← get_pool g t;
  if ip_initialized pool then
    mask ← slot_mask (ip_max_slots pool);
    let full_mask := wrapU 32 (mask - 1) in
    Ret (bool_decide (ip_slot_bitmap pool ≠ full_mask))
  else Ret true.

Record interp_stats := InterpStats { total_slots : Z; used_slots : Z; waiting : Z }.

Definition ios_interp_get_stats (g : interp_state) (t : ios_interpreter_type_t)
    : outcome (option interp_stats) :=
  if bool_decide (t = IOS_INTERP_MAX) then Ret None else
  pool ← get_pool g t;
  Ret (Some (InterpStats
    (if ip_initialized pool then ip_max_slots pool else 0)
    (if ip_initialized pool then popcount (ip_slot_bitmap pool) else 0)
    (ip_wait_count pool))).

Definition ios_interp_force_release_all (g : interp_state) (t : ios_interpreter_type_t)
    : outcome interp_state :=
  if bool_decide (t = IOS_INTERP_MAX) then Ret g else
  pool ← get_pool g t;
  if ip_initialized pool then
    match ip_semaphore pool with
    | None => Undef NullDeref
    | Some sem =>
        Ret (put_pool g t (set_sem (set_bitmap pool 0)
               (Some (Nat.iter (Z.to_nat (ip_max_slots pool)) sem_signal sem))))
    end
  else Ret g.
End operations.
Arguments interpreter_pool_t : clear implicits.
Arguments interp_state : clear implicits.

(** ** Bits *)

Lemma testbit_mask b slot :
  0 ≤ slot → (Z.land b (Z.shiftl 1 slot) = 0 ↔ Z.testbit b slot = false).
Proof.
  intros Hs. rewrite Z.shiftl_1_l. split.
  - intros H. rewrite <- (Z.testbit_0_l slot), <- H, Z.land_spec, Z.pow2_bits_true by done.
    by rewrite andb_true_r.
  - intros H. apply Z.bits_inj'. intros n Hn.
    rewrite Z.land_spec, Z.testbit_0_l, Z.pow2_bits_eqb by done.
    destruct (Z.eqb_spec slot n) as [->|]; [by rewrite H|apply andb_false_r].
Qed.

Lemma testbit_set b slot i :
  0 ≤ slot → 0 ≤ i →
  Z.testbit (Z.lor b (Z.shiftl 1 slot)) i = bool_decide (slot = i) || Z.testbit b i.
Proof.
  intros. rewrite Z.lor_spec, Z.shiftl_1_l, Z.pow2_bits_eqb, orb_comm by done.
  f_equal. destruct (Z.eqb_spec slot i); by case_bool_decide.
Qed.

Lemma testbit_clear b slot i :
  0 ≤ slot → 0 ≤ i →
  Z.testbit (clear_mask b (Z.shiftl 1 slot)) i = negb (bool_decide (slot = i)) && Z.testbit b i.
Proof.
  intros. unfold clear_mask. rewrite Z.ldiff_spec, Z.shiftl_1_l, Z.pow2_bits_eqb, andb_comm by done.
  f_equal. destruct (Z.eqb_spec slot i); by case_bool_decide.
Qed.

(** The number of set bits below [n]. *)
Definition count_bits (b : Z) (n : nat) : nat :=
  length (filter (λ i, Z.testbit b (Z.of_nat i) = true) (seq 0 n)).

Lemma popcount_count b : popcount b = Z.of_nat (count_bits b 32).
Proof. done. Qed.

Lemma count_bits_S b n :
  count_bits b (S n) = (count_bits b n + if Z.testbit b (Z.of_nat n) then 1 else 0)%nat.
Proof.
  unfold count_bits. rewrite seq_S, list.filter_app, length_app. simpl.
  rewrite list.filter_cons. by destruct (Z.testbit b (Z.of_nat n)); case_decide.
Qed.

Lemma count_bits_set b slot m :
  0 ≤ slot → Z.testbit b slot = false →
  count_bits (Z.lor b (Z.shiftl 1 slot)) m =
  (count_bits b m + if decide (slot < Z.of_nat m)%Z then 1 else 0)%nat.
Proof.
  intros Hs Hb. induction m as [|m IH]; [by rewrite decide_False by lia|].
  rewrite !count_bits_S, IH, testbit_set by lia.
  case_bool_decide as E.
  - subst slot. rewrite Hb. simpl. repeat case_decide; lia.
  - simpl. destruct (Z.testbit b (Z.of_nat m)); repeat case_decide; lia.
Qed.

Lemma count_bits_clear b slot m :
  0 ≤ slot → Z.testbit b slot = true →
  (count_bits (clear_mask b (Z.shiftl 1 slot)) m + if decide (slot < Z.of_nat m)%Z then 1 else 0)%nat
  = count_bits b m.
Proof.
  intros Hs Hb. induction m as [|m IH]; [by rewrite decide_False by lia|].
  rewrite !count_bits_S, <- IH, testbit_clear by lia.
  case_bool_decide as E.
  - subst slot. rewrite Hb. simpl. repeat case_decide; lia.
  - simpl. destruct (Z.testbit b (Z.of_nat m)); repeat case_decide; lia.
Qed.

Lemma count_bits_mono b m n : (m ≤ n)%nat → (count_bits b m ≤ count_bits b n)%nat.
Proof. induction 1; [done|]. rewrite count_bits_S. lia. Qed.

Lemma scan_Some b slot n s :
  0 ≤ slot → scan b slot n = Some s →
  slot ≤ s < slot + Z.of_nat n ∧ Z.testbit b s = false ∧
  ∀ i, slot ≤ i < s → Z.testbit b i = true.
Proof.
  revert slot. induction n as [|n IH]; intros slot Hs; simpl; [done|].
  case_bool_decide as E.
  - intros [= <-]. apply testbit_mask in E; [|done]. split; [lia|]. split; [done|]. intros. lia.
  - intros Hn. destruct (IH (slot + 1) ltac:(lia) Hn) as (? & ? & Hi).
    split; [lia|]. split; [done|]. intros i Hlt.
    destruct (decide (i = slot)) as [->|]; [|apply Hi; lia].
    apply not_false_iff_true. by rewrite <- testbit_mask.
Qed.

Lemma scan_None b slot n :
  0 ≤ slot → scan b slot n = None → ∀ i, slot ≤ i < slot + Z.of_nat n → Z.testbit b i = true.
Proof.
  revert slot. induction n as [|n IH]; intros slot Hs; simpl; [intros; lia|].
  case_bool_decide as E; [done|]. intros Hn i Hi.
  destruct (decide (i = slot)) as [->|].
  - apply not_false_iff_true. by rewrite <- testbit_mask.
  - apply (IH (slot + 1)); lia || done.
Qed.

Lemma count_bits_full b n :
  (∀ i, 0 ≤ i < Z.of_nat n → Z.testbit b i = true) → count_bits b n = n.
Proof.
  induction n as [|n IH]; intros H; [done|].
  rewrite count_bits_S, IH, H by (intros; try apply H; lia). lia.
Qed.

Lemma count_bits_high b max n :
  0 ≤ max → (∀ i, max ≤ i → Z.testbit b i = false) → (count_bits b n ≤ Z.to_nat max)%nat.
Proof.
  intros Hm Hhi. induction n as [|n IH]; [unfold count_bits; simpl; lia|].
  destruct (decide (max ≤ Z.of_nat n)).
  - rewrite count_bits_S, Hhi by done. lia.
  - transitivity (S n); [|lia]. unfold count_bits.
    etransitivity; [apply length_filter|]. by rewrite length_seq.
Qed.

(** A bitmap with fewer than [n] used slots has a free slot below [n]. *)
Lemma scan_finds b n :
  (n ≤ 32)%nat → popcount b < Z.of_nat n → is_Some (scan b 0 n).
Proof.
  intros Hn Hp. destruct (scan b 0 n) eqn:E; [eauto|].
  pose proof (scan_None b 0 n ltac:(lia) E) as Hall.
  pose proof (count_bits_full b n Hall). pose proof (count_bits_mono b n 32 Hn).
  rewrite popcount_count in Hp. lia.
Qed.

(** ** Threads that share a pool

    A thread is between two atomic operations of [ios_interp_acquire],
    [ios_interp_try_acquire_slot] or [ios_interp_release]. *)

Inductive thread : Set :=
  | Idle
  | Waiting                              (* acquire: before the semaphore *)
  | Loading                              (* acquire: about to load the bitmap *)
  | Scanning (bitmap : Z)                (* acquire: scanning this snapshot *)
  | NoSlot                               (* acquire: "semaphore passed but no free slot" *)
  | TryLoading (slot : Z)                (* try_acquire_slot: past the semaphore *)
  | TryCas (slot old_bitmap : Z)
  | TryFailed                            (* try_acquire_slot: about to signal *)
  | Holding (slot : Z)                   (* the caller owns a handle *)
  | Releasing (slot old_bitmap : Z)      (* release: in the CAS loop *)
  | Signalling.                          (* release: the bit is clear *)

Inductive pool_event : Set :=
  | EvAcquire | EvSemPass | EvSemTimeout | EvLoad | EvScan | EvNoSlot
  | EvTryAcquire (slot : Z) | EvTryLoad | EvTryCas (spurious : bool) | EvTrySignal
  | EvRelease | EvReleaseCas (spurious : bool) | EvReleaseSignal.

Section concurrent.
Context {SEM : Type} `{!Semaphore SEM}.

Record shared := Shared {
  sh_max : Z;
  sh_bitmap : Z;
  sh_sem : SEM;
  sh_wait : Z;
  sh_threads : list thread }.

Definition become (s : shared) (i : nat) (t : thread) : shared :=
  Shared (sh_max s) (sh_bitmap s) (sh_sem s) (sh_wait s) (<[i := t]> (sh_threads s)).
Definition with_bitmap (s : shared) (b : Z) : shared :=
  Shared (sh_max s) b (sh_sem s) (sh_wait s) (sh_threads s).
Definition with_sem (s : shared) (x : SEM) : shared :=
  Shared (sh_max s) (sh_bitmap s) x (sh_wait s) (sh_threads s).
Definition add_wait (s : shared) (n : Z) : shared :=
  Shared (sh_max s) (sh_bitmap s) (sh_sem s) (wrapS 32 (sh_wait s + n)) (sh_threads s).

(** Thread [i] makes one atomic step. *)
Definition thread_step (ev : pool_event) (i : nat) (t : thread) (s : shared) : option shared :=
  match ev, t with
  | EvAcquire, Idle => Some (become (add_wait s 1) i Waiting)
  | EvSemPass, Waiting =>
      match sem_wait (sh_sem s) with
      | Some x => Some (become (add_wait (with_sem s x) (-1)) i Loading)
      | None => None
      end
  | EvSemTimeout, Waiting => Some (become (add_wait s (-1)) i Idle)
  | EvLoad, Loading => Some (become s i (Scanning (sh_bitmap s)))
  | EvScan, Scanning b =>
      match scan b 0 (Z.to_nat (sh_max s)) with
      | None => Some (become s i NoSlot)
      | Some slot =>
          if bool_decide (sh_bitmap s = b)
          then Some (become (with_bitmap s (Z.lor b (Z.shiftl 1 slot))) i (Holding slot))
          else Some (become s i Loading)
      end
  | EvNoSlot, NoSlot => Some (become (with_sem s (sem_signal (sh_sem s))) i Idle)
  | EvTryAcquire slot, Idle =>
      match sem_wait (sh_sem s) with
      | Some x => Some (become (with_sem s x) i (TryLoading slot))
      | None => Some s
      end
  | EvTryLoad, TryLoading slot =>
      if bool_decide (slot < 0 ∨ sh_max s ≤ slot) then Some (become s i TryFailed)
      else Some (become s i (TryCas slot (sh_bitmap s)))
  | EvTryCas spurious, TryCas slot old =>
      if bool_decide (Z.land old (Z.shiftl 1 slot) ≠ 0) then Some (become s i TryFailed)
      else if bool_decide (sh_bitmap s = old) && negb spurious
      then Some (become (with_bitmap s (Z.lor old (Z.shiftl 1 slot))) i (Holding slot))
      else Some (become s i (TryCas slot (sh_bitmap s)))
  | EvTrySignal, TryFailed => Some (become (with_sem s (sem_signal (sh_sem s))) i Idle)
  | EvRelease, Holding slot => Some (become s i (Releasing slot (sh_bitmap s)))
  | EvReleaseCas spurious, Releasing slot old =>
      if bool_decide (sh_bitmap s = old) && negb spurious
      then Some (become (with_bitmap s (clear_mask old (Z.shiftl 1 slot))) i Signalling)
      else Some (become s i (Releasing slot (sh_bitmap s)))
  | EvReleaseSignal, Signalling => Some (become (with_sem s (sem_signal (sh_sem s))) i Idle)
  | _, _ => None
  end.

Definition pool_step (e : nat * pool_event) (s : shared) : option shared :=
  match sh_threads s !! e.1 with
  | Some t => thread_step e.2 e.1 t s
  | None => None
  end.

(** A pool that [interp_pool_init_type] just initialised, with idle threads. *)
Definition pool_init (s : shared) : Prop :=
  0 < sh_max s ≤ MAX_SLOTS_PER_TYPE ∧ sh_bitmap s = 0 ∧ sh_sem s = sem_create (sh_max s) ∧
  Forall (λ t, t = Idle) (sh_threads s).
End concurrent.
Arguments shared : clear implicits.

(** Threads that passed the semaphore and have no slot, and slot owners. *)
Definition pending (t : thread) : nat :=
  match t with
  | Loading | Scanning _ | NoSlot | TryLoading _ | TryCas _ _ | TryFailed | Signalling => 1
  | _ => 0
  end.
Definition owned (t : thread) : option Z :=
  match t with Holding slot | Releasing slot _ => Some slot | _ => None end.
Definition owns (t : thread) : nat := match owned t with Some _ => 1 | None => 0 end.

Section invariant.
Context {SEM : Type} `{!Semaphore SEM, !SemaphoreLaws SEM}.
Implicit Types s : shared SEM.

Record pool_inv s : Prop := {
  pi_max : 0 < sh_max s ≤ MAX_SLOTS_PER_TYPE;
  pi_high : ∀ i, sh_max s ≤ i → Z.testbit (sh_bitmap s) i = false;
  pi_sem : sem_value (sh_sem s) + Z.of_nat (sum_list_with pending (sh_threads s))
           + Z.of_nat (sum_list_with owns (sh_threads s)) = sh_max s;
  pi_sem_pos : 0 ≤ sem_value (sh_sem s);
  pi_count : popcount (sh_bitmap s) = Z.of_nat (sum_list_with owns (sh_threads s));
  pi_owned : ∀ i t slot, sh_threads s !! i = Some t → owned t = Some slot →
    0 ≤ slot < sh_max s ∧ Z.testbit (sh_bitmap s) slot = true;
  pi_distinct : ∀ i j ti tj slot, sh_threads s !! i = Some ti → sh_threads s !! j = Some tj →
    owned ti = Some slot → owned tj = Some slot → i = j;
  pi_scan : ∀ i b, sh_threads s !! i = Some (Scanning b) →
    is_Some (scan b 0 (Z.to_nat (sh_max s)));
  pi_try : ∀ i slot b, sh_threads s !! i = Some (TryCas slot b) → 0 ≤ slot < sh_max s;
  pi_no_slot : ∀ i, sh_threads s !! i ≠ Some NoSlot }.

(** The counts after thread [i] moves from [t] to [t']. *)
Lemma counts_become (ts : list thread) i t t' :
  ts !! i = Some t →
  (sum_list_with pending (<[i := t']> ts) + pending t
    = sum_list_with pending ts + pending t' ∧
   sum_list_with owns (<[i := t']> ts) + owns t = sum_list_with owns ts + owns t')%nat.
Proof. intros Hi. split; by apply sum_list_with_insert. Qed.

(** What a thread may become, whoever holds what. *)
Definition local_ok (max : Z) (t : thread) : Prop :=
  match t with
  | Scanning b => is_Some (scan b 0 (Z.to_nat max))
  | TryCas slot _ => 0 ≤ slot < max
  | NoSlot => False
  | _ => True
  end.

Lemma pool_inv_local s i t : pool_inv s → sh_threads s !! i = Some t → local_ok (sh_max s) t.
Proof.
  intros [] Hi. destruct t; simpl; try done; [eauto|by eapply pi_no_slot0|by eapply pi_try0].
Qed.

(** A step that leaves the bitmap and the owner alone. *)
Lemma inv_keep s i t t' x w :
  pool_inv s → sh_threads s !! i = Some t → owned t' = owned t →
  local_ok (sh_max s) t' → 0 ≤ sem_value x →
  sem_value x + Z.of_nat (pending t') = sem_value (sh_sem s) + Z.of_nat (pending t) →
  pool_inv (Shared (sh_max s) (sh_bitmap s) x w (<[i := t']> (sh_threads s))).
Proof.
  intros [] Hi Ho Hl Hx Hbal. destruct (counts_become _ i t t' Hi) as [Hp Hw].
  assert (owns t' = owns t) as Ew by (unfold owns; by rewrite Ho).
  split; simpl; try done; try lia.
  - intros j tj slot [(-> & <- & _)|[? ?]]%list_lookup_insert_Some Hs; [|eauto].
    rewrite Ho in Hs. eauto.
  - intros j k tj tk slot [(-> & <- & _)|[? ?]]%list_lookup_insert_Some
      [(-> & <- & _)|[? ?]]%list_lookup_insert_Some Hj Hk; rewrite ?Ho in *; eauto.
  - intros j b [(-> & -> & _)|[? ?]]%list_lookup_insert_Some; eauto.
  - intros j slot b [(-> & -> & _)|[? ?]]%list_lookup_insert_Some; eauto.
  - intros j [(-> & -> & _)|[? ?]]%list_lookup_insert_Some; [done|]. by eapply pi_no_slot0.
Qed.

(** A successful compare-and-swap that takes a free slot. *)
Lemma inv_take s i t slot :
  pool_inv s → sh_threads s !! i = Some t → owned t = None → pending t = 1%nat →
  0 ≤ slot < sh_max s → Z.testbit (sh_bitmap s) slot = false →
  pool_inv (become (with_bitmap s (Z.lor (sh_bitmap s) (Z.shiftl 1 slot))) i (Holding slot)).
Proof.
  intros [] Hi Ho Hpend Hs Hb. unfold MAX_SLOTS_PER_TYPE in *.
  destruct (counts_become _ i t (Holding slot) Hi) as [Hp Hw].
  assert (owns t = 0%nat) as Ew by (unfold owns; by rewrite Ho). simpl in *.
  change (owns (Holding slot)) with 1%nat in Hw.
  split; simpl; try done; try lia.
  - intros k Hk. rewrite testbit_set, pi_high0 by lia. rewrite bool_decide_eq_false_2 by lia. done.
  - rewrite popcount_count in *.
    rewrite count_bits_set by (done || lia). rewrite decide_True by lia. lia.
  - intros j tj sl [(-> & <- & _)|[? Hj]]%list_lookup_insert_Some Hsl; simplify_eq/=.
    + split; [done|]. rewrite testbit_set by lia. by rewrite bool_decide_eq_true_2.
    + destruct (pi_owned0 j tj sl Hj Hsl) as [? E]. split; [done|].
      rewrite testbit_set, E by lia. apply orb_true_r.
  - intros j k tj tk sl [(-> & <- & _)|[? Hj]]%list_lookup_insert_Some
      [(-> & <- & _)|[? Hk]]%list_lookup_insert_Some Hsj Hsk; simplify_eq/=; eauto;
      exfalso; [destruct (pi_owned0 _ _ _ Hk Hsk)|destruct (pi_owned0 _ _ _ Hj Hsj)]; congruence.
  - intros j b [(_ & ? & _)|[? ?]]%list_lookup_insert_Some; [done|eauto].
  - intros j sl b [(_ & ? & _)|[? ?]]%list_lookup_insert_Some; [done|eauto].
  - intros j [(_ & ? & _)|[? ?]]%list_lookup_insert_Some; [done|]. by eapply pi_no_slot0.
Qed.

(** A successful compare-and-swap that frees the thread's slot. *)
Lemma inv_free s i old slot :
  pool_inv s → sh_threads s !! i = Some (Releasing slot old) →
  pool_inv (become (with_bitmap s (clear_mask (sh_bitmap s) (Z.shiftl 1 slot))) i Signalling).
Proof.
  intros [] Hi. unfold MAX_SLOTS_PER_TYPE in *.
  destruct (pi_owned0 _ _ _ Hi eq_refl) as [Hs Hb].
  destruct (counts_become _ i _ Signalling Hi) as [Hp Hw]. simpl in *.
  change (owns (Releasing slot old)) with 1%nat in Hw. change (owns Signalling) with 0%nat in Hw.
  split; simpl; try done; try lia.
  - intros k Hk. rewrite testbit_clear, pi_high0 by lia. apply andb_false_r.
  - rewrite popcount_count in *.
    pose proof (count_bits_clear (sh_bitmap s) slot 32 ltac:(lia) Hb) as E.
    rewrite decide_True in E by lia. lia.
  - intros j tj sl [(_ & <- & _)|[? Hj]]%list_lookup_insert_Some Hsl; [done|].
    destruct (pi_owned0 j tj sl Hj Hsl) as [? E]. split; [done|].
    rewrite testbit_clear, E by lia. rewrite bool_decide_eq_false_2; [done|].
    intros ->. by pose proof (pi_distinct0 i j _ _ _ Hi Hj eq_refl Hsl).
  - intros j k tj tk sl [(_ & <- & _)|[? Hj]]%list_lookup_insert_Some
      [(_ & <- & _)|[? Hk]]%list_lookup_insert_Some Hsj Hsk; try done. eauto.
  - intros j b [(_ & ? & _)|[? ?]]%list_lookup_insert_Some; [done|eauto].
  - intros j sl b [(_ & ? & _)|[? ?]]%list_lookup_insert_Some; [done|eauto].
  - intros j [(_ & ? & _)|[? ?]]%list_lookup_insert_Some; [done|]. by eapply pi_no_slot0.
Qed.
End invariant.

Section theorems.
Context {SEM : Type} `{!Semaphore SEM, !SemaphoreLaws SEM}.
Implicit Types s : shared SEM.

Lemma pool_init_inv s : pool_init s → pool_inv s.
Proof.
  intros (Hmax & Hb & Hsem & Hidle). rewrite Forall_lookup in Hidle.
  assert (∀ f : thread → nat, f Idle = 0%nat → sum_list_with f (sh_threads s) = 0%nat) as Hz.
  { intros f Hf. assert (∀ l, Forall (λ t, t = Idle) l → sum_list_with f l = 0%nat) as Hall.
    { induction 1 as [|? l -> ? IH]; simpl; [done|lia]. }
    apply Hall. by apply Forall_lookup. }
  split; try done.
  - intros. by rewrite Hb, Z.bits_0.
  - rewrite Hsem, sem_value_create, !Hz by (done || lia). lia.
  - rewrite Hsem, sem_value_create; lia.
  - by rewrite Hb, Hz.
  - intros i t slot Hi Ho. by rewrite (Hidle i t Hi) in Ho.
  - intros i j ti tj slot Hi _ Ho. by rewrite (Hidle i ti Hi) in Ho.
  - intros i b Hi. by specialize (Hidle _ _ Hi).
  - intros i slot b Hi. by specialize (Hidle _ _ Hi).
  - intros i Hi. by specialize (Hidle _ _ Hi).
Qed.

(** A thread past the semaphore finds a free slot in the current bitmap. *)
Lemma pending_free_slot s i t :
  pool_inv s → sh_threads s !! i = Some t → pending t = 1%nat →
  is_Some (scan (sh_bitmap s) 0 (Z.to_nat (sh_max s))).
Proof.
  intros [] Hi Hp. unfold MAX_SLOTS_PER_TYPE in *.
  pose proof (sum_list_with_lookup pending _ _ _ Hi). apply scan_finds; lia.
Qed.

Lemma pool_step_inv e s s' : pool_inv s → pool_step e s = Some s' → pool_inv s'.
Proof.
  destruct e as [i ev]. unfold pool_step; simpl. intros Hinv Hstep.
  destruct (sh_threads s !! i) as [t|] eqn:Hi; [|done].
  pose proof (pool_inv_local s i t Hinv Hi) as Hloc. pose proof (pi_sem_pos s Hinv).
  destruct ev, t; simpl in Hstep; try done.
  - simplify_eq. apply (inv_keep s i Idle); done || lia.
  - destruct (sem_wait (sh_sem s)) as [x|] eqn:Hw; simplify_eq.
    apply sem_wait_Some in Hw as [? Hx]. apply (inv_keep s i Waiting); try done; simpl; lia.
  - simplify_eq. apply (inv_keep s i Waiting); done || lia.
  - simplify_eq. apply (inv_keep s i Loading); try done.
    by apply (pending_free_slot s i Loading).
  - destruct Hloc as [slot Hslot]. rewrite Hslot in Hstep.
    apply scan_Some in Hslot as (Hr & Hb & _); [|done].
    case_bool_decide as E; simplify_eq.
    + apply (inv_take s i (Scanning (sh_bitmap s))); try done. lia.
    + apply (inv_keep s i (Scanning bitmap)); done.
  - destruct (sem_wait (sh_sem s)) as [x|] eqn:Hw; simplify_eq; [|done].
    apply sem_wait_Some in Hw as [? Hx]. apply (inv_keep s i Idle); try done; simpl; lia.
  - case_bool_decide as E; simplify_eq; apply (inv_keep s i (TryLoading slot)); try done.
    simpl. lia.
  - case_bool_decide as E.
    { simplify_eq. apply (inv_keep s i (TryCas slot old_bitmap)); done. }
    destruct (bool_decide (sh_bitmap s = old_bitmap) && negb spurious) eqn:Hc; simplify_eq.
    + apply andb_prop in Hc as [<-%bool_decide_eq_true _]. simpl in Hloc.
      apply (inv_take s i (TryCas slot (sh_bitmap s))); try done.
      apply testbit_mask in E; [done|lia].
    + by apply (inv_keep s i (TryCas slot old_bitmap)).
  - simplify_eq. apply (inv_keep s i TryFailed); try done; pose proof (sem_value_signal (sh_sem s)); simpl; lia.
  - simplify_eq. by apply (inv_keep s i (Holding slot)).
  - destruct (bool_decide (sh_bitmap s = old_bitmap) && negb spurious) eqn:Hc; simplify_eq.
    + apply andb_prop in Hc as [<-%bool_decide_eq_true _]. by eapply inv_free.
    + by apply (inv_keep s i (Releasing slot old_bitmap)).
  - simplify_eq. apply (inv_keep s i Signalling); try done; pose proof (sem_value_signal (sh_sem s)); simpl; lia.
Qed.

Lemma pool_reachable_inv s : reachable pool_step pool_init s → pool_inv s.
Proof. apply reachable_invariant; eauto using pool_init_inv, pool_step_inv. Qed.

(** C9: mutual exclusion.  Whatever the interleaving of the lock-free acquire,
    try-acquire and release operations, two threads never own the same slot,
    and every owned slot is a slot of the pool whose bit is set. *)
Theorem interp_mutual_exclusion s i j ti tj a b :
  reachable pool_step pool_init s →
  sh_threads s !! i = Some ti → sh_threads s !! j = Some tj → i ≠ j →
  owned ti = Some a → owned tj = Some b →
  a ≠ b ∧ 0 ≤ a < sh_max s ∧ Z.testbit (sh_bitmap s) a = true.
Proof.
  intros Hr%pool_reachable_inv Hi Hj Hne Ha Hb. split.
  - intros ->. apply Hne. by eapply (pi_distinct s Hr).
  - exact (pi_owned s Hr i ti a Hi Ha).
Qed.

(** the branch "Semaphore passed but no free slot" of
    [ios_interp_acquire] is unreachable, and so is the wait of a thread that
    passed the semaphore: the snapshot it scans always has a free slot. *)
Theorem interp_slot_available s i :
  reachable pool_step pool_init s →
  sh_threads s !! i ≠ Some NoSlot ∧
  ∀ b, sh_threads s !! i = Some (Scanning b) → is_Some (scan b 0 (Z.to_nat (sh_max s))).
Proof. intros Hr%pool_reachable_inv. split; [apply (pi_no_slot s Hr)|apply (pi_scan s Hr)]. Qed.

(** accounting.  The semaphore counts exactly the slots that are neither
    owned nor promised to a thread past the semaphore, and the population
    count reported by [ios_interp_get_stats] is the number of owners. *)
Theorem interp_accounting s :
  reachable pool_step pool_init s →
  sem_value (sh_sem s) + Z.of_nat (sum_list_with pending (sh_threads s))
    + Z.of_nat (sum_list_with owns (sh_threads s)) = sh_max s ∧
  popcount (sh_bitmap s) = Z.of_nat (sum_list_with owns (sh_threads s)).
Proof. intros Hr%pool_reachable_inv. split; [apply (pi_sem s Hr)|apply (pi_count s Hr)]. Qed.
End theorems.

(** Three threads race for two slots: thread 0 and thread 1 scan the same
    snapshot, thread 1 loses the compare-and-swap and retries; thread 2 finds
    the semaphore exhausted. *)
Definition race_init : shared counter := Shared 2 0 (sem_create 2) 0 [Idle; Idle; Idle].
Definition race_events : list (nat * pool_event) :=
  [(0, EvAcquire); (1, EvAcquire); (2, EvAcquire); (0, EvSemPass); (1, EvSemPass);
   (0, EvLoad); (1, EvLoad); (0, EvScan); (1, EvScan); (1, EvLoad); (1, EvScan);
   (2, EvSemTimeout)]%nat.
Definition race_state (n : nat) : shared counter :=
  default race_init (run pool_step (take n race_events) race_init).

Lemma race_reachable n :
  run pool_step (take n race_events) race_init = Some (race_state n) →
  reachable pool_step pool_init (race_state n).
Proof.
  apply run_reachable, reachable_init. split; [by vm_compute|].
  split; [done|]. split; [done|]. repeat constructor.
Defined.

Lemma interp_mutual_exclusion_witness :
  0 ≠ 1 ∧ 0 ≤ 0 < sh_max (race_state 12) ∧ Z.testbit (sh_bitmap (race_state 12)) 0 = true.
Proof.
  apply (interp_mutual_exclusion (race_state 12) 0 1 (Holding 0) (Holding 1));
    [apply race_reachable|..]; by vm_compute.
Defined.

Lemma interp_slot_available_witness :
  sh_threads (race_state 10) !! 1%nat ≠ Some NoSlot ∧
  ∀ b, sh_threads (race_state 10) !! 1%nat = Some (Scanning b) →
       is_Some (scan b 0 (Z.to_nat (sh_max (race_state 10)))).
Proof. apply interp_slot_available, race_reachable. by vm_compute. Defined.

Lemma interp_accounting_witness :
  sem_value (sh_sem (race_state 8))
    + Z.of_nat (sum_list_with pending (sh_threads (race_state 8)))
    + Z.of_nat (sum_list_with owns (sh_threads (race_state 8))) = sh_max (race_state 8) ∧
  popcount (sh_bitmap (race_state 8)) = Z.of_nat (sum_list_with owns (sh_threads (race_state 8))).
Proof. apply interp_accounting, race_reachable. by vm_compute. Defined.

(** ** The operations of one thread *)

Section sequential.
Context {SEM : Type} `{!Semaphore SEM, !SemaphoreLaws SEM}.
Implicit Types g : interp_state SEM.

(** An initialised pool at rest: the semaphore counts the clear bits. *)
Record pool_ok (p : interpreter_pool_t SEM) (sem : SEM) : Prop := {
  ok_init : ip_initialized p = true;
  ok_max : 0 < ip_max_slots p ≤ MAX_SLOTS_PER_TYPE;
  ok_high : ∀ i, ip_max_slots p ≤ i → Z.testbit (ip_slot_bitmap p) i = false;
  ok_nonneg : 0 ≤ ip_slot_bitmap p;
  ok_sem : ip_semaphore p = Some sem;
  ok_value : sem_value sem = ip_max_slots p - popcount (ip_slot_bitmap p) }.

Lemma get_put_pool g t p :
  (type_index t < length (g_pools g))%nat → get_pool (put_pool g t p) t = Ret p.
Proof. intros. unfold get_pool, put_pool; simpl. by rewrite list_lookup_insert_eq. Qed.

Lemma get_pool_length g t p : get_pool g t = Ret p → (type_index t < length (g_pools g))%nat.
Proof.
  unfold get_pool. destruct (g_pools g !! type_index t) eqn:E; [|done].
  intros _. by apply lookup_lt_Some in E.
Qed.

Lemma put_put_pool g t p q : put_pool (put_pool g t p) t q = put_pool g t q.
Proof. unfold put_pool; simpl. by rewrite list_insert_insert_eq. Qed.

Lemma lor_land_clear b slot :
  0 ≤ slot → Z.testbit b slot = false →
  clear_mask (Z.lor b (Z.shiftl 1 slot)) (Z.shiftl 1 slot) = b.
Proof.
  intros Hs Hb. apply Z.bits_inj'. intros i Hi.
  rewrite testbit_clear, testbit_set by done.
  case_bool_decide; simplify_eq/=; by rewrite ?Hb.
Qed.

(** [ios_interp_acquire] on a pool at rest hands out the lowest free
    slot when the semaphore is positive and reports failure (or blocks, for a
    negative timeout) when every slot is used; nothing else changes. *)
Theorem interp_acquire_spec g t pool sem timeout_ms :
  g_init_once g = true → t ≠ IOS_INTERP_MAX → get_pool g t = Ret pool → pool_ok pool sem →
  - 2 ^ 31 < ip_wait_count pool < 2 ^ 31 - 1 →
  match scan (ip_slot_bitmap pool) 0 (Z.to_nat (ip_max_slots pool)) with
  | Some slot =>
      ∃ sem', sem_wait sem = Some sem' ∧
      ios_interp_acquire true g t timeout_ms =
        Ret (put_pool g t (set_bitmap (set_sem pool (Some sem'))
               (Z.lor (ip_slot_bitmap pool) (Z.shiftl 1 slot))),
             Acquired (Handle t slot))
  | None =>
      ios_interp_acquire true g t timeout_ms =
        if bool_decide (timeout_ms < 0)
        then Ret (put_pool g t (set_wait_count pool (ip_wait_count pool + 1)), Blocks)
        else Ret (put_pool g t pool, NotAcquired)
  end.
Proof.
  intros Honce Hmax Hget [] Hwc. unfold ios_interp_acquire, ios_interp_pool_init, lazy_init.
  rewrite Honce, (bool_decide_eq_false_2 (t = IOS_INTERP_MAX)) by done.
  rewrite Hget. simpl. rewrite ok_init0. simpl. rewrite Hget. simpl. rewrite ok_sem0.
  rewrite (wrapS_small 32 (ip_wait_count pool + 1)), wrapS_small by lia.
  replace (ip_wait_count pool + 1 - 1) with (ip_wait_count pool) by lia.
  destruct (scan _ 0 _) as [slot|] eqn:Hscan.
  - pose proof (scan_Some _ _ _ _ (Z.le_refl 0) Hscan) as (Hr & Hb & _).
    assert (0 < sem_value sem) as Hpos.
    { pose proof (count_bits_set (ip_slot_bitmap pool) slot 32 ltac:(lia) Hb) as Hc.
      unfold MAX_SLOTS_PER_TYPE in *. rewrite decide_True in Hc by lia.
      assert (∀ i, ip_max_slots pool ≤ i →
        Z.testbit (Z.lor (ip_slot_bitmap pool) (Z.shiftl 1 slot)) i = false) as Hhi.
      { intros i Hi. rewrite testbit_set, ok_high0 by lia.
        by rewrite bool_decide_eq_false_2 by lia. }
      pose proof (count_bits_high _ (ip_max_slots pool) 32 ltac:(lia) Hhi) as Hle.
      rewrite popcount_count in ok_value0. lia. }
    destruct (sem_wait_pos sem Hpos) as [sem' Hw]. exists sem'. split; [done|]. rewrite Hw.
    unfold interp_pool_find_free_slot. simpl. rewrite Hscan. simpl.
    rewrite bool_decide_eq_false_2 by lia. by destruct pool.
  - assert (sem_wait sem = None) as ->.
    { destruct (sem_wait sem) as [x|] eqn:E; [|done]. apply sem_wait_Some in E as [Hp _].
      pose proof (scan_None _ _ _ (Z.le_refl 0) Hscan) as Hall.
      pose proof (count_bits_full _ _ Hall). unfold MAX_SLOTS_PER_TYPE in *.
      pose proof (count_bits_mono (ip_slot_bitmap pool) (Z.to_nat (ip_max_slots pool)) 32).
      rewrite popcount_count in ok_value0. lia. }
    case_bool_decide; by destruct pool.
Qed.

(** release undoes acquire: the bitmap, the semaphore count and every
    other pool are what they were before the acquisition. *)
Theorem interp_acquire_release g t pool sem timeout_ms g' h :
  g_init_once g = true → t ≠ IOS_INTERP_MAX → get_pool g t = Ret pool → pool_ok pool sem →
  - 2 ^ 31 < ip_wait_count pool < 2 ^ 31 - 1 →
  ios_interp_acquire true g t timeout_ms = Ret (g', Acquired h) →
  ∃ sem'', ios_interp_release g' (Some h) = Ret (put_pool g t (set_sem pool (Some sem''))) ∧
           sem_value sem'' = sem_value sem.
Proof.
  intros Honce Hmax Hget Hok Hwc Hacq.
  pose proof (interp_acquire_spec g t pool sem timeout_ms Honce Hmax Hget Hok Hwc) as Hspec.
  destruct (scan _ 0 _) as [slot|] eqn:Hscan.
  2:{ rewrite Hacq in Hspec. case_bool_decide; simplify_eq. }
  destruct Hspec as (sem' & Hw & Hspec). rewrite Hacq in Hspec. simplify_eq.
  apply scan_Some in Hscan as (Hr & Hb & _); [|done]. destruct Hok.
  unfold MAX_SLOTS_PER_TYPE in *. exists (sem_signal sem').
  split; [|rewrite sem_value_signal; apply sem_wait_Some in Hw; lia].
  unfold ios_interp_release. simpl. rewrite get_put_pool by (by eapply get_pool_length). simpl.
  rewrite ok_init0. unfold slot_mask. rewrite bool_decide_eq_true_2 by lia. simpl.
  rewrite put_put_pool, lor_land_clear by (done || lia). by destruct pool.
Qed.
End sequential.

(** A pool of one interpreter type, as [ios_interp_pool_configure] leaves it. *)
Definition python_pools (max : Z) : interp_state counter :=
  match ios_interp_pool_configure true (InterpState false false []) IOS_INTERP_PYTHON max with
  | Ret (g, _) => g
  | Undef _ => InterpState false false []
  end.
Definition python_pool (max : Z) : interpreter_pool_t counter :=
  Pool IOS_INTERP_PYTHON max 0 (Some (sem_create max)) 0 true true.

Lemma python_pool_ok : pool_ok (python_pool 6) (sem_create 6).
Proof. split; try done. intros. apply Z.testbit_0_l. Defined.

Lemma interp_acquire_spec_witness :
  ∃ sem', sem_wait (sem_create 6 : counter) = Some sem' ∧
  ios_interp_acquire true (python_pools 6) IOS_INTERP_PYTHON 1000 =
    Ret (put_pool (python_pools 6) IOS_INTERP_PYTHON
           (set_bitmap (set_sem (python_pool 6) (Some sem')) (Z.lor 0 (Z.shiftl 1 0))),
         Acquired (Handle IOS_INTERP_PYTHON 0)).
Proof.
  exact (interp_acquire_spec (python_pools 6) IOS_INTERP_PYTHON (python_pool 6) (sem_create 6)
           1000 eq_refl ltac:(done) eq_refl python_pool_ok ltac:(by vm_compute)).
Defined.

Lemma interp_acquire_release_witness :
  ∃ g' h sem'', ios_interp_acquire true (python_pools 6) IOS_INTERP_PYTHON 0
                  = Ret (g', Acquired h) ∧
    ios_interp_release g' (Some h)
    = Ret (put_pool (python_pools 6) IOS_INTERP_PYTHON (set_sem (python_pool 6) (Some sem''))) ∧
    sem_value sem'' = 6.
Proof.
  assert (ios_interp_acquire true (python_pools 6) IOS_INTERP_PYTHON 0
    = Ret (put_pool (python_pools 6) IOS_INTERP_PYTHON
             (set_bitmap (set_sem (python_pool 6) (Some (Counter 5))) 1),
           Acquired (Handle IOS_INTERP_PYTHON 0))) as Hacq by (by vm_compute).
  destruct (interp_acquire_release (python_pools 6) IOS_INTERP_PYTHON (python_pool 6)
    (sem_create 6) 0 _ _ eq_refl ltac:(done) eq_refl python_pool_ok ltac:(by vm_compute) Hacq)
    as (sem'' & Hrel & Hv).
  eexists _, _, sem''. split; [exact Hacq|]. split; [exact Hrel|exact Hv].
Defined.

Section queries.
Context {SEM : Type} `{!Semaphore SEM, !SemaphoreLaws SEM}.
Implicit Types g : interp_state SEM.

Lemma full_bitmap b max :
  0 ≤ max → 0 ≤ b → (∀ i, max ≤ i → Z.testbit b i = false) →
  b = Z.ones max ↔ scan b 0 (Z.to_nat max) = None.
Proof.
  intros Hm Hb Hhi. split.
  - intros ->. destruct (scan _ _ _) as [s|] eqn:E; [|done].
    apply scan_Some in E as (? & E & _); [|done]. rewrite Z.ones_spec_low in E by lia. done.
  - intros E. apply Z.bits_inj'. intros i Hi.
    destruct (decide (i < max)).
    + rewrite Z.ones_spec_low by lia. eapply scan_None; [|done|]; lia.
    + rewrite Z.ones_spec_high by lia. apply Hhi. lia.
Qed.

(** for pools of at most 31 slots [ios_interp_has_available_slot] answers
    exactly whether an acquisition would find a slot. *)
Theorem interp_has_available_spec g t pool sem :
  t ≠ IOS_INTERP_MAX → get_pool g t = Ret pool → pool_ok pool sem → ip_max_slots pool < 32 →
  ios_interp_has_available_slot g t =
    Ret (bool_decide (is_Some (scan (ip_slot_bitmap pool) 0 (Z.to_nat (ip_max_slots pool))))).
Proof.
  intros Hmax Hget [] Hlt. unfold ios_interp_has_available_slot.
  rewrite (bool_decide_eq_false_2 (t = IOS_INTERP_MAX)), Hget by done. simpl.
  rewrite ok_init0. unfold slot_mask. rewrite (bool_decide_eq_true_2 (0 ≤ _ < 32)) by lia.
  simpl. f_equal. rewrite Z.shiftl_1_l.
  assert (0 < 2 ^ ip_max_slots pool ≤ 2 ^ 31) by (split; [lia|apply Z.pow_le_mono_r; lia]).
  rewrite wrapU_small by lia.
  assert (2 ^ ip_max_slots pool - 1 = Z.ones (ip_max_slots pool)) as ->
    by (rewrite Z.ones_equiv; lia).
  pose proof (full_bitmap (ip_slot_bitmap pool) (ip_max_slots pool)
                ltac:(lia) ok_nonneg0 ok_high0) as Hf.
  apply bool_decide_ext. rewrite Hf. apply not_eq_None_Some.
Qed.

(** a pool configured with the documented maximum of 32 slots makes
    [ios_interp_has_available_slot] shift a 32-bit value by 32 places. *)
Theorem interp_has_available_32 g t pool :
  t ≠ IOS_INTERP_MAX → get_pool g t = Ret pool → ip_initialized pool = true →
  ip_max_slots pool = MAX_SLOTS_PER_TYPE →
  ios_interp_has_available_slot g t = Undef ShiftTooLarge.
Proof.
  intros Hmax Hget Hi Hm. unfold ios_interp_has_available_slot.
  rewrite (bool_decide_eq_false_2 (t = IOS_INTERP_MAX)), Hget by done. simpl. by rewrite Hi, Hm.
Qed.

(** after [ios_interp_pool_shutdown] the pools are not usable again: the
    one-time initialisation does not run a second time, and the next
    acquisition locks a destroyed mutex. *)
Theorem interp_acquire_after_shutdown g t pool sem_ok timeout_ms :
  g_init_once g = true → manager_initialized g = true → t ≠ IOS_INTERP_MAX →
  get_pool g t = Ret pool → (ip_semaphore pool = None → ip_initialized pool = false) →
  ios_interp_acquire sem_ok (ios_interp_pool_shutdown g) t timeout_ms = Undef LockMisuse.
Proof.
  intros Ho Hm Ht Hget Hs. unfold ios_interp_pool_shutdown. rewrite Hm.
  unfold ios_interp_acquire, ios_interp_pool_init. simpl. rewrite Ho.
  rewrite (bool_decide_eq_false_2 (t = IOS_INTERP_MAX)) by done.
  unfold lazy_init, interp_pool_init_type, get_pool in *. simpl.
  destruct (g_pools g !! type_index t) as [p|] eqn:E; simplify_eq/=.
  rewrite list_lookup_fmap, E. simpl.
  destruct (ip_semaphore pool); [|rewrite Hs by done]; by destruct t.
Qed.
End queries.

Lemma interp_has_available_spec_witness :
  ios_interp_has_available_slot (python_pools 6) IOS_INTERP_PYTHON
  = Ret (bool_decide (is_Some (scan 0 0 6))).
Proof.
  exact (interp_has_available_spec (python_pools 6) IOS_INTERP_PYTHON (python_pool 6)
           (sem_create 6) ltac:(done) eq_refl python_pool_ok ltac:(by vm_compute)).
Defined.

Lemma interp_has_available_32_witness :
  ios_interp_has_available_slot (python_pools 32) IOS_INTERP_PYTHON = Undef ShiftTooLarge.
Proof.
  by apply (interp_has_available_32 (python_pools 32) IOS_INTERP_PYTHON (python_pool 32)).
Defined.

Lemma interp_acquire_after_shutdown_witness :
  ios_interp_acquire true (ios_interp_pool_shutdown (python_pools 6)) IOS_INTERP_PYTHON 0
  = Undef LockMisuse.
Proof.
  by apply (interp_acquire_after_shutdown (python_pools 6) IOS_INTERP_PYTHON (python_pool 6)).
Defined.
