(* ===== verification/ThreadPool.v ===== *)
(** * The thread pool ([src/ios_thread_pool.c])

    Work items with a reference count, four circular queues (one per
    priority) under a mutex, worker threads, and the callers that submit,
    cancel, wait for and release items.
    - Data: [struct _ios_work_item], [struct _ios_thread_pool]; the heap of
      items is a map from addresses, and a freed item is absent from it, so a
      use after free is visible.
    - Operations on the queues run under [queue_mutex]: [enqueue_work],
      [dequeue_work].
    - [tp_exec] is the transition system of the submitters, the workers and
      the holders of item handles, cut at the lock acquisitions and the atomic
      operations.
    - Theorems: FIFO order per priority without loss or duplication, strict
      priority, absence of use after free, capacity bounds; and the behaviours
      of cancellation, draining, shutdown and callbacks that differ from the
      header. *)

From S2P Require Import Prelude Ring.

Local Open Scope Z_scope.
Local Open Scope c_scope.

Definition DEFAULT_MAX_QUEUE_SIZE : Z := 256.
Definition DEFAULT_THREAD_NAME : string := "ios_worker".

(** Addresses of work items, and opaque C pointers (arguments, results). *)
Abbreviation addr := nat (only parsing).
Abbreviation ptr := Z (only parsing).

Inductive work_state_t : Set :=
  | WORK_PENDING | WORK_EXECUTING | WORK_COMPLETED | WORK_CANCELLED.
Global Instance work_state_eq_dec : EqDecision work_state_t.
Proof. solve_decision. Defined.

Inductive ios_work_priority_t : Set :=
  | IOS_PRIORITY_LOW | IOS_PRIORITY_NORMAL | IOS_PRIORITY_HIGH | IOS_PRIORITY_URGENT.
Global Instance work_priority_eq_dec : EqDecision ios_work_priority_t.
Proof. solve_decision. Defined.

Definition pidx (p : ios_work_priority_t) : nat :=
  match p with
  | IOS_PRIORITY_LOW => 0 | IOS_PRIORITY_NORMAL => 1
  | IOS_PRIORITY_HIGH => 2 | IOS_PRIORITY_URGENT => 3
  end%nat.

Record ios_work_item := WorkItem {
  wi_work_fn : ptr;
  wi_arg : ptr;
  wi_result : ptr;
  wi_priority : ios_work_priority_t;
  wi_callback : option ptr;
  wi_user_data : ptr;
  wi_state : work_state_t;
  wi_ref_count : Z }.

(** One priority: [queue_<p>], [queue_head[p]], [queue_tail[p]],
    [queue_count[p]] and [queue_capacity[p]]; [None] is a [NULL] entry. *)
Record work_queue := WorkQueue {
  q_slots : list (option addr);
  q_head : Z;
  q_tail : Z;
  q_count : Z;
  q_capacity : Z }.

Record ios_thread_pool := ThreadPool {
  tp_num_threads : Z;
  tp_max_queue_size : Z;
  tp_enable_priorities : bool;
  tp_name : string;
  tp_queues : list work_queue;          (* indexed by priority *)
  tp_shutdown : bool;
  tp_draining : bool;
  tp_active_workers : Z;
  tp_total_submitted : Z;
  tp_total_completed : Z;
  tp_total_dropped : Z }.

Abbreviation heap := (gmap addr ios_work_item) (only parsing).

(** ** Work items *)

Definition work_item_create (calloc_ok : bool) (fn arg : ptr) (priority : ios_work_priority_t)
    : option ios_work_item :=
  if calloc_ok then Some (WorkItem fn arg 0 priority None 0 WORK_PENDING 1) else None.

Definition set_state (it : ios_work_item) (st : work_state_t) : ios_work_item :=
  WorkItem (wi_work_fn it) (wi_arg it) (wi_result it) (wi_priority it) (wi_callback it)
    (wi_user_data it) st (wi_ref_count it).
Definition set_result (it : ios_work_item) (r : ptr) : ios_work_item :=
  WorkItem (wi_work_fn it) (wi_arg it) r (wi_priority it) (wi_callback it)
    (wi_user_data it) (wi_state it) (wi_ref_count it).
Definition set_callback (it : ios_work_item) (cb : option ptr) (ud : ptr) : ios_work_item :=
  WorkItem (wi_work_fn it) (wi_arg it) (wi_result it) (wi_priority it) cb ud
    (wi_state it) (wi_ref_count it).
Definition set_ref (it : ios_work_item) (n : Z) : ios_work_item :=
  WorkItem (wi_work_fn it) (wi_arg it) (wi_result it) (wi_priority it) (wi_callback it)
    (wi_user_data it) (wi_state it) n.

(** A dereference of an item pointer. *)
Definition deref (h : heap) (a : addr) : outcome ios_work_item :=
  match h !! a with Some it => Ret it | None => Undef UseAfterFree end.

Definition work_item_retain (h : heap) (item : option addr) : outcome heap :=
  match item with
  | None => Ret h
  | Some a => it ← deref h a; Ret (<[a := set_ref it (wi_ref_count it +i32 1)]> h)
  end.

Definition work_item_release_internal (h : heap) (item : option addr) : outcome heap :=
  match item with
  | None => Ret h
  | Some a =>
      it ← deref h a;
      if bool_decide (wi_ref_count it = 1) then Ret (delete a h)
      else Ret (<[a := set_ref it (wi_ref_count it -i32 1)]> h)
  end.

(** ** Queues (the caller holds [queue_mutex]) *)

Definition queue_push (q : work_queue) (a : addr) : outcome work_queue :=
  if bool_decide (0 ≤ q_tail q < zlen (q_slots q)) then
    Ret (WorkQueue (<[Z.to_nat (q_tail q) := Some a]> (q_slots q)) (q_head q)
           ((q_tail q + 1) `mod` q_capacity q) (q_count q + 1) (q_capacity q))
  else Undef OutOfBounds.

Definition queue_pop (q : work_queue) : outcome (work_queue * option addr) :=
  match q_slots q !! Z.to_nat (q_head q) with
  | Some item =>
      Ret (WorkQueue (<[Z.to_nat (q_head q) := None]> (q_slots q))
             ((q_head q + 1) `mod` q_capacity q) (q_tail q) (q_count q - 1) (q_capacity q), item)
  | None => Undef OutOfBounds
  end.

Definition get_queue (pool : ios_thread_pool) (p : ios_work_priority_t) : outcome work_queue :=
  match tp_queues pool !! pidx p with Some q => Ret q | None => Undef OutOfBounds end.
Definition set_queue (pool : ios_thread_pool) (p : ios_work_priority_t) (q : work_queue)
    : ios_thread_pool :=
  ThreadPool (tp_num_threads pool) (tp_max_queue_size pool) (tp_enable_priorities pool)
    (tp_name pool) (<[pidx p := q]> (tp_queues pool)) (tp_shutdown pool) (tp_draining pool)
    (tp_active_workers pool) (tp_total_submitted pool) (tp_total_completed pool)
    (tp_total_dropped pool).

Definition enqueue_work (pool : ios_thread_pool) (h : heap) (a : addr)
    : outcome (ios_thread_pool * heap * Z) :=
  it ← deref h a;
  let p := wi_priority it in
  q ← get_queue pool p;
  if bool_decide (q_capacity q ≤ q_count q) then Ret (pool, h, -1)
  else
    q' ← queue_push q a;
    h' ← work_item_retain h (Some a);
    Ret (set_queue pool p q', h', 0).

(** The loop over the priorities, highest first. *)
Fixpoint dequeue_from (ps : list ios_work_priority_t) (pool : ios_thread_pool)
    : outcome (ios_thread_pool * option addr) :=
  match ps with
  | [] => Ret (pool, None)
  | p :: ps =>
      q ← get_queue pool p;
      if bool_decide (0 < q_count q) then
        '(q', item) ← queue_pop q;
        Ret (set_queue pool p q', item)
      else dequeue_from ps pool
  end.

Definition priorities : list ios_work_priority_t :=
  [IOS_PRIORITY_URGENT; IOS_PRIORITY_HIGH; IOS_PRIORITY_NORMAL; IOS_PRIORITY_LOW].

Definition dequeue_work (pool : ios_thread_pool) : outcome (ios_thread_pool * option addr) :=
  dequeue_from priorities pool.

(** ** Creation *)

Record ios_thread_pool_config := PoolConfig {
  tc_num_threads : Z;
  tc_max_queue_size : Z;
  tc_enable_priorities : bool;
  tc_name : option string }.

Definition default_pool_config : ios_thread_pool_config :=
  PoolConfig 0 DEFAULT_MAX_QUEUE_SIZE true (Some DEFAULT_THREAD_NAME).

(** [get_cpu_count] with the answer of [sysctlbyname]. *)
Definition get_cpu_count (sysctl : option Z) : Z :=
  match sysctl with Some n => n | None => 4 end.

Definition new_queue (cap : Z) : work_queue :=
  WorkQueue (replicate (Z.to_nat cap) None) 0 0 0 cap.

(** [sizeof(pool->name) - 1] bytes of the name are copied into zeroed memory. *)
Definition copy_name (name : option string) : string :=
  String.substring 0 63 (default DEFAULT_THREAD_NAME name).

(** [allocs_ok]: every [calloc] succeeds; [threads_ok]: every
    [pthread_create] does.  Otherwise everything is released again. *)
Definition ios_thread_pool_create (allocs_ok threads_ok : bool) (sysctl : option Z)
    (config : ios_thread_pool_config) : option ios_thread_pool :=
  let num_threads := if bool_decide (tc_num_threads config ≤ 0)
                     then get_cpu_count sysctl else tc_num_threads config in
  let max := if bool_decide (0 < tc_max_queue_size config)
             then tc_max_queue_size config else DEFAULT_MAX_QUEUE_SIZE in
  if allocs_ok && threads_ok then
    Some (ThreadPool num_threads max (tc_enable_priorities config) (copy_name (tc_name config))
            [new_queue (max ÷ 8); new_queue (max ÷ 2); new_queue (max ÷ 4); new_queue (max ÷ 8)]
            false false 0 0 0 0)
  else None.

Definition ios_thread_pool_create_default (allocs_ok threads_ok : bool) (sysctl : option Z)
    : option ios_thread_pool :=
  ios_thread_pool_create allocs_ok threads_ok sysctl default_pool_config.

(** ** Threads around the pool *)

(** Counter updates. *)
Definition with_counters (pool : ios_thread_pool) (active submitted completed dropped : Z)
    : ios_thread_pool :=
  ThreadPool (tp_num_threads pool) (tp_max_queue_size pool) (tp_enable_priorities pool)
    (tp_name pool) (tp_queues pool) (tp_shutdown pool) (tp_draining pool)
    active submitted completed dropped.
Definition add_active (pool : ios_thread_pool) (n : Z) : ios_thread_pool :=
  with_counters pool (tp_active_workers pool +i32 n) (tp_total_submitted pool)
    (tp_total_completed pool) (tp_total_dropped pool).
Definition add_submitted (pool : ios_thread_pool) : ios_thread_pool :=
  with_counters pool (tp_active_workers pool) (tp_total_submitted pool +u64 1)
    (tp_total_completed pool) (tp_total_dropped pool).
Definition add_completed (pool : ios_thread_pool) : ios_thread_pool :=
  with_counters pool (tp_active_workers pool) (tp_total_submitted pool)
    (tp_total_completed pool +u64 1) (tp_total_dropped pool).
Definition add_dropped (pool : ios_thread_pool) : ios_thread_pool :=
  with_counters pool (tp_active_workers pool) (tp_total_submitted pool)
    (tp_total_completed pool) (tp_total_dropped pool +u64 1).
Definition set_flags (pool : ios_thread_pool) (sh dr : bool) : ios_thread_pool :=
  ThreadPool (tp_num_threads pool) (tp_max_queue_size pool) (tp_enable_priorities pool)
    (tp_name pool) (tp_queues pool) sh dr (tp_active_workers pool) (tp_total_submitted pool)
    (tp_total_completed pool) (tp_total_dropped pool).

(** A worker between two atomic actions of [worker_thread_main]. *)
Inductive worker : Set :=
  | WkLoop                          (* about to take the queue mutex *)
  | WkAsleep                        (* on [work_available] *)
  | WkTaken (a : addr)              (* dequeued, not yet counted as active *)
  | WkRunning (a : addr)            (* inside the work function *)
  | WkReturned (a : addr) (r : ptr) (* the function returned *)
  | WkCompleted (a : addr) (r : ptr) (* result stored, waiters woken *)
  | WkCalled (a : addr)             (* the callback was run, if any *)
  | WkExited.

(** A thread inside [ios_thread_pool_submit] or [ios_thread_pool_try_submit]. *)
Inductive submitter : Set :=
  | SubIdle
  | SubBlocking (a : addr)          (* created, about to take the mutex *)
  | SubAsleep (a : addr)            (* on [queue_not_full] *)
  | SubTrying (a : addr).           (* created, before the mutex *)

(** [t_handles] are the item handles callers own; [t_enqueued] and
    [t_dequeued] record the order in which items entered and left the queues,
    [t_callbacks] the callbacks that ran. *)
Record tps := Tps {
  t_pool : ios_thread_pool;
  t_heap : heap;
  t_next : addr;                    (* the allocator's next address *)
  t_workers : list worker;
  t_submitters : list submitter;
  t_handles : gset addr;
  t_enqueued : list (ios_work_priority_t * addr);
  t_dequeued : list (ios_work_priority_t * addr);
  t_callbacks : list addr }.

Definition t_set (s : tps) (pool : ios_thread_pool) (h : heap) : tps :=
  Tps pool h (t_next s) (t_workers s) (t_submitters s) (t_handles s)
    (t_enqueued s) (t_dequeued s) (t_callbacks s).
Definition t_set_worker (s : tps) (i : nat) (w : worker) : tps :=
  Tps (t_pool s) (t_heap s) (t_next s) (<[i := w]> (t_workers s)) (t_submitters s) (t_handles s)
    (t_enqueued s) (t_dequeued s) (t_callbacks s).
Definition t_set_submitter (s : tps) (i : nat) (x : submitter) : tps :=
  Tps (t_pool s) (t_heap s) (t_next s) (t_workers s) (<[i := x]> (t_submitters s)) (t_handles s)
    (t_enqueued s) (t_dequeued s) (t_callbacks s).
Definition t_set_handles (s : tps) (hs : gset addr) : tps :=
  Tps (t_pool s) (t_heap s) (t_next s) (t_workers s) (t_submitters s) hs
    (t_enqueued s) (t_dequeued s) (t_callbacks s).
Definition t_log_enqueued (s : tps) (p : ios_work_priority_t) (a : addr) : tps :=
  Tps (t_pool s) (t_heap s) (t_next s) (t_workers s) (t_submitters s) (t_handles s)
    (t_enqueued s ++ [(p, a)]) (t_dequeued s) (t_callbacks s).
Definition t_log_dequeued (s : tps) (p : ios_work_priority_t) (a : addr) : tps :=
  Tps (t_pool s) (t_heap s) (t_next s) (t_workers s) (t_submitters s) (t_handles s)
    (t_enqueued s) (t_dequeued s ++ [(p, a)]) (t_callbacks s).
Definition t_log_callback (s : tps) (a : addr) : tps :=
  Tps (t_pool s) (t_heap s) (t_next s) (t_workers s) (t_submitters s) (t_handles s)
    (t_enqueued s) (t_dequeued s) (t_callbacks s ++ [a]).

(** *** Condition variables

    [pthread_cond_signal] wakes one sleeping thread, if there is one: the [k]th
    thread when it sleeps, else the first sleeper.  [k] ranges over the
    scheduler's choices. *)

Section wake.
Context {A : Type} (asleep : A → bool) (wk : A → A).

Fixpoint wake_first (l : list A) : list A :=
  match l with
  | [] => []
  | x :: l => if asleep x then wk x :: l else x :: wake_first l
  end.

Definition cond_signal (k : nat) (l : list A) : list A :=
  match l !! k with
  | Some x => if asleep x then <[k := wk x]> l else wake_first l
  | None => wake_first l
  end.

Definition cond_broadcast (l : list A) : list A :=
  (λ x, if asleep x then wk x else x) <$> l.
End wake.

Definition worker_asleep (w : worker) : bool := match w with WkAsleep => true | _ => false end.
Definition worker_wake (w : worker) : worker := match w with WkAsleep => WkLoop | _ => w end.
Definition submitter_asleep (x : submitter) : bool :=
  match x with SubAsleep _ => true | _ => false end.
Definition submitter_wake (x : submitter) : submitter :=
  match x with SubAsleep a => SubBlocking a | _ => x end.

Definition t_set_threads (s : tps) (ws : list worker) (xs : list submitter) : tps :=
  Tps (t_pool s) (t_heap s) (t_next s) ws xs (t_handles s)
    (t_enqueued s) (t_dequeued s) (t_callbacks s).
Definition signal_work_available (k : nat) (s : tps) : tps :=
  t_set_threads s (cond_signal worker_asleep worker_wake k (t_workers s)) (t_submitters s).
Definition signal_queue_not_full (k : nat) (s : tps) : tps :=
  t_set_threads s (t_workers s) (cond_signal submitter_asleep submitter_wake k (t_submitters s)).
Definition broadcast_both (s : tps) : tps :=
  t_set_threads s (cond_broadcast worker_asleep worker_wake (t_workers s))
    (cond_broadcast submitter_asleep submitter_wake (t_submitters s)).

(** *** Submitting *)

(** The start of both submit functions: the shutdown check and the creation
    of the item ([None] for a [NULL] result). *)
Definition submit_begin (s : tps) (i : nat) (blocking : bool) (fn : option ptr) (arg : ptr)
    (priority : ios_work_priority_t) (calloc_ok : bool) : tps :=
  match fn with
  | None => s
  | Some fn =>
      if tp_shutdown (t_pool s) then s else
      match work_item_create calloc_ok fn arg priority with
      | None => s
      | Some it =>
          let a := t_next s in
          Tps (t_pool s) (<[a := it]> (t_heap s)) (S a) (t_workers s)
            (<[i := if blocking then SubBlocking a else SubTrying a]> (t_submitters s))
            (t_handles s) (t_enqueued s) (t_dequeued s) (t_callbacks s)
      end
  end.

(** [enqueue_work] and what both functions do with its result; [k] is the
    choice of the signal inside [enqueue_work]. *)
Definition submit_enqueue (s : tps) (i : nat) (a : addr) (k : nat) : outcome tps :=
  it ← deref (t_heap s) a;
  '(pool, h, rc) ← enqueue_work (t_pool s) (t_heap s) a;
  if bool_decide (rc ≠ 0) then
    h' ← work_item_release_internal h (Some a);
    Ret (t_set_submitter (t_set s (add_dropped pool) h') i SubIdle)
  else
    Ret (signal_work_available k (t_log_enqueued
           (t_set_handles (t_set_submitter (t_set s (add_submitted pool) h) i SubIdle)
              ({[a]} ∪ t_handles s)) (wi_priority it) a)).

(** [ios_thread_pool_submit] with the mutex held: wait for space, then
    enqueue, unless the pool shuts down. *)
Definition ios_thread_pool_submit (s : tps) (i : nat) (a : addr) (k : nat) : outcome tps :=
  it ← deref (t_heap s) a;
  q ← get_queue (t_pool s) (wi_priority it);
  if bool_decide (q_capacity q ≤ q_count q) && negb (tp_shutdown (t_pool s)) then
    Ret (t_set_submitter s i (SubAsleep a))
  else if tp_shutdown (t_pool s) then
    h ← work_item_release_internal (t_heap s) (Some a);
    Ret (t_set_submitter (t_set s (t_pool s) h) i SubIdle)
  else submit_enqueue s i a k.

(** [ios_thread_pool_try_submit] with the mutex held. *)
Definition ios_thread_pool_try_submit (s : tps) (i : nat) (a : addr) (k : nat) : outcome tps :=
  submit_enqueue s i a k.

(** The tail of [ios_thread_pool_submit_with_callback]: the callback is stored
    after the item was submitted. *)
Definition ios_thread_pool_submit_with_callback (s : tps) (a : addr) (cb : option ptr) (ud : ptr)
    : outcome tps :=
  it ← deref (t_heap s) a;
  Ret (t_set s (t_pool s) (<[a := set_callback it cb ud]> (t_heap s))).

(** *** The worker *)

(** The locked part of the loop: exit, sleep, or take an item; [k] is the
    choice of the signal inside [dequeue_work]. *)
Definition worker_dequeue (s : tps) (i : nat) (k : nat) : outcome tps :=
  if tp_shutdown (t_pool s) then Ret (t_set_worker s i WkExited) else
  '(pool, item) ← dequeue_work (t_pool s);
  match item with
  | None => Ret (t_set_worker (t_set s pool (t_heap s)) i WkAsleep)
  | Some a =>
      it ← deref (t_heap s) a;
      Ret (signal_queue_not_full k
             (t_log_dequeued (t_set_worker (t_set s pool (t_heap s)) i (WkTaken a))
                (wi_priority it) a))
  end.

Definition worker_start (s : tps) (i : nat) (a : addr) : outcome tps :=
  it ← deref (t_heap s) a;
  Ret (t_set_worker
         (t_set s (add_active (t_pool s) 1) (<[a := set_state it WORK_EXECUTING]> (t_heap s)))
         i (WkRunning a)).

Definition worker_return (s : tps) (i : nat) (a : addr) (r : ptr) : outcome tps :=
  Ret (t_set_worker (t_set s (add_active (t_pool s) (-1)) (t_heap s)) i (WkReturned a r)).

Definition worker_complete (s : tps) (i : nat) (a : addr) (r : ptr) : outcome tps :=
  it ← deref (t_heap s) a;
  Ret (t_set_worker
         (t_set s (t_pool s) (<[a := set_state (set_result it r) WORK_COMPLETED]> (t_heap s)))
         i (WkCompleted a r)).

Definition worker_callback (s : tps) (i : nat) (a : addr) (r : ptr) : outcome tps :=
  it ← deref (t_heap s) a;
  let s1 := t_set_worker s i (WkCalled a) in
  match wi_callback it with
  | Some cb => Ret (t_log_callback s1 a)
  | None => Ret s1
  end.

Definition worker_release (s : tps) (i : nat) (a : addr) : outcome tps :=
  h ← work_item_release_internal (t_heap s) (Some a);
  Ret (t_set_worker (t_set s (add_completed (t_pool s)) h) i WkLoop).

(** *** The holders of handles *)

(** [ios_work_cancel]: the new heap and the result. *)
Definition ios_work_cancel (h : heap) (item : option addr) : outcome (heap * bool) :=
  match item with
  | None => Ret (h, false)
  | Some a =>
      it ← deref h a;
      if bool_decide (wi_state it = WORK_PENDING)
      then Ret (<[a := set_state it WORK_CANCELLED]> h, true)
      else Ret (h, false)
  end.

(** [ios_work_complete], called from the clean-up handlers of a command. *)
Definition ios_work_complete (h : heap) (item : option addr) (result : ptr) : outcome heap :=
  match item with
  | None => Ret h
  | Some a =>
      it ← deref h a;
      if bool_decide (wi_state it = WORK_EXECUTING)
      then Ret (<[a := set_state (set_result it result) WORK_COMPLETED]> h)
      else Ret h
  end.

Definition ios_work_is_complete (h : heap) (item : option addr) : outcome bool :=
  match item with
  | None => Ret false
  | Some a =>
      it ← deref h a;
      Ret (bool_decide (wi_state it = WORK_COMPLETED) || bool_decide (wi_state it = WORK_CANCELLED))
  end.

(** One test of the loop of [ios_work_wait]: [None] while it must sleep, else
    the stored result and the return value. *)
Definition ios_work_wait (h : heap) (item : option addr) : outcome (option (ptr * Z)) :=
  match item with
  | None => Ret (Some (0, -1))
  | Some a =>
      it ← deref h a;
      match wi_state it with
      | WORK_COMPLETED => Ret (Some (wi_result it, 0))
      | WORK_CANCELLED => Ret (Some (wi_result it, -1))
      | _ => Ret None
      end
  end.

Definition ios_work_release (h : heap) (item : option addr) : outcome heap :=
  work_item_release_internal h item.

(** The worker's thread-local current item. *)
Definition ios_work_get_current (w : worker) : option addr :=
  match w with WkRunning a => Some a | _ => None end.

(** *** The pool as a whole *)

(** [ios_thread_pool_shutdown]: the flag, then the broadcasts under the mutex,
    then the joins, which return when every worker exited. *)
Definition shutdown_store (s : tps) : tps :=
  t_set s (set_flags (t_pool s) true (tp_draining (t_pool s))) (t_heap s).
Definition shutdown_joined (s : tps) : bool :=
  forallb (λ w, match w with WkExited => true | _ => false end) (t_workers s).

Definition queued (pool : ios_thread_pool) : Z :=
  foldr (λ q n, q_count q + n) 0 (tp_queues pool).

(** One poll of [ios_thread_pool_drain]: [true] when it returns 0. *)
Definition drain_poll (pool : ios_thread_pool) : bool :=
  bool_decide (queued pool = 0 ∧ tp_active_workers pool = 0).

Record ios_thread_pool_stats := PoolStats {
  st_num_threads : Z; st_active_threads : Z; st_idle_threads : Z; st_queue_size : Z;
  st_max_queue_size : Z; st_total_submitted : Z; st_total_completed : Z; st_total_dropped : Z }.

Definition ios_thread_pool_get_stats (pool : option ios_thread_pool) (have_stats : bool)
    : option ios_thread_pool_stats :=
  match pool with
  | Some p =>
      if have_stats then
        Some (PoolStats (tp_num_threads p) (tp_active_workers p)
                (tp_num_threads p - tp_active_workers p) (queued p) (tp_max_queue_size p)
                (tp_total_submitted p) (tp_total_completed p) (tp_total_dropped p))
      else None
  | None => None
  end.

Definition ios_thread_pool_resize (pool : option ios_thread_pool) (new_size : Z) : Z := -1.

(** *** The transition system *)

Inductive tp_event : Set :=
  | TSubmit (i : nat) (blocking : bool) (fn : option ptr) (arg : ptr)
      (priority : ios_work_priority_t) (calloc_ok : bool)
  | TSubmitRun (i k : nat)
  | TCallback (a : addr) (cb : option ptr) (ud : ptr)
  | TDequeue (i k : nat) | TStart (i : nat) | TReturn (i : nat) (r : ptr)
  | TComplete (i : nat) | TCall (i : nat) | TRelease (i : nat)
  | TCancel (a : addr) | TWorkComplete (a : addr) (r : ptr) | TDrop (a : addr)
  | TShutdownStore | TShutdownBroadcast | TDraining (on : bool)
  | TSpuriousWorker (i : nat) | TSpuriousSubmitter (i : nat).

Definition tp_exec (ev : tp_event) (s : tps) : outcome (option tps) :=
  match ev with
  | TSubmit i bl fn arg pr ok =>
      match t_submitters s !! i with
      | Some SubIdle => Ret (Some (submit_begin s i bl fn arg pr ok))
      | _ => Ret None
      end
  | TSubmitRun i k =>
      match t_submitters s !! i with
      | Some (SubBlocking a) => Some <$> ios_thread_pool_submit s i a k
      | Some (SubTrying a) => Some <$> ios_thread_pool_try_submit s i a k
      | _ => Ret None
      end
  | TCallback a cb ud =>
      if bool_decide (a ∈ t_handles s)
      then Some <$> ios_thread_pool_submit_with_callback s a cb ud else Ret None
  | TDequeue i k =>
      match t_workers s !! i with
      | Some WkLoop => Some <$> worker_dequeue s i k
      | _ => Ret None
      end
  | TStart i =>
      match t_workers s !! i with
      | Some (WkTaken a) => Some <$> worker_start s i a
      | _ => Ret None
      end
  | TReturn i r =>
      match t_workers s !! i with
      | Some (WkRunning a) => Some <$> worker_return s i a r
      | _ => Ret None
      end
  | TComplete i =>
      match t_workers s !! i with
      | Some (WkReturned a r) => Some <$> worker_complete s i a r
      | _ => Ret None
      end
  | TCall i =>
      match t_workers s !! i with
      | Some (WkCompleted a r) => Some <$> worker_callback s i a r
      | _ => Ret None
      end
  | TRelease i =>
      match t_workers s !! i with
      | Some (WkCalled a) => Some <$> worker_release s i a
      | _ => Ret None
      end
  | TCancel a =>
      if bool_decide (a ∈ t_handles s) then
        '(h, _) ← ios_work_cancel (t_heap s) (Some a); Ret (Some (t_set s (t_pool s) h))
      else Ret None
  | TWorkComplete a r =>
      if bool_decide (a ∈ t_handles s ∨ Some a ∈ ios_work_get_current <$> t_workers s) then
        h ← ios_work_complete (t_heap s) (Some a) r; Ret (Some (t_set s (t_pool s) h))
      else Ret None
  | TDrop a =>
      if bool_decide (a ∈ t_handles s) then
        h ← ios_work_release (t_heap s) (Some a);
        Ret (Some (t_set_handles (t_set s (t_pool s) h) (t_handles s ∖ {[a]})))
      else Ret None
  | TShutdownStore => Ret (Some (shutdown_store s))
  | TShutdownBroadcast =>
      if tp_shutdown (t_pool s) then Ret (Some (broadcast_both s)) else Ret None
  | TDraining on => Ret (Some (t_set s (set_flags (t_pool s) (tp_shutdown (t_pool s)) on) (t_heap s)))
  | TSpuriousWorker i =>
      match t_workers s !! i with
      | Some WkAsleep => Ret (Some (t_set_worker s i WkLoop))
      | _ => Ret None
      end
  | TSpuriousSubmitter i =>
      match t_submitters s !! i with
      | Some (SubAsleep a) => Ret (Some (t_set_submitter s i (SubBlocking a)))
      | _ => Ret None
      end
  end.

Definition tp_step (ev : tp_event) (s : tps) : option tps :=
  match tp_exec ev s with Ret o => o | Undef _ => None end.

(** A new pool with its workers and any number of callers. *)
Definition tp_init (s : tps) : Prop :=
  ∃ sysctl config pool n,
    ios_thread_pool_create true true sysctl config = Some pool ∧
    s = Tps pool ∅ 0%nat (replicate (Z.to_nat (tp_num_threads pool)) WkLoop)
          (replicate n SubIdle) ∅ [] [] [].

(** ** Queues as lists *)

(** The queued items, next first. *)
Definition q_items (q : work_queue) : list addr :=
  omap id (ring_slice (q_slots q) (Z.to_nat (q_head q)) (Z.to_nat (q_count q))).

Record queue_wf (q : work_queue) : Prop := {
  qw_len : zlen (q_slots q) = q_capacity q;
  qw_count : 0 ≤ q_count q ≤ q_capacity q;
  qw_head : 0 ≤ q_head q ∧ (0 < q_capacity q → q_head q < q_capacity q);
  qw_tail : q_tail q = (q_head q + q_count q) `mod` q_capacity q;
  qw_some : Forall is_Some
      (ring_slice (q_slots q) (Z.to_nat (q_head q)) (Z.to_nat (q_count q))) }.

Lemma omap_id_fmap {A} (l : list (option A)) : Forall is_Some l → Some <$> omap id l = l.
Proof.
  induction 1 as [|x l [y ->] _ IH]; [done|].
  change (Some y :: (Some <$> omap id l) = Some y :: l). by rewrite IH.
Qed.

Lemma omap_id_app {A} (l k : list (option A)) : omap id (l ++ k) = omap id l ++ omap id k.
Proof. apply omap_app. Qed.

Lemma new_queue_wf cap : 0 ≤ cap → queue_wf (new_queue cap).
Proof.
  intros Hc. unfold new_queue. split; simpl; try lia.
  - unfold zlen. rewrite length_replicate. lia.
  - destruct (decide (cap = 0)) as [->|]; [done|]. by rewrite Z.mod_0_l.
  - constructor.
Qed.

Lemma queue_push_spec q a :
  queue_wf q → q_count q < q_capacity q →
  ∃ q', queue_push q a = Ret q' ∧ queue_wf q' ∧ q_items q' = q_items q ++ [a] ∧
        q_count q' = q_count q + 1 ∧ q_capacity q' = q_capacity q.
Proof.
  intros [Hl Hc [Hh Hh'] Ht Hs] Hlt. specialize (Hh' ltac:(lia)).
  assert (0 ≤ q_tail q < q_capacity q) as Htr by (rewrite Ht; apply Z.mod_pos_bound; lia).
  unfold queue_push. rewrite bool_decide_eq_true_2 by lia. eexists. split; [done|].
  assert (length (q_slots q) = Z.to_nat (q_capacity q)) as Hlen by (unfold zlen in Hl; lia).
  assert (Z.to_nat (q_tail q) =
    ((Z.to_nat (q_head q) + Z.to_nat (q_count q)) `mod` length (q_slots q))%nat) as Et.
  { rewrite Ht, Hlen, Z2Nat.inj_mod by lia. f_equal. lia. }
  assert (ring_slice (<[Z.to_nat (q_tail q) := Some a]> (q_slots q)) (Z.to_nat (q_head q))
            (Z.to_nat (q_count q + 1))
          = ring_slice (q_slots q) (Z.to_nat (q_head q)) (Z.to_nat (q_count q)) ++ [Some a]) as Es.
  { rewrite <- ring_store_one, Et by lia.
    replace (Z.to_nat (q_count q + 1)) with (Z.to_nat (q_count q) + length [Some a])%nat
      by (simpl; lia). apply ring_slice_store; simpl; lia. }
  split_and!; [split; simpl|..]; try done; try lia.
  - unfold zlen in *. by rewrite length_insert.
  - rewrite Ht, Zplus_mod_idemp_l. f_equal. lia.
  - rewrite Es. apply Forall_app. split; [done|]. by repeat constructor.
  - unfold q_items; simpl. rewrite Es, omap_id_app. done.
Qed.

Lemma queue_pop_spec q :
  queue_wf q → 0 < q_count q →
  ∃ q' a, queue_pop q = Ret (q', Some a) ∧ queue_wf q' ∧ q_items q = a :: q_items q' ∧
          q_count q' = q_count q - 1 ∧ q_capacity q' = q_capacity q.
Proof.
  intros [Hl Hc [Hh Hh'] Ht Hs] Hpos. specialize (Hh' ltac:(lia)).
  assert (length (q_slots q) = Z.to_nat (q_capacity q)) as Hlen by (unfold zlen in Hl; lia).
  set (h := Z.to_nat (q_head q)) in *. set (n := Z.to_nat (q_count q)) in *.
  assert (h < length (q_slots q))%nat as Hhl by lia.
  assert (ring_slice (q_slots q) h n !! 0%nat = q_slots q !! h) as H0.
  { rewrite ring_slice_lookup by lia. rewrite Nat.add_0_r, Nat.mod_small by lia. done. }
  destruct (lookup_lt_is_Some_2 (q_slots q) h Hhl) as [c Hcell].
  assert (∃ a, c = Some a) as [a ->].
  { rewrite Hcell in H0. rewrite Forall_lookup in Hs. by destruct (Hs _ _ H0) as [a ->]; eauto. }
  unfold queue_pop. fold h. rewrite Hcell. eexists _, a. split; [done|].
  set (h' := (q_head q + 1) `mod` q_capacity q).
  assert (0 ≤ h' < q_capacity q) as Hh'' by (apply Z.mod_pos_bound; lia).
  assert (Z.to_nat h' = ((h + 1) `mod` length (q_slots q))%nat) as Eh.
  { unfold h', h. rewrite Hlen, Z2Nat.inj_mod by lia. f_equal. lia. }
  assert (ring_slice (<[h := None]> (q_slots q)) (Z.to_nat h') (Z.to_nat (q_count q - 1))
          = drop 1 (ring_slice (q_slots q) h n)) as Es.
  { rewrite <- ring_slice_drop, Eh by lia.
    replace (Z.to_nat (q_count q - 1)) with (n - 1)%nat by lia.
    replace h with (((h + 1) `mod` length (q_slots q) + (length (q_slots q) - 1))
                    `mod` length (q_slots q))%nat at 1.
    - apply ring_slice_insert_out; lia.
    - rewrite mod_add_assoc. replace (h + (1 + (length (q_slots q) - 1)))%nat
        with (h + 1 * length (q_slots q))%nat by lia.
      rewrite Nat.Div0.mod_add. by apply Nat.mod_small. }
  split_and!; [split; simpl|..]; try done; try lia.
  - unfold zlen in *. by rewrite length_insert.
  - rewrite Ht. unfold h'. rewrite Zplus_mod_idemp_l. f_equal. lia.
  - fold h'. rewrite Es. by apply Forall_drop.
  - unfold q_items; simpl. fold h h' n. rewrite Es. rewrite Hcell in H0.
    destruct (ring_slice (q_slots q) h n); simplify_eq/=. by rewrite drop_0.
Qed.

(** Cardinality: the items of a well-formed queue are as many as its count. *)
Lemma q_items_length q : queue_wf q → zlen (q_items q) = q_count q.
Proof.
  intros [Hl Hc [Hh Hh'] Ht Hs]. unfold zlen in *.
  assert (length (q_items q) = length (Some <$> q_items q)) as -> by (by rewrite length_fmap).
  unfold q_items. rewrite omap_id_fmap by done.
  destruct (decide (q_capacity q = 0)).
  - unfold ring_slice. replace (Z.to_nat (q_count q)) with 0%nat by lia. simpl. lia.
  - rewrite length_ring_slice by lia. lia.
Qed.

(** ** Who refers to an item *)

Definition worker_item (w : worker) : option addr :=
  match w with
  | WkTaken a | WkRunning a | WkReturned a _ | WkCompleted a _ | WkCalled a => Some a
  | WkLoop | WkAsleep | WkExited => None
  end.
Definition submitter_item (x : submitter) : option addr :=
  match x with SubBlocking a | SubAsleep a | SubTrying a => Some a | SubIdle => None end.

Definition at_addr (a : addr) (o : option addr) : nat := if decide (o = Some a) then 1 else 0.

(** References to [a] from submitters, queues, workers and handles. *)
Definition in_submitters (s : tps) (a : addr) : nat :=
  sum_list_with (λ x, at_addr a (submitter_item x)) (t_submitters s).
Definition in_workers (s : tps) (a : addr) : nat :=
  sum_list_with (λ w, at_addr a (worker_item w)) (t_workers s).
Definition occurrences (a : addr) (l : list addr) : nat :=
  sum_list_with (λ x, at_addr a (Some x)) l.
Definition in_queues (s : tps) (a : addr) : nat :=
  sum_list_with (λ q, occurrences a (q_items q)) (tp_queues (t_pool s)).
Definition in_handles (s : tps) (a : addr) : nat := if decide (a ∈ t_handles s) then 1 else 0.

Definition refs (s : tps) (a : addr) : nat :=
  (in_submitters s a + in_queues s a + in_workers s a + in_handles s a)%nat.

(** The reference counts in the heap are the references that exist. *)
Definition refs_ok (h : heap) (R : addr → nat) : Prop :=
  ∀ a, match h !! a with
       | Some it => wi_ref_count it = Z.of_nat (R a) ∧ (0 < R a)%nat
       | None => R a = 0%nat
       end.

Definition prio_of (h : heap) (a : addr) : option ios_work_priority_t := wi_priority <$> h !! a.

(** The order of the items of priority [p] in a log. *)
Definition by_prio (p : ios_work_priority_t) (l : list (ios_work_priority_t * addr)) : list addr :=
  snd <$> filter (λ x, x.1 = p) l.

Lemma by_prio_snoc p q a l :
  by_prio p (l ++ [(q, a)]) = by_prio p l ++ (if decide (q = p) then [a] else []).
Proof.
  unfold by_prio. rewrite list.filter_app, fmap_app. f_equal.
  rewrite list.filter_cons. simpl. by case_decide.
Qed.

Record tp_inv (s : tps) : Prop := {
  ti_queues : length (tp_queues (t_pool s)) = 4%nat;
  ti_wf : Forall queue_wf (tp_queues (t_pool s));
  ti_refs : refs_ok (t_heap s) (refs s);
  ti_place : ∀ a, (in_submitters s a + in_queues s a + in_workers s a ≤ 1)%nat;
  ti_handle : ∀ a, (in_submitters s a + in_handles s a ≤ 1)%nat;
  ti_fresh : ∀ a, (t_next s ≤ a)%nat → t_heap s !! a = None;
  ti_prio : ∀ p q a, tp_queues (t_pool s) !! pidx p = Some q → a ∈ q_items q →
              prio_of (t_heap s) a = Some p;
  ti_order : ∀ p q, tp_queues (t_pool s) !! pidx p = Some q →
              by_prio p (t_dequeued s) ++ q_items q = by_prio p (t_enqueued s);
  ti_once : NoDup (t_enqueued s).*2;
  ti_old : ∀ a, a ∈ (t_enqueued s).*2 → (a < t_next s)%nat ∧ in_submitters s a = 0%nat }.

(** ** Reference counting *)

Definition plus_at (R : addr → nat) (a x : addr) : nat := (R x + if decide (x = a) then 1 else 0)%nat.
Definition minus_at (R : addr → nat) (a x : addr) : nat := (R x - if decide (x = a) then 1 else 0)%nat.

Lemma refs_ok_ext h R R' : (∀ a, R a = R' a) → refs_ok h R → refs_ok h R'.
Proof. intros E H a. specialize (H a). by rewrite <- E. Qed.

Lemma refs_ok_deref h R a : refs_ok h R → (0 < R a)%nat → ∃ it, h !! a = Some it ∧ deref h a = Ret it
  ∧ wi_ref_count it = Z.of_nat (R a).
Proof.
  intros H Hp. specialize (H a). unfold deref. destruct (h !! a) as [it|]; [|lia].
  exists it. naive_solver.
Qed.

Lemma retain_spec h R a :
  refs_ok h R → (0 < R a < 100)%nat →
  ∃ h', work_item_retain h (Some a) = Ret h' ∧ refs_ok h' (plus_at R a) ∧
        (∀ x, prio_of h' x = prio_of h x) ∧ (∀ x, h !! x = None → h' !! x = None).
Proof.
  intros H Hp. destruct (refs_ok_deref h R a H ltac:(lia)) as (it & Hl & Hd & Hr).
  unfold work_item_retain. rewrite Hd. simpl. rewrite Hr. nowrap. eexists. split; [done|].
  split_and!.
  - intros x. specialize (H x). unfold plus_at. destruct (decide (x = a)) as [->|].
    + rewrite lookup_insert_eq. simpl. lia.
    + rewrite lookup_insert_ne by done. rewrite Nat.add_0_r. done.
  - intros x. unfold prio_of. destruct (decide (a = x)) as [->|].
    + by rewrite lookup_insert_eq, Hl.
    + by rewrite lookup_insert_ne.
  - intros x Hx. rewrite lookup_insert_ne; congruence.
Qed.

Lemma release_spec h R a :
  refs_ok h R → (0 < R a < 100)%nat →
  ∃ h', work_item_release_internal h (Some a) = Ret h' ∧ refs_ok h' (minus_at R a) ∧
        (∀ x, (0 < minus_at R a x)%nat → prio_of h' x = prio_of h x) ∧
        (∀ x, h !! x = None → h' !! x = None).
Proof.
  intros H Hp. destruct (refs_ok_deref h R a H ltac:(lia)) as (it & Hl & Hd & Hr).
  unfold work_item_release_internal. rewrite Hd. simpl. rewrite Hr.
  case_bool_decide as E; [|nowrap]; (eexists; split; [done|]; split_and!).
  - intros x. specialize (H x). unfold minus_at. destruct (decide (x = a)) as [->|].
    + rewrite lookup_delete_eq. lia.
    + rewrite lookup_delete_ne by done. by rewrite Nat.sub_0_r.
  - intros x. unfold minus_at, prio_of. destruct (decide (x = a)) as [->|]; [lia|].
    intros _. by rewrite lookup_delete_ne.
  - intros x Hx. by apply lookup_delete_None; right.
  - intros x. specialize (H x). unfold minus_at. destruct (decide (x = a)) as [->|].
    + rewrite lookup_insert_eq. simpl. lia.
    + rewrite lookup_insert_ne by done. by rewrite Nat.sub_0_r.
  - intros x _. unfold prio_of. destruct (decide (a = x)) as [->|].
    + by rewrite lookup_insert_eq, Hl.
    + by rewrite lookup_insert_ne.
  - intros x Hx. rewrite lookup_insert_ne; congruence.
Qed.

Local Arguments work_item_retain : simpl never.
Local Arguments work_item_release_internal : simpl never.
Local Arguments ios_work_release : simpl never.

Lemma refs_ok_update h R a it it' :
  refs_ok h R → h !! a = Some it → wi_ref_count it' = wi_ref_count it →
  refs_ok (<[a := it']> h) R.
Proof.
  intros H Hl Hr x. specialize (H x). destruct (decide (x = a)) as [->|].
  - rewrite lookup_insert_eq. rewrite Hl in H. lia.
  - by rewrite lookup_insert_ne.
Qed.

Lemma prio_update h a it it' x :
  h !! a = Some it → wi_priority it' = wi_priority it →
  prio_of (<[a := it']> h) x = prio_of h x.
Proof.
  intros Hl Hp. unfold prio_of. destruct (decide (a = x)) as [->|].
  - rewrite lookup_insert_eq, Hl. simpl. by rewrite Hp.
  - by rewrite lookup_insert_ne.
Qed.

(** ** Preservation of the invariant *)

(** Steps that leave the queues and the logs alone and drop references at
    most. *)
Lemma inv_frame s s' :
  tp_inv s →
  tp_queues (t_pool s') = tp_queues (t_pool s) → t_next s' = t_next s →
  t_enqueued s' = t_enqueued s → t_dequeued s' = t_dequeued s →
  (∀ a, in_submitters s' a ≤ in_submitters s a)%nat →
  (∀ a, in_workers s' a ≤ in_workers s a)%nat →
  (∀ a, in_handles s' a ≤ in_handles s a)%nat →
  refs_ok (t_heap s') (refs s') →
  (∀ a, t_heap s !! a = None → t_heap s' !! a = None) →
  (∀ a, (0 < refs s' a)%nat → prio_of (t_heap s') a = prio_of (t_heap s) a) →
  tp_inv s'.
Proof.
  intros [Hq Hwf Hr Hp Hh Hf Hpr Ho Hon Hold] Eq En Ee Ed Hs Hw Hhd Hr' Hn Hpr'.
  assert (∀ a, in_queues s' a = in_queues s a) as Eiq by (intros a; unfold in_queues; by rewrite Eq).
  split; rewrite ?Eq, ?En, ?Ee, ?Ed; eauto.
  - intros a. specialize (Hs a); specialize (Hw a); specialize (Hp a). rewrite Eiq. lia.
  - intros a. specialize (Hs a); specialize (Hhd a); specialize (Hh a). lia.
  - intros p q a Hl Ha. rewrite Hpr'; [by eapply Hpr|]. unfold refs. rewrite Eiq.
    assert (0 < in_queues s a)%nat; [|lia]. unfold in_queues.
    pose proof (sum_list_with_lookup (λ q, occurrences a (q_items q)) _ _ _ Hl) as HL.
    apply list_elem_of_lookup in Ha as [k Hk].
    pose proof (sum_list_with_lookup (λ x, at_addr a (Some x)) _ _ _ Hk) as HK.
    unfold occurrences, at_addr in *. rewrite decide_True in HK by done. lia.
  - intros a Ha. destruct (Hold a Ha) as [? E]. specialize (Hs a). lia.
Qed.

Lemma in_workers_set s i w w' a :
  t_workers s !! i = Some w →
  (in_workers (t_set_worker s i w') a + at_addr a (worker_item w)
   = in_workers s a + at_addr a (worker_item w'))%nat.
Proof. apply (sum_list_with_insert (λ w, at_addr a (worker_item w))). Qed.

Lemma in_submitters_set s i x x' a :
  t_submitters s !! i = Some x →
  (in_submitters (t_set_submitter s i x') a + at_addr a (submitter_item x)
   = in_submitters s a + at_addr a (submitter_item x'))%nat.
Proof. apply (sum_list_with_insert (λ x, at_addr a (submitter_item x))). Qed.

Lemma at_addr_some a b : at_addr a (Some b) = if decide (a = b) then 1%nat else 0%nat.
Proof. unfold at_addr. by repeat case_decide; simplify_eq. Qed.

Lemma at_addr_none a : at_addr a None = 0%nat.
Proof. done. Qed.

Lemma worker_has_ref s i w a :
  t_workers s !! i = Some w → worker_item w = Some a → (0 < in_workers s a)%nat.
Proof.
  intros Hl Hw. pose proof (sum_list_with_lookup (λ w, at_addr a (worker_item w)) _ _ _ Hl) as H.
  simpl in H. rewrite Hw, at_addr_some, decide_True in H by done. unfold in_workers. lia.
Qed.

Lemma submitter_has_ref s i x a :
  t_submitters s !! i = Some x → submitter_item x = Some a → (0 < in_submitters s a)%nat.
Proof.
  intros Hl Hw. pose proof (sum_list_with_lookup (λ x, at_addr a (submitter_item x)) _ _ _ Hl) as H.
  simpl in H. rewrite Hw, at_addr_some, decide_True in H by done. unfold in_submitters. lia.
Qed.

Lemma handle_has_ref s a : a ∈ t_handles s → in_handles s a = 1%nat.
Proof. intros. unfold in_handles. by rewrite decide_True. Qed.

(** An item somebody refers to can be used. *)
Lemma inv_item s a :
  tp_inv s → (0 < refs s a)%nat →
  ∃ it, t_heap s !! a = Some it ∧ deref (t_heap s) a = Ret it ∧ (refs s a ≤ 2)%nat.
Proof.
  intros Hi Hr. destruct (refs_ok_deref _ _ _ (ti_refs _ Hi) Hr) as (it & ? & ? & _).
  exists it. split_and!; [done..|]. pose proof (ti_place _ Hi a). pose proof (ti_handle _ Hi a).
  unfold refs in *. unfold in_handles in *. case_decide; lia.
Qed.

Lemma worker_inv_item s i w a :
  tp_inv s → t_workers s !! i = Some w → worker_item w = Some a →
  ∃ it, t_heap s !! a = Some it ∧ deref (t_heap s) a = Ret it.
Proof.
  intros Hi Hl Hw. destruct (inv_item s a Hi) as (it & ? & ? & _); [|eauto].
  pose proof (worker_has_ref _ _ _ _ Hl Hw). unfold refs. lia.
Qed.

(** A worker moves on with its item, which it may update. *)
Lemma inv_worker_same s i w w' a it it' pool cbs :
  tp_inv s → t_workers s !! i = Some w → worker_item w = Some a → worker_item w' = Some a →
  t_heap s !! a = Some it →
  wi_ref_count it' = wi_ref_count it → wi_priority it' = wi_priority it →
  tp_queues pool = tp_queues (t_pool s) →
  tp_inv (Tps pool (<[a := it']> (t_heap s)) (t_next s) (<[i := w']> (t_workers s))
            (t_submitters s) (t_handles s) (t_enqueued s) (t_dequeued s) cbs).
Proof.
  intros Hi Hl Hw Hw' Hit Hrc Hpr Hq. set (s' := Tps _ _ _ _ _ _ _ _ _).
  assert (∀ b, in_workers s' b = in_workers s b) as Ew.
  { intros b. pose proof (in_workers_set s i w w' b Hl) as H. rewrite Hw, Hw' in H.
    unfold in_workers in *. simpl in *. lia. }
  assert (∀ b, refs s b = refs s' b) as Er.
  { intros b. unfold refs. rewrite Ew. unfold in_queues, in_submitters, in_handles, s'. simpl.
    by rewrite Hq. }
  apply (inv_frame s); try done.
  - intros b. by rewrite Ew.
  - eapply refs_ok_ext; [done|]. eapply refs_ok_update; [apply ti_refs, Hi|done..].
  - intros b Hb. simpl. rewrite lookup_insert_ne; congruence.
  - intros b _. simpl. by eapply prio_update.
Qed.

(** A holder of a handle updates its item. *)
Lemma inv_item_update s a it it' :
  tp_inv s → t_heap s !! a = Some it →
  wi_ref_count it' = wi_ref_count it → wi_priority it' = wi_priority it →
  tp_inv (t_set s (t_pool s) (<[a := it']> (t_heap s))).
Proof.
  intros Hi Hit Hrc Hpr. apply (inv_frame s); try done.
  - eapply refs_ok_ext; [|eapply refs_ok_update; [apply ti_refs, Hi|done..]]. done.
  - intros b Hb. simpl. rewrite lookup_insert_ne; congruence.
  - intros b _. simpl. by eapply prio_update.
Qed.

(** One reference is given up, by a worker, a submitter or a handle. *)
Lemma inv_release s s' a h' :
  tp_inv s → (0 < refs s a)%nat →
  work_item_release_internal (t_heap s) (Some a) = Ret h' → t_heap s' = h' →
  (∀ b, refs s' b = minus_at (refs s) a b) →
  tp_queues (t_pool s') = tp_queues (t_pool s) → t_next s' = t_next s →
  t_enqueued s' = t_enqueued s → t_dequeued s' = t_dequeued s →
  (∀ a, in_submitters s' a ≤ in_submitters s a)%nat →
  (∀ a, in_workers s' a ≤ in_workers s a)%nat →
  (∀ a, in_handles s' a ≤ in_handles s a)%nat →
  tp_inv s'.
Proof.
  intros Hi Hr Hrel Hh' Hrefs Eq En Ee Ed Hs Hw Hh.
  destruct (inv_item s a Hi Hr) as (it & _ & _ & Hle).
  destruct (release_spec (t_heap s) (refs s) a (ti_refs _ Hi) ltac:(lia))
    as (h1 & Hrel1 & Hok & Hpr & Hn).
  assert (h1 = t_heap s') as -> by congruence.
  apply (inv_frame s); auto.
  - by eapply refs_ok_ext; [|apply Hok].
  - intros b Hb. apply Hpr. by rewrite <- Hrefs.
Qed.

Lemma inv_release_defined s a :
  tp_inv s → (0 < refs s a)%nat → ∃ h', work_item_release_internal (t_heap s) (Some a) = Ret h'.
Proof.
  intros Hi Hr. destruct (inv_item s a Hi Hr) as (it & _ & _ & Hle).
  destruct (release_spec (t_heap s) (refs s) a (ti_refs _ Hi) ltac:(lia)) as (h1 & ? & _). eauto.
Qed.

Lemma worker_release_ok s i a :
  tp_inv s → t_workers s !! i = Some (WkCalled a) →
  ∃ s', worker_release s i a = Ret s' ∧ tp_inv s'.
Proof.
  intros Hi Hl. pose proof (worker_has_ref _ _ _ a Hl eq_refl) as Hw.
  assert (0 < refs s a)%nat as Hr by (unfold refs; lia).
  destruct (inv_release_defined s a Hi Hr) as [h' Hrel].
  unfold worker_release. rewrite Hrel. simpl. eexists. split; [done|].
  assert (∀ b, in_workers s b = in_workers (t_set_worker s i WkLoop) b
               + if decide (b = a) then 1 else 0)%nat as Ew.
  { intros b. pose proof (in_workers_set s i _ WkLoop b Hl) as H. simpl in H.
    rewrite at_addr_some, at_addr_none in H. lia. }
  assert (∀ b, in_workers (t_set_worker s i WkLoop) b
    = in_workers (t_set_worker (t_set s (add_completed (t_pool s)) h') i WkLoop) b) as Ew2 by done.
  eapply (inv_release s _ a h'); try done.
  - intros b. unfold minus_at, refs. rewrite (Ew b), Ew2.
    unfold in_queues, in_submitters, in_handles; simpl. case_decide; lia.
  - intros b. rewrite <- Ew2, (Ew b). lia.
Qed.

Lemma submit_release_ok s i x a pool :
  tp_inv s → t_submitters s !! i = Some x → submitter_item x = Some a →
  tp_queues pool = tp_queues (t_pool s) →
  ∃ h', work_item_release_internal (t_heap s) (Some a) = Ret h' ∧
        tp_inv (t_set_submitter (t_set s pool h') i SubIdle).
Proof.
  intros Hi Hl Hx Hq. pose proof (submitter_has_ref _ _ _ a Hl Hx) as Hs.
  assert (0 < refs s a)%nat as Hr by (unfold refs; lia).
  destruct (inv_release_defined s a Hi Hr) as [h' Hrel].
  eexists. split; [done|].
  assert (∀ b, in_submitters s b = in_submitters (t_set_submitter (t_set s pool h') i SubIdle) b
               + if decide (b = a) then 1 else 0)%nat as Es.
  { intros b. pose proof (in_submitters_set s i _ SubIdle b Hl) as H. rewrite Hx in H. simpl in H.
    rewrite at_addr_some, at_addr_none in H.
    unfold in_submitters in *. simpl in *. lia. }
  eapply (inv_release s _ a h'); try done.
  - intros b. unfold minus_at, refs. rewrite (Es b).
    unfold in_queues, in_workers, in_handles; simpl. rewrite Hq. case_decide; lia.
  - intros b. rewrite (Es b). lia.
Qed.

Lemma drop_ok s a :
  tp_inv s → a ∈ t_handles s →
  ∃ h', ios_work_release (t_heap s) (Some a) = Ret h' ∧
        tp_inv (t_set_handles (t_set s (t_pool s) h') (t_handles s ∖ {[a]})).
Proof.
  intros Hi Ha. pose proof (handle_has_ref _ _ Ha) as Hh.
  assert (0 < refs s a)%nat as Hr by (unfold refs; lia).
  destruct (inv_release_defined s a Hi Hr) as [h' Hrel].
  unfold ios_work_release. eexists. split; [done|].
  set (s' := t_set_handles _ _).
  assert (∀ b, in_handles s b = in_handles s' b + if decide (b = a) then 1 else 0)%nat as Eh.
  { intros b. unfold in_handles, s'. simpl. repeat case_decide; set_solver. }
  eapply (inv_release s _ a h'); try done.
  - intros b. unfold minus_at, refs. rewrite (Eh b).
    unfold in_queues, in_workers, in_submitters, s'; simpl. case_decide; lia.
  - intros b. rewrite (Eh b). lia.
Qed.

(** A fresh item belongs to its submitter alone. *)
Lemma submit_begin_ok s i bl fn arg pr ok :
  tp_inv s → t_submitters s !! i = Some SubIdle → tp_inv (submit_begin s i bl fn arg pr ok).
Proof.
  intros Hi Hl. unfold submit_begin, work_item_create. destruct fn as [fn|]; [|done].
  destruct (tp_shutdown (t_pool s)); [done|]. destruct ok; [|done].
  set (a := t_next s). set (x := if bl then SubBlocking a else SubTrying a). set (s' := Tps _ _ _ _ _ _ _ _ _).
  assert (submitter_item x = Some a) as Hx by (by unfold x; destruct bl).
  assert (∀ b, in_submitters s' b = in_submitters s b + if decide (b = a) then 1 else 0)%nat as Es.
  { intros b. pose proof (in_submitters_set s i _ x b Hl) as H. simpl in H.
    rewrite Hx, at_addr_some, at_addr_none in H.
    unfold in_submitters in *. simpl in *. lia. }
  destruct Hi as [Hq Hwf Hr Hp Hh Hf Hpr Ho Hon Hold].
  assert (t_heap s !! a = None) as Hna by (by apply Hf).
  assert (refs s a = 0)%nat as Hra by (specialize (Hr a); by rewrite Hna in Hr).
  assert (∀ b, refs s' b = plus_at (refs s) a b) as Er.
  { intros b. unfold plus_at, refs. rewrite Es. unfold in_queues, in_workers, in_handles; simpl. lia. }
  split; try done.
  - intros b. rewrite Er. unfold plus_at. simpl. specialize (Hr b). destruct (decide (b = a)) as [->|].
    + rewrite lookup_insert_eq. simpl. rewrite Hra. lia.
    + rewrite lookup_insert_ne, Nat.add_0_r by done. done.
  - intros b. rewrite Es. specialize (Hp b). unfold in_queues, in_workers in *; simpl.
    unfold refs, in_queues, in_workers in Hra. case_decide; subst; lia.
  - intros b. rewrite Es. specialize (Hh b). unfold in_handles in *; simpl.
    unfold refs, in_handles in Hra. destruct (decide (b = a)); subst; lia.
  - intros b Hb. simpl in *. rewrite lookup_insert_ne by lia. apply Hf. lia.
  - intros p q b Hlq Hb. simpl in *. specialize (Hpr _ _ _ Hlq Hb). unfold prio_of in *.
    destruct (decide (a = b)) as [->|]; [by rewrite Hna in Hpr|]. by rewrite lookup_insert_ne.
  - intros b Hb. simpl in *. destruct (Hold b Hb) as [? E]. rewrite Es, E. split; [lia|].
    rewrite decide_False; [done|]. lia.
Qed.

(** ** Entering and leaving the queues *)

Lemma occurrences_app a l k : occurrences a (l ++ k) = (occurrences a l + occurrences a k)%nat.
Proof. induction l as [|x l IH]; simpl; [done|]. unfold occurrences in *. simpl. lia. Qed.

Lemma occurrences_cons a x l :
  occurrences a (x :: l) = ((if decide (a = x) then 1 else 0) + occurrences a l)%nat.
Proof. unfold occurrences. simpl. by rewrite at_addr_some. Qed.

Lemma occurrences_nil a : occurrences a [] = 0%nat.
Proof. done. Qed.

Lemma occurrences_pos a l : a ∈ l → (0 < occurrences a l)%nat.
Proof.
  intros Ha. apply list_elem_of_lookup in Ha as [k Hk].
  pose proof (sum_list_with_lookup (λ x, at_addr a (Some x)) _ _ _ Hk) as HK.
  simpl in HK. rewrite at_addr_some, decide_True in HK by done. unfold occurrences. lia.
Qed.

Definition qs_occ (a : addr) (qs : list work_queue) : nat :=
  sum_list_with (λ q, occurrences a (q_items q)) qs.

Lemma qs_occ_insert qs k q q' a :
  qs !! k = Some q →
  (qs_occ a (<[k := q']> qs) + occurrences a (q_items q) = qs_occ a qs + occurrences a (q_items q'))%nat.
Proof. apply (sum_list_with_insert (λ q, occurrences a (q_items q))). Qed.

Lemma qs_occ_elem qs k q a : qs !! k = Some q → a ∈ q_items q → (0 < qs_occ a qs)%nat.
Proof.
  intros Hl Ha. pose proof (sum_list_with_lookup (λ q, occurrences a (q_items q)) _ _ _ Hl) as H.
  apply occurrences_pos in Ha. unfold qs_occ. simpl in H. lia.
Qed.

Lemma inv_queue s p : tp_inv s → ∃ q, tp_queues (t_pool s) !! pidx p = Some q ∧
  get_queue (t_pool s) p = Ret q ∧ queue_wf q.
Proof.
  intros Hi. destruct (lookup_lt_is_Some_2 (tp_queues (t_pool s)) (pidx p)) as [q Hq].
  { rewrite (ti_queues _ Hi). destruct p; simpl; lia. }
  exists q. unfold get_queue. rewrite Hq. split_and!; [done..|].
  by eapply Forall_lookup_1 in Hq; [|apply ti_wf].
Qed.

Lemma pidx_inj p q : pidx p = pidx q → p = q.
Proof. by destruct p, q. Qed.

Lemma in_handles_add s hs a b :
  t_handles s = hs → a ∉ hs →
  in_handles (t_set_handles s ({[a]} ∪ hs)) b
  = (in_handles s b + if decide (b = a) then 1 else 0)%nat.
Proof.
  intros <- Ha. unfold in_handles. simpl.
  destruct (decide (b = a)) as [->|].
  - rewrite decide_True, decide_False by set_solver. done.
  - rewrite Nat.add_0_r. apply decide_ext. set_solver.
Qed.

(** The state after [a] went from a submitter into the queue of [p]. *)
Lemma inv_enqueued s i x a p q q' h' :
  tp_inv s → t_submitters s !! i = Some x → submitter_item x = Some a →
  prio_of (t_heap s) a = Some p →
  tp_queues (t_pool s) !! pidx p = Some q → queue_wf q' → q_items q' = q_items q ++ [a] →
  refs_ok h' (plus_at (refs s) a) → (∀ x, prio_of h' x = prio_of (t_heap s) x) →
  (∀ x, t_heap s !! x = None → h' !! x = None) →
  tp_inv (t_log_enqueued
     (t_set_handles (t_set_submitter (t_set s (add_submitted (set_queue (t_pool s) p q')) h') i SubIdle)
        ({[a]} ∪ t_handles s)) p a).
Proof.
  intros Hi Hl Hx Hpa Hq Hwf' Hit Hrok Hprs Hnone. set (s' := t_log_enqueued _ _ _).
  pose proof (submitter_has_ref _ _ _ _ Hl Hx) as Hsub.
  destruct Hi as [Hq4 Hwf Hr Hp Hh Hf Hpr Ho Hon Hold].
  assert (∀ b, in_submitters s b = in_submitters s' b + if decide (b = a) then 1 else 0)%nat as Es.
  { intros b. pose proof (in_submitters_set s i _ SubIdle b Hl) as H. rewrite Hx in H. simpl in H.
    rewrite at_addr_some, at_addr_none in H. unfold in_submitters in *. simpl in *. lia. }
  assert (∀ b, in_queues s' b = in_queues s b + if decide (b = a) then 1 else 0)%nat as Eq.
  { intros b. pose proof (qs_occ_insert _ _ _ q' b Hq) as H. rewrite Hit, occurrences_app in H.
    rewrite occurrences_cons, occurrences_nil in H. change (in_queues s' b)
      with (qs_occ b (<[pidx p := q']> (tp_queues (t_pool s)))).
    change (in_queues s b) with (qs_occ b (tp_queues (t_pool s))). lia. }
  assert (∀ b, in_handles s' b = in_handles s b + if decide (b = a) then 1 else 0)%nat as Eh.
  { intros b. apply (in_handles_add s _ a b eq_refl). intros Hin.
    pose proof (handle_has_ref _ _ Hin). specialize (Hh a). lia. }
  assert (∀ b, in_workers s' b = in_workers s b) as Ew by done.
  assert (a ∉ (t_enqueued s).*2) as Hnew by (intros Hin; destruct (Hold a Hin); lia).
  split; simpl; try done.
  - by rewrite length_insert.
  - by apply Forall_insert.
  - eapply refs_ok_ext; [|apply Hrok]. intros b. unfold plus_at, refs.
    rewrite Eq, Ew, Eh, (Es b). lia.
  - intros b. rewrite Ew, Eq. specialize (Hp b). rewrite (Es b) in Hp. lia.
  - intros b. rewrite Eh. specialize (Hh b). rewrite (Es b) in Hh. lia.
  - intros b Hb. apply Hnone, Hf, Hb.
  - intros p' q1 b Hl1 Hb. rewrite Hprs. destruct (decide (p' = p)) as [->|].
    + rewrite list_lookup_insert_eq in Hl1 by (by eapply lookup_lt_Some). simplify_eq.
      rewrite Hit in Hb. apply elem_of_app in Hb as [Hb|Hb]; [by eapply Hpr|].
      apply list_elem_of_singleton in Hb. by subst.
    + rewrite list_lookup_insert_ne in Hl1; [by eapply Hpr|]. by intros ?%pidx_inj.
  - intros p' q1 Hl1. rewrite by_prio_snoc. destruct (decide (p' = p)) as [->|].
    + rewrite list_lookup_insert_eq in Hl1 by (by eapply lookup_lt_Some). simplify_eq.
      rewrite decide_True, Hit, app_assoc by done. by rewrite (Ho _ _ Hq).
    + rewrite list_lookup_insert_ne in Hl1 by (by intros ?%pidx_inj).
      rewrite decide_False, app_nil_r by done. by apply Ho.
  - rewrite fmap_app. simpl. apply list.NoDup_app. split_and!; [done| |apply NoDup_singleton].
    intros b Hb ->%list_elem_of_singleton. done.
  - intros b. rewrite fmap_app, elem_of_app. simpl. intros [Hb|Hb].
    + destruct (Hold b Hb) as [? E]. specialize (Es b). lia.
    + apply list_elem_of_singleton in Hb as ->. specialize (Hp a). specialize (Es a).
      rewrite decide_True in Es by done. split; [|lia].
      destruct (decide (a < t_next s)%nat); [done|]. specialize (Hf a ltac:(lia)).
      specialize (Hr a). rewrite Hf in Hr. unfold refs in Hr. lia.
Qed.

(** Waking sleepers changes no reference. *)
Lemma sum_cond_signal {A} (asleep : A → bool) wk (f : A → nat) k l :
  (∀ x, asleep x = true → f (wk x) = f x) →
  sum_list_with f (cond_signal asleep wk k l) = sum_list_with f l.
Proof.
  intros Hf. assert (sum_list_with f (wake_first asleep wk l) = sum_list_with f l) as H1.
  { induction l as [|x l IH]; [done|]. simpl. destruct (asleep x) eqn:E; simpl; [|lia].
    by rewrite Hf. }
  unfold cond_signal. destruct (l !! k) as [x|] eqn:Hk; [|done].
  destruct (asleep x) eqn:E; [|done].
  pose proof (sum_list_with_insert f l k x (wk x) Hk). rewrite (Hf x E) in *. lia.
Qed.

Lemma sum_cond_broadcast {A} (asleep : A → bool) wk (f : A → nat) l :
  (∀ x, asleep x = true → f (wk x) = f x) →
  sum_list_with f (cond_broadcast asleep wk l) = sum_list_with f l.
Proof.
  intros Hf. induction l as [|x l IH]; [done|]. simpl. rewrite <- IH.
  destruct (asleep x) eqn:E; [by rewrite Hf|done].
Qed.

Lemma inv_threads s ws xs :
  tp_inv s →
  (∀ a, sum_list_with (λ w, at_addr a (worker_item w)) ws = in_workers s a) →
  (∀ a, sum_list_with (λ x, at_addr a (submitter_item x)) xs = in_submitters s a) →
  tp_inv (t_set_threads s ws xs).
Proof.
  intros Hi Hw Hx. set (s' := t_set_threads _ _ _).
  assert (∀ a, in_workers s' a = in_workers s a) as Ew by apply Hw.
  assert (∀ a, in_submitters s' a = in_submitters s a) as Es by apply Hx.
  apply (inv_frame s); try done; try (intros a; rewrite ?Ew, ?Es; lia).
  apply (refs_ok_ext _ (refs s)); [|apply (ti_refs _ Hi)]. intros a. unfold refs.
  by rewrite Ew, Es.
Qed.

Lemma worker_wake_item w a :
  worker_asleep w = true → at_addr a (worker_item (worker_wake w)) = at_addr a (worker_item w).
Proof. by destruct w. Qed.
Lemma submitter_wake_item x a :
  submitter_asleep x = true →
  at_addr a (submitter_item (submitter_wake x)) = at_addr a (submitter_item x).
Proof. by destruct x. Qed.

Lemma inv_signal_work s k : tp_inv s → tp_inv (signal_work_available k s).
Proof.
  intros Hi. apply inv_threads; [done| |done].
  intros a. apply sum_cond_signal. intros. by apply worker_wake_item.
Qed.
Lemma inv_signal_space s k : tp_inv s → tp_inv (signal_queue_not_full k s).
Proof.
  intros Hi. apply inv_threads; [done..|].
  intros a. apply sum_cond_signal. intros. by apply submitter_wake_item.
Qed.
Lemma inv_broadcast s : tp_inv s → tp_inv (broadcast_both s).
Proof.
  intros Hi. apply inv_threads; [done|..]; intros a; apply sum_cond_broadcast; intros.
  - by apply worker_wake_item.
  - by apply submitter_wake_item.
Qed.

(** A thread moves on with the same item, or none. *)
Lemma inv_worker_move s i w w' :
  tp_inv s → t_workers s !! i = Some w → worker_item w' = worker_item w →
  tp_inv (t_set_worker s i w').
Proof.
  intros Hi Hl Hw. apply (inv_threads s (<[i := w']> (t_workers s)) (t_submitters s)); try done.
  intros a. pose proof (in_workers_set s i w w' a Hl) as H. rewrite Hw in H.
  unfold in_workers in *. simpl in *. lia.
Qed.
Lemma inv_submitter_move s i x x' :
  tp_inv s → t_submitters s !! i = Some x → submitter_item x' = submitter_item x →
  tp_inv (t_set_submitter s i x').
Proof.
  intros Hi Hl Hx. apply (inv_threads s (t_workers s) (<[i := x']> (t_submitters s))); try done.
  intros a. pose proof (in_submitters_set s i x x' a Hl) as H. rewrite Hx in H.
  unfold in_submitters in *. simpl in *. lia.
Qed.

Lemma submit_enqueue_ok s i x a k :
  tp_inv s → t_submitters s !! i = Some x → submitter_item x = Some a →
  ∃ s', submit_enqueue s i a k = Ret s' ∧ tp_inv s'.
Proof.
  intros Hi Hl Hx. pose proof (submitter_has_ref _ _ _ _ Hl Hx) as Hs.
  assert (0 < refs s a)%nat as Hr by (unfold refs; lia).
  destruct (inv_item s a Hi Hr) as (it & Hit & Hd & Hle).
  destruct (inv_queue s (wi_priority it) Hi) as (q & Hq & Hg & Hwf).
  unfold submit_enqueue, enqueue_work. rewrite Hd. simpl. rewrite Hg. simpl.
  case_bool_decide as Hfull; simpl.
  - destruct (submit_release_ok s i x a (add_dropped (t_pool s)) Hi Hl Hx eq_refl)
      as (h' & Hrel & Hinv).
    rewrite Hrel. simpl. eauto.
  - destruct (queue_push_spec q a Hwf ltac:(lia)) as (q' & Hpush & Hwf' & Hitems & _ & _).
    rewrite Hpush. simpl.
    destruct (retain_spec (t_heap s) (refs s) a (ti_refs _ Hi) ltac:(lia))
      as (h' & Hret & Hok & Hpr & Hn).
    rewrite Hret. simpl.
    eexists. split; [done|]. apply inv_signal_work.
    eapply inv_enqueued; try done.
    unfold prio_of. by rewrite Hit.
Qed.

Lemma ios_thread_pool_submit_ok s i a k :
  tp_inv s → t_submitters s !! i = Some (SubBlocking a) →
  ∃ s', ios_thread_pool_submit s i a k = Ret s' ∧ tp_inv s'.
Proof.
  intros Hi Hl. pose proof (submitter_has_ref _ _ _ a Hl eq_refl) as Hs.
  destruct (inv_item s a Hi ltac:(unfold refs; lia)) as (it & Hit & Hd & Hle).
  destruct (inv_queue s (wi_priority it) Hi) as (q & Hq & Hg & Hwf).
  unfold ios_thread_pool_submit. rewrite Hd. simpl. rewrite Hg.
  simpl.
  case_bool_decide; destruct (tp_shutdown (t_pool s)) eqn:Esh; simpl.
  1, 3: destruct (submit_release_ok s i _ a (t_pool s) Hi Hl eq_refl eq_refl)
      as (h' & -> & Hinv); simpl; eauto.
  - eexists. split; [done|]. by eapply inv_submitter_move.
  - by eapply submit_enqueue_ok.
Qed.

(** The worker's loop over the priorities finds the first non-empty queue. *)
Lemma dequeue_from_spec s ps :
  tp_inv s →
  (dequeue_from ps (t_pool s) = Ret (t_pool s, None) ∧
     ∀ p q, p ∈ ps → tp_queues (t_pool s) !! pidx p = Some q → q_items q = [])
  ∨ ∃ pre p post q q' a,
      ps = pre ++ p :: post ∧
      (∀ p' q, p' ∈ pre → tp_queues (t_pool s) !! pidx p' = Some q → q_items q = []) ∧
      tp_queues (t_pool s) !! pidx p = Some q ∧ queue_wf q' ∧ q_items q = a :: q_items q' ∧
      q_capacity q' = q_capacity q ∧
      dequeue_from ps (t_pool s) = Ret (set_queue (t_pool s) p q', Some a).
Proof.
  intros Hi. induction ps as [|p ps IH]; simpl.
  { left. split; [done|]. intros p q Hp. by apply not_elem_of_nil in Hp. }
  destruct (inv_queue s p Hi) as (q & Hq & Hg & Hwf). rewrite Hg. simpl.
  case_bool_decide as Hc.
  - destruct (queue_pop_spec q Hwf Hc) as (q' & a & Hpop & Hwf' & Hit & _ & Hcap).
    rewrite Hpop. simpl. right. exists [], p, ps, q, q', a. split_and!; try done.
    intros p' ? Hp'. by apply not_elem_of_nil in Hp'.
  - assert (q_items q = []) as He.
    { apply nil_length_inv. pose proof (q_items_length q Hwf) as Hlen. unfold zlen in Hlen. lia. }
    destruct IH as [[-> Hall]|(pre & p1 & post & q1 & q1' & a & -> & Hpre & ? & ? & ? & ? & ->)].
    + left. split; [done|]. intros p' q1 [->|Hp']%elem_of_cons Hl; [congruence|eauto].
    + right. exists (p :: pre), p1, post, q1, q1', a. split_and!; try done.
      intros p' q2 [->|Hp']%elem_of_cons Hl; [congruence|eauto].
Qed.

Lemma inv_dequeued s i a p q q' :
  tp_inv s → t_workers s !! i = Some WkLoop →
  tp_queues (t_pool s) !! pidx p = Some q → queue_wf q' → q_items q = a :: q_items q' →
  tp_inv (t_log_dequeued
     (t_set_worker (t_set s (set_queue (t_pool s) p q') (t_heap s)) i (WkTaken a)) p a).
Proof.
  intros Hi Hl Hq Hwf' Hit. set (s' := t_log_dequeued _ _ _).
  destruct Hi as [Hq4 Hwf Hr Hp Hh Hf Hpr Ho Hon Hold].
  assert (∀ b, in_workers s' b = in_workers s b + if decide (b = a) then 1 else 0)%nat as Ew.
  { intros b. pose proof (in_workers_set s i _ (WkTaken a) b Hl) as H. simpl in H.
    rewrite at_addr_some, at_addr_none in H. unfold in_workers in *. simpl in *. lia. }
  assert (∀ b, in_queues s b = in_queues s' b + if decide (b = a) then 1 else 0)%nat as Eq.
  { intros b. pose proof (qs_occ_insert _ _ _ q' b Hq) as H. rewrite Hit, occurrences_cons in H.
    change (in_queues s' b) with (qs_occ b (<[pidx p := q']> (tp_queues (t_pool s)))).
    change (in_queues s b) with (qs_occ b (tp_queues (t_pool s))). lia. }
  split; simpl; try done.
  - by rewrite length_insert.
  - by apply Forall_insert.
  - eapply refs_ok_ext; [|apply Hr]. intros b. unfold refs. rewrite Ew, (Eq b).
    unfold in_submitters, in_handles; simpl. lia.
  - intros b. rewrite Ew. specialize (Hp b). rewrite (Eq b) in Hp.
    unfold in_submitters in *; simpl in *. lia.
  - intros p' q1 b Hl1 Hb. destruct (decide (p' = p)) as [->|].
    + rewrite list_lookup_insert_eq in Hl1 by (by eapply lookup_lt_Some). simplify_eq.
      eapply Hpr; [done|]. rewrite Hit. by right.
    + rewrite list_lookup_insert_ne in Hl1; [by eapply Hpr|]. by intros ?%pidx_inj.
  - intros p' q1 Hl1. rewrite by_prio_snoc. destruct (decide (p' = p)) as [->|].
    + rewrite list_lookup_insert_eq in Hl1 by (by eapply lookup_lt_Some). simplify_eq.
      rewrite decide_True, <- app_assoc by done. rewrite <- (Ho _ _ Hq), Hit. done.
    + rewrite list_lookup_insert_ne in Hl1 by (by intros ?%pidx_inj).
      rewrite decide_False, app_nil_r by done. by apply Ho.
Qed.

Lemma worker_dequeue_ok s i k :
  tp_inv s → t_workers s !! i = Some WkLoop → ∃ s', worker_dequeue s i k = Ret s' ∧ tp_inv s'.
Proof.
  intros Hi Hl. unfold worker_dequeue. destruct (tp_shutdown (t_pool s)).
  - eexists. split; [done|]. by eapply inv_worker_move.
  - unfold dequeue_work.
    destruct (dequeue_from_spec s priorities Hi)
      as [[-> _]|(pre & p & post & q & q' & a & _ & _ & Hq & Hwf' & Hit & _ & ->)]; simpl.
    + eexists. split; [done|]. apply (inv_worker_move (t_set s (t_pool s) (t_heap s)) i WkLoop); [|done..].
      by destruct s.
    + assert (prio_of (t_heap s) a = Some p) as Hpa.
      { eapply ti_prio; [done..|]. rewrite Hit. by left. }
      unfold prio_of, deref in *. destruct (t_heap s !! a) as [it|] eqn:Ha; simplify_eq/=.
      eexists. split; [done|]. by eapply inv_signal_space, inv_dequeued.
Qed.

(** ** Every step is defined and preserves the invariant *)

Lemma worker_update_ok s i w w' a (f : ios_work_item → ios_work_item) pool cbs :
  tp_inv s → t_workers s !! i = Some w → worker_item w = Some a → worker_item w' = Some a →
  (∀ it, wi_ref_count (f it) = wi_ref_count it ∧ wi_priority (f it) = wi_priority it) →
  tp_queues pool = tp_queues (t_pool s) →
  ∃ it, deref (t_heap s) a = Ret it ∧
    tp_inv (Tps pool (<[a := f it]> (t_heap s)) (t_next s) (<[i := w']> (t_workers s))
            (t_submitters s) (t_handles s) (t_enqueued s) (t_dequeued s) cbs).
Proof.
  intros Hi Hl Hw Hw' Hf Hq. destruct (worker_inv_item s i w a Hi Hl Hw) as (it & Hit & Hd).
  exists it. split; [done|]. destruct (Hf it). by eapply inv_worker_same.
Qed.

Lemma worker_callback_ok s i a r :
  tp_inv s → t_workers s !! i = Some (WkCompleted a r) →
  ∃ s', worker_callback s i a r = Ret s' ∧ tp_inv s'.
Proof.
  intros Hi Hl. destruct (worker_inv_item s i _ a Hi Hl eq_refl) as (it & Hit & Hd).
  unfold worker_callback. rewrite Hd. simpl.
  assert (∀ cbs, tp_inv (Tps (t_pool s) (t_heap s) (t_next s) (<[i := WkCalled a]> (t_workers s))
    (t_submitters s) (t_handles s) (t_enqueued s) (t_dequeued s) cbs)) as H.
  { intros cbs. replace (t_heap s) with (<[a := it]> (t_heap s)) by (by apply insert_id).
    by eapply (inv_worker_same s i _ _ a it it). }
  destruct (wi_callback it); eexists; (split; [done|]); apply H.
Qed.

Lemma item_in_use s a :
  tp_inv s → a ∈ t_handles s ∨ Some a ∈ ios_work_get_current <$> t_workers s →
  ∃ it, t_heap s !! a = Some it ∧ deref (t_heap s) a = Ret it.
Proof.
  intros Hi Ha. destruct (inv_item s a Hi) as (it & ? & ? & _); [|eauto]. unfold refs.
  destruct Ha as [Ha|Ha]; [apply handle_has_ref in Ha; lia|].
  apply list_elem_of_fmap in Ha as (w & Hw & [i Hl]%list_elem_of_lookup).
  assert (0 < in_workers s a)%nat; [|lia]. eapply worker_has_ref; [done|]. by destruct w; simplify_eq/=.
Qed.

Lemma tp_exec_ok ev s :
  tp_inv s → ∃ o, tp_exec ev s = Ret o ∧ ∀ s', o = Some s' → tp_inv s'.
Proof.
  intros Hi.
  assert (∀ m : outcome tps, (∃ s', m = Ret s' ∧ tp_inv s') →
    ∃ o, Some <$> m = Ret o ∧ ∀ s', o = Some s' → tp_inv s') as Hok.
  { intros m (s' & -> & ?). eexists. split; [done|]. by intros ? [= <-]. }
  assert (∃ o, @Ret (option tps) None = Ret o ∧ ∀ s', o = Some s' → tp_inv s') as Hno.
  { by eexists. }
  assert (∀ s1, tp_inv s1 → ∃ o, Ret (Some s1) = Ret o ∧ ∀ s', o = Some s' → tp_inv s') as Hret.
  { intros s1 H1. eexists. split; [done|]. by intros ? [= <-]. }
  destruct ev; simpl.
  - destruct (t_submitters s !! i) as [[| | |]|] eqn:Hl; try done. by apply Hret, submit_begin_ok.
  - destruct (t_submitters s !! i) as [[| | |]|] eqn:Hl; try done; apply Hok.
    + by apply ios_thread_pool_submit_ok.
    + by eapply submit_enqueue_ok.
  - case_bool_decide as Ha; [|done]. apply Hok.
    destruct (item_in_use s a Hi (or_introl Ha)) as (it & Hit & Hd).
    unfold ios_thread_pool_submit_with_callback. rewrite Hd. eexists. split; [done|].
    by eapply inv_item_update.
  - destruct (t_workers s !! i) as [[]|] eqn:Hl; try done. apply Hok. by apply worker_dequeue_ok.
  - destruct (t_workers s !! i) as [[]|] eqn:Hl; try done. apply Hok. unfold worker_start.
    edestruct (worker_update_ok s i (WkTaken a) (WkRunning a) a (λ it, set_state it WORK_EXECUTING)
      (add_active (t_pool s) 1) (t_callbacks s)) as (it & -> & H); try done. by eexists.
  - destruct (t_workers s !! i) as [[]|] eqn:Hl; try done. apply Hret.
    destruct (worker_inv_item s i _ a Hi Hl eq_refl) as (it & Hit & _).
    unfold t_set_worker, t_set. simpl.
    replace (t_heap s) with (<[a := it]> (t_heap s)) by (by apply insert_id).
    by eapply (inv_worker_same s i _ _ a it it).
  - destruct (t_workers s !! i) as [[]|] eqn:Hl; try done. apply Hok. unfold worker_complete.
    edestruct (worker_update_ok s i (WkReturned a r) (WkCompleted a r) a
      (λ it, set_state (set_result it r) WORK_COMPLETED) (t_pool s) (t_callbacks s))
      as (it & -> & H); try done. by eexists.
  - destruct (t_workers s !! i) as [[]|] eqn:Hl; try done. apply Hok. by apply worker_callback_ok.
  - destruct (t_workers s !! i) as [[]|] eqn:Hl; try done. apply Hok. by apply worker_release_ok.
  - case_bool_decide as Ha; [|done]. destruct (item_in_use s a Hi (or_introl Ha)) as (it & Hit & Hd).
    rewrite Hd. simpl. case_bool_decide; simpl; apply Hret; [by eapply inv_item_update|].
    by destruct s.
  - case_bool_decide as Ha; [|done]. destruct (item_in_use s a Hi Ha) as (it & Hit & Hd).
    rewrite Hd. simpl. case_bool_decide; simpl; apply Hret; [by eapply inv_item_update|].
    by destruct s.
  - case_bool_decide as Ha; [|done]. destruct (drop_ok s a Hi Ha) as (h' & Hrel & H).
    rewrite Hrel. by apply Hret.
  - apply Hret. by apply (inv_frame s); try done; apply ti_refs in Hi.
  - destruct (tp_shutdown (t_pool s)); [|done]. by apply Hret, inv_broadcast.
  - apply Hret. by apply (inv_frame s); try done; apply ti_refs in Hi.
  - destruct (t_workers s !! i) as [[]|] eqn:Hl; try done. apply Hret. by eapply inv_worker_move.
  - destruct (t_submitters s !! i) as [[]|] eqn:Hl; try done. apply Hret.
    by eapply inv_submitter_move.
Qed.

Lemma tp_init_inv s : tp_init s → tp_inv s.
Proof.
  intros (sysctl & config & pool & n & Hc & ->).
  unfold ios_thread_pool_create in Hc. simpl in Hc. simplify_eq.
  set (m := if bool_decide (0 < tc_max_queue_size config) then _ else _).
  assert (0 < m) as Hm by (unfold m; case_bool_decide; [done|by vm_compute]).
  assert (∀ k a, (sum_list_with (λ w, at_addr a (worker_item w)) (replicate k WkLoop)) = 0%nat) as H1.
  { intros k a. by induction k as [|k IH]; [|exact IH]. }
  assert (∀ k a, (sum_list_with (λ w, at_addr a (submitter_item w)) (replicate k SubIdle)) = 0%nat) as H2.
  { intros k a. by induction k as [|k IH]; [|exact IH]. }
  assert (Forall queue_wf [new_queue (m ÷ 8); new_queue (m ÷ 2); new_queue (m ÷ 4); new_queue (m ÷ 8)])
    as Hwf.
  { do 4 (apply Forall_cons; [apply new_queue_wf, Z.quot_pos; lia|]). apply Forall_nil. }
  split; simpl; try done.
  - intros a. unfold refs, in_submitters, in_queues, in_workers, in_handles; simpl. by rewrite H1, H2.
  - intros a. unfold in_submitters, in_queues, in_workers; simpl. rewrite H1, H2.
    by vm_compute; lia.
  - intros a. unfold in_submitters, in_handles; simpl. rewrite H2.
    rewrite decide_False by set_solver. lia.
  - intros p q a Hq Ha. exfalso. destruct p; simplify_eq/=; by apply not_elem_of_nil in Ha.
  - intros p q Hq. by destruct p; simplify_eq/=.
  - apply NoDup_nil_2.
  - intros a Ha. by apply not_elem_of_nil in Ha.
Qed.

Lemma tp_reachable_inv s : reachable tp_step tp_init s → tp_inv s.
Proof.
  apply reachable_invariant; [exact tp_init_inv|]. intros ev s1 s2 Hi Hs. unfold tp_step in Hs.
  destruct (tp_exec_ok ev s1 Hi) as (o & E & H). rewrite E in Hs. by apply H.
Qed.

(** ** What a step does to the workers and the queues *)

Definition is_running (w : worker) : nat := match w with WkRunning _ => 1 | _ => 0 end.
Definition is_looping (w : worker) : nat := match w with WkLoop => 1 | _ => 0 end.
Definition is_asleep (w : worker) : nat := if worker_asleep w then 1 else 0.

Inductive pool_effect (s s' : tps) : Prop :=
  | eff_none :
      t_workers s' = t_workers s → tp_queues (t_pool s') = tp_queues (t_pool s) →
      tp_active_workers (t_pool s') = tp_active_workers (t_pool s) → pool_effect s s'
  | eff_move i w w' :
      t_workers s !! i = Some w → t_workers s' = <[i := w']> (t_workers s) →
      w ≠ WkLoop → w' ≠ WkAsleep → tp_queues (t_pool s') = tp_queues (t_pool s) →
      tp_active_workers (t_pool s') =
        tp_active_workers (t_pool s) +i32 (Z.of_nat (is_running w') - Z.of_nat (is_running w)) →
      pool_effect s s'
  | eff_exit i :
      t_workers s !! i = Some WkLoop → t_workers s' = <[i := WkExited]> (t_workers s) →
      tp_shutdown (t_pool s) = true → tp_queues (t_pool s') = tp_queues (t_pool s) →
      tp_active_workers (t_pool s') = tp_active_workers (t_pool s) → pool_effect s s'
  | eff_sleep i :
      t_workers s !! i = Some WkLoop → t_workers s' = <[i := WkAsleep]> (t_workers s) →
      tp_shutdown (t_pool s) = false →
      (∀ q, q ∈ tp_queues (t_pool s) → q_items q = []) →
      tp_queues (t_pool s') = tp_queues (t_pool s) →
      tp_active_workers (t_pool s') = tp_active_workers (t_pool s) → pool_effect s s'
  | eff_take i p q q' a :
      t_workers s !! i = Some WkLoop → t_workers s' = <[i := WkTaken a]> (t_workers s) →
      tp_queues (t_pool s) !! pidx p = Some q → q_items q = a :: q_items q' →
      q_capacity q' = q_capacity q →
      tp_queues (t_pool s') = <[pidx p := q']> (tp_queues (t_pool s)) →
      tp_active_workers (t_pool s') = tp_active_workers (t_pool s) → pool_effect s s'
  | eff_put k p q q' a :
      t_workers s' = cond_signal worker_asleep worker_wake k (t_workers s) →
      tp_queues (t_pool s) !! pidx p = Some q → q_items q' = q_items q ++ [a] →
      q_capacity q' = q_capacity q →
      tp_queues (t_pool s') = <[pidx p := q']> (tp_queues (t_pool s)) →
      tp_active_workers (t_pool s') = tp_active_workers (t_pool s) → pool_effect s s'
  | eff_broadcast :
      t_workers s' = cond_broadcast worker_asleep worker_wake (t_workers s) →
      tp_shutdown (t_pool s) = true → tp_queues (t_pool s') = tp_queues (t_pool s) →
      tp_active_workers (t_pool s') = tp_active_workers (t_pool s) → pool_effect s s'.

Lemma submit_enqueue_effect s i x a k s' :
  tp_inv s → t_submitters s !! i = Some x → submitter_item x = Some a →
  submit_enqueue s i a k = Ret s' →
  pool_effect s s' ∧ tp_shutdown (t_pool s') = tp_shutdown (t_pool s).
Proof.
  intros Hi Hl Hx. pose proof (submitter_has_ref _ _ _ _ Hl Hx) as Hs.
  assert (0 < refs s a)%nat as Hr by (unfold refs; lia).
  destruct (inv_item s a Hi Hr) as (it & Hit & Hd & Hle).
  destruct (inv_queue s (wi_priority it) Hi) as (q & Hq & Hg & Hwf).
  unfold submit_enqueue, enqueue_work. rewrite Hd. simpl. rewrite Hg. simpl.
  case_bool_decide as Hfull; simpl; intros E.
  - destruct (submit_release_ok s i x a (add_dropped (t_pool s)) Hi Hl Hx eq_refl)
      as (h' & Hrel & Hinv). rewrite Hrel in E. simpl in E. step_inv. split; [by apply eff_none|done].
  - destruct (queue_push_spec q a Hwf ltac:(lia)) as (q' & Hpush & Hwf' & Hitems & _ & Hcap).
    rewrite Hpush in E. simpl in E.
    destruct (retain_spec (t_heap s) (refs s) a (ti_refs _ Hi) ltac:(lia)) as (h' & Hret & _).
    rewrite Hret in E. simpl in E. step_inv. split; [by eapply eff_put|done].
Qed.

Lemma submit_effect s i a k s' :
  tp_inv s → t_submitters s !! i = Some (SubBlocking a) →
  ios_thread_pool_submit s i a k = Ret s' →
  pool_effect s s' ∧ tp_shutdown (t_pool s') = tp_shutdown (t_pool s).
Proof.
  intros Hi Hl. pose proof (submitter_has_ref _ _ _ a Hl eq_refl) as Hs.
  destruct (inv_item s a Hi ltac:(unfold refs; lia)) as (it & Hit & Hd & Hle).
  destruct (inv_queue s (wi_priority it) Hi) as (q & Hq & Hg & Hwf).
  unfold ios_thread_pool_submit. rewrite Hd. simpl. rewrite Hg. simpl.
  case_bool_decide; destruct (tp_shutdown (t_pool s)) eqn:Esh; simpl; intros E.
  1, 3: destruct (submit_release_ok s i _ a (t_pool s) Hi Hl eq_refl eq_refl)
      as (h' & Hrel & Hinv); rewrite Hrel in E; simpl in E; step_inv;
      (split; [by apply eff_none|done]).
  - step_inv. split; [by apply eff_none|done].
  - rewrite <- Esh. by eapply submit_enqueue_effect.
Qed.

Lemma worker_dequeue_effect s i k s' :
  tp_inv s → t_workers s !! i = Some WkLoop → worker_dequeue s i k = Ret s' →
  pool_effect s s' ∧ tp_shutdown (t_pool s') = tp_shutdown (t_pool s).
Proof.
  intros Hi Hl. unfold worker_dequeue. destruct (tp_shutdown (t_pool s)) eqn:Esh; intros E.
  { step_inv. split; [by eapply eff_exit|done]. }
  unfold dequeue_work in E.
  destruct (dequeue_from_spec s priorities Hi)
    as [[Ed Hall]|(pre & p & post & q & q' & a & Eps & _ & Hq & Hwf' & Hit & Hcap & Ed)];
    rewrite Ed in E; simpl in E.
  - step_inv. split; [|done]. eapply eff_sleep; try done.
    intros q [j Hj]%list_elem_of_lookup. pose proof (lookup_lt_Some _ _ _ Hj) as Hlt.
    rewrite (ti_queues _ Hi) in Hlt.
    destruct j as [|[|[|[|j]]]]; [..|lia].
    + by apply (Hall IOS_PRIORITY_LOW); [set_solver|].
    + by apply (Hall IOS_PRIORITY_NORMAL); [set_solver|].
    + by apply (Hall IOS_PRIORITY_HIGH); [set_solver|].
    + by apply (Hall IOS_PRIORITY_URGENT); [set_solver|].
  - assert (prio_of (t_heap s) a = Some p) as Hpa.
    { eapply ti_prio; [done..|]. rewrite Hit. by left. }
    unfold prio_of, deref in *. destruct (t_heap s !! a) as [it|] eqn:Ha; simplify_eq/=.
    split; [|done]. by eapply eff_take.
Qed.

Lemma active_unchanged (pool : ios_thread_pool) :
  wrapS 32 (tp_active_workers pool) = tp_active_workers pool →
  tp_active_workers pool = tp_active_workers pool +i32 (Z.of_nat 0 - Z.of_nat 0).
Proof. intros H. by rewrite Z.sub_diag, Z.add_0_r, H. Qed.

Lemma tp_step_effect ev s s' :
  tp_inv s → wrapS 32 (tp_active_workers (t_pool s)) = tp_active_workers (t_pool s) →
  tp_step ev s = Some s' →
  pool_effect s s' ∧ (tp_shutdown (t_pool s) = true → tp_shutdown (t_pool s') = true).
Proof.
  intros Hi Hact. unfold tp_step.
  assert (∀ m : outcome tps, (∀ s1, m = Ret s1 → pool_effect s s1 ∧
      tp_shutdown (t_pool s1) = tp_shutdown (t_pool s)) →
    match Some <$> m with Ret o => o | Undef _ => None end = Some s' →
    pool_effect s s' ∧ (tp_shutdown (t_pool s) = true → tp_shutdown (t_pool s') = true)) as Hok.
  { intros [s1|] H E; simplify_eq/=. destruct (H s' eq_refl) as [? ->]. done. }
  pose proof (active_unchanged _ Hact) as Hact'.
  destruct ev; simpl.
  - destruct (t_submitters s !! i) as [[| | |]|] eqn:Hl; try done. intros [= <-].
    unfold submit_begin. repeat case_match; (split; [by apply eff_none|done]).
  - destruct (t_submitters s !! i) as [[| | |]|] eqn:Hl; try done; apply Hok; intros s1.
    + by apply submit_effect.
    + by eapply submit_enqueue_effect.
  - case_bool_decide; [|done]. apply Hok. unfold ios_thread_pool_submit_with_callback.
    intros s1 E. step_inv. split; [by apply eff_none|done].
  - destruct (t_workers s !! i) as [[]|] eqn:Hl; try done. apply Hok.
    intros s1. by apply worker_dequeue_effect.
  - destruct (t_workers s !! i) as [[]|] eqn:Hl; try done. apply Hok.
    unfold worker_start. intros s1 E. step_inv. split; [by eapply eff_move|done].
  - destruct (t_workers s !! i) as [[]|] eqn:Hl; try done.
    intros E. step_inv. split; [by eapply eff_move|done].
  - destruct (t_workers s !! i) as [[]|] eqn:Hl; try done. apply Hok.
    unfold worker_complete. intros s1 E. step_inv. split; [by eapply eff_move|done].
  - destruct (t_workers s !! i) as [[]|] eqn:Hl; try done. apply Hok.
    unfold worker_callback. intros s1 E. step_inv; (split; [by eapply eff_move|done]).
  - destruct (t_workers s !! i) as [[]|] eqn:Hl; try done. apply Hok.
    unfold worker_release. intros s1 E. step_inv. split; [by eapply eff_move|done].
  - case_bool_decide; [|done]. destruct (deref _ _); simpl; [|done].
    case_bool_decide; simpl; intros [= <-]; (split; [by apply eff_none|done]).
  - case_bool_decide; [|done]. destruct (deref _ _); simpl; [|done].
    case_bool_decide; simpl; intros [= <-]; (split; [by apply eff_none|done]).
  - case_bool_decide; [|done]. destruct (ios_work_release _ _); simpl; [|done].
    intros [= <-]. split; [by apply eff_none|done].
  - intros [= <-]. split; [by apply eff_none|done].
  - destruct (tp_shutdown (t_pool s)) eqn:?; [|done]. intros [= <-].
    split; [by apply eff_broadcast|done].
  - intros [= <-]. split; [by apply eff_none|done].
  - destruct (t_workers s !! i) as [[]|] eqn:Hl; try done. intros [= <-].
    split; [by eapply eff_move|done].
  - destruct (t_submitters s !! i) as [[]|] eqn:Hl; try done. intros [= <-].
    split; [by apply eff_none|done].
Qed.

(** *** Consequences: the counter of active workers, sleeping workers and the
    capacities *)

Definition running (s : tps) : nat := sum_list_with is_running (t_workers s).
Definition looping (s : tps) : nat := sum_list_with is_looping (t_workers s).
Definition asleep (s : tps) : nat := sum_list_with is_asleep (t_workers s).
Definition pending (s : tps) : nat :=
  sum_list_with (λ q, length (q_items q)) (tp_queues (t_pool s)).

Record tp_aux (s : tps) : Prop := {
  ta_active : tp_active_workers (t_pool s) = wrapS 32 (Z.of_nat (running s));
  ta_awake : tp_shutdown (t_pool s) = true ∨ asleep s = 0%nat ∨ (pending s ≤ looping s)%nat }.

Lemma signal_awake k l :
  (sum_list_with is_asleep (cond_signal worker_asleep worker_wake k l) = 0%nat ∧
   sum_list_with is_looping (cond_signal worker_asleep worker_wake k l) = sum_list_with is_looping l ∧
   sum_list_with is_asleep l = 0%nat) ∨
  sum_list_with is_looping (cond_signal worker_asleep worker_wake k l)
   = S (sum_list_with is_looping l) ∧
  S (sum_list_with is_asleep (cond_signal worker_asleep worker_wake k l)) = sum_list_with is_asleep l.
Proof.
  assert ((sum_list_with is_asleep (wake_first worker_asleep worker_wake l) = 0%nat ∧
   sum_list_with is_looping (wake_first worker_asleep worker_wake l) = sum_list_with is_looping l ∧
   sum_list_with is_asleep l = 0%nat) ∨
  sum_list_with is_looping (wake_first worker_asleep worker_wake l) = S (sum_list_with is_looping l) ∧
  S (sum_list_with is_asleep (wake_first worker_asleep worker_wake l)) = sum_list_with is_asleep l)
    as H.
  { induction l as [|w l IH]; simpl; [by left|].
    destruct w; simpl; unfold is_asleep, is_looping in *; simpl in *; lia. }
  unfold cond_signal. destruct (l !! k) as [w|] eqn:Hk; [|done].
  destruct w; simpl; try done. right.
  pose proof (sum_list_with_insert is_looping l k _ WkLoop Hk).
  pose proof (sum_list_with_insert is_asleep l k _ WkLoop Hk).
  unfold is_looping, is_asleep in *. simpl in *. lia.
Qed.

Lemma insert_same_capacity (qs : list work_queue) k q q' :
  qs !! k = Some q → q_capacity q' = q_capacity q → q_capacity <$> <[k := q']> qs = q_capacity <$> qs.
Proof.
  intros Hk Hc. rewrite list_fmap_insert, Hc. apply list_insert_id. by rewrite list_lookup_fmap, Hk.
Qed.

Lemma tp_aux_step s s' :
  tp_aux s → pool_effect s s' →
  (tp_shutdown (t_pool s) = true → tp_shutdown (t_pool s') = true) → tp_aux s'.
Proof.
  intros [Ha Hw] He Hsh. unfold running, asleep, pending, looping in *.
  destruct He as [Ew Eq Ea|i w w' Hl Ew Hw1 Hw2 Eq Ea|i Hl Ew Hs Eq Ea|i Hl Ew Hs Hall Eq Ea
    |i p q q' a Hl Ew Hq Hit Hcap Eq Ea|k p q q' a Ew Hq Hit Hcap Eq Ea|Ew Hs Eq Ea];
    split; unfold running, asleep, pending, looping; rewrite ?Ew, ?Eq, ?Ea; try (by eauto).
  - destruct Hw as [|]; auto.
  - pose proof (sum_list_with_insert is_running _ i w w' Hl).
    rewrite Ha, wrapS_add_idemp by lia. f_equal. lia.
  - pose proof (sum_list_with_insert is_asleep _ i w w' Hl) as H1.
    pose proof (sum_list_with_insert is_looping _ i w w' Hl) as H2.
    destruct Hw as [?|Hw]; [by left; apply Hsh|right].
    assert (is_looping w = 0%nat) by (by destruct w). assert (is_asleep w' = 0%nat) by (by destruct w').
    lia.
  - pose proof (sum_list_with_insert is_running _ i _ WkExited Hl) as H1. simpl in H1.
    rewrite Ha. f_equal. lia.
  - pose proof (sum_list_with_insert is_running _ i _ WkAsleep Hl) as H1. simpl in H1.
    rewrite Ha. f_equal. lia.
  - right. right. assert (sum_list_with (λ q, length (q_items q)) (tp_queues (t_pool s)) = 0%nat); [|lia].
    clear -Hall. induction (tp_queues (t_pool s)) as [|q l IH]; [done|]. simpl.
    rewrite IH by (intros; apply Hall; by right). rewrite (Hall q) by (by left). done.
  - pose proof (sum_list_with_insert is_running _ i _ (WkTaken a) Hl) as H1. simpl in H1.
    rewrite Ha. f_equal. lia.
  - pose proof (sum_list_with_insert is_asleep _ i _ (WkTaken a) Hl) as H1.
    pose proof (sum_list_with_insert is_looping _ i _ (WkTaken a) Hl) as H2. simpl in H2.
    pose proof (sum_list_with_insert (λ q, length (q_items q)) _ _ _ q' Hq) as H3.
    cbv beta in H3. rewrite Hit in H3. unfold is_asleep in *. simpl in *.
    destruct Hw as [?|Hw]; [by left; apply Hsh|right]. lia.
  - rewrite sum_cond_signal; [done|]. by intros [].
  - pose proof (sum_list_with_insert (λ q, length (q_items q)) _ _ _ q' Hq) as H3.
    cbv beta in H3. rewrite Hit, length_app in H3. simpl in *.
    destruct Hw as [?|Hw]; [by left; apply Hsh|right].
    destruct (signal_awake k (t_workers s)) as [(H1 & H2 & H4)|[H1 H2]]; lia.
  - rewrite sum_cond_broadcast; [done|]. by intros [].
Qed.

Lemma tp_init_aux s : tp_init s → tp_aux s.
Proof.
  intros (sysctl & config & pool & n & Hc & ->).
  unfold ios_thread_pool_create in Hc. simpl in Hc. simplify_eq.
  assert (∀ k, sum_list_with is_running (replicate k WkLoop) = 0%nat) as H1
    by (by induction k as [|k IH]; [|exact IH]).
  split; simpl.
  - unfold running. simpl. by rewrite H1.
  - right. right. unfold pending. simpl. lia.
Qed.

Lemma tp_reachable_aux s : reachable tp_step tp_init s → tp_aux s.
Proof.
  induction 1 as [s Hi|ev s s' Hr IH Hs]; [by apply tp_init_aux|].
  destruct (tp_step_effect ev s s') as [He Hsh]; [by apply tp_reachable_inv| |done|].
  - rewrite (ta_active _ IH). by apply wrapS_idemp.
  - by eapply tp_aux_step.
Qed.

(** The configuration never changes. *)
Lemma dequeue_from_config ps pool pool' o :
  dequeue_from ps pool = Ret (pool', o) → tp_max_queue_size pool' = tp_max_queue_size pool.
Proof.
  revert pool. induction ps as [|p ps IH]; intros pool; simpl; intros E; [by step_inv|].
  step_inv; [done|]. by eapply IH.
Qed.

Lemma submit_enqueue_config s i a k s' :
  submit_enqueue s i a k = Ret s' → tp_max_queue_size (t_pool s') = tp_max_queue_size (t_pool s).
Proof. unfold submit_enqueue, enqueue_work. intros E. by step_inv. Qed.

Lemma tp_step_config ev s s' :
  tp_step ev s = Some s' → tp_max_queue_size (t_pool s') = tp_max_queue_size (t_pool s).
Proof.
  unfold tp_step. destruct (tp_exec ev s) as [o|] eqn:E; [|done]. intros ->.
  destruct ev; simpl in E; step_inv; try done; try congruence.
  all: unfold submit_begin, ios_thread_pool_submit, ios_thread_pool_try_submit, worker_start,
    ios_thread_pool_submit_with_callback, worker_complete, worker_callback, worker_release,
    worker_dequeue, dequeue_work in *.
  all: try (repeat case_match; done).
  all: step_inv; try done; eauto using submit_enqueue_config.
  all: simpl; eauto using dequeue_from_config.
Qed.

Lemma tp_reachable_caps s :
  reachable tp_step tp_init s →
  let m := tp_max_queue_size (t_pool s) in
  0 < m ∧ q_capacity <$> tp_queues (t_pool s) = [m ÷ 8; m ÷ 2; m ÷ 4; m ÷ 8].
Proof.
  induction 1 as [s Hi|ev s s' Hr IH Hs].
  - destruct Hi as (sysctl & config & pool & n & Hc & ->).
    unfold ios_thread_pool_create in Hc. simpl in Hc. simplify_eq. simpl. split; [|done].
    case_bool_decide; [done|by vm_compute].
  - simpl in *. rewrite (tp_step_config _ _ _ Hs).
    destruct (tp_step_effect ev s s') as [He _]; [by apply tp_reachable_inv| |done|].
    { rewrite (ta_active _ (tp_reachable_aux _ Hr)). by apply wrapS_idemp. }
    destruct IH as [Hm Hc]. split; [done|]. rewrite <- Hc.
    destruct He as [| | | |? ? q q' ? ? ? Hq ? Hcap ->|? ? q q' ? ? Hq ? Hcap ->|]; try congruence.
    all: by rewrite (insert_same_capacity _ _ q).
Qed.


(** ** Properties *)

(** Small pools for the examples: [t] workers, [m] queue slots, [n] callers. *)
Definition demo (t m : Z) (n : nat) : option tps :=
  pool ← ios_thread_pool_create true true None (PoolConfig t m true None);
  Some (Tps pool ∅ 0%nat (replicate (Z.to_nat (tp_num_threads pool)) WkLoop)
          (replicate n SubIdle) ∅ [] [] []).
Definition demo_run (t m : Z) (n : nat) (es : list tp_event) : option tps :=
  s ← demo t m n; run tp_step es s.

Lemma demo_run_reachable t m n es s : demo_run t m n es = Some s → reachable tp_step tp_init s.
Proof.
  unfold demo_run, demo, ios_thread_pool_create. simpl. intros E.
  eapply run_reachable; [|exact E]. apply reachable_init. eexists None, (PoolConfig t m true None), _, n.
  split; reflexivity.
Qed.

Definition submit1 (i : nat) (p : ios_work_priority_t) : list tp_event :=
  [TSubmit i true (Some 7) 0 p true; TSubmitRun i 0].
Definition work1 (i : nat) : list tp_event :=
  [TDequeue i 0; TStart i; TReturn i 5; TComplete i; TCall i; TRelease i].

(** C2: first in, first out per priority, without loss or duplication: at
    every moment the items of a priority taken by workers, followed by the ones
    still queued, are the items of that priority in the order they were
    accepted, and no item is accepted twice. *)
Theorem tp_fifo (s : tps) (p : ios_work_priority_t) (q : work_queue) :
  reachable tp_step tp_init s → tp_queues (t_pool s) !! pidx p = Some q →
  by_prio p (t_dequeued s) ++ q_items q = by_prio p (t_enqueued s) ∧
  NoDup (t_enqueued s).*2.
Proof.
  intros Hr Hq. apply tp_reachable_inv in Hr. split; [by apply ti_order|by apply ti_once].
Qed.

Definition fifo_demo : list tp_event :=
  submit1 0 IOS_PRIORITY_NORMAL ++ submit1 0 IOS_PRIORITY_URGENT ++ submit1 0 IOS_PRIORITY_NORMAL
  ++ work1 0 ++ [TDequeue 0 0].

Lemma tp_fifo_witness :
  ∃ s q, demo_run 1 8 1 fifo_demo = Some s ∧
    by_prio IOS_PRIORITY_NORMAL (t_dequeued s) = [0%nat] ∧ q_items q = [2%nat] ∧
    by_prio IOS_PRIORITY_NORMAL (t_dequeued s) ++ q_items q
    = by_prio IOS_PRIORITY_NORMAL (t_enqueued s) ∧ NoDup (t_enqueued s).*2.
Proof.
  destruct (demo_run 1 8 1 fifo_demo) as [s|] eqn:E; [|by vm_compute in E].
  destruct (tp_queues (t_pool s) !! 1%nat) as [q|] eqn:Hq;
    [|exfalso; vm_compute in E; simplify_eq; by vm_compute in Hq].
  exists s, q. split; [done|]. split; [|split].
  - vm_compute in E. by simplify_eq.
  - vm_compute in E. simplify_eq. vm_compute in Hq. by simplify_eq.
  - apply (tp_fifo s IOS_PRIORITY_NORMAL q); [by eapply demo_run_reachable|done].
Defined.

(** C12: memory safety of the reference counting: no interleaving of
    submitters, workers and handle owners touches a freed work item or indexes
    a queue out of bounds, and an item is in memory exactly as long as
    somebody (a submitter, a queue, a worker or a handle) refers to it. *)
Theorem tp_memory_safe (s : tps) (ev : tp_event) (a : addr) :
  reachable tp_step tp_init s →
  defined (tp_exec ev s) ∧ (is_Some (t_heap s !! a) ↔ (0 < refs s a)%nat).
Proof.
  intros Hr. apply tp_reachable_inv in Hr. split.
  - destruct (tp_exec_ok ev s Hr) as (o & -> & _). by eexists.
  - pose proof (ti_refs _ Hr a) as H. destruct (t_heap s !! a) as [it|].
    + split; [lia|eauto].
    + split; [by intros []|lia].
Qed.

(** An item whose handle is dropped while it runs stays alive until the
    worker is done. *)
Definition drop_demo : list tp_event :=
  submit1 0 IOS_PRIORITY_HIGH ++ [TDequeue 0 0; TStart 0; TDrop 0].

Lemma tp_memory_safe_witness :
  ∃ s, demo_run 1 8 1 drop_demo = Some s ∧ is_Some (t_heap s !! 0%nat) ∧
    defined (tp_exec (TReturn 0 5) s) ∧ (is_Some (t_heap s !! 0%nat) ↔ (0 < refs s 0%nat)%nat).
Proof.
  destruct (demo_run 1 8 1 drop_demo) as [s|] eqn:E; [|by vm_compute in E].
  exists s. split; [done|]. split.
  - vm_compute in E. simplify_eq. vm_compute. by eexists.
  - apply (tp_memory_safe s (TReturn 0 5) 0%nat). by eapply demo_run_reachable.
Defined.

(** a worker takes the oldest item of the highest non-empty priority,
    and finds nothing only when all four queues are empty. *)
Theorem tp_strict_priority (s : tps) :
  reachable tp_step tp_init s →
  ∃ pool' o, dequeue_work (t_pool s) = Ret (pool', o) ∧
  match o with
  | None => pool' = t_pool s ∧
      ∀ p q, tp_queues (t_pool s) !! pidx p = Some q → q_items q = []
  | Some a => ∃ p q q',
      tp_queues (t_pool s) !! pidx p = Some q ∧ q_items q = a :: q_items q' ∧
      pool' = set_queue (t_pool s) p q' ∧
      ∀ p' qh, (pidx p < pidx p')%nat → tp_queues (t_pool s) !! pidx p' = Some qh →
               q_items qh = []
  end.
Proof.
  intros Hr. apply tp_reachable_inv in Hr. unfold dequeue_work.
  destruct (dequeue_from_spec s priorities Hr)
    as [[-> Hall]|(pre & p & post & q & q' & a & Eps & Hpre & Hq & _ & Hit & _ & ->)].
  - eexists _, _. split; [done|]. split; [done|]. intros p q Hq. apply (Hall p); [|done].
    destruct p; set_solver.
  - eexists _, _. split; [done|]. exists p, q, q'. split_and!; try done.
    intros p' qh Hlt Hqh. apply (Hpre p'); [|done].
    unfold priorities in Eps. destruct pre as [|p1 [|p2 [|p3 [|p4 pre]]]]; simplify_eq/=; [..|by destruct pre];
      destruct p'; simpl in *; try lia; rewrite ?elem_of_cons; auto.
Qed.

Lemma tp_strict_priority_witness :
  ∃ s pool', demo_run 1 8 1 (submit1 0 IOS_PRIORITY_LOW ++ submit1 0 IOS_PRIORITY_HIGH) = Some s ∧
    dequeue_work (t_pool s) = Ret (pool', Some 1%nat).
Proof.
  destruct (demo_run 1 8 1 (submit1 0 IOS_PRIORITY_LOW ++ submit1 0 IOS_PRIORITY_HIGH))
    as [s|] eqn:E; [|by vm_compute in E].
  destruct (tp_strict_priority s) as (pool' & o & Hd & H); [by eapply demo_run_reachable|].
  assert (o = Some 1%nat) as ->.
  { vm_compute in E. simplify_eq. vm_compute in Hd. by simplify_eq. }
  by exists s, pool'.
Defined.

Lemma queued_sum (pool : ios_thread_pool) (c : list Z) :
  q_capacity <$> tp_queues pool = c → Forall queue_wf (tp_queues pool) →
  0 ≤ queued pool ≤ foldr Z.add 0 c.
Proof.
  unfold queued. generalize (tp_queues pool) as qs. intros qs <- Hwf.
  induction Hwf as [|q qs [_ Hc _ _ _] _ IH]; csimpl in *; lia.
Qed.

(** the bound the configuration promises: each queue holds at most its
    share and all queues together at most [max_queue_size] items. *)
Theorem tp_bounded (s : tps) (p : ios_work_priority_t) (q : work_queue) :
  reachable tp_step tp_init s → tp_queues (t_pool s) !! pidx p = Some q →
  zlen (q_items q) = q_count q ∧ 0 ≤ q_count q ≤ q_capacity q ∧
  q_capacity q = tp_max_queue_size (t_pool s) ÷
    match p with IOS_PRIORITY_NORMAL => 2 | IOS_PRIORITY_HIGH => 4 | _ => 8 end ∧
  0 ≤ queued (t_pool s) ≤ tp_max_queue_size (t_pool s).
Proof.
  intros Hr Hq. destruct (tp_reachable_caps s Hr) as [Hm Hc].
  pose proof (ti_wf _ (tp_reachable_inv s Hr)) as Hwf.
  set (m := tp_max_queue_size (t_pool s)) in *.
  assert (queue_wf q) as Hq' by (by eapply Forall_lookup_1).
  split_and!; [by apply q_items_length|apply Hq'|apply Hq'| | |].
  - assert ((q_capacity <$> tp_queues (t_pool s)) !! pidx p = Some (q_capacity q)) as H
      by (by rewrite list_lookup_fmap, Hq).
    rewrite Hc in H. destruct p; simpl in H; by simplify_eq.
  - by eapply queued_sum.
  - pose proof (queued_sum _ _ Hc Hwf) as H. simpl in H.
    rewrite !Z.quot_div_nonneg in H by lia.
    pose proof (Z.mul_div_le m 2). pose proof (Z.mul_div_le m 4). pose proof (Z.mul_div_le m 8). lia.
Qed.

Lemma tp_bounded_witness :
  ∃ s q, demo_run 1 8 1 (submit1 0 IOS_PRIORITY_URGENT ++ submit1 0 IOS_PRIORITY_NORMAL) = Some s ∧
    tp_queues (t_pool s) !! 3%nat = Some q ∧ q_count q = 1 ∧ q_capacity q = 1 ∧
    0 ≤ queued (t_pool s) ≤ 8.
Proof.
  destruct (demo_run 1 8 1 (submit1 0 IOS_PRIORITY_URGENT ++ submit1 0 IOS_PRIORITY_NORMAL))
    as [s|] eqn:E; [|by vm_compute in E].
  destruct (tp_queues (t_pool s) !! 3%nat) as [q|] eqn:Hq;
    [|exfalso; vm_compute in E; simplify_eq; by vm_compute in Hq].
  pose proof (demo_run_reachable _ _ _ _ _ E) as Hr.
  destruct (tp_bounded s IOS_PRIORITY_URGENT q Hr Hq) as (Hl & Hc & Hcap & Hqd).
  exists s, q. split_and!; try done.
  - vm_compute in E. simplify_eq. vm_compute in Hq. by simplify_eq.
  - vm_compute in E. simplify_eq. vm_compute in Hq. by simplify_eq.
  - lia.
  - vm_compute in E. simplify_eq. vm_compute. done.
Defined.

(** *** Liveness *)

Definition sub_sleeping (x : submitter) : nat := if submitter_asleep x then 1 else 0.
Definition sub_awake (x : submitter) : nat := match x with SubBlocking _ => 1 | _ => 0 end.
Definition sleeping_subs (s : tps) : nat := sum_list_with sub_sleeping (t_submitters s).
Definition awake_subs (s : tps) : nat := sum_list_with sub_awake (t_submitters s).
Definition exited (s : tps) : nat :=
  sum_list_with (λ w, match w with WkExited => 1 | _ => 0 end)%nat (t_workers s).

(** No sleeper is forgotten: a caller sleeps only while an item is queued or
    another caller is about to try again; workers exit only after a shutdown. *)
Definition live_inv (s : tps) : Prop :=
  tp_shutdown (t_pool s) = true ∨
  exited s = 0%nat ∧
  (8 ≤ tp_max_queue_size (t_pool s) → (0 < sleeping_subs s)%nat →
     (0 < pending s)%nat ∨ (0 < awake_subs s)%nat).

Lemma signal_sub k l :
  (0 < sum_list_with sub_sleeping l)%nat →
  (0 < sum_list_with sub_awake (cond_signal submitter_asleep submitter_wake k l))%nat.
Proof.
  intros H. assert (0 < sum_list_with sub_awake (wake_first submitter_asleep submitter_wake l))%nat as H1.
  { induction l as [|x l IH]; simpl in *; [lia|].
    destruct x; simpl in *; unfold sub_sleeping in *; simpl in *; try lia. }
  unfold cond_signal. destruct (l !! k) as [x|] eqn:Hk; [|done].
  destruct x; simpl; try done.
  pose proof (sum_list_with_insert sub_awake l k _ (SubBlocking a) Hk) as H2. simpl in H2. lia.
Qed.

Lemma sum_cond_signal_le {A} (asl : A → bool) wk (f : A → nat) k l :
  (∀ x, asl x = true → f (wk x) ≤ f x)%nat →
  (sum_list_with f (cond_signal asl wk k l) ≤ sum_list_with f l)%nat.
Proof.
  intros Hf. assert (sum_list_with f (wake_first asl wk l) ≤ sum_list_with f l)%nat as H1.
  { induction l as [|x l IH]; [done|]. simpl. destruct (asl x) eqn:E; simpl; [|lia].
    specialize (Hf x E). lia. }
  unfold cond_signal. destruct (l !! k) as [x|] eqn:Hk; [|done].
  destruct (asl x) eqn:E; [|done].
  pose proof (sum_list_with_insert f l k x (wk x) Hk). specialize (Hf x E). lia.
Qed.

Lemma cond_signal_exited k l f :
  (∀ w, worker_asleep w = true → f (worker_wake w) = f w) →
  sum_list_with f (cond_signal worker_asleep worker_wake k l) = sum_list_with f l.
Proof. apply sum_cond_signal. Qed.

Lemma pending_insert (qs : list work_queue) k q q' :
  qs !! k = Some q →
  (sum_list_with (λ q, length (q_items q)) (<[k := q']> qs) + length (q_items q)
   = sum_list_with (λ q, length (q_items q)) qs + length (q_items q'))%nat.
Proof. apply (sum_list_with_insert (λ q, length (q_items q))). Qed.

Lemma pending_full s p q :
  tp_inv s → tp_queues (t_pool s) !! pidx p = Some q →
  0 < q_capacity q → q_capacity q ≤ q_count q → (0 < pending s)%nat.
Proof.
  intros Hi Hq Hc Hf. unfold pending.
  pose proof (sum_list_with_lookup (λ q, length (q_items q)) _ _ _ Hq) as H. simpl in H.
  assert (queue_wf q) as Hwf by (by eapply Forall_lookup_1 in Hq; [|apply ti_wf]).
  pose proof (q_items_length q Hwf) as Hl. unfold zlen in Hl. lia.
Qed.

Lemma cap_pos s p q :
  reachable tp_step tp_init s → 8 ≤ tp_max_queue_size (t_pool s) →
  tp_queues (t_pool s) !! pidx p = Some q → 0 < q_capacity q.
Proof.
  intros Hr Hm Hq. destruct (tp_reachable_caps s Hr) as [_ Hc].
  assert ((q_capacity <$> tp_queues (t_pool s)) !! pidx p = Some (q_capacity q)) as H
    by (by rewrite list_lookup_fmap, Hq).
  rewrite Hc in H. set (m := tp_max_queue_size (t_pool s)) in *.
  assert (0 < m ÷ 8) by (apply Z.quot_str_pos; lia).
  assert (0 < m ÷ 4) by (apply Z.quot_str_pos; lia).
  assert (0 < m ÷ 2) by (apply Z.quot_str_pos; lia).
  destruct p; simpl in H; injection H as H; lia.
Qed.

Lemma submit_enqueue_live s i x a k s' :
  tp_inv s → t_submitters s !! i = Some x → submitter_item x = Some a →
  live_inv s → tp_shutdown (t_pool s) = false →
  (8 ≤ tp_max_queue_size (t_pool s) → ∀ p q, tp_queues (t_pool s) !! pidx p = Some q → 0 < q_capacity q) →
  submit_enqueue s i a k = Ret s' → live_inv s'.
Proof.
  intros Hi Hl Hx [Hs|[He Hlive]] Hsh Hcaps; [congruence|].
  pose proof (submitter_has_ref _ _ _ _ Hl Hx) as Hs.
  assert (0 < refs s a)%nat as Hr by (unfold refs; lia).
  destruct (inv_item s a Hi Hr) as (it & Hit & Hd & Hle).
  destruct (inv_queue s (wi_priority it) Hi) as (q & Hq & Hg & Hwf).
  unfold submit_enqueue, enqueue_work. rewrite Hd. simpl. rewrite Hg. simpl.
  case_bool_decide as Hfull; simpl; intros E; right.
  - destruct (submit_release_ok s i x a (add_dropped (t_pool s)) Hi Hl Hx eq_refl)
      as (h' & Hrel & Hinv). rewrite Hrel in E. simpl in E. step_inv. split; [done|].
    intros Hm _. left. by eapply pending_full; eauto.
  - destruct (queue_push_spec q a Hwf ltac:(lia)) as (q' & Hpush & Hwf' & Hitems & _ & Hcap).
    rewrite Hpush in E. simpl in E.
    destruct (retain_spec (t_heap s) (refs s) a (ti_refs _ Hi) ltac:(lia)) as (h' & Hret & _).
    rewrite Hret in E. simpl in E. step_inv. split.
    + unfold exited in *. simpl. rewrite cond_signal_exited; [done|]. by intros [].
    + intros _ _. left. unfold pending. simpl. pose proof (pending_insert _ _ _ q' Hq) as H.
      rewrite Hitems, length_app in H. simpl in H. lia.
Qed.

(** Steps that leave the queues, the callers and the set of exited workers
    alone. *)
Lemma live_frame s s' :
  live_inv s → (tp_shutdown (t_pool s) = true → tp_shutdown (t_pool s') = true) →
  tp_queues (t_pool s') = tp_queues (t_pool s) → exited s' = exited s →
  tp_max_queue_size (t_pool s') = tp_max_queue_size (t_pool s) →
  (sleeping_subs s' ≤ sleeping_subs s)%nat → (awake_subs s ≤ awake_subs s')%nat →
  live_inv s'.
Proof.
  intros [Hs|[He Hl]] Hsh Hq Hex Hm Hsl Haw; [left; auto|right]. unfold pending in *.
  rewrite Hex, Hq, Hm. split; [done|]. intros H8 H0. destruct Hl; [done|lia|auto|right; lia].
Qed.

Lemma exited_move s i w w' :
  t_workers s !! i = Some w → w' ≠ WkExited → w ≠ WkExited →
  exited (t_set_worker s i w') = exited s.
Proof.
  intros Hl Hw' Hw. unfold exited. simpl.
  pose proof (sum_list_with_insert (λ w, match w with WkExited => 1 | _ => 0 end)%nat _ i w w' Hl) as H.
  destruct w, w'; simpl in *; try done; lia.
Qed.

Lemma subs_move s i x x' f :
  t_submitters s !! i = Some x →
  (sum_list_with f (t_submitters (t_set_submitter s i x')) + f x
   = sum_list_with f (t_submitters s) + f x')%nat.
Proof. apply sum_list_with_insert. Qed.

Lemma dequeue_live s i k s' :
  tp_inv s → t_workers s !! i = Some WkLoop → live_inv s →
  tp_max_queue_size (t_pool s') = tp_max_queue_size (t_pool s) →
  worker_dequeue s i k = Ret s' → live_inv s'.
Proof.
  intros Hi Hl Hlive Hm. unfold worker_dequeue.
  destruct (tp_shutdown (t_pool s)) eqn:Esh; intros E; [step_inv; by left|].
  destruct Hlive as [|[He Hlv]]; [congruence|]. right. unfold dequeue_work in E.
  destruct (dequeue_from_spec s priorities Hi)
    as [[Ed Hall]|(pre & p & post & q & q' & a & Eps & _ & Hq & Hwf' & Hit & Hcap & Ed)];
    rewrite Ed in E; simpl in E.
  - step_inv. split; [|done].
    rewrite <- He. by apply (exited_move (t_set s (t_pool s) (t_heap s)) i WkLoop WkAsleep).
  - assert (prio_of (t_heap s) a = Some p) as Hpa.
    { eapply ti_prio; [done..|]. rewrite Hit. by left. }
    unfold prio_of, deref in *. destruct (t_heap s !! a) as [it|] eqn:Ha; simplify_eq/=.
    split.
    + rewrite <- He. by apply (exited_move s i WkLoop (WkTaken a)).
    + unfold sleeping_subs, awake_subs. simpl. intros _ Hsl. right. apply signal_sub.
      pose proof (sum_cond_signal_le submitter_asleep submitter_wake sub_sleeping k (t_submitters s)) as H.
      specialize (H ltac:(intros []; unfold sub_sleeping; simpl; try done; lia)). lia.
Qed.

Lemma submit_live s i a k s' :
  tp_inv s → t_submitters s !! i = Some (SubBlocking a) → live_inv s →
  (8 ≤ tp_max_queue_size (t_pool s) → ∀ p q, tp_queues (t_pool s) !! pidx p = Some q → 0 < q_capacity q) →
  ios_thread_pool_submit s i a k = Ret s' → live_inv s'.
Proof.
  intros Hi Hl Hlive Hcaps. pose proof (submitter_has_ref _ _ _ a Hl eq_refl) as Hs.
  destruct (inv_item s a Hi ltac:(unfold refs; lia)) as (it & Hit & Hd & Hle).
  destruct (inv_queue s (wi_priority it) Hi) as (q & Hq & Hg & Hwf).
  unfold ios_thread_pool_submit. rewrite Hd. simpl. rewrite Hg. simpl.
  destruct (tp_shutdown (t_pool s)) eqn:Esh.
  - rewrite andb_false_r. intros E. step_inv. by left.
  - case_bool_decide as Hfull; simpl; intros E; [|by eapply submit_enqueue_live].
    step_inv. right. destruct Hlive as [|[He _]]; [congruence|]. split; [done|].
    intros Hm _. left. by eapply (pending_full s); eauto.
Qed.

Lemma submit_begin_live s i bl fn arg pr ok :
  live_inv s → t_submitters s !! i = Some SubIdle → live_inv (submit_begin s i bl fn arg pr ok).
Proof.
  intros Hlive Hl. unfold submit_begin. destruct fn as [fn|]; [|done].
  destruct (tp_shutdown (t_pool s)); [done|]. destruct (work_item_create ok fn arg pr); [|done].
  set (x := if bl then _ else _).
  pose proof (subs_move s i _ x sub_sleeping Hl) as H1. pose proof (subs_move s i _ x sub_awake Hl) as H2.
  apply (live_frame s); try done; unfold sleeping_subs, awake_subs; simpl in *; [|lia].
  assert (sub_sleeping x = 0%nat) by (by unfold x; destruct bl). lia.
Qed.

Lemma live_step ev s s' :
  reachable tp_step tp_init s → live_inv s → tp_step ev s = Some s' → live_inv s'.
Proof.
  intros Hr Hlive Hstep. pose proof (tp_reachable_inv _ Hr) as Hi.
  pose proof (λ H p q, cap_pos s p q Hr H) as Hcaps.
  pose proof (tp_step_config _ _ _ Hstep) as Hm.
  pose proof (ta_active _ (tp_reachable_aux _ Hr)) as Hact.
  assert (tp_shutdown (t_pool s) = true → tp_shutdown (t_pool s') = true) as Hsh.
  { eapply tp_step_effect; [done| |done]. rewrite Hact. by apply wrapS_idemp. }
  clear Hact. unfold tp_step in Hstep. destruct (tp_exec ev s) as [o|] eqn:E; [|done]. subst o.
  destruct ev; simpl in E; step_inv; try (by apply (live_frame s)); try (by eapply dequeue_live).
  - by apply submit_begin_live.
  - by eapply submit_live.
  - destruct (tp_shutdown (t_pool s)) eqn:Esh; [left; auto|].
    by eapply submit_enqueue_live.
  - unfold ios_thread_pool_submit_with_callback in *. step_inv. by apply (live_frame s).
  - unfold worker_start in *. step_inv. apply (live_frame s); try done.
    by apply (exited_move s i (WkTaken a) (WkRunning a)).
  - apply (live_frame s); try done. by apply (exited_move s i (WkRunning a) (WkReturned a r)).
  - unfold worker_complete in *. step_inv. apply (live_frame s); try done.
    by apply (exited_move s i (WkReturned a r) (WkCompleted a r)).
  - unfold worker_callback in *. step_inv; apply (live_frame s); try done;
      by apply (exited_move s i (WkCompleted a r) (WkCalled a)).
  - unfold worker_release in *. step_inv. apply (live_frame s); try done.
    by apply (exited_move s i (WkCalled a) WkLoop).
  - by left.
  - apply (live_frame s); try done. by apply (exited_move s i WkAsleep WkLoop).
  - apply (live_frame s); try done; unfold sleeping_subs, awake_subs;
      [pose proof (subs_move s i _ (SubBlocking a) sub_sleeping Heqo)
      |pose proof (subs_move s i _ (SubBlocking a) sub_awake Heqo)];
      unfold sub_sleeping in *; simpl in *; lia.
Qed.

Lemma tp_reachable_live s : reachable tp_step tp_init s → live_inv s.
Proof.
  induction 1 as [s Hi|ev s s' Hr IH Hs]; [|by eapply live_step].
  destruct Hi as (sysctl & config & pool & n & Hc & ->). right. unfold exited, sleeping_subs. simpl.
  split.
  - generalize (Z.to_nat (tp_num_threads pool)). by intros k; induction k as [|k IH]; [|exact IH].
  - intros _. assert (sum_list_with sub_sleeping (replicate n SubIdle) = 0%nat) as ->; [|lia].
    by induction n as [|n IH]; [|exact IH].
Qed.

Lemma sum_pos {A} (f : A → nat) (l : list A) :
  (0 < sum_list_with f l)%nat → ∃ i x, l !! i = Some x ∧ (0 < f x)%nat.
Proof.
  induction l as [|x l IH]; simpl; [lia|]. intros H. destruct (decide (0 < f x)%nat).
  - by exists 0%nat, x.
  - destruct IH as (i & y & ? & ?); [lia|]. by exists (S i), y.
Qed.

(** C13: no deadlock and no lost wake-up: while the pool is not shut down and
    every queue has room for at least one item ([max_queue_size] at least 8),
    whenever an item is queued or a caller sleeps for space, some worker or
    some caller is awake and can take the queue mutex. *)
Theorem tp_no_deadlock (s : tps) :
  reachable tp_step tp_init s → tp_shutdown (t_pool s) = false →
  8 ≤ tp_max_queue_size (t_pool s) → t_workers s ≠ [] →
  (0 < pending s)%nat ∨ (∃ i a, t_submitters s !! i = Some (SubAsleep a)) →
  (∃ i a, t_submitters s !! i = Some (SubBlocking a)) ∨
  (∃ i w, t_workers s !! i = Some w ∧ w ≠ WkAsleep ∧ w ≠ WkExited).
Proof.
  intros Hr Hsh Hm Hws Hwork.
  destruct (tp_reachable_live s Hr) as [|[Hex Hlive]]; [congruence|].
  assert ((0 < pending s)%nat ∨ (0 < awake_subs s)%nat) as [Hp|Ha].
  { destruct Hwork as [|(i & a & Hi)]; [by left|]. apply Hlive; [done|].
    pose proof (sum_list_with_lookup sub_sleeping _ _ _ Hi) as H. unfold sleeping_subs.
    change (sub_sleeping (SubAsleep a)) with 1%nat in H. lia. }
  - right. destruct (ta_awake _ (tp_reachable_aux s Hr)) as [|[Hz|Hle]]; [congruence| |].
    + destruct (t_workers s) as [|w ws] eqn:Ew; [done|]. exists 0%nat, w. split; [done|].
      unfold asleep, exited in *. rewrite Ew in *. by destruct w.
    + destruct (sum_pos is_looping (t_workers s)) as (i & w & Hw & Hpos); [unfold looping in *; lia|].
      exists i, w. by destruct w; simpl in *; try lia.
  - left. destruct (sum_pos sub_awake (t_submitters s) Ha) as (i & x & Hx & Hpos).
    destruct x as [|a| |]; simpl in Hpos; try lia. eauto.
Qed.

(** The only worker sleeps; a submission wakes it. *)
Definition wake_demo : list tp_event := [TDequeue 0 0] ++ submit1 0 IOS_PRIORITY_URGENT.

Lemma tp_no_deadlock_witness :
  ∃ s, demo_run 1 8 1 wake_demo = Some s ∧
   ((∃ i a, t_submitters s !! i = Some (SubBlocking a)) ∨
    (∃ i w, t_workers s !! i = Some w ∧ w ≠ WkAsleep ∧ w ≠ WkExited)).
Proof.
  destruct (demo_run 1 8 1 wake_demo) as [s|] eqn:E; [|by vm_compute in E].
  pose proof (demo_run_reachable _ _ _ _ _ E) as Hr.
  exists s. split; [done|]. apply (tp_no_deadlock s); [done|..]; clear Hr; vm_compute in E; simplify_eq.
  - done.
  - by vm_compute.
  - done.
  - left. vm_compute. lia.
Defined.

(** A pool with [max_queue_size] below 8 gives the urgent and the low queue no
    room at all, and a blocking submission to them always goes to sleep. *)
Theorem tp_small_queue_blocks (s : tps) (i k : nat) (a : addr) (it : ios_work_item) :
  reachable tp_step tp_init s → tp_max_queue_size (t_pool s) < 8 →
  tp_shutdown (t_pool s) = false →
  t_submitters s !! i = Some (SubBlocking a) → t_heap s !! a = Some it →
  wi_priority it = IOS_PRIORITY_URGENT ∨ wi_priority it = IOS_PRIORITY_LOW →
  ios_thread_pool_submit s i a k = Ret (t_set_submitter s i (SubAsleep a)).
Proof.
  intros Hr Hm Hsh Hl Hit Hp. pose proof (tp_reachable_inv _ Hr) as Hi.
  destruct (tp_reachable_caps s Hr) as [Hpos Hc].
  destruct (inv_queue s (wi_priority it) Hi) as (q & Hq & Hg & Hwf).
  assert (q_capacity q = 0) as H0.
  { assert ((q_capacity <$> tp_queues (t_pool s)) !! pidx (wi_priority it) = Some (q_capacity q)) as H
      by (by rewrite list_lookup_fmap, Hq).
    rewrite Hc in H. set (m := tp_max_queue_size (t_pool s)) in *.
    assert (m ÷ 8 = 0) by (apply Z.quot_small; lia).
    destruct Hp as [Hp|Hp]; rewrite Hp in H; simpl in H; injection H as H; lia. }
  unfold ios_thread_pool_submit, deref. rewrite Hit. simpl. rewrite Hg. simpl.
  rewrite bool_decide_eq_true_2 by (pose proof (qw_count _ Hwf); lia). by rewrite Hsh.
Qed.

Lemma shutdown_stays s ev s' :
  reachable tp_step tp_init s → tp_step ev s = Some s' →
  tp_shutdown (t_pool s) = true → tp_shutdown (t_pool s') = true.
Proof.
  intros Hr Hs. eapply tp_step_effect; [by apply tp_reachable_inv| |done].
  rewrite (ta_active _ (tp_reachable_aux _ Hr)). by apply wrapS_idemp.
Qed.

Lemma broadcast_no_sleeper l :
  sum_list_with is_asleep (cond_broadcast worker_asleep worker_wake l) = 0%nat.
Proof. induction l as [|w l IH]; [done|]. simpl. rewrite IH. by destruct w. Qed.

Lemma shutdown_no_sleeper s ev s' :
  reachable tp_step tp_init s → tp_step ev s = Some s' → tp_shutdown (t_pool s) = true →
  asleep s = 0%nat → asleep s' = 0%nat.
Proof.
  intros Hr Hs Hsh H0. destruct (tp_step_effect ev s s') as [He _]; [by apply tp_reachable_inv| |done|].
  { rewrite (ta_active _ (tp_reachable_aux _ Hr)). by apply wrapS_idemp. }
  unfold asleep in *.
  destruct He as [Ew|i w w' Hl Ew Hw1 Hw2|i Hl Ew|i Hl Ew Hf|i p q q' a Hl Ew|k p q q' a Ew|Ew];
    try congruence; rewrite Ew.
  - pose proof (sum_list_with_insert is_asleep _ i w w' Hl).
    assert (is_asleep w' = 0%nat) by (by destruct w'). lia.
  - pose proof (sum_list_with_insert is_asleep _ i _ WkExited Hl) as HH. simpl in HH.
    unfold is_asleep in *. simpl in *. lia.
  - pose proof (sum_list_with_insert is_asleep _ i _ (WkTaken a) Hl) as HH. simpl in HH.
    unfold is_asleep in *. simpl in *. lia.
  - destruct (signal_awake k (t_workers s)) as [(? & _)|[_ HH]]; [done|lia].
  - apply broadcast_no_sleeper.
Qed.

(** a shutdown reaches every worker: after the flag is set and the
    broadcast is made, no worker is ever asleep again, and each worker that
    comes back to its loop leaves it without taking another item. *)
Theorem tp_shutdown_reaches_workers (s s1 s2 : tps) (es : list tp_event) :
  reachable tp_step tp_init s → tp_step TShutdownBroadcast s = Some s1 →
  run tp_step es s1 = Some s2 →
  ∀ i w, t_workers s2 !! i = Some w → w ≠ WkAsleep ∧
    (w = WkLoop → ∀ k, tp_step (TDequeue i k) s2 = Some (t_set_worker s2 i WkExited)).
Proof.
  intros Hr Hb Hrun.
  assert (reachable tp_step tp_init s1 ∧ tp_shutdown (t_pool s1) = true ∧ asleep s1 = 0%nat) as H1.
  { split; [by eapply reachable_step|]. unfold tp_step in Hb. simpl in Hb.
    destruct (tp_shutdown (t_pool s)) eqn:?; simplify_eq/=. split; [done|]. apply broadcast_no_sleeper. }
  assert (reachable tp_step tp_init s2 ∧ tp_shutdown (t_pool s2) = true ∧ asleep s2 = 0%nat)
    as (_ & Hsh & H0).
  { clear Hb. revert s1 H1 Hrun. induction es as [|e es IH]; simpl; intros s1 (Hr1 & Hs1 & Ha1) Hrun.
    - by simplify_eq.
    - destruct (tp_step e s1) as [s1'|] eqn:E; [|done]. eapply IH; [|done].
      split_and!; [by eapply reachable_step|by eapply shutdown_stays|by eapply shutdown_no_sleeper]. }
  intros i w Hl. split.
  - intros ->. pose proof (sum_list_with_lookup is_asleep _ _ _ Hl) as H.
    change (is_asleep WkAsleep) with 1%nat in H. unfold asleep in H0. lia.
  - intros -> k. unfold tp_step. simpl. rewrite Hl. unfold worker_dequeue. by rewrite Hsh.
Qed.

Lemma tp_shutdown_reaches_workers_witness :
  ∃ s s1 s2, demo_run 1 8 1 [TDequeue 0 0; TShutdownStore] = Some s ∧
    t_workers s = [WkAsleep] ∧ tp_step TShutdownBroadcast s = Some s1 ∧
    run tp_step [] s1 = Some s2 ∧
    tp_step (TDequeue 0 0) s2 = Some (t_set_worker s2 0 WkExited).
Proof.
  destruct (demo_run 1 8 1 [TDequeue 0 0; TShutdownStore]) as [s|] eqn:E; [|by vm_compute in E].
  pose proof (demo_run_reachable _ _ _ _ _ E) as Hr.
  destruct (tp_step TShutdownBroadcast s) as [s1|] eqn:E1;
    [|exfalso; vm_compute in E; simplify_eq; by vm_compute in E1].
  assert (t_workers s1 !! 0%nat = Some WkLoop) as Hl
    by (vm_compute in E; simplify_eq; vm_compute in E1; by simplify_eq).
  exists s, s1, s1. split_and!; try done; [by vm_compute in E; simplify_eq|].
  by apply (tp_shutdown_reaches_workers s s1 s1 [] Hr E1 eq_refl 0%nat WkLoop Hl).
Defined.

Lemma pending_queued s : tp_inv s → Z.of_nat (pending s) = queued (t_pool s).
Proof.
  intros Hi. pose proof (ti_wf _ Hi) as Hwf. unfold pending, queued.
  induction Hwf as [|q qs Hq _ IH]; [done|]. simpl.
  pose proof (q_items_length q Hq) as H. unfold zlen in H. lia.
Qed.

Lemma sum_le_length {A} (f : A → nat) l : (∀ x, f x ≤ 1)%nat → (sum_list_with f l ≤ length l)%nat.
Proof. intros Hf. induction l as [|x l IH]; simpl; [done|]. specialize (Hf x). lia. Qed.

(** what a successful poll of [ios_thread_pool_drain] shows: all
    accepted items have been taken from the queues, in order, and no worker is
    inside a work function. *)
Theorem tp_drain_sound (s : tps) (p : ios_work_priority_t) :
  reachable tp_step tp_init s → zlen (t_workers s) ≤ INT_MAX →
  drain_poll (t_pool s) = true →
  by_prio p (t_dequeued s) = by_prio p (t_enqueued s) ∧
  ∀ i a, t_workers s !! i ≠ Some (WkRunning a).
Proof.
  intros Hr Hlen Hd. unfold drain_poll in Hd. apply bool_decide_eq_true in Hd as [Hq Ha].
  pose proof (tp_reachable_inv _ Hr) as Hi. split.
  - destruct (inv_queue s p Hi) as (q & Hl & _ & Hwf).
    assert (q_items q = []) as He.
    { pose proof (pending_queued s Hi).
      pose proof (sum_list_with_lookup (λ q, length (q_items q)) _ _ _ Hl) as H1. simpl in H1.
      apply nil_length_inv. unfold pending in *. lia. }
    rewrite <- (ti_order _ Hi p q Hl), He. by rewrite app_nil_r.
  - intros i a Hl. pose proof (sum_list_with_lookup is_running _ _ _ Hl) as H1. simpl in H1.
    pose proof (ta_active _ (tp_reachable_aux s Hr)) as Hact. rewrite Ha in Hact.
    assert (running s ≤ length (t_workers s))%nat as H2
      by (apply sum_le_length; by intros []; simpl; lia).
    unfold zlen in Hlen. revert Hact. rewrite wrapS_small by range_solve. unfold running. lia.
Qed.

Lemma tp_drain_sound_witness :
  ∃ s, demo_run 1 8 1 (submit1 0 IOS_PRIORITY_HIGH ++ work1 0) = Some s ∧
    by_prio IOS_PRIORITY_HIGH (t_dequeued s) = by_prio IOS_PRIORITY_HIGH (t_enqueued s) ∧
    ∀ i a, t_workers s !! i ≠ Some (WkRunning a).
Proof.
  destruct (demo_run 1 8 1 (submit1 0 IOS_PRIORITY_HIGH ++ work1 0)) as [s|] eqn:E; [|by vm_compute in E].
  exists s. split; [done|]. apply (tp_drain_sound s IOS_PRIORITY_HIGH); [by eapply demo_run_reachable|..].
  - vm_compute in E. simplify_eq. by vm_compute.
  - vm_compute in E. simplify_eq. by vm_compute.
Defined.

(** The poll can succeed between the moment a worker takes an item and the
    moment it counts itself as active: [ios_thread_pool_drain] then returns
    although the item's function has not run yet.  Submissions are accepted
    while the pool is draining. *)
Theorem tp_drain_race :
  ∃ s s', demo_run 1 8 1 ([TDraining true] ++ submit1 0 IOS_PRIORITY_HIGH ++ [TDequeue 0 0]) = Some s ∧
    drain_poll (t_pool s) = true ∧ tp_draining (t_pool s) = true ∧
    t_workers s = [WkTaken 0] ∧ tp_step (TStart 0) s = Some s' ∧ t_workers s' = [WkRunning 0].
Proof.
  destruct (demo_run 1 8 1 ([TDraining true] ++ submit1 0 IOS_PRIORITY_HIGH ++ [TDequeue 0 0]))
    as [s|] eqn:E; [|by vm_compute in E].
  vm_compute in E. simplify_eq. eexists _, _. split; [done|]. by vm_compute.
Qed.

(** A successful [ios_work_cancel] does not prevent the item from running:
    the worker overwrites the state, and a waiter that saw the item complete
    can see it incomplete again. *)
Theorem tp_cancelled_runs :
  ∃ s1 s2, demo_run 1 8 1 (submit1 0 IOS_PRIORITY_HIGH ++ [TCancel 0]) = Some s1 ∧
    ios_work_is_complete (t_heap s1) (Some 0%nat) = Ret true ∧
    ios_work_wait (t_heap s1) (Some 0%nat) = Ret (Some (0, -1)) ∧
    run tp_step [TDequeue 0 0; TStart 0] s1 = Some s2 ∧ t_workers s2 = [WkRunning 0] ∧
    ios_work_is_complete (t_heap s2) (Some 0%nat) = Ret false.
Proof.
  destruct (demo_run 1 8 1 (submit1 0 IOS_PRIORITY_HIGH ++ [TCancel 0])) as [s|] eqn:E;
    [|by vm_compute in E].
  vm_compute in E. simplify_eq. eexists _, _. split; [done|]. by vm_compute.
Qed.

(** [ios_thread_pool_submit_with_callback] stores the callback after the item
    is in the queue: when a worker finishes the item first, the callback is
    never called. *)
Theorem tp_callback_missed :
  ∃ s, demo_run 1 8 1 (submit1 0 IOS_PRIORITY_HIGH ++ work1 0 ++ [TCallback 0 (Some 9) 0]) = Some s ∧
    wi_callback <$> t_heap s !! 0%nat = Some (Some 9) ∧ t_callbacks s = [] ∧
    tp_total_completed (t_pool s) = 1.
Proof.
  destruct (demo_run 1 8 1 (submit1 0 IOS_PRIORITY_HIGH ++ work1 0 ++ [TCallback 0 (Some 9) 0]))
    as [s|] eqn:E; [|by vm_compute in E].
  vm_compute in E. simplify_eq. eexists. split; [done|]. by vm_compute.
Qed.

(** After [ios_thread_pool_shutdown] returned, an item that was still queued
    is pending for good: a waiter sleeps forever and the item is not freed
    when its owner drops it. *)
Theorem tp_shutdown_drops_pending :
  ∃ s, demo_run 1 8 1 (submit1 0 IOS_PRIORITY_HIGH ++
                       [TShutdownStore; TShutdownBroadcast; TDequeue 0 0]) = Some s ∧
    shutdown_joined s = true ∧ queued (t_pool s) = 1 ∧
    ios_work_wait (t_heap s) (Some 0%nat) = Ret None ∧
    ∃ s', tp_step (TDrop 0) s = Some s' ∧ is_Some (t_heap s' !! 0%nat).
Proof.
  destruct (demo_run 1 8 1 (submit1 0 IOS_PRIORITY_HIGH ++
                       [TShutdownStore; TShutdownBroadcast; TDequeue 0 0]))
    as [s|] eqn:E; [|by vm_compute in E].
  vm_compute in E. simplify_eq. eexists. split; [done|]. split_and!; try by vm_compute.
  eexists. split; [by vm_compute|]. vm_compute. eauto.
Qed.
