(* ===== verification/PidAllocator.v ===== *)
(** * The process-identifier allocator ([src/ios_pid_allocator.c])

    Contexts of simulated processes live in memory, linked into 256 hash
    buckets while they are allocated and into a free list afterwards.
    - [ios_pid_context] is [struct _ios_pid_context], [pid_allocator] the
      global [g_pid_allocator]; memory is a map from addresses, and the two
      link fields are the code's.
    - The operations are the functions of the file, each as one call that
      nobody interrupts.  A loop over a chain has as much fuel as there are
      contexts, which the theorems show to be enough.
    - Theorems: what allocation, release and look-up promise: unique
      identifiers, every context in exactly one bucket or on the free list,
      exact statistics, termination of the walks.  [FreeList.v] has the free
      list at the level of its atomic operations. *)

From S2P Require Import Prelude.

Local Open Scope Z_scope.
Local Open Scope c_scope.

Definition INITIAL_PID : Z := 100.
Definition PID_HASH_TABLE_SIZE : Z := 256.
Definition MAXPATHLEN : Z := 1024.

Abbreviation addr := nat (only parsing).

(** [environment] is the array and its strings; [None] entries are [NULL]. *)
Record ios_pid_context := PidContext {
  c_pid : Z;
  c_thread_id : Z;
  c_environment : option (list (option string));
  c_copy_environment : bool;            (* an array is allocated *)
  c_num_variables_set : Z;
  c_previous_directory : string;
  c_parent_pid : Z;
  c_next_free : option addr;
  c_next_in_bucket : option addr;
  c_ref_count : Z;
  c_is_allocated : bool }.

Abbreviation heap := (gmap addr ios_pid_context) (only parsing).

Record pid_allocator := PidAllocator {
  g_heap : heap;
  g_next_addr : addr;
  g_buckets : list (option addr);
  g_locks : bool;                       (* the bucket locks are usable *)
  g_free_head : option addr;
  g_free_size : Z;
  g_next_pid : Z;
  g_total_allocated : Z;
  g_currently_active : Z;
  g_once : bool;                        (* [init_once] has run *)
  g_initialized : bool;
  g_cleanup_counter : Z }.

(** Program start: static storage is zero. *)
Definition g_zero : pid_allocator :=
  PidAllocator ∅ 0 (replicate 256 None) false None 0 0 0 0 false false 0.

Definition set_heap (g : pid_allocator) (h : heap) : pid_allocator :=
  PidAllocator h (g_next_addr g) (g_buckets g) (g_locks g) (g_free_head g) (g_free_size g)
    (g_next_pid g) (g_total_allocated g) (g_currently_active g) (g_once g) (g_initialized g)
    (g_cleanup_counter g).
Definition set_bucket (g : pid_allocator) (i : nat) (p : option addr) : pid_allocator :=
  PidAllocator (g_heap g) (g_next_addr g) (<[i := p]> (g_buckets g)) (g_locks g) (g_free_head g)
    (g_free_size g) (g_next_pid g) (g_total_allocated g) (g_currently_active g) (g_once g)
    (g_initialized g) (g_cleanup_counter g).
Definition set_free (g : pid_allocator) (p : option addr) (n : Z) : pid_allocator :=
  PidAllocator (g_heap g) (g_next_addr g) (g_buckets g) (g_locks g) p n (g_next_pid g)
    (g_total_allocated g) (g_currently_active g) (g_once g) (g_initialized g) (g_cleanup_counter g).
Definition add_currently_active (g : pid_allocator) (n : Z) : pid_allocator :=
  PidAllocator (g_heap g) (g_next_addr g) (g_buckets g) (g_locks g) (g_free_head g) (g_free_size g)
    (g_next_pid g) (g_total_allocated g) (g_currently_active g +i32 n) (g_once g)
    (g_initialized g) (g_cleanup_counter g).
Definition set_cleanup (g : pid_allocator) (n : Z) : pid_allocator :=
  PidAllocator (g_heap g) (g_next_addr g) (g_buckets g) (g_locks g) (g_free_head g) (g_free_size g)
    (g_next_pid g) (g_total_allocated g) (g_currently_active g) (g_once g) (g_initialized g) n.

(** Field updates of a context. *)
Definition c_set_links (c : ios_pid_context) (nf nb : option addr) : ios_pid_context :=
  PidContext (c_pid c) (c_thread_id c) (c_environment c) (c_copy_environment c)
    (c_num_variables_set c) (c_previous_directory c) (c_parent_pid c) nf nb
    (c_ref_count c) (c_is_allocated c).
Definition c_set_ref (c : ios_pid_context) (n : Z) (al : bool) : ios_pid_context :=
  PidContext (c_pid c) (c_thread_id c) (c_environment c) (c_copy_environment c)
    (c_num_variables_set c) (c_previous_directory c) (c_parent_pid c) (c_next_free c)
    (c_next_in_bucket c) n al.
Definition c_set_env (c : ios_pid_context) (env : option (list (option string))) (copy : bool) (n : Z)
    : ios_pid_context :=
  PidContext (c_pid c) (c_thread_id c) env copy n (c_previous_directory c) (c_parent_pid c)
    (c_next_free c) (c_next_in_bucket c) (c_ref_count c) (c_is_allocated c).
Definition c_set_thread (c : ios_pid_context) (t : Z) : ios_pid_context :=
  PidContext (c_pid c) t (c_environment c) (c_copy_environment c)
    (c_num_variables_set c) (c_previous_directory c) (c_parent_pid c) (c_next_free c)
    (c_next_in_bucket c) (c_ref_count c) (c_is_allocated c).
Definition c_set_dirs (c : ios_pid_context) (dir : string) (parent : Z) : ios_pid_context :=
  PidContext (c_pid c) (c_thread_id c) (c_environment c) (c_copy_environment c)
    (c_num_variables_set c) dir parent (c_next_free c)
    (c_next_in_bucket c) (c_ref_count c) (c_is_allocated c).

Definition deref (h : heap) (a : addr) : outcome ios_pid_context :=
  match h !! a with Some c => Ret c | None => Undef UseAfterFree end.

(** ** The operations *)

Definition hash_pid (pid : Z) : nat := Z.to_nat (wrapU 32 pid `mod` PID_HASH_TABLE_SIZE).

Definition pid_allocator_init_once (g : pid_allocator) : pid_allocator :=
  if g_initialized g then g else
  PidAllocator (g_heap g) (g_next_addr g) (replicate 256 None) true None 0 INITIAL_PID 0 0
    (g_once g) true 0.

(** [pthread_once]. *)
Definition ios_pid_allocator_init (g : pid_allocator) : pid_allocator :=
  if g_once g then g else
  let g1 := pid_allocator_init_once g in
  PidAllocator (g_heap g1) (g_next_addr g1) (g_buckets g1) (g_locks g1) (g_free_head g1)
    (g_free_size g1) (g_next_pid g1) (g_total_allocated g1) (g_currently_active g1) true
    (g_initialized g1) (g_cleanup_counter g1).

Definition pid_allocator_create_context (calloc_ok : bool) (pid : Z) : option ios_pid_context :=
  if calloc_ok then Some (PidContext pid 0 None false 0 "" 0 None None 1 true) else None.

(** A lock of a destroyed bucket lock is undefined. *)
Definition lock_bucket (g : pid_allocator) (i : nat) : outcome (option addr) :=
  if g_locks g then
    match g_buckets g !! i with Some p => Ret p | None => Undef OutOfBounds end
  else Undef LockMisuse.

Definition pid_allocator_insert_active (g : pid_allocator) (a : addr) : outcome pid_allocator :=
  c ← deref (g_heap g) a;
  let i := hash_pid (c_pid c) in
  head ← lock_bucket g i;
  Ret (set_bucket (set_heap g (<[a := c_set_links c (c_next_free c) head]> (g_heap g))) i (Some a)).

(** The loop of [pid_allocator_remove_active] from the context [p] on, whose
    predecessor field is [*entry_ptr]: the new value of that field and the
    new memory. *)
Fixpoint unlink (fuel : nat) (h : heap) (p : option addr) (a : addr) : outcome (option addr * heap) :=
  match p, fuel with
  | None, _ => Ret (None, h)
  | Some _, O => Undef OutOfFuel
  | Some b, S fuel =>
      if bool_decide (b = a) then
        c ← deref h a;
        Ret (c_next_in_bucket c, <[a := c_set_links c (c_next_free c) None]> h)
      else
        cb ← deref h b;
        '(nb, h') ← unlink fuel h (c_next_in_bucket cb) a;
        cb' ← deref h' b;
        Ret (Some b, <[b := c_set_links cb' (c_next_free cb') nb]> h')
  end.

Definition chain_fuel (g : pid_allocator) : nat := S (size (g_heap g)).

Definition pid_allocator_remove_active (g : pid_allocator) (a : addr) : outcome pid_allocator :=
  c ← deref (g_heap g) a;
  let i := hash_pid (c_pid c) in
  head ← lock_bucket g i;
  '(head', h') ← unlink (chain_fuel g) (g_heap g) head a;
  Ret (set_bucket (set_heap g h') i head').

(** Without interference the compare-and-swap succeeds at once. *)
Definition pid_allocator_pop_free_list (g : pid_allocator) : outcome (pid_allocator * option addr) :=
  match g_free_head g with
  | None => Ret (g, None)
  | Some a =>
      c ← deref (g_heap g) a;
      let g1 := set_free g (c_next_free c) (g_free_size g -i32 1) in
      let c1 := c_set_ref (c_set_links c None (c_next_in_bucket c)) 1 true in
      Ret (set_heap g1 (<[a := c1]> (g_heap g1)), Some a)
  end.

(** The clean-up at the start of [pid_allocator_push_free_list]. *)
Definition clean_context (c : ios_pid_context) : outcome ios_pid_context :=
  match c_environment c with
  | Some env =>
      if bool_decide (c_num_variables_set c ≤ zlen env)
      then Ret (c_set_ref (c_set_thread (c_set_env c None false 0) 0) (c_ref_count c) false)
      else Undef OutOfBounds
  | None => Ret (c_set_ref (c_set_thread (c_set_env c None false 0) 0) (c_ref_count c) false)
  end.

Definition pid_allocator_push_free_list (g : pid_allocator) (a : addr) : outcome pid_allocator :=
  c ← deref (g_heap g) a;
  c1 ← clean_context c;
  let c2 := c_set_links c1 (g_free_head g) (c_next_in_bucket c1) in
  Ret (set_free (set_heap g (<[a := c2]> (g_heap g))) (Some a) (g_free_size g +i32 1)).

(** [ios_pid_wait_for_cleanup] returns at once, or sleeps. *)
Definition ios_pid_wait_for_cleanup (g : pid_allocator) : bool :=
  bool_decide (g_cleanup_counter g ≤ 0).

(** The counters and the memory of a context that is not reused. *)
Definition fresh_context (g : pid_allocator) (calloc_ok : bool) : pid_allocator * option addr :=
  let pid := g_next_pid g in
  let next := g_next_pid g +i32 1 in
  match pid_allocator_create_context calloc_ok pid with
  | None =>
      (PidAllocator (g_heap g) (g_next_addr g) (g_buckets g) (g_locks g) (g_free_head g)
         (g_free_size g) next (g_total_allocated g) (g_currently_active g) (g_once g)
         (g_initialized g) (g_cleanup_counter g), None)
  | Some c =>
      (PidAllocator (<[g_next_addr g := c]> (g_heap g)) (S (g_next_addr g)) (g_buckets g)
         (g_locks g) (g_free_head g) (g_free_size g) next (g_total_allocated g +i32 1)
         (g_currently_active g) (g_once g) (g_initialized g) (g_cleanup_counter g),
       Some (g_next_addr g))
  end.

(** [None]: the caller sleeps until the clean-ups end. *)
Definition ios_pid_allocate (g : pid_allocator) (calloc_ok : bool)
    : outcome (option (pid_allocator * option addr)) :=
  let g0 := ios_pid_allocator_init g in
  if ios_pid_wait_for_cleanup g0 then
    '(g1, o) ← pid_allocator_pop_free_list g0;
    let '(g2, o2) := match o with
                     | Some a => (g1, Some a)
                     | None => fresh_context g1 calloc_ok
                     end in
    match o2 with
    | None => Ret (Some (g2, None))
    | Some a =>
        g3 ← pid_allocator_insert_active g2 a;
        Ret (Some (add_currently_active g3 1, Some a))
    end
  else Ret None.

Definition ios_pid_release (g : pid_allocator) (ctx : option addr) : outcome pid_allocator :=
  match ctx with
  | None => Ret g
  | Some a =>
      c ← deref (g_heap g) a;
      let g1 := set_heap g (<[a := c_set_ref c (c_ref_count c -i32 1) (c_is_allocated c)]> (g_heap g)) in
      if bool_decide (1 < c_ref_count c) then Ret g1
      else
        g2 ← pid_allocator_remove_active g1 a;
        pid_allocator_push_free_list (add_currently_active g2 (-1)) a
  end.

(** *** Accessors; a [NULL] context has the default answers. *)

Definition with_ctx {A} (g : pid_allocator) (ctx : option addr) (dflt : A)
    (f : ios_pid_context → A) : outcome A :=
  match ctx with None => Ret dflt | Some a => c ← deref (g_heap g) a; Ret (f c) end.
Definition upd_ctx (g : pid_allocator) (ctx : option addr)
    (f : ios_pid_context → ios_pid_context) : outcome pid_allocator :=
  match ctx with
  | None => Ret g
  | Some a => c ← deref (g_heap g) a; Ret (set_heap g (<[a := f c]> (g_heap g)))
  end.

Definition ios_pid_get_id (g : pid_allocator) (ctx : option addr) : outcome Z :=
  with_ctx g ctx (-1) c_pid.
Definition ios_pid_set_thread (g : pid_allocator) (ctx : option addr) (thread : Z) :=
  upd_ctx g ctx (λ c, c_set_thread c thread).
Definition ios_pid_get_thread (g : pid_allocator) (ctx : option addr) : outcome Z :=
  with_ctx g ctx 0 c_thread_id.
Definition ios_pid_get_environment (g : pid_allocator) (ctx : option addr) :=
  with_ctx g ctx None c_environment.
Definition ios_pid_set_environment (g : pid_allocator) (ctx : option addr)
    (env : option (list (option string))) :=
  upd_ctx g ctx (λ c, c_set_env c env (c_copy_environment c) (c_num_variables_set c)).
Definition ios_pid_get_env_count (g : pid_allocator) (ctx : option addr) : outcome Z :=
  with_ctx g ctx 0 c_num_variables_set.
Definition ios_pid_set_env_count (g : pid_allocator) (ctx : option addr) (count : Z) :=
  upd_ctx g ctx (λ c, c_set_env c (c_environment c) (c_copy_environment c) count).
Definition ios_pid_get_previous_dir (g : pid_allocator) (ctx : option addr) : outcome (option string) :=
  with_ctx g ctx None (λ c, Some (c_previous_directory c)).

(** [strncpy] keeps at most [MAXPATHLEN - 1] bytes of the C string. *)
Definition ios_pid_set_previous_dir (g : pid_allocator) (ctx : option addr) (dir : option string) :=
  match dir with
  | None => Ret g
  | Some d =>
      upd_ctx g ctx (λ c, c_set_dirs c (String.substring 0 (Z.to_nat (MAXPATHLEN - 1)) d)
                            (c_parent_pid c))
  end.
Definition ios_pid_get_parent (g : pid_allocator) (ctx : option addr) : outcome Z :=
  with_ctx g ctx (-1) c_parent_pid.
Definition ios_pid_set_parent (g : pid_allocator) (ctx : option addr) (parent_pid : Z) :=
  upd_ctx g ctx (λ c, c_set_dirs c (c_previous_directory c) parent_pid).

(** *** Look-up *)

(** The walk along a bucket for the first context that satisfies [test]. *)
Fixpoint find_in_bucket (fuel : nat) (h : heap) (test : ios_pid_context → bool) (p : option addr)
    : outcome (option addr) :=
  match p, fuel with
  | None, _ => Ret None
  | Some _, O => Undef OutOfFuel
  | Some a, S fuel =>
      c ← deref h a;
      if test c then Ret (Some a) else find_in_bucket fuel h test (c_next_in_bucket c)
  end.

Definition take_ref (g : pid_allocator) (a : addr) : outcome pid_allocator :=
  upd_ctx g (Some a) (λ c, c_set_ref c (c_ref_count c +i32 1) (c_is_allocated c)).

Definition ios_pid_lookup (g : pid_allocator) (pid : Z) : outcome (pid_allocator * option addr) :=
  let g0 := ios_pid_allocator_init g in
  head ← lock_bucket g0 (hash_pid pid);
  o ← find_in_bucket (chain_fuel g0) (g_heap g0)
        (λ c, bool_decide (c_pid c = pid) && c_is_allocated c) head;
  match o with
  | None => Ret (g0, None)
  | Some a => g1 ← take_ref g0 a; Ret (g1, Some a)
  end.

(** The scan of the buckets [i], [i + 1], ... of [ios_pid_lookup_by_thread]. *)
Fixpoint scan_buckets (n i : nat) (g : pid_allocator) (thread : Z) : outcome (option addr) :=
  match n with
  | O => Ret None
  | S n =>
      head ← lock_bucket g i;
      o ← find_in_bucket (chain_fuel g) (g_heap g)
            (λ c, bool_decide (c_thread_id c = thread) && c_is_allocated c) head;
      match o with
      | Some a => Ret (Some a)
      | None => scan_buckets n (S i) g thread
      end
  end.

Definition ios_pid_lookup_by_thread (g : pid_allocator) (thread : Z)
    : outcome (pid_allocator * option addr) :=
  let g0 := ios_pid_allocator_init g in
  o ← scan_buckets (Z.to_nat PID_HASH_TABLE_SIZE) 0 g0 thread;
  match o with
  | None => Ret (g0, None)
  | Some a => g1 ← take_ref g0 a; Ret (g1, Some a)
  end.

(** *** Shutdown, statistics, clean-up counter *)

(** Frees a chain; the links are read before the context is freed. *)
Fixpoint free_chain (fuel : nat) (h : heap) (next : ios_pid_context → option addr)
    (p : option addr) : outcome heap :=
  match p, fuel with
  | None, _ => Ret h
  | Some _, O => Undef OutOfFuel
  | Some a, S fuel => c ← deref h a; free_chain fuel (delete a h) next (next c)
  end.

Fixpoint free_buckets (fuel : nat) (bs : list (option addr)) (h : heap) : outcome heap :=
  match bs with
  | [] => Ret h
  | p :: bs => h' ← free_chain fuel h c_next_in_bucket p; free_buckets fuel bs h'
  end.

(** [free_list.head] and the counters keep their values. *)
Definition ios_pid_allocator_shutdown (g : pid_allocator) : outcome pid_allocator :=
  if g_initialized g then
    if g_locks g then
      h1 ← free_buckets (chain_fuel g) (g_buckets g) (g_heap g);
      h2 ← free_chain (chain_fuel g) h1 c_next_free (g_free_head g);
      Ret (PidAllocator h2 (g_next_addr g) (replicate 256 None) false (g_free_head g) (g_free_size g)
             (g_next_pid g) (g_total_allocated g) (g_currently_active g) (g_once g) false
             (g_cleanup_counter g))
    else Undef LockMisuse
  else Ret g.

Definition ios_pid_get_stats (g : pid_allocator) : Z * Z * Z :=
  (g_total_allocated g, g_currently_active g, g_free_size g).

Definition ios_pid_begin_cleanup (g : pid_allocator) : pid_allocator :=
  set_cleanup g (g_cleanup_counter g +i32 1).

(** The result tells whether the waiters are woken. *)
Definition ios_pid_end_cleanup (g : pid_allocator) : pid_allocator * bool :=
  (set_cleanup g (g_cleanup_counter g -i32 1), bool_decide (g_cleanup_counter g = 1)).

(** ** Chains *)

Lemma deref_some h a c : h !! a = Some c → deref h a = Ret c.
Proof. intros H. unfold deref. by rewrite H. Qed.

Fixpoint chain (h : heap) (next : ios_pid_context → option addr) (p : option addr)
    (l : list addr) : Prop :=
  match l with
  | [] => p = None
  | a :: l => p = Some a ∧ ∃ c, h !! a = Some c ∧ chain h next (next c) l
  end.

Lemma chain_insert_out h nx p l a c : a ∉ l → chain h nx p l → chain (<[a := c]> h) nx p l.
Proof.
  revert p. induction l as [|b l IH]; intros p Ha; simpl; [done|].
  intros [-> (d & Hd & Hl)]. apply not_elem_of_cons in Ha as [Hne Ha].
  split; [done|]. exists d. rewrite lookup_insert_ne by done. auto.
Qed.

Lemma chain_update h nx p l a c c' :
  h !! a = Some c → nx c' = nx c → chain h nx p l → chain (<[a := c']> h) nx p l.
Proof.
  intros Hc Hn. revert p. induction l as [|b l IH]; intros p; simpl; [done|].
  intros [-> (d & Hd & Hl)]. split; [done|]. destruct (decide (a = b)) as [->|].
  - exists c'. rewrite lookup_insert_eq. split; [done|]. simplify_eq. rewrite Hn. auto.
  - exists d. rewrite lookup_insert_ne by done. auto.
Qed.

Lemma chain_elem h nx p l a : chain h nx p l → a ∈ l → is_Some (h !! a).
Proof.
  revert p. induction l as [|b l IH]; intros p Hc; [by intros ?%not_elem_of_nil|].
  destruct Hc as [-> (d & Hd & Hl)]. intros [->|Ha]%elem_of_cons; eauto.
Qed.

(** The fuel of the walks is enough. *)
Lemma chain_fuel_enough g nx p l :
  chain (g_heap g) nx p l → NoDup l → (length l < chain_fuel g)%nat.
Proof.
  intros Hc Hnd. unfold chain_fuel. apply Nat.lt_succ_r.
  rewrite <- (size_list_to_set (C := gset addr)), <- (size_dom (D := gset addr)) by done.
  apply subseteq_size. intros a Ha. apply elem_of_list_to_set in Ha.
  apply elem_of_dom. by eapply chain_elem.
Qed.

Lemma find_in_bucket_spec fuel h test p l :
  chain h c_next_in_bucket p l → (length l < fuel)%nat →
  ∃ o, find_in_bucket fuel h test p = Ret o ∧
  match o with
  | Some a => a ∈ l ∧ ∃ c, h !! a = Some c ∧ test c = true
  | None => ∀ a c, a ∈ l → h !! a = Some c → test c = false
  end.
Proof.
  revert fuel p. induction l as [|a l IH]; intros fuel p Hc Hf; simpl in Hc.
  - subst. exists None. split; [by destruct fuel|]. by intros a c ?%not_elem_of_nil.
  - destruct Hc as [-> (c & Hl & Hc)]. destruct fuel as [|fuel]; simpl in *; [lia|].
    unfold deref. rewrite Hl. simpl. destruct (test c) eqn:Et.
    + exists (Some a). split; [done|]. split; [by left|eauto].
    + destruct (IH fuel _ Hc) as (o & -> & Ho); [lia|]. exists o. split; [done|].
      destruct o as [b|].
      * destruct Ho as [? ?]. split; [by right|done].
      * intros b d [->|Hb]%elem_of_cons Hd; [congruence|eauto].
Qed.

(** Two memories that differ in [next_in_bucket] only. *)
Definition same_but_bucket (h h' : heap) : Prop :=
  ∀ x, match h !! x, h' !! x with
       | Some c, Some c' => c' = c_set_links c (c_next_free c) (c_next_in_bucket c')
       | None, None => True
       | _, _ => False
       end.

Lemma same_but_bucket_refl h : same_but_bucket h h.
Proof. intros x. destruct (h !! x) as [[]|]; done. Qed.

Lemma same_but_bucket_insert h h' a c nb :
  same_but_bucket h h' → h' !! a = Some c →
  same_but_bucket h (<[a := c_set_links c (c_next_free c) nb]> h').
Proof.
  intros Hs Hc x. specialize (Hs x). destruct (decide (a = x)) as [->|].
  - rewrite lookup_insert_eq. rewrite Hc in Hs. destruct (h !! x) as [d|]; [|done].
    rewrite Hs. done.
  - by rewrite lookup_insert_ne.
Qed.

Lemma same_but_bucket_trans h1 h2 h3 :
  same_but_bucket h1 h2 → same_but_bucket h2 h3 → same_but_bucket h1 h3.
Proof.
  intros H1 H2 x. specialize (H1 x). specialize (H2 x).
  destruct (h1 !! x), (h2 !! x), (h3 !! x); try done. rewrite H2, H1. done.
Qed.

Lemma chain_same h h' p l : same_but_bucket h h' → chain h c_next_free p l → chain h' c_next_free p l.
Proof.
  intros Hs. revert p. induction l as [|a l IH]; intros p; simpl; [done|].
  intros [-> (c & Hc & Hl)]. split; [done|]. specialize (Hs a). rewrite Hc in Hs.
  destruct (h' !! a) as [c'|]; [|done]. exists c'. split; [done|]. rewrite Hs. simpl. auto.
Qed.

Lemma chain_agree h h' nx p l :
  (∀ x, x ∈ l → h' !! x = h !! x) → chain h nx p l → chain h' nx p l.
Proof.
  revert p. induction l as [|a l IH]; intros p Heq; simpl; [done|].
  intros [-> (c & Hc & Hl)]. split; [done|]. exists c. rewrite Heq by (by left). split; [done|].
  apply IH; [|done]. intros x Hx. apply Heq. by right.
Qed.

Lemma filter_ne_id (a : addr) (l : list addr) : a ∉ l → filter (λ x, x ≠ a) l = l.
Proof.
  induction l as [|b l IH]; [done|]. intros [Hne Ha]%not_elem_of_cons.
  rewrite list.filter_cons, decide_True by done. by rewrite IH.
Qed.

Lemma unlink_spec fuel h p l a :
  chain h c_next_in_bucket p l → NoDup l → a ∈ l → (length l < fuel)%nat →
  ∃ p' h', unlink fuel h p a = Ret (p', h') ∧
    chain h' c_next_in_bucket p' (filter (λ x, x ≠ a) l) ∧
    same_but_bucket h h' ∧ (∀ x, x ∉ l → h' !! x = h !! x).
Proof.
  revert fuel p. induction l as [|b l IH]; intros fuel p Hc Hnd Ha Hf; [by apply not_elem_of_nil in Ha|].
  destruct Hc as [-> (c & Hl & Hc)]. destruct fuel as [|fuel]; simpl in *; [lia|].
  apply list.NoDup_cons in Hnd as [Hb Hnd]. case_bool_decide as Eab.
  - subst b. unfold deref. rewrite Hl. simpl. eexists _, _. split; [done|].
    rewrite list.filter_cons, decide_False by (by intros []).
    split_and!.
    + rewrite filter_ne_id by done.
      by apply chain_insert_out.
    + apply same_but_bucket_insert; [apply same_but_bucket_refl|done].
    + intros x [Hx ?]%not_elem_of_cons. by rewrite lookup_insert_ne.
  - apply elem_of_cons in Ha as [?|Ha]; [by subst|].
    rewrite (deref_some _ _ _ Hl). simpl.
    destruct (IH fuel _ Hc Hnd Ha ltac:(lia)) as (p' & h' & -> & Hch & Hsame & Hout). simpl.
    assert (∃ c', h' !! b = Some c') as [c' Hc'].
    { rewrite Hout by done. eauto. }
    rewrite (deref_some _ _ _ Hc'). simpl. eexists _, _. split; [done|].
    rewrite list.filter_cons, decide_True by done. split_and!.
    + split; [done|]. eexists. rewrite lookup_insert_eq. split; [done|]. simpl.
      apply chain_insert_out; [|done]. rewrite list_elem_of_filter. naive_solver.
    + by apply same_but_bucket_insert.
    + intros x [Hx ?]%not_elem_of_cons. rewrite lookup_insert_ne by done. by apply Hout.
Qed.

(** Identifiers are unique in a memory; updates keep them. *)
Definition pids_unique (h : heap) : Prop :=
  ∀ a b c d, h !! a = Some c → h !! b = Some d → c_pid c = c_pid d → a = b.

(** ** The invariant

    [B] lists the contexts of each bucket, [F] those of the free list. *)
Record pid_inv (g : pid_allocator) (B : list (list addr)) (F : list addr) : Prop := {
  pi_once : g_once g = true;
  pi_locks : g_locks g = true;
  pi_len : length (g_buckets g) = 256%nat ∧ length B = 256%nat;
  pi_chain : ∀ i p l, g_buckets g !! i = Some p → B !! i = Some l →
      chain (g_heap g) c_next_in_bucket p l ∧ NoDup l;
  pi_free : chain (g_heap g) c_next_free (g_free_head g) F ∧ NoDup F;
  pi_active : ∀ i l a, B !! i = Some l → a ∈ l → ∃ c, g_heap g !! a = Some c ∧
      hash_pid (c_pid c) = i ∧ c_is_allocated c = true ∧ 1 ≤ c_ref_count c ≤ INT_MAX;
  pi_freed : ∀ a, a ∈ F → ∃ c, g_heap g !! a = Some c ∧ c_is_allocated c = false ∧
      c_environment c = None ∧ c_thread_id c = 0 ∧ c_num_variables_set c = 0;
  pi_all : ∀ a c, g_heap g !! a = Some c →
      (∃ i l, B !! i = Some l ∧ a ∈ l) ∨ a ∈ F;
  pi_pids : pids_unique (g_heap g);
  pi_range : ∀ a c, g_heap g !! a = Some c → INITIAL_PID ≤ c_pid c < g_next_pid g;
  pi_next : INITIAL_PID ≤ g_next_pid g ≤ INT_MAX;
  pi_fresh : ∀ a, (g_next_addr g ≤ a)%nat → g_heap g !! a = None;
  pi_counts : g_currently_active g = wrapS 32 (Z.of_nat (sum_list_with length B)) ∧
      g_free_size g = wrapS 32 (zlen F) ∧
      g_total_allocated g = wrapS 32 (Z.of_nat (sum_list_with length B + length F)) }.

Definition pid_wf (g : pid_allocator) : Prop := ∃ B F, pid_inv g B F.

(** [a] is the context of the live process [pid]. *)
Definition live (g : pid_allocator) (pid : Z) (a : addr) : Prop :=
  ∃ c, g_heap g !! a = Some c ∧ c_is_allocated c = true ∧ c_pid c = pid.

Lemma hash_pid_lt pid : (hash_pid pid < 256)%nat.
Proof.
  unfold hash_pid, PID_HASH_TABLE_SIZE. pose proof (Z.mod_pos_bound (wrapU 32 pid) 256). lia.
Qed.

Local Arguments replicate : simpl never.
Local Arguments find_in_bucket : simpl never.
Local Arguments unlink : simpl never.
Local Arguments clean_context : simpl never.

Lemma inv_init g : g_once g = false → g_initialized g = false → g_heap g = ∅ →
  pid_wf (ios_pid_allocator_init g).
Proof.
  intros Ho Hi Hh. exists (replicate 256 []), [].
  unfold ios_pid_allocator_init, pid_allocator_init_once. rewrite Ho, Hi. simpl.
  assert (∀ n, sum_list_with length (replicate n (@nil addr)) = 0%nat) as Hz
    by (by induction n as [|n IH]).
  split; simpl; rewrite ?Hh; try done.
  - intros i p l Hp Hl. apply lookup_replicate in Hp as [-> _]. apply lookup_replicate in Hl as [-> _].
    split; [done|apply NoDup_nil_2].
  - split; [done|apply NoDup_nil_2].
  - intros i l a Hl Ha. apply lookup_replicate in Hl as [-> _]. by apply not_elem_of_nil in Ha.
  - intros a Ha. by apply not_elem_of_nil in Ha.
Qed.

Lemma pids_insert h a c :
  pids_unique h → (∀ b d, h !! b = Some d → c_pid d = c_pid c → b = a) →
  pids_unique (<[a := c]> h).
Proof.
  intros Hu Hc x y cx cy Hx Hy E.
  apply lookup_insert_Some in Hx as [[<- <-]|[Hx1 Hx2]], Hy as [[<- <-]|[Hy1 Hy2]]; try done.
  - symmetry. by eapply Hc.
  - by eapply Hc.
  - by eapply Hu.
Qed.

Section inv.
Context (g : pid_allocator) (B : list (list addr)) (F : list addr) (Hi : pid_inv g B F).

Lemma init_id : ios_pid_allocator_init g = g.
Proof. unfold ios_pid_allocator_init. by rewrite (pi_once _ _ _ Hi). Qed.

Lemma bucket_lookup pid : ∃ p l,
  g_buckets g !! hash_pid pid = Some p ∧ B !! hash_pid pid = Some l ∧
  lock_bucket g (hash_pid pid) = Ret p ∧ chain (g_heap g) c_next_in_bucket p l ∧ NoDup l.
Proof.
  destruct (pi_len _ _ _ Hi) as [H1 H2]. pose proof (hash_pid_lt pid).
  destruct (lookup_lt_is_Some_2 (g_buckets g) (hash_pid pid)) as [p Hp]; [lia|].
  destruct (lookup_lt_is_Some_2 B (hash_pid pid)) as [l Hl]; [lia|].
  exists p, l. unfold lock_bucket. rewrite (pi_locks _ _ _ Hi), Hp.
  destruct (pi_chain _ _ _ Hi _ _ _ Hp Hl). done.
Qed.

(** A live context is in the bucket of its identifier. *)
Lemma live_in_bucket pid a l :
  live g pid a → B !! hash_pid pid = Some l → a ∈ l.
Proof.
  intros (c & Hc & Hal & <-) Hl. destruct (pi_all _ _ _ Hi _ _ Hc) as [(i & l' & Hl' & Ha)|Ha].
  - destruct (pi_active _ _ _ Hi _ _ _ Hl' Ha) as (c' & Hc' & Hh & _). simplify_eq. done.
  - destruct (pi_freed _ _ _ Hi _ Ha) as (c' & Hc' & Hf & _). congruence.
Qed.

Lemma not_in_free a c : g_heap g !! a = Some c → c_is_allocated c = true → a ∉ F.
Proof. intros Hc Ha Hin. destruct (pi_freed _ _ _ Hi _ Hin) as (d & ? & ? & _). congruence. Qed.

Lemma not_in_bucket a i l : a ∈ F → B !! i = Some l → a ∉ l.
Proof.
  intros Ha Hl Hin. destruct (pi_freed _ _ _ Hi _ Ha) as (d & ? & ? & _).
  destruct (pi_active _ _ _ Hi _ _ _ Hl Hin) as (c & ? & _ & ? & _). congruence.
Qed.

(** Changes of a live context that keep its links, identifier and state. *)
Lemma inv_update a c c' :
  g_heap g !! a = Some c → c_is_allocated c = true → c_is_allocated c' = true →
  c_pid c' = c_pid c → c_next_free c' = c_next_free c →
  c_next_in_bucket c' = c_next_in_bucket c → 1 ≤ c_ref_count c' ≤ INT_MAX →
  pid_inv (set_heap g (<[a := c']> (g_heap g))) B F.
Proof.
  intros Hc Hal Hal' Hp Hnf Hnb Hr. pose proof (not_in_free a c Hc Hal) as HaF.
  destruct Hi as [H1 H2 H3 H4 H5 H6 H7 H8 H9 H10 H11 H12 H13]. split; simpl; try done.
  - intros i p l Hp' Hl. destruct (H4 _ _ _ Hp' Hl). split; [|done]. by eapply chain_update.
  - destruct H5. split; [|done]. by eapply chain_update.
  - intros i l b Hl Hb. destruct (H6 _ _ _ Hl Hb) as (d & Hd & Hh & Hall & Hrd).
    destruct (decide (a = b)) as [->|].
    + exists c'. rewrite lookup_insert_eq. simplify_eq. by rewrite Hp.
    + exists d. by rewrite lookup_insert_ne.
  - intros b Hb. rewrite lookup_insert_ne by congruence. by apply H7.
  - intros b d. destruct (decide (a = b)) as [->|]; [intros _; by eapply H8|].
    rewrite lookup_insert_ne by done. apply H8.
  - apply pids_insert; [done|]. intros b d Hd E. eapply H9; [done|exact Hc|congruence].
  - intros b d. destruct (decide (a = b)) as [->|].
    + rewrite lookup_insert_eq. intros [= <-]. rewrite Hp. by eapply H10.
    + rewrite lookup_insert_ne by done. apply H10.
  - intros b Hb. rewrite lookup_insert_ne; [by apply H12|]. intros ->. rewrite H12 in Hc; done.
Qed.

(** The look-up along one bucket. *)
Lemma lookup_spec pid :
  (∀ a c, g_heap g !! a = Some c → c_ref_count c < INT_MAX) →
  ∃ g' o, ios_pid_lookup g pid = Ret (g', o) ∧ pid_inv g' B F ∧
  match o with
  | Some a => live g pid a ∧ ∃ c c', g_heap g !! a = Some c ∧ g_heap g' !! a = Some c' ∧
      c_ref_count c' = c_ref_count c + 1
  | None => g' = g ∧ ∀ a, ¬ live g pid a
  end.
Proof.
  intros Href. unfold ios_pid_lookup. rewrite init_id.
  destruct (bucket_lookup pid) as (p & l & Hp & Hl & -> & Hch & Hnd). simpl.
  destruct (find_in_bucket_spec (chain_fuel g) (g_heap g)
    (λ c, bool_decide (c_pid c = pid) && c_is_allocated c) p l Hch) as (o & -> & Ho).
  { by eapply chain_fuel_enough. }
  simpl. destruct o as [a|].
  - destruct Ho as [Ha (c & Hc & Ht)]. apply andb_true_iff in Ht as [Ht Hal].
    apply bool_decide_eq_true in Ht. unfold take_ref, upd_ctx. rewrite (deref_some _ _ _ Hc). simpl.
    destruct (pi_active _ _ _ Hi _ _ _ Hl Ha) as (c0 & Hc0 & _ & _ & Hr). simplify_eq.
    specialize (Href _ _ Hc).
    eexists _, _. split; [done|]. split.
    + eapply inv_update; try done. simpl. nowrap. lia.
    + split; [by exists c|]. eexists _, _. split; [done|]. simpl. rewrite lookup_insert_eq.
      split; [done|]. simpl. nowrap. done.
  - eexists _, _. split; [done|]. split; [done|]. split; [done|]. intros a Hlive.
    pose proof (live_in_bucket pid a l Hlive Hl) as Ha. destruct Hlive as (c & Hc & Hal & Hpid).
    specialize (Ho a c Ha Hc). rewrite bool_decide_eq_true_2, Hal in Ho by done. done.
Qed.

(** A context, fresh or from the free list, becomes live. *)
Lemma inv_activate a c' F' p l np na tot cur fsz fh :
  (g_heap g !! a = None ∨ a ∈ F) →
  g_buckets g !! hash_pid (c_pid c') = Some p → B !! hash_pid (c_pid c') = Some l →
  c_next_in_bucket c' = p → c_is_allocated c' = true → c_ref_count c' = 1 →
  a ∉ F' → (∀ x, x ∈ F' → x ∈ F) → (∀ x, x ∈ F → x = a ∨ x ∈ F') → NoDup F' →
  chain (g_heap g) c_next_free fh F' →
  INITIAL_PID ≤ c_pid c' < np → g_next_pid g ≤ np ≤ INT_MAX →
  (∀ b d, g_heap g !! b = Some d → c_pid d = c_pid c' → b = a) →
  (∀ x, (na ≤ x)%nat → x ≠ a ∧ g_heap g !! x = None) →
  cur = wrapS 32 (Z.of_nat (S (sum_list_with length B))) → fsz = wrapS 32 (zlen F') →
  tot = wrapS 32 (Z.of_nat (S (sum_list_with length B) + length F')) →
  pid_inv (PidAllocator (<[a := c']> (g_heap g)) na (<[hash_pid (c_pid c') := Some a]> (g_buckets g))
             true fh fsz np tot cur true (g_initialized g) (g_cleanup_counter g))
    (<[hash_pid (c_pid c') := a :: l]> B) F'.
Proof.
  intros Ha Hp Hl Hnb Hal Href HaF HF1 HF2 HndF Hfree Hpid Hnp Huniq Hna Hcur Hfsz Htot.
  assert (∀ i k, B !! i = Some k → a ∉ k) as Hnot.
  { intros i k Hk Hin. destruct Ha as [Ha|Ha]; [|by eapply not_in_bucket].
    destruct (pi_active _ _ _ Hi _ _ _ Hk Hin) as (d & ? & _). congruence. }
  assert (sum_list_with length (<[hash_pid (c_pid c') := a :: l]> B) = S (sum_list_with length B)) as Hsum.
  { pose proof (sum_list_with_insert length B _ l (a :: l) Hl) as H. simpl in H. lia. }
  destruct Hi as [H1 H2 H3 H4 H5 H6 H7 H8 H9 H10 H11 H12 H13]. set (i := hash_pid (c_pid c')) in *.
  split; simpl; try done; rewrite ?Hsum; try done.
  - by rewrite !length_insert.
  - intros j q k Hq Hk. destruct (decide (i = j)) as [<-|Hne].
    + rewrite list_lookup_insert_eq in Hq by (by eapply lookup_lt_Some).
      rewrite list_lookup_insert_eq in Hk by (by eapply lookup_lt_Some). simplify_eq.
      destruct (H4 _ _ _ Hp Hl) as [Hch Hnd]. split.
      * split; [done|]. exists c'. rewrite lookup_insert_eq. split; [done|].
        apply chain_insert_out; [by eapply Hnot|done].
      * apply list.NoDup_cons. split; [by eapply Hnot|done].
    + rewrite list_lookup_insert_ne in Hq by done. rewrite list_lookup_insert_ne in Hk by done.
      destruct (H4 _ _ _ Hq Hk) as [Hch Hnd].
      split; [|done]. apply chain_insert_out; [by eapply Hnot|done].
  - split; [|done]. by apply chain_insert_out.
  - intros j k b Hk Hb. destruct (decide (b = a)) as [->|Hne].
    + exists c'. rewrite lookup_insert_eq. split; [done|]. rewrite Href. split; [|split; [done|by vm_compute]].
      destruct (decide (i = j)) as [<-|]; [done|]. rewrite list_lookup_insert_ne in Hk by done.
      by apply Hnot in Hk.
    + rewrite lookup_insert_ne by done. destruct (decide (i = j)) as [<-|].
      * rewrite list_lookup_insert_eq in Hk by (by eapply lookup_lt_Some). simplify_eq.
        apply elem_of_cons in Hb as [?|Hb]; [done|]. by eapply H6.
      * rewrite list_lookup_insert_ne in Hk by done. by eapply H6.
  - intros b Hb. rewrite lookup_insert_ne by congruence. auto.
  - intros b d Hbd. destruct (decide (b = a)) as [->|].
    + left. exists i, (a :: l). rewrite list_lookup_insert_eq by (by eapply lookup_lt_Some).
      split; [done|by left].
    + rewrite lookup_insert_ne in Hbd by done. destruct (H8 _ _ Hbd) as [(j & k & Hk & Hb)|Hb].
      * left. destruct (decide (i = j)) as [<-|].
        -- exists i, (a :: l). rewrite list_lookup_insert_eq by (by eapply lookup_lt_Some).
           simplify_eq. split; [done|by right].
        -- exists j, k. by rewrite list_lookup_insert_ne.
      * right. by destruct (HF2 b Hb).
  - apply pids_insert; [done|]. intros b d Hd E. by eapply Huniq.
  - intros b d. rewrite lookup_insert_Some. intros [[<- <-]|[? Hd]]; [lia|].
    specialize (H10 _ _ Hd). lia.
  - lia.
  - intros x Hx. destruct (Hna x Hx). by rewrite lookup_insert_ne.
Qed.
End inv.

Lemma wrapS_pred n x : 0 < n → wrapS n (wrapS n x - 1) = wrapS n (x - 1).
Proof. apply (wrapS_add_idemp n x (-1)). Qed.

Lemma live_insert g a c' g' :
  g_heap g' = <[a := c']> (g_heap g) → c_is_allocated c' = true →
  (∀ pid, live g pid a → pid = c_pid c') →
  ∀ pid b, live g' pid b ↔ live g pid b ∨ b = a ∧ pid = c_pid c'.
Proof.
  intros Hh Hal Hold pid b. unfold live. rewrite Hh. split.
  - intros (c & Hc & Hca & Hcp). apply lookup_insert_Some in Hc as [[<- <-]|[Hne Hc]]; [by right|].
    left. eauto.
  - intros [(c & Hc & Hca & Hcp)|[-> ->]].
    + destruct (decide (a = b)) as [->|].
      * exists c'. rewrite lookup_insert_eq. split_and!; try done.
        symmetry. apply Hold. by exists c.
      * exists c. by rewrite lookup_insert_ne.
    + exists c'. by rewrite lookup_insert_eq.
Qed.

Definition allocated (g g' : pid_allocator) (a : addr) : Prop :=
  ∃ c, g_heap g' !! a = Some c ∧ c_ref_count c = 1 ∧ c_environment c = None ∧
    (∀ b, ¬ live g (c_pid c) b) ∧
    ∀ pid b, live g' pid b ↔ live g pid b ∨ b = a ∧ pid = c_pid c.

Lemma allocate_reuse g B F a :
  pid_inv g B (a :: F) → g_cleanup_counter g ≤ 0 →
  ∃ g', ios_pid_allocate g true = Ret (Some (g', Some a)) ∧ pid_wf g' ∧ allocated g g' a.
Proof.
  intros Hi Hcl. unfold ios_pid_allocate. rewrite (init_id g B (a :: F) Hi).
  unfold ios_pid_wait_for_cleanup. rewrite bool_decide_eq_true_2 by done.
  destruct (pi_freed _ _ _ Hi a) as (c & Hc & Hal & Henv & _); [by left|].
  destruct (pi_free _ _ _ Hi) as [[Hfh (c0 & Hc0 & Hch)] Hnd]. simplify_eq.
  unfold pid_allocator_pop_free_list. rewrite Hfh, (deref_some _ _ _ Hc). simpl.
  unfold pid_allocator_insert_active. simpl. unfold deref. rewrite lookup_insert_eq. simpl.
  destruct (bucket_lookup g B (a :: F) Hi (c_pid c)) as (p & l & Hp & Hl & _ & _ & _).
  unfold lock_bucket. simpl. rewrite (pi_locks _ _ _ Hi), Hp. simpl.
  rewrite insert_insert_eq. eexists. split; [done|].
  apply list.NoDup_cons in Hnd as [HaF Hnd]. destruct (pi_counts _ _ _ Hi) as (Hcur & Hfsz & Htot).
  split.
  - eexists _, F. unfold set_bucket, set_heap, add_currently_active, set_free. simpl.
    set (c' := c_set_links _ _ _). rewrite ?(pi_locks _ _ _ Hi), ?(pi_once _ _ _ Hi).
    change (c_pid c) with (c_pid c').
    eapply (inv_activate g B (a :: F) Hi a c' F p l); try done.
    + right. by left.
    + by intros x Hx; right.
    + by intros x [->|Hx]%elem_of_cons; auto.
    + exact (pi_range _ _ _ Hi a c Hc).
    + pose proof (pi_next _ _ _ Hi). lia.
    + intros b d Hb E. by eapply (pi_pids _ _ _ Hi).
    + intros x Hx. rewrite (pi_fresh _ _ _ Hi) by done. split; [|done].
      intros ->. by rewrite (pi_fresh _ _ _ Hi) in Hc.
    + rewrite Hcur, wrapS_add_idemp by done. f_equal. lia.
    + rewrite Hfsz, wrapS_pred by done. f_equal. unfold zlen. simpl. lia.
    + rewrite Htot. f_equal. simpl. lia.
  - eexists. simpl. rewrite lookup_insert_eq. split; [done|]. split_and!; try done.
    + intros b (d & Hd & Hda & Hdp). assert (b = a) as -> by (by eapply (pi_pids _ _ _ Hi)). congruence.
    + eapply live_insert; [reflexivity..|]. intros pid (d & Hd & Hda & _). congruence.
Qed.

Lemma allocate_new g B :
  pid_inv g B [] → g_cleanup_counter g ≤ 0 → g_next_pid g < INT_MAX →
  ∃ g' a, ios_pid_allocate g true = Ret (Some (g', Some a)) ∧ pid_wf g' ∧ allocated g g' a.
Proof.
  intros Hi Hcl Hlt. unfold ios_pid_allocate. rewrite (init_id g B [] Hi).
  unfold ios_pid_wait_for_cleanup. rewrite bool_decide_eq_true_2 by done.
  destruct (pi_free _ _ _ Hi) as [Hfh _]. simpl in Hfh.
  unfold pid_allocator_pop_free_list. rewrite Hfh. simpl.
  unfold pid_allocator_insert_active. simpl. unfold deref. rewrite lookup_insert_eq. simpl.
  destruct (bucket_lookup g B [] Hi (g_next_pid g)) as (p & l & Hp & Hl & _ & _ & _).
  unfold lock_bucket. simpl. rewrite (pi_locks _ _ _ Hi), Hp. simpl.
  rewrite insert_insert_eq. eexists _, _. split; [done|].
  destruct (pi_counts _ _ _ Hi) as (Hcur & Hfsz & Htot). pose proof (pi_next _ _ _ Hi) as Hn.
  assert (g_heap g !! g_next_addr g = None) as Hnone by (by apply (pi_fresh _ _ _ Hi)).
  split.
  - eexists _, []. unfold set_bucket, set_heap, add_currently_active. simpl.
    set (c' := c_set_links _ _ _). rewrite ?(pi_locks _ _ _ Hi), ?(pi_once _ _ _ Hi).
    change (hash_pid (g_next_pid g)) with (hash_pid (c_pid c')).
    assert (wrapS 32 (g_next_pid g + 1) = g_next_pid g + 1) as Hw
      by (apply wrapS_small; unfold INITIAL_PID in Hn; range_solve).
    eapply (inv_activate g B [] Hi (g_next_addr g) c' [] p l); try done.
    + by left.
    + by intros ?%not_elem_of_nil.
    + intros x ?%not_elem_of_nil. done.
    + apply NoDup_nil_2.
    + simpl. rewrite Hw. lia.
    + rewrite Hw. lia.
    + intros b d Hb E. pose proof (pi_range _ _ _ Hi _ _ Hb). simpl in E. lia.
    + intros x Hx. split; [lia|]. apply (pi_fresh _ _ _ Hi). lia.
    + rewrite Hcur, wrapS_add_idemp by done. f_equal. lia.
    + rewrite Htot, wrapS_add_idemp by done. f_equal. simpl. lia.
  - eexists. simpl. rewrite lookup_insert_eq. split; [done|]. split_and!; try done.
    + intros b (d & Hd & Hda & Hdp). pose proof (pi_range _ _ _ Hi _ _ Hd). simpl in Hdp. lia.
    + eapply live_insert; [reflexivity..|]. intros pid (d & Hd & Hda & _). congruence.
Qed.

Lemma length_filter_ne (a : addr) (l : list addr) :
  NoDup l → a ∈ l → S (length (filter (λ x, x ≠ a) l)) = length l.
Proof.
  induction l as [|b l IH]; intros Hnd Ha; [by apply not_elem_of_nil in Ha|].
  apply list.NoDup_cons in Hnd as [Hb Hnd]. rewrite list.filter_cons.
  destruct (decide (b = a)) as [->|Hne].
  - rewrite decide_False by (by intros []). by rewrite filter_ne_id.
  - rewrite decide_True by done. apply elem_of_cons in Ha as [->|Ha]; [done|].
    simpl. by rewrite IH.
Qed.

(** Memories with the same identifiers. *)
Lemma pids_unique_same h h' :
  (∀ a c', h' !! a = Some c' → ∃ c, h !! a = Some c ∧ c_pid c' = c_pid c) →
  pids_unique h → pids_unique h'.
Proof.
  intros Hs Hu a b c d Ha Hb E. destruct (Hs _ _ Ha) as (c0 & ? & E1), (Hs _ _ Hb) as (d0 & ? & E2).
  eapply Hu; [done..|congruence].
Qed.

(** A live context leaves its bucket for the free list. *)
Lemma inv_deactivate g B F a c l h' p' c2 cur fsz :
  pid_inv g B F → g_heap g !! a = Some c → c_is_allocated c = true →
  B !! hash_pid (c_pid c) = Some l →
  chain h' c_next_in_bucket p' (filter (λ x, x ≠ a) l) →
  same_but_bucket (<[a := c_set_ref c (c_ref_count c -i32 1) (c_is_allocated c)]> (g_heap g)) h' →
  (∀ x, x ∉ l → h' !! x = (<[a := c_set_ref c (c_ref_count c -i32 1) (c_is_allocated c)]> (g_heap g)) !! x) →
  c_is_allocated c2 = false → c_environment c2 = None → c_thread_id c2 = 0 →
  c_num_variables_set c2 = 0 → c_pid c2 = c_pid c → c_next_free c2 = g_free_head g →
  cur = g_currently_active g -i32 1 → fsz = g_free_size g +i32 1 →
  pid_inv (PidAllocator (<[a := c2]> h') (g_next_addr g)
             (<[hash_pid (c_pid c) := p']> (g_buckets g)) (g_locks g) (Some a) fsz (g_next_pid g)
             (g_total_allocated g) cur (g_once g) (g_initialized g) (g_cleanup_counter g))
    (<[hash_pid (c_pid c) := filter (λ x, x ≠ a) l]> B) (a :: F).
Proof.
  intros Hi Hc Hal Hl Hch Hsame Hout Hal2 Hen2 Hth2 Hnv2 Hpid2 Hnf2 Hcur Hfsz.
  pose proof (not_in_free _ _ _ Hi _ _ Hc Hal) as HaF.
  assert (a ∈ l) as Hal_in by (eapply (live_in_bucket g B F Hi (c_pid c)); [by exists c|done]).
  set (c0 := c_set_ref c (c_ref_count c -i32 1) (c_is_allocated c)) in *.
  (* what [h'] holds *)
  assert (∀ x d', h' !! x = Some d' → ∃ d, g_heap g !! x = Some d ∧ c_pid d' = c_pid d ∧
    (x ≠ a → d' = c_set_links d (c_next_free d) (c_next_in_bucket d'))) as Hback.
  { intros x d' Hx. specialize (Hsame x). rewrite Hx in Hsame. destruct (decide (a = x)) as [->|].
    - rewrite lookup_insert_eq in Hsame. exists c. rewrite Hsame. done.
    - rewrite lookup_insert_ne in Hsame by done. destruct (g_heap g !! x) as [d|]; [|done].
      exists d. rewrite Hsame. done. }
  assert (∀ x d, x ≠ a → g_heap g !! x = Some d → ∃ nb, h' !! x = Some (c_set_links d (c_next_free d) nb))
    as Hfwd.
  { intros x d Hne Hx. specialize (Hsame x). rewrite lookup_insert_ne, Hx in Hsame by done.
    destruct (h' !! x) as [d'|]; [|done]. exists (c_next_in_bucket d'). by rewrite <- Hsame. }
  assert (∀ j k, hash_pid (c_pid c) ≠ j → B !! j = Some k → a ∉ k ∧ (∀ x, x ∈ k → x ∉ l)) as Hother.
  { intros j k Hne Hk. assert (∀ x, x ∈ k → x ∉ l) as H.
    { intros x Hx Hxl. destruct (pi_active _ _ _ Hi _ _ _ Hk Hx) as (d1 & ? & ? & _).
      destruct (pi_active _ _ _ Hi _ _ _ Hl Hxl) as (d2 & ? & ? & _). by simplify_eq. }
    split; [|done]. intros Hak. by apply (H a). }
  destruct Hi as [H1 H2 H3 H4 H5 H6 H7 H8 H9 H10 H11 H12 (Hc1 & Hc2 & Hc3)].
  assert (NoDup l) as Hndl.
  { destruct (lookup_lt_is_Some_2 (g_buckets g) (hash_pid (c_pid c))) as [q Hq];
      [pose proof (hash_pid_lt (c_pid c)); lia|]. by destruct (H4 _ _ _ Hq Hl). }
  assert (S (sum_list_with length (<[hash_pid (c_pid c) := filter (λ x, x ≠ a) l]> B))
    = sum_list_with length B) as Hsum.
  { pose proof (sum_list_with_insert length B _ l (filter (λ x, x ≠ a) l) Hl) as H.
    pose proof (length_filter_ne a l Hndl Hal_in). lia. }
  assert (∀ k, a ∉ filter (λ x, x ≠ a) k) as Hnotin
    by (intros k Hk; by apply list_elem_of_filter in Hk as [[] _]).
  split; simpl; try done.
  - by rewrite !length_insert.
  - intros j q k Hq Hk. destruct (decide (hash_pid (c_pid c) = j)) as [<-|Hne].
    + rewrite list_lookup_insert_eq in Hq by (rewrite (proj1 H3); apply hash_pid_lt).
      rewrite list_lookup_insert_eq in Hk by (by eapply lookup_lt_Some). simplify_eq.
      split; [apply chain_insert_out; [apply Hnotin|done]|by apply list.NoDup_filter].
    + rewrite list_lookup_insert_ne in Hq by done. rewrite list_lookup_insert_ne in Hk by done.
      destruct (H4 _ _ _ Hq Hk) as [Hchk Hndk]. destruct (Hother j k Hne Hk) as [Hak Hkl].
      split; [|done]. apply chain_insert_out; [done|]. eapply chain_agree; [|exact Hchk].
      intros x Hx. rewrite Hout by auto. rewrite lookup_insert_ne; [done|]. congruence.
  - destruct H5 as [Hf Hnd]. split; [|by apply list.NoDup_cons]. split; [done|].
    exists c2. rewrite lookup_insert_eq. split; [done|]. rewrite Hnf2.
    apply chain_insert_out; [done|]. eapply chain_same; [exact Hsame|]. by apply chain_insert_out.
  - intros j k b Hk Hb.
    assert (b ≠ a ∧ ∃ k0, B !! j = Some k0 ∧ b ∈ k0) as (Hne & k0 & Hk0 & Hb0).
    { destruct (decide (hash_pid (c_pid c) = j)) as [<-|Hne].
      - rewrite list_lookup_insert_eq in Hk by (by eapply lookup_lt_Some). simplify_eq.
        apply list_elem_of_filter in Hb as [? ?]. eauto.
      - rewrite list_lookup_insert_ne in Hk by done. split; [|eauto].
        intros ->. by destruct (Hother j k Hne Hk). }
    destruct (H6 _ _ _ Hk0 Hb0) as (d & Hd & Hh & Hda & Hdr).
    rewrite lookup_insert_ne by done. destruct (Hfwd b d Hne Hd) as [nb ->]. eexists. by split.
  - intros b [->|Hb]%elem_of_cons.
    + exists c2. by rewrite lookup_insert_eq.
    + destruct (H7 b Hb) as (d & Hd & ? & ? & ? & ?). rewrite lookup_insert_ne by congruence.
      destruct (Hfwd b d ltac:(congruence) Hd) as [nb ->]. eexists. by split.
  - intros b d Hb. destruct (decide (b = a)) as [->|Hne]; [right; by left|].
    rewrite lookup_insert_ne in Hb by done. destruct (Hback _ _ Hb) as (d0 & Hd0 & _).
    destruct (H8 _ _ Hd0) as [(j & k & Hk & Hbk)|]; [left|right; by right].
    destruct (decide (hash_pid (c_pid c) = j)) as [<-|].
    + exists (hash_pid (c_pid c)), (filter (λ x, x ≠ a) l).
      rewrite list_lookup_insert_eq by (by eapply lookup_lt_Some). split; [done|].
      apply list_elem_of_filter. simplify_eq. done.
    + exists j, k. by rewrite list_lookup_insert_ne.
  - apply (pids_unique_same (g_heap g)); [|done]. intros x d'.
    rewrite lookup_insert_Some. intros [[<- <-]|[Hne Hx]]; [eauto|].
    destruct (Hback _ _ Hx) as (d & ? & ? & _). eauto.
  - intros x d'. rewrite lookup_insert_Some. intros [[<- <-]|[Hne Hx]]; [rewrite Hpid2; by eapply H10|].
    destruct (Hback _ _ Hx) as (d & Hd & -> & _). by eapply H10.
  - intros x Hx. specialize (H12 x Hx). rewrite lookup_insert_ne by congruence.
    specialize (Hsame x). rewrite lookup_insert_ne, H12 in Hsame by congruence. by destruct (h' !! x).
  - rewrite Hcur, Hc1, Hfsz, Hc2, Hc3, wrapS_pred, wrapS_add_idemp by done. unfold zlen. simpl.
    split_and!; f_equal; lia.
Qed.

(** ** Properties of the sequential operations *)

Lemma release_last g B F a c :
  pid_inv g B F → g_heap g !! a = Some c → c_is_allocated c = true → c_ref_count c ≤ 1 →
  (∀ env, c_environment c = Some env → c_num_variables_set c ≤ zlen env) →
  ∃ g', ios_pid_release g (Some a) = Ret g' ∧ pid_wf g' ∧ g_free_head g' = Some a ∧
    ∀ pid b, live g' pid b ↔ live g pid b ∧ b ≠ a.
Proof.
  intros Hi Hc Hal Hr Henv. unfold ios_pid_release. rewrite (deref_some _ _ _ Hc). simpl.
  rewrite bool_decide_eq_false_2 by lia.
  set (c0 := c_set_ref c (c_ref_count c -i32 1) (c_is_allocated c)). set (g1 := set_heap g _).
  destruct (bucket_lookup g B F Hi (c_pid c)) as (p & l & Hp & Hl & _ & Hch & Hnd).
  assert (a ∈ l) as Ha by (eapply (live_in_bucket g B F Hi (c_pid c)); [by exists c|done]).
  unfold pid_allocator_remove_active, deref. unfold g1 at 1. simpl. rewrite lookup_insert_eq. simpl.
  unfold lock_bucket. simpl. rewrite (pi_locks _ _ _ Hi), Hp. simpl.
  destruct (unlink_spec (chain_fuel g1) (<[a := c0]> (g_heap g)) p l a)
    as (p' & h' & -> & Hch' & Hsame & Hout); [| done..| |].
  { exact (chain_update _ c_next_in_bucket _ _ a c c0 Hc eq_refl Hch). }
  { eapply (chain_fuel_enough g1); [|done]. exact (chain_update _ c_next_in_bucket _ _ a c c0 Hc eq_refl Hch). }
  simpl. unfold pid_allocator_push_free_list. simpl.
  assert (∃ nb, h' !! a = Some (c_set_links c0 (c_next_free c0) nb)) as [nb Hnb].
  { pose proof (Hsame a) as H. rewrite lookup_insert_eq in H. destruct (h' !! a) as [d|]; [|done].
    exists (c_next_in_bucket d). by rewrite <- H. }
  rewrite (deref_some _ _ _ Hnb). simpl.
  assert (clean_context (c_set_links c0 (c_next_free c) nb)
    = Ret (c_set_ref (c_set_thread (c_set_env (c_set_links c0 (c_next_free c) nb) None false 0) 0)
             (c_ref_count c0) false)) as ->.
  { unfold clean_context. simpl. destruct (c_environment c) as [env|]; [|done].
    rewrite bool_decide_eq_true_2; [done|]. by apply Henv. }
  simpl. eexists. split; [done|]. split_and!; [|done|].
  - eexists _, (a :: F).
    eapply (inv_deactivate g B F a c l h' p'); try done.
  - intros pid b. unfold live. simpl. split.
    + intros (d & Hd & Hda & Hdp). apply lookup_insert_Some in Hd as [[<- <-]|[Hne Hd]]; [done|].
      split; [|done]. specialize (Hsame b). rewrite Hd, lookup_insert_ne in Hsame by done.
      destruct (g_heap g !! b) as [e|]; [|done]. exists e. rewrite Hsame in Hda, Hdp. done.
    + intros [(d & Hd & Hda & Hdp) Hne]. specialize (Hsame b).
      rewrite lookup_insert_ne, Hd in Hsame by done.
      rewrite lookup_insert_ne by done. destruct (h' !! b) as [e|]; [|done]. exists e.
      rewrite Hsame. done.
Qed.

Lemma allocate_spec (g : pid_allocator) :
  pid_wf g → g_cleanup_counter g ≤ 0 → g_next_pid g < INT_MAX →
  ∃ g' a, ios_pid_allocate g true = Ret (Some (g', Some a)) ∧ pid_wf g' ∧ allocated g g' a.
Proof.
  intros (B & F & Hi) Hcl Hlt. destruct F as [|a F].
  - by eapply allocate_new.
  - destruct (allocate_reuse g B F a Hi Hcl) as (g' & ? & ? & ?). eauto.
Qed.

(** allocation gives a context nobody else has: its number is not the
    number of any live process, it has exactly one reference and no
    environment, and the live processes are the old ones and the new one. *)
Theorem pid_allocate_unique (g : pid_allocator) :
  pid_wf g → g_cleanup_counter g ≤ 0 → g_next_pid g < INT_MAX →
  ∃ g' a, ios_pid_allocate g true = Ret (Some (g', Some a)) ∧ pid_wf g' ∧ allocated g g' a.
Proof. apply allocate_spec. Qed.

Definition pid_start : pid_allocator := ios_pid_allocator_init g_zero.

Lemma pid_start_wf : pid_wf pid_start.
Proof. by apply inv_init. Qed.

Lemma pid_allocate_unique_witness :
  ∃ g a, ios_pid_allocate pid_start true = Ret (Some (g, Some a)) ∧ pid_wf g ∧
    allocated pid_start g a.
Proof. apply pid_allocate_unique; [exact pid_start_wf|by vm_compute..]. Defined.

(** look-up by number finds the live process with that number, if there
    is one, and takes a reference; otherwise it answers [NULL] and changes
    nothing.  The walk along the bucket always ends. *)
Theorem pid_lookup_exact (g : pid_allocator) (pid : Z) :
  pid_wf g → (∀ a c, g_heap g !! a = Some c → c_ref_count c < INT_MAX) →
  ∃ g' o, ios_pid_lookup g pid = Ret (g', o) ∧ pid_wf g' ∧
  match o with
  | Some a => live g pid a ∧ (∀ b, live g pid b → b = a) ∧
      ∃ c c', g_heap g !! a = Some c ∧ g_heap g' !! a = Some c' ∧
              c_ref_count c' = c_ref_count c + 1
  | None => g' = g ∧ ∀ a, ¬ live g pid a
  end.
Proof.
  intros (B & F & Hi) Href. destruct (lookup_spec g B F Hi pid Href) as (g' & o & Hl & Hi' & Ho).
  exists g', o. split; [done|]. split; [by exists B, F|]. destruct o as [a|]; [|done].
  destruct Ho as [(c & Hc & Hal & Hp) Hrest]. split_and!; [by exists c| |done].
  intros b (d & Hd & _ & Hdp). eapply (pi_pids _ _ _ Hi); [done..|congruence].
Qed.

Lemma pid_lookup_exact_witness :
  ∃ g g' o, ios_pid_allocate pid_start true = Ret (Some (g, Some 0%nat)) ∧
    ios_pid_lookup g 100 = Ret (g', o) ∧ pid_wf g'.
Proof.
  destruct (allocate_spec pid_start pid_start_wf) as (g & a & Hal & Hwf & _); [by vm_compute..|].
  destruct (pid_lookup_exact g 100 Hwf) as (g' & o & Hl & Hwf' & _).
  - assert (map_Forall (λ _ c, c_ref_count c < INT_MAX) (g_heap g)) as Hm; [|exact Hm].
    apply (bool_decide_unpack _). vm_compute in Hal. simplify_eq. by vm_compute.
  - exists g, g', o. vm_compute in Hal. by simplify_eq.
Defined.

(** release of a live process drops one reference; the last one takes
    the context out of its bucket, frees its environment and puts it on the
    free list, where the next allocation finds it; the other processes are
    untouched. *)
Theorem pid_release_spec (g : pid_allocator) (a : addr) (c : ios_pid_context) :
  pid_wf g → g_heap g !! a = Some c → c_is_allocated c = true → c_ref_count c ≤ INT_MAX →
  (∀ env, c_environment c = Some env → c_num_variables_set c ≤ zlen env) →
  ∃ g', ios_pid_release g (Some a) = Ret g' ∧ pid_wf g' ∧
  if bool_decide (1 < c_ref_count c) then
    g_heap g' = <[a := c_set_ref c (c_ref_count c - 1) true]> (g_heap g) ∧
    ∀ pid b, live g' pid b ↔ live g pid b
  else
    g_free_head g' = Some a ∧ ∀ pid b, live g' pid b ↔ live g pid b ∧ b ≠ a.
Proof.
  intros (B & F & Hi) Hc Hal Hr Henv. case_bool_decide as Hgt.
  - unfold ios_pid_release. rewrite (deref_some _ _ _ Hc). simpl.
    rewrite bool_decide_eq_true_2, Hal by done. nowrap. eexists. split; [done|]. split_and!.
    + exists B, F. eapply inv_update; try done. simpl. lia.
    + done.
    + intros pid b. erewrite (live_insert g a); [|reflexivity|done|].
      * simpl. split; [|by left]. intros [H|[-> ->]]; [done|]. by exists c.
      * intros p (d & ? & _ & <-). by simplify_eq.
  - by eapply release_last; [|done..|lia|].
Qed.

Lemma pid_release_spec_witness :
  ∃ g c g', ios_pid_allocate pid_start true = Ret (Some (g, Some 0%nat)) ∧
    g_heap g !! 0%nat = Some c ∧ ios_pid_release g (Some 0%nat) = Ret g' ∧ pid_wf g' ∧
    ios_pid_get_stats g' = (1, 0, 1).
Proof.
  destruct (allocate_spec pid_start pid_start_wf) as (g & a & Hal & Hwf & _); [by vm_compute..|].
  assert (a = 0%nat) as -> by (vm_compute in Hal; by simplify_eq).
  destruct (g_heap g !! 0%nat) as [c|] eqn:Hc;
    [|exfalso; vm_compute in Hal; simplify_eq; by vm_compute in Hc].
  destruct (pid_release_spec g 0%nat c Hwf Hc) as (g' & Hr & Hwf' & _).
  - vm_compute in Hal. simplify_eq. vm_compute in Hc. by simplify_eq.
  - vm_compute in Hal. simplify_eq. vm_compute in Hc. simplify_eq. by vm_compute.
  - intros env He. vm_compute in Hal. simplify_eq. vm_compute in Hc. by simplify_eq.
  - exists g, c, g'. split_and!; try done. vm_compute in Hal. simplify_eq.
    vm_compute in Hr. by simplify_eq.
Defined.

(** A process that is created and released at once. *)
Definition after_release (dir : option string) : outcome pid_allocator :=
  r ← ios_pid_allocate pid_start true;
  match r with
  | Some (g1, a) => g2 ← ios_pid_set_previous_dir g1 a dir; ios_pid_release g2 a
  | None => Ret pid_start
  end.

(** A context that is reused keeps the previous directory (and the parent) of
    its former owner. *)
Theorem pid_reuse_keeps_directory :
  (g ← after_release (Some "/private"%string);
   r ← ios_pid_allocate g true;
   match r with
   | Some (g', a) => ios_pid_get_previous_dir g' a
   | None => Ret None
   end) = Ret (Some "/private"%string).
Proof. by vm_compute. Qed.

(** After [ios_pid_allocator_shutdown] the free list still points to freed
    contexts and [pthread_once] does not initialise again: the next
    allocation dereferences freed memory. *)
Theorem pid_allocate_after_shutdown :
  defined (g ← after_release None; ios_pid_allocator_shutdown g) ∧
  (g ← after_release None; g' ← ios_pid_allocator_shutdown g; ios_pid_allocate g' true)
  = Undef UseAfterFree.
Proof. split; [|by vm_compute]. eexists. by vm_compute. Qed.
