(* ===== verification/FreeList.v ===== *)
(** * The lock-free free list of the allocator ([src/ios_pid_allocator.c])

    [pid_allocator_pop_free_list] and [pid_allocator_push_free_list] split at
    their atomic operations, for any number of threads: a load of the head, the
    read or write of [next_free], the compare-and-swap (which may fail
    spuriously), and the reset of the popped context.
    - Theorems: with at most one thread popping at a time no context ever has
      two owners and none is lost; with two popping threads the
      compare-and-swap can succeed on a stale successor and one context is
      handed to two owners. *)

From S2P Require Import Prelude.

Abbreviation addr := nat (only parsing).

(** A thread between two atomic operations. *)
Inductive fl_thread : Set :=
  | FIdle
  | FPopLoaded (head : addr)                       (* [head] loaded *)
  | FPopNext (head : addr) (next : option addr)    (* [head->next_free] read *)
  | FPopWon (head : addr)                          (* the swap succeeded *)
  | FPushLoaded (ctx : addr) (old_head : option addr)
  | FPushReady (ctx : addr) (old_head : option addr). (* [ctx->next_free] written *)

(** [f_owned] are the contexts that callers hold. *)
Record free_list := FreeList {
  f_head : option addr;
  f_next : gmap addr (option addr);
  f_threads : list fl_thread;
  f_owned : list addr }.

Inductive fl_event : Set :=
  | EvPop (i : nat) | EvPopRead (i : nat) | EvPopCas (i : nat) (spurious : bool)
  | EvPopReset (i : nat)
  | EvPush (i : nat) (ctx : addr) | EvPushLink (i : nat) | EvPushCas (i : nat) (spurious : bool).

Definition f_become (s : free_list) (i : nat) (t : fl_thread) : free_list :=
  FreeList (f_head s) (f_next s) (<[i := t]> (f_threads s)) (f_owned s).
Definition f_set_head (s : free_list) (h : option addr) : free_list :=
  FreeList h (f_next s) (f_threads s) (f_owned s).
Definition f_set_next (s : free_list) (a : addr) (n : option addr) : free_list :=
  FreeList (f_head s) (<[a := n]> (f_next s)) (f_threads s) (f_owned s).
Definition f_set_owned (s : free_list) (l : list addr) : free_list :=
  FreeList (f_head s) (f_next s) (f_threads s) l.

(** The loop head of [pid_allocator_pop_free_list]: [NULL] ends it. *)
Definition pop_load (s : free_list) (i : nat) : free_list :=
  match f_head s with
  | None => f_become s i FIdle
  | Some h => f_become s i (FPopLoaded h)
  end.

Definition remove1 (a : addr) (l : list addr) : list addr :=
  match list_find (λ x, x = a) l with Some (k, _) => delete k l | None => l end.

Definition stack_step (ev : fl_event) (s : free_list) : option free_list :=
  match ev with
  | EvPop i =>
      match f_threads s !! i with Some FIdle => Some (pop_load s i) | _ => None end
  | EvPopRead i =>
      match f_threads s !! i with
      | Some (FPopLoaded h) => n ← f_next s !! h; Some (f_become s i (FPopNext h n))
      | _ => None
      end
  | EvPopCas i spurious =>
      match f_threads s !! i with
      | Some (FPopNext h n) =>
          if bool_decide (f_head s = Some h) && negb spurious
          then Some (f_become (f_set_head s n) i (FPopWon h))
          else Some (pop_load s i)
      | _ => None
      end
  | EvPopReset i =>
      match f_threads s !! i with
      | Some (FPopWon h) =>
          Some (f_become (f_set_owned (f_set_next s h None) (h :: f_owned s)) i FIdle)
      | _ => None
      end
  | EvPush i a =>
      match f_threads s !! i with
      | Some FIdle =>
          if bool_decide (a ∈ f_owned s)
          then Some (f_become (f_set_owned s (remove1 a (f_owned s))) i (FPushLoaded a (f_head s)))
          else None
      | _ => None
      end
  | EvPushLink i =>
      match f_threads s !! i with
      | Some (FPushLoaded a old) => Some (f_become (f_set_next s a old) i (FPushReady a old))
      | _ => None
      end
  | EvPushCas i spurious =>
      match f_threads s !! i with
      | Some (FPushReady a old) =>
          if bool_decide (f_head s = old) && negb spurious
          then Some (f_become (f_set_head s (Some a)) i FIdle)
          else Some (f_become s i (FPushLoaded a (f_head s)))
      | _ => None
      end
  end.

Definition popping (t : fl_thread) : nat :=
  match t with FPopLoaded _ | FPopNext _ _ => 1 | _ => 0 end.

(** The same system when the callers serialise their allocations. *)
Definition stack_step1 (ev : fl_event) (s : free_list) : option free_list :=
  match ev with
  | EvPop _ =>
      if bool_decide (sum_list_with popping (f_threads s) = 0) then stack_step ev s else None
  | _ => stack_step ev s
  end.

(** At the start the callers hold all contexts. *)
Definition fl_init (s : free_list) : Prop :=
  f_head s = None ∧ NoDup (f_owned s) ∧ (∀ a, a ∈ f_owned s → is_Some (f_next s !! a)) ∧
  Forall (λ t, t = FIdle) (f_threads s).

(** ** The invariant *)

Fixpoint links (next : gmap addr (option addr)) (p : option addr) (l : list addr) : Prop :=
  match l with
  | [] => p = None
  | a :: l => p = Some a ∧ ∃ n, next !! a = Some n ∧ links next n l
  end.

Definition occ (a : addr) (l : list addr) : nat :=
  sum_list_with (λ x, if decide (x = a) then 1 else 0) l.
Definition in_flight (a : addr) (t : fl_thread) : nat :=
  match t with
  | FPopWon b | FPushLoaded b _ | FPushReady b _ => if decide (b = a) then 1 else 0
  | _ => 0
  end.
Definition flying (s : free_list) (a : addr) : nat := sum_list_with (in_flight a) (f_threads s).

Definition pop_ok (s : free_list) (S : list addr) (t : fl_thread) : Prop :=
  match t with
  | FPopLoaded h => h ∈ S
  | FPopNext h n => h ∈ S ∧ f_next s !! h = Some n
  | FPushReady a old => f_next s !! a = Some old
  | _ => True
  end.

(** [St] is the stack from the head down. *)
Record fl_inv (s : free_list) (St : list addr) : Prop := {
  fi_links : links (f_next s) (f_head s) St;
  fi_once : ∀ a, occ a St + occ a (f_owned s) + flying s a ≤ 1;
  fi_pop : ∀ i t, f_threads s !! i = Some t → pop_ok s St t;
  fi_one : sum_list_with popping (f_threads s) ≤ 1;
  fi_next : ∀ a, 0 < occ a (f_owned s) + flying s a → is_Some (f_next s !! a) }.

Lemma occ_pos a l : a ∈ l ↔ 0 < occ a l.
Proof.
  unfold occ. induction l as [|b l IH]; simpl.
  - split; [by intros ?%not_elem_of_nil|lia].
  - rewrite elem_of_cons, IH. case_decide as E; subst; [split; [lia|intros; by left]|].
    split; [intros [->|?]; [done|lia]|intros; right; lia].
Qed.

Lemma occ_cons a b l : occ a (b :: l) = (if decide (b = a) then 1 else 0) + occ a l.
Proof. done. Qed.

Lemma occ_remove1 a b l : a ∈ l → occ b (remove1 a l) + (if decide (a = b) then 1 else 0) = occ b l.
Proof.
  intros Ha. unfold remove1. destruct (list_find (λ x, x = a) l) as [[k x]|] eqn:E.
  - apply list_find_Some in E as (Hk & -> & _). rewrite (delete_take_drop l k).
    rewrite <- (take_drop_middle l k a Hk) at 3. unfold occ. rewrite !sum_list_with_app. simpl. lia.
  - exfalso. apply list_find_None in E. apply list_elem_of_lookup in Ha as [k Hk]. by apply (Forall_lookup_1 _ _ _ _ E Hk).
Qed.

Lemma links_insert_out next a n p l : a ∉ l → links next p l → links (<[a := n]> next) p l.
Proof.
  revert p. induction l as [|b l IH]; intros p Ha; simpl; [done|].
  apply not_elem_of_cons in Ha as [? ?]. intros [-> (m & Hm & Hl)].
  split; [done|]. exists m. rewrite lookup_insert_ne by done. auto.
Qed.

Lemma become_sum (s : free_list) i t t' f :
  f_threads s !! i = Some t →
  sum_list_with f (f_threads (f_become s i t')) + f t = sum_list_with f (f_threads s) + f t'.
Proof. apply sum_list_with_insert. Qed.

(** A thread changes its own state only; the stack keeps its members. *)
Lemma inv_become s St St' i t t' head next owned :
  fl_inv s St → f_threads s !! i = Some t →
  links next head St' →
  (∀ a, occ a St' + occ a owned + in_flight a t'
        = occ a St + occ a (f_owned s) + in_flight a t) →
  popping t' ≤ popping t ∨ sum_list_with popping (f_threads s) = 0 →
  pop_ok (FreeList head next (<[i := t']> (f_threads s)) owned) St' t' →
  (∀ j u, i ≠ j → f_threads s !! j = Some u → pop_ok s St u →
     pop_ok (FreeList head next (<[i := t']> (f_threads s)) owned) St' u) →
  (∀ a, is_Some (f_next s !! a) → is_Some (next !! a)) →
  (∀ a, 0 < occ a owned + in_flight a t' → is_Some (next !! a)) →
  fl_inv (FreeList head next (<[i := t']> (f_threads s)) owned) St'.
Proof.
  intros [Hl Ho Hp H1 Hn] Ht Hlinks Hocc Hpop Hown Hoth Hmon Hnew.
  assert (∀ a, sum_list_with (in_flight a) (<[i := t']> (f_threads s)) + in_flight a t
    = flying s a + in_flight a t') as Hf by (intros a; by apply (sum_list_with_insert (in_flight a))).
  assert (∀ a, in_flight a t ≤ flying s a) as Hle
    by (intros a; by apply (sum_list_with_lookup (in_flight a)) in Ht).
  pose proof (sum_list_with_insert popping _ i t t' Ht) as Hs.
  assert (popping t' ≤ 1) by (destruct t'; simpl; lia).
  split; simpl; try done.
  - intros a. unfold flying. simpl. specialize (Ho a). specialize (Hf a). specialize (Hocc a).
    specialize (Hle a). lia.
  - intros j u. destruct (decide (i = j)) as [<-|Hne].
    + rewrite list_lookup_insert_eq by (by eapply lookup_lt_Some). by intros [= <-].
    + rewrite list_lookup_insert_ne by done. intros Hu. eapply Hoth; eauto.
  - lia.
  - intros a Ha. destruct (decide (0 < occ a owned + in_flight a t')) as [|Hz]; [auto|].
    unfold flying in Ha. simpl in Ha. apply Hmon, Hn. specialize (Hf a). specialize (Hle a). lia.
Qed.

(** No other thread is popping while one is. *)
Lemma one_popper s i j t u :
  sum_list_with popping (f_threads s) ≤ 1 → f_threads s !! i = Some t →
  f_threads s !! j = Some u → i ≠ j → popping t = 1 → popping u = 0.
Proof.
  intros H Hi Hj Hne Ht.
  pose proof (sum_list_with_insert popping (f_threads s) i t FIdle Hi) as H1. simpl in H1.
  assert (<[i := FIdle]> (f_threads s) !! j = Some u) as Hj'
    by (by rewrite list_lookup_insert_ne).
  pose proof (sum_list_with_lookup popping _ _ _ Hj') as H2. lia.
Qed.

Lemma pop_load_inv s St i t :
  fl_inv s St → f_threads s !! i = Some t → (∀ a, in_flight a t = 0) →
  popping t = 1 ∨ sum_list_with popping (f_threads s) = 0 →
  fl_inv (pop_load s i) St.
Proof.
  intros Hi Ht Hfl Hp. unfold pop_load. destruct (f_head s) as [h|] eqn:Eh.
  - eapply (inv_become s St St i t (FPopLoaded h)); try done.
    + apply Hi.
    + intros a. rewrite Hfl. done.
    + destruct Hp; [left; simpl; lia|by right].
    + simpl. pose proof (fi_links _ _ Hi) as Hl. rewrite Eh in Hl. destruct St as [|b St]; [done|].
      destruct Hl as [[= ->] _]. by left.
    + intros a. simpl. intros H. apply (fi_next _ _ Hi). lia.
  - eapply (inv_become s St St i t FIdle); try done.
    + apply Hi.
    + intros a. rewrite Hfl. done.
    + left. simpl. lia.
    + intros a. simpl. intros H. apply (fi_next _ _ Hi). lia.
Qed.

Lemma stack_step1_inv ev s s' St :
  fl_inv s St → stack_step1 ev s = Some s' → ∃ St', fl_inv s' St'.
Proof.
  intros Hi Hs. assert (match ev with EvPop _ => sum_list_with popping (f_threads s) = 0 | _ => True end
    ∧ stack_step ev s = Some s') as [Hz Hstep].
  { destruct ev; simpl in *; try done. case_bool_decide; done. }
  clear Hs. destruct ev as [i|i|i sp|i|i a|i|i sp]; simpl in Hstep;
    destruct (f_threads s !! i) as [[|h|h n|h|b old|b old]|] eqn:Ht; try done.
  - (* load *) simplify_eq. exists St. eapply pop_load_inv; eauto.
  - (* read *) destruct (f_next s !! h) as [n|] eqn:En; simplify_eq/=. exists St.
    eapply (inv_become s St St i _ (FPopNext h n)); try done.
    + apply Hi.
    + by left.
    + simpl. split; [|done]. exact (fi_pop _ _ Hi _ _ Ht).
    + intros a. simpl. intros H. apply (fi_next _ _ Hi). lia.
  - (* swap *) destruct (bool_decide (f_head s = Some h) && negb sp) eqn:E; simplify_eq.
    2: { exists St. eapply pop_load_inv; eauto. }
    apply andb_true_iff in E as [E _]. apply bool_decide_eq_true in E.
    pose proof (fi_links _ _ Hi) as Hl. rewrite E in Hl. destruct St as [|x St]; [done|].
    destruct Hl as [[= <-] (m & Hm & Hl)]. destruct (fi_pop _ _ Hi _ _ Ht) as [_ Hn].
    assert (m = n) as -> by congruence. exists St.
    eapply (inv_become s (h :: St) St i _ (FPopWon h)); try done.
    + intros a. unfold occ. simpl. lia.
    + left. simpl. lia.
    + intros j u Hne Hu Hok. pose proof (one_popper s i j _ u (fi_one _ _ Hi) Ht Hu Hne eq_refl).
      destruct u; simpl in *; try done; lia.
    + intros a. simpl. intros Ha. destruct (decide (h = a)) as [->|]; [by rewrite Hm|].
      apply (fi_next _ _ Hi). lia.
  - (* reset *) simplify_eq. exists St. pose proof (fi_once _ _ Hi) as Ho.
    pose proof (sum_list_with_lookup (in_flight h) _ _ _ Ht) as Hfl. simpl in Hfl.
    rewrite decide_True in Hfl by done.
    assert (occ h St = 0) as HhS by (specialize (Ho h); unfold flying in Ho; lia).
    eapply (inv_become s St St i _ FIdle); try done.
    + apply links_insert_out; [|apply Hi]. rewrite occ_pos. lia.
    + intros a. unfold occ. simpl. lia.
    + left. simpl. lia.
    + intros j u Hne Hu Hok. destruct u; simpl in *; try done.
      * destruct Hok as [Hin Hx]. split; [done|]. rewrite lookup_insert_ne; [done|].
        intros ->. apply occ_pos in Hin. lia.
      * rewrite lookup_insert_ne; [done|]. intros <-.
        pose proof (sum_list_with_insert (in_flight h) _ i _ FIdle Ht) as H1. simpl in H1.
        rewrite decide_True in H1 by done.
        assert (<[i := FIdle]> (f_threads s) !! j = Some (FPushReady h old_head)) as Hj'
          by (by rewrite list_lookup_insert_ne).
        pose proof (sum_list_with_lookup (in_flight h) _ _ _ Hj') as H2. simpl in H2.
        rewrite decide_True in H2 by done. specialize (Ho h). unfold flying in Ho. lia.
    + intros a Ha. simpl. destruct (decide (h = a)) as [->|]; [rewrite lookup_insert_eq; eauto|].
      by rewrite lookup_insert_ne.
    + intros a. unfold occ. simpl. intros Ha. destruct (decide (h = a)) as [->|].
      * rewrite lookup_insert_eq. eauto.
      * rewrite lookup_insert_ne by done. apply (fi_next _ _ Hi). unfold occ. lia.
  - (* push: load *) case_bool_decide as Ha; simplify_eq. exists St.
    eapply (inv_become s St St i _ (FPushLoaded a (f_head s))); try done.
    + apply Hi.
    + intros b. simpl. pose proof (occ_remove1 a b _ Ha). lia.
    + by left.
    + intros b. simpl. intros Hb. apply (fi_next _ _ Hi). pose proof (occ_remove1 a b _ Ha). lia.
  - (* push: link *) simplify_eq. exists St. pose proof (fi_once _ _ Hi) as Ho.
    pose proof (sum_list_with_lookup (in_flight b) _ _ _ Ht) as Hfl. simpl in Hfl.
    rewrite decide_True in Hfl by done.
    assert (occ b St = 0) as HbS by (specialize (Ho b); unfold flying in Ho; lia).
    eapply (inv_become s St St i _ (FPushReady b old)); try done.
    + apply links_insert_out; [|apply Hi]. rewrite occ_pos. lia.
    + by left.
    + simpl. by rewrite lookup_insert_eq.
    + intros j u Hne Hu Hok. destruct u; simpl in *; try done.
      * destruct Hok as [Hin Hx]. split; [done|]. rewrite lookup_insert_ne; [done|].
        intros ->. apply occ_pos in Hin. lia.
      * rewrite lookup_insert_ne; [done|]. intros <-.
        pose proof (sum_list_with_insert (in_flight b) _ i _ FIdle Ht) as H1. simpl in H1.
        rewrite decide_True in H1 by done.
        assert (<[i := FIdle]> (f_threads s) !! j = Some (FPushReady b old_head)) as Hj'
          by (by rewrite list_lookup_insert_ne).
        pose proof (sum_list_with_lookup (in_flight b) _ _ _ Hj') as H2. simpl in H2.
        rewrite decide_True in H2 by done. specialize (Ho b). unfold flying in Ho. lia.
    + intros a Ha. simpl. destruct (decide (b = a)) as [->|]; [rewrite lookup_insert_eq; eauto|].
      by rewrite lookup_insert_ne.
    + intros a. simpl. intros Ha. destruct (decide (b = a)) as [->|].
      * rewrite lookup_insert_eq. eauto.
      * rewrite lookup_insert_ne by done. apply (fi_next _ _ Hi). lia.
  - (* push: swap *) destruct (bool_decide (f_head s = old) && negb sp) eqn:E; simplify_eq.
    + apply andb_true_iff in E as [E _]. apply bool_decide_eq_true in E. exists (b :: St).
      eapply (inv_become s St (b :: St) i _ FIdle); try done.
      * split; [done|]. exists old. split; [exact (fi_pop _ _ Hi _ _ Ht)|]. rewrite <- E. apply Hi.
      * intros a. unfold occ. simpl. lia.
      * by left.
      * intros j u Hne Hu Hok. destruct u; simpl in *; try done; [by right|].
        destruct Hok. split; [by right|done].
      * intros a. simpl. intros Ha. apply (fi_next _ _ Hi). lia.
    + exists St. eapply (inv_become s St St i _ (FPushLoaded b (f_head s))); try done.
      * apply Hi.
      * by left.
      * intros a. simpl. intros Ha. apply (fi_next _ _ Hi).
        pose proof (sum_list_with_lookup (in_flight a) _ _ _ Ht) as Hfl. simpl in Hfl.
        unfold flying. lia.
Qed.

Lemma nodup_occ l a : NoDup l → occ a l ≤ 1.
Proof.
  induction l as [|b l IH]; [unfold occ; simpl; lia|].
  intros [Hb Hnd]%list.NoDup_cons. specialize (IH Hnd). rewrite occ_cons.
  case_decide as E; [|lia]. subst. rewrite occ_pos in Hb. lia.
Qed.

Lemma fl_init_inv s : fl_init s → fl_inv s [].
Proof.
  intros (Hh & Hnd & Hn & Ht).
  assert (∀ f, (f FIdle = 0) → sum_list_with f (f_threads s) = 0) as Hz.
  { intros f Hf. induction Ht as [|t l -> _ IH]; simpl; [done|]. by rewrite Hf, IH. }
  assert (∀ a, flying s a = 0) as Hfl by (intros a; by apply Hz).
  split; simpl.
  - by rewrite Hh.
  - intros a. rewrite Hfl. pose proof (nodup_occ _ a Hnd). change (occ a []) with 0. lia.
  - intros i t Hi. rewrite Forall_lookup in Ht. by rewrite (Ht _ _ Hi).
  - rewrite Hz by done. lia.
  - intros a. rewrite Hfl, Nat.add_0_r. intros Ha. apply Hn. by apply occ_pos.
Qed.

Lemma occ_nodup l : (∀ a, occ a l ≤ 1) → NoDup l.
Proof.
  induction l as [|b l IH]; intros H; [apply NoDup_nil_2|]. apply list.NoDup_cons. split.
  - rewrite occ_pos. specialize (H b). rewrite occ_cons, decide_True in H by done. lia.
  - apply IH. intros a. specialize (H a). rewrite occ_cons in H. lia.
Qed.

(** with one allocating thread at a time the lock-free list is a stack
    that neither loses nor duplicates contexts: whatever the pushing threads
    do, no context has two owners, and none is owned and free at once. *)
Theorem free_list_single_popper (s : free_list) :
  reachable stack_step1 fl_init s →
  NoDup (f_owned s) ∧
  ∃ St, links (f_next s) (f_head s) St ∧ NoDup St ∧ ∀ a, a ∈ St → a ∉ f_owned s.
Proof.
  intros Hr. assert (∃ St, fl_inv s St) as [St [Hl Ho _ _ _]].
  { revert s Hr. apply (reachable_invariant _ _ (λ s, ∃ St, fl_inv s St)).
    - intros s Hs. exists []. by apply fl_init_inv.
    - intros ev s s' [St Hi] Hs. by eapply stack_step1_inv. }
  split.
  - apply occ_nodup. intros a. specialize (Ho a). lia.
  - exists St. split_and!; [done| |].
    + apply occ_nodup. intros a. specialize (Ho a). lia.
    + intros a H1 H2. apply occ_pos in H1, H2. specialize (Ho a). lia.
Qed.

(** Two contexts, held by their callers; [n] threads. *)
Definition two_contexts (n : nat) : free_list :=
  FreeList None (<[0 := None]> (<[1 := None]> ∅)) (replicate n FIdle) [0; 1].
Definition push_one (i a : nat) : list fl_event := [EvPush i a; EvPushLink i; EvPushCas i false].
Definition pop_one (i : nat) : list fl_event :=
  [EvPop i; EvPopRead i; EvPopCas i false; EvPopReset i].

Lemma two_contexts_init n : fl_init (two_contexts n).
Proof.
  split; [done|]. split; [|split].
  - by apply (bool_decide_unpack _); vm_compute.
  - simpl. intros a [->|[->|?%not_elem_of_nil]%elem_of_cons]%elem_of_cons; [by vm_compute; eauto..|done].
  - apply Forall_replicate. done.
Qed.

Lemma free_list_single_popper_witness :
  ∃ s, run stack_step1 (push_one 0 1 ++ push_one 1 0 ++ pop_one 0) (two_contexts 2) = Some s ∧
    f_owned s = [0] ∧ f_head s = Some 1 ∧ NoDup (f_owned s).
Proof.
  destruct (run stack_step1 (push_one 0 1 ++ push_one 1 0 ++ pop_one 0) (two_contexts 2))
    as [s|] eqn:E; [|by vm_compute in E].
  exists s. split; [done|]. split; [by vm_compute in E; simplify_eq|].
  split; [by vm_compute in E; simplify_eq|].
  apply (free_list_single_popper s). eapply run_reachable; [|exact E].
  apply reachable_init, two_contexts_init.
Defined.

(** Two allocating threads: the first reads the head and its successor; the
    second pops both contexts and pushes the first one back; the swap of the
    first thread succeeds and makes the second context, which has an owner,
    the head of the list again. *)
Definition aba_events : list fl_event :=
  push_one 0 1 ++ push_one 0 0 ++
  [EvPop 0; EvPopRead 0] ++ pop_one 1 ++ pop_one 1 ++ push_one 1 0 ++
  [EvPopCas 0 false; EvPopReset 0] ++ pop_one 1.

(** with two allocating threads the same context can be handed to two
    owners. *)
Theorem free_list_aba :
  ∃ s, run stack_step aba_events (two_contexts 2) = Some s ∧
    reachable stack_step fl_init s ∧ f_owned s = [1; 0; 1].
Proof.
  destruct (run stack_step aba_events (two_contexts 2)) as [s|] eqn:E; [|by vm_compute in E].
  exists s. split; [done|]. split; [|by vm_compute in E; simplify_eq].
  eapply run_reachable; [|exact E]. apply reachable_init, two_contexts_init.
Qed.
