(* ===== verification/EnvManager.v ===== *)
(** * The environment manager ([src/ios_env_manager.c])

    Every thread has an environment of its own: an array of [NAME=VALUE]
    strings that ends with [NULL], reached through thread-specific data and,
    for copies between threads, through a hash table keyed by thread.
    - [thread_env] is [thread_env_t]; a cell of the array is uninitialised
      memory, [NULL] or a string, so a missing terminator or a read past the
      variables is visible.  Memory is a map from addresses.
    - [env_manager] is the global state with the thread-specific data and the
      process environment; each operation takes the calling thread [self].
    - Strings are C strings: they hold no zero byte.
    - Theorems: the array operations refine a finite map from names to values,
      the array stays terminated and inside its capacity, a thread's changes
      are invisible to the others, a child starts with a copy of its parent. *)

From S2P Require Import Prelude.

Local Open Scope Z_scope.
Local Open Scope c_scope.

Definition ENV_HASH_SIZE : Z := 128.

Abbreviation addr := nat (only parsing).
Abbreviation tid := Z (only parsing).

(** ** Strings *)

Definition EQ : Ascii.ascii := Ascii.ascii_of_nat 61.

(** [s + n]. *)
Fixpoint sdrop (n : nat) (s : string) : string :=
  match n, s with
  | O, _ => s
  | S n, String.String _ s => sdrop n s
  | S _, EmptyString => EmptyString
  end.

(** [strchr(s, '=') != NULL]. *)
Fixpoint has_eq (s : string) : bool :=
  match s with
  | EmptyString => false
  | String.String c s => bool_decide (c = EQ) || has_eq s
  end.

(** [strncmp(s, name, strlen(name)) == 0 && s[strlen(name)] == '=']. *)
Fixpoint matches (s name : string) : bool :=
  match name, s with
  | EmptyString, String.String c _ => bool_decide (c = EQ)
  | EmptyString, EmptyString => false
  | String.String c name, String.String d s => bool_decide (c = d) && matches s name
  | String.String _ _, EmptyString => false
  end.

(** [snprintf(.., "%s=%s", name, value)]. *)
Definition entry (name value : string) : string :=
  String.append name (String.String EQ value).

(** ** Environments *)

(** [None]: uninitialised; [Some None]: [NULL]. *)
Abbreviation cell := (option (option string)) (only parsing).

Record thread_env := ThreadEnv {
  te_thread_id : tid;
  te_array : option (list cell);       (* [None] is [NULL] *)
  te_num_vars : Z;
  te_capacity : Z;
  te_is_copy_on_write : bool }.

Record env_manager := EnvManager {
  em_heap : gmap addr thread_env;
  em_next : addr;
  em_table : list (list (tid * addr)); (* the chains of [env_hash_table] *)
  em_tls : gmap tid addr;              (* thread-specific data *)
  em_once : bool;
  em_initialized : bool;
  em_total_thread_envs : Z;
  em_environ : list string }.          (* the process environment *)

Definition set_env (em : env_manager) (a : addr) (e : thread_env) : env_manager :=
  EnvManager (<[a := e]> (em_heap em)) (em_next em) (em_table em) (em_tls em) (em_once em)
    (em_initialized em) (em_total_thread_envs em) (em_environ em).
Definition set_table (em : env_manager) (i : nat) (l : list (tid * addr)) : env_manager :=
  EnvManager (em_heap em) (em_next em) (<[i := l]> (em_table em)) (em_tls em) (em_once em)
    (em_initialized em) (em_total_thread_envs em) (em_environ em).
Definition set_tls (em : env_manager) (tls : gmap tid addr) : env_manager :=
  EnvManager (em_heap em) (em_next em) (em_table em) tls (em_once em)
    (em_initialized em) (em_total_thread_envs em) (em_environ em).
Definition set_environ (em : env_manager) (l : list string) : env_manager :=
  EnvManager (em_heap em) (em_next em) (em_table em) (em_tls em) (em_once em)
    (em_initialized em) (em_total_thread_envs em) l.

Definition hash_tid (t : tid) : nat := Z.to_nat (wrapU 64 t `mod` ENV_HASH_SIZE).

Definition env_manager_init_once (em : env_manager) (key_ok : bool) : env_manager :=
  if key_ok then
    EnvManager (em_heap em) (em_next em) (replicate 128 []) (em_tls em) (em_once em) true 0
      (em_environ em)
  else em.

(** [pthread_once]. *)
Definition ios_env_manager_init (em : env_manager) (key_ok : bool) : env_manager :=
  if em_once em then em else
  let em1 := env_manager_init_once em key_ok in
  EnvManager (em_heap em1) (em_next em1) (em_table em1) (em_tls em1) true (em_initialized em1)
    (em_total_thread_envs em1) (em_environ em1).

Definition env_get_current (em : env_manager) (self : tid) : option addr :=
  if em_initialized em then em_tls em !! self else None.

Definition deref (em : env_manager) (a : addr) : outcome thread_env :=
  match em_heap em !! a with Some e => Ret e | None => Undef UseAfterFree end.

(** *** Array accesses *)

Definition array (e : thread_env) : outcome (list cell) :=
  match te_array e with Some l => Ret l | None => Undef NullDeref end.

(** [environ_array[i]], to be used as a string. *)
Definition read_str (e : thread_env) (i : nat) : outcome string :=
  l ← array e;
  match l !! i with
  | Some (Some (Some s)) => Ret s
  | Some (Some None) => Undef NullDeref
  | Some None => Undef Uninitialised
  | None => Undef OutOfBounds
  end.

(** [environ_array[i] = v]. *)
Definition write_cell (l : list cell) (i : nat) (v : option string) : outcome (list cell) :=
  if bool_decide (i < length l)%nat then Ret (<[i := Some v]> l) else Undef OutOfBounds.

(** [realloc] to [n] cells keeps the old ones. *)
Definition realloc_cells (l : list cell) (n : Z) : list cell :=
  ztake n l ++ replicate (Z.to_nat n - length l) None.

(** *** The functions *)

Definition env_create_empty (calloc_ok : bool) (self : tid) : option thread_env :=
  if calloc_ok then
    Some (ThreadEnv self (Some (replicate 17 (Some None))) 0 16 false)
  else None.

(** [env_free]: the [num_vars] strings and the array are freed. *)
Definition env_free (em : env_manager) (a : addr) : outcome env_manager :=
  e ← deref em a;
  Ret (EnvManager (delete a (em_heap em)) (em_next em) (em_table em) (em_tls em) (em_once em)
         (em_initialized em) (em_total_thread_envs em -i32 1) (em_environ em)).

(** [env_hash_lock] is usable between the initialisation and the shutdown. *)
Definition bucket (em : env_manager) (t : tid) : outcome (list (tid * addr)) :=
  if em_initialized em then
    match em_table em !! hash_tid t with Some l => Ret l | None => Undef OutOfBounds end
  else Undef LockMisuse.

Definition env_hash_insert (em : env_manager) (a : addr) : outcome env_manager :=
  e ← deref em a;
  l ← bucket em (te_thread_id e);
  Ret (set_table em (hash_tid (te_thread_id e)) ((te_thread_id e, a) :: l)).

Fixpoint remove_tid (l : list (tid * addr)) (t : tid) : list (tid * addr) :=
  match l with
  | [] => []
  | (u, a) :: l => if bool_decide (u = t) then l else (u, a) :: remove_tid l t
  end.

Definition env_hash_remove (em : env_manager) (t : tid) : outcome env_manager :=
  l ← bucket em t; Ret (set_table em (hash_tid t) (remove_tid l t)).

Fixpoint find_tid (l : list (tid * addr)) (t : tid) : option addr :=
  match l with
  | [] => None
  | (u, a) :: l => if bool_decide (u = t) then Some a else find_tid l t
  end.

Definition env_lookup_by_tid (em : env_manager) (t : tid) : outcome (option addr) :=
  l ← bucket em t; Ret (find_tid l t).

(** The loop of [env_find_var] over the [k] variables from [i] on. *)
Fixpoint find_from (k i : nat) (e : thread_env) (name : string) : outcome (option nat) :=
  match k with
  | O => Ret None
  | S k => s ← read_str e i; if matches s name then Ret (Some i) else find_from k (S i) e name
  end.

Definition env_find_var (e : thread_env) (name : string) : outcome (option nat) :=
  find_from (Z.to_nat (te_num_vars e)) 0 e name.

(** The copy loops: [environ_array[i] = strdup(src[i])], then the terminator. *)
Fixpoint copy_strings (src : list string) (i : nat) (l : list cell) : outcome (list cell) :=
  match src with
  | [] => Ret l
  | s :: src => l' ← write_cell l i (Some s); copy_strings src (S i) l'
  end.

Fixpoint read_strings (k i : nat) (e : thread_env) : outcome (list string) :=
  match k with
  | O => Ret []
  | S k => s ← read_str e i; ss ← read_strings k (S i) e; Ret (s :: ss)
  end.

(** Fill [e] with the strings [src], growing the array when it is too small. *)
Definition env_fill (e : thread_env) (src : list string) (cow : bool) : outcome thread_env :=
  l0 ← array e;
  let count := zlen src in
  let '(cap, l1) := if bool_decide (te_capacity e < count)
                    then (count + 8, realloc_cells l0 (count + 8 + 1)) else (te_capacity e, l0) in
  l2 ← copy_strings src 0 l1;
  l3 ← write_cell l2 (length src) None;
  Ret (ThreadEnv (te_thread_id e) (Some l3) count cap cow).

Definition add_env (em : env_manager) (e : thread_env) : env_manager * addr :=
  (EnvManager (<[em_next em := e]> (em_heap em)) (S (em_next em)) (em_table em) (em_tls em)
     (em_once em) (em_initialized em) (em_total_thread_envs em +i32 1) (em_environ em), em_next em).

(** The process environment or the parent's variables. *)
Definition env_fill_from (em : env_manager) (e : thread_env) (parent_tid : tid) : outcome thread_env :=
  if bool_decide (parent_tid ≠ 0) then
    o ← env_lookup_by_tid em parent_tid;
    match o with
    | None => Ret e
    | Some p =>
        pe ← deref em p;
        src ← read_strings (Z.to_nat (te_num_vars pe)) 0 pe;
        env_fill e src true
    end
  else env_fill e (em_environ em) false.

Definition ios_env_init_thread (em : env_manager) (self : tid) (key_ok calloc_ok : bool)
    (parent_tid : tid) : outcome env_manager :=
  let em0 := ios_env_manager_init em key_ok in
  match env_get_current em0 self with
  | Some _ => Ret em0
  | None =>
      match env_create_empty calloc_ok self with
      | None => Ret em0
      | Some e0 =>
          e ← env_fill_from em0 e0 parent_tid;
          let '(em1, a) := add_env em0 e in
          env_hash_insert (set_tls em1 (<[self := a]> (em_tls em1))) a
      end
  end.

Definition ios_env_cleanup_thread (em : env_manager) (self : tid) : env_manager :=
  match env_get_current em self with
  | Some _ => set_tls em (delete self (em_tls em))
  | None => em
  end.

(** What the thread library does when [self] exits: a thread-specific value
    that is not [NULL] is cleared and given to [env_thread_destructor]. *)
Definition env_thread_destructor (em : env_manager) (self : tid) (a : addr) : outcome env_manager :=
  em1 ← env_hash_remove em self; env_free em1 a.
Definition thread_exit (em : env_manager) (self : tid) : outcome env_manager :=
  match em_tls em !! self with
  | Some a => env_thread_destructor (set_tls em (delete self (em_tls em))) self a
  | None => Ret em
  end.

(** *** The C library on the process environment *)

Definition libc_getenv (l : list string) (name : string) : option string :=
  s ← head (filter (λ s, matches s name = true) l); Some (sdrop (S (String.length name)) s).
Definition libc_setenv (l : list string) (name value : string) (overwrite : bool) : list string :=
  match list_find (λ s, matches s name = true) l with
  | Some (i, _) => if overwrite then <[i := entry name value]> l else l
  | None => l ++ [entry name value]
  end.
Definition libc_unsetenv (l : list string) (name : string) : list string :=
  filter (λ s, matches s name = false) l.

(** *** Variables *)

Definition ios_env_getenv (em : env_manager) (self : tid) (name : option string)
    : outcome (option string) :=
  match name with
  | None | Some EmptyString => Ret None
  | Some name =>
      match env_get_current em self with
      | None => Ret (libc_getenv (em_environ em) name)
      | Some a =>
          e ← deref em a;
          idx ← env_find_var e name;
          match idx with
          | None => Ret None
          | Some i => s ← read_str e i; Ret (Some (sdrop (S (String.length name)) s))
          end
      end
  end.

Definition bad_name (name : option string) : bool :=
  match name with
  | None | Some EmptyString => true
  | Some n => has_eq n
  end.

(** The update of one environment: the new environment, the result and
    [errno].  [realloc_ok]: the growth of the array succeeds. *)
Definition setenv_in (e : thread_env) (name value : string) (overwrite realloc_ok : bool)
    : outcome (thread_env * Z * option errno) :=
  idx ← env_find_var e name;
  match idx with
  | Some i =>
      if overwrite then
        l ← array e;
        l' ← write_cell l i (Some (entry name value));
        Ret (ThreadEnv (te_thread_id e) (Some l') (te_num_vars e) (te_capacity e) false, 0, None)
      else Ret (e, 0, None)
  | None =>
      l ← array e;
      let grow := bool_decide (te_capacity e ≤ te_num_vars e) in
      let cap := if grow then te_capacity e * 2 else te_capacity e in
      if grow && negb realloc_ok then
        Ret (ThreadEnv (te_thread_id e) None (te_num_vars e) cap (te_is_copy_on_write e),
             -1, Some ENOMEM)
      else
        let l1 := if grow then realloc_cells l (cap + 1) else l in
        l2 ← write_cell l1 (Z.to_nat (te_num_vars e)) (Some (entry name value));
        let n := te_num_vars e + 1 in
        l3 ← write_cell l2 (Z.to_nat n) None;
        Ret (ThreadEnv (te_thread_id e) (Some l3) n cap false, 0, None)
  end.

Definition ios_env_setenv (em : env_manager) (self : tid) (name value : option string)
    (overwrite realloc_ok : bool) : outcome (env_manager * Z * option errno) :=
  if bad_name name then Ret (em, -1, Some EINVAL) else
  let name := default EmptyString name in
  let value := default EmptyString value in
  match env_get_current em self with
  | None => Ret (set_environ em (libc_setenv (em_environ em) name value overwrite), 0, None)
  | Some a =>
      e ← deref em a;
      '(e', r, err) ← setenv_in e name value overwrite realloc_ok;
      Ret (set_env em a e', r, err)
  end.

(** [for (i = idx; i < num_vars - 1; i++) a[i] = a[i + 1]]. *)
Fixpoint shift_down (k i : nat) (l : list cell) : outcome (list cell) :=
  match k with
  | O => Ret l
  | S k =>
      match l !! S i with
      | Some c => if bool_decide (i < length l)%nat then shift_down k (S i) (<[i := c]> l)
                  else Undef OutOfBounds
      | None => Undef OutOfBounds
      end
  end.

Definition unsetenv_in (e : thread_env) (name : string) : outcome thread_env :=
  idx ← env_find_var e name;
  match idx with
  | None => Ret e
  | Some i =>
      l ← array e;
      l1 ← shift_down (Z.to_nat (te_num_vars e - 1) - i) i l;
      let n := te_num_vars e - 1 in
      l2 ← write_cell l1 (Z.to_nat n) None;
      Ret (ThreadEnv (te_thread_id e) (Some l2) n (te_capacity e) false)
  end.

Definition ios_env_unsetenv (em : env_manager) (self : tid) (name : option string)
    : outcome (env_manager * Z * option errno) :=
  if bad_name name then Ret (em, -1, Some EINVAL) else
  let name := default EmptyString name in
  match env_get_current em self with
  | None => Ret (set_environ em (libc_unsetenv (em_environ em) name), 0, None)
  | Some a =>
      e ← deref em a;
      e' ← unsetenv_in e name;
      Ret (set_env em a e', 0, None)
  end.

(** The array itself, or the process environment with its terminator. *)
Definition ios_env_get_environ (em : env_manager) (self : tid) : outcome (option (list cell)) :=
  match env_get_current em self with
  | None => Ret (Some ((Some ∘ Some <$> em_environ em) ++ [Some None]))
  | Some a => e ← deref em a; Ret (te_array e)
  end.

(** Taking the write lock of an environment whose read lock one holds is
    undefined. *)
Definition ios_env_copy_from_thread (em : env_manager) (source_tid dest_tid : tid)
    : outcome (env_manager * Z * option errno) :=
  so ← env_lookup_by_tid em source_tid;
  d ← env_lookup_by_tid em dest_tid;
  match so, d with
  | Some sa, Some da =>
      if bool_decide (sa = da) then Undef LockMisuse else
      se ← deref em sa; de ← deref em da;
      src ← read_strings (Z.to_nat (te_num_vars se)) 0 se;
      de' ← env_fill de src true;
      Ret (set_env em da de', 0, None)
  | _, _ => Ret (em, -1, Some ESRCH)
  end.

(** *** Statistics and shutdown *)

Fixpoint count_vars (l : list (tid * addr)) (em : env_manager) : outcome Z :=
  match l with
  | [] => Ret 0
  | (_, a) :: l => e ← deref em a; n ← count_vars l em; Ret (te_num_vars e + n)
  end.

Definition ios_env_get_stats (em : env_manager) : outcome (Z * Z) :=
  if em_initialized em then
    n ← count_vars (mjoin (em_table em)) em; Ret (em_total_thread_envs em, n)
  else Undef LockMisuse.

Fixpoint free_all (l : list (tid * addr)) (em : env_manager) : outcome env_manager :=
  match l with
  | [] => Ret em
  | (_, a) :: l => em' ← env_free em a; free_all l em'
  end.

(** The thread-specific key is deleted without running destructors. *)
Definition ios_env_manager_shutdown (em : env_manager) : outcome env_manager :=
  if em_initialized em then
    em1 ← free_all (mjoin (em_table em)) em;
    Ret (EnvManager (em_heap em1) (em_next em1) (replicate 128 []) (em_tls em1) (em_once em1) false
           (em_total_thread_envs em1) (em_environ em1))
  else Ret em.

(** ** The array and the list of variables *)

(** [e] holds the strings [vars], then [NULL], then unused cells. *)
Definition rep (e : thread_env) (vars : list string) : Prop :=
  ∃ rest, te_array e = Some ((Some ∘ Some <$> vars) ++ Some None :: rest) ∧
    te_num_vars e = zlen vars ∧ te_capacity e = zlen vars + zlen rest ∧ 0 < te_capacity e.

Lemma rep_read e vars i s : rep e vars → vars !! i = Some s → read_str e i = Ret s.
Proof.
  intros (rest & Ha & _) Hi. unfold read_str, array. rewrite Ha. simpl.
  rewrite lookup_app_l by (rewrite length_fmap; by eapply lookup_lt_Some).
  by rewrite list_lookup_fmap, Hi.
Qed.

Lemma find_from_spec e vars name k i :
  rep e vars → (i + k = length vars)%nat →
  find_from k i e name
  = Ret ((λ x, (i + x.1)%nat) <$> list_find (λ s, matches s name = true) (drop i vars)).
Proof.
  intros Hr. revert i. induction k as [|k IH]; intros i Hk; simpl.
  - by rewrite drop_ge by lia.
  - destruct (lookup_lt_is_Some_2 vars i) as [s Hs]; [lia|].
    rewrite (rep_read e vars i s Hr Hs). simpl. rewrite (drop_S _ _ _ Hs). simpl.
    destruct (matches s name) eqn:Em.
    + rewrite decide_True by done. simpl. by rewrite Nat.add_0_r.
    + rewrite decide_False by congruence. rewrite IH by lia.
      destruct (list_find _ (drop (S i) vars)) as [[j x]|]; simpl; [|done]. do 2 f_equal. lia.
Qed.

Definition var_index (vars : list string) (name : string) : option nat :=
  fst <$> list_find (λ s, matches s name = true) vars.

Lemma env_find_var_spec e vars name :
  rep e vars → env_find_var e name = Ret (var_index vars name).
Proof.
  intros Hr. unfold env_find_var. pose proof Hr as (rest & _ & Hn & _).
  rewrite (find_from_spec e vars) by (done || (rewrite Hn; unfold zlen; lia)).
  rewrite drop_0. unfold var_index. by destruct (list_find _ vars) as [[j x]|].
Qed.

Lemma var_index_lt vars name i : var_index vars name = Some i → ∃ s, vars !! i = Some s ∧ matches s name = true.
Proof.
  unfold var_index. destruct (list_find _ vars) as [[j x]|] eqn:E; [|done]. intros [= <-].
  apply list_find_Some in E as (? & ? & _). eauto.
Qed.

Lemma write_cell_ok l i v : (i < length l)%nat → write_cell l i v = Ret (<[i := Some v]> l).
Proof. intros. unfold write_cell. by rewrite bool_decide_eq_true_2. Qed.

(** What [ios_env_setenv] makes of the variables. *)
Lemma setenv_in_spec e vars name value overwrite :
  rep e vars →
  ∃ e', setenv_in e name value overwrite true = Ret (e', 0, None) ∧
        rep e' (libc_setenv vars name value overwrite) ∧ te_thread_id e' = te_thread_id e.
Proof.
  intros Hr. unfold setenv_in, libc_setenv. rewrite (env_find_var_spec e vars) by done. simpl.
  pose proof Hr as (rest & Ha & Hn & Hc & Hpos).
  unfold var_index. destruct (list_find _ vars) as [[i x]|] eqn:E; simpl.
  - destruct overwrite; [|by exists e]. unfold array. rewrite Ha. simpl.
    apply list_find_Some in E as (Hi & _ & _). pose proof (lookup_lt_Some _ _ _ Hi) as Hlt.
    rewrite write_cell_ok by (rewrite length_app, length_fmap; lia). simpl.
    eexists. split; [done|]. split; [|done]. exists rest. simpl.
    rewrite insert_app_l by (by rewrite length_fmap). rewrite list_fmap_insert.
    unfold zlen in *. rewrite length_insert. done.
  - unfold array. rewrite Ha. simpl. rewrite andb_false_r. unfold zlen in *.
    set (cs := Some ∘ Some <$> vars). assert (length cs = length vars) as Hcs by apply length_fmap.
    set (l1 := if bool_decide (te_capacity e ≤ te_num_vars e)
               then realloc_cells (cs ++ Some None :: rest) (te_capacity e * 2 + 1)
               else cs ++ Some None :: rest).
    set (cap := if bool_decide (te_capacity e ≤ te_num_vars e) then te_capacity e * 2 else te_capacity e).
    assert (∃ c2 rest', l1 = cs ++ Some None :: c2 :: rest' ∧
              cap = Z.of_nat (length vars) + 1 + zlen rest') as (c2 & rest' & Hl1 & Hcap).
    { unfold l1, cap. case_bool_decide as Hg.
      - assert (rest = []) as -> by (apply nil_length_inv; lia).
        unfold realloc_cells, ztake. rewrite take_ge by (rewrite length_app; simpl; lia).
        rewrite length_app. simpl.
        destruct (Z.to_nat (te_capacity e * 2 + 1) - (length cs + 1))%nat as [|m] eqn:Em; [lia|].
        exists None, (replicate m None). simpl. rewrite <- app_assoc. split; [done|].
        unfold zlen. rewrite length_replicate. simpl in *. lia.
      - destruct rest as [|c2 rest']; [simpl in *; lia|]. exists c2, rest'. split; [done|].
        unfold zlen. simpl in *. lia. }
    replace (if bool_decide (te_capacity e ≤ te_num_vars e)
             then realloc_cells (cs ++ Some None :: rest) (cap + 1)
             else cs ++ Some None :: rest) with l1 by (unfold l1, cap; by destruct (bool_decide _)).
    rewrite Hl1, Hn, Nat2Z.id.
    rewrite write_cell_ok by (rewrite length_app; simpl; lia). simpl.
    replace (length vars) with (length cs + 0)%nat by lia. rewrite insert_app_r. simpl.
    rewrite write_cell_ok by (rewrite length_app; simpl; lia). simpl.
    replace (Z.to_nat (Z.of_nat (length cs + 0) + 1)) with (length cs + 1)%nat by lia.
    rewrite insert_app_r. simpl. eexists. split; [done|]. split; [|done].
    exists rest'. simpl. rewrite fmap_app, <- app_assoc. simpl. unfold zlen in *.
    rewrite length_app. simpl. split_and!; [done|lia|lia|lia].
Qed.

Lemma shift_down_spec k i (l : list cell) :
  (i + k < length l)%nat →
  shift_down k i l = Ret (take i l ++ take k (drop (S i) l) ++ drop (i + k) l).
Proof.
  revert i l. induction k as [|k IH]; intros i l Hlt; simpl.
  - by rewrite Nat.add_0_r, take_drop.
  - destruct (lookup_lt_is_Some_2 l (S i)) as [c Hc]; [lia|]. rewrite Hc.
    rewrite bool_decide_eq_true_2 by lia. rewrite IH by (rewrite length_insert; lia).
    f_equal. rewrite (drop_S l c (S i) Hc). simpl.
    rewrite drop_insert_lt by lia.
    replace (i + S k)%nat with (S i + k)%nat by lia.
    rewrite (drop_insert_lt l (S i + k)) by lia.
    assert (take (S i) (<[i := c]> l) = take i l ++ [c]) as ->.
    { rewrite (take_S_r _ _ c) by (apply list_lookup_insert_eq; lia).
      by rewrite take_insert_ge by lia. }
    by rewrite <- app_assoc.
Qed.

Lemma unsetenv_in_spec e vars name :
  rep e vars →
  ∃ e', unsetenv_in e name = Ret e' ∧ te_thread_id e' = te_thread_id e ∧
        rep e' (match var_index vars name with Some i => delete i vars | None => vars end).
Proof.
  intros Hr. unfold unsetenv_in. rewrite (env_find_var_spec e vars) by done. simpl.
  destruct (var_index vars name) as [i|] eqn:Ei; [|by exists e].
  apply var_index_lt in Ei as (s & Hs & _). pose proof (lookup_lt_Some _ _ _ Hs) as Hlt.
  pose proof Hr as (rest & Ha & Hn & Hc & Hpos). unfold array. rewrite Ha. simpl. unfold zlen in *.
  set (cs := Some ∘ Some <$> vars). assert (length cs = length vars) as Hcs by apply length_fmap.
  set (k := (Z.to_nat (te_num_vars e - 1) - i)%nat).
  assert (i + S k = length cs)%nat as Hik by lia.
  rewrite shift_down_spec by (rewrite length_app; simpl; lia). simpl.
  rewrite take_app_le, (drop_app_le cs _ (S i)), take_app_le by (rewrite ?length_drop; lia).
  rewrite (take_ge (drop (S i) cs)) by (rewrite length_drop; lia).
  rewrite (drop_app_le cs _ (i + k)) by lia.
  assert (∃ c, drop (i + k) cs = [c]) as [c Hdrop].
  { destruct (drop (i + k) cs) as [|c [|? ?]] eqn:Ed; [..|by eauto|];
      apply (f_equal length) in Ed; rewrite length_drop in Ed; simpl in Ed; lia. }
  rewrite Hdrop. rewrite app_assoc, <- delete_take_drop.
  assert (length (delete i cs) = i + k)%nat as Hld
    by (rewrite length_delete by (apply lookup_lt_is_Some; lia); lia).
  rewrite write_cell_ok by (rewrite length_app; simpl; lia). simpl.
  replace (Z.to_nat (te_num_vars e - 1)) with (length (delete i cs) + 0)%nat by lia.
  rewrite insert_app_r. simpl. eexists. split; [done|]. split; [done|].
  exists (Some None :: rest). simpl. unfold cs. rewrite list_fmap_delete.
  unfold zlen. rewrite length_delete by (by eexists). simpl. split_and!; [done|lia..].
Qed.

Lemma read_strings_spec e vars k i :
  rep e vars → (i + k = length vars)%nat → read_strings k i e = Ret (drop i vars).
Proof.
  intros Hr. revert i. induction k as [|k IH]; intros i Hk; simpl.
  - by rewrite drop_ge by lia.
  - destruct (lookup_lt_is_Some_2 vars i) as [s Hs]; [lia|].
    rewrite (rep_read e vars i s Hr Hs). simpl. rewrite IH by lia. simpl.
    by rewrite (drop_S _ _ _ Hs).
Qed.

Lemma copy_strings_spec src l1 l2 :
  (length src ≤ length l2)%nat →
  copy_strings src (length l1) (l1 ++ l2) = Ret (l1 ++ (Some ∘ Some <$> src) ++ drop (length src) l2).
Proof.
  revert l1 l2. induction src as [|s src IH]; intros l1 l2 Hlen; simpl.
  - by rewrite drop_0.
  - destruct l2 as [|c l2]; simpl in *; [lia|].
    rewrite write_cell_ok by (rewrite length_app; simpl; lia). simpl.
    replace (<[length l1 := Some (Some s)]> (l1 ++ c :: l2)) with ((l1 ++ [Some (Some s)]) ++ l2).
    2: { replace (length l1) with (length l1 + 0)%nat at 1 by lia. rewrite insert_app_r. simpl.
         by rewrite <- app_assoc. }
    replace (S (length l1)) with (length (l1 ++ [Some (Some s)])) by (rewrite length_app; simpl; lia).
    rewrite IH by lia. by rewrite <- app_assoc.
Qed.

(** Filling an environment replaces its variables. *)
Lemma env_fill_spec e vars src cow :
  rep e vars →
  ∃ e', env_fill e src cow = Ret e' ∧ rep e' src ∧ te_thread_id e' = te_thread_id e.
Proof.
  intros (rest & Ha & Hn & Hc & Hpos). unfold env_fill, array. rewrite Ha. simpl.
  set (l0 := (Some ∘ Some <$> vars) ++ Some None :: rest).
  assert (zlen l0 = te_capacity e + 1) as Hl0.
  { unfold l0, zlen in *. rewrite length_app, length_fmap. simpl. lia. }
  set (cap := if bool_decide (te_capacity e < zlen src) then zlen src + 8 else te_capacity e).
  set (l1 := if bool_decide (te_capacity e < zlen src) then realloc_cells l0 (zlen src + 8 + 1) else l0).
  assert (zlen l1 = cap + 1 ∧ zlen src ≤ cap ∧ 0 < cap) as (Hl1 & Hle & Hcap).
  { unfold l1, cap, realloc_cells, ztake, zlen in *. case_bool_decide; [|lia].
    rewrite length_app, length_take, length_replicate. lia. }
  assert ((if bool_decide (te_capacity e < zlen src)
     then (zlen src + 8, realloc_cells l0 (zlen src + 8 + 1)) else (te_capacity e, l0)) = (cap, l1)) as ->
    by (unfold cap, l1; by case_bool_decide).
  unfold zlen in *. pose proof (copy_strings_spec src [] l1 ltac:(lia)) as Hcopy. simpl in Hcopy.
  rewrite Hcopy. simpl.
  assert (∃ c rest', drop (length src) l1 = c :: rest' ∧ Z.of_nat (length rest') = cap - Z.of_nat (length src))
    as (c & rest' & Hd & Hrest).
  { destruct (drop (length src) l1) as [|c rest'] eqn:Ed; apply (f_equal length) in Ed;
      rewrite length_drop in Ed; simpl in Ed; [lia|]. exists c, rest'. split; [done|lia]. }
  rewrite Hd, write_cell_ok by (rewrite length_app, length_fmap; simpl; lia). simpl.
  replace (length src) with (length (Some ∘ Some <$> src) + 0)%nat by (rewrite length_fmap; lia).
  rewrite insert_app_r. simpl. eexists. split; [done|]. split; [|done].
  exists rest'. simpl. unfold zlen. rewrite length_fmap. split_and!; [done|lia..].
Qed.

(** ** The variables as a finite map *)

(** [NAME=VALUE], split at the first [=]. *)
Fixpoint split_eq (s : string) : option (string * string) :=
  match s with
  | EmptyString => None
  | String.String c s =>
      if bool_decide (c = EQ) then Some (EmptyString, s) else
      match split_eq s with Some (n, v) => Some (String.String c n, v) | None => None end
  end.

Definition vars_map (vars : list string) : gmap string string :=
  foldr (λ s m, match split_eq s with Some (n, v) => <[n := v]> m | None => m end) ∅ vars.
Definition names (vars : list string) : list string := omap (λ s, fst <$> split_eq s) vars.

Lemma matches_split s name :
  has_eq name = false →
  if matches s name then split_eq s = Some (name, sdrop (S (String.length name)) s)
  else ∀ v, split_eq s ≠ Some (name, v).
Proof.
  revert s. induction name as [|c name IH]; intros [|d s] Hn; simpl in *; try done.
  - case_bool_decide as E; [done|]. destruct (split_eq s) as [[n v]|]; [|done]. by intros w [= ? ?].
  - apply orb_false_iff in Hn as [Hc Hn]. apply bool_decide_eq_false in Hc.
    case_bool_decide as E; simpl.
    + subst d. rewrite bool_decide_eq_false_2 by done. specialize (IH s Hn).
      destruct (matches s name).
      * rewrite IH. simpl. done.
      * destruct (split_eq s) as [[n v]|]; [|done]. intros w [= -> ->]. by eapply IH.
    + case_bool_decide; [by intros w [= ?]|].
      destruct (split_eq s) as [[n v]|]; [|done]. intros w [= ?]. done.
Qed.

Lemma split_entry name value : has_eq name = false → split_eq (entry name value) = Some (name, value).
Proof.
  unfold entry. induction name as [|c name IH]; intros Hn; simpl in *; [done|].
  apply orb_false_iff in Hn as [-> Hn]. by rewrite IH.
Qed.

Lemma vars_map_cons_match s vars name :
  has_eq name = false → matches s name = true →
  vars_map (s :: vars) = <[name := sdrop (S (String.length name)) s]> (vars_map vars).
Proof. intros Hn Hm. pose proof (matches_split s name Hn) as H. rewrite Hm in H. simpl. by rewrite H. Qed.

(** An entry for another name. *)
Lemma vars_map_cons_other s vars name :
  has_eq name = false → matches s name = false →
  (∀ f : gmap string string → gmap string string,
     (∀ n v m, n ≠ name → f (<[n := v]> m) = <[n := v]> (f m)) →
     f (vars_map (s :: vars)) =
       match split_eq s with Some (n, v) => <[n := v]> (f (vars_map vars)) | None => f (vars_map vars) end)
  ∧ vars_map (s :: vars) !! name = vars_map vars !! name.
Proof.
  intros Hn Hm. pose proof (matches_split s name Hn) as H. rewrite Hm in H. simpl.
  destruct (split_eq s) as [[n v]|]; [|done].
  assert (n ≠ name) as Hne by (intros ->; by eapply H).
  split; [intros f Hf; by apply Hf|]. by rewrite lookup_insert_ne.
Qed.

Lemma getenv_map vars name : has_eq name = false → libc_getenv vars name = vars_map vars !! name.
Proof.
  intros Hn. unfold libc_getenv. induction vars as [|s vars IH]; [symmetry; apply lookup_empty|].
  rewrite list.filter_cons. destruct (matches s name) eqn:Em.
  - rewrite decide_True, (vars_map_cons_match s vars name) by done. simpl. by rewrite lookup_insert_eq.
  - rewrite decide_False by congruence.
    rewrite (proj2 (vars_map_cons_other s vars name Hn Em)). exact IH.
Qed.

Lemma libc_setenv_cons s vars name value ow :
  libc_setenv (s :: vars) name value ow =
    if matches s name then (if ow then entry name value else s) :: vars
    else s :: libc_setenv vars name value ow.
Proof.
  unfold libc_setenv. simpl. destruct (matches s name) eqn:Em.
  - rewrite decide_True by done. by destruct ow.
  - rewrite decide_False by congruence.
    destruct (list_find _ vars) as [[i x]|]; simpl; [|done]. by destruct ow.
Qed.

Lemma setenv_map vars name value ow :
  has_eq name = false →
  vars_map (libc_setenv vars name value ow) =
    match vars_map vars !! name with
    | Some _ => if ow then <[name := value]> (vars_map vars) else vars_map vars
    | None => <[name := value]> (vars_map vars)
    end.
Proof.
  intros Hn. induction vars as [|s vars IH].
  - simpl. by rewrite split_entry.
  - rewrite libc_setenv_cons. destruct (matches s name) eqn:Em.
    + rewrite (vars_map_cons_match s vars name), lookup_insert_eq by done.
      destruct ow; [|by rewrite (vars_map_cons_match s vars name)].
      simpl. rewrite split_entry by done. by rewrite insert_insert_eq.
    + destruct (vars_map_cons_other s vars name Hn Em) as [Hf Hl]. rewrite Hl.
      assert (∀ m, vars_map (s :: m) = match split_eq s with Some (n, v) => <[n := v]> (vars_map m) | None => vars_map m end)
        as Hc by done.
      rewrite Hc, IH. destruct (vars_map vars !! name); [destruct ow; [|done]|];
        (rewrite <- (Hf (λ m, <[name := value]> m)); [done|]; intros n v m Hne; by apply insert_insert_ne).
Qed.

Lemma var_index_cons s vars name :
  var_index (s :: vars) name =
    if matches s name then Some 0%nat else S <$> var_index vars name.
Proof.
  unfold var_index. simpl. destruct (matches s name) eqn:Em.
  - by rewrite decide_True.
  - rewrite decide_False by congruence. by destruct (list_find _ vars) as [[i x]|].
Qed.

Definition remove_var (vars : list string) (name : string) : list string :=
  match var_index vars name with Some i => delete i vars | None => vars end.

Lemma remove_var_cons s vars name :
  remove_var (s :: vars) name = if matches s name then vars else s :: remove_var vars name.
Proof.
  unfold remove_var. rewrite var_index_cons. destruct (matches s name); [done|].
  by destruct (var_index vars name).
Qed.

Lemma not_in_names vars name :
  has_eq name = false → name ∉ names vars → vars_map vars !! name = None.
Proof.
  intros Hn. induction vars as [|s vars IH]; intros Hni; [apply lookup_empty|].
  unfold names in Hni. simpl in *. destruct (split_eq s) as [[n v]|]; simpl in *; [|auto].
  apply not_elem_of_cons in Hni as [Hne Hni]. rewrite lookup_insert_ne by done. auto.
Qed.

Lemma unsetenv_map vars name :
  has_eq name = false → NoDup (names vars) →
  vars_map (remove_var vars name) = delete name (vars_map vars).
Proof.
  intros Hn. induction vars as [|s vars IH]; intros Hnd; [symmetry; apply delete_empty|].
  rewrite remove_var_cons. destruct (matches s name) eqn:Em.
  - pose proof (matches_split s name Hn) as H. rewrite Em in H.
    rewrite (vars_map_cons_match s vars name) by done. rewrite delete_insert_eq.
    unfold names in Hnd. simpl in Hnd. rewrite H in Hnd. simpl in Hnd.
    apply list.NoDup_cons in Hnd as [Hni _]. symmetry. apply delete_id. by apply not_in_names.
  - destruct (vars_map_cons_other s vars name Hn Em) as [Hf _].
    rewrite (Hf (delete name)) by (intros n v m Hne; by apply delete_insert_ne).
    simpl. rewrite IH; [done|]. unfold names in *. simpl in Hnd.
    destruct (split_eq s); simpl in *; [|done]. by apply list.NoDup_cons in Hnd as [_ ?].
Qed.

(** ** The manager *)

Definition chain_of (em : env_manager) (t : tid) : list (tid * addr) :=
  default [] (em_table em !! hash_tid t).

(** [a] holds the environment of thread [t], with the variables [vars]. *)
Definition holds (em : env_manager) (a : addr) (t : tid) (vars : list string) : Prop :=
  ∃ e, em_heap em !! a = Some e ∧ te_thread_id e = t ∧ rep e vars.

Record em_wf (em : env_manager) : Prop := {
  w_once : em_once em = true;
  w_init : em_initialized em = true;
  w_len : length (em_table em) = 128%nat;
  w_tls : ∀ t a, em_tls em !! t = Some a →
      (∃ vars, holds em a t vars) ∧ find_tid (chain_of em t) t = Some a;
  w_table : ∀ i l t a, em_table em !! i = Some l → (t, a) ∈ l →
      hash_tid t = i ∧ ∃ vars, holds em a t vars;
  w_nodup : ∀ i l, em_table em !! i = Some l → NoDup l.*2;
  w_fresh : ∀ a, (em_next em ≤ a)%nat → em_heap em !! a = None }.

(** The variables of a thread as a finite map. *)
Definition env_of (em : env_manager) (t : tid) (m : gmap string string) : Prop :=
  ∃ a vars, em_tls em !! t = Some a ∧ holds em a t vars ∧ m = vars_map vars.

Lemma hash_tid_lt t : (hash_tid t < 128)%nat.
Proof.
  unfold hash_tid, ENV_HASH_SIZE. pose proof (Z.mod_pos_bound (wrapU 64 t) 128). lia.
Qed.

Lemma rep_fun e vars vars' : rep e vars → rep e vars' → vars = vars'.
Proof.
  intros (r & Ha & Hn & _) (r' & Ha' & Hn' & _). rewrite Ha in Ha'. injection Ha' as E.
  apply app_inj_1 in E as [E _]; [|rewrite !length_fmap; unfold zlen in *; lia].
  by apply (inj _) in E.
Qed.

Lemma bucket_ok em t : em_wf em → bucket em t = Ret (chain_of em t) ∧
  em_table em !! hash_tid t = Some (chain_of em t).
Proof.
  intros H. unfold bucket, chain_of. rewrite (w_init _ H).
  destruct (lookup_lt_is_Some_2 (em_table em) (hash_tid t)) as [l Hl];
    [rewrite (w_len _ H); apply hash_tid_lt|]. by rewrite Hl.
Qed.

Lemma find_tid_elem l t a : find_tid l t = Some a → (t, a) ∈ l.
Proof.
  induction l as [|[u b] l IH]; [done|]. simpl. case_bool_decide as E.
  - intros [= ->]. subst. by left.
  - intros H. right. auto.
Qed.

(** One environment changes in place. *)
Lemma em_wf_update em a t vars e' vars' :
  em_wf em → holds em a t vars → te_thread_id e' = t → rep e' vars' → em_wf (set_env em a e').
Proof.
  intros Hw (e & He & Ht & Hr) Ht' Hr'.
  assert (∀ b u vs, holds em b u vs → ∃ vs', holds (set_env em a e') b u vs') as Hh.
  { intros b u vs (f & Hf & Hu & Hrf). unfold holds. simpl. destruct (decide (a = b)) as [<-|].
    - exists vars', e'. rewrite lookup_insert_eq. simplify_eq. done.
    - exists vs, f. by rewrite lookup_insert_ne. }
  destruct Hw as [H1 H2 H3 H4 H5 H6 H7]. split; simpl; try done.
  - intros u b Hb. destruct (H4 u b Hb) as [[vs Hvs] Hf]. split; [by eapply Hh|done].
  - intros i l u b Hl Hb. destruct (H5 _ _ _ _ Hl Hb) as [Hi [vs Hvs]]. split; [done|]. by eapply Hh.
  - intros b Hb. rewrite lookup_insert_ne; [by apply H7|]. intros ->. by rewrite H7 in He.
Qed.

Lemma holds_update em a e' b u vars' :
  a ≠ b → holds (set_env em a e') b u vars' ↔ holds em b u vars'.
Proof. intros Hne. unfold holds. simpl. by rewrite lookup_insert_ne. Qed.

(** Different threads have different environments. *)
Lemma env_of_ne em t u a b :
  em_wf em → em_tls em !! t = Some a → em_tls em !! u = Some b → t ≠ u → a ≠ b.
Proof.
  intros Hw Ha Hb Hne ->. destruct (w_tls _ Hw _ _ Ha) as [(v & e & He & Ht & _) _].
  destruct (w_tls _ Hw _ _ Hb) as [(v' & e' & He' & Hu & _) _]. congruence.
Qed.

Lemma env_of_update em t a e' vars' :
  em_wf em → em_tls em !! t = Some a → te_thread_id e' = t → rep e' vars' →
  env_of (set_env em a e') t (vars_map vars') ∧
  ∀ u m, u ≠ t → env_of em u m → env_of (set_env em a e') u m.
Proof.
  intros Hw Ha Ht Hr. split.
  - exists a, vars'. split; [done|]. split; [|done]. exists e'. simpl. by rewrite lookup_insert_eq.
  - intros u m Hu (b & vs & Hb & Hh & ->). exists b, vs. split; [done|]. split; [|done].
    apply holds_update; [|done]. by eapply (env_of_ne em t u).
Qed.

Lemma get_current em t a : em_wf em → em_tls em !! t = Some a → env_get_current em t = Some a.
Proof. intros Hw Ha. unfold env_get_current. by rewrite (w_init _ Hw). Qed.

Lemma holds_deref em a t vars : holds em a t vars →
  ∃ e, deref em a = Ret e ∧ te_thread_id e = t ∧ rep e vars.
Proof. intros (e & He & Ht & Hr). exists e. unfold deref. by rewrite He. Qed.

Lemma good_name name : bad_name (Some name) = false → has_eq name = false ∧ name ≠ EmptyString.
Proof. by destruct name. Qed.

Lemma filter_none {A} (P : A → Prop) `{∀ x, Decision (P x)} (l : list A) :
  Forall (λ x, ¬ P x) l → filter P l = [].
Proof. induction 1 as [|x l Hx _ IH]; [done|]. by rewrite list.filter_cons, decide_False. Qed.

(** What [ios_env_getenv] answers. *)
Lemma getenv_spec em t name m :
  em_wf em → env_of em t m → bad_name (Some name) = false →
  ios_env_getenv em t (Some name) = Ret (m !! name).
Proof.
  intros Hw (a & vars & Ha & Hh & ->) Hn. apply good_name in Hn as [Hn Hne].
  destruct (holds_deref _ _ _ _ Hh) as (e & He & _ & Hr).
  unfold ios_env_getenv. destruct name as [|c name]; [done|]. set (nm := String.String c name) in *.
  rewrite (get_current _ _ _ Hw Ha), He. simpl. rewrite (env_find_var_spec e vars) by done. simpl.
  rewrite <- getenv_map by done. unfold libc_getenv, var_index.
  destruct (list_find (λ s, matches s nm = true) vars) as [[i s]|] eqn:E; simpl.
  - apply list_find_Some in E as (Hi & Hm & Hbefore).
    rewrite (rep_read e vars i s) by done. simpl.
    assert (head (filter (λ s, matches s nm = true) vars) = Some s) as ->; [|done].
    rewrite <- (take_drop_middle _ _ _ Hi), list.filter_app.
    assert (filter (λ s, matches s nm = true) (take i vars) = []) as ->.
    { apply filter_none. apply Forall_lookup. intros j y Hj.
      apply lookup_take_Some in Hj as [Hj Hlt]. by apply (Hbefore j y). }
    simpl. rewrite list.filter_cons, decide_True by done. done.
  - apply list_find_None in E. by rewrite filter_none.
Qed.

(** ** Refinement: one finite map per thread *)

Inductive env_op : Set :=
  | OpSet (name value : string) (overwrite : bool)
  | OpUnset (name : string).

Definition exec_op (em : env_manager) (t : tid) (op : env_op) : outcome (env_manager * Z * option errno) :=
  match op with
  | OpSet n v ow => ios_env_setenv em t (Some n) (Some v) ow true
  | OpUnset n => ios_env_unsetenv em t (Some n)
  end.

Definition op_name (op : env_op) : string :=
  match op with OpSet n _ _ | OpUnset n => n end.

(** The specification. *)
Definition spec_op (op : env_op) (m : gmap string string) : gmap string string :=
  match op with
  | OpSet n v ow => if bool_decide (is_Some (m !! n)) && negb ow then m else <[n := v]> m
  | OpUnset n => delete n m
  end.

(** Thread [t] has the variables [m], each name once. *)
Definition env_rel (em : env_manager) (t : tid) (m : gmap string string) : Prop :=
  ∃ a vars, em_tls em !! t = Some a ∧ holds em a t vars ∧ NoDup (names vars) ∧ m = vars_map vars.

Lemma names_cons s vars :
  names (s :: vars) = match split_eq s with Some (n, _) => n :: names vars | None => names vars end.
Proof. unfold names. simpl. by destruct (split_eq s) as [[n v]|]. Qed.

Lemma names_setenv vars name value ow :
  has_eq name = false →
  names (libc_setenv vars name value ow)
  = if decide (name ∈ names vars) then names vars else names vars ++ [name].
Proof.
  intros Hn. induction vars as [|s vars IH].
  - change (libc_setenv [] name value ow) with [entry name value].
    by rewrite names_cons, split_entry.
  - rewrite libc_setenv_cons, (names_cons s). pose proof (matches_split s name Hn) as H.
    destruct (matches s name).
    + rewrite H, decide_True by (by left). rewrite names_cons.
      destruct ow; [by rewrite split_entry|by rewrite H].
    + rewrite names_cons, IH. destruct (split_eq s) as [[n v]|]; [|done].
      assert (n ≠ name) as Hne by (intros ->; by eapply H).
      destruct (decide (name ∈ names vars)).
      * rewrite decide_True by (by right). done.
      * rewrite decide_False; [done|]. rewrite elem_of_cons. naive_solver.
Qed.

Lemma names_remove vars name : names (remove_var vars name) `sublist_of` names vars.
Proof.
  induction vars as [|s vars IH]; [done|]. rewrite remove_var_cons, (names_cons s).
  destruct (matches s name).
  - destruct (split_eq s) as [[n v]|]; [by apply sublist_cons|done].
  - rewrite names_cons. destruct (split_eq s) as [[n v]|]; [by apply sublist_skip|done].
Qed.

Lemma nodup_setenv vars name value ow :
  has_eq name = false → NoDup (names vars) → NoDup (names (libc_setenv vars name value ow)).
Proof.
  intros Hn Hnd. rewrite names_setenv by done. case_decide; [done|].
  apply list.NoDup_app. split_and!; [done| |apply NoDup_singleton].
  by intros x Hx ->%list_elem_of_singleton.
Qed.

Lemma env_rel_update em t a e' vars' :
  em_wf em → em_tls em !! t = Some a → te_thread_id e' = t → rep e' vars' → NoDup (names vars') →
  em_wf (set_env em a e') ∧ env_rel (set_env em a e') t (vars_map vars') ∧
  ∀ u m, u ≠ t → env_rel em u m → env_rel (set_env em a e') u m.
Proof.
  intros Hw Ha Ht Hr Hnd. destruct (w_tls _ Hw _ _ Ha) as [[vs Hvs] _]. split_and!.
  - by eapply em_wf_update.
  - exists a, vars'. split_and!; try done. exists e'. simpl. by rewrite lookup_insert_eq.
  - intros u m Hu (b & ws & Hb & Hh & Hnb & ->). exists b, ws. split_and!; try done.
    apply holds_update; [|done]. by eapply (env_of_ne em t u).
Qed.

(** One operation of one thread. *)
Lemma exec_op_sim em t op m :
  em_wf em → env_rel em t m → bad_name (Some (op_name op)) = false →
  ∃ em', exec_op em t op = Ret (em', 0, None) ∧ em_wf em' ∧ env_rel em' t (spec_op op m) ∧
    ∀ u m', u ≠ t → env_rel em u m' → env_rel em' u m'.
Proof.
  intros Hw (a & vars & Ha & Hh & Hnd & ->) Hbad.
  destruct (holds_deref _ _ _ _ Hh) as (e & He & Ht & Hr).
  pose proof (proj1 (good_name _ Hbad)) as Hn.
  destruct op as [name value ow|name]; cbn [exec_op op_name spec_op] in *.
  - unfold ios_env_setenv. rewrite Hbad, (get_current _ _ _ Hw Ha), He. simpl.
    destruct (setenv_in_spec e vars name value ow Hr) as (e' & -> & Hr' & Ht'). simpl.
    destruct (env_rel_update em t a e' _ Hw Ha ltac:(congruence) Hr') as (H1 & H2 & H3);
      [by apply nodup_setenv|].
    eexists. split; [done|]. split_and!; try done. rewrite setenv_map in H2 by done.
    destruct (vars_map vars !! name) eqn:E; simpl in *; [|done]. by destruct ow.
  - unfold ios_env_unsetenv. rewrite Hbad, (get_current _ _ _ Hw Ha), He. simpl.
    destruct (unsetenv_in_spec e vars name Hr) as (e' & -> & Ht' & Hr'). simpl.
    change (match var_index vars name with Some i => delete i vars | None => vars end)
      with (remove_var vars name) in Hr'.
    destruct (env_rel_update em t a e' _ Hw Ha ltac:(congruence) Hr') as (H1 & H2 & H3).
    { eapply sublist_NoDup; [done|]. apply names_remove. }
    eexists. split; [done|]. split_and!; try done. by rewrite unsetenv_map in H2.
Qed.

(** An interleaving of operations of several threads. *)
Fixpoint exec_ops (em : env_manager) (ops : list (tid * env_op)) : outcome env_manager :=
  match ops with
  | [] => Ret em
  | (t, op) :: ops => '(em', _, _) ← exec_op em t op; exec_ops em' ops
  end.

Fixpoint spec_ops (t : tid) (ops : list (tid * env_op)) (m : gmap string string) : gmap string string :=
  match ops with
  | [] => m
  | (u, op) :: ops => spec_ops t ops (if decide (u = t) then spec_op op m else m)
  end.

(** C3: refinement and isolation: any interleaving of [setenv] and
    [unsetenv] calls by several threads is defined, and afterwards
    [ios_env_getenv] answers in each thread as a finite map on which only the
    calls of that thread took effect, in their order. *)
Theorem env_refinement (em : env_manager) (ops : list (tid * env_op)) (t : tid)
    (m : gmap string string) (name : string) :
  em_wf em → env_rel em t m → bad_name (Some name) = false →
  (∀ u op, (u, op) ∈ ops → (∃ mu, env_rel em u mu) ∧ bad_name (Some (op_name op)) = false) →
  ∃ em', exec_ops em ops = Ret em' ∧ em_wf em' ∧
    ios_env_getenv em' t (Some name) = Ret (spec_ops t ops m !! name).
Proof.
  intros Hw Hrel Hname. revert em m Hw Hrel.
  induction ops as [|[u op] ops IH]; intros em m Hw Hrel Hops; simpl.
  - exists em. split; [done|]. split; [done|]. apply getenv_spec; [done| |done].
    destruct Hrel as (a & vars & ? & ? & _ & ?). by exists a, vars.
  - destruct (Hops u op) as [[mu Hu] Hbad]; [by left|].
    destruct (exec_op_sim em u op mu Hw Hu Hbad) as (em' & -> & Hw' & Hu' & Hoth). simpl.
    assert (∀ v mv, env_rel em v mv → ∃ mv', env_rel em' v mv') as Hpres.
    { intros v mv Hv. destruct (decide (v = u)) as [->|]; eauto. }
    apply IH; [done| |].
    + destruct (decide (u = t)) as [->|Hne]; [|by apply Hoth].
      assert (mu = m) as ->; [|done].
      destruct Hu as (a & vs & Ha & (e & He & _ & Hr) & _ & ->),
        Hrel as (a' & vs' & Ha' & (e' & He' & _ & Hr') & _ & ->). simplify_eq.
      f_equal. by eapply rep_fun.
    + intros v opv Hv. destruct (Hops v opv) as [[mv Hmv] Hb]; [by right|]. split; [|done]. eauto.
Qed.

(** ** Creation, inheritance and the end of threads *)

Lemma env_create_rep self e : env_create_empty true self = Some e → rep e [] ∧ te_thread_id e = self.
Proof.
  intros [= <-]. split; [|done]. exists (replicate 16 (Some None)). split_and!; by vm_compute.
Qed.

(** A new environment is entered for its thread. *)
Lemma em_wf_add em self e vars :
  em_wf em → em_tls em !! self = None → te_thread_id e = self → rep e vars →
  ∃ em', (let '(em1, a) := add_env em e in
          env_hash_insert (set_tls em1 (<[self := a]> (em_tls em1))) a) = Ret em' ∧
    em_wf em' ∧ (NoDup (names vars) → env_rel em' self (vars_map vars)) ∧
    ∀ u m, env_rel em u m → env_rel em' u m.
Proof.
  intros Hw Hnone Ht Hr. simpl. unfold env_hash_insert, deref. simpl. rewrite lookup_insert_eq. simpl.
  rewrite Ht. unfold bucket. simpl. rewrite (w_init _ Hw).
  destruct (bucket_ok em self Hw) as [_ Hb]. rewrite Hb. simpl. eexists. split; [done|].
  set (a := em_next em).
  assert (em_heap em !! a = None) as Hfr by (by apply (w_fresh _ Hw)).
  assert (∀ b u vs, holds em b u vs → b ≠ a) as Hne.
  { intros b u vs (f & Hf & _) ->. congruence. }
  set (em' := set_table _ _ _).
  assert (∀ b u vs, holds em b u vs → holds em' b u vs) as Hh.
  { intros b u vs Hh. pose proof (Hne _ _ _ Hh). destruct Hh as (f & Hf & ?).
    exists f. simpl. by rewrite lookup_insert_ne. }
  assert (holds em' a self vars) as Hself.
  { exists e. simpl. by rewrite lookup_insert_eq. }
  assert (hash_tid self < length (em_table em))%nat as Hlt by (rewrite (w_len _ Hw); apply hash_tid_lt).
  assert (∀ t, chain_of em' t = if decide (hash_tid t = hash_tid self)
    then (self, a) :: chain_of em self else chain_of em t) as Hch.
  { intros t. unfold chain_of. simpl. case_decide as E.
    - rewrite E, list_lookup_insert_eq by done. simpl. by rewrite Hb.
    - by rewrite list_lookup_insert_ne. }
  split_and!.
  - destruct Hw as [H1 H2 H3 H4 H5 H6 H7]. split; simpl; try done.
    + by rewrite length_insert.
    + intros t b. rewrite lookup_insert_Some. rewrite Hch. intros [[<- <-]|[Hts Hb']].
      * split; [by eexists|]. rewrite decide_True by done. simpl. by rewrite bool_decide_eq_true_2.
      * destruct (H4 t b Hb') as [[vs Hvs] Hf]. split; [eauto|]. case_decide as E; [|done].
        simpl. rewrite bool_decide_eq_false_2 by done. unfold chain_of in *. by rewrite <- E.
    + intros i l t b Hl Hin. destruct (decide (hash_tid self = i)) as [<-|Hni].
      * rewrite list_lookup_insert_eq in Hl by done. simplify_eq.
        apply elem_of_cons in Hin as [[= -> ->]|Hin]; [split; [done|by eexists]|].
        destruct (H5 _ _ _ _ Hb Hin) as [? [vs Hvs]]. split; [done|eauto].
      * rewrite list_lookup_insert_ne in Hl by done.
        destruct (H5 _ _ _ _ Hl Hin) as [? [vs Hvs]]. split; [done|eauto].
    + intros i l Hl. destruct (decide (hash_tid self = i)) as [<-|Hni].
      * rewrite list_lookup_insert_eq in Hl by done. simplify_eq. simpl. apply list.NoDup_cons.
        split; [|by eapply H6]. intros [[t b] [-> Hin]]%list_elem_of_fmap.
        destruct (H5 _ _ _ _ Hb Hin) as [_ [vs Hvs]]. by apply Hne in Hvs.
      * rewrite list_lookup_insert_ne in Hl by done. by eapply H6.
    + intros b Hb'. rewrite lookup_insert_ne by (unfold a; lia). apply H7. lia.
  - intros Hnd. exists a, vars. split_and!; try done. simpl. by rewrite lookup_insert_eq.
  - intros u m (b & vs & Hb' & Hvs & Hnd & ->). exists b, vs. split_and!; try done; [|auto].
    simpl. rewrite lookup_insert_ne; [done|]. congruence.
Qed.

Lemma inherit_spec (em : env_manager) (self parent : tid) (m : gmap string string) :
  em_wf em → em_tls em !! self = None → parent ≠ 0 → env_rel em parent m →
  ∃ em', ios_env_init_thread em self true true parent = Ret em' ∧ em_wf em' ∧
    env_rel em' self m ∧ ∀ u mu, env_rel em u mu → env_rel em' u mu.
Proof.
  intros Hw Hnone Hp (a & vars & Ha & Hh & Hnd & ->). unfold ios_env_init_thread, ios_env_manager_init.
  rewrite (w_once _ Hw). unfold env_get_current. rewrite (w_init _ Hw), Hnone.
  destruct (env_create_empty true self) as [e0|] eqn:Ee; [|done].
  destruct (env_create_rep _ _ Ee) as [Hr0 Ht0]. unfold env_fill_from.
  rewrite bool_decide_eq_true_2 by done. unfold env_lookup_by_tid.
  rewrite (proj1 (bucket_ok em parent Hw)). simpl. rewrite (proj2 (w_tls _ Hw _ _ Ha)).
  destruct (holds_deref _ _ _ _ Hh) as (pe & Hpe & _ & Hrp). rewrite Hpe. simpl.
  pose proof Hrp as (rest & _ & Hnum & _).
  rewrite (read_strings_spec pe vars) by (done || (rewrite Hnum; unfold zlen; lia)). simpl.
  destruct (env_fill_spec e0 [] (drop 0 vars) true Hr0) as (e & -> & Hr & Ht). simpl.
  rewrite drop_0 in Hr.
  destruct (em_wf_add em self e vars Hw Hnone ltac:(congruence) Hr) as (em' & He' & Hw' & Hs & Hoth).
  exists em'. split_and!; [exact He'|done|auto|done].
Qed.

(** a thread that is initialised with a parent starts with exactly the
    parent's variables, in memory of its own; no other thread notices. *)
Theorem env_inherit (em : env_manager) (self parent : tid) (m : gmap string string) :
  em_wf em → em_tls em !! self = None → parent ≠ 0 → env_rel em parent m →
  ∃ em', ios_env_init_thread em self true true parent = Ret em' ∧ em_wf em' ∧
    env_rel em' self m ∧ ∀ u mu, env_rel em u mu → env_rel em' u mu.
Proof. apply inherit_spec. Qed.

(** The manager of a process with the given environment. *)
Definition em_start (environ : list string) : env_manager :=
  ios_env_manager_init (EnvManager ∅ 0 (replicate 128 []) ∅ false false 0 environ) true.

Lemma em_start_wf environ : em_wf (em_start environ).
Proof.
  split; try done.
  - intros i l t a Hl Hin. apply (lookup_replicate 128) in Hl as [-> _].
    by apply not_elem_of_nil in Hin.
  - intros i l Hl. apply (lookup_replicate 128) in Hl as [-> _]. apply NoDup_nil_2.
Qed.

(** A thread without a parent starts with the process environment. *)
Lemma env_init_process em self :
  em_wf em → em_tls em !! self = None → NoDup (names (em_environ em)) →
  ∃ em', ios_env_init_thread em self true true 0 = Ret em' ∧ em_wf em' ∧
    env_rel em' self (vars_map (em_environ em)) ∧ ∀ u mu, env_rel em u mu → env_rel em' u mu.
Proof.
  intros Hw Hnone Hnd. unfold ios_env_init_thread, ios_env_manager_init.
  rewrite (w_once _ Hw). unfold env_get_current. rewrite (w_init _ Hw), Hnone.
  destruct (env_create_empty true self) as [e0|] eqn:Ee; [|done].
  destruct (env_create_rep _ _ Ee) as [Hr0 Ht0]. unfold env_fill_from. simpl.
  destruct (env_fill_spec e0 [] (em_environ em) false Hr0) as (e & -> & Hr & Ht). simpl.
  destruct (em_wf_add em self e _ Hw Hnone ltac:(congruence) Hr) as (em' & He' & Hw' & Hs & Hoth).
  exists em'. split_and!; [exact He'|done|auto|done].
Qed.

(** Two threads: 1 has the process environment, 2 inherits from 1. *)
Definition demo_environ : list string := [entry "HOME" "/home"; entry "PATH" "/bin"].

Lemma demo_threads_rel :
  ∃ em1, ios_env_init_thread (em_start demo_environ) 1 true true 0 = Ret em1 ∧ em_wf em1 ∧
    env_rel em1 1 (vars_map demo_environ) ∧ em_tls em1 !! 2 = None.
Proof.
  destruct (env_init_process (em_start demo_environ) 1) as (em1 & H1 & Hw & Hr & _).
  - apply em_start_wf.
  - done.
  - by apply (bool_decide_unpack _); vm_compute.
  - exists em1. split_and!; try done. vm_compute in H1. by simplify_eq.
Qed.

Lemma env_inherit_witness :
  ∃ em1 em2, ios_env_init_thread (em_start demo_environ) 1 true true 0 = Ret em1 ∧
    ios_env_init_thread em1 2 true true 1 = Ret em2 ∧
    env_rel em2 1 (vars_map demo_environ) ∧ env_rel em2 2 (vars_map demo_environ).
Proof.
  destruct demo_threads_rel as (em1 & H1 & Hw & Hr & Hn).
  destruct (env_inherit em1 2 1 (vars_map demo_environ)) as (em2 & H2 & Hw2 & Hr2 & Hoth); try done.
  exists em1, em2. split_and!; auto.
Defined.

Definition demo_ops : list (tid * env_op) :=
  [(1, OpSet "PATH" "/usr" true); (1, OpUnset "HOME")].

Lemma env_refinement_witness :
  ∃ em1 em2, ios_env_init_thread (em_start demo_environ) 1 true true 0 = Ret em1 ∧
    exec_ops em1 demo_ops = Ret em2 ∧
    ios_env_getenv em2 1 (Some "PATH"%string) = Ret (Some "/usr"%string).
Proof.
  destruct demo_threads_rel as (em1 & H1 & Hw & Hr & Hn).
  destruct (env_refinement em1 demo_ops 1 (vars_map demo_environ) "PATH" Hw Hr eq_refl)
    as (em2 & H2 & _ & Hg).
  - intros u op [[= -> ->]|[[= -> ->]|H]%elem_of_cons]%elem_of_cons; [by eauto..|].
    by apply not_elem_of_nil in H.
  - exists em1, em2. split; [done|]. split; [done|]. rewrite Hg. by vm_compute.
Defined.

Lemma lookup_by_tid em t a :
  em_wf em → em_tls em !! t = Some a → env_lookup_by_tid em t = Ret (Some a).
Proof.
  intros Hw Ha. unfold env_lookup_by_tid. rewrite (proj1 (bucket_ok em t Hw)). simpl.
  by rewrite (proj2 (w_tls _ Hw _ _ Ha)).
Qed.

(** copying between two threads makes the destination's variables equal
    to the source's and changes no other thread. *)
Theorem env_copy (em : env_manager) (src dst : tid) (m m' : gmap string string) :
  em_wf em → env_rel em src m → env_rel em dst m' → src ≠ dst →
  ∃ em', ios_env_copy_from_thread em src dst = Ret (em', 0, None) ∧ em_wf em' ∧
    env_rel em' dst m ∧ ∀ u mu, u ≠ dst → env_rel em u mu → env_rel em' u mu.
Proof.
  intros Hw (a & vars & Ha & Hh & Hnd & ->) (b & vars' & Hb & Hh' & _ & _) Hne.
  unfold ios_env_copy_from_thread.
  rewrite (lookup_by_tid em src a), (lookup_by_tid em dst b) by done. simpl.
  rewrite bool_decide_eq_false_2 by (by eapply (env_of_ne em src dst)).
  destruct (holds_deref _ _ _ _ Hh) as (se & Hse & _ & Hrs).
  destruct (holds_deref _ _ _ _ Hh') as (de & Hde & Htd & Hrd). rewrite Hse, Hde. simpl.
  pose proof Hrs as (rest & _ & Hnum & _).
  rewrite (read_strings_spec se vars) by (done || (rewrite Hnum; unfold zlen; lia)). simpl.
  destruct (env_fill_spec de vars' (drop 0 vars) true Hrd) as (e & -> & Hr & Ht). simpl.
  rewrite drop_0 in Hr. eexists. split; [done|].
  by apply (env_rel_update em dst b e vars Hw Hb ltac:(congruence) Hr).
Qed.

Lemma env_copy_witness :
  ∃ em1 em2 em3 em4, ios_env_init_thread (em_start demo_environ) 1 true true 0 = Ret em1 ∧
    ios_env_init_thread em1 2 true true 1 = Ret em2 ∧
    exec_op em2 2 (OpUnset "HOME") = Ret (em3, 0, None) ∧
    ios_env_copy_from_thread em3 1 2 = Ret (em4, 0, None) ∧
    env_rel em4 2 (vars_map demo_environ).
Proof.
  destruct demo_threads_rel as (em1 & H1 & Hw & Hr & Hn).
  destruct (inherit_spec em1 2 1 (vars_map demo_environ)) as (em2 & H2 & Hw2 & Hr2 & Hoth); try done.
  destruct (exec_op_sim em2 2 (OpUnset "HOME") _ Hw2 Hr2 eq_refl) as (em3 & H3 & Hw3 & Hr3 & Hoth3).
  assert (env_rel em3 1 (vars_map demo_environ)) as Hr1 by (apply Hoth3; auto; done).
  destruct (env_copy em3 1 2 _ _ Hw3 Hr1 Hr3) as (em4 & H4 & _ & Hr4 & _).
  - done.
  - by exists em1, em2, em3, em4.
Defined.

Lemma remove_find_ne l t u : t ≠ u → find_tid (remove_tid l t) u = find_tid l u.
Proof.
  intros Hne. induction l as [|[v b] l IH]; [done|]. simpl. case_bool_decide as E1.
  - subst. by rewrite bool_decide_eq_false_2.
  - simpl. by rewrite IH.
Qed.

Lemma remove_tid_sub l t x : x ∈ remove_tid l t → x ∈ l.
Proof.
  induction l as [|[v b] l IH]; [done|]. simpl. case_bool_decide; [by right|].
  intros [->|Hx]%elem_of_cons; [by left|right; auto].
Qed.

Lemma remove_tid_snd l t a :
  NoDup l.*2 → find_tid l t = Some a → NoDup (remove_tid l t).*2 ∧ ∀ u, (u, a) ∉ remove_tid l t.
Proof.
  induction l as [|[v b] l IH]; [done|]. simpl. intros [Hb Hnd]%list.NoDup_cons.
  case_bool_decide as E.
  - intros [= ->]. split; [done|]. intros u Hu. apply Hb. apply list_elem_of_fmap. by exists (u, a).
  - intros Hf. destruct (IH Hnd Hf) as [H1 H2]. split.
    + simpl. apply list.NoDup_cons. split; [|done].
      intros [x [-> Hx%remove_tid_sub]]%list_elem_of_fmap. apply Hb. apply list_elem_of_fmap. by exists x.
    + intros u [[= -> ->]|Hu]%elem_of_cons; [|by eapply H2].
      apply Hb. apply find_tid_elem in Hf. apply list_elem_of_fmap. by exists (t, b).
Qed.

(** when a thread ends, the destructor frees its environment and takes
    it out of the table: no table entry or thread refers to freed memory, and
    the other threads keep their variables. *)
Theorem env_thread_exit (em : env_manager) (self : tid) (a : addr) :
  em_wf em → em_tls em !! self = Some a →
  ∃ em', thread_exit em self = Ret em' ∧ em_wf em' ∧ em_heap em' = delete a (em_heap em) ∧
    em_tls em' !! self = None ∧ ∀ u mu, u ≠ self → env_rel em u mu → env_rel em' u mu.
Proof.
  intros Hw Ha. unfold thread_exit. rewrite Ha. unfold env_thread_destructor, env_hash_remove.
  unfold bucket. simpl. rewrite (w_init _ Hw). destruct (bucket_ok em self Hw) as [_ Hb]. rewrite Hb. simpl.
  destruct (w_tls _ Hw _ _ Ha) as [[vs (e & He & Ht & Hr)] Hfind].
  unfold env_free, deref. simpl. rewrite He. simpl. eexists. split; [done|]. simpl.
  set (em' := EnvManager _ _ _ _ _ _ _ _).
  assert (∀ b u ws, holds em b u ws → u ≠ self → holds em' b u ws) as Hh.
  { intros b u ws (f & Hf & Hu & Hrf) Hne. exists f. simpl. rewrite lookup_delete_ne; [done|].
    intros ->. congruence. }
  destruct (remove_tid_snd _ _ _ (w_nodup _ Hw _ _ Hb) Hfind) as [Hnd Hgone].
  assert (hash_tid self < length (em_table em))%nat as Hlt by (rewrite (w_len _ Hw); apply hash_tid_lt).
  split_and!; [|done|by rewrite lookup_delete_eq|].
  - pose proof Hw as [H1 H2 H3 H4 H5 H6 H7]. split; simpl; try done.
    + by rewrite length_insert.
    + intros u b. rewrite lookup_delete_Some. intros [Hne Hu]. destruct (H4 u b Hu) as [[ws Hws] Hf].
      split; [eauto|]. unfold chain_of in *. simpl. destruct (decide (hash_tid self = hash_tid u)) as [E|].
      * rewrite <- E, list_lookup_insert_eq by done. simpl. rewrite remove_find_ne by done.
        rewrite <- E in Hf. exact Hf.
      * by rewrite list_lookup_insert_ne.
    + intros i l u b Hl Hin.
      assert (∃ l0, em_table em !! i = Some l0 ∧ (u, b) ∈ l0 ∧ b ≠ a) as (l0 & Hl0 & Hin0 & Hba).
      { destruct (decide (hash_tid self = i)) as [<-|Hni].
        - rewrite list_lookup_insert_eq in Hl by done. simplify_eq. eexists. split; [done|].
          split; [by eapply remove_tid_sub|]. intros ->. by eapply Hgone.
        - rewrite list_lookup_insert_ne in Hl by done. exists l. split_and!; try done.
          intros ->. destruct (H5 _ _ _ _ Hl Hin) as [Hhu [ws (f & Hf & Hu & _)]]. congruence. }
      destruct (H5 _ _ _ _ Hl0 Hin0) as [Hi [ws (f & Hf & Hu)]]. split; [done|]. exists ws, f.
      simpl. by rewrite lookup_delete_ne.
    + intros i l Hl. destruct (decide (hash_tid self = i)) as [<-|Hni].
      * rewrite list_lookup_insert_eq in Hl by done. by simplify_eq.
      * rewrite list_lookup_insert_ne in Hl by done. by eapply H6.
    + intros b Hb'. apply lookup_delete_None. right. by apply H7.
  - intros u mu Hne (b & ws & Hb' & Hws & Hn & ->). exists b, ws. split_and!; try done; [|auto].
    simpl. by rewrite lookup_delete_ne.
Qed.

Lemma env_thread_exit_witness :
  ∃ em1 em2, ios_env_init_thread (em_start demo_environ) 1 true true 0 = Ret em1 ∧
    thread_exit em1 1 = Ret em2 ∧ em_wf em2 ∧ em_heap em2 = delete 0%nat (em_heap em1).
Proof.
  destruct demo_threads_rel as (em1 & H1 & Hw & Hr & Hn).
  assert (em_tls em1 !! 1 = Some 0%nat) as Ha by (vm_compute in H1; by simplify_eq).
  destruct (env_thread_exit em1 1 0%nat Hw Ha) as (em2 & H2 & Hw2 & Hd & _).
  by exists em1, em2.
Defined.

(** [ios_env_cleanup_thread] clears the thread-specific value, so that the
    destructor does not run when the thread ends: the environment is never
    freed and stays in the table under the identifier of the dead thread. *)
Theorem env_cleanup_leaks (em : env_manager) (self : tid) (a : addr) :
  em_wf em → em_tls em !! self = Some a →
  let em' := ios_env_cleanup_thread em self in
  thread_exit em' self = Ret em' ∧ em_heap em' = em_heap em ∧
  env_lookup_by_tid em' self = Ret (Some a) ∧
  em_total_thread_envs em' = em_total_thread_envs em.
Proof.
  intros Hw Ha em'. unfold em', ios_env_cleanup_thread. rewrite (get_current _ _ _ Hw Ha).
  split_and!; [|done| |done].
  - unfold thread_exit. simpl. by rewrite lookup_delete_eq.
  - rewrite <- (lookup_by_tid em self a) by done. done.
Qed.

(** When the array cannot grow, [ios_env_setenv] stores the [NULL] of the
    failed [realloc] in the environment before it returns [ENOMEM]: the next
    look-up dereferences it. *)
Theorem env_setenv_enomem (e : thread_env) (vars : list string) (name value other : string) (ow : bool) :
  rep e vars → var_index vars name = None → te_capacity e ≤ te_num_vars e →
  ∃ e', setenv_in e name value ow false = Ret (e', -1, Some ENOMEM) ∧
        env_find_var e' other = Undef NullDeref.
Proof.
  intros Hr Hi Hfull. unfold setenv_in. rewrite (env_find_var_spec e vars), Hi by done. simpl.
  pose proof Hr as (rest & Ha & Hn & Hc & Hpos). unfold array. rewrite Ha. simpl.
  rewrite bool_decide_eq_true_2 by done. simpl. eexists. split; [done|].
  unfold env_find_var. simpl. destruct (Z.to_nat (te_num_vars e)) eqn:E; [lia|]. done.
Qed.
