(* ===== verification/PermuteArgs.v ===== *)
(** * Exchanging two blocks of the argument vector ([src/getopt_long.c])

    [gcd] and [permute_args], which [getopt_internal] calls to move the
    operands behind the options.  The code rotates the vector in place, cycle
    by cycle; [permute_args_exchange] shows that the result is the exchange
    of the two blocks. *)

From S2P Require Import Prelude.
From Stdlib Require Import Znumtheory.

Local Open Scope Z_scope.

(** [a % b]. *)
Definition c_rem (a b : Z) : outcome Z :=
  if bool_decide (b = 0) then Undef DivByZero else Ret (Z.rem a b).
(** [a / b]. *)
Definition c_quot (a b : Z) : outcome Z :=
  if bool_decide (b = 0) then Undef DivByZero else Ret (Z.quot a b).

(** The loop of [gcd]; [b] decreases, so [|b|] iterations are enough. *)
Fixpoint gcd_loop (fuel : nat) (a b c : Z) : outcome Z :=
  match fuel with
  | O => Undef OutOfFuel
  | S fuel =>
      if bool_decide (c = 0) then Ret b
      else c' ← c_rem b c; gcd_loop fuel b c c'
  end.
Definition gcd (a b : Z) : outcome Z :=
  c ← c_rem a b; gcd_loop (S (Z.abs_nat b)) a b c.

(** [for (j = 0; j < n; j++)] whose bound the body does not change. *)
Fixpoint for_from {S} (k j : nat) (f : nat → S → outcome S) (s : S) : outcome S :=
  match k with
  | O => Ret s
  | Datatypes.S k => s' ← f j s; for_from k (Datatypes.S j) f s'
  end.
Definition for_range {S} (n : Z) (f : nat → S → outcome S) (s : S) : outcome S :=
  for_from (Z.to_nat n) 0 f s.

Section permute.
Context {A : Type}.

Definition load (l : list A) (i : Z) : outcome A :=
  if bool_decide (0 ≤ i) then
    match l !! Z.to_nat i with Some a => Ret a | None => Undef OutOfBounds end
  else Undef OutOfBounds.
Definition store (l : list A) (i : Z) (a : A) : outcome (list A) :=
  _ ← load l i; Ret (<[Z.to_nat i := a]> l).

(** One iteration of the inner loop: move [pos], exchange with [cstart]. *)
Definition cycle_step (panonopt_end nnonopts nopts cstart : Z) (_ : nat) (st : Z * list A)
    : outcome (Z * list A) :=
  let '(pos, nargv) := st in
  let pos := if bool_decide (pos >= panonopt_end) then pos - nnonopts else pos + nopts in
  swap ← load nargv pos;
  x ← load nargv cstart;
  nargv ← store nargv pos x;
  nargv ← store nargv cstart swap;
  Ret (pos, nargv).

Definition permute_args (panonopt_start panonopt_end opt_end : Z) (nargv : list A)
    : outcome (list A) :=
  let nnonopts := panonopt_end - panonopt_start in
  let nopts := opt_end - panonopt_end in
  ncycle ← gcd nnonopts nopts;
  cyclelen ← c_quot (opt_end - panonopt_start) ncycle;
  for_range ncycle (λ i nargv,
    let cstart := panonopt_end + Z.of_nat i in
    snd <$> for_range cyclelen (cycle_step panonopt_end nnonopts nopts cstart) (cstart, nargv)) nargv.

End permute.

(** ** [gcd] *)

Lemma gcd_loop_spec fuel a b c :
  0 < b → 0 ≤ c → c = Z.rem a b → (Z.to_nat c < fuel)%nat → gcd_loop fuel a b c = Ret (Z.gcd b c).
Proof.
  revert a b c. induction fuel as [|fuel IH]; intros a b c Hb Hc E Hf; [lia|]. simpl.
  case_bool_decide as H0.
  - subst c. rewrite H0. rewrite Z.gcd_0_r. f_equal. lia.
  - unfold c_rem. rewrite bool_decide_eq_false_2 by done. simpl.
    pose proof (Z.rem_bound_pos b c ltac:(lia) ltac:(lia)).
    rewrite (IH b c (Z.rem b c)); try done; try lia.
    rewrite Z.rem_mod_nonneg, Z.gcd_comm, Z.gcd_mod by lia. f_equal. apply Z.gcd_comm.
Qed.

Lemma gcd_spec a b : 0 ≤ a → 0 < b → gcd a b = Ret (Z.gcd a b).
Proof.
  intros Ha Hb. unfold gcd, c_rem. rewrite bool_decide_eq_false_2 by lia. simpl.
  pose proof (Z.rem_bound_pos a b ltac:(lia) ltac:(lia)).
  change (gcd_loop (S (Z.abs_nat b)) a b (Z.rem a b) = Ret (Z.gcd a b)).
  rewrite gcd_loop_spec; try done; try lia.
  rewrite Z.rem_mod_nonneg, Z.gcd_comm, Z.gcd_mod by lia. f_equal. apply Z.gcd_comm.
Qed.

Lemma for_from_inv {S} (Inv : nat → S → Prop) f k j s :
  Inv j s → (∀ i s, (j ≤ i < j + k)%nat → Inv i s → ∃ s', f i s = Ret s' ∧ Inv (Datatypes.S i) s') →
  ∃ s', for_from k j f s = Ret s' ∧ Inv (j + k)%nat s'.
Proof.
  revert j s. induction k as [|k IH]; intros j s H0 Hstep; simpl.
  - exists s. by rewrite Nat.add_0_r.
  - destruct (Hstep j s ltac:(lia) H0) as (s1 & -> & H1). simpl.
    destruct (IH (Datatypes.S j) s1 H1) as (s2 & -> & H2).
    + intros i s2 Hi. apply Hstep. lia.
    + exists s2. split; [done|]. by rewrite <- Nat.add_succ_comm.
Qed.

Lemma for_range_inv {S} (Inv : nat → S → Prop) f n s :
  0 ≤ n → Inv 0%nat s →
  (∀ i s, Z.of_nat i < n → Inv i s → ∃ s', f i s = Ret s' ∧ Inv (Datatypes.S i) s') →
  ∃ s', for_range n f s = Ret s' ∧ Inv (Z.to_nat n) s'.
Proof.
  intros Hn H0 Hstep. destruct (for_from_inv Inv f (Z.to_nat n) 0 s H0) as (s' & E & H').
  - intros i s1 Hi. apply Hstep. lia.
  - by exists s'.
Qed.

(** ** The cycles of a rotation *)

Section rotation.
Context (n m : Z) (Hn : 0 < n) (Hm : 0 < m).

Local Definition L := n + m.
Local Definition g := Z.gcd n m.
Local Definition K := L / g.

(** The position after [t] moves from [n + i]. *)
Local Definition at_step (i t : Z) : Z := (n + i - t * n) `mod` L.

Lemma g_pos : 0 < g.
Proof.
  unfold g. pose proof (Z.gcd_nonneg n m). assert (Z.gcd n m ≠ 0); [|lia].
  intros H0. apply Z.gcd_eq_0_l in H0. lia.
Qed.

Lemma g_le : g ≤ m ∧ g ≤ n.
Proof. split; apply Z.divide_pos_le; try done; [apply Z.gcd_divide_r|apply Z.gcd_divide_l]. Qed.

Lemma L_split : L = g * K.
Proof.
  unfold K. apply Z.div_exact; [pose proof g_pos; lia|]. apply Z.mod_divide; [pose proof g_pos; lia|].
  apply Z.divide_add_r; [apply Z.gcd_divide_l|apply Z.gcd_divide_r].
Qed.

Lemma n_split : n = g * (n / g).
Proof.
  apply Z.div_exact; [pose proof g_pos; lia|]. apply Z.mod_divide; [pose proof g_pos; lia|].
  apply Z.gcd_divide_l.
Qed.

Lemma K_pos : 0 < K.
Proof. pose proof L_split as H. pose proof g_pos. assert (0 < L) by (unfold L; lia). nia. Qed.

Lemma K_coprime : Z.gcd K (n / g) = 1.
Proof.
  pose proof g_pos as Hg. pose proof L_split as HL. pose proof n_split as HN.
  assert (g * Z.gcd K (n / g) = g) as E; [|nia].
  rewrite <- (Z.abs_eq g) at 1 by lia. rewrite <- Z.gcd_mul_mono_l, <- HL, <- HN.
  unfold L, g. by rewrite Z.gcd_comm, (Z.add_comm n m), Z.gcd_add_diag_r.
Qed.

Lemma at_step_range i t : 0 ≤ at_step i t < L.
Proof. apply Z.mod_pos_bound. unfold L. lia. Qed.

Lemma at_step_0 i : 0 ≤ i < g → at_step i 0 = n + i.
Proof. intros. pose proof g_le. unfold at_step. rewrite Z.mod_small; unfold L; lia. Qed.

Lemma at_step_succ i t :
  at_step i (t + 1) = if bool_decide (at_step i t >= n) then at_step i t - n else at_step i t + m.
Proof.
  pose proof (at_step_range i t) as Hr. unfold at_step in *.
  replace (n + i - (t + 1) * n) with ((n + i - t * n) - n) by lia.
  rewrite <- Zminus_mod_idemp_l. case_bool_decide.
  - apply Z.mod_small. lia.
  - symmetry. apply (Z.mod_unique _ _ (-1)); unfold L in *; lia.
Qed.

(** A move undone: one block forward. *)
Lemma at_step_pred i t : at_step i (t - 1) = (at_step i t + n) `mod` L.
Proof. unfold at_step. rewrite Zplus_mod_idemp_l. f_equal. lia. Qed.

Lemma at_step_mod i t : 0 ≤ i < g → at_step i t `mod` g = i.
Proof.
  intros Hi. pose proof n_split as HN. pose proof L_split as HL. pose proof g_pos.
  unfold at_step. rewrite Z.mod_mod_divide by (exists K; lia).
  symmetry. apply Z.mod_unique with (q := (1 - t) * (n / g)); [lia|]. nia.
Qed.

Lemma at_step_inj i s t : 0 ≤ s → s < t → t < s + K → at_step i s ≠ at_step i t.
Proof.
  intros Hs Hst Ht E. unfold at_step in E. pose proof K_pos. pose proof g_pos.
  assert (L | (n + i - s * n) - (n + i - t * n)) as Hd.
  { apply Z.mod_divide; [unfold L; lia|]. rewrite Zminus_mod, E, Z.sub_diag. done. }
  replace (n + i - s * n - (n + i - t * n)) with ((t - s) * n) in Hd by lia.
  rewrite L_split in Hd. rewrite n_split in Hd.
  replace ((t - s) * (g * (n / g))) with (g * ((n / g) * (t - s))) in Hd by lia.
  apply Z.mul_divide_cancel_l in Hd; [|lia].
  apply Z.gauss in Hd; [|apply K_coprime]. apply Z.divide_pos_le in Hd; lia.
Qed.

Lemma at_step_K i : 0 ≤ i < g → at_step i K = n + i.
Proof.
  intros Hi. rewrite <- (at_step_0 i Hi). unfold at_step. pose proof L_split as HL. pose proof n_split as HN.
  assert (K * n = (n / g) * L) as E by nia. rewrite E.
  replace (n + i - n / g * L) with (n + i - 0 * n + (- (n / g)) * L) by lia. apply Z.mod_add. unfold L. lia.
Qed.

(** Every position is on the cycle of its residue. *)
Lemma at_step_onto i x : 0 ≤ i < g → 0 ≤ x < L → x `mod` g = i → ∃ t, 1 ≤ t ≤ K ∧ at_step i t = x.
Proof.
  intros Hi Hx Hxi. pose proof g_pos as Hg. pose proof K_pos as HK.
  pose proof L_split as HL. pose proof n_split as HN.
  destruct (Z.gcd_bezout n L g) as (u & v & Huv).
  { unfold L. by rewrite (Z.add_comm n m), Z.gcd_add_diag_r. }
  set (q := x / g). assert (x = g * q + i) as Eq by (unfold q; pose proof (Z.div_mod x g); lia).
  set (w := (- (q * u)) `mod` K).
  assert (0 ≤ w < K) by (apply Z.mod_pos_bound; lia).
  exists (1 + w). split; [lia|]. unfold at_step.
  pose proof (Z.div_mod (- (q * u)) K ltac:(lia)) as Ew. fold w in Ew.
  set (z := - (q * u) / K) in *.
  symmetry. apply (Z.mod_unique _ _ (- (q * v) + z * (n / g))); [lia|].
  assert (w = - (q * u) - K * z) as -> by lia.
  assert (K * z * n = z * (n / g) * L) as E2 by nia. nia.
Qed.

End rotation.

(** ** The loops *)

Local Arguments L : simpl never.
Local Arguments g : simpl never.
Local Arguments K : simpl never.
Local Arguments at_step : simpl never.

Section loops.
Context {A : Type}.
Implicit Types (l old : list A).

Lemma load_Ret l i a : 0 ≤ i → l !! Z.to_nat i = Some a → load l i = Ret a.
Proof. intros. unfold load. rewrite bool_decide_eq_true_2 by done. by simplify_option_eq. Qed.

Lemma load_ok l i : 0 ≤ i < zlen l → ∃ a, l !! Z.to_nat i = Some a ∧ load l i = Ret a.
Proof.
  intros Hi. destruct (lookup_lt_is_Some_2 l (Z.to_nat i)) as [a Ha]; [unfold zlen in Hi; lia|].
  exists a. split; [done|]. by apply load_Ret; [lia|].
Qed.

(** Exchanging two elements, or one with itself. *)
Lemma cycle_step_swap pe n m c j pos l x y :
  let pos' := if bool_decide (pos >= pe) then pos - n else pos + m in
  0 ≤ pos' → 0 ≤ c → l !! Z.to_nat pos' = Some x → l !! Z.to_nat c = Some y →
  cycle_step pe n m c j (pos, l) = Ret (pos', <[Z.to_nat c := x]> (<[Z.to_nat pos' := y]> l)).
Proof.
  intros pos' Hp Hc Hx Hy. unfold cycle_step. fold pos'.
  rewrite (load_Ret _ _ _ Hp Hx). simpl. rewrite (load_Ret _ _ _ Hc Hy). simpl.
  unfold store. rewrite (load_Ret _ _ _ Hp Hx). simpl.
  destruct (load_ok (<[Z.to_nat pos' := y]> l) c) as (z & _ & ->); [|done].
  unfold zlen. rewrite length_insert. apply lookup_lt_Some in Hy. lia.
Qed.

Context (p n m : Z) (Hp : 0 ≤ p) (Hn : 0 < n) (Hm : 0 < m).
Abbreviation L := (L n m).
Abbreviation g := (g n m).
Abbreviation K := (K n m).
Abbreviation at_step := (at_step n m).

(** After [j] moves of the cycle [i]: the start holds the element that moves
    next, the visited positions hold their predecessors. *)
Record cycle_inv (old : list A) (i : Z) (j : nat) (st : Z * list A) : Prop := {
  ci_pos : fst st = p + at_step i (Z.of_nat j);
  ci_len : length (snd st) = length old;
  ci_start : (Z.of_nat j < K) → snd st !! Z.to_nat (p + n + i) = old !! Z.to_nat (p + at_step i (Z.of_nat j));
  ci_done t : 1 ≤ t ≤ Z.of_nat j → (t < K ∨ Z.of_nat j = K) →
    snd st !! Z.to_nat (p + at_step i t) = old !! Z.to_nat (p + at_step i (t - 1));
  ci_rest x : 0 ≤ x → x ≠ p + n + i → (∀ t, 1 ≤ t ≤ Z.of_nat j → x ≠ p + at_step i t) →
    snd st !! Z.to_nat x = old !! Z.to_nat x }.

Lemma cycle_inv_start old i : 0 ≤ i < g → cycle_inv old i 0 (p + n + i, old).
Proof.
  intros Hi. split; simpl; try change (Z.of_nat 0) with 0; try done; try lia.
  - rewrite (at_step_0 n m Hn Hm i Hi). lia.
  - intros _. rewrite (at_step_0 n m Hn Hm i Hi). do 2 f_equal. lia.
Qed.

(** A move to a position not visited before. *)
Lemma cycle_inv_next old i j pos l x y :
  0 ≤ i < g → Z.of_nat j + 1 < K → cycle_inv old i j (pos, l) →
  l !! Z.to_nat (p + at_step i (Z.of_nat j + 1)) = Some x → l !! Z.to_nat (p + n + i) = Some y →
  cycle_inv old i (S j) (p + at_step i (Z.of_nat j + 1),
    <[Z.to_nat (p + n + i) := x]> (<[Z.to_nat (p + at_step i (Z.of_nat j + 1)) := y]> l)).
Proof.
  intros Hi Hj [_ Elen Estart Edone Erest] Hx Hy. simpl in *. set (s := Z.of_nat j) in *.
  specialize (Estart ltac:(lia)). rewrite Hy in Estart. symmetry in Estart.
  pose proof (lookup_lt_Some _ _ _ Hy) as Hcl. pose proof (lookup_lt_Some _ _ _ Hx) as Hpl.
  pose proof (at_step_0 n m Hn Hm i Hi) as E0.
  assert (∀ t, 0 ≤ at_step i t) as Hnn by (intros t; apply (at_step_range n m Hn Hm i t)).
  assert (∀ t, 0 ≤ t ≤ s → p + at_step i t ≠ p + at_step i (s + 1)) as Hfresh.
  { intros t Ht E. apply (at_step_inj n m Hn Hm i t (s + 1)); try lia. }
  assert (p + n + i ≠ p + at_step i (s + 1)) as Hc.
  { replace (p + n + i) with (p + at_step i 0) by lia. apply Hfresh. lia. }
  pose proof (Hnn (s + 1)).
  split; simpl; replace (Z.of_nat (S j)) with (s + 1) by lia.
  - done.
  - by rewrite !length_insert.
  - intros _. rewrite list_lookup_insert_eq by (rewrite length_insert; done).
    rewrite <- Hx. apply Erest; [lia|done|]. intros t Ht E. apply (Hfresh t); [lia|done].
  - intros t Ht Hor. destruct (decide (t = s + 1)) as [->|Hne].
    + rewrite list_lookup_insert_ne by lia. rewrite list_lookup_insert_eq by done.
      by replace (s + 1 - 1) with s by lia.
    + assert (p + at_step i t ≠ p + n + i).
      { intros E. apply (at_step_inj n m Hn Hm i 0 t); try lia. }
      pose proof (Hfresh t ltac:(lia)). pose proof (Hnn t).
      rewrite !list_lookup_insert_ne by lia. apply Edone; [lia|]. left; lia.
  - intros z Hz Hzc Hzt. pose proof (Hzt (s + 1) ltac:(lia)).
    rewrite !list_lookup_insert_ne by lia. apply Erest; [done..|]. intros t Ht. apply Hzt. lia.
Qed.

(** The last move comes back to the start. *)
Lemma cycle_inv_last old i j pos l y :
  0 ≤ i < g → Z.of_nat j + 1 = K → cycle_inv old i j (pos, l) →
  l !! Z.to_nat (p + n + i) = Some y → cycle_inv old i (S j) (p + n + i, l).
Proof.
  intros Hi EK [_ Elen Estart Edone Erest] Hy. simpl in *.
  specialize (Estart ltac:(lia)). rewrite Hy in Estart. symmetry in Estart.
  pose proof (at_step_K n m Hn Hm i Hi) as Eat.
  split; simpl; replace (Z.of_nat (S j)) with K by lia; try done.
  - lia.
  - lia.
  - intros t Ht _. destruct (decide (t = K)) as [->|Hne].
    + rewrite Eat, Z.add_assoc, Hy. by replace (K - 1) with (Z.of_nat j) by lia.
    + apply Edone; [lia|left; lia].
  - intros z Hz Hzc Hzt. apply Erest; [done..|]. intros t Ht. apply Hzt. lia.
Qed.

Lemma cycle_inv_step old i j st :
  0 ≤ i < g → p + L ≤ zlen old → Z.of_nat j < K → cycle_inv old i j st →
  ∃ st', cycle_step (p + n) n m (p + n + i) j st = Ret st' ∧ cycle_inv old i (S j) st'.
Proof.
  intros Hi Hlen Hj Hinv. destruct st as [pos l].
  assert (pos = p + at_step i (Z.of_nat j)) as -> by apply Hinv.
  pose proof (ci_len _ _ _ _ Hinv) as Elen. simpl in Elen. set (s := Z.of_nat j) in *.
  pose proof (at_step_range n m Hn Hm i (s + 1)) as Hr'. pose proof (g_le n m Hn Hm) as [Hgm Hgn].
  assert (p + at_step i (s + 1) =
    if bool_decide (p + at_step i s >= p + n) then p + at_step i s - n else p + at_step i s + m) as Epos'.
  { rewrite (at_step_succ n m Hn Hm i s). repeat case_bool_decide; lia. }
  assert (Hll : zlen l = zlen old) by (unfold zlen; lia).
  destruct (load_ok l (p + at_step i (s + 1))) as (x & Hx & _); [lia|].
  destruct (load_ok l (p + n + i)) as (y & Hy & _); [unfold PermuteArgs.L in *; lia|].
  pose proof (cycle_step_swap (p + n) n m (p + n + i) j (p + at_step i s) l x y) as Hstep.
  cbv zeta in Hstep. rewrite <- Epos' in Hstep. specialize (Hstep ltac:(lia) ltac:(lia) Hx Hy).
  eexists. split; [exact Hstep|]. destruct (decide (s + 1 = K)) as [EK|NK].
  - rewrite EK, (at_step_K n m Hn Hm i Hi) in *. rewrite Z.add_assoc in *.
    assert (x = y) as -> by congruence. rewrite list_insert_insert_eq, (list_insert_id _ _ _ Hy).
    by eapply cycle_inv_last.
  - by eapply cycle_inv_next; [|lia|..].
Qed.

(** [l'] is [l] with the positions of the residues in [R] rotated. *)
Record rotated (R : Z → Prop) (l l' : list A) : Prop := {
  ro_len : length l' = length l;
  ro_in x : 0 ≤ x < L → R (x `mod` g) → l' !! Z.to_nat (p + x) = l !! Z.to_nat (p + (x + n) `mod` L);
  ro_out x : 0 ≤ x < L → ¬ R (x `mod` g) → l' !! Z.to_nat (p + x) = l !! Z.to_nat (p + x);
  ro_else k : 0 ≤ k → k < p ∨ p + L ≤ k → l' !! Z.to_nat k = l !! Z.to_nat k }.

Lemma cycle_rotates old i :
  0 ≤ i < g → p + L ≤ zlen old →
  ∃ l', snd <$> for_range K (cycle_step (p + n) n m (p + n + i)) (p + n + i, old) = Ret l' ∧
        rotated (λ r, r = i) old l'.
Proof.
  intros Hi Hlen. pose proof (K_pos n m Hn Hm) as HK.
  destruct (for_range_inv (cycle_inv old i) (cycle_step (p + n) n m (p + n + i)) K (p + n + i, old))
    as (st & -> & [_ El _ Ed Er]); [lia|by apply cycle_inv_start|by intros; apply cycle_inv_step|].
  rewrite Z2Nat.id in * by lia. exists (snd st). split; [done|].
  pose proof (at_step_range n m Hn Hm i) as Hr. pose proof (at_step_mod n m Hn i) as Hmod.
  pose proof (g_le n m Hn Hm). pose proof (at_step_0 n m Hn Hm i Hi) as E0.
  split; [done|..].
  - intros x Hx Hxi. destruct (at_step_onto n m Hn Hm i x Hi Hx Hxi) as (t & Ht & <-).
    rewrite Ed by (lia || by right). by rewrite (at_step_pred n m).
  - intros x Hx Hxi. apply Er; [lia|..].
    + intros E. apply Hxi. rewrite <- (Hmod 0 Hi), E0. f_equal. lia.
    + intros t _ E. apply Hxi. rewrite <- (Hmod t Hi). f_equal. lia.
  - intros k Hk Hor. apply Er; [done|..].
    + unfold PermuteArgs.L in Hor. lia.
    + intros t _ E. specialize (Hr t). lia.
Qed.

(** Rotating one more residue class. *)
Lemma rotated_next old l l' i :
  0 ≤ i < g → rotated (λ r, r < i) old l → rotated (λ r, r = i) l l' → rotated (λ r, r < i + 1) old l'.
Proof.
  intros Hi [E1 I1 O1 X1] [E2 I2 O2 X2]. pose proof (g_pos n m Hn) as Hg.
  assert (0 < L) by (unfold PermuteArgs.L; lia).
  assert (∀ x, ((x + n) `mod` L) `mod` g = x `mod` g) as Hmod.
  { intros x. rewrite Z.mod_mod_divide by (exists K; rewrite (L_split n m Hn) at 1; lia).
    rewrite (n_split n m Hn) at 1. rewrite (Z.mul_comm g (n / g)). apply Z.mod_add. lia. }
  split; [lia|..].
  - intros x Hx Hlt. destruct (decide (x `mod` g = i)) as [E|Hne].
    + rewrite I2 by done. apply O1; [by apply Z.mod_pos_bound|]. rewrite Hmod. lia.
    + rewrite O2 by done. apply I1; [done|lia].
  - intros x Hx Hlt. rewrite O2 by (done || lia). apply O1; [done|lia].
  - intros k Hk Hor. rewrite X2 by done. by apply X1.
Qed.

Lemma permute_args_rotates (old : list A) :
  p + L ≤ zlen old →
  ∃ l', permute_args p (p + n) (p + L) old = Ret l' ∧ rotated (λ r, r < g) old l'.
Proof.
  intros Hlen. pose proof (g_pos n m Hn) as Hg. unfold permute_args.
  replace (p + n - p) with n by lia. replace (p + L - (p + n)) with m by (unfold PermuteArgs.L; lia).
  replace (p + L - p) with L by lia. rewrite gcd_spec by lia. simpl. fold (PermuteArgs.g n m).
  unfold c_quot. rewrite bool_decide_eq_false_2 by lia. simpl.
  rewrite Z.quot_div_nonneg by (try unfold PermuteArgs.L; lia). fold (PermuteArgs.K n m).
  destruct (for_range_inv (λ i l, rotated (λ r, r < Z.of_nat i) old l) (λ i nargv,
    snd <$> for_range K (cycle_step (p + n) n m (p + n + Z.of_nat i)) (p + n + Z.of_nat i, nargv)) g old)
    as (l' & E & Hr).
  - lia.
  - split; [done|..]; try done. intros x Hx Hlt. pose proof (Z.mod_pos_bound x g Hg). simpl in *. lia.
  - intros i l Hi Hinv.
    destruct (cycle_rotates l (Z.of_nat i)) as (l' & E & Hr); [lia|destruct Hinv; unfold zlen in *; lia|].
    exists l'. split; [done|]. replace (Z.of_nat (S i)) with (Z.of_nat i + 1) by lia.
    by eapply rotated_next; [lia|..].
  - exists l'. split; [exact E|]. by rewrite Z2Nat.id in Hr by lia.
Qed.
End loops.

Lemma permute_args_blocks {A : Type} (pre nonopts opts post : list A) :
  nonopts ≠ [] → opts ≠ [] →
  permute_args (zlen pre) (zlen pre + zlen nonopts) (zlen pre + zlen nonopts + zlen opts)
    (pre ++ nonopts ++ opts ++ post)
  = Ret (pre ++ opts ++ nonopts ++ post).
Proof.
  intros HN HO. set (old := pre ++ nonopts ++ opts ++ post).
  assert (0 < zlen nonopts) as Hn by (destruct nonopts; [done|unfold zlen; simpl; lia]).
  assert (0 < zlen opts) as Hm by (destruct opts; [done|unfold zlen; simpl; lia]).
  assert (0 ≤ zlen pre) as Hp by (unfold zlen; lia).
  destruct (permute_args_rotates (zlen pre) (zlen nonopts) (zlen opts) Hp Hn Hm old)
    as (l' & E & [El Ei _ Ex]).
  { unfold old, L, zlen. rewrite !length_app. lia. }
  unfold L in E. rewrite Z.add_assoc in E. rewrite E. f_equal. clear E.
  pose proof (g_pos (zlen nonopts) (zlen opts) Hn) as Hg.
  apply list_eq. intros k. destruct (decide (zlen pre ≤ Z.of_nat k < zlen pre + L (zlen nonopts) (zlen opts))) as [Hk|Hk].
  - specialize (Ei (Z.of_nat k - zlen pre) ltac:(lia) (proj2 (Z.mod_pos_bound _ _ Hg))).
    replace (Z.to_nat (zlen pre + (Z.of_nat k - zlen pre))) with k in Ei by lia. rewrite Ei.
    unfold old, L, zlen in *. destruct (decide (Z.of_nat k - Z.of_nat (length pre) < Z.of_nat (length opts))) as [Hlt|Hge].
    + rewrite Z.mod_small by lia. rewrite !(lookup_app_r pre) by lia. rewrite lookup_app_r, !lookup_app_l by lia. f_equal. lia.
    + rewrite <- (Z.mod_unique _ _ 1 (Z.of_nat k - Z.of_nat (length pre) - Z.of_nat (length opts)))
        by lia.
      rewrite !(lookup_app_r pre), (lookup_app_r opts) by lia. rewrite !lookup_app_l by lia. f_equal. lia.
  - specialize (Ex (Z.of_nat k) ltac:(lia) ltac:(lia)). rewrite Nat2Z.id in Ex. rewrite Ex.
    unfold old, L, zlen in *. destruct (decide (k < length pre)%nat); [by rewrite !lookup_app_l|].
    rewrite !(lookup_app_r pre) by lia.
    rewrite (lookup_app_r nonopts), !(lookup_app_r opts), (lookup_app_r nonopts) by lia. f_equal. lia.
Qed.

(** [permute_args] exchanges the two blocks, each in its order, and leaves
    the rest of the vector alone. *)
Theorem permute_args_exchange {A : Type} (pre nonopts opts post : list A) :
  nonopts ≠ [] → opts ≠ [] →
  permute_args (zlen pre) (zlen pre + zlen nonopts) (zlen pre + zlen nonopts + zlen opts)
    (pre ++ nonopts ++ opts ++ post)
  = Ret (pre ++ opts ++ nonopts ++ post).
Proof. apply permute_args_blocks. Qed.

Lemma permute_args_exchange_witness :
  permute_args 1 3 4 [0; 1; 2; 3; 4] = Ret [0; 3; 1; 2; 4].
Proof. apply (permute_args_exchange [0] [1; 2] [3] [4]); done. Defined.
