(* ===== verification/CString.v ===== *)
(** * C strings

    A [char *] into an immutable string is the rest of that string: its end
    stands for the terminating zero.  The functions of [<string.h>] the
    option parsers ([src/getopt.c], [src/getopt_long.c]) call. *)

From S2P Require Import Prelude.
From Stdlib Require Import Ascii.

Local Open Scope Z_scope.

Definition DASH : ascii := ascii_of_nat 45.
Definition COLON : ascii := ascii_of_nat 58.

(** [(int)c] for a signed [char]. *)
Definition char_int (c : ascii) : Z := wrapS 8 (Z.of_N (N_of_ascii c)).

(** [strchr(s, c)] for a character that is not zero: the rest of [s] from [c]. *)
Fixpoint strchr (s : string) (c : ascii) : option string :=
  match s with
  | EmptyString => None
  | String.String d t => if bool_decide (d = c) then Some s else strchr t c
  end.

(** [*s == c], [s + 1] and [*s == 0]. *)
Definition starts_with (s : string) (c : ascii) : bool :=
  match s with String.String d _ => bool_decide (d = c) | EmptyString => false end.
Definition tl (s : string) : string :=
  match s with String.String _ t => t | EmptyString => EmptyString end.
Definition is_empty (s : string) : bool := match s with EmptyString => true | _ => false end.

(** [strncmp(s, t, n) == 0]. *)
Fixpoint strncmp_eq (s t : string) (n : nat) : bool :=
  match n, s, t with
  | O, _, _ => true
  | S _, EmptyString, EmptyString => true
  | S n, String.String c s, String.String d t => bool_decide (c = d) && strncmp_eq s t n
  | S _, _, _ => false
  end.

Lemma length_tl a c : starts_with a c = true → S (String.length (tl a)) = String.length a.
Proof. by destruct a. Qed.

Lemma is_empty_true s : is_empty s = true ↔ s = EmptyString.
Proof. by destruct s. Qed.

Lemma append_empty (fl : string) : String.append fl EmptyString = fl.
Proof.
  induction fl as [|c fl IH]; [done|].
  change (String.String c (String.append fl EmptyString) = String.String c fl). by rewrite IH.
Qed.

Lemma length_append (s t : string) :
  String.length (String.append s t) = (String.length s + String.length t)%nat.
Proof.
  induction s as [|c s IH]; [done|].
  change (S (String.length (String.append s t)) = S (String.length s + String.length t)). by rewrite IH.
Qed.

Lemma strchr_length s c t : strchr s c = Some t → (String.length t ≤ String.length s)%nat.
Proof.
  induction s as [|d s IH]; simpl; [done|]. case_bool_decide; [by intros [= <-]|].
  intros H1. specialize (IH H1). lia.
Qed.

(** Comparing the first [n] characters of a string of at least [n] characters. *)
Lemma strncmp_eq_append (s u t : string) :
  strncmp_eq (String.append s u) t (String.length s) = true ↔ ∃ v, t = String.append s v.
Proof.
  revert t. induction s as [|c s IH]; intros t.
  - split; [intros _; by exists t|by destruct (String.append EmptyString u)].
  - change (String.append (String.String c s) u) with (String.String c (String.append s u)).
    destruct t as [|d t]; simpl.
    + split; [done|]. by intros (v & ?).
    + rewrite andb_true_iff, bool_decide_eq_true, IH. split.
      * intros [-> (v & ->)]. by exists v.
      * intros (v & Hv). change (String.String d t = String.String c (String.append s v)) in Hv.
        injection Hv as -> ->. split; [done|]. by exists v.
Qed.

(** The characters of a vector of words, with their terminators. *)
Definition words (argv : list string) : nat := sum_list_with (λ a, S (String.length a)) argv.

Lemma words_drop_S argv i a : argv !! i = Some a →
  words (drop i argv) = (S (String.length a) + words (drop (S i) argv))%nat.
Proof. intros H. by rewrite (drop_S _ _ _ H). Qed.

Lemma words_drop_le argv i j : (i ≤ j)%nat → (words (drop j argv) ≤ words (drop i argv))%nat.
Proof.
  intros Hij. replace j with (i + (j - i))%nat by lia. rewrite <- drop_drop.
  generalize (drop i argv) as l. generalize (j - i)%nat as n. clear. intros n l.
  revert l. induction n as [|n IH]; intros l; [by rewrite drop_0|].
  destruct l as [|a l]; [done|]. simpl. specialize (IH l). unfold words in *. simpl. lia.
Qed.
