(* ===== verification/Getopt.v ===== *)
(** * The option parser [getopt] ([src/getopt.c])

    - [getopt_state] holds the globals and the static variables of the
      function; a [char *] into a string is the rest of that string.
    - [getopt] is one call, on every path; a message to [thread_stderr] is
      part of the result.
    - [getopt_all] is the loop of a caller, until [EOF].
    - Theorems: the loop always ends, whatever the arguments, and never reads
      outside [argv]; what a command line spells is what the loop returns
      (round trip); a reset makes a call independent of what was parsed
      before. *)

From S2P Require Import Prelude CString.
From Stdlib Require Import Ascii.

Local Open Scope Z_scope.
Local Open Scope c_scope.

Definition EOF : Z := -1.
Definition BADCH : Z := 63.   (* '?' *)
Definition BADARG : Z := 58.  (* ':' *)
Definition EMSG : string := EmptyString.

Inductive message : Set :=
  | IllegalOption (progname : option string) (c : Z)
  | RequiresArgument (progname : option string) (c : Z).

Record getopt_state := GetoptState {
  db_getopt_reset : bool;
  opterr : Z;
  optind : Z;
  optopt : Z;
  optreset : Z;
  optarg : option string;
  progname : option string;
  place : string }.

Definition getopt_start : getopt_state := GetoptState false 1 1 0 0 None None EMSG.

(** The statements [v = e] of the function. *)
Definition set_place (s : getopt_state) (p : string) : getopt_state :=
  GetoptState (db_getopt_reset s) (opterr s) (optind s) (optopt s) (optreset s) (optarg s) (progname s) p.
Definition set_optind (s : getopt_state) (n : Z) : getopt_state :=
  GetoptState (db_getopt_reset s) (opterr s) n (optopt s) (optreset s) (optarg s) (progname s) (place s).
Definition set_optopt (s : getopt_state) (n : Z) : getopt_state :=
  GetoptState (db_getopt_reset s) (opterr s) (optind s) n (optreset s) (optarg s) (progname s) (place s).
Definition set_optreset (s : getopt_state) (n : Z) : getopt_state :=
  GetoptState (db_getopt_reset s) (opterr s) (optind s) (optopt s) n (optarg s) (progname s) (place s).
Definition set_optarg (s : getopt_state) (a : option string) : getopt_state :=
  GetoptState (db_getopt_reset s) (opterr s) (optind s) (optopt s) (optreset s) a (progname s) (place s).
Definition set_progname (s : getopt_state) (a : option string) : getopt_state :=
  GetoptState (db_getopt_reset s) (opterr s) (optind s) (optopt s) (optreset s) (optarg s) a (place s).

(** [nargv[i]]; the vector ends with [NULL]. *)
Definition argv_at (argv : list string) (i : Z) : outcome string :=
  if bool_decide (0 ≤ i) then
    match argv !! Z.to_nat i with Some a => Ret a | None => Undef OutOfBounds end
  else Undef OutOfBounds.

Record result := Result { r_state : getopt_state; r_value : Z; r_message : option message }.

(** The reset at the start of the function. *)
Definition getopt_reset (s : getopt_state) : getopt_state :=
  if db_getopt_reset s then getopt_start else s.

(** "update scanning pointer": [inl] is the [return (EOF)]. *)
Definition update_place (s : getopt_state) (argv : list string) : outcome (result + getopt_state) :=
  if bool_decide (optreset s ≠ 0) || is_empty (place s) then
    let s := set_optreset s 0 in
    if bool_decide (zlen argv ≤ optind s) then Ret (inl (Result (set_place s EMSG) EOF None))
    else
      a ← argv_at argv (optind s);
      if starts_with a DASH then
        if is_empty (tl a) then Ret (inr (set_place s a))
        else if starts_with (tl a) DASH
        then Ret (inl (Result (set_place (set_optind s (optind s + 1)) EMSG) EOF None))
        else Ret (inr (set_place s (tl a)))
      else Ret (inl (Result (set_place s EMSG) EOF None))
  else Ret (inr s).

(** The character is not an option. *)
Definition illegal_option (s : getopt_state) (c : ascii) (ostr : string) : result :=
  if bool_decide (c = DASH) then Result s EOF None
  else
    let s := if is_empty (place s) then set_optind s (optind s + 1) else s in
    Result s BADCH
      (if bool_decide (opterr s ≠ 0) && negb (starts_with ostr COLON)
       then Some (IllegalOption (progname s) (optopt s)) else None).

(** The option takes an argument. *)
Definition take_argument (s : getopt_state) (argv : list string) (ostr : string) : outcome result :=
  if negb (is_empty (place s)) then
    let s := set_optarg s (Some (place s)) in
    let s := set_place s EMSG in
    Ret (Result (set_optind s (optind s + 1)) (optopt s) None)
  else
    let s := set_optind s (optind s + 1) in
    if bool_decide (zlen argv ≤ optind s) then
      let s := set_place s EMSG in
      if starts_with ostr COLON then Ret (Result s BADARG None)
      else Ret (Result s BADCH (if bool_decide (opterr s ≠ 0)
                                then Some (RequiresArgument (progname s) (optopt s)) else None))
    else
      a ← argv_at argv (optind s);
      let s := set_place (set_optarg s (Some a)) EMSG in
      Ret (Result (set_optind s (optind s + 1)) (optopt s) None).

(** "option letter okay?" and what follows. *)
Definition option_letter (s : getopt_state) (argv : list string) (ostr : string) : outcome result :=
  match place s with
  | EmptyString => Undef OutOfBounds
  | String.String c rest =>
      let s := set_place (set_optopt s (char_int c)) rest in
      match (if bool_decide (c = COLON) then None else strchr ostr c) with
      | None => Ret (illegal_option s c ostr)
      | Some oli =>
          if negb (starts_with (tl oli) COLON) then
            let s := set_optarg s None in
            let s := if is_empty rest then set_optind s (optind s + 1) else s in
            Ret (Result s (optopt s) None)
          else take_argument s argv ostr
      end
  end.

Definition getopt (s : getopt_state) (argv : list string) (ostr : string) : outcome result :=
  let s := getopt_reset s in
  let s := match progname s with None => set_progname s (head argv) | Some _ => s end in
  r ← update_place s argv;
  match r with
  | inl r => Ret r
  | inr s => option_letter s argv ostr
  end.

(** A caller's loop [while ((ch = getopt(argc, argv, ostr)) != EOF)]: the
    values with [optarg], and the final state. *)
Fixpoint getopt_all (fuel : nat) (s : getopt_state) (argv : list string) (ostr : string)
    : outcome (list (Z * option string) * getopt_state) :=
  match fuel with
  | O => Undef OutOfFuel
  | S fuel =>
      r ← getopt s argv ostr;
      if bool_decide (r_value r = EOF) then Ret ([], r_state r)
      else
        '(l, s') ← getopt_all fuel (r_state r) argv ostr;
        Ret ((r_value r, optarg (r_state r)) :: l, s')
  end.

(** ** Termination *)

(** What is left to scan: the rest of the current word and the words after. *)
Definition measure (s : getopt_state) (argv : list string) : nat :=
  (String.length (place s) +
   words (drop (Z.to_nat (if is_empty (place s) then optind s else optind s + 1)) argv))%nat.

Record ready (s : getopt_state) : Prop := {
  rd_reset : db_getopt_reset s = false;
  rd_optreset : optreset s = 0;
  rd_optind : 0 ≤ optind s }.

(** Letters consume the current word. *)
Lemma option_letter_measure s argv ostr :
  ready s → is_empty (place s) = false →
  ∃ r, option_letter s argv ostr = Ret r ∧ ready (r_state r) ∧
       (r_value r = EOF ∨ measure (r_state r) argv < measure s argv)%nat.
Proof.
  intros [H1 H2 H3] Hne. unfold option_letter.
  destruct (place s) as [|c rest] eqn:Ep; [done|]. clear Hne.
  assert (∀ k, (k ≤ 1)%nat → (words (drop (Z.to_nat (optind s + 1 + Z.of_nat k)) argv)
             ≤ words (drop (Z.to_nat (optind s + 1)) argv))%nat) as Hk.
  { intros k _. apply words_drop_le. lia. }
  pose proof (Hk 1%nat ltac:(lia)) as Hk1. change (Z.of_nat 1) with 1 in Hk1.
  assert (measure s argv = S (String.length rest) + words (drop (Z.to_nat (optind s + 1)) argv))%nat as Hm
    by (unfold measure; by rewrite Ep).
  destruct (if bool_decide (c = COLON) then None else strchr ostr c) as [oli|].
  - destruct (negb (starts_with (tl oli) COLON)).
    + eexists. split; [done|]. simpl. destruct rest; simpl.
      * split; [by split; simpl; try lia|]. right. rewrite Hm. unfold measure. simpl. lia.
      * split; [by split|]. right. rewrite Hm. unfold measure. simpl. lia.
    + unfold take_argument. simpl. destruct rest as [|d rest]; simpl.
      * case_bool_decide as Hlt.
        -- destruct (starts_with ostr COLON); (eexists; split; [done|]; simpl);
             (split; [by split; simpl; try lia|]); right; rewrite Hm; unfold measure; simpl; lia.
        -- unfold argv_at. rewrite bool_decide_eq_true_2 by lia.
           destruct (lookup_lt_is_Some_2 argv (Z.to_nat (optind s + 1))) as [a Ha];
             [unfold zlen in Hlt; lia|]. rewrite Ha. simpl. eexists. split; [done|]. simpl.
           split; [by split; simpl; try lia|]. right. rewrite Hm. unfold measure. simpl. lia.
      * eexists. split; [done|]. simpl. split; [by split; simpl; try lia|]. right. rewrite Hm.
        unfold measure. simpl. lia.
  - eexists. split; [done|]. unfold illegal_option. case_bool_decide.
    + simpl. split; [by split|by left].
    + destruct rest; simpl.
      * split; [by split; simpl; try lia|]. right. rewrite Hm. unfold measure. simpl. lia.
      * split; [by split|]. right. rewrite Hm. unfold measure. simpl. lia.
Qed.

Lemma update_place_measure s argv :
  ready s →
  (∃ r, update_place s argv = Ret (inl r) ∧ r_value r = EOF) ∨
  (∃ s', update_place s argv = Ret (inr s') ∧ ready s' ∧ is_empty (place s') = false ∧
         (measure s' argv ≤ measure s argv)%nat).
Proof.
  intros [H1 H2 H3]. unfold update_place. rewrite H2. simpl.
  destruct (is_empty (place s)) eqn:Ep; simpl; [|by right; exists s].
  case_bool_decide as Hlt; [by left; eexists|].
  unfold argv_at. rewrite bool_decide_eq_true_2 by done.
  destruct (lookup_lt_is_Some_2 argv (Z.to_nat (optind s))) as [a Ha]; [unfold zlen in Hlt; lia|].
  rewrite Ha. simpl.
  destruct (starts_with a DASH) eqn:Ea; [|by left; eexists].
  assert (measure s argv = S (String.length a) + words (drop (Z.to_nat (optind s + 1)) argv))%nat as Hm.
  { unfold measure. rewrite Ep. destruct (place s); [|done]. simpl.
    rewrite (words_drop_S _ _ _ Ha). replace (Z.to_nat (optind s + 1)) with (S (Z.to_nat (optind s))) by lia.
    done. }
  pose proof (length_tl a _ Ea) as Htl.
  destruct (is_empty (tl a)) eqn:Et.
  - right. eexists. split; [done|]. split; [by split|].
    assert (is_empty a = false) as Hne by (by destruct a). split; [done|].
    rewrite Hm. unfold measure. simpl. rewrite Hne. lia.
  - destruct (starts_with (tl a) DASH); [by left; eexists|]. right. eexists. split; [done|].
    split; [by split|]. split; [done|]. rewrite Hm. unfold measure. simpl. rewrite Et. lia.
Qed.

Definition name_program (s : getopt_state) (argv : list string) : getopt_state :=
  match progname s with None => set_progname s (head argv) | Some _ => s end.

Lemma name_program_ready s argv :
  ready s → ready (name_program s argv) ∧ measure (name_program s argv) argv = measure s argv.
Proof. intros [H1 H2 H3]. unfold name_program. destruct (progname s); (split; [by split|done]). Qed.

Lemma getopt_ready s argv ostr :
  ready s → getopt s argv ostr =
    (r ← update_place (name_program s argv) argv;
     match r with inl r => Ret r | inr s => option_letter s argv ostr end).
Proof. intros [H1 _ _]. unfold getopt, getopt_reset, name_program. by rewrite H1. Qed.

(** a caller's loop over any arguments ends after at most one call per
    character, and never reads outside the vector. *)
Theorem getopt_terminates (s : getopt_state) (argv : list string) (ostr : string) (fuel : nat) :
  ready s → (measure s argv < fuel)%nat → defined (getopt_all fuel s argv ostr).
Proof.
  revert s. induction fuel as [|fuel IH]; intros s Hr Hf; [lia|]. simpl.
  rewrite getopt_ready by done. destruct (name_program_ready s argv Hr) as [Hr' Hm'].
  destruct (update_place_measure _ argv Hr') as [(r & -> & He)|(s1 & -> & Hr1 & Hne & Hm1)]; simpl.
  - rewrite bool_decide_eq_true_2 by done. by eexists.
  - destruct (option_letter_measure s1 argv ostr Hr1 Hne) as (r & -> & Hr2 & Hm2). simpl.
    case_bool_decide as Hv; [by eexists|]. destruct Hm2 as [|Hm2]; [done|].
    destruct (IH (r_state r) Hr2) as [[l s'] ->]; [lia|]. by eexists.
Qed.

Lemma getopt_start_ready : ready getopt_start.
Proof. by split. Qed.

Lemma getopt_terminates_witness :
  defined (getopt_all 20 getopt_start ["ls"%string; "-la"%string; "-x"%string; "file"%string] "lax:").
Proof. apply getopt_terminates; [by split|]. vm_compute. lia. Defined.

(** a reset makes the next call independent of everything parsed before. *)
Theorem getopt_reset_fresh (s : getopt_state) (argv : list string) (ostr : string) :
  db_getopt_reset s = true → getopt s argv ostr = getopt getopt_start argv ostr.
Proof. intros H. unfold getopt, getopt_reset. by rewrite H. Qed.

Lemma getopt_reset_fresh_witness :
  getopt (GetoptState true 0 7 3 1 (Some "x"%string) (Some "old"%string) "rest"%string)
    ["ls"%string; "-l"%string] "l"
  = getopt getopt_start ["ls"%string; "-l"%string] "l".
Proof. apply getopt_reset_fresh. reflexivity. Defined.

(** ** Round trip *)

Inductive kind : Set := Illegal | Flag | NeedsArg.

(** What an option string says of a letter. *)
Definition opt_kind (ostr : string) (c : ascii) : kind :=
  match (if bool_decide (c = COLON) then None else strchr ostr c) with
  | None => Illegal
  | Some oli => if starts_with (tl oli) COLON then NeedsArg else Flag
  end.

(** A word of a command line: letters without arguments, then possibly one
    with an argument, in the same word or in the next one. *)
Inductive last_option : Set :=
  | NoArgument
  | Attached (c : ascii) (arg : string)
  | Separate (c : ascii) (arg : string).
Record word := Word { w_flags : string; w_last : last_option }.

Definition letters (w : word) : string :=
  String.append (w_flags w)
    match w_last w with
    | NoArgument => EmptyString
    | Attached c a => String.String c a
    | Separate c _ => String.String c EmptyString
    end.
Definition render (w : word) : list string :=
  String.String DASH (letters w) :: match w_last w with Separate _ a => [a] | _ => [] end.

Fixpoint flag_values (fl : string) : list (Z * option string) :=
  match fl with
  | EmptyString => []
  | String.String c fl => (char_int c, None) :: flag_values fl
  end.
Definition values (w : word) : list (Z * option string) :=
  flag_values (w_flags w) ++
  match w_last w with
  | NoArgument => []
  | Attached c a | Separate c a => [(char_int c, Some a)]
  end.

Fixpoint flags_ok (ostr fl : string) : Prop :=
  match fl with
  | EmptyString => True
  | String.String c fl => opt_kind ostr c = Flag ∧ char_int c ≠ EOF ∧ flags_ok ostr fl
  end.
Definition word_ok (ostr : string) (w : word) : Prop :=
  flags_ok ostr (w_flags w) ∧ letters w ≠ EmptyString ∧ starts_with (letters w) DASH = false ∧
  match w_last w with
  | NoArgument => True
  | Attached c a => opt_kind ostr c = NeedsArg ∧ char_int c ≠ EOF ∧ a ≠ EmptyString
  | Separate c a => opt_kind ostr c = NeedsArg ∧ char_int c ≠ EOF
  end.

(** Successive calls that do not return [EOF]. *)
Inductive calls (argv : list string) (ostr : string)
    : getopt_state → list (Z * option string) → getopt_state → Prop :=
  | calls_nil s : calls argv ostr s [] s
  | calls_cons s r l s' :
      getopt s argv ostr = Ret r → r_value r ≠ EOF → calls argv ostr (r_state r) l s' →
      calls argv ostr s ((r_value r, optarg (r_state r)) :: l) s'.

Lemma calls_one argv ostr s r v a :
  getopt s argv ostr = Ret r → r_value r = v → optarg (r_state r) = a → v ≠ EOF →
  calls argv ostr s [(v, a)] (r_state r).
Proof. intros Hg <- <- Hv. by apply calls_cons; [| |apply calls_nil]. Qed.

Lemma calls_app argv ostr s1 l1 s2 l2 s3 :
  calls argv ostr s1 l1 s2 → calls argv ostr s2 l2 s3 → calls argv ostr s1 (l1 ++ l2) s3.
Proof. induction 1; simpl; [done|]. intros. by constructor; auto. Qed.

Lemma calls_all argv ostr s l s' fuel r :
  calls argv ostr s l s' → getopt s' argv ostr = Ret r → r_value r = EOF →
  (length l < fuel)%nat → getopt_all fuel s argv ostr = Ret (l, r_state r).
Proof.
  intros Hc Hr He. revert fuel. induction Hc as [s|s r1 l s' H1 H2 _ IH]; intros [|fuel] Hf;
    simpl in *; try lia.
  - rewrite Hr. simpl. by rewrite bool_decide_eq_true_2.
  - rewrite H1. simpl. rewrite bool_decide_eq_false_2 by done. rewrite IH by (done || lia). done.
Qed.

(** Inside a word no scanning pointer is updated. *)
Lemma getopt_inside s argv ostr :
  ready s → is_empty (place s) = false →
  getopt s argv ostr = option_letter (name_program s argv) argv ostr.
Proof.
  intros Hr Hne. rewrite getopt_ready by done. unfold update_place.
  destruct (name_program_ready s argv Hr) as [[_ Ho _] _]. rewrite Ho.
  assert (place (name_program s argv) = place s) as -> by (unfold name_program; by destruct (progname s)).
  by rewrite Hne.
Qed.

Lemma name_program_fields s argv :
  place (name_program s argv) = place s ∧ optind (name_program s argv) = optind s.
Proof. unfold name_program. by destruct (progname s). Qed.

Lemma step_flag s argv ostr c rest :
  ready s → place s = String.String c rest → opt_kind ostr c = Flag → char_int c ≠ EOF →
  ∃ s', calls argv ostr s [(char_int c, None)] s' ∧ ready s' ∧ place s' = rest ∧
        optind s' = if is_empty rest then optind s + 1 else optind s.
Proof.
  intros Hr Hp Hk Hc. pose proof (getopt_inside s argv ostr Hr) as Hg. rewrite Hp in Hg.
  specialize (Hg eq_refl). destruct (name_program_ready s argv Hr) as [[R1 R2 R3] _].
  destruct (name_program_fields s argv) as [Ep Eo].
  unfold option_letter in Hg. rewrite Ep, Hp in Hg. unfold opt_kind in Hk.
  destruct (if bool_decide (c = COLON) then None else strchr ostr c) as [oli|]; [|done].
  destruct (starts_with (tl oli) COLON); [done|]. simpl in Hg.
  eexists. split; [eapply (calls_one _ _ _ _ _ _ Hg); [by destruct (is_empty rest)..|done]|]. simpl.
  destruct (is_empty rest); simpl; (split; [by split; simpl; try lia|]); by rewrite Eo.
Qed.

Lemma step_attached s argv ostr c rest :
  ready s → place s = String.String c rest → opt_kind ostr c = NeedsArg → char_int c ≠ EOF →
  is_empty rest = false →
  ∃ s', calls argv ostr s [(char_int c, Some rest)] s' ∧ ready s' ∧ place s' = EmptyString ∧
        optind s' = optind s + 1.
Proof.
  intros Hr Hp Hk Hc Hne. pose proof (getopt_inside s argv ostr Hr) as Hg. rewrite Hp in Hg.
  specialize (Hg eq_refl). destruct (name_program_ready s argv Hr) as [[R1 R2 R3] _].
  destruct (name_program_fields s argv) as [Ep Eo].
  unfold option_letter in Hg. rewrite Ep, Hp in Hg. unfold opt_kind in Hk.
  destruct (if bool_decide (c = COLON) then None else strchr ostr c) as [oli|]; [|done].
  destruct (starts_with (tl oli) COLON); [|done]. unfold take_argument in Hg. simpl in Hg.
  rewrite Hne in Hg. simpl in Hg.
  eexists. split; [eapply (calls_one _ _ _ _ _ _ Hg); done|]. simpl.
  split; [by split; simpl; try lia|]. by rewrite Eo.
Qed.

Lemma step_separate s argv ostr c a :
  ready s → place s = String.String c EmptyString → opt_kind ostr c = NeedsArg → char_int c ≠ EOF →
  argv !! Z.to_nat (optind s + 1) = Some a →
  ∃ s', calls argv ostr s [(char_int c, Some a)] s' ∧ ready s' ∧ place s' = EmptyString ∧
        optind s' = optind s + 2.
Proof.
  intros Hr Hp Hk Hc Ha. pose proof (getopt_inside s argv ostr Hr) as Hg. rewrite Hp in Hg.
  specialize (Hg eq_refl). destruct (name_program_ready s argv Hr) as [[R1 R2 R3] _].
  destruct (name_program_fields s argv) as [Ep Eo].
  unfold option_letter in Hg. rewrite Ep, Hp in Hg. unfold opt_kind in Hk.
  destruct (if bool_decide (c = COLON) then None else strchr ostr c) as [oli|]; [|done].
  destruct (starts_with (tl oli) COLON); [|done]. unfold take_argument in Hg. simpl in Hg.
  rewrite Eo in Hg. pose proof (lookup_lt_Some _ _ _ Ha) as Hlt. destruct Hr as [_ _ R3'].
  rewrite bool_decide_eq_false_2 in Hg by (unfold zlen; lia).
  unfold argv_at in Hg. rewrite bool_decide_eq_true_2, Ha in Hg by lia. simpl in Hg.
  eexists. split; [eapply (calls_one _ _ _ _ _ _ Hg); done|]. simpl.
  split; [by split; simpl; try lia|]. split; [done|]. lia.
Qed.

(** The letters without argument at the start of a word. *)
Lemma step_flags s argv ostr fl rest :
  ready s → place s = String.append fl rest → flags_ok ostr fl → rest ≠ EmptyString →
  ∃ s', calls argv ostr s (flag_values fl) s' ∧ ready s' ∧ place s' = rest ∧ optind s' = optind s.
Proof.
  revert s. induction fl as [|c fl IH]; intros s Hr Hp Hok Hne; simpl in *.
  - exists s. split; [apply calls_nil|done].
  - destruct Hok as (Hk & Hc & Hok).
    destruct (step_flag s argv ostr c _ Hr Hp Hk Hc) as (s1 & H1 & Hr1 & Hp1 & Ho1).
    assert (optind s1 = optind s) as Ho1' by (rewrite Ho1; by destruct fl, rest).
    destruct (IH s1 Hr1 Hp1 Hok Hne) as (s2 & H2 & Hr2 & Hp2 & Ho2).
    exists s2. split; [by eapply (calls_app _ _ _ [_])|]. split_and!; [done..|congruence].
Qed.

(** The last letter of a word of letters without argument. *)
Lemma step_flags_end s argv ostr fl :
  ready s → place s = fl → fl ≠ EmptyString → flags_ok ostr fl →
  ∃ s', calls argv ostr s (flag_values fl) s' ∧ ready s' ∧ place s' = EmptyString ∧
        optind s' = optind s + 1.
Proof.
  revert s. induction fl as [|c fl IH]; intros s Hr Hp Hne Hok; [done|]. simpl in Hok.
  destruct Hok as (Hk & Hc & Hok).
  destruct (step_flag s argv ostr c _ Hr Hp Hk Hc) as (s1 & H1 & Hr1 & Hp1 & Ho1).
  destruct fl as [|d fl].
  - exists s1. split; [exact H1|]. split_and!; done.
  - destruct (IH s1 Hr1 Hp1 ltac:(done) Hok) as (s2 & H2 & Hr2 & Hp2 & Ho2).
    exists s2. split; [by eapply (calls_app _ _ _ [_])|]. split_and!; [done..|]. simpl in Ho1. lia.
Qed.

(** A new word. *)
Lemma getopt_enter s argv ostr w :
  ready s → place s = EmptyString → argv !! Z.to_nat (optind s) = Some (String.String DASH w) →
  w ≠ EmptyString → starts_with w DASH = false →
  getopt s argv ostr = getopt (set_place s w) argv ostr.
Proof.
  intros Hr Hp Ha Hne Hd. assert (ready (set_place s w)) as Hr' by (destruct Hr; by split).
  rewrite (getopt_ready s), (getopt_ready (set_place s w)) by done. destruct Hr as [R1 R2 R3].
  destruct s as [rs er oi oo ore oa pn pl]. simpl in *. subst.
  assert (is_empty w = false) as He by (by destruct w).
  pose proof (lookup_lt_Some _ _ _ Ha) as Hlt.
  unfold update_place, name_program. destruct pn; simpl; rewrite He;
    (rewrite bool_decide_eq_false_2 by (unfold zlen; lia)); unfold argv_at;
    (rewrite bool_decide_eq_true_2, Ha by done); simpl; by rewrite He, Hd.
Qed.

Lemma calls_enter s argv ostr w l s' :
  ready s → place s = EmptyString → argv !! Z.to_nat (optind s) = Some (String.String DASH w) →
  w ≠ EmptyString → starts_with w DASH = false → l ≠ [] →
  calls argv ostr (set_place s w) l s' → calls argv ostr s l s'.
Proof.
  intros Hr Hp Ha Hne Hd Hl Hc. inversion Hc as [|s0 r l0 s1 Hg Hv Hrest]; subst; [done|].
  apply calls_cons; [|done..]. by rewrite (getopt_enter s argv ostr w).
Qed.

Lemma step_word s argv ostr w :
  ready s → place s = EmptyString → word_ok ostr w →
  (∀ k a, render w !! k = Some a → argv !! (Z.to_nat (optind s) + k)%nat = Some a) →
  ∃ s', calls argv ostr s (values w) s' ∧ ready s' ∧ place s' = EmptyString ∧
        optind s' = optind s + zlen (render w).
Proof.
  intros Hr Hp (Hfl & Hne & Hd & Hlast) Hargv.
  pose proof (Hargv 0%nat _ eq_refl) as Ha. rewrite Nat.add_0_r in Ha.
  assert (ready (set_place s (letters w))) as Hr' by (destruct Hr; by split).
  assert (∃ s', calls argv ostr (set_place s (letters w)) (values w) s' ∧ ready s' ∧
    place s' = EmptyString ∧ optind s' = optind s + zlen (render w)) as (s' & Hc & Hrest).
  { destruct w as [fl [|c a|c a]]; unfold letters, values, render, zlen in *; simpl in *.
    - assert (String.append fl EmptyString = fl) as E by apply append_empty.
      rewrite E in *. rewrite app_nil_r.
      by apply (step_flags_end (set_place s fl) argv ostr fl).
    - destruct Hlast as (Hk & Hcv & Hae).
      destruct (step_flags (set_place s _) argv ostr fl (String.String c a) Hr' eq_refl Hfl ltac:(done))
        as (s1 & H1 & Hr1 & Hp1 & Ho1).
      destruct (step_attached s1 argv ostr c a Hr1 Hp1 Hk Hcv) as (s2 & H2 & Hr2 & Hp2 & Ho2);
        [by destruct a|].
      exists s2. split; [by eapply calls_app|]. split_and!; [done..|]. simpl in Ho1. lia.
    - destruct Hlast as (Hk & Hcv).
      destruct (step_flags (set_place s _) argv ostr fl (String.String c EmptyString) Hr' eq_refl Hfl
        ltac:(done)) as (s1 & H1 & Hr1 & Hp1 & Ho1). simpl in Ho1.
      destruct (step_separate s1 argv ostr c a Hr1 Hp1 Hk Hcv) as (s2 & H2 & Hr2 & Hp2 & Ho2).
      { specialize (Hargv 1%nat a eq_refl). destruct Hr. rewrite Ho1.
        replace (Z.to_nat (optind s + 1)) with (Z.to_nat (optind s) + 1)%nat by lia. done. }
      exists s2. split; [by eapply calls_app|]. split_and!; [done..|]. lia. }
  exists s'. split; [|done]. eapply calls_enter; try done.
  destruct w as [[|c fl] [|c' a|c' a]]; try done.
Qed.

(** what a command line spells is what the loop returns: for words of
    letters allowed by [ostr], with their arguments attached or separate, and
    operands that do not start with a dash, the loop yields the letters with
    their arguments in order and leaves [optind] at the first operand. *)
Theorem getopt_roundtrip (prog : string) (ws : list word) (operands : list string) (ostr : string)
    (fuel : nat) :
  Forall (word_ok ostr) ws →
  match operands with [] => True | a :: _ => starts_with a DASH = false end →
  (length (mjoin (values <$> ws)) < fuel)%nat →
  let argv := prog :: mjoin (render <$> ws) ++ operands in
  ∃ s', getopt_all fuel getopt_start argv ostr = Ret (mjoin (values <$> ws), s') ∧
        optind s' = zlen argv - zlen operands.
Proof.
  intros Hws Hop Hf argv.
  assert (∀ pre s, argv = pre ++ mjoin (render <$> ws) ++ operands → ready s →
    place s = EmptyString → optind s = zlen pre →
    ∃ s', calls argv ostr s (mjoin (values <$> ws)) s' ∧ ready s' ∧ place s' = EmptyString ∧
          optind s' = zlen argv - zlen operands) as Hmain.
  { clear Hf. clearbody argv. induction Hws as [|w ws Hw _ IH]; intros pre s Hargv Hr Hp Ho.
    - exists s. split; [apply calls_nil|]. split_and!; try done. rewrite Ho, Hargv. unfold zlen.
      rewrite length_app. simpl. lia.
    - change (mjoin (render <$> w :: ws)) with (render w ++ mjoin (render <$> ws)) in Hargv.
      change (mjoin (values <$> w :: ws)) with (values w ++ mjoin (values <$> ws)).
      destruct (step_word s argv ostr w Hr Hp Hw) as (s1 & H1 & Hr1 & Hp1 & Ho1).
      { intros k a Hk. rewrite Ho, Hargv. unfold zlen. rewrite Nat2Z.id, lookup_app_r by lia.
        replace (length pre + k - length pre)%nat with k by lia.
        rewrite <- app_assoc. by apply lookup_app_l_Some. }
      destruct (IH (pre ++ render w) s1) as (s2 & H2 & Hr2 & Hp2 & Ho2); try done.
      + by rewrite Hargv, <- !app_assoc.
      + rewrite Ho1, Ho. unfold zlen. rewrite length_app. lia.
      + exists s2. split; [by eapply calls_app|]. done. }
  destruct (Hmain [prog] getopt_start eq_refl getopt_start_ready eq_refl eq_refl)
    as (s' & Hc & Hr & Hp & Ho).
  assert (∃ r, getopt s' argv ostr = Ret r ∧ r_value r = EOF ∧ optind (r_state r) = optind s')
    as (r & Hg & He & Hor).
  { rewrite getopt_ready by done. destruct (name_program_ready s' argv Hr) as [[R1 R2 R3] _].
    destruct (name_program_fields s' argv) as [Ep Eo]. unfold update_place.
    rewrite R2, Ep, Hp. simpl. rewrite Eo. case_bool_decide as Hlt.
    - eexists. split; [done|]. simpl. by rewrite Eo.
    - destruct operands as [|a ops]; [change (zlen (@nil string)) with 0 in Ho; lia|].
      assert (argv !! Z.to_nat (optind s') = Some a) as Ha.
      { apply (list_lookup_middle (prog :: mjoin (render <$> ws)) ops a). rewrite Ho. unfold argv, zlen.
        cbn [length]. rewrite length_app. cbn [length]. lia. }
      unfold argv_at. rewrite bool_decide_eq_true_2, Ha by (destruct Hr; lia). simpl. rewrite Hop.
      eexists. split; [done|]. simpl. by rewrite Eo. }
  exists (r_state r). split; [by eapply calls_all|]. congruence.
Qed.

(** [cut -sd: -f 1 file], with the option string [b:c:d:f:snw]. *)
Definition cut_words : list word :=
  [Word "s" (Attached (ascii_of_nat 100) ":"); Word EmptyString (Separate (ascii_of_nat 102) "1")].

Lemma getopt_roundtrip_witness :
  ∃ s', getopt_all 9 getopt_start ["cut"%string; "-sd:"%string; "-f"%string; "1"%string; "file"%string]
          "b:c:d:f:snw"
        = Ret ([(115, None); (100, Some ":"%string); (102, Some "1"%string)], s') ∧ optind s' = 4.
Proof.
  apply (getopt_roundtrip "cut" cut_words ["file"%string] "b:c:d:f:snw" 9).
  - repeat constructor; try done; by vm_compute.
  - done.
  - vm_compute. lia.
Defined.

(** A word that starts with two dashes ends the options and is skipped, even
    when more characters follow. *)
Theorem getopt_double_dash (argv : list string) (ostr w : string) (s : getopt_state) :
  ready s → place s = EmptyString →
  argv !! Z.to_nat (optind s) = Some (String.String DASH (String.String DASH w)) →
  ∃ r, getopt s argv ostr = Ret r ∧ r_value r = EOF ∧ optind (r_state r) = optind s + 1.
Proof.
  intros Hr Hp Ha. rewrite getopt_ready by done.
  destruct (name_program_ready s argv Hr) as [[R1 R2 R3] _].
  destruct (name_program_fields s argv) as [Ep Eo]. unfold update_place.
  rewrite R2, Ep, Hp. simpl. rewrite Eo. pose proof (lookup_lt_Some _ _ _ Ha) as Hlt.
  rewrite bool_decide_eq_false_2 by (unfold zlen; destruct Hr; lia).
  unfold argv_at. rewrite bool_decide_eq_true_2, Ha by (destruct Hr; lia). simpl.
  eexists. split; [done|]. by simpl.
Qed.
