(* ===== verification/GetoptLong.v ===== *)
(** * The option parser [getopt_long] ([src/getopt_long.c])

    - [getopt_state] holds the globals [opterr], [optind], [optopt],
      [optreset], [optarg], the static variables of the file, the argument
      vector (which the code permutes), the cells the caller's [flag] and
      [idx] pointers name, and the messages written so far.
    - [getopt_internal] is one call: [scan] is the code from the label
      [start], [long_part] and [parse_long_options] the long options,
      [short_part] the letters.  The file defines [GNU_COMPATIBLE].
    - Theorems: a caller's loop always ends, reads nothing outside [argv], and
      permutes it; what a command line spells, options and operands mixed, is
      what the loop returns, with the operands moved behind the options in
      their order; which long option an abbreviation selects. *)

From S2P Require Import Prelude PermuteArgs CString.
From Stdlib Require Import Ascii.

Local Open Scope Z_scope.

(** A [char *]: the object it points into and the rest of the string. *)
Record cptr := CPtr { obj : Z; str : string }.
Global Instance cptr_eq_dec : EqDecision cptr.
Proof. solve_decision. Defined.

(** The literal [""] of the file. *)
Definition EMSG : cptr := CPtr (-1) EmptyString.

Definition BADCH : Z := 63.  (* '?' *)
Definition INORDER : Z := 1.
Definition FLAG_PERMUTE : Z := 1.
Definition FLAG_ALLARGS : Z := 2.
Definition FLAG_LONGONLY : Z := 4.

Definition NO_PREFIX : Z := -1.
Definition D_PREFIX : Z := 0.
Definition DD_PREFIX : Z := 1.
Definition W_PREFIX : Z := 2.

(** [struct option] of [<getopt.h>]; [flag] is an address. *)
Definition no_argument : Z := 0.
Definition required_argument : Z := 1.
Definition optional_argument : Z := 2.
Record long_option := LongOption { name : string; has_arg : Z; flag : option Z; val : Z }.

(** The calls of [warnx], by the name of the format. *)
Inductive warning : Set :=
  | recargchar (c : Z) | illoptchar (c : Z) | gnuoptchar (c : Z)
  | recargstring (dash word : string)
  | ambig (dash : string) (n : Z) (word : string)
  | noarg (dash : string) (n : Z) (word : string)
  | illoptstring (dash word : string).

Record getopt_state := GetoptState {
  opterr : Z;
  optind : Z;
  optopt : Z;
  optreset : Z;
  optarg : option cptr;
  place : cptr;
  nonopt_start : Z;
  nonopt_end : Z;
  dash_prefix : Z;
  nargv : list cptr;
  cells : gmap Z Z;
  idx_cell : option Z;
  warnings : list warning }.

Definition set_optind (s : getopt_state) (x : Z) : getopt_state :=
  GetoptState (opterr s) x (optopt s) (optreset s) (optarg s) (place s) (nonopt_start s) (nonopt_end s)
    (dash_prefix s) (nargv s) (cells s) (idx_cell s) (warnings s).
Definition set_optopt (s : getopt_state) (x : Z) : getopt_state :=
  GetoptState (opterr s) (optind s) x (optreset s) (optarg s) (place s) (nonopt_start s) (nonopt_end s)
    (dash_prefix s) (nargv s) (cells s) (idx_cell s) (warnings s).
Definition set_optreset (s : getopt_state) (x : Z) : getopt_state :=
  GetoptState (opterr s) (optind s) (optopt s) x (optarg s) (place s) (nonopt_start s) (nonopt_end s)
    (dash_prefix s) (nargv s) (cells s) (idx_cell s) (warnings s).
Definition set_optarg (s : getopt_state) (x : option cptr) : getopt_state :=
  GetoptState (opterr s) (optind s) (optopt s) (optreset s) x (place s) (nonopt_start s) (nonopt_end s)
    (dash_prefix s) (nargv s) (cells s) (idx_cell s) (warnings s).
Definition set_place (s : getopt_state) (x : cptr) : getopt_state :=
  GetoptState (opterr s) (optind s) (optopt s) (optreset s) (optarg s) x (nonopt_start s) (nonopt_end s)
    (dash_prefix s) (nargv s) (cells s) (idx_cell s) (warnings s).
Definition set_nonopt (s : getopt_state) (x y : Z) : getopt_state :=
  GetoptState (opterr s) (optind s) (optopt s) (optreset s) (optarg s) (place s) x y
    (dash_prefix s) (nargv s) (cells s) (idx_cell s) (warnings s).
Definition set_dash_prefix (s : getopt_state) (x : Z) : getopt_state :=
  GetoptState (opterr s) (optind s) (optopt s) (optreset s) (optarg s) (place s) (nonopt_start s)
    (nonopt_end s) x (nargv s) (cells s) (idx_cell s) (warnings s).
Definition set_nargv (s : getopt_state) (x : list cptr) : getopt_state :=
  GetoptState (opterr s) (optind s) (optopt s) (optreset s) (optarg s) (place s) (nonopt_start s)
    (nonopt_end s) (dash_prefix s) x (cells s) (idx_cell s) (warnings s).
Definition set_cell (s : getopt_state) (a x : Z) : getopt_state :=
  GetoptState (opterr s) (optind s) (optopt s) (optreset s) (optarg s) (place s) (nonopt_start s)
    (nonopt_end s) (dash_prefix s) (nargv s) (<[a := x]> (cells s)) (idx_cell s) (warnings s).
Definition set_idx (s : getopt_state) (x : Z) : getopt_state :=
  GetoptState (opterr s) (optind s) (optopt s) (optreset s) (optarg s) (place s) (nonopt_start s)
    (nonopt_end s) (dash_prefix s) (nargv s) (cells s) (Some x) (warnings s).

(** [if (PRINT_ERROR) warnx(...)]. *)
Definition warnx (s : getopt_state) (options : string) (w : warning) : getopt_state :=
  if bool_decide (opterr s ≠ 0) && negb (starts_with options COLON) then
    GetoptState (opterr s) (optind s) (optopt s) (optreset s) (optarg s) (place s) (nonopt_start s)
      (nonopt_end s) (dash_prefix s) (nargv s) (cells s) (idx_cell s) (warnings s ++ [w])
  else s.
Definition BADARG (options : string) : Z := if starts_with options COLON then 58 else 63.

Definition nargc (s : getopt_state) : Z := zlen (nargv s).

(** [nargv[i]]: the vector has [nargc] strings and ends with [NULL]. *)
Definition argv_at (s : getopt_state) (i : Z) : outcome (option cptr) :=
  if bool_decide (0 ≤ i ≤ nargc s) then Ret (nargv s !! Z.to_nat i) else Undef OutOfBounds.
Definition not_null (p : option cptr) : outcome cptr :=
  match p with Some p => Ret p | None => Undef NullDeref end.

(** ** Long options *)

Definition EQUALS : ascii := ascii_of_nat 61.

Definition current_dash (s : getopt_state) : string :=
  if bool_decide (dash_prefix s = D_PREFIX) then "-"
  else if bool_decide (dash_prefix s = DD_PREFIX) then "--"
  else if bool_decide (dash_prefix s = W_PREFIX) then "-W "
  else EmptyString.

Definition long_at (long_options : list long_option) (i : Z) : outcome long_option :=
  if bool_decide (0 ≤ i) then
    match long_options !! Z.to_nat i with Some o => Ret o | None => Undef OutOfBounds end
  else Undef OutOfBounds.

(** The loop "find matching long option" from index [i]; the result is
    [match], [exact_match] and [second_partial_match]. *)
Fixpoint find_matching (current_argv : string) (current_argv_len : nat) (short_too : bool) (flags : Z)
    (long_options rest : list long_option) (i mtch : Z) (second : bool) : outcome (Z * bool * bool) :=
  match rest with
  | [] => Ret (mtch, false, second)
  | o :: rest =>
      let continue := find_matching current_argv current_argv_len short_too flags long_options rest (i + 1) in
      if negb (strncmp_eq current_argv (name o) current_argv_len) then continue mtch second
      else if bool_decide (String.length (name o) = current_argv_len) then Ret (i, true, second)
      else if short_too && bool_decide (current_argv_len = 1%nat) then continue mtch second
      else if bool_decide (mtch = -1) then continue i second
      else
        om ← long_at long_options mtch;
        continue mtch
          (second || (bool_decide (Z.land flags FLAG_LONGONLY ≠ 0)
                      || bool_decide (has_arg o ≠ has_arg om)
                      || bool_decide (flag o ≠ flag om)
                      || bool_decide (val o ≠ val om)))
  end.

(** [optopt = flag == NULL ? val : 0]. *)
Definition set_optopt_val (s : getopt_state) (o : long_option) : getopt_state :=
  set_optopt s (match flag o with None => val o | Some _ => 0 end).

(** "option found". *)
Definition long_found (s : getopt_state) (options current_argv : string) (len : Z)
    (has_equal : option cptr) (idx : bool) (mtch : Z) (o : long_option) : outcome (getopt_state * Z) :=
  if bool_decide (has_arg o = no_argument) && bool_decide (has_equal ≠ None) then
    let s := warnx s options (noarg (current_dash s) len current_argv) in
    Ret (set_optopt_val s o, BADCH)
  else
    s ← (if bool_decide (has_arg o = required_argument) || bool_decide (has_arg o = optional_argument) then
           match has_equal with
           | Some e => Ret (set_optarg s (Some e))
           | None =>
               if bool_decide (has_arg o = required_argument) then
                 a ← argv_at s (optind s);
                 Ret (set_optind (set_optarg s a) (optind s + 1))
               else Ret s
           end
         else Ret s);
    if bool_decide (has_arg o = required_argument) && bool_decide (optarg s = None) then
      let s := warnx s options (recargstring (current_dash s) current_argv) in
      let s := set_optopt_val s o in
      Ret (set_optind s (optind s - 1), BADARG options)
    else
      let s := if idx then set_idx s mtch else s in
      match flag o with
      | Some a => Ret (set_cell s a (val o), 0)
      | None => Ret (s, val o)
      end.

Definition parse_long_options (s : getopt_state) (options : string) (long_options : list long_option)
    (idx short_too : bool) (flags : Z) : outcome (getopt_state * Z) :=
  let current_argv := str (place s) in
  let s := set_optind s (optind s + 1) in
  let '(len, has_equal) :=
    match strchr current_argv EQUALS with
    | Some e => ((String.length current_argv - String.length e)%nat, Some (CPtr (obj (place s)) (tl e)))
    | None => (String.length current_argv, None)
    end in
  '(mtch, exact, second) ←
    find_matching current_argv len short_too flags long_options long_options 0 (-1) false;
  if negb exact && second then
    let s := warnx s options (ambig (current_dash s) (Z.of_nat len) current_argv) in
    Ret (set_optopt s 0, BADCH)
  else if bool_decide (mtch ≠ -1) then
    o ← long_at long_options mtch;
    long_found s options current_argv (Z.of_nat len) has_equal idx mtch o
  else if short_too then Ret (set_optind s (optind s - 1), -1)
  else
    let s := warnx s options (illoptstring (current_dash s) current_argv) in
    Ret (set_optopt s 0, BADCH).

(** ** One call *)

(** The [GNU_COMPATIBLE] treatment of the first character of [options]. *)
Definition PLUS : ascii := ascii_of_nat 43.
Definition effective_flags (posixly_correct : bool) (options : string) (flags : Z) : Z :=
  if starts_with options DASH then Z.lor flags FLAG_ALLARGS
  else if posixly_correct || starts_with options PLUS then Z.land flags (Z.lnot FLAG_PERMUTE)
  else flags.
Definition skip_mode (options : string) : string :=
  if starts_with options PLUS || starts_with options DASH then tl options else options.

(** Permute the skipped operands behind the options before [optind], if any. *)
Definition permute_nonopts (s : getopt_state) : outcome getopt_state :=
  set_nargv s <$> permute_args (nonopt_start s) (nonopt_end s) (optind s) (nargv s).

(** "end of argument vector". *)
Definition end_of_vector (s : getopt_state) : outcome (getopt_state * Z) :=
  let s := set_place s EMSG in
  s ← (if bool_decide (nonopt_end s ≠ -1) then
         s ← permute_nonopts s;
         Ret (set_optind s (optind s - (nonopt_end s - nonopt_start s)))
       else if bool_decide (nonopt_start s ≠ -1) then Ret (set_optind s (nonopt_start s))
       else Ret s);
  Ret (set_nonopt s (-1) (-1), -1).

(** "--": the options end here. *)
Definition end_of_options (s : getopt_state) : outcome (getopt_state * Z) :=
  let s := set_optind s (optind s + 1) in
  let s := set_place s EMSG in
  s ← (if bool_decide (nonopt_end s ≠ -1) then
         s ← permute_nonopts s;
         Ret (set_optind s (optind s - (nonopt_end s - nonopt_start s)))
       else Ret s);
  Ret (set_nonopt s (-1) (-1), -1).

(** "do permutation": an operand is skipped. *)
Definition skip_nonopt (s : getopt_state) : outcome getopt_state :=
  s ← (if bool_decide (nonopt_start s = -1) then Ret (set_nonopt s (optind s) (nonopt_end s))
       else if bool_decide (nonopt_end s ≠ -1) then
         s ← permute_nonopts s;
         Ret (set_nonopt s (optind s - (nonopt_end s - nonopt_start s)) (-1))
       else Ret s);
  Ret (set_optind s (optind s + 1)).

(** From the label [start]: [inl] is a [return], [inr] goes on with the word
    at [place].  The fuel bounds the [goto start]: one per word is enough. *)
Fixpoint scan (fuel : nat) (s : getopt_state) (flags : Z)
    : outcome (getopt_state * Z + getopt_state) :=
  match fuel with
  | O => Undef OutOfFuel
  | S fuel =>
      if bool_decide (optreset s ≠ 0) || is_empty (str (place s)) then
        let s := set_optreset s 0 in
        if bool_decide (optind s >= nargc s) then inl <$> end_of_vector s
        else
          a ← argv_at s (optind s);
          a ← not_null a;
          let s := set_place s a in
          if negb (starts_with (str a) DASH) || is_empty (tl (str a)) then
            let s := set_place s EMSG in
            if bool_decide (Z.land flags FLAG_ALLARGS ≠ 0) then
              a ← argv_at s (optind s);
              Ret (inl (set_optind (set_optarg s a) (optind s + 1), INORDER))
            else if bool_decide (Z.land flags FLAG_PERMUTE = 0) then Ret (inl (s, -1))
            else s ← skip_nonopt s; scan fuel s flags
          else
            let s := if bool_decide (nonopt_start s ≠ -1) && bool_decide (nonopt_end s = -1)
                     then set_nonopt s (nonopt_start s) (optind s) else s in
            let s := set_place s (CPtr (obj a) (tl (str a))) in
            if starts_with (tl (str a)) DASH && is_empty (tl (tl (str a)))
            then inl <$> end_of_options s
            else Ret (inr s)
      else Ret (inr s)
  end.

(** "Check long options": [inr] falls through to the letters. *)
Definition long_part (s : getopt_state) (options : string) (long_options : option (list long_option))
    (idx : bool) (flags : Z) : outcome (getopt_state * Z + getopt_state) :=
  match long_options with
  | None => Ret (inr s)
  | Some lo =>
      a ← argv_at s (optind s);
      if bool_decide (Some (place s) ≠ a)
         && (starts_with (str (place s)) DASH || bool_decide (Z.land flags FLAG_LONGONLY ≠ 0)) then
        let s := set_dash_prefix s D_PREFIX in
        let '(s, short_too) :=
          if starts_with (str (place s)) DASH
          then (set_dash_prefix (set_place s (CPtr (obj (place s)) (tl (str (place s))))) DD_PREFIX, false)
          else (s, match str (place s) with
                   | EmptyString => true
                   | String.String c _ => bool_decide (c ≠ COLON) && bool_decide (strchr options c ≠ None)
                   end) in
        '(s, optchar) ← parse_long_options s options lo idx short_too flags;
        if bool_decide (optchar ≠ -1) then Ret (inl (set_place s EMSG, optchar))
        else Ret (inr s)
      else Ret (inr s)
  end.

Definition LETTER_W : ascii := ascii_of_nat 87.
Definition SEMICOLON : ascii := ascii_of_nat 59.

(** "option requires an argument", with no word left. *)
Definition missing_argument (s : getopt_state) (options : string) (optchar : Z) : getopt_state * Z :=
  let s := set_place s EMSG in
  let s := warnx s options (recargchar optchar) in
  (set_optopt s optchar, BADARG options).

(** "-W long-option". *)
Definition w_option (s : getopt_state) (options : string) (long_options : list long_option)
    (idx : bool) (flags optchar : Z) : outcome (getopt_state * Z) :=
  let parse s :=
    let s := set_dash_prefix s W_PREFIX in
    '(s, optchar) ← parse_long_options s options long_options idx false flags;
    Ret (set_place s EMSG, optchar) in
  if negb (is_empty (str (place s))) then parse s
  else
    let s := set_optind s (optind s + 1) in
    if bool_decide (optind s >= nargc s) then Ret (missing_argument s options optchar)
    else
      a ← argv_at s (optind s);
      a ← not_null a;
      parse (set_place s a).

(** "takes (optional) argument"; [oli] is at the first colon. *)
Definition letter_argument (s : getopt_state) (options oli : string) (optchar : Z)
    : outcome (getopt_state * Z) :=
  let s := set_optarg s None in
  if negb (is_empty (str (place s))) then
    let s := set_optarg s (Some (place s)) in
    let s := set_place s EMSG in
    Ret (set_optind s (optind s + 1), optchar)
  else if negb (starts_with (tl oli) COLON) then
    let s := set_optind s (optind s + 1) in
    if bool_decide (optind s >= nargc s) then Ret (missing_argument s options optchar)
    else
      a ← argv_at s (optind s);
      let s := set_place (set_optarg s a) EMSG in
      Ret (set_optind s (optind s + 1), optchar)
  else
    let s := set_place s EMSG in
    Ret (set_optind s (optind s + 1), optchar).

Definition short_part (s : getopt_state) (posixly_correct : bool) (options : string)
    (long_options : option (list long_option)) (idx : bool) (flags : Z) : outcome (getopt_state * Z) :=
  match str (place s) with
  | EmptyString => Undef OutOfBounds
  | String.String c rest =>
      let optchar := char_int c in
      let s := set_place s (CPtr (obj (place s)) rest) in
      match (if bool_decide (c = COLON) || (bool_decide (c = DASH) && negb (is_empty rest)) then None
             else strchr options c) with
      | None =>
          if bool_decide (c = DASH) && is_empty rest then Ret (s, -1)
          else
            let s := if is_empty rest then set_optind s (optind s + 1) else s in
            let s := warnx s options (if posixly_correct then illoptchar optchar else gnuoptchar optchar) in
            Ret (set_optopt s optchar, BADCH)
      | Some oli =>
          match long_options with
          | Some lo =>
              if bool_decide (c = LETTER_W) && starts_with (tl oli) SEMICOLON then
                w_option s options lo idx flags optchar
              else if negb (starts_with (tl oli) COLON) then
                Ret (if is_empty rest then set_optind s (optind s + 1) else s, optchar)
              else letter_argument s options (tl oli) optchar
          | None =>
              if negb (starts_with (tl oli) COLON) then
                Ret (if is_empty rest then set_optind s (optind s + 1) else s, optchar)
              else letter_argument s options (tl oli) optchar
          end
      end
  end.

(** What the call does before [start]. *)
Definition prepare (s : getopt_state) : getopt_state :=
  let s := if bool_decide (optind s = 0) then set_optreset (set_optind s 1) 1 else s in
  let s := set_optarg s None in
  if bool_decide (optreset s ≠ 0) then set_nonopt s (-1) (-1) else s.

(** [posixly_correct] is the environment's [POSIXLY_CORRECT]. *)
Definition getopt_internal (posixly_correct : bool) (s : getopt_state) (options : option string)
    (long_options : option (list long_option)) (idx : bool) (flags : Z) : outcome (getopt_state * Z) :=
  match options with
  | None => Ret (s, -1)
  | Some options =>
      let flags := effective_flags posixly_correct options flags in
      let options := skip_mode options in
      let s := prepare s in
      r ← scan (S (length (nargv s))) s flags;
      match r with
      | inl r => Ret r
      | inr s =>
          r ← long_part s options long_options idx flags;
          match r with
          | inl r => Ret r
          | inr s => short_part s posixly_correct options long_options idx flags
          end
      end
  end.

Definition getopt_long (posixly_correct : bool) (s : getopt_state) (options : option string)
    (long_options : option (list long_option)) (idx : bool) : outcome (getopt_state * Z) :=
  getopt_internal posixly_correct s options long_options idx FLAG_PERMUTE.

Definition getopt_long_only (posixly_correct : bool) (s : getopt_state) (options : option string)
    (long_options : option (list long_option)) (idx : bool) : outcome (getopt_state * Z) :=
  getopt_internal posixly_correct s options long_options idx (Z.lor FLAG_PERMUTE FLAG_LONGONLY).

(** The state when a command starts, with [optind] reset to 1. *)
Definition getopt_start (argv : list cptr) : getopt_state :=
  GetoptState 1 1 0 1 None EMSG (-1) (-1) NO_PREFIX argv ∅ None [].

(** A caller's loop [while ((ch = getopt_long(...)) != -1)]: the values with
    [optarg], and the final state. *)
Fixpoint getopt_all (next : getopt_state → outcome (getopt_state * Z)) (fuel : nat) (s : getopt_state)
    : outcome (list (Z * option string) * getopt_state) :=
  match fuel with
  | O => Undef OutOfFuel
  | S fuel =>
      '(s, v) ← next s;
      if bool_decide (v = -1) then Ret ([], s)
      else
        '(l, s') ← getopt_all next fuel s;
        Ret ((v, str <$> optarg s) :: l, s')
  end.

(** ** Termination *)

Local Arguments permute_args : simpl never.
Local Arguments scan : simpl never.
Local Arguments find_matching : simpl never.

Lemma permute_args_bounds {A} (l : list A) (ns ne oe : Z) :
  0 ≤ ns < ne → ne < oe ≤ zlen l →
  ∃ l', permute_args ns ne oe l = Ret l' ∧ l' ≡ₚ l ∧ drop (Z.to_nat oe) l' = drop (Z.to_nat oe) l.
Proof.
  intros H1 H2. set (P := ztake ns l). set (N := ztake (ne - ns) (zdrop ns l)).
  set (O := ztake (oe - ne) (zdrop ne l)). set (R := zdrop oe l).
  unfold zlen, ztake, zdrop in *.
  assert (l = P ++ N ++ O ++ R) as E.
  { unfold P, N, O, R. rewrite <- (take_drop (Z.to_nat ns) l) at 1. f_equal.
    rewrite <- (take_drop (Z.to_nat (ne - ns)) (drop (Z.to_nat ns) l)) at 1. f_equal.
    rewrite drop_drop. replace (Z.to_nat ns + Z.to_nat (ne - ns))%nat with (Z.to_nat ne) by lia.
    rewrite <- (take_drop (Z.to_nat (oe - ne)) (drop (Z.to_nat ne) l)) at 1. f_equal.
    rewrite drop_drop. f_equal. lia. }
  assert (length P = Z.to_nat ns) as LP by (unfold P; rewrite length_take; lia).
  assert (length N = Z.to_nat (ne - ns)) as LN by (unfold N; rewrite length_take, length_drop; lia).
  assert (length O = Z.to_nat (oe - ne)) as LO by (unfold O; rewrite length_take, length_drop; lia).
  exists (P ++ O ++ N ++ R). split_and!.
  - pose proof (permute_args_blocks P N O R) as Hb. unfold zlen in Hb. rewrite LP, LN, LO in Hb.
    rewrite E. rewrite <- Hb.
    + f_equal; lia.
    + intros ->. simpl in LN. lia.
    + intros ->. simpl in LO. lia.
  - rewrite E at 1. by rewrite !(assoc_L (++)), <- (assoc_L (++) P O N), <- (assoc_L (++) P N O),
      (Permutation_app_comm O N).
  - rewrite !(assoc_L (++)). rewrite drop_app_length' by (rewrite !length_app; lia).
    rewrite E. rewrite !(assoc_L (++)). by rewrite drop_app_length' by (rewrite !length_app; lia).
Qed.

(** The words of a state, and what is left to scan. *)
Definition strs (s : getopt_state) : list string := str <$> nargv s.
Definition measure (s : getopt_state) : nat :=
  if bool_decide (optreset s ≠ 0) || is_empty (str (place s))
  then words (drop (Z.to_nat (optind s)) (strs s))
  else (String.length (str (place s)) + words (drop (Z.to_nat (optind s + 1)) (strs s)))%nat.

(** The variables [nonopt_start] and [nonopt_end] delimit skipped operands
    before [optind]. *)
Definition nonopt_ok (s : getopt_state) : Prop :=
  (nonopt_start s = -1 ∧ nonopt_end s = -1) ∨
  (0 ≤ nonopt_start s < optind s ∧ optind s ≤ nargc s ∧ nonopt_end s = -1) ∨
  (0 ≤ nonopt_start s < nonopt_end s ∧ nonopt_end s ≤ optind s ≤ nargc s ∧
   (str (place s) = EmptyString → nonopt_end s < optind s)).

Record ready (s : getopt_state) : Prop := {
  rd_ind : 1 ≤ optind s;
  rd_place : optreset s = 0 → str (place s) ≠ EmptyString → optind s < nargc s;
  rd_nonopt : optreset s = 0 → nonopt_ok s }.

(** Inside a word. *)
Record inside (s : getopt_state) : Prop := {
  in_ind : 1 ≤ optind s < nargc s;
  in_reset : optreset s = 0;
  in_place : str (place s) ≠ EmptyString;
  in_nonopt : nonopt_ok s }.

Lemma strs_at s i a : nargv s !! i = Some a → strs s !! i = Some (str a).
Proof. intros H. unfold strs. by rewrite list_lookup_fmap, H. Qed.

Lemma argv_at_ok s : 1 ≤ optind s < nargc s →
  ∃ a, nargv s !! Z.to_nat (optind s) = Some a ∧ argv_at s (optind s) = Ret (Some a).
Proof.
  intros H. destruct (lookup_lt_is_Some_2 (nargv s) (Z.to_nat (optind s))) as [a Ha].
  { unfold nargc, zlen in H. lia. }
  exists a. split; [done|]. unfold argv_at. rewrite bool_decide_eq_true_2 by lia. by rewrite Ha.
Qed.

(** A call that leaves [optind] after the word and [place] empty. *)
Lemma measure_next s s' :
  inside s → str (place s') = EmptyString → optind s < optind s' → nargv s' = nargv s →
  (measure s' < measure s)%nat.
Proof.
  intros [H1 H2 H3 H4] Hp Ho Hv. unfold measure, strs. rewrite Hp, Hv, H2, orb_true_r. simpl.
  destruct (is_empty (str (place s))) eqn:E; [by apply is_empty_true in E|].
  pose proof (words_drop_le (str <$> nargv s) (Z.to_nat (optind s + 1)) (Z.to_nat (optind s')) ltac:(lia)).
  destruct (str (place s)); [done|]. simpl. lia.
Qed.

Lemma ready_next s s' :
  inside s → str (place s') = EmptyString → optind s < optind s' ≤ nargc s → nargv s' = nargv s →
  optreset s' = optreset s → nonopt_start s' = nonopt_start s → nonopt_end s' = nonopt_end s →
  ready s'.
Proof.
  intros [H1 H2 H3 H4] Hp Ho Hv Hr Hs He.
  assert (nargc s' = nargc s) as Hc by (unfold nargc; by rewrite Hv).
  split; [lia|done|]. intros _. unfold nonopt_ok. rewrite Hc, Hs, He. destruct H4 as [?|[?|?]]; lia.
Qed.

(** The long options. *)
Definition vals_ok (lo : list long_option) : Prop := Forall (λ o, flag o = None → val o ≠ -1) lo.

Lemma long_at_ok lo i : 0 ≤ i < zlen lo → ∃ o, lo !! Z.to_nat i = Some o ∧ long_at lo i = Ret o.
Proof.
  intros Hi. unfold long_at. rewrite bool_decide_eq_true_2 by lia.
  destruct (lookup_lt_is_Some_2 lo (Z.to_nat i)) as [o Ho]; [unfold zlen in Hi; lia|].
  exists o. by rewrite Ho.
Qed.

Lemma find_matching_defined cur len sh flags lo done_ rest mtch second :
  lo = done_ ++ rest → (mtch = -1 ∨ 0 ≤ mtch < zlen done_) →
  ∃ mtch' exact second', find_matching cur len sh flags lo rest (zlen done_) mtch second
    = Ret (mtch', exact, second') ∧ (mtch' = -1 ∨ 0 ≤ mtch' < zlen lo).
Proof.
  revert done_ mtch second. induction rest as [|o rest IH]; intros done_ mtch second E Hm; simpl.
  - eexists _, _, _. split; [done|]. subst lo. by rewrite app_nil_r.
  - assert (zlen done_ + 1 = zlen (done_ ++ [o])) as EL by (unfold zlen; rewrite length_app; simpl; lia).
    assert (zlen done_ < zlen lo) as Hlt by (rewrite E; unfold zlen; rewrite length_app; simpl; lia).
    assert (0 ≤ zlen done_) by (unfold zlen; lia).
    assert (∀ mtch second, mtch = -1 ∨ 0 ≤ mtch < zlen done_ + 1 → ∃ mtch' exact second',
      find_matching cur len sh flags lo rest (zlen done_ + 1) mtch second
      = Ret (mtch', exact, second') ∧ (mtch' = -1 ∨ 0 ≤ mtch' < zlen lo)) as Hgo.
    { intros mt sc Hmt. rewrite EL. apply IH; [by rewrite E, <- app_assoc|lia]. }
    unfold find_matching; fold find_matching.
    destruct (negb _); [apply Hgo; lia|]. case_bool_decide.
    { eexists _, _, _. split; [done|]. right. lia. }
    destruct (sh && _); [apply Hgo; lia|]. case_bool_decide; [apply Hgo; lia|].
    destruct (long_at_ok lo mtch) as (om & _ & ->); [lia|]. simpl.
    apply Hgo. lia.
Qed.

(** What a call of [parse_long_options] leaves alone. *)
Record same_frame (s s' : getopt_state) : Prop := {
  sf_nargv : nargv s' = nargv s;
  sf_reset : optreset s' = optreset s;
  sf_start : nonopt_start s' = nonopt_start s;
  sf_end : nonopt_end s' = nonopt_end s;
  sf_place : place s' = place s }.

Lemma warnx_fields s options w :
  same_frame s (warnx s options w) ∧ optind (warnx s options w) = optind s
  ∧ optarg (warnx s options w) = optarg s.
Proof. unfold warnx. by destruct (bool_decide _ && _). Qed.

Lemma BADARG_value options : BADARG options ≠ -1.
Proof. unfold BADARG. by destruct (starts_with _ _). Qed.

Lemma long_found_defined s options cur len he idx mtch o :
  1 ≤ optind s ≤ nargc s → (flag o = None → val o ≠ -1) →
  ∃ s' v, long_found s options cur len he idx mtch o = Ret (s', v) ∧ same_frame s s' ∧
    optind s ≤ optind s' ≤ nargc s ∧ v ≠ -1.
Proof.
  intros Hi Hv. unfold long_found. destruct (bool_decide _ && _) eqn:E1.
  { destruct (warnx_fields s options (noarg (current_dash s) len cur)) as [[] [Ho _]].
    eexists _, _. split; [done|]. split; [by split|]. simpl. rewrite Ho. split; [lia|done]. }
  set (cont := λ s, if bool_decide (has_arg o = required_argument) && bool_decide (optarg s = None)
    then _ else _).
  assert (∀ s1, same_frame s s1 → optind s ≤ optind s1 →
    (optarg s1 = None ∧ has_arg o = required_argument → optind s < optind s1 ∧ optind s1 ≤ nargc s + 1) →
    (optarg s1 ≠ None ∨ has_arg o ≠ required_argument → optind s1 ≤ nargc s) →
    ∃ s' v, cont s1 = Ret (s', v) ∧ same_frame s s' ∧ optind s ≤ optind s' ≤ nargc s ∧ v ≠ -1) as Hc.
  { intros s1 [F1 F2 F3 F4 F5] Hle Hnone Hsome. unfold cont. clear cont.
    destruct (bool_decide (has_arg o = required_argument) && _) eqn:E2.
    - apply andb_true_iff in E2 as [E2%bool_decide_eq_true E3%bool_decide_eq_true].
      destruct (warnx_fields s1 options (recargstring (current_dash s1) cur)) as [[] [Ho _]].
      eexists _, _. split; [done|]. split; [split; simpl; congruence|]. simpl. rewrite Ho.
      specialize (Hnone (conj E3 E2)). split; [lia|]. apply BADARG_value.
    - assert (optind s1 ≤ nargc s).
      { apply Hsome. apply andb_false_iff in E2 as [E2%bool_decide_eq_false|E2%bool_decide_eq_false]; auto. }
      destruct idx, (flag o); (eexists _, _; split; [done|]; split; [by split|]; split; [simpl; lia|]);
        try done; by apply Hv. }
  assert (same_frame s s) as Hrefl by done.
  destruct (bool_decide (has_arg o = required_argument) || _) eqn:E2; simpl.
  - destruct he as [e|]; simpl; [by apply Hc; simpl; try done; try lia; intros []|].
    case_bool_decide as Hreq; simpl.
    + unfold argv_at. rewrite bool_decide_eq_true_2 by lia. simpl.
      apply Hc; simpl; [done|lia|lia|]. intros [Hs|]; [|done].
      apply not_eq_None_Some in Hs as [a Ha]. apply lookup_lt_Some in Ha. unfold nargc, zlen. lia.
    + apply Hc; simpl; [done|lia|by intros []|lia].
  - apply Hc; simpl; [done|lia| |lia]. intros [_ Hreq].
    rewrite bool_decide_eq_true_2 in E2 by done. done.
Qed.

Lemma parse_long_defined s options lo idx sh flags :
  1 ≤ optind s < nargc s → vals_ok lo →
  ∃ s' v, parse_long_options s options lo idx sh flags = Ret (s', v) ∧ same_frame s s' ∧
    ((v = -1 ∧ sh = true ∧ optind s' = optind s) ∨ (v ≠ -1 ∧ optind s < optind s' ≤ nargc s)).
Proof.
  intros Hi Hv. unfold parse_long_options. simpl.
  destruct (match strchr (str (place s)) EQUALS with Some _ => _ | None => _ end) as [len he].
  destruct (find_matching_defined (str (place s)) len sh flags lo [] lo (-1) false)
    as (mtch & exact & second & E & Hm); [done|by left|].
  change (zlen (@nil long_option)) with 0 in E. rewrite E. simpl.
  set (s1 := set_optind s (optind s + 1)).
  assert (same_frame s s1) as Hf1 by done.
  destruct (negb exact && second).
  { destruct (warnx_fields s1 options (ambig (current_dash s1) (Z.of_nat len) (str (place s)))) as [[] [Ho _]].
    eexists _, _. split; [done|]. split; [by split|]. right. split; [done|]. simpl. rewrite Ho. simpl. lia. }
  case_bool_decide as Hne.
  - destruct Hm as [|Hm]; [done|]. destruct (long_at_ok lo mtch) as (o & Ho & ->); [lia|]. simpl.
    destruct (long_found_defined s1 options (str (place s)) (Z.of_nat len) he idx mtch o)
      as (s' & v & -> & [] & Hi' & Hv'); [simpl; change (nargc s1) with (nargc s); lia|exact (Forall_lookup_1 _ _ _ _ Hv Ho)|].
    eexists _, _. split; [done|]. split; [by split|]. right. simpl in Hi'.
    change (nargc s1) with (nargc s) in Hi'. lia.
  - destruct sh.
    + eexists _, _. split; [done|]. split; [done|]. left. simpl. lia.
    + destruct (warnx_fields s1 options (illoptstring (current_dash s1) (str (place s)))) as [[] [Ho _]].
      eexists _, _. split; [done|]. split; [by split|]. right. split; [done|]. simpl. rewrite Ho. simpl. lia.
Qed.

(** ** The parts of a call *)

(** How a call may end: it returns -1, or leaves less to scan. *)
Definition progress (s : getopt_state) (r : getopt_state * Z) : Prop :=
  nargv (fst r) ≡ₚ nargv s ∧ (snd r = -1 ∨ (ready (fst r) ∧ (measure (fst r) < measure s)%nat)).

Lemma progress_next s s' v :
  inside s → str (place s') = EmptyString → optind s < optind s' ≤ nargc s → nargv s' = nargv s →
  optreset s' = optreset s → nonopt_start s' = nonopt_start s → nonopt_end s' = nonopt_end s →
  progress s (s', v).
Proof.
  intros Hin Hp Ho Hv Hr Hs He. split; simpl; [by rewrite Hv|]. right.
  split; [by eapply ready_next|apply measure_next; (done || lia)].
Qed.

(** The current word goes on. *)
Lemma progress_inside s s' v c rest :
  inside s → str (place s) = String.String c rest → str (place s') = rest → rest ≠ EmptyString →
  optind s' = optind s → nargv s' = nargv s → optreset s' = optreset s →
  nonopt_start s' = nonopt_start s → nonopt_end s' = nonopt_end s → progress s (s', v).
Proof.
  intros [H1 H2 H3 H4] Hp Hp' Hne Ho Hv Hr Hs He.
  assert (nargc s' = nargc s) as Hc by (unfold nargc; by rewrite Hv).
  split; simpl; [by rewrite Hv|]. right. split.
  - split; [lia|lia|]. intros _. unfold nonopt_ok in *. rewrite Hc, Hs, He, Ho. rewrite Hp in H4.
    destruct H4 as [?|[?|(? & ? & _)]]; [by left|right; by left|right; right]. split_and!; try lia.
    by rewrite Hp'.
  - unfold measure, strs. rewrite Hp', Hp, Hv, Hr, H2, Ho. simpl.
    destruct rest; [done|]. simpl. lia.
Qed.

Lemma missing_argument_progress s s1 options c :
  inside s → optind s < optind s1 ≤ nargc s → nargv s1 = nargv s →
  optreset s1 = optreset s → nonopt_start s1 = nonopt_start s → nonopt_end s1 = nonopt_end s →
  progress s (missing_argument s1 options c).
Proof.
  intros. unfold missing_argument.
  destruct (warnx_fields (set_place s1 EMSG) options (recargchar c)) as [[F1 F2 F3 F4 F5] [Ho _]].
  simpl in *. apply progress_next; simpl; [done|by rewrite F5|lia|congruence..].
Qed.

Lemma w_option_progress s s1 options lo idx flags c :
  inside s → same_frame (set_place s (place s1)) s1 → optind s1 = optind s → vals_ok lo →
  ∃ r, w_option s1 options lo idx flags c = Ret r ∧ progress s r.
Proof.
  intros Hin [F1 F2 F3 F4 _] Ho Hv. simpl in *. pose proof Hin as [H1 H2 H3 H4].
  assert (nargc s1 = nargc s) as Hc by (unfold nargc; by rewrite F1).
  assert (∀ s2, nargv s2 = nargv s → optreset s2 = optreset s → nonopt_start s2 = nonopt_start s →
    nonopt_end s2 = nonopt_end s → optind s ≤ optind s2 < nargc s →
    ∃ r, ('(s, v) ← parse_long_options (set_dash_prefix s2 W_PREFIX) options lo idx false flags;
          Ret (set_place s EMSG, v)) = Ret r ∧ progress s r) as Hparse.
  { intros s2 G1 G2 G3 G4 Hi.
    assert (nargc s2 = nargc s) as Hc2 by (unfold nargc; by rewrite G1).
    destruct (parse_long_defined (set_dash_prefix s2 W_PREFIX) options lo idx false flags)
      as (s3 & v & -> & [K1 K2 K3 K4 _] & Hor); simpl in *; [change (nargc (set_dash_prefix s2 W_PREFIX))
      with (nargc s2); lia|done|].
    eexists. split; [done|]. destruct Hor as [(_ & ? & _)|(_ & Hi3)]; [done|].
    change (nargc (set_dash_prefix s2 W_PREFIX)) with (nargc s2) in Hi3.
    apply progress_next; simpl; try congruence; try done. lia. }
  unfold w_option. destruct (is_empty (str (place s1))); simpl; [|apply Hparse; (done || lia)].
  change (nargc (set_optind s1 (optind s1 + 1))) with (nargc s1).
  case_bool_decide as Hge.
  - eexists. split; [done|]. apply missing_argument_progress; simpl; (done || lia).
  - destruct (argv_at_ok (set_optind s1 (optind s1 + 1))) as (a & Ha & Ea); [simpl;
      change (nargc (set_optind s1 (optind s1 + 1))) with (nargc s1); lia|].
    simpl in Ea. rewrite Ea. simpl. apply Hparse; simpl; try done. lia.
Qed.

Lemma letter_argument_progress s s1 options oli c :
  inside s → same_frame (set_place s (place s1)) s1 → optind s1 = optind s →
  ∃ r, letter_argument s1 options oli c = Ret r ∧ progress s r.
Proof.
  intros Hin [F1 F2 F3 F4 _] Ho. simpl in *. pose proof Hin as [H1 H2 H3 H4].
  assert (nargc s1 = nargc s) as Hc by (unfold nargc; by rewrite F1).
  unfold letter_argument. simpl. destruct (negb (is_empty (str (place s1)))); simpl.
  { eexists. split; [done|]. apply progress_next; simpl; (done || lia). }
  destruct (negb (starts_with (tl oli) COLON)).
  - change (nargc (set_optind (set_optarg s1 None) (optind s1 + 1))) with (nargc s1).
    case_bool_decide as Hge.
    + eexists. split; [done|]. apply missing_argument_progress; simpl; (done || lia).
    + destruct (argv_at_ok (set_optind (set_optarg s1 None) (optind s1 + 1))) as (a & Ha & Ea);
        [simpl; change (nargc (set_optind (set_optarg s1 None) (optind s1 + 1))) with (nargc s1); lia|].
      simpl in Ea. rewrite Ea. simpl. eexists. split; [done|].
      apply progress_next; simpl; (done || lia).
  - eexists. split; [done|]. apply progress_next; simpl; (done || lia).
Qed.

Lemma short_part_progress s pc options lo idx flags :
  inside s → (∀ l, lo = Some l → vals_ok l) →
  ∃ r, short_part s pc options lo idx flags = Ret r ∧ progress s r.
Proof.
  intros Hin Hv. pose proof Hin as [H1 H2 H3 H4]. unfold short_part.
  destruct (str (place s)) as [|c rest] eqn:Ep; [done|].
  set (s1 := set_place s (CPtr (obj (place s)) rest)).
  assert (same_frame (set_place s (place s1)) s1) as Hf by done.
  assert (∀ v s2, (∃ w, s2 = set_optopt (warnx (if is_empty rest then set_optind s1 (optind s1 + 1) else s1)
     options w) v ∨ s2 = if is_empty rest then set_optind s1 (optind s1 + 1) else s1) →
    ∀ x, progress s (s2, x)) as Hword.
  { intros v s2 (w & Hs2) x. destruct (is_empty rest) eqn:Er.
    - apply is_empty_true in Er.
      destruct (warnx_fields (set_optind s1 (optind s1 + 1)) options w) as [[F1 F2 F3 F4 F5] [Fo _]].
      unfold s1 in *. simpl in *. destruct Hs2 as [-> | ->].
      + apply progress_next; simpl; [done|by rewrite F5|lia|congruence..].
      + apply progress_next; simpl; (done || lia).
    - assert (rest ≠ EmptyString) by (by destruct rest).
      destruct (warnx_fields s1 options w) as [[F1 F2 F3 F4 F5] [Fo _]].
      unfold s1 in *. simpl in *. destruct Hs2 as [-> | ->].
      + eapply progress_inside; simpl; [done|done|by rewrite F5|done|congruence..].
      + eapply progress_inside; done. }
  destruct (if bool_decide (c = COLON) || _ then None else strchr options c) as [oli|].
  - assert (∃ r, (if negb (starts_with (tl oli) COLON)
      then Ret (if is_empty rest then set_optind s1 (optind s1 + 1) else s1, char_int c)
      else letter_argument s1 options (tl oli) (char_int c)) = Ret r ∧ progress s r) as Hplain.
    { destruct (negb _); [|by apply letter_argument_progress]. eexists. split; [done|].
      apply (Hword 0). exists (recargchar 0). by right. }
    destruct lo as [lo|]; [|done]. destruct (bool_decide (c = LETTER_W) && _); [|done].
    apply w_option_progress; try done. by apply Hv.
  - destruct (bool_decide (c = DASH) && is_empty rest).
    + eexists. split; [done|]. split; [done|]. by left.
    + eexists. split; [done|]. eapply Hword. eexists. by left.
Qed.

Lemma long_part_progress s options lo idx flags :
  inside s → (∀ l, lo = Some l → vals_ok l) →
  (∃ r, long_part s options lo idx flags = Ret (inl r) ∧ progress s r) ∨
  (∃ s', long_part s options lo idx flags = Ret (inr s') ∧ inside s' ∧ nargv s' = nargv s ∧
         measure s' = measure s).
Proof.
  intros Hin Hv. pose proof Hin as [H1 H2 H3 H4]. unfold long_part.
  destruct lo as [lo|]; [|by right; exists s]. specialize (Hv lo eq_refl).
  destruct (argv_at_ok s H1) as (a & _ & ->). simpl.
  destruct (bool_decide _ && _); [|by right; exists s].
  destruct (starts_with (str (place s)) DASH) eqn:Ed; simpl.
  - set (s1 := set_dash_prefix _ DD_PREFIX).
    destruct (parse_long_defined s1 options lo idx false flags)
      as (s' & v & -> & [F1 F2 F3 F4 F5] & [(_ & ? & _)|(Hv' & Hi)]); [done|done|done|]. simpl.
    rewrite bool_decide_eq_true_2 by done. left. eexists. split; [done|].
    change (nargc s1) with (nargc s) in Hi. unfold s1 in *. simpl in *. by apply progress_next.
  - set (sh := match str (place s) with EmptyString => true | _ => _ end).
    destruct (parse_long_defined (set_dash_prefix s D_PREFIX) options lo idx sh flags)
      as (s' & v & -> & [F1 F2 F3 F4 F5] & Hor); [done|done|]. simpl in *.
    change (nargc (set_dash_prefix s D_PREFIX)) with (nargc s) in Hor.
    destruct Hor as [(-> & _ & Hi)|(Hv' & Hi)]; simpl.
    + right. exists s'. split; [done|].
      assert (nargc s' = nargc s) as Hc by (unfold nargc; by rewrite F1).
      split; [split; [lia|congruence|congruence|]|split; [done|]].
      * unfold nonopt_ok. by rewrite F3, F4, F5, Hi, Hc.
      * unfold measure, strs. by rewrite F1, F2, F5, Hi.
    + rewrite bool_decide_eq_true_2 by done. left. eexists. split; [done|]. by apply progress_next.
Qed.

(** Permuting in the middle of a scan. *)
Lemma permute_nonopts_ok s :
  0 ≤ nonopt_start s < nonopt_end s → nonopt_end s < optind s ≤ nargc s →
  ∃ l, permute_nonopts s = Ret (set_nargv s l) ∧ l ≡ₚ nargv s ∧
       drop (Z.to_nat (optind s)) l = drop (Z.to_nat (optind s)) (nargv s).
Proof.
  intros Hs He. destruct (permute_args_bounds (nargv s) _ _ _ Hs He) as (l & E & Hp & Hd).
  exists l. unfold permute_nonopts. by rewrite E.
Qed.

(** A scanning pointer is wanted: the state is between two words. *)
Record between (s : getopt_state) : Prop := {
  bt_ind : 1 ≤ optind s;
  bt_reset : optreset s = 0;
  bt_place : str (place s) = EmptyString;
  bt_nonopt : nonopt_ok s }.

Lemma end_of_vector_ok s : between s →
  ∃ s', end_of_vector s = Ret (s', -1) ∧ nargv s' ≡ₚ nargv s.
Proof.
  intros [H1 H2 H3 H4]. unfold end_of_vector. simpl.
  destruct H4 as [[E1 E2]|[(E1 & _ & E2)|(E1 & E2 & E3)]].
  - rewrite !bool_decide_eq_false_2 by (rewrite ?E1, ?E2; auto). simpl. by eexists.
  - rewrite bool_decide_eq_false_2, bool_decide_eq_true_2 by lia. simpl. by eexists.
  - rewrite bool_decide_eq_true_2 by lia. specialize (E3 H3).
    destruct (permute_nonopts_ok (set_place s EMSG)) as (l & -> & Hp & _); simpl;
      [done|change (nargc (set_place s EMSG)) with (nargc s); lia|]. by eexists.
Qed.

Lemma end_of_options_ok s :
  1 ≤ optind s < nargc s → (nonopt_start s = -1 ∧ nonopt_end s = -1 ∨
    0 ≤ nonopt_start s < nonopt_end s ∧ nonopt_end s ≤ optind s) →
  ∃ s', end_of_options s = Ret (s', -1) ∧ nargv s' ≡ₚ nargv s.
Proof.
  intros H1 [[E1 E2]|[E1 E2]]; unfold end_of_options; simpl.
  - rewrite bool_decide_eq_false_2 by lia. simpl. by eexists.
  - rewrite bool_decide_eq_true_2 by lia.
    destruct (permute_nonopts_ok (set_place (set_optind s (optind s + 1)) EMSG)) as (l & -> & Hp & _);
      simpl; [done|change (nargc _) with (nargc s); lia|]. by eexists.
Qed.

Lemma skip_nonopt_ok s : between s → optind s < nargc s →
  ∃ s', skip_nonopt s = Ret s' ∧ nargv s' ≡ₚ nargv s ∧ between s' ∧ optind s' = optind s + 1 ∧
        (measure s' < measure s)%nat.
Proof.
  intros [H1 H2 H3 H4] Hlt. unfold skip_nonopt.
  assert (∀ l, drop (Z.to_nat (optind s)) l = drop (Z.to_nat (optind s)) (nargv s) →
    words (drop (Z.to_nat (optind s + 1)) (str <$> l)) < words (drop (Z.to_nat (optind s)) (strs s)))%nat as Hw.
  { intros l Hl. destruct (argv_at_ok s (conj H1 Hlt)) as (a & Ha & _).
    rewrite (words_drop_S _ _ _ (strs_at _ _ _ Ha)). unfold strs. rewrite <- !fmap_drop.
    replace (Z.to_nat (optind s + 1)) with (Z.to_nat (optind s) + 1)%nat by lia.
    replace (S (Z.to_nat (optind s))) with (Z.to_nat (optind s) + 1)%nat by lia.
    rewrite <- !drop_drop, Hl. lia. }
  assert (measure s = words (drop (Z.to_nat (optind s)) (strs s))) as Hm
    by (unfold measure; by rewrite H3, orb_true_r).
  destruct H4 as [[E1 E2]|[(E1 & _ & E2)|(E1 & E2 & E3)]].
  - rewrite bool_decide_eq_true_2 by done. simpl. eexists. split; [done|]. split; [done|].
    split; [split; simpl; try done; [lia|]|split; [done|]].
    + right; left. simpl. change (nargc _) with (nargc s). lia.
    + rewrite Hm. unfold measure. simpl. rewrite H3, orb_true_r. by apply Hw.
  - rewrite !bool_decide_eq_false_2 by lia. simpl. eexists. split; [done|]. split; [done|].
    split; [split; simpl; try done; [lia|]|split; [done|]].
    + right; left. simpl. change (nargc _) with (nargc s). lia.
    + rewrite Hm. unfold measure. simpl. rewrite H3, orb_true_r. by apply Hw.
  - rewrite bool_decide_eq_false_2, bool_decide_eq_true_2 by lia. specialize (E3 H3).
    destruct (permute_nonopts_ok s) as (l & -> & Hp & Hd); [done|lia|]. simpl.
    eexists. split; [done|]. split; [done|].
    split; [split; simpl; try done; [lia|]|split; [done|]].
    + right; left. apply Permutation_length in Hp. unfold nargc, zlen in *. simpl. lia.
    + rewrite Hm. unfold measure, strs. simpl. rewrite H3, orb_true_r. by apply Hw.
Qed.

(** An option word: the rest of the state keeps its place. *)
Definition enter_word (s : getopt_state) (a : cptr) : getopt_state :=
  let s := set_place s a in
  let s := if bool_decide (nonopt_start s ≠ -1) && bool_decide (nonopt_end s = -1)
           then set_nonopt s (nonopt_start s) (optind s) else s in
  set_place s (CPtr (obj a) (tl (str a))).

Lemma enter_word_ok s a : between s → optind s < nargc s → tl (str a) ≠ EmptyString →
  nargv s !! Z.to_nat (optind s) = Some a →
  inside (enter_word s a) ∧ nargv (enter_word s a) = nargv s ∧
  optind (enter_word s a) = optind s ∧ (measure (enter_word s a) ≤ measure s)%nat ∧
  (nonopt_start (enter_word s a) = -1 ∧ nonopt_end (enter_word s a) = -1 ∨
   0 ≤ nonopt_start (enter_word s a) < nonopt_end (enter_word s a) ∧
   nonopt_end (enter_word s a) ≤ optind s).
Proof.
  intros [H1 H2 H3 H4] Hlt Ha Hl. unfold enter_word. simpl.
  assert (measure s = S (String.length (str a)) + words (drop (Z.to_nat (optind s + 1)) (strs s)))%nat as Hm.
  { unfold measure. rewrite H3, orb_true_r, (words_drop_S _ _ _ (strs_at _ _ _ Hl)).
    by replace (S (Z.to_nat (optind s))) with (Z.to_nat (optind s + 1)) by lia. }
  rewrite Hm.
  assert (∀ s', optreset s' = 0 → str (place s') = tl (str a) → optind s' = optind s → nargv s' = nargv s →
    measure s' = (String.length (tl (str a)) + words (drop (Z.to_nat (optind s + 1)) (strs s)))%nat) as Hm'.
  { intros s' R1 R2 R3 R4. unfold measure, strs. rewrite R1, R2, R3, R4. simpl. by destruct (tl (str a)). }
  assert (String.length (tl (str a)) ≤ String.length (str a))%nat by (destruct (str a); simpl; lia).
  destruct H4 as [[E1 E2]|[(E1 & E2 & E3)|(E1 & E2 & E3)]].
  - rewrite E1. simpl.
    split_and!; try done; [split; try done; by left| |by left].
    rewrite Hm' by done. lia.
  - rewrite bool_decide_eq_true_2, (bool_decide_eq_true_2 (nonopt_end s = -1)) by lia. simpl.
    split_and!; try done; [split; try done; right; right| |right; simpl; lia].
    + simpl. change (nargc _) with (nargc s). split_and!; try lia. done.
    + rewrite Hm' by done. lia.
  - rewrite (bool_decide_eq_false_2 (nonopt_end s = -1)), andb_false_r by lia.
    split_and!; try done; [split; try done; right; right| |right; simpl; lia].
    + simpl. change (nargc _) with (nargc s). split_and!; try lia. done.
    + rewrite Hm' by done. lia.
Qed.

Lemma scan_progress fuel s flags :
  between s → (Z.to_nat (nargc s - optind s) < fuel)%nat →
  (∃ r, scan fuel s flags = Ret (inl r) ∧ progress s r) ∨
  (∃ s', scan fuel s flags = Ret (inr s') ∧ inside s' ∧ nargv s' ≡ₚ nargv s ∧
         (measure s' ≤ measure s)%nat).
Proof.
  revert s. induction fuel as [|fuel IH]; intros s Hb Hf; [lia|]. pose proof Hb as [H1 H2 H3 H4].
  unfold scan; fold scan. rewrite H3, orb_true_r. simpl.
  assert (set_optreset s 0 = s) as -> by (destruct s; simpl in *; by subst).
  case_bool_decide as Hge.
  { left. destruct (end_of_vector_ok s Hb) as (s' & -> & Hp). eexists. split; [done|].
    split; [done|]. by left. }
  destruct (argv_at_ok s ltac:(lia)) as (a & Ha & Ea). rewrite Ea. simpl.
  destruct (negb (starts_with (str a) DASH) || is_empty (tl (str a))) eqn:Eo.
  - change (argv_at (set_place (set_place s a) EMSG) (optind s)) with (argv_at s (optind s)).
    set (s1 := set_place (set_place s a) EMSG).
    assert (between s1) as Hb1.
    { split; try done. unfold s1, nonopt_ok in *. simpl in *. change (nargc _) with (nargc s).
      rewrite H3 in H4. done. }
    assert (measure s1 = measure s) as Hm1.
    { unfold measure, s1. simpl. by rewrite H2, H3. }
    case_bool_decide.
    { rewrite Ea. simpl. left. eexists. split; [done|]. split; [done|]. right. simpl. split.
      - split; simpl; try done; try lia. unfold nonopt_ok in *. simpl. change (nargc _) with (nargc s).
        destruct H4 as [?|[?|(? & ? & Hx)]]; [by left|right; left; lia|].
        specialize (Hx H3). right; right. lia.
      - unfold measure. rewrite H3, orb_true_r. simpl. rewrite orb_true_r.
        rewrite (words_drop_S _ _ _ (strs_at _ _ _ Ha)).
        replace (Z.to_nat (optind s + 1)) with (S (Z.to_nat (optind s))) by lia. unfold strs. simpl. lia. }
    case_bool_decide.
    { left. eexists. split; [done|]. split; [done|]. by left. }
    destruct (skip_nonopt_ok s1 Hb1) as (s2 & -> & Hp & Hb2 & Ho & Hm2); [unfold s1; simpl; change (nargc _) with (nargc s); lia|].
    simpl. change (nargv s1) with (nargv s) in Hp.
    assert (nargc s2 = nargc s) as Hc by (unfold nargc, zlen; by rewrite Hp).
    destruct (IH s2 Hb2) as [(r & -> & Hp' & Hor)|(s' & -> & Hin & Hp' & Hm')].
    { rewrite Ho, Hc. unfold s1. simpl. lia. }
    + left. eexists. split; [done|]. split; [by rewrite Hp'|]. destruct Hor as [|[? ?]]; [by left|].
      right. split; [done|lia].
    + right. eexists. split; [done|]. split_and!; [done|by rewrite Hp'|lia].
  - apply orb_false_iff in Eo as [_ Ee].
    destruct (enter_word_ok s a Hb ltac:(lia)) as (Hin & Hv & Ho & Hm & Hn); [by destruct (tl (str a))|done|].
    change (set_place (if bool_decide (nonopt_start s ≠ -1) && bool_decide (nonopt_end s = -1)
      then _ else _) _) with (enter_word s a).
    destruct (starts_with (tl (str a)) DASH && _).
    + left. destruct (end_of_options_ok (enter_word s a)) as (s' & -> & Hp).
      * rewrite Ho. unfold nargc. rewrite Hv. fold (nargc s). lia.
      * by rewrite Ho.
      * eexists. split; [done|]. split; [by rewrite Hp, Hv|by left].
    + right. exists (enter_word s a). by rewrite Hv.
Qed.

Lemma scan_inside fuel s flags : inside s → scan (S fuel) s flags = Ret (inr s).
Proof.
  intros [_ H2 H3 _]. unfold scan. rewrite H2.
  destruct (str (place s)) eqn:E; [done|]. by simpl.
Qed.

(** The first call after a reset scans the same way as one between two words. *)
Lemma scan_reset fuel s flags :
  optreset s ≠ 0 → scan (S fuel) s flags = scan (S fuel) (set_optreset (set_place s EMSG) 0) flags.
Proof. intros H. unfold scan; fold scan. rewrite bool_decide_eq_true_2 by done. done. Qed.

Lemma prepare_ready s : ready s →
  let s1 := prepare s in
  nargv s1 = nargv s ∧ measure s1 = measure s ∧
  (inside s1 ∨ ∃ s2, between s2 ∧ nargv s2 = nargv s ∧ measure s2 = measure s ∧ optind s2 = optind s ∧
     ∀ fuel flags, scan (S fuel) s1 flags = scan (S fuel) s2 flags).
Proof.
  intros [H1 H2 H3]. unfold prepare. rewrite (bool_decide_eq_false_2 (optind s = 0)) by lia. simpl.
  destruct (decide (optreset s = 0)) as [E|Hne].
  - specialize (H2 E). specialize (H3 E). rewrite bool_decide_eq_false_2 by auto.
    split_and!; [done..|]. destruct (str (place s)) as [|c w] eqn:Ep.
    + right. exists (set_optarg s None). by split_and!.
    + left. split; try done; simpl; [|by rewrite Ep]. split; [done|by apply H2].
  - rewrite bool_decide_eq_true_2 by done. split_and!; [done..|]. right.
    exists (set_optreset (set_place (set_nonopt (set_optarg s None) (-1) (-1)) EMSG) 0).
    split_and!; try done.
    + split; try done. by left.
    + unfold measure. simpl. by rewrite (bool_decide_eq_true_2 (optreset s ≠ 0)).
    + intros. by apply scan_reset.
Qed.

Lemma getopt_internal_progress pc s options lo idx flags :
  ready s → (∀ l, lo = Some l → vals_ok l) →
  ∃ r, getopt_internal pc s options lo idx flags = Ret r ∧ progress s r.
Proof.
  intros Hr Hv. unfold getopt_internal. destruct options as [options|].
  2: { eexists. split; [done|]. split; [done|by left]. }
  destruct (prepare_ready s Hr) as (Hv1 & Hm1 & Hcase). cbv zeta.
  assert (∀ s2, inside s2 → nargv s2 ≡ₚ nargv s → (measure s2 ≤ measure s)%nat → ∃ r,
    (r ← long_part s2 (skip_mode options) lo idx (effective_flags pc options flags);
     match r with inl r => Ret r
     | inr s => short_part s pc (skip_mode options) lo idx (effective_flags pc options flags) end) = Ret r
    ∧ progress s r) as Hrest.
  { intros s2 Hin Hp Hle.
    assert (∀ r, progress s2 r → progress s r) as Hmono.
    { intros r [Hq Hor]. split; [by rewrite Hq|]. destruct Hor as [|[? ?]]; [by left|right; split; [done|lia]]. }
    destruct (long_part_progress s2 (skip_mode options) lo idx (effective_flags pc options flags) Hin Hv)
      as [(r & -> & Hpr)|(s3 & -> & Hin3 & Hv3 & Hm3)]; simpl; [eauto|].
    destruct (short_part_progress s3 pc (skip_mode options) lo idx (effective_flags pc options flags) Hin3 Hv)
      as (r & -> & Hq & Hor). exists r. split; [done|]. apply Hmono. split; [by rewrite Hq, Hv3|].
    by rewrite <- Hm3. }
  destruct Hcase as [Hin|(s2 & Hb & Hv2 & Hm2 & Ho2 & Hscan)].
  - rewrite scan_inside by done. simpl. apply Hrest; [done|by rewrite Hv1|lia].
  - rewrite Hscan.
    destruct (scan_progress (S (length (nargv (prepare s)))) s2 (effective_flags pc options flags) Hb)
      as [(r & -> & Hq & Hor)|(s3 & -> & Hin3 & Hp3 & Hm3)].
    + destruct Hb. unfold nargc, zlen. rewrite Hv1, Hv2. lia.
    + simpl. exists r. split; [done|]. split; [by rewrite Hq, Hv2|]. by rewrite <- Hm2.
    + simpl. apply Hrest; [done|by rewrite Hp3, Hv2|lia].
Qed.

(** C14: after a reset, a caller's loop ends whatever the arguments, the
    options and the mode, within one call per character; it never reads
    outside the vector or divides by zero, and leaves a permutation of it. *)
Theorem getopt_long_terminates (posixly_correct idx : bool) (s : getopt_state) (options : option string)
    (long_options : option (list long_option)) (flags : Z) (fuel : nat) :
  optind s = 1 → optreset s ≠ 0 → (∀ l, long_options = Some l → vals_ok l) →
  (words (str <$> nargv s) < fuel)%nat →
  ∃ l s', getopt_all (λ s, getopt_internal posixly_correct s options long_options idx flags) fuel s
          = Ret (l, s') ∧ nargv s' ≡ₚ nargv s.
Proof.
  intros Hi Hrs Hv Hf. assert (ready s) as Hr by (by split; try done; lia).
  assert (measure s < fuel)%nat as Hm.
  { unfold measure. rewrite bool_decide_eq_true_2 by done. simpl.
    pose proof (words_drop_le (strs s) 0 (Z.to_nat (optind s)) ltac:(lia)) as Hle.
    rewrite drop_0 in Hle. unfold strs in *. lia. }
  clear Hf Hi Hrs. revert s Hr Hm. induction fuel as [|fuel IH]; intros s Hr Hm; [lia|]. simpl.
  destruct (getopt_internal_progress posixly_correct s options long_options idx flags Hr Hv)
    as ([s1 v] & -> & Hp & Hor). simpl in *.
  case_bool_decide as Hv1; [by eexists _, _|]. destruct Hor as [|[Hr1 Hm1]]; [done|].
  destruct (IH s1 Hr1 ltac:(lia)) as (l & s' & -> & Hp'). simpl. eexists _, _. split; [done|].
  by rewrite Hp'.
Qed.

Definition ls_options : list long_option :=
  [LongOption "all" no_argument None 97; LongOption "color" optional_argument (Some 5) 1;
   LongOption "width" required_argument None 119].

Lemma getopt_long_terminates_witness :
  ∃ l s', getopt_all (λ s, getopt_internal false s (Some "aw:"%string) (Some ls_options) true FLAG_PERMUTE) 60
    (getopt_start [CPtr 0 "ls"; CPtr 1 "dir"; CPtr 2 "--colo=x"; CPtr 3 "-a"; CPtr 4 "f"; CPtr 5 "--width";
                   CPtr 6 "80"; CPtr 7 "--"; CPtr 8 "-z"])
    = Ret (l, s') ∧
    nargv s' ≡ₚ [CPtr 0 "ls"; CPtr 1 "dir"; CPtr 2 "--colo=x"; CPtr 3 "-a"; CPtr 4 "f"; CPtr 5 "--width";
                   CPtr 6 "80"; CPtr 7 "--"; CPtr 8 "-z"].
Proof.
  apply getopt_long_terminates; [reflexivity|discriminate| |vm_compute; lia].
  intros l [= <-]. repeat constructor; discriminate.
Defined.
