(* ===== verification/LongSelect.v ===== *)
(** * Which long option a name selects ([parse_long_options] of [src/getopt_long.c])

    The loop over [long_options] is equal to a reference definition: exact
    names first, then the first option the name abbreviates, unless another
    one differs from it. *)

From S2P Require Import Prelude PermuteArgs CString GetoptLong.
From Stdlib Require Import Ascii.

Local Open Scope Z_scope.

Local Arguments permute_args : simpl never.
Local Arguments scan : simpl never.
Local Arguments find_matching : simpl never.

Inductive choice : Set := Selected (i : Z) | Ambiguous | Unknown.

(** How [parse_long_options] reads the variables of its loop. *)
Definition choice_of (r : Z * bool * bool) : choice :=
  let '(mtch, exact, second) := r in
  if negb exact && second then Ambiguous
  else if bool_decide (mtch ≠ -1) then Selected mtch else Unknown.

(** The reference: an exact name first; then the first option the name
    abbreviates, unless another such option differs from it.  A single letter
    that is also a short option abbreviates nothing. *)
Definition abbreviates (nm : string) (short_too : bool) (o : long_option) : bool :=
  strncmp_eq nm (name o) (String.length nm)
  && negb (short_too && bool_decide (String.length nm = 1%nat)).
Definition differs (flags : Z) (o om : long_option) : bool :=
  bool_decide (Z.land flags FLAG_LONGONLY ≠ 0) || bool_decide (has_arg o ≠ has_arg om)
  || bool_decide (flag o ≠ flag om) || bool_decide (val o ≠ val om).
Definition select (nm : string) (short_too : bool) (flags : Z) (lo : list long_option) : choice :=
  match list_find (λ o, name o = nm) lo with
  | Some (i, _) => Selected (Z.of_nat i)
  | None =>
      match list_find (λ o, abbreviates nm short_too o = true) lo with
      | None => Unknown
      | Some (i, om) =>
          if existsb (λ o, abbreviates nm short_too o && differs flags o om) (drop (S i) lo)
          then Ambiguous else Selected (Z.of_nat i)
      end
  end.

Lemma strncmp_eq_prefix (nm t : string) :
  strncmp_eq nm t (String.length nm) = true ↔ ∃ v, t = String.append nm v.
Proof. pose proof (strncmp_eq_append nm EmptyString t) as H. by rewrite append_empty in H. Qed.

Lemma strncmp_eq_self (nm tail t : string) :
  strncmp_eq (String.append nm tail) t (String.length nm) = strncmp_eq nm t (String.length nm).
Proof. apply eq_true_iff_eq. by rewrite strncmp_eq_append, strncmp_eq_prefix. Qed.

Lemma strncmp_eq_length (nm t : string) :
  strncmp_eq nm t (String.length nm) = true → String.length t = String.length nm → t = nm.
Proof.
  rewrite strncmp_eq_prefix. intros (v & ->).
  rewrite length_append. destruct v; simpl; intros Hl; [apply append_empty|lia].
Qed.

(** The test of the loop body, by cases. *)
Lemma exact_test (nm tail : string) (o : long_option) :
  (negb (strncmp_eq (String.append nm tail) (name o) (String.length nm)) = false ∧
   String.length (name o) = String.length nm) ↔ name o = nm.
Proof.
  rewrite strncmp_eq_self, negb_false_iff. split.
  - intros [H1 H2]. by apply strncmp_eq_length.
  - intros ->. split; [|done]. apply strncmp_eq_prefix. exists EmptyString. by rewrite append_empty.
Qed.

Section find.
Context (nm tail : string) (short_too : bool) (flags : Z) (lo : list long_option).

(** After the first abbreviated option [om]. *)
Lemma find_second (om : long_option) rest i mtch second :
  mtch ≠ -1 → 0 ≤ i → long_at lo mtch = Ret om →
  choice_of <$> find_matching (String.append nm tail) (String.length nm) short_too flags lo rest i mtch second
  = Ret match list_find (λ o, name o = nm) rest with
        | Some (j, _) => Selected (i + Z.of_nat j)
        | None => if second || existsb (λ o, abbreviates nm short_too o && differs flags o om) rest
                  then Ambiguous else Selected mtch
        end.
Proof.
  intros Hm Hi Hom. revert i second Hi. induction rest as [|o rest IH]; intros i second Hi; simpl.
  - rewrite orb_false_r. destruct second; [done|]. simpl. by rewrite bool_decide_eq_true_2.
  - unfold find_matching; fold find_matching. rewrite strncmp_eq_self.
    pose proof (exact_test nm tail o) as Hex. rewrite strncmp_eq_self in Hex.
    assert (abbreviates nm short_too o = strncmp_eq nm (name o) (String.length nm) &&
      negb (short_too && bool_decide (String.length nm = 1%nat))) as Ha by done.
    destruct (decide (name o = nm)) as [Hd|Hd].
    { apply Hex in Hd as [-> ->]. rewrite bool_decide_eq_true_2 by done. simpl.
      rewrite bool_decide_eq_true_2 by lia. do 2 f_equal. lia. }
    assert (∀ sec, choice_of <$> find_matching (String.append nm tail) (String.length nm) short_too flags
      lo rest (i + 1) mtch sec = Ret match list_find (λ o, name o = nm) rest with
        | Some (j, _) => Selected (i + Z.of_nat (S j))
        | None => if sec || existsb (λ o, abbreviates nm short_too o && differs flags o om) rest
                  then Ambiguous else Selected mtch
        end) as Hgo.
    { intros sec. rewrite IH by lia. destruct (list_find _ rest) as [[j ?]|]; [|done].
      do 2 f_equal. lia. }
    rewrite Ha. destruct (strncmp_eq nm (name o) (String.length nm)); simpl.
    2: { rewrite Hgo. by destruct (list_find _ rest) as [[]|]. }
    rewrite bool_decide_eq_false_2 by (intros ?; by apply Hd, Hex).
    destruct (short_too && bool_decide (String.length nm = 1%nat)); simpl.
    { rewrite Hgo. by destruct (list_find _ rest) as [[]|]. }
    rewrite bool_decide_eq_false_2 by done. rewrite Hom. simpl. rewrite Hgo. unfold differs.
    destruct (list_find _ rest) as [[]|]; simpl; [done|]. by rewrite <- orb_assoc.
Qed.

Lemma find_first done_ rest :
  lo = done_ ++ rest →
  choice_of <$> find_matching (String.append nm tail) (String.length nm) short_too flags lo rest
    (zlen done_) (-1) false
  = Ret match list_find (λ o, name o = nm) rest with
        | Some (j, _) => Selected (zlen done_ + Z.of_nat j)
        | None =>
            match list_find (λ o, abbreviates nm short_too o = true) rest with
            | None => Unknown
            | Some (j, om) =>
                if existsb (λ o, abbreviates nm short_too o && differs flags o om) (drop (S j) rest)
                then Ambiguous else Selected (zlen done_ + Z.of_nat j)
            end
        end.
Proof.
  revert done_. induction rest as [|o rest IH]; intros done_ E; [done|].
  assert (0 ≤ zlen done_) by (unfold zlen; lia).
  unfold find_matching; fold find_matching. rewrite strncmp_eq_self.
  pose proof (exact_test nm tail o) as Hex. rewrite strncmp_eq_self in Hex.
  specialize (IH (done_ ++ [o])). rewrite <- app_assoc in IH. specialize (IH E).
  replace (zlen (done_ ++ [o])) with (zlen done_ + 1) in IH by (unfold zlen; rewrite length_app; simpl; lia).
  assert (abbreviates nm short_too o = strncmp_eq nm (name o) (String.length nm) &&
    negb (short_too && bool_decide (String.length nm = 1%nat))) as Ha by done.
  simpl. destruct (decide (name o = nm)) as [Hd|Hd].
  { apply Hex in Hd as [-> ->]. rewrite bool_decide_eq_true_2 by done. simpl.
    rewrite bool_decide_eq_true_2 by lia. do 2 f_equal. lia. }
  destruct (decide (abbreviates nm short_too o = true)) as [Ht|Hf].
  - rewrite Ha in Ht. apply andb_true_iff in Ht as [Hs Ht%negb_true_iff].
    rewrite Hs, Ht in *. simpl.
    rewrite bool_decide_eq_false_2 by (intros ?; by apply Hd, Hex).
    rewrite find_second with (om := o); [|lia|lia|].
    + destruct (list_find _ rest) as [[j ?]|]; simpl; [do 2 f_equal; lia|].
      rewrite drop_0. destruct (existsb _ rest); [done|]. do 2 f_equal. lia.
    + unfold long_at. rewrite bool_decide_eq_true_2 by lia. unfold zlen.
      rewrite Nat2Z.id, E, lookup_app_r, Nat.sub_diag by lia. done.
  - rewrite Ha in Hf.
    destruct (strncmp_eq nm (name o) (String.length nm)); simpl.
    + rewrite bool_decide_eq_false_2 by (intros ?; by apply Hd, Hex).
      destruct (short_too && bool_decide (String.length nm = 1%nat)); [|done]. rewrite IH.
      destruct (list_find (λ o, name o = nm) rest) as [[j ?]|]; simpl; [do 2 f_equal; lia|].
      destruct (list_find _ rest) as [[j ?]|]; simpl; [|done]. destruct (existsb _ _); do 2 f_equal; lia.
    + rewrite IH.
      destruct (list_find (λ o, name o = nm) rest) as [[j ?]|]; simpl; [do 2 f_equal; lia|].
      destruct (list_find _ rest) as [[j ?]|]; simpl; [|done]. destruct (existsb _ _); do 2 f_equal; lia.
Qed.
End find.

Lemma find_matching_choice nm tail short_too flags lo :
  choice_of <$> find_matching (String.append nm tail) (String.length nm) short_too flags lo lo 0 (-1) false
  = Ret (select nm short_too flags lo).
Proof. exact (find_first nm tail short_too flags lo [] lo eq_refl). Qed.

(** A word of a long option: the name, and the argument after [=]. *)
Definition long_word (nm : string) (arg : option string) : string :=
  match arg with None => nm | Some a => String.append nm (String.String EQUALS a) end.

Lemma strchr_append nm c t : strchr nm c = None → strchr (String.append nm (String.String c t)) c = Some (String.String c t).
Proof.
  induction nm as [|d nm IH]; intros H.
  - unfold String.append, strchr. by rewrite bool_decide_eq_true_2.
  - change (String.append (String.String d nm) (String.String c t))
      with (String.String d (String.append nm (String.String c t))).
    simpl in *. case_bool_decide; [done|]. by apply IH.
Qed.

Lemma long_word_split (o : Z) nm arg :
  strchr nm EQUALS = None →
  match strchr (long_word nm arg) EQUALS with
  | Some e => ((String.length (long_word nm arg) - String.length e)%nat, Some (CPtr o (tl e)))
  | None => (String.length (long_word nm arg), None)
  end = (String.length nm, CPtr o <$> arg).
Proof.
  intros H. destruct arg as [a|]; simpl; [|by rewrite H].
  rewrite (strchr_append _ _ _ H), length_append. simpl. f_equal. lia.
Qed.

Lemma parse_long_select s options lo idx sh flags nm arg :
  strchr nm EQUALS = None → str (place s) = long_word nm arg →
  parse_long_options s options lo idx sh flags =
    let s1 := set_optind s (optind s + 1) in
    let len := Z.of_nat (String.length nm) in
    match select nm sh flags lo with
    | Selected i =>
        o ← long_at lo i;
        long_found s1 options (long_word nm arg) len (CPtr (obj (place s)) <$> arg) idx i o
    | Ambiguous =>
        Ret (set_optopt (warnx s1 options (ambig (current_dash s) len (long_word nm arg))) 0, BADCH)
    | Unknown =>
        if sh then Ret (s, -1)
        else Ret (set_optopt (warnx s1 options (illoptstring (current_dash s) (long_word nm arg))) 0, BADCH)
    end.
Proof.
  intros Hnm Hp. unfold parse_long_options. rewrite Hp. simpl. rewrite long_word_split by done.
  assert (∃ tail, long_word nm arg = String.append nm tail) as [tail Htail].
  { destruct arg as [a|]; simpl; [by eexists|]. exists EmptyString. by rewrite append_empty. }
  rewrite Htail. pose proof (find_matching_choice nm tail sh flags lo) as Hc.
  apply outcome_fmap_Ret in Hc as ([[mtch exact] second] & -> & Hc). simpl in *.
  rewrite <- Hc. destruct (negb exact && second); [done|]. case_bool_decide; [done|].
  destruct sh; [|done]. f_equal. f_equal. unfold set_optind. simpl. destruct s. simpl.
  f_equal. lia.
Qed.

(** [parse_long_options] selects the option with that exact name; failing
    that, the first option the name abbreviates, if no other one it
    abbreviates differs; otherwise it reports an ambiguous or an unknown
    option, or leaves the word to the letters. *)
Theorem parse_long_options_select (s : getopt_state) (options : string) (lo : list long_option)
    (idx short_too : bool) (flags : Z) (nm : string) (arg : option string) :
  strchr nm EQUALS = None → str (place s) = long_word nm arg →
  parse_long_options s options lo idx short_too flags =
    let s1 := set_optind s (optind s + 1) in
    let len := Z.of_nat (String.length nm) in
    match select nm short_too flags lo with
    | Selected i =>
        o ← long_at lo i;
        long_found s1 options (long_word nm arg) len (CPtr (obj (place s)) <$> arg) idx i o
    | Ambiguous =>
        Ret (set_optopt (warnx s1 options (ambig (current_dash s) len (long_word nm arg))) 0, BADCH)
    | Unknown =>
        if short_too then Ret (s, -1)
        else Ret (set_optopt (warnx s1 options (illoptstring (current_dash s) (long_word nm arg))) 0, BADCH)
    end.
Proof. apply parse_long_select. Qed.

(** [--col=x] abbreviates [--color]. *)
Lemma parse_long_options_select_witness :
  let s := set_place (getopt_start [CPtr 0 "ls"; CPtr 1 "--col=x"]) (CPtr 1 "col=x") in
  ∃ s', parse_long_options s "aw:" ls_options true false FLAG_PERMUTE = Ret (s', 0) ∧
        optarg s' = Some (CPtr 1 "x") ∧ idx_cell s' = Some 1 ∧ cells s' !! 5 = Some 1.
Proof.
  intros s. eexists. split.
  - rewrite (parse_long_options_select s "aw:" ls_options true false FLAG_PERMUTE "col" (Some "x"%string));
      reflexivity.
  - split_and!; reflexivity.
Defined.
