(* ===== verification/LongRoundtrip.v ===== *)
(** * Round trip of [getopt_long] ([src/getopt_long.c])

    A command line of options and operands, and what a caller's loop makes of
    it: [spells] relates the words of an option to the values they stand for,
    [config] describes the vector while it is permuted. *)

From S2P Require Import Prelude PermuteArgs CString GetoptLong LongSelect.
From Stdlib Require Import Ascii.

Local Open Scope Z_scope.

Local Arguments permute_args : simpl never.
Local Arguments scan : simpl never.
Local Arguments find_matching : simpl never.

(** ** Round trip *)

Lemma scan_mono fuel fuel' s flags r :
  (fuel ≤ fuel')%nat → scan fuel s flags = Ret r → scan fuel' s flags = Ret r.
Proof.
  revert s fuel'. induction fuel as [|fuel IH]; intros s [|fuel'] Hle; try done; try lia.
  unfold scan; fold scan.
  destruct (bool_decide (optreset s ≠ 0) || _); [|done]. simpl.
  destruct (bool_decide _); [done|]. destruct (argv_at _ _) as [a|]; [|done]. simpl.
  destruct (not_null a) as [a'|]; [|done]. simpl.
  destruct (negb _ || _); [|done]. destruct (bool_decide _); [done|].
  destruct (bool_decide _); [done|]. destruct (skip_nonopt _) as [s1|]; [|done]. simpl. apply IH. lia.
Qed.

Lemma scan_fuel fuel s flags :
  between s → (Z.to_nat (nargc s - optind s) < fuel)%nat →
  scan fuel s flags = scan (S (Z.to_nat (nargc s - optind s))) s flags.
Proof.
  intros Hb Hf. assert (∃ r, scan (S (Z.to_nat (nargc s - optind s))) s flags = Ret r) as [r Hr].
  { destruct (scan_progress (S (Z.to_nat (nargc s - optind s))) s flags Hb ltac:(lia))
      as [(r & H & _)|(s' & H & _)]; eauto. }
  rewrite Hr. by eapply scan_mono; [|exact Hr].
Qed.

Section roundtrip.
Context (options : string) (lo : list long_option) (idx : bool).
Context (Hplus : starts_with options PLUS = false) (Hdash : starts_with options DASH = false).

Definition next (s : getopt_state) : outcome (getopt_state * Z) :=
  getopt_long false s (Some options) (Some lo) idx.
Definition after_scan (s : getopt_state) : outcome (getopt_state * Z) :=
  r ← long_part s options (Some lo) idx FLAG_PERMUTE;
  match r with
  | inl r => Ret r
  | inr s => short_part s false options (Some lo) idx FLAG_PERMUTE
  end.
Definition call (s : getopt_state) : outcome (getopt_state * Z) :=
  r ← scan (S (Z.to_nat (nargc s - optind s))) s FLAG_PERMUTE;
  match r with inl r => Ret r | inr s => after_scan s end.

Lemma next_unfold s : 1 ≤ optind s → optreset s = 0 →
  next s = (r ← scan (S (length (nargv s))) (set_optarg s None) FLAG_PERMUTE;
            match r with inl r => Ret r | inr s => after_scan s end).
Proof.
  intros H1 H2. unfold next, getopt_long, getopt_internal, effective_flags, skip_mode, prepare.
  rewrite Hplus, Hdash. simpl. rewrite (bool_decide_eq_false_2 (optind s = 0)) by lia. simpl.
  rewrite (bool_decide_eq_false_2 (optreset s ≠ 0)) by auto. done.
Qed.

Lemma inside_optarg s a : inside s → inside (set_optarg s a).
Proof. intros [? ? ? ?]. by split. Qed.
Lemma between_optarg s a : between s → between (set_optarg s a).
Proof. intros [? ? ? ?]. by split. Qed.

Lemma next_inside s : inside s → next s = after_scan (set_optarg s None).
Proof.
  intros Hin. pose proof Hin as [H1 H2 _ _]. rewrite next_unfold by (done || lia).
  by rewrite scan_inside by (by apply inside_optarg).
Qed.

Lemma next_between s : between s → next s = call (set_optarg s None).
Proof.
  intros Hb. pose proof Hb as [H1 H2 _ _]. rewrite next_unfold by done. unfold call.
  rewrite scan_fuel; [done|by apply between_optarg|].
  change (nargc (set_optarg s None)) with (nargc s). unfold nargc, zlen. simpl. lia.
Qed.

(** A word that starts an option continues as if inside it. *)
Lemma next_enter s a :
  between s → nargv s !! Z.to_nat (optind s) = Some a → starts_with (str a) DASH = true →
  tl (str a) ≠ EmptyString → tl (str a) ≠ String.String DASH EmptyString →
  next s = next (enter_word s a).
Proof.
  intros Hb Ha Hd Hne Hdd. pose proof Hb as [H1 H2 H3 H4].
  assert (optind s < nargc s) as Hlt by (apply lookup_lt_Some in Ha; unfold nargc, zlen; lia).
  destruct (enter_word_ok s a Hb Hlt Hne Ha) as (Hin & Hv & Ho & _).
  rewrite next_between, (next_inside (enter_word s a)) by done. unfold call, scan; fold scan. simpl.
  rewrite H3, orb_true_r. simpl. change (nargc (set_optreset (set_optarg s None) 0)) with (nargc s).
  rewrite (bool_decide_eq_false_2 (optind s >= nargc s)) by lia.
  destruct (argv_at_ok s (conj H1 Hlt)) as (a' & Ha' & Ea). simplify_eq.
  change (argv_at (set_optreset (set_optarg s None) 0) (optind s)) with (argv_at s (optind s)).
  rewrite Ea. simpl. rewrite Hd. simpl.
  destruct (tl (str a)) as [|c w] eqn:Et; [done|]. simpl.
  assert (bool_decide (c = DASH) && is_empty w = false) as ->.
  { case_bool_decide; [|done]. subst. by destruct w. }
  simpl. f_equal. unfold enter_word. rewrite Et. destruct s. simpl in *. subst. by destruct (_ && _).
Qed.

(** *** The letters of a word *)

Inductive kind : Set := Illegal | Flag | Required | Optional | LongWord.
Definition letter_kind (c : ascii) : kind :=
  if bool_decide (c = COLON) || bool_decide (c = DASH) then Illegal
  else match strchr options c with
       | None => Illegal
       | Some oli =>
           if bool_decide (c = LETTER_W) && starts_with (tl oli) SEMICOLON then LongWord
           else if negb (starts_with (tl oli) COLON) then Flag
           else if starts_with (tl (tl oli)) COLON then Optional else Required
       end.

(** A call leaves the vector, the mode and the skipped operands alone. *)
Record kept (s s' : getopt_state) : Prop := {
  kp_nargv : nargv s' = nargv s;
  kp_reset : optreset s' = optreset s;
  kp_start : nonopt_start s' = nonopt_start s;
  kp_end : nonopt_end s' = nonopt_end s }.

Lemma kept_trans s1 s2 s3 : kept s1 s2 → kept s2 s3 → kept s1 s3.
Proof. intros [? ? ? ?] [? ? ? ?]. split; congruence. Qed.

(** A letter goes to the second half of the function. *)
Lemma after_scan_letter s c w :
  inside s → str (place s) = String.String c w → c ≠ DASH →
  after_scan s = short_part s false options (Some lo) idx FLAG_PERMUTE.
Proof.
  intros [H1 H2 H3 H4] Hp Hc. unfold after_scan, long_part.
  destruct (argv_at_ok s H1) as (a & _ & ->). simpl. rewrite Hp. simpl.
  rewrite (bool_decide_eq_false_2 (c = DASH)) by done. simpl.
  rewrite andb_false_r. done.
Qed.

Lemma letter_kind_legal c k : letter_kind c = k → k ≠ Illegal →
  c ≠ DASH ∧ ∃ oli, strchr options c = Some oli ∧
    (∀ b, (if bool_decide (c = COLON) || (bool_decide (c = DASH) && b) then None
           else strchr options c) = Some oli) ∧
    k = (if bool_decide (c = LETTER_W) && starts_with (tl oli) SEMICOLON then LongWord
         else if negb (starts_with (tl oli) COLON) then Flag
         else if starts_with (tl (tl oli)) COLON then Optional else Required).
Proof.
  unfold letter_kind. intros <- Hk.
  destruct (bool_decide (c = COLON)) eqn:E1; [done|]. destruct (bool_decide (c = DASH)) eqn:E2; [done|].
  simpl in *. apply bool_decide_eq_false in E2. split; [done|].
  destruct (strchr options c) as [oli|]; [|done]. by exists oli.
Qed.

Lemma next_letter s c w : inside s → str (place s) = String.String c w → c ≠ DASH →
  next s = short_part (set_optarg s None) false options (Some lo) idx FLAG_PERMUTE.
Proof.
  intros Hin Hp Hc. rewrite next_inside by done.
  by apply (after_scan_letter _ c w); [apply inside_optarg|..].
Qed.

Lemma next_flag s c w : inside s → str (place s) = String.String c w → letter_kind c = Flag →
  ∃ s', next s = Ret (s', char_int c) ∧ kept s s' ∧ optarg s' = None ∧ str (place s') = w ∧
        optind s' = if is_empty w then optind s + 1 else optind s.
Proof.
  intros Hin Hp Hk. destruct (letter_kind_legal c Flag Hk ltac:(done)) as (Hd & oli & _ & Eo & Ek).
  rewrite (next_letter s c w) by done. unfold short_part. simpl. rewrite Hp, Eo.
  destruct (bool_decide (c = LETTER_W) && _); [done|].
  destruct (negb (starts_with (tl oli) COLON)); [|by destruct (starts_with (tl (tl oli)) COLON)].
  eexists. split; [done|]. by destruct (is_empty w).
Qed.

Lemma next_attached s c w : inside s → str (place s) = String.String c w → w ≠ EmptyString →
  letter_kind c = Required ∨ letter_kind c = Optional →
  ∃ s', next s = Ret (s', char_int c) ∧ kept s s' ∧ str <$> optarg s' = Some w ∧
        str (place s') = EmptyString ∧ optind s' = optind s + 1.
Proof.
  intros Hin Hp Hne Hk.
  assert (c ≠ DASH ∧ ∃ oli, (∀ b, (if bool_decide (c = COLON) || (bool_decide (c = DASH) && b) then None
    else strchr options c) = Some oli) ∧ bool_decide (c = LETTER_W) && starts_with (tl oli) SEMICOLON = false
    ∧ negb (starts_with (tl oli) COLON) = false) as (Hd & oli & Eo & E1 & E2).
  { destruct Hk as [Hk|Hk]; destruct (letter_kind_legal c _ Hk ltac:(done)) as (Hd & oli & _ & Eo & Ek);
      (split; [done|]; exists oli; split; [done|];
       destruct (bool_decide (c = LETTER_W) && _); [done|]; by destruct (negb _)). }
  rewrite (next_letter s c w) by done. unfold short_part. simpl. rewrite Hp, Eo, E1, E2.
  unfold letter_argument. simpl. destruct w; [done|]. simpl. by eexists.
Qed.

Lemma next_separate s c a : inside s → str (place s) = String.String c EmptyString →
  letter_kind c = Required → nargv s !! Z.to_nat (optind s + 1) = Some a →
  ∃ s', next s = Ret (s', char_int c) ∧ kept s s' ∧ str <$> optarg s' = Some (str a) ∧
        str (place s') = EmptyString ∧ optind s' = optind s + 2.
Proof.
  intros Hin Hp Hk Ha. destruct (letter_kind_legal c _ Hk ltac:(done)) as (Hd & oli & _ & Eo & Ek).
  rewrite (next_letter s c EmptyString) by done. unfold short_part. simpl. rewrite Hp, Eo.
  destruct (bool_decide (c = LETTER_W) && _); [done|]. destruct (negb (starts_with (tl oli) COLON)); [done|].
  unfold letter_argument. simpl. destruct (starts_with (tl (tl oli)) COLON); [done|]. simpl.
  change (nargc _) with (nargc s). pose proof (lookup_lt_Some _ _ _ Ha) as Hlt.
  destruct Hin as [H1 _ _ _]. rewrite bool_decide_eq_false_2 by (unfold nargc, zlen in *; lia).
  unfold argv_at. simpl. change (nargc _) with (nargc s).
  rewrite bool_decide_eq_true_2 by (unfold nargc, zlen in *; lia). simpl. rewrite Ha.
  eexists. split; [done|]. split_and!; try done. simpl. lia.
Qed.

Lemma next_optional s c : inside s → str (place s) = String.String c EmptyString →
  letter_kind c = Optional →
  ∃ s', next s = Ret (s', char_int c) ∧ kept s s' ∧ optarg s' = None ∧
        str (place s') = EmptyString ∧ optind s' = optind s + 1.
Proof.
  intros Hin Hp Hk. destruct (letter_kind_legal c _ Hk ltac:(done)) as (Hd & oli & _ & Eo & Ek).
  rewrite (next_letter s c EmptyString) by done. unfold short_part. simpl. rewrite Hp, Eo.
  destruct (bool_decide (c = LETTER_W) && _); [done|]. destruct (negb (starts_with (tl oli) COLON)); [done|].
  unfold letter_argument. simpl. destruct (starts_with (tl (tl oli)) COLON); [|done]. simpl.
  by eexists.
Qed.

(** *** Long options *)

Definition long_value (o : long_option) : Z := match flag o with Some _ => 0 | None => val o end.

(** The long option [nm], with its argument after [=] if [arg] is not [None]. *)
Lemma next_long s nm arg i o :
  inside s → str (place s) = String.String DASH (long_word nm arg) →
  (∃ a, nargv s !! Z.to_nat (optind s) = Some a ∧ a ≠ place s) →
  strchr nm EQUALS = None → select nm false FLAG_PERMUTE lo = Selected i → long_at lo i = Ret o →
  long_value o ≠ -1 →
  match arg with
  | Some _ => has_arg o = required_argument ∨ has_arg o = optional_argument
  | None => has_arg o = required_argument → is_Some (nargv s !! Z.to_nat (optind s + 1))
  end →
  let next_word := bool_decide (has_arg o = required_argument) && bool_decide (arg = None) in
  ∃ s', next s = Ret (s', long_value o) ∧ kept s s' ∧ str (place s') = EmptyString ∧
        optind s' = (if next_word then optind s + 2 else optind s + 1) ∧
        str <$> optarg s' =
          if next_word then str <$> nargv s !! Z.to_nat (optind s + 1) else arg.
Proof.
  intros Hin Hp (a & Ha & Hap) Hnm Hsel Ho Hv Harg. pose proof Hin as [H1 _ _ _].
  rewrite next_inside by done. unfold after_scan, long_part.
  destruct (argv_at_ok s H1) as (a' & Ha' & Ea). simplify_eq.
  change (argv_at (set_optarg s None) (optind (set_optarg s None))) with (argv_at s (optind s)).
  rewrite Ea. simpl. rewrite (bool_decide_eq_true_2 (Some (place s) ≠ Some a)) by congruence.
  rewrite Hp. simpl. set (s1 := set_dash_prefix _ DD_PREFIX).
  rewrite (parse_long_select s1 options lo idx false FLAG_PERMUTE nm arg) by done. cbv zeta.
  rewrite Hsel, Ho. simpl. unfold long_found.
  assert (∀ s2 : getopt_state, kept s s2 → ∃ s', ('(s, optchar) ←
      match flag o with Some x => Ret (set_cell (if idx then set_idx s2 i else s2) x (val o), 0)
                      | None => Ret (if idx then set_idx s2 i else s2, val o) end;
      if bool_decide (optchar ≠ -1) then Ret (inl (set_place s EMSG, optchar)) else Ret (inr s)) ≫=
      (λ r, match r with inl r => Ret r
            | inr s => short_part s false options (Some lo) idx FLAG_PERMUTE end) = Ret (s', long_value o)
    ∧ kept s s' ∧ str (place s') = EmptyString ∧ optind s' = optind s2 ∧ optarg s' = optarg s2) as Hfin.
  { intros s2 [K1 K2 K3 K4]. unfold long_value in *.
    destruct idx, (flag o); simpl; rewrite ?bool_decide_eq_true_2 by done; simpl;
      (eexists; split; [done|]); by split_and!. }
  destruct arg as [arg|]; simpl.
  - rewrite (bool_decide_eq_false_2 (has_arg o = no_argument)) by (destruct Harg as [-> | ->]; done). simpl.
    replace (bool_decide (has_arg o = required_argument) || bool_decide (has_arg o = optional_argument))
      with true by (destruct Harg as [-> | ->]; done). simpl. rewrite !andb_false_r.
    destruct (Hfin (set_optarg (set_optind s1 (optind s1 + 1)) (Some (CPtr (obj (place s1)) arg)))
      ltac:(done)) as (s' & E & Hk & Hpl & Hoi & Hoa).
    exists s'. split; [exact E|]. split_and!; try done. by rewrite Hoa.
  - rewrite !andb_false_r. case_bool_decide as Hreq; simpl.
    + destruct (Harg Hreq) as [b Hb]. unfold argv_at. simpl. change (nargc _) with (nargc s).
      pose proof (lookup_lt_Some _ _ _ Hb) as Hlt.
      rewrite bool_decide_eq_true_2 by (unfold nargc, zlen in *; lia). simpl. rewrite Hb. simpl.
      destruct (Hfin (set_optind (set_optarg (set_optind s1 (optind s1 + 1)) (Some b)) (optind s + 1 + 1))
        ltac:(done)) as (s' & E & Hk & Hpl & Hoi & Hoa).
      exists s'. split; [exact E|]. split_and!; try done; [rewrite Hoi; simpl; lia|by rewrite Hoa].
    + destruct (Hfin (set_optind s1 (optind s1 + 1)) ltac:(done)) as (s' & E & Hk & Hpl & Hoi & Hoa).
      exists s'. split; [|split_and!; try done; by rewrite Hoa].
      destruct (bool_decide (has_arg o = optional_argument)); exact E.
Qed.

(** *** What the words of an option spell *)

Fixpoint flags_ok (fl : string) : Prop :=
  match fl with
  | EmptyString => True
  | String.String c fl => letter_kind c = Flag ∧ char_int c ≠ -1 ∧ flags_ok fl
  end.
Fixpoint flag_values (fl : string) : list (Z * option string) :=
  match fl with
  | EmptyString => []
  | String.String c fl => (char_int c, None) :: flag_values fl
  end.

(** The words of one group of options and the values they stand for. *)
Inductive spells : list cptr → list (Z * option string) → Prop :=
  | sp_flags o fl : fl ≠ EmptyString → flags_ok fl →
      spells [CPtr o (String.String DASH fl)] (flag_values fl)
  | sp_attached o fl c arg : flags_ok fl → char_int c ≠ -1 → arg ≠ EmptyString →
      letter_kind c = Required ∨ letter_kind c = Optional →
      spells [CPtr o (String.String DASH (String.append fl (String.String c arg)))]
        (flag_values fl ++ [(char_int c, Some arg)])
  | sp_separate o fl c a : flags_ok fl → char_int c ≠ -1 → letter_kind c = Required →
      spells [CPtr o (String.String DASH (String.append fl (String.String c EmptyString))); a]
        (flag_values fl ++ [(char_int c, Some (str a))])
  | sp_optional o fl c : flags_ok fl → char_int c ≠ -1 → letter_kind c = Optional →
      spells [CPtr o (String.String DASH (String.append fl (String.String c EmptyString)))]
        (flag_values fl ++ [(char_int c, None)])
  | sp_long o nm i ol : nm ≠ EmptyString → strchr nm EQUALS = None →
      select nm false FLAG_PERMUTE lo = Selected i → long_at lo i = Ret ol → long_value ol ≠ -1 →
      has_arg ol ≠ required_argument →
      spells [CPtr o (String.String DASH (String.String DASH nm))] [(long_value ol, None)]
  | sp_long_equal o nm arg i ol : strchr nm EQUALS = None →
      select nm false FLAG_PERMUTE lo = Selected i → long_at lo i = Ret ol → long_value ol ≠ -1 →
      has_arg ol = required_argument ∨ has_arg ol = optional_argument →
      spells [CPtr o (String.String DASH (String.String DASH (long_word nm (Some arg))))]
        [(long_value ol, Some arg)]
  | sp_long_separate o nm a i ol : nm ≠ EmptyString → strchr nm EQUALS = None →
      select nm false FLAG_PERMUTE lo = Selected i → long_at lo i = Ret ol → long_value ol ≠ -1 →
      has_arg ol = required_argument →
      spells [CPtr o (String.String DASH (String.String DASH nm)); a]
        [(long_value ol, Some (str a))].

(** Successive calls that do not return -1. *)
Inductive long_calls : getopt_state → list (Z * option string) → getopt_state → Prop :=
  | lc_nil s : long_calls s [] s
  | lc_cons s s1 v l s' :
      next s = Ret (s1, v) → v ≠ -1 → long_calls s1 l s' →
      long_calls s ((v, str <$> optarg s1) :: l) s'.

Lemma long_calls_one s s' v a :
  next s = Ret (s', v) → v ≠ -1 → str <$> optarg s' = a → long_calls s [(v, a)] s'.
Proof. intros Hn Hv <-. by eapply lc_cons; [| |apply lc_nil]. Qed.

Lemma long_calls_app s1 l1 s2 l2 s3 :
  long_calls s1 l1 s2 → long_calls s2 l2 s3 → long_calls s1 (l1 ++ l2) s3.
Proof. induction 1; simpl; [done|]. intros. by econstructor; eauto. Qed.

(** The calls of a loop, then the rest of the loop. *)
Lemma long_calls_all s l s1 l2 s' fuel :
  long_calls s l s1 → getopt_all next fuel s1 = Ret (l2, s') →
  getopt_all next (length l + fuel) s = Ret (l ++ l2, s').
Proof.
  intros Hc Hr. induction Hc as [s|s s0 v l s1 Hn Hv _ IH]; simpl; [done|].
  rewrite Hn. simpl. rewrite bool_decide_eq_false_2 by done. by rewrite IH.
Qed.

(** Between the letters of a word. *)
Lemma inside_kept s s' : inside s → kept s s' → str (place s') ≠ EmptyString → optind s' = optind s →
  inside s'.
Proof.
  intros [H1 H2 H3 H4] [K1 K2 K3 K4] Hp Ho.
  assert (nargc s' = nargc s) as Hc by (unfold nargc; by rewrite K1).
  split; [lia|congruence|done|]. unfold nonopt_ok in *. rewrite Hc, K3, K4, Ho.
  destruct H4 as [?|[?|(? & ? & _)]]; [by left|right; by left|right; right]. split_and!; (done || lia).
Qed.

Lemma calls_flags s fl w :
  inside s → str (place s) = String.append fl w → w ≠ EmptyString → flags_ok fl →
  ∃ s', long_calls s (flag_values fl) s' ∧ kept s s' ∧ inside s' ∧ str (place s') = w ∧
        optind s' = optind s.
Proof.
  revert s. induction fl as [|c fl IH]; intros s Hin Hp Hne Hok.
  - exists s. split; [apply lc_nil|]. by split_and!.
  - destruct Hok as (Hk & Hc & Hok).
    change (String.append (String.String c fl) w) with (String.String c (String.append fl w)) in Hp.
    destruct (next_flag s c _ Hin Hp Hk) as (s1 & Hn & Hk1 & Ha & Hp1 & Ho1).
    assert (String.append fl w ≠ EmptyString) as Hne1 by (by destruct fl).
    assert (optind s1 = optind s) as Ho by (rewrite Ho1; by destruct (String.append fl w)).
    assert (inside s1) as Hin1 by (apply (inside_kept s); [done|done|by rewrite Hp1|done]).
    destruct (IH s1 Hin1 Hp1 Hne Hok) as (s2 & Hc2 & Hk2 & Hin2 & Hp2 & Ho2).
    exists s2. split; [apply (long_calls_app _ [_] s1); [|done]|].
    + eapply long_calls_one; [done..|]. by rewrite Ha.
    + split_and!; try done; [by eapply kept_trans|lia].
Qed.

Lemma calls_flags_end s fl :
  inside s → str (place s) = fl → fl ≠ EmptyString → flags_ok fl →
  ∃ s', long_calls s (flag_values fl) s' ∧ kept s s' ∧ str (place s') = EmptyString ∧
        optind s' = optind s + 1.
Proof.
  revert s. induction fl as [|c fl IH]; intros s Hin Hp Hne Hok; [done|].
  destruct Hok as (Hk & Hc & Hok).
  destruct (next_flag s c _ Hin Hp Hk) as (s1 & Hn & Hk1 & Ha & Hp1 & Ho1).
  assert (long_calls s [(char_int c, None)] s1) as Hc1 by (eapply long_calls_one; [done..|by rewrite Ha]).
  destruct fl as [|d fl]; [by exists s1|]. simpl in Ho1.
  assert (inside s1) as Hin1 by (apply (inside_kept s); [done|done|by rewrite Hp1|done]).
  destruct (IH s1 Hin1 Hp1 ltac:(done) Hok) as (s2 & Hc2 & Hk2 & Hp2 & Ho2).
  exists s2. split; [by apply (long_calls_app _ [_] s1)|]. split_and!; [by eapply kept_trans|done|lia].
Qed.

Lemma flags_first_letter fl t :
  flags_ok fl → starts_with t DASH = false → t ≠ EmptyString →
  starts_with (String.append fl t) DASH = false ∧ String.append fl t ≠ EmptyString.
Proof.
  destruct fl as [|c fl]; intros Hok Hd Hne; [done|]. destruct Hok as (Hk & _).
  destruct (letter_kind_legal c _ Hk ltac:(done)) as (Hc & _). split; [|done].
  change (bool_decide (c = DASH) = false). by apply bool_decide_eq_false_2.
Qed.

(** A group of options is read as it is spelled. *)
Lemma calls_spelled s ws vs :
  spells ws vs → inside s →
  (∃ a, ws !! 0%nat = Some a ∧ str (place s) = tl (str a)) →
  (∀ k a, ws !! k = Some a → nargv s !! Z.to_nat (optind s + Z.of_nat k) = Some a) →
  ∃ s', long_calls s vs s' ∧ kept s s' ∧ str (place s') = EmptyString ∧ optind s' = optind s + zlen ws.
Proof.
  intros Hsp Hin (a0 & Ha0 & Hp) Hws. pose proof (Hws _ _ Ha0) as Hw0.
  change (Z.of_nat 0) with 0 in Hw0. rewrite Z.add_0_r in Hw0.
  assert (∃ a, nargv s !! Z.to_nat (optind s) = Some a ∧ a ≠ place s) as Hword.
  { exists a0. split; [done|]. intros ->. pose proof (in_place _ Hin) as Hne.
    destruct (str (place s)) as [|c w]; [done|]. simpl in Hp.
    apply (f_equal String.length) in Hp. simpl in Hp. lia. }
  assert (∀ fl t, str (place s) = String.append fl t → t ≠ EmptyString → flags_ok fl → ∀ v a,
    (∀ s1, inside s1 → kept s s1 → str (place s1) = t → optind s1 = optind s →
       ∃ s', next s1 = Ret (s', v) ∧ kept s1 s' ∧ str <$> optarg s' = a ∧
             str (place s') = EmptyString ∧ optind s' = optind s1 + zlen ws) → v ≠ -1 →
    ∃ s', long_calls s (flag_values fl ++ [(v, a)]) s' ∧ kept s s' ∧ str (place s') = EmptyString ∧
          optind s' = optind s + zlen ws) as Hlast.
  { intros fl t Hpt Hne Hok v a Hstep Hv.
    destruct (calls_flags s fl t Hin Hpt Hne Hok) as (s1 & Hc1 & Hk1 & Hin1 & Hp1 & Ho1).
    destruct (Hstep s1 Hin1 Hk1 Hp1 Ho1) as (s2 & Hn & Hk2 & Ha2 & Hp2 & Ho2). exists s2.
    split; [eapply long_calls_app; [done|by eapply long_calls_one]|].
    split_and!; [by eapply kept_trans|done|lia]. }
  destruct Hsp as [o fl Hne Hok|o fl c arg Hok Hc Hne Hk|o fl c a Hok Hc Hk|o fl c Hok Hc Hk
    |o nm i ol Hne Hnm Hsel Hat Hv Harg|o nm arg i ol Hnm Hsel Hat Hv Harg|o nm a i ol Hne Hnm Hsel Hat Hv Harg];
    simpl in Ha0; simplify_eq; simpl in Hp.
  - by apply (calls_flags_end s fl).
  - eapply Hlast; try done. intros s1 Hin1 _ Hp1 _. by apply (next_attached s1 c arg).
  - eapply Hlast; try done. intros s1 Hin1 [K1 _ _ _] Hp1 Ho1.
    apply (next_separate s1 c a); try done. rewrite K1, Ho1. apply (Hws 1%nat). done.
  - eapply Hlast; try done. intros s1 Hin1 _ Hp1 _.
    destruct (next_optional s1 c Hin1 Hp1 Hk) as (s' & Hn & Hk' & Ha & ? & ?).
    exists s'. split_and!; try done. by rewrite Ha.
  - destruct (next_long s nm None i ol Hin Hp Hword Hnm Hsel Hat Hv (λ H, False_ind _ (Harg H))) as (s' & Hn & Hk & Hp' & Ho & Ha).
    rewrite (bool_decide_eq_false_2 (has_arg ol = required_argument)) in * by done.
    exists s'. split; [by eapply long_calls_one|]. by split_and!.
  - destruct (next_long s nm (Some arg) i ol Hin Hp Hword Hnm Hsel Hat Hv Harg) as (s' & Hn & Hk & Hp' & Ho & Ha).
    rewrite andb_false_r in *. exists s'. split; [by eapply long_calls_one|]. by split_and!.
  - pose proof (Hws 1%nat a eq_refl) as Hw1. change (Z.of_nat 1) with 1 in Hw1.
    destruct (next_long s nm None i ol Hin Hp Hword Hnm Hsel Hat Hv) as (s' & Hn & Hk & Hp' & Ho & Ha).
    { intros _. by rewrite Hw1. }
    rewrite (bool_decide_eq_true_2 (has_arg ol = required_argument)) in * by done.
    simpl in *. rewrite Hw1 in Ha.
    exists s'. split; [by eapply long_calls_one|]. by split_and!.
Qed.

(** The first word of a group starts an option and is not [--]. *)
Lemma spells_first ws vs : spells ws vs →
  ∃ a ws', ws = a :: ws' ∧ starts_with (str a) DASH = true ∧ tl (str a) ≠ EmptyString ∧
           tl (str a) ≠ String.String DASH EmptyString.
Proof.
  intros Hsp.
  assert (∀ w, starts_with w DASH = false → w ≠ String.String DASH EmptyString) as Hd by (by intros w Hw ->).
  assert (∀ c, letter_kind c ≠ Illegal → ∀ w, starts_with (String.String c w) DASH = false) as Hl.
  { intros c Hk w. destruct (letter_kind_legal c _ eq_refl Hk) as (Hc & _). by apply bool_decide_eq_false_2. }
  destruct Hsp as [o fl Hne Hok|o fl c arg Hok Hc Hne Hk|o fl c a Hok Hc Hk|o fl c Hok Hc Hk
    |o nm i ol Hne Hnm Hsel Hat Hv Harg|o nm arg i ol Hnm Hsel Hat Hv Harg|o nm a i ol Hne Hnm Hsel Hat Hv Harg];
    (eexists _, _; split; [done|]; split; [done|]; simpl).
  - split; [done|]. apply Hd. destruct fl as [|c fl]; [done|]. destruct Hok as (Hk & _).
    apply Hl. by rewrite Hk.
  - destruct (flags_first_letter fl (String.String c arg) Hok) as [? ?]; [|done|by split; [|apply Hd]].
    apply Hl. by destruct Hk as [-> | ->].
  - destruct (flags_first_letter fl (String.String c EmptyString) Hok) as [? ?];
      [|done|by split; [|apply Hd]]. apply Hl. by rewrite Hk.
  - destruct (flags_first_letter fl (String.String c EmptyString) Hok) as [? ?];
      [|done|by split; [|apply Hd]]. apply Hl. by rewrite Hk.
  - split; [done|]. congruence.
  - split; [done|]. destruct nm; [done|]. intros E. injection E. done.
  - split; [done|]. congruence.
Qed.

(** *** Options and operands mixed *)

(** The vector is the options before the skipped operands, the operands, the
    options after them and the words to come. *)
Record config (P N O R : list cptr) (s : getopt_state) : Prop := {
  cf_nargv : nargv s = P ++ N ++ O ++ R;
  cf_prog : P ≠ [];
  cf_ind : optind s = zlen P + zlen N + zlen O;
  cf_reset : optreset s = 0;
  cf_place : str (place s) = EmptyString;
  cf_nonopt :
    (N = [] ∧ O = [] ∧ nonopt_start s = -1 ∧ nonopt_end s = -1) ∨
    (N ≠ [] ∧ O = [] ∧ nonopt_start s = zlen P ∧ nonopt_end s = -1) ∨
    (N ≠ [] ∧ O ≠ [] ∧ nonopt_start s = zlen P ∧ nonopt_end s = zlen P + zlen N) }.

Lemma zlen_pos {A} (l : list A) : l ≠ [] → 0 < zlen l.
Proof. destruct l; [done|]. unfold zlen. simpl. lia. Qed.
Lemma zlen_app {A} (l k : list A) : zlen (l ++ k) = zlen l + zlen k.
Proof. unfold zlen. rewrite length_app. lia. Qed.
Lemma zlen_nonneg {A} (l : list A) : 0 ≤ zlen l.
Proof. unfold zlen. lia. Qed.

Lemma config_between P N O R s : config P N O R s → between s.
Proof.
  intros [Hv HP Hi Hr Hp Hn]. pose proof (zlen_pos _ HP). pose proof (zlen_nonneg N).
  pose proof (zlen_nonneg O). pose proof (zlen_nonneg R).
  assert (nargc s = zlen P + zlen N + zlen O + zlen R) as Hc by (unfold nargc; rewrite Hv, !zlen_app; lia).
  split; [lia|done|done|]. unfold nonopt_ok.
  destruct Hn as [(-> & -> & ? & ?)|[(HN & -> & ? & ?)|(HN & HO & ? & ?)]]; [by left|..].
  - pose proof (zlen_pos _ HN). right; left. lia.
  - pose proof (zlen_pos _ HN). pose proof (zlen_pos _ HO). right; right. lia.
Qed.

Lemma config_optarg P N O R s a : config P N O R s → config P N O R (set_optarg s a).
Proof. intros [? ? ? ? ? ?]. by split. Qed.

Lemma config_lookup P N O R s k : config P N O R s →
  nargv s !! Z.to_nat (optind s + Z.of_nat k) = R !! k.
Proof.
  intros [Hv _ Hi _ _ _]. rewrite Hv, Hi, !(assoc_L (++)). unfold zlen.
  rewrite lookup_app_r by (rewrite !length_app; lia). f_equal. rewrite !length_app. lia.
Qed.

(** The permutation of the skipped operands. *)
Lemma config_permute P N O R s : config P N O R s → nonopt_end s ≠ -1 →
  permute_nonopts s = Ret (set_nargv s (P ++ O ++ N ++ R)) ∧
  nonopt_start s = zlen P ∧ nonopt_end s = zlen P + zlen N ∧ N ≠ [] ∧ O ≠ [].
Proof.
  intros [Hv _ Hi _ _ Hn] He.
  destruct Hn as [(_ & _ & _ & ?)|[(_ & _ & _ & ?)|(HN & HO & Hs & Hee)]]; [done..|].
  split; [|done]. unfold permute_nonopts. rewrite Hs, Hee, Hi, Hv. by rewrite permute_args_blocks.
Qed.

Definition is_operand (a : cptr) : bool := negb (starts_with (str a) DASH) || is_empty (tl (str a)).

(** An operand joins the skipped ones. *)
Lemma config_skip P N O R s a :
  config P N O (a :: R) s →
  ∃ P' O' s', skip_nonopt s = Ret s' ∧ config P' (N ++ [a]) O' R s' ∧ P' ++ O' = P ++ O ∧
              optarg s' = optarg s.
Proof.
  intros Hcf. pose proof Hcf as [Hv HP Hi Hr Hp Hn]. unfold skip_nonopt.
  assert (∀ l : list cptr, l ++ [a] ≠ []) as Hne by (intros [|? ?]; done).
  destruct Hn as [(-> & -> & Hs & He)|[(HN & -> & Hs & He)|(HN & HO & Hs & He)]].
  - rewrite bool_decide_eq_true_2 by done. simpl. exists P, [], (set_optind (set_nonopt s (optind s) (nonopt_end s)) (optind s + 1)).
    split; [done|]. split; [|done]. rewrite He. split; simpl; try done.
    + rewrite Hi. change (zlen [a]) with 1. change (zlen (@nil cptr)) with 0. lia.
    + right; left. split_and!; try done. rewrite Hi. change (zlen (@nil cptr)) with 0. lia.
  - pose proof (zlen_nonneg P). rewrite !bool_decide_eq_false_2 by lia. simpl.
    exists P, [], (set_optind s (optind s + 1)). split; [done|]. split; [|done]. split; simpl; try done.
    + by rewrite Hv, <- !app_assoc.
    + rewrite Hi, zlen_app. change (zlen [a]) with 1. change (zlen (@nil cptr)) with 0. lia.
    + right; left. by split_and!.
  - pose proof (zlen_nonneg P). pose proof (zlen_nonneg N).
    rewrite bool_decide_eq_false_2, bool_decide_eq_true_2 by lia.
    destruct (config_permute _ _ _ _ _ Hcf ltac:(lia)) as (-> & _). simpl.
    eexists (P ++ O), [], _. split; [done|]. split; [|by rewrite app_nil_r]. split; simpl; try done.
    + by rewrite <- !app_assoc.
    + by destruct P.
    + rewrite Hi, !zlen_app. change (zlen [a]) with 1. change (zlen (@nil cptr)) with 0. lia.
    + right; left. split_and!; try done. rewrite Hi, Hs, He, zlen_app. lia.
Qed.

Lemma call_skip P N O R s a :
  config P N O (a :: R) s → is_operand a = true → optarg s = None →
  ∃ P' O' s', next s = next s' ∧ config P' (N ++ [a]) O' R s' ∧ P' ++ O' = P ++ O ∧ optarg s' = None.
Proof.
  intros Hcf Ha Hoa. pose proof (config_between _ _ _ _ _ Hcf) as Hb. pose proof Hb as [H1 H2 H3 _].
  pose proof (config_lookup _ _ _ _ _ 0 Hcf) as Hl. change (Z.of_nat 0) with 0 in Hl.
  rewrite Z.add_0_r in Hl. simpl in Hl.
  assert (optind s < nargc s) as Hlt by (apply lookup_lt_Some in Hl; unfold nargc, zlen; lia).
  assert (config P N O (a :: R) (set_place (set_place s a) EMSG)) as Hcf1.
  { destruct Hcf. by split. }
  destruct (config_skip _ _ _ _ _ _ Hcf1) as (P' & O' & s' & Hsk & Hcf' & HPO & Hoa').
  simpl in Hoa'. exists P', O', s'. split_and!; [|done|done|congruence].
  pose proof (config_between _ _ _ _ _ Hcf') as Hb'.
  assert (∀ t, optarg t = None → set_optarg t None = t) as Hset
    by (intros t Ht; destruct t; simpl in *; by subst).
  pose proof (Hset s Hoa) as Es. pose proof (Hset s' ltac:(congruence)) as Es'.
  rewrite !next_between by done. rewrite Es, Es'. unfold call.
  assert (nargc s' = nargc s ∧ optind s' = optind s + 1) as [Hc' Hi'].
  { destruct (skip_nonopt_ok (set_place (set_place s a) EMSG)) as (s2 & E2 & Hp2 & _ & Ho2 & _).
    - by eapply config_between.
    - done.
    - rewrite Hsk in E2. injection E2 as <-. split; [|done]. unfold nargc, zlen. by rewrite Hp2. }
  replace (Z.to_nat (nargc s - optind s)) with (S (Z.to_nat (nargc s' - optind s'))) by lia.
  f_equal. unfold scan at 1; fold scan. rewrite H3, orb_true_r. simpl.
  assert (set_optreset s 0 = s) as -> by (destruct s; simpl in *; by subst).
  rewrite (bool_decide_eq_false_2 (optind s >= nargc s)) by lia.
  destruct (argv_at_ok s (conj H1 Hlt)) as (a' & Ha' & ->). simplify_eq. simpl.
  unfold is_operand in Ha. rewrite Ha. rewrite Hsk. done.
Qed.

Lemma next_optarg P N O R s : config P N O R s → next s = next (set_optarg s None).
Proof.
  intros Hcf. pose proof (config_between _ _ _ _ _ Hcf) as Hb.
  rewrite !next_between by (done || by apply between_optarg). done.
Qed.

Lemma spells_values ws vs : spells ws vs → vs ≠ [].
Proof.
  destruct 1 as [o fl Hne _| | | | | |]; try done; try (by destruct (flag_values fl)). by destruct fl.
Qed.

Lemma long_calls_enter s w vs s' : next s = next w → vs ≠ [] → long_calls w vs s' → long_calls s vs s'.
Proof. intros Hn Hv Hc. destruct Hc as [|w s1 v l s' Hw Hv1 Hc]; [done|]. eapply lc_cons; [congruence|done..]. Qed.

(** A group of options is consumed. *)
Lemma config_option P N O R s ws vs :
  config P N O (ws ++ R) s → spells ws vs →
  ∃ P' O' s', long_calls s vs s' ∧ config P' N O' R s' ∧ P' ++ O' = P ++ O ++ ws.
Proof.
  intros Hcf Hsp. pose proof (config_between _ _ _ _ _ Hcf) as Hb.
  destruct (spells_first ws vs Hsp) as (a & ws' & Ews & Hd & Hne & Hdd).
  pose proof (config_lookup _ _ _ _ _ 0 Hcf) as Hl. change (Z.of_nat 0) with 0 in Hl.
  rewrite Z.add_0_r, Ews in Hl. simpl in Hl.
  assert (optind s < nargc s) as Hlt by (apply lookup_lt_Some in Hl; destruct Hb; unfold nargc, zlen; lia).
  destruct (enter_word_ok s a Hb Hlt Hne Hl) as (Hin & Hv & Ho & _ & _).
  destruct (calls_spelled (enter_word s a) ws vs Hsp Hin) as (s' & Hc & [K1 K2 K3 K4] & Hp & Hi).
  { exists a. rewrite Ews. split; [done|]. done. }
  { intros k b Hk. rewrite Hv, Ho, (config_lookup _ _ _ _ _ k Hcf). by apply lookup_app_l_Some. }
  pose proof (spells_values _ _ Hsp) as Hvs.
  pose proof (next_enter s a Hb Hl Hd Hne Hdd) as Hn.
  assert (long_calls s vs s') as Hcalls by (by eapply long_calls_enter).
  destruct Hcf as [Cv CP Ci Cr Cp Cn]. rewrite Ho in Hi. rewrite Hv in K1. rewrite Ci in Hi.
  assert (ws ≠ []) as Hws by (by rewrite Ews).
  assert (nonopt_start (enter_word s a) = nonopt_start s) as Es by (unfold enter_word; by destruct (_ && _)).
  assert (nonopt_end (enter_word s a) = if bool_decide (nonopt_start s ≠ -1) && bool_decide (nonopt_end s = -1)
    then optind s else nonopt_end s) as Ee by (unfold enter_word; simpl; by destruct (_ && _)).
  assert (optreset (enter_word s a) = 0) as Er by (by destruct Hin).
  rewrite Es in K3. rewrite Ee in K4. rewrite Er in K2. pose proof (zlen_nonneg P) as HP0.
  destruct Cn as [(-> & -> & Hs & He)|[(HN & -> & Hs & He)|(HN & HO & Hs & He)]]; rewrite Hs, He in *.
  - exists (P ++ ws), [], s'. split; [done|]. split; [|by rewrite app_nil_r]. split; try done.
    + by rewrite K1, Cv, <- !app_assoc.
    + by destruct P.
    + rewrite Hi, zlen_app. change (zlen (@nil cptr)) with 0. lia.
    + left. by split_and!.
  - rewrite bool_decide_eq_true_2 in K4 by lia. simpl in K4. exists P, ws, s'. split; [done|]. split; [|done].
    split; try done.
    + by rewrite K1, Cv.
    + rewrite Hi. change (zlen (@nil cptr)) with 0. lia.
    + right; right. split_and!; try done. rewrite K4, Ci. change (zlen (@nil cptr)) with 0. lia.
  - pose proof (zlen_nonneg N). rewrite (bool_decide_eq_false_2 (zlen P + zlen N = -1)), andb_false_r in K4 by lia.
    exists P, (O ++ ws), s'. split; [done|]. split; [|done]. split; try done.
    + by rewrite K1, Cv, <- !app_assoc.
    + rewrite Hi, zlen_app. lia.
    + right; right. split_and!; try done. by destruct O.
Qed.

(** The end of the vector. *)
Lemma config_end P N O s : config P N O [] s →
  ∃ s', next s = Ret (s', -1) ∧ nargv s' = P ++ O ++ N ∧ optind s' = zlen P + zlen O.
Proof.
  intros Hcf. pose proof (config_between _ _ _ _ _ Hcf) as Hb. pose proof Hb as [_ _ H3 _].
  rewrite next_between by done. unfold call, scan; fold scan. simpl. rewrite H3, orb_true_r. simpl.
  pose proof Hcf as [Cv CP Ci Cr Cp Cn].
  rewrite bool_decide_eq_true_2 by (change (optind s >= zlen (nargv s)); rewrite Cv, Ci, !zlen_app;
    change (zlen (@nil cptr)) with 0; lia).
  set (s0 := set_place (set_optreset (set_optarg s None) 0) EMSG).
  assert (config P N O [] s0) as Hcf0 by (destruct Hcf; by split).
  unfold end_of_vector. change (set_place (set_optreset (set_optarg s None) 0) EMSG) with s0.
  change (nonopt_end s) with (nonopt_end s0) in Cn. change (nonopt_start s) with (nonopt_start s0) in Cn.
  pose proof (zlen_nonneg P). pose proof (zlen_nonneg N).
  destruct Cn as [(-> & -> & Hs & He)|[(HN & -> & Hs & He)|(HN & HO & Hs & He)]].
  - rewrite (bool_decide_eq_false_2 (nonopt_end s0 ≠ -1)), (bool_decide_eq_false_2 (nonopt_start s0 ≠ -1))
      by (rewrite ?Hs, ?He; auto).
    eexists. split; [done|]. simpl. rewrite Cv, Ci. split; [done|]. change (zlen (@nil cptr)) with 0. lia.
  - rewrite (bool_decide_eq_false_2 (nonopt_end s0 ≠ -1)), (bool_decide_eq_true_2 (nonopt_start s0 ≠ -1))
      by (rewrite ?Hs, ?He; auto; lia).
    eexists. split; [done|]. simpl. rewrite Cv, app_nil_r. split; [done|].
    change (nonopt_start s = zlen P + 0). change (nonopt_start s0) with (nonopt_start s) in Hs. lia.
  - rewrite (bool_decide_eq_true_2 (nonopt_end s0 ≠ -1)) by lia.
    destruct (config_permute _ _ _ _ _ Hcf0 ltac:(lia)) as (-> & _). simpl.
    eexists. split; [done|]. simpl. rewrite app_nil_r. split; [done|].
    change (nonopt_start s0) with (nonopt_start s) in Hs. change (nonopt_end s0) with (nonopt_end s) in He.
    rewrite Ci, Hs, He. lia.
Qed.

(** The word [--]. *)
Lemma config_end_options P N O R s d :
  config P N O (d :: R) s → str d = String.String DASH (String.String DASH EmptyString) →
  ∃ s', next s = Ret (s', -1) ∧ nargv s' = P ++ O ++ d :: N ++ R ∧ optind s' = zlen P + zlen O + 1.
Proof.
  intros Hcf Hd. pose proof (config_between _ _ _ _ _ Hcf) as Hb. pose proof Hb as [H1 H2 H3 _].
  pose proof (config_lookup _ _ _ _ _ 0 Hcf) as Hl. change (Z.of_nat 0) with 0 in Hl.
  rewrite Z.add_0_r in Hl. simpl in Hl.
  assert (optind s < nargc s) as Hlt by (apply lookup_lt_Some in Hl; unfold nargc, zlen; lia).
  rewrite next_between by done. unfold call, scan; fold scan. simpl. rewrite H3, orb_true_r. simpl.
  set (s0 := set_optreset (set_optarg s None) 0).
  assert (config P N O (d :: R) s0) as Hcf0 by (destruct Hcf; by split).
  rewrite (bool_decide_eq_false_2 (optind s >= nargc s0)) by (change (nargc s0) with (nargc s); lia).
  destruct (argv_at_ok s (conj H1 Hlt)) as (a' & Ha' & Ea). simplify_eq.
  change (argv_at s0 (optind s)) with (argv_at s (optind s)). rewrite Ea. simpl. rewrite Hd. simpl.
  change (set_place (if bool_decide (nonopt_start s ≠ -1) && bool_decide (nonopt_end s = -1)
    then _ else _) _) with (set_place (if bool_decide (nonopt_start s0 ≠ -1) && bool_decide (nonopt_end s0 = -1)
    then set_nonopt (set_place s0 d) (nonopt_start s0) (optind s0) else set_place s0 d)
    (CPtr (obj d) (String.String DASH EmptyString))).
  unfold end_of_options. destruct Hcf0 as [Cv CP Ci Cr Cp Cn].
  pose proof (zlen_nonneg P). pose proof (zlen_nonneg N).
  destruct Cn as [(-> & -> & Hs & He)|[(HN & -> & Hs & He)|(HN & HO & Hs & He)]].
  - rewrite Hs. simpl. change (nonopt_end s) with (nonopt_end s0). rewrite He. simpl.
    eexists. split; [done|]. simpl. change (nargv s) with (nargv s0). rewrite Cv. split; [done|].
    change (optind s) with (optind s0). rewrite Ci. change (zlen (@nil cptr)) with 0. lia.
  - rewrite (bool_decide_eq_true_2 (nonopt_start s0 ≠ -1)), (bool_decide_eq_true_2 (nonopt_end s0 = -1)) by lia.
    simpl.
    rewrite bool_decide_eq_true_2 by (destruct Hb; change (optind s ≠ -1); lia).
    set (s1 := set_place (set_optind _ _) EMSG).
    assert (config P N [d] R s1) as Hcf1.
    { unfold s1. split; try done; simpl; try (change (optind s) with (optind s0)).
      - rewrite Ci. change (zlen (@nil cptr)) with 0. change (zlen [d]) with 1. lia.
      - right; right. split_and!; try done. rewrite Ci. change (zlen (@nil cptr)) with 0. lia. }
    destruct (config_permute _ _ _ _ _ Hcf1) as (-> & Es & Ee & _); [simpl; destruct Hb; lia|]. simpl.
    eexists. split; [done|]. simpl. split; [done|]. change (optind s) with (optind s0).
    change (nonopt_start s) with (nonopt_start s0). rewrite Ci, Hs. change (zlen (@nil cptr)) with 0. lia.
  - rewrite (bool_decide_eq_false_2 (nonopt_end s0 = -1)), andb_false_r by lia.
    simpl. rewrite bool_decide_eq_true_2 by (change (nonopt_end s0 ≠ -1); lia).
    set (s1 := set_place (set_optind _ _) EMSG).
    assert (config P N (O ++ [d]) R s1) as Hcf1.
    { unfold s1. split; try done; simpl; try (change (optind s) with (optind s0)).
      - change (nargv s) with (nargv s0). by rewrite Cv, <- !app_assoc.
      - rewrite Ci, zlen_app. change (zlen [d]) with 1. lia.
      - right; right. split_and!; try done. by destruct O. }
    destruct (config_permute _ _ _ _ _ Hcf1) as (-> & Es & Ee & _);
      [change (nonopt_end s0 ≠ -1); lia|]. simpl.
    eexists. split; [done|]. simpl. rewrite <- !app_assoc. split; [done|]. change (optind s) with (optind s0).
    change (nonopt_start s) with (nonopt_start s0). change (nonopt_end s) with (nonopt_end s0).
    rewrite Ci, Hs, He. lia.
Qed.

(** *** Command lines *)

Inductive item : Type :=
  | Options (ws : list cptr) (vs : list (Z * option string))
  | Operand (a : cptr).
Definition item_ok (i : item) : Prop :=
  match i with Options ws vs => spells ws vs | Operand a => is_operand a = true end.
Definition item_words (i : item) : list cptr :=
  match i with Options ws _ => ws | Operand a => [a] end.
Definition item_values (i : item) : list (Z * option string) :=
  match i with Options _ vs => vs | Operand _ => [] end.
Definition item_options (i : item) : list cptr :=
  match i with Options ws _ => ws | Operand _ => [] end.
Definition item_operands (i : item) : list cptr :=
  match i with Options _ _ => [] | Operand a => [a] end.

(** What follows the items: nothing, or [--] and any words. *)
Inductive tail : Type := NoTail | EndOptions (o : Z) (rest : list cptr).
Definition dashes (o : Z) : cptr := CPtr o (String.String DASH (String.String DASH EmptyString)).
Definition tail_words (t : tail) : list cptr :=
  match t with NoTail => [] | EndOptions o rest => dashes o :: rest end.
Definition tail_mark (t : tail) : list cptr :=
  match t with NoTail => [] | EndOptions o _ => [dashes o] end.
Definition tail_rest (t : tail) : list cptr :=
  match t with NoTail => [] | EndOptions _ rest => rest end.

Lemma loop_items items t : Forall item_ok items → ∀ P N O s fuel,
  config P N O (mjoin (item_words <$> items) ++ tail_words t) s →
  (length (mjoin (item_values <$> items)) < fuel)%nat →
  ∃ s', getopt_all next fuel s = Ret (mjoin (item_values <$> items), s') ∧
    nargv s' = P ++ O ++ mjoin (item_options <$> items) ++ tail_mark t ++
               N ++ mjoin (item_operands <$> items) ++ tail_rest t ∧
    optind s' = zlen P + zlen O + zlen (mjoin (item_options <$> items)) + zlen (tail_mark t).
Proof.
  induction 1 as [|i items Hi _ IH]; intros P N O s fuel Hcf Hf.
  - destruct fuel as [|fuel]; [lia|]. simpl in *. destruct t as [|o rest]; simpl in *.
    + destruct (config_end P N O s Hcf) as (s' & -> & Hv & Ho). simpl. exists s'. split; [done|].
      rewrite app_nil_r, Hv, Ho. split; [done|]. change (zlen (@nil cptr)) with 0. lia.
    + destruct (config_end_options P N O rest s _ Hcf eq_refl) as (s' & -> & Hv & Ho). simpl.
      exists s'. split; [done|]. rewrite Hv, Ho. split; [done|]. change (zlen (@nil cptr)) with 0.
      change (zlen [dashes o]) with 1. lia.
  - destruct i as [ws vs|a]; csimpl in *; rewrite ?length_app in Hf.
    + rewrite <- app_assoc in Hcf.
      destruct (config_option _ _ _ _ _ _ _ Hcf Hi) as (P' & O' & s1 & Hc & Hcf1 & HPO).
      destruct (IH P' N O' s1 (fuel - length vs)%nat Hcf1) as (s' & E & Hv & Ho); [lia|].
      exists s'. split_and!.
      * replace fuel with (length vs + (fuel - length vs))%nat by lia. by apply long_calls_all with (s1 := s1).
      * rewrite Hv. rewrite (assoc_L (++) P'), HPO. by rewrite <- !app_assoc.
      * apply (f_equal zlen) in HPO. rewrite !zlen_app in *. lia.
    + destruct (call_skip P N O _ (set_optarg s None) a (config_optarg _ _ _ _ _ None Hcf) Hi eq_refl)
        as (P' & O' & s1 & Hn & Hcf1 & HPO & _).
      destruct (IH P' (N ++ [a]) O' s1 fuel Hcf1 Hf) as (s' & E & Hv & Ho). exists s'. split_and!.
      * rewrite <- E. destruct fuel as [|fuel]; [done|]. simpl.
        by rewrite (next_optarg _ _ _ _ _ Hcf), Hn.
      * rewrite Hv. rewrite (assoc_L (++) P'), HPO. by rewrite <- !app_assoc.
      * apply (f_equal zlen) in HPO. rewrite !zlen_app in *. lia.
Qed.

(** The first call after a reset. *)
Lemma next_reset s prog R :
  optind s = 1 → optreset s ≠ 0 → nargv s = prog :: R →
  ∃ s0, next s = next s0 ∧ config [prog] [] [] R s0.
Proof.
  intros Hi Hr Hv.
  set (s1 := set_nonopt (set_optarg s None) (-1) (-1)).
  exists (set_optreset (set_place s1 EMSG) 0).
  assert (config [prog] [] [] R (set_optreset (set_place s1 EMSG) 0)) as Hcf.
  { split; simpl; try done. by left. }
  split; [|done].
  pose proof (config_between _ _ _ _ _ Hcf) as [B1 B2 _ _].
  rewrite (next_unfold (set_optreset (set_place s1 EMSG) 0)) by done.
  unfold next, getopt_long, getopt_internal, effective_flags, skip_mode, prepare.
  rewrite Hplus, Hdash. simpl. rewrite (bool_decide_eq_false_2 (optind s = 0)) by lia. simpl.
  rewrite (bool_decide_eq_true_2 (optreset s ≠ 0)) by done. simpl. fold s1.
  by rewrite (scan_reset _ s1) by done.
Qed.
End roundtrip.

(** C4: for a command line of options (letters and long options, with their
    arguments attached or separate, long names possibly abbreviated) mixed
    with operands, the loop of [getopt_long] returns the options with their
    arguments in order, leaves the vector as the options, then the operands,
    each in their order, and [optind] at the first operand; [--] ends the
    options. *)
Theorem getopt_long_roundtrip (options : string) (lo : list long_option) (idx : bool)
    (s : getopt_state) (prog : cptr) (items : list item) (t : tail) (fuel : nat) :
  starts_with options PLUS = false → starts_with options DASH = false →
  optind s = 1 → optreset s ≠ 0 →
  Forall (item_ok options lo) items →
  nargv s = prog :: mjoin (item_words <$> items) ++ tail_words t →
  (length (mjoin (item_values <$> items)) < fuel)%nat →
  ∃ s', getopt_all (λ s, getopt_long false s (Some options) (Some lo) idx) fuel s
        = Ret (mjoin (item_values <$> items), s') ∧
    nargv s' = (prog :: mjoin (item_options <$> items) ++ tail_mark t) ++
               mjoin (item_operands <$> items) ++ tail_rest t ∧
    optind s' = zlen (prog :: mjoin (item_options <$> items) ++ tail_mark t).
Proof.
  intros Hplus Hdash Hi Hr Hok Hv Hf.
  destruct (next_reset options lo idx Hplus Hdash s prog _ Hi Hr Hv) as (s0 & Hn & Hcf).
  destruct (loop_items options lo idx Hplus Hdash items t Hok _ _ _ s0 fuel Hcf Hf)
    as (s' & E & Hv' & Ho'). exists s'. split_and!.
  - rewrite <- E. destruct fuel as [|fuel]; [done|]. unfold next in *. cbn [getopt_all]. by rewrite Hn.
  - rewrite Hv'. simpl. by rewrite <- !app_assoc.
  - rewrite Ho'. unfold zlen. simpl. rewrite length_app. lia.
Qed.

(** [ls dir --colo=x -a f --width 80 -- -z]. *)
Definition ls_items : list item :=
  [Operand (CPtr 1 "dir"); Options [CPtr 2 "--colo=x"] [(0, Some "x"%string)];
   Options [CPtr 3 "-a"] [(97, None)]; Operand (CPtr 4 "f");
   Options [CPtr 5 "--width"; CPtr 6 "80"] [(119, Some "80"%string)]].

Lemma getopt_long_roundtrip_witness :
  ∃ s', getopt_all (λ s, getopt_long false s (Some "aw:"%string) (Some ls_options) true) 4
    (getopt_start [CPtr 0 "ls"; CPtr 1 "dir"; CPtr 2 "--colo=x"; CPtr 3 "-a"; CPtr 4 "f"; CPtr 5 "--width";
                   CPtr 6 "80"; CPtr 7 "--"; CPtr 8 "-z"])
    = Ret ([(0, Some "x"%string); (97, None); (119, Some "80"%string)], s') ∧
    nargv s' = [CPtr 0 "ls"; CPtr 2 "--colo=x"; CPtr 3 "-a"; CPtr 5 "--width"; CPtr 6 "80"; CPtr 7 "--";
                CPtr 1 "dir"; CPtr 4 "f"; CPtr 8 "-z"] ∧ optind s' = 6.
Proof.
  apply (getopt_long_roundtrip "aw:" ls_options true
    (getopt_start [CPtr 0 "ls"; CPtr 1 "dir"; CPtr 2 "--colo=x"; CPtr 3 "-a"; CPtr 4 "f"; CPtr 5 "--width";
                   CPtr 6 "80"; CPtr 7 "--"; CPtr 8 "-z"])
    (CPtr 0 "ls") ls_items (EndOptions 7 [CPtr 8 "-z"]) 4); try reflexivity; try discriminate.
  - repeat apply Forall_cons_2; [reflexivity| | |reflexivity| |constructor].
    + apply (sp_long_equal _ _ 2 "colo" "x" 1 (LongOption "color" optional_argument (Some 5) 1));
        try reflexivity; try discriminate. by right.
    + apply (sp_flags _ _ 3 "a"); [discriminate|]. repeat split; discriminate.
    + apply (sp_long_separate _ _ 5 "width" (CPtr 6 "80") 2 (LongOption "width" required_argument None 119));
        try reflexivity; discriminate.
  - simpl. lia.
Defined.
