(* ===== verification/ProcessEnv.v ===== *)
(** * The environments of the pretended processes ([src/libc_replacement.c])

    A command runs as a thread of the application; a number between 0 and 127
    plays the part of a process number and indexes fixed arrays.
    - [process_table] holds the arrays and the other static variables, the
      process environment [environ] and the working directory.
      [current_pid] is local to a thread and an argument of the operations.
    - A block of an environment is a list of cells, as in [EnvManager]: an
      uninitialised cell, [NULL] or a string.
    - Theorems: the operations keep the blocks terminated and refine updates of
      the list of variables; a child gets a copy of its parent's variables;
      a variable set by [ios_putenv] is not the one [getenv] reads. *)

From S2P Require Import Prelude EnvManager.

Local Open Scope Z_scope.

Definition IOS_MAX_THREADS : Z := 128.

Abbreviation block := (list (option (option string))) (only parsing).

Record process_table := ProcessTable {
  thread_ids : list Z;                (* 0: free, -1: not yet started *)
  numVariablesSet : list Z;
  environment : list (option block);
  copyEnvironment : list (option block);
  previousDirectory : list string;
  previousPid : list Z;
  pid_overflow : bool;
  last_allocated_pid : Z;
  environ : list string;
  cwd : string }.

Definition set_thread_id (t : process_table) (p : nat) (x : Z) : process_table :=
  ProcessTable (<[p := x]> (thread_ids t)) (numVariablesSet t) (environment t) (copyEnvironment t)
    (previousDirectory t) (previousPid t) (pid_overflow t) (last_allocated_pid t) (environ t) (cwd t).
Definition set_num (t : process_table) (p : nat) (x : Z) : process_table :=
  ProcessTable (thread_ids t) (<[p := x]> (numVariablesSet t)) (environment t) (copyEnvironment t)
    (previousDirectory t) (previousPid t) (pid_overflow t) (last_allocated_pid t) (environ t) (cwd t).
Definition set_environment (t : process_table) (p : nat) (x : option block) : process_table :=
  ProcessTable (thread_ids t) (numVariablesSet t) (<[p := x]> (environment t)) (copyEnvironment t)
    (previousDirectory t) (previousPid t) (pid_overflow t) (last_allocated_pid t) (environ t) (cwd t).
Definition set_copy (t : process_table) (p : nat) (x : option block) : process_table :=
  ProcessTable (thread_ids t) (numVariablesSet t) (environment t) (<[p := x]> (copyEnvironment t))
    (previousDirectory t) (previousPid t) (pid_overflow t) (last_allocated_pid t) (environ t) (cwd t).
Definition set_previous (t : process_table) (p : nat) (dir : string) (parent : Z) : process_table :=
  ProcessTable (thread_ids t) (numVariablesSet t) (environment t) (copyEnvironment t)
    (<[p := dir]> (previousDirectory t)) (<[p := parent]> (previousPid t)) (pid_overflow t)
    (last_allocated_pid t) (environ t) (cwd t).
Definition set_last (t : process_table) (overflow : bool) (last : Z) : process_table :=
  ProcessTable (thread_ids t) (numVariablesSet t) (environment t) (copyEnvironment t)
    (previousDirectory t) (previousPid t) overflow last (environ t) (cwd t).
Definition set_environ (t : process_table) (x : list string) : process_table :=
  ProcessTable (thread_ids t) (numVariablesSet t) (environment t) (copyEnvironment t)
    (previousDirectory t) (previousPid t) (pid_overflow t) (last_allocated_pid t) x (cwd t).
Definition set_cwd (t : process_table) (x : string) : process_table :=
  ProcessTable (thread_ids t) (numVariablesSet t) (environment t) (copyEnvironment t)
    (previousDirectory t) (previousPid t) (pid_overflow t) (last_allocated_pid t) (environ t) x.

(** [a[i]] of one of the arrays. *)
Definition slot {A} (l : list A) (i : Z) : outcome A :=
  if bool_decide (0 ≤ i) then
    match l !! Z.to_nat i with Some x => Ret x | None => Undef OutOfBounds end
  else Undef OutOfBounds.

(** [envp[i]]. *)
Definition load_cell (l : block) (i : nat) : outcome (option string) :=
  match l !! i with
  | Some (Some c) => Ret c
  | Some None => Undef Uninitialised
  | None => Undef OutOfBounds
  end.

(** The loop that looks for a variable from index [i]: [NULL] is skipped. *)
Fixpoint find_env (k i : nat) (envp : block) (name : string) : outcome (option nat) :=
  match k with
  | O => Ret None
  | S k =>
      c ← load_cell envp i;
      match c with
      | None => find_env k (S i) envp name
      | Some s => if matches s name then Ret (Some i) else find_env k (S i) envp name
      end
  end.

(** The array has grown by two cells; a string and [NULL] are stored at its
    end.  [alloc_ok]: the allocations succeed (their results are not checked). *)
Definition append_env (t : process_table) (pid : Z) (envp : block) (n : Z) (s : string) (alloc_ok : bool)
    : outcome process_table :=
  if alloc_ok then
    l ← write_cell (realloc_cells envp (n + 2)) (Z.to_nat n) (Some s);
    l ← write_cell l (Z.to_nat (n + 1)) None;
    Ret (set_num (set_environment t (Z.to_nat pid) (Some l)) (Z.to_nat pid) (n + 1))
  else Undef NullDeref.

(** A string replaces the one at index [i]. *)
Definition replace_env (t : process_table) (pid : Z) (envp : block) (i : nat) (s : string) (alloc_ok : bool)
    : outcome process_table :=
  if alloc_ok then
    l ← write_cell envp i (Some s);
    Ret (set_environment t (Z.to_nat pid) (Some l))
  else Undef NullDeref.

(** The result and [errno] of a call on the table. *)
Abbreviation call_result := (process_table * Z * option errno)%type (only parsing).

Definition ios_setenv_pid (t : process_table) (name : option string) (value : string) (overwrite : bool)
    (pid : Z) (alloc_ok : bool) : outcome call_result :=
  env ← slot (environment t) pid;
  match env with
  | Some envp =>
      if bad_name name then Ret (t, -1, Some EINVAL) else
      let name := default EmptyString name in
      n ← slot (numVariablesSet t) pid;
      i ← find_env (Z.to_nat n) 0 envp name;
      match i with
      | Some i =>
          if overwrite
          then t ← replace_env t pid envp i (entry name value) alloc_ok; Ret (t, 0, None)
          else Ret (t, 0, None)
      | None => t ← append_env t pid envp n (entry name value) alloc_ok; Ret (t, 0, None)
      end
  | None =>
      if bad_name name then Ret (t, -1, Some EINVAL)
      else Ret (set_environ t (libc_setenv (environ t) (default EmptyString name) value overwrite), 0, None)
  end.

Definition ios_setenv_parent (t : process_table) (current_pid : Z) (name : option string) (value : string)
    (overwrite alloc_ok : bool) : outcome call_result :=
  parent ← slot (previousPid t) current_pid;
  ios_setenv_pid t name value overwrite parent alloc_ok.

(** [strchr(string, '=')]: the name before the sign. *)
Definition putenv_name (s : string) : option string := fst <$> split_eq s.

Definition ios_putenv (t : process_table) (current_pid : Z) (s : string) (alloc_ok : bool)
    : outcome call_result :=
  env ← slot (environment t) current_pid;
  match env with
  | Some envp =>
      match putenv_name s with
      | None => Ret (t, -1, Some EINVAL)
      | Some name =>
          n ← slot (numVariablesSet t) current_pid;
          i ← find_env (Z.to_nat n) 0 envp name;
          match i with
          | Some i => t ← replace_env t current_pid envp i s alloc_ok; Ret (t, 0, None)
          | None => t ← append_env t current_pid envp n s alloc_ok; Ret (t, 0, None)
          end
      end
  | None =>
      match split_eq s with
      | None | Some (EmptyString, _) => Ret (t, -1, Some EINVAL)
      | Some (name, value) => Ret (set_environ t (libc_setenv (environ t) name value true), 0, None)
      end
  end.

(** The variable at index [i] goes, the ones after it move down. *)
Definition remove_env (t : process_table) (pid : Z) (envp : block) (n : Z) (i : nat) (alloc_ok : bool)
    : outcome process_table :=
  l ← write_cell envp i None;
  l ← (if bool_decide (Z.of_nat i < n - 1) then
         l ← shift_down (Z.to_nat (n - 1) - i) i l;
         write_cell l (Z.to_nat (n - 1)) None
       else Ret l);
  if alloc_ok then
    Ret (set_environment (set_num t (Z.to_nat pid) (n - 1)) (Z.to_nat pid) (Some (realloc_cells l n)))
  else Ret (set_environment (set_num t (Z.to_nat pid) (n - 1)) (Z.to_nat pid) None).

Definition ios_unsetenv_pid (t : process_table) (name : option string) (pid : Z) (alloc_ok : bool)
    : outcome call_result :=
  env ← slot (environment t) pid;
  match env with
  | Some envp =>
      if bad_name name then Ret (t, -1, Some EINVAL) else
      let name := default EmptyString name in
      n ← slot (numVariablesSet t) pid;
      i ← find_env (Z.to_nat n) 0 envp name;
      match i with
      | Some i => t ← remove_env t pid envp n i alloc_ok; Ret (t, 0, None)
      | None => Ret (t, 0, None)
      end
  | None =>
      if bad_name name then Ret (t, -1, Some EINVAL)
      else Ret (set_environ t (libc_unsetenv (environ t) (default EmptyString name)), 0, None)
  end.

Definition ios_unsetenv_parent (t : process_table) (current_pid : Z) (name : option string) (alloc_ok : bool)
    : outcome call_result :=
  parent ← slot (previousPid t) current_pid;
  ios_unsetenv_pid t name parent alloc_ok.

(** The loops that free the strings: cells [0] to [n - 1] become [NULL]. *)
Fixpoint free_cells (k i : nat) (l : block) : outcome block :=
  match k with
  | O => Ret l
  | S k => _ ← load_cell l i; l ← write_cell l i None; free_cells k (S i) l
  end.

Definition resetEnvironment (t : process_table) (pid : Z) : outcome process_table :=
  env ← slot (environment t) pid;
  match env with
  | None => Ret t
  | Some envp =>
      n ← slot (numVariablesSet t) pid;
      _ ← free_cells (Z.to_nat n) 0 envp;
      Ret (set_num (set_environment t (Z.to_nat pid) None) (Z.to_nat pid) 0)
  end.

Definition clearEnvironment (t : process_table) (pid : Z) : outcome process_table :=
  env ← slot (environment t) pid;
  match env with
  | None => Ret t
  | Some envp =>
      n ← slot (numVariablesSet t) pid;
      l ← free_cells (Z.to_nat n) 0 envp;
      Ret (set_num (set_environment t (Z.to_nat pid) (Some l)) (Z.to_nat pid) 0)
  end.

(** [while (envp[i] != NULL) i++]: the strings of a block, up to [NULL]. *)
Fixpoint block_strings (envp : block) : outcome (list string) :=
  match envp with
  | [] => Undef OutOfBounds
  | None :: _ => Undef Uninitialised
  | Some None :: _ => Ret []
  | Some (Some s) :: envp => l ← block_strings envp; Ret (s :: l)
  end.

(** A fresh block with copies of strings, terminated. *)
Definition new_block (vars : list string) : block := (Some ∘ Some <$> vars) ++ [Some None].

(** [storeEnvironment]; [envp] is a block of its own, not the one the call
    releases. *)
Definition storeEnvironment (t : process_table) (current_pid : Z) (envp : block) : outcome process_table :=
  t ← resetEnvironment t current_pid;
  vars ← block_strings envp;
  _ ← slot (environment t) current_pid;
  Ret (set_environment (set_num t (Z.to_nat current_pid) (zlen vars)) (Z.to_nat current_pid)
         (Some (new_block vars))).

Definition environmentVariables (t : process_table) (pid : Z) : outcome block :=
  env ← slot (environment t) pid;
  Ret (match env with Some envp => envp | None => new_block (environ t) end).

Definition makeGlobal (t : process_table) (current_pid : Z) : outcome process_table :=
  env ← slot (environment t) current_pid;
  Ret (set_environment (set_copy t (Z.to_nat current_pid) env) (Z.to_nat current_pid) None).

Definition makeLocal (t : process_table) (current_pid : Z) : outcome process_table :=
  copy ← slot (copyEnvironment t) current_pid;
  Ret (set_copy (set_environment t (Z.to_nat current_pid) copy) (Z.to_nat current_pid) None).

(** ** Blocks hold lists of variables *)

Definition holds_vars (l : block) (n : Z) (vars : list string) : Prop :=
  n = zlen vars ∧ ∃ rest, l = (Some ∘ Some <$> vars) ++ Some None :: rest.

(** Process [p] has an environment of its own with the variables [vars]. *)
Definition env_at (t : process_table) (p : nat) (vars : list string) : Prop :=
  ∃ l n, environment t !! p = Some (Some l) ∧ numVariablesSet t !! p = Some n ∧ holds_vars l n vars.

(** What an operation on process [p] leaves alone. *)
Record frame (t t' : process_table) (p : nat) : Prop := {
  fr_threads : thread_ids t' = thread_ids t;
  fr_prev : previousPid t' = previousPid t ∧ previousDirectory t' = previousDirectory t;
  fr_last : pid_overflow t' = pid_overflow t ∧ last_allocated_pid t' = last_allocated_pid t;
  fr_cwd : cwd t' = cwd t ∧ environ t' = environ t ∧ copyEnvironment t' = copyEnvironment t;
  fr_len : length (environment t') = length (environment t) ∧
           length (numVariablesSet t') = length (numVariablesSet t);
  fr_env q : q ≠ p → environment t' !! q = environment t !! q ∧
                     numVariablesSet t' !! q = numVariablesSet t !! q }.

Lemma frame_env_at t t' p q vars : frame t t' p → q ≠ p → env_at t q vars → env_at t' q vars.
Proof.
  intros [_ _ _ _ _ Hf] Hq (l & n & Hl & Hn & Hr). destruct (Hf q Hq) as [E1 E2].
  exists l, n. by rewrite E1, E2.
Qed.

Lemma slot_ok {A} (l : list A) (p : nat) x : l !! p = Some x → slot l (Z.of_nat p) = Ret x.
Proof. intros H. unfold slot. rewrite bool_decide_eq_true_2 by lia. by rewrite Nat2Z.id, H. Qed.

Lemma env_at_set t p l n vars l0 n0 :
  environment t !! p = Some l0 → numVariablesSet t !! p = Some n0 → holds_vars l n vars →
  env_at (set_num (set_environment t p (Some l)) p n) p vars ∧
  env_at (set_environment (set_num t p n) p (Some l)) p vars ∧
  frame t (set_num (set_environment t p (Some l)) p n) p ∧
  frame t (set_environment (set_num t p n) p (Some l)) p.
Proof.
  intros He Hn Hr. apply lookup_lt_Some in He as Hle. apply lookup_lt_Some in Hn as Hln.
  split_and!.
  - exists l, n. simpl. rewrite !list_lookup_insert_eq by done. done.
  - exists l, n. simpl. rewrite !list_lookup_insert_eq by done. done.
  - split; simpl; try done; [by rewrite !length_insert|]. intros q Hq. by rewrite !list_lookup_insert_ne.
  - split; simpl; try done; [by rewrite !length_insert|]. intros q Hq. by rewrite !list_lookup_insert_ne.
Qed.

Lemma find_env_spec l vars rest name k i :
  l = (Some ∘ Some <$> vars) ++ Some None :: rest → (i + k = length vars)%nat →
  find_env k i l name
  = Ret ((λ x, (i + x.1)%nat) <$> list_find (λ s, matches s name = true) (drop i vars)).
Proof.
  intros El. revert i. induction k as [|k IH]; intros i Hk; simpl.
  - by rewrite drop_ge by lia.
  - destruct (lookup_lt_is_Some_2 vars i) as [s Hs]; [lia|].
    assert (load_cell l i = Ret (Some s)) as ->.
    { unfold load_cell. rewrite El, lookup_app_l by (rewrite length_fmap; lia).
      by rewrite list_lookup_fmap, Hs. }
    simpl. rewrite (drop_S _ _ _ Hs). simpl. destruct (matches s name) eqn:Em.
    + rewrite decide_True by done. simpl. by rewrite Nat.add_0_r.
    + rewrite decide_False by congruence. rewrite IH by lia.
      destruct (list_find _ (drop (S i) vars)) as [[j x]|]; simpl; [|done]. do 2 f_equal. lia.
Qed.

Lemma find_env_index l n vars name :
  holds_vars l n vars → find_env (Z.to_nat n) 0 l name = Ret (var_index vars name).
Proof.
  intros (-> & rest & El). rewrite (find_env_spec l vars rest) by (done || (unfold zlen; lia)).
  rewrite drop_0. unfold var_index. by destruct (list_find _ vars) as [[j x]|].
Qed.

Lemma holds_insert l n vars i s :
  holds_vars l n vars → (i < length vars)%nat →
  write_cell l i (Some s) = Ret (<[i := Some (Some s)]> l) ∧
  holds_vars (<[i := Some (Some s)]> l) n (<[i := s]> vars).
Proof.
  intros (-> & rest & El) Hi. split.
  - apply write_cell_ok. rewrite El, length_app, length_fmap. lia.
  - split; [unfold zlen; by rewrite length_insert|]. exists rest.
    rewrite El, insert_app_l by (by rewrite length_fmap). by rewrite list_fmap_insert.
Qed.

(** Growing a block. *)
Lemma holds_append l n vars s :
  holds_vars l n vars →
  ∃ l1 l2, write_cell (realloc_cells l (n + 2)) (Z.to_nat n) (Some s) = Ret l1 ∧
    write_cell l1 (Z.to_nat (n + 1)) None = Ret l2 ∧ holds_vars l2 (n + 1) (vars ++ [s]).
Proof.
  intros (-> & rest & El). set (cs := Some ∘ Some <$> vars) in *.
  assert (length cs = length vars) as Hcs by apply length_fmap.
  assert (∃ c rest', realloc_cells l (zlen vars + 2) = cs ++ Some None :: c :: rest') as (c & rest' & E).
  { unfold realloc_cells, ztake, zlen. rewrite El.
    replace (Z.to_nat (Z.of_nat (length vars) + 2)) with (length cs + 2)%nat by lia.
    rewrite take_app_add. rewrite length_app. cbn [length]. destruct rest as [|c rest].
    - simpl. replace (length cs + 2 - (length cs + 1))%nat with 1%nat by lia. simpl.
      exists None, []. by rewrite <- app_assoc.
    - simpl. exists c. rewrite <- app_assoc. by eexists. }
  rewrite E. unfold zlen. rewrite Nat2Z.id.
  rewrite write_cell_ok by (rewrite length_app; simpl; lia).
  replace (length vars) with (length cs + 0)%nat by lia. rewrite insert_app_r. cbn [insert list_insert].
  eexists _, _. split; [done|]. rewrite write_cell_ok by (rewrite length_app; simpl; lia).
  replace (Z.to_nat (Z.of_nat (length cs + 0) + 1)) with (length cs + 1)%nat by lia.
  rewrite insert_app_r. cbn [insert list_insert]. split; [done|]. split.
  - unfold zlen. rewrite length_app. simpl. lia.
  - exists rest'. unfold cs. by rewrite fmap_app, <- app_assoc.
Qed.

(** Closing the gap of a removed variable. *)
Lemma holds_remove t p l n vars i :
  holds_vars l n vars → (i < length vars)%nat →
  ∃ l', remove_env t (Z.of_nat p) l n i true
        = Ret (set_environment (set_num t p (n - 1)) p (Some l')) ∧
        holds_vars l' (n - 1) (delete i vars).
Proof.
  intros (-> & rest & El) Hi. unfold remove_env. rewrite Nat2Z.id. set (cs := Some ∘ Some <$> vars) in *.
  assert (length cs = length vars) as Hcs by apply length_fmap.
  rewrite write_cell_ok by (rewrite El, length_app; lia). cbn [mbind outcome_bind].
  assert (Hdel : length (delete i vars) = (length vars - 1)%nat)
    by (apply length_delete, lookup_lt_is_Some; lia).
  assert (∃ rest', (if bool_decide (Z.of_nat i < zlen vars - 1) then
     l ← shift_down (Z.to_nat (zlen vars - 1) - i) i (<[i := Some None]> l);
     write_cell l (Z.to_nat (zlen vars - 1)) None
   else Ret (<[i := Some None]> l)) = Ret ((Some ∘ Some <$> delete i vars) ++ Some None :: rest')) as (rest' & E').
  { rewrite El, insert_app_l by lia. rewrite list_fmap_delete. fold cs. unfold zlen. case_bool_decide as Hlast.
    - set (k := (Z.to_nat (Z.of_nat (length vars) - 1) - i)%nat).
      assert (i + S k = length cs)%nat as Hik by lia. set (cs' := <[i := Some None]> cs).
      assert (length cs' = length cs) as Hl' by apply length_insert.
      rewrite shift_down_spec by (rewrite length_app; simpl; lia). cbn [mbind outcome_bind].
      rewrite take_app_le, (drop_app_le cs' _ (S i)), take_app_le by (rewrite ?length_drop; lia).
      rewrite (take_ge (drop (S i) cs')) by (rewrite length_drop; lia).
      rewrite (drop_app_le cs' _ (i + k)) by lia.
      assert (∃ c, drop (i + k) cs' = [c]) as [c Hdrop].
      { destruct (drop (i + k) cs') as [|c [|? ?]] eqn:Ed; [..|by eauto|];
          apply (f_equal length) in Ed; rewrite length_drop in Ed; simpl in Ed; lia. }
      rewrite Hdrop, app_assoc. unfold cs'. rewrite take_insert_ge, drop_insert_lt by lia.
      rewrite <- delete_take_drop.
      assert (length (delete i cs) = i + k)%nat as Hld
        by (rewrite length_delete by (apply lookup_lt_is_Some; lia); lia).
      rewrite write_cell_ok by (rewrite length_app; simpl; lia).
      replace (Z.to_nat (Z.of_nat (length vars) - 1)) with (length (delete i cs) + 0)%nat by lia.
      rewrite insert_app_r. by eexists.
    - exists (Some None :: rest). f_equal.
      assert (delete i cs = take i cs) as ->.
      { rewrite delete_take_drop, (drop_ge cs) by lia. by rewrite app_nil_r. }
      rewrite insert_take_drop by lia. rewrite (drop_ge cs) by lia. by rewrite <- app_assoc. }
  rewrite E'. cbn [mbind outcome_bind]. eexists. split; [done|].
  split; [unfold zlen; lia|]. unfold realloc_cells, ztake, zlen. rewrite length_app, length_fmap. cbn [length].
  replace (Z.to_nat (Z.of_nat (length vars))) with (length (Some ∘ Some <$> delete i vars) + 1)%nat
    by (rewrite length_fmap; lia).
  rewrite take_app_add. simpl. rewrite <- app_assoc. by eexists.
Qed.

Local Arguments bad_name : simpl never.

Lemma setenv_pid_spec t p vars name value ow :
  env_at t p vars → bad_name (Some name) = false →
  ∃ t', ios_setenv_pid t (Some name) value ow (Z.of_nat p) true = Ret (t', 0, None) ∧
        env_at t' p (libc_setenv vars name value ow) ∧ frame t t' p.
Proof.
  intros (l & n & He & Hn & Hr) Hb. unfold ios_setenv_pid.
  rewrite (slot_ok _ _ _ He). simpl. rewrite Hb, (slot_ok _ _ _ Hn). simpl.
  rewrite (find_env_index l n vars) by done. simpl. unfold libc_setenv, var_index.
  destruct (list_find _ vars) as [[i x]|] eqn:Ei; simpl.
  - destruct ow; [|by exists t; split_and!; try done; exists l, n].
    apply list_find_Some in Ei as (Hi & _ & _). apply lookup_lt_Some in Hi.
    destruct (holds_insert l n vars i (entry name value) Hr Hi) as [E Hr'].
    unfold replace_env. rewrite E. simpl. rewrite Nat2Z.id. eexists. split; [done|].
    apply lookup_lt_Some in He as Hle. split.
    + eexists _, n. simpl. rewrite list_lookup_insert_eq by done. done.
    + split; simpl; try done; [by rewrite length_insert|]. intros q Hq. by rewrite list_lookup_insert_ne.
  - destruct (holds_append l n vars (entry name value) Hr) as (l1 & l2 & E1 & E2 & Hr').
    unfold append_env. rewrite E1. simpl. rewrite E2. simpl. rewrite Nat2Z.id.
    destruct (env_at_set t p l2 (n + 1) _ _ _ He Hn Hr') as (H1 & _ & H3 & _). eauto.
Qed.

Lemma unsetenv_pid_spec t p vars name :
  env_at t p vars → bad_name (Some name) = false →
  ∃ t', ios_unsetenv_pid t (Some name) (Z.of_nat p) true = Ret (t', 0, None) ∧
        env_at t' p (remove_var vars name) ∧ frame t t' p.
Proof.
  intros (l & n & He & Hn & Hr) Hb. unfold ios_unsetenv_pid.
  rewrite (slot_ok _ _ _ He). simpl. rewrite Hb, (slot_ok _ _ _ Hn). simpl.
  rewrite (find_env_index l n vars) by done. simpl. unfold remove_var.
  destruct (var_index vars name) as [i|] eqn:Ei; simpl; [|by exists t; split_and!; try done; exists l, n].
  apply var_index_lt in Ei as (s & Hs & _). apply lookup_lt_Some in Hs.
  destruct (holds_remove t p l n vars i Hr Hs) as (l' & -> & Hr'). simpl.
  destruct (env_at_set t p l' (n - 1) _ _ _ He Hn Hr') as (_ & H2 & _ & H4). eauto.
Qed.

Lemma split_eq_Some s n v : split_eq s = Some (n, v) → s = entry n v ∧ has_eq n = false.
Proof.
  revert n. induction s as [|c s IH]; intros n; simpl; [done|]. case_bool_decide as E.
  - intros [= <- <-]. by subst c.
  - destruct (split_eq s) as [[n' v']|]; [|done]. intros [= <- <-].
    destruct (IH n' eq_refl) as [-> Hn]. split; [done|]. simpl. by rewrite bool_decide_eq_false_2.
Qed.

(** [ios_putenv] of [NAME=VALUE] overwrites as [ios_setenv_pid] does. *)
Lemma putenv_setenv t p vars s n v :
  env_at t p vars → split_eq s = Some (n, v) → n ≠ EmptyString →
  ios_putenv t (Z.of_nat p) s true = ios_setenv_pid t (Some n) v true (Z.of_nat p) true.
Proof.
  intros (l & k & He & Hn & Hr) Hs Hne. destruct (split_eq_Some _ _ _ Hs) as [-> Hq].
  unfold ios_putenv, ios_setenv_pid. rewrite (slot_ok _ _ _ He). simpl.
  unfold putenv_name. rewrite Hs. simpl.
  destruct n as [|c n]; [done|]. unfold bad_name. rewrite Hq. done.
Qed.

(** "env -i". *)
Lemma free_cells_spec k l :
  (∀ i, (i < k)%nat → ∃ c, l !! i = Some (Some c)) →
  ∀ i, (i ≤ k)%nat → ∃ l', free_cells (k - i) i l = Ret l' ∧ length l' = length l ∧
    (∀ j, (i ≤ j < k)%nat → l' !! j = Some (Some None)) ∧ (∀ j, ¬ (i ≤ j < k)%nat → l' !! j = l !! j).
Proof.
  intros Hl i Hi. remember (k - i)%nat as m eqn:Em. revert i l Hl Hi Em.
  induction m as [|m IH]; intros i l Hl Hi Em; simpl.
  - exists l. split_and!; try done. intros j Hj. lia.
  - destruct (Hl i ltac:(lia)) as [c Hc]. apply lookup_lt_Some in Hc as Hlt.
    unfold load_cell. rewrite Hc. simpl. rewrite write_cell_ok by done. simpl.
    destruct (IH (S i) (<[i := Some None]> l)) as (l' & -> & Hlen & H1 & H2); [|lia|lia|].
    + intros j Hj. destruct (decide (j = i)) as [->|]; [rewrite list_lookup_insert_eq by done; by eexists|].
      rewrite list_lookup_insert_ne by done. by apply Hl.
    + exists l'. rewrite length_insert in Hlen. split_and!; try done.
      * intros j Hj. destruct (decide (j = i)) as [->|]; [|apply H1; lia].
        rewrite H2 by lia. by rewrite list_lookup_insert_eq.
      * intros j Hj. rewrite H2 by lia. apply list_lookup_insert_ne. lia.
Qed.

Lemma free_block l n vars : holds_vars l n vars →
  ∃ l', free_cells (Z.to_nat n) 0 l = Ret l' ∧ holds_vars l' 0 [].
Proof.
  intros (-> & rest & El).
  destruct (free_cells_spec (length vars) l) with (i := 0%nat) as (l' & E & Hlen & H1 & H2); [|lia|].
  - intros i Hi. rewrite El, lookup_app_l by (by rewrite length_fmap). rewrite list_lookup_fmap.
    destruct (lookup_lt_is_Some_2 vars i Hi) as [s ->]. by eexists.
  - exists l'. unfold zlen. rewrite Nat2Z.id. replace (length vars) with (length vars - 0)%nat by lia.
    split; [done|]. split; [done|]. destruct l' as [|c l'].
    + rewrite El, length_app in Hlen. simpl in Hlen. lia.
    + exists l'. simpl. f_equal. assert ((c :: l') !! 0%nat = Some (Some None)) as [= ->]; [|done].
      destruct vars as [|s vars]; [|apply H1; simpl; lia].
      rewrite H2 by (simpl; lia). by rewrite El.
Qed.

Lemma clear_spec t p vars : env_at t p vars →
  ∃ t', clearEnvironment t (Z.of_nat p) = Ret t' ∧ env_at t' p [] ∧ frame t t' p.
Proof.
  intros (l & n & He & Hn & Hr). unfold clearEnvironment.
  rewrite (slot_ok _ _ _ He). simpl. rewrite (slot_ok _ _ _ Hn). simpl.
  destruct (free_block l n vars Hr) as (l' & -> & Hr'). simpl. rewrite Nat2Z.id.
  destruct (env_at_set t p l' 0 [] _ _ He Hn Hr') as (H1 & _ & H3 & _). eauto.
Qed.

(** ** Refinement: one finite map per process *)

Inductive pid_op : Set :=
  | PSet (name value : string) (overwrite : bool)
  | PUnset (name : string)
  | PPut (name value : string)
  | PClear.

Definition exec_pid_op (t : process_table) (p : nat) (op : pid_op) : outcome process_table :=
  match op with
  | PSet n v ow => (λ r, r.1.1) <$> ios_setenv_pid t (Some n) v ow (Z.of_nat p) true
  | PUnset n => (λ r, r.1.1) <$> ios_unsetenv_pid t (Some n) (Z.of_nat p) true
  | PPut n v => (λ r, r.1.1) <$> ios_putenv t (Z.of_nat p) (entry n v) true
  | PClear => clearEnvironment t (Z.of_nat p)
  end.
Fixpoint exec_pid_ops (t : process_table) (ops : list (nat * pid_op)) : outcome process_table :=
  match ops with
  | [] => Ret t
  | (p, op) :: ops => t' ← exec_pid_op t p op; exec_pid_ops t' ops
  end.

Definition pid_op_ok (op : pid_op) : Prop :=
  match op with
  | PSet n _ _ | PUnset n | PPut n _ => bad_name (Some n) = false
  | PClear => True
  end.
Definition spec_pid_op (op : pid_op) (m : gmap string string) : gmap string string :=
  match op with
  | PSet n v ow => spec_op (OpSet n v ow) m
  | PUnset n => delete n m
  | PPut n v => <[n := v]> m
  | PClear => ∅
  end.
Fixpoint spec_pid_ops (p : nat) (ops : list (nat * pid_op)) (m : gmap string string) : gmap string string :=
  match ops with
  | [] => m
  | (q, op) :: ops => spec_pid_ops p ops (if decide (q = p) then spec_pid_op op m else m)
  end.

Definition pid_rel (t : process_table) (p : nat) (m : gmap string string) : Prop :=
  ∃ vars, env_at t p vars ∧ NoDup (names vars) ∧ m = vars_map vars.

Lemma setenv_map_spec vars name value ow :
  has_eq name = false →
  vars_map (libc_setenv vars name value ow) = spec_op (OpSet name value ow) (vars_map vars).
Proof.
  intros Hn. rewrite setenv_map by done. simpl.
  destruct (vars_map vars !! name) eqn:E; simpl; [|done]. by destruct ow.
Qed.

Lemma exec_pid_op_sim t p op m :
  pid_rel t p m → pid_op_ok op →
  ∃ t', exec_pid_op t p op = Ret t' ∧ pid_rel t' p (spec_pid_op op m) ∧ frame t t' p.
Proof.
  intros (vars & He & Hnd & ->) Hok. destruct op as [name value ow|name|name value|]; cbn [exec_pid_op] in *.
  - destruct (setenv_pid_spec t p vars name value ow He Hok) as (t' & -> & He' & Hf). simpl.
    pose proof (proj1 (good_name _ Hok)) as Hn. eexists. split; [done|]. split; [|done].
    eexists. split; [done|]. split; [by apply nodup_setenv|]. by rewrite setenv_map_spec.
  - destruct (unsetenv_pid_spec t p vars name He Hok) as (t' & -> & He' & Hf). simpl.
    pose proof (proj1 (good_name _ Hok)) as Hn. eexists. split; [done|]. split; [|done].
    eexists. split; [done|]. split; [eapply sublist_NoDup; [done|]; apply names_remove|].
    by rewrite unsetenv_map.
  - pose proof (good_name _ Hok) as [Hn Hne].
    rewrite (putenv_setenv t p vars _ name value He) by (done || by apply split_entry).
    destruct (setenv_pid_spec t p vars name value true He Hok) as (t' & -> & He' & Hf). simpl.
    eexists. split; [done|]. split; [|done].
    eexists. split; [done|]. split; [by apply nodup_setenv|]. rewrite setenv_map_spec by done. simpl.
    by rewrite andb_false_r.
  - destruct (clear_spec t p vars He) as (t' & -> & He' & Hf). eexists. split; [done|]. split; [|done].
    exists []. split; [done|]. split; [apply NoDup_nil_2|done].
Qed.

Lemma block_strings_spec l n vars : holds_vars l n vars → block_strings l = Ret vars.
Proof.
  intros (_ & rest & ->). induction vars as [|s vars IH]; [done|].
  change ((Some ∘ Some <$> s :: vars) ++ Some None :: rest)
    with (Some (Some s) :: (Some ∘ Some <$> vars) ++ Some None :: rest).
  cbn [block_strings]. by rewrite IH.
Qed.

(** C31: any sequence of [ios_setenv_pid], [ios_unsetenv_pid], [ios_putenv] and
    [clearEnvironment] calls on processes with environments of their own is
    defined, keeps every array terminated, and refines one finite map per
    process: what [environmentVariables] returns for a process holds the
    variables as if only the calls for that process had been made. *)
Theorem pid_env_refinement (t : process_table) (ops : list (nat * pid_op)) (p : nat)
    (m : gmap string string) :
  pid_rel t p m → Forall (λ x, pid_op_ok x.2 ∧ ∃ m', pid_rel t x.1 m') ops →
  ∃ t' l vars, exec_pid_ops t ops = Ret t' ∧ environmentVariables t' (Z.of_nat p) = Ret l ∧
    block_strings l = Ret vars ∧ NoDup (names vars) ∧ vars_map vars = spec_pid_ops p ops m.
Proof.
  revert t m. induction ops as [|[q op] ops IH]; intros t m Hp Hops; simpl.
  - destruct Hp as (vars & (l & n & He & Hn & Hr) & Hnd & ->). exists t, l, vars.
    unfold environmentVariables. rewrite (slot_ok _ _ _ He). split_and!; try done.
    by eapply block_strings_spec.
  - apply Forall_cons_1 in Hops as [[Hok [mq Hq]] Hops]. simpl in *.
    destruct (exec_pid_op_sim t q op mq Hq Hok) as (t1 & -> & Hq1 & Hf). cbn [mbind outcome_bind].
    assert (∀ x mx, x ≠ q → pid_rel t x mx → pid_rel t1 x mx) as Hother.
    { intros x mx Hx (vars & He & Hr). exists vars. split; [by eapply frame_env_at|done]. }
    assert (Forall (λ x, pid_op_ok x.2 ∧ ∃ m', pid_rel t1 x.1 m') ops) as Hops1.
    { refine (list.Forall_impl _ _ _ Hops _). intros [x opx] [Hx [mx Hrx]]. split; [done|]. simpl in *.
      destruct (decide (x = q)) as [->|]; eauto. }
    destruct (decide (q = p)) as [->|Hne]; [|by apply IH; [apply Hother|]].
    apply IH; [|done]. assert (m = mq) as ->; [|done].
    destruct Hp as (v1 & (l1 & n1 & E1 & N1 & R1) & _ & ->), Hq as (v2 & (l2 & n2 & E2 & N2 & R2) & _ & ->).
    assert (Ret v1 = Ret v2) as [= ->]; [|done].
    rewrite <- (block_strings_spec _ _ _ R1), <- (block_strings_spec _ _ _ R2). congruence.
Qed.

(** A table with the shell (process 0), and two commands with environments. *)
Definition demo_table : process_table :=
  ProcessTable (5 :: 6 :: 7 :: replicate 125 0) (0 :: 2 :: 1 :: replicate 125 0)
    (None :: Some (new_block [entry "HOME" "/home"; entry "PATH" "/bin"]) ::
     Some (new_block [entry "HOME" "/home"]) :: replicate 125 None)
    (replicate 128 None) (replicate 128 EmptyString) (replicate 128 0) false 2
    [entry "HOME" "/"] "/home".

Lemma demo_env_1 : pid_rel demo_table 1 (vars_map [entry "HOME" "/home"; entry "PATH" "/bin"]).
Proof.
  exists [entry "HOME" "/home"; entry "PATH" "/bin"]. split; [|split; [|done]].
  - eexists _, _. split; [reflexivity|]. split; [reflexivity|]. split; [done|]. by exists [].
  - apply (bool_decide_unpack _). by vm_compute.
Qed.
Lemma demo_env_2 : pid_rel demo_table 2 (vars_map [entry "HOME" "/home"]).
Proof.
  exists [entry "HOME" "/home"]. split; [|split; [|done]].
  - eexists _, _. split; [reflexivity|]. split; [reflexivity|]. split; [done|]. by exists [].
  - apply (bool_decide_unpack _). by vm_compute.
Qed.

Definition demo_pid_ops : list (nat * pid_op) :=
  [(1%nat, PSet "PWD" "/tmp" true); (2%nat, PUnset "HOME"); (1%nat, PPut "PATH" "/usr/bin");
   (2%nat, PSet "A" "b" false); (1%nat, PUnset "HOME")].

Lemma pid_env_refinement_witness :
  ∃ t' l vars, exec_pid_ops demo_table demo_pid_ops = Ret t' ∧
    environmentVariables t' 1 = Ret l ∧ block_strings l = Ret vars ∧
    vars_map vars !! "PATH"%string = Some "/usr/bin"%string ∧ vars_map vars !! "HOME"%string = None ∧
    vars_map vars !! "A"%string = None.
Proof.
  destruct (pid_env_refinement demo_table demo_pid_ops 1 _ demo_env_1) as (t' & l & vars & H1 & H2 & H3 & _ & H5).
  - repeat apply Forall_cons_2; try (by apply Forall_nil_2);
      (split; [reflexivity|]; simpl; eexists; first [apply demo_env_1|apply demo_env_2]).
  - exists t', l, vars. rewrite H5. split_and!; try done; by vm_compute.
Defined.

(** ** The two environments of a command

    [getenv], [setenv] and [unsetenv] go to the environment manager of the
    thread, the other functions to the arrays above. *)

Definition libc_getenv (em : env_manager) (self : Z) (name : option string) : outcome (option string) :=
  ios_env_getenv em self name.
Definition ios_setenv (em : env_manager) (self : Z) (name value : option string) (overwrite realloc_ok : bool)
    : outcome (env_manager * Z * option errno) :=
  ios_env_setenv em self name value overwrite realloc_ok.
Definition ios_unsetenv (em : env_manager) (self : Z) (name : option string)
    : outcome (env_manager * Z * option errno) :=
  ios_env_unsetenv em self name.

(** A successful [ios_putenv] leaves what [getenv] reads unchanged: the
    process has an environment of its own, so the process-wide one, which
    [getenv] falls back to, is not touched either. *)
Theorem putenv_not_read (t : process_table) (em : env_manager) (self : Z) (p : nat)
    (vars : list string) (name value : string) :
  env_at t p vars → bad_name (Some name) = false → em_environ em = environ t →
  ∃ t', ios_putenv t (Z.of_nat p) (entry name value) true = Ret (t', 0, None) ∧
    env_at t' p (libc_setenv vars name value true) ∧
    ∀ n, libc_getenv (EnvManager.set_environ em (environ t')) self n = libc_getenv em self n.
Proof.
  intros He Hb Hem. pose proof (good_name _ Hb) as [Hn Hne].
  rewrite (putenv_setenv t p vars _ name value He) by (done || by apply split_entry).
  destruct (setenv_pid_spec t p vars name value true He Hb) as (t' & -> & He' & Hf).
  exists t'. split_and!; try done. intros n. destruct Hf as [_ _ _ (_ & Henv & _) _ _].
  rewrite Henv, <- Hem. by destruct em.
Qed.

(** The copy a child gets. *)
Lemma storeEnvironment_spec t p envp n vars n0 :
  environment t !! p = Some None → numVariablesSet t !! p = Some n0 → holds_vars envp n vars →
  ∃ t', storeEnvironment t (Z.of_nat p) envp = Ret t' ∧ env_at t' p vars ∧ frame t t' p.
Proof.
  intros He Hn Hr. unfold storeEnvironment, resetEnvironment. rewrite (slot_ok _ _ _ He). simpl.
  rewrite (block_strings_spec _ _ _ Hr). simpl. rewrite (slot_ok _ _ _ He). simpl. rewrite Nat2Z.id.
  assert (holds_vars (new_block vars) (zlen vars) vars) as Hnew by (split; [done|by exists []]).
  destruct (env_at_set t p (new_block vars) (zlen vars) vars _ _ He Hn Hnew) as (_ & H2 & _ & H4). eauto.
Qed.

(** The variables a process sees: its own, or the process-wide ones. *)
Definition visible_vars (t : process_table) (p : nat) (vars : list string) : Prop :=
  env_at t p vars ∨ (environment t !! p = Some None ∧ vars = environ t).

Lemma environmentVariables_spec t p vars : visible_vars t p vars →
  ∃ l n, environmentVariables t (Z.of_nat p) = Ret l ∧ holds_vars l n vars.
Proof.
  unfold environmentVariables. intros [(l & n & He & _ & Hr)|[He ->]]; rewrite (slot_ok _ _ _ He); simpl.
  - eauto.
  - eexists _, _. split; [done|]. split; [done|]. by exists [].
Qed.
