(* ===== verification/ProcessTable.v ===== *)
(** * The table of pretended processes ([src/libc_replacement.c])

    [ios_fork] hands out a number between 1 and 127, [ios_storeThreadId] ties
    it to the thread that runs the command, the release functions give it
    back.  All of them run under [pid_mtx].
    - The operations take and return [current_pid], which is local to a thread.
    - [proc_step] is the transition system of several threads: the search of
      [ios_nextAvailablePid] for a free number is one step per iteration, with
      the mutex held; the other operations are one step each.
    - [chdir_nolock] (Objective-C, on the file system) is a parameter: the new
      working directory from the old one and the path.
    - Theorems: a number handed out is free, within bounds, and the next free
      one in cyclic order; the child gets copies of its parent's variables;
      live commands have distinct numbers in every interleaving; release undoes
      fork; with all numbers taken the search never ends and, as it holds the
      mutex, no command can ever be released. *)

From S2P Require Import Prelude EnvManager ProcessEnv.

Local Open Scope Z_scope.

Definition ios_getThreadId (t : process_table) (pid : Z) : outcome Z :=
  if bool_decide (pid >= IOS_MAX_THREADS) then Ret (-1) else slot (thread_ids t) pid.

(** A free slot becomes the process [pid] of a child of [parent]. *)
Definition claim_pid (t : process_table) (pid parent : Z) (envp : block) : outcome process_table :=
  _ ← slot (thread_ids t) pid;
  _ ← slot (previousPid t) pid;
  let p := Z.to_nat pid in
  let t := set_environment (set_num (set_thread_id t p (-1)) p 0) p None in
  t ← storeEnvironment t pid envp;
  Ret (set_previous t p (cwd t) parent).

(** One iteration of the loop [while (1)]: the table, the number tried and
    whether it was claimed. *)
Definition search_step (t : process_table) (parent : Z) (envp : block) : outcome (process_table * Z * bool) :=
  let pid := last_allocated_pid t + 1 in
  let pid := if bool_decide (pid >= IOS_MAX_THREADS) then 1 else pid in
  let t := set_last t (pid_overflow t) pid in
  thread_pid ← ios_getThreadId t pid;
  if bool_decide (thread_pid = 0)
  then t ← claim_pid t pid parent envp; Ret (t, pid, true)
  else Ret (t, pid, false).

Fixpoint search (fuel : nat) (t : process_table) (parent : Z) (envp : block) : outcome (process_table * Z) :=
  match fuel with
  | O => Undef OutOfFuel
  | S fuel =>
      '(t, pid, found) ← search_step t parent envp;
      if found : bool then Ret (t, pid) else search fuel t parent envp
  end.

(** The number after the last one is tried first. *)
Definition next_is_free (t : process_table) : outcome bool :=
  if negb (pid_overflow t) && bool_decide (last_allocated_pid t < IOS_MAX_THREADS - 1)
  then x ← slot (thread_ids t) (last_allocated_pid t + 1); Ret (bool_decide (x = 0))
  else Ret false.

(** [fork], [vfork] and [ios_fork]: the number handed out is also the new
    [current_pid]. *)
Definition ios_nextAvailablePid (fuel : nat) (t : process_table) (current_pid : Z)
    : outcome (process_table * Z) :=
  envp ← environmentVariables t current_pid;
  free ← next_is_free t;
  if free : bool then
    let pid := last_allocated_pid t + 1 in
    t ← claim_pid (set_last t (pid_overflow t) pid) pid current_pid envp;
    Ret (t, pid)
  else search fuel (set_last t true (last_allocated_pid t)) current_pid envp.

Definition ios_storeThreadId (t : process_table) (current_pid thread : Z) : outcome (process_table * Z) :=
  x ← slot (thread_ids t) current_pid;
  if bool_decide (x = -1) then
    if bool_decide (thread = 0) then
      parent ← slot (previousPid t) current_pid;
      Ret (set_thread_id t (Z.to_nat current_pid) 0, parent)
    else Ret (set_thread_id t (Z.to_nat current_pid) thread, current_pid)
  else Ret (t, current_pid).

(** [for (p = 0; p < IOS_MAX_THREADS; p++) if (thread_ids[p] == thread)]. *)
Definition find_thread (t : process_table) (thread : Z) : option nat :=
  fst <$> list_find (λ x, x = thread) (thread_ids t).

Definition ios_releaseBackgroundThread (t : process_table) (current_pid thread : Z)
    : outcome (process_table * Z) :=
  match find_thread t thread with
  | None => Ret (t, current_pid)
  | Some p =>
      parent ← slot (previousPid t) (Z.of_nat p);
      Ret (set_thread_id t p 0, parent)
  end.

Section process.
Context (chdir_nolock : string → string → string).

Definition ios_releaseThread (t : process_table) (current_pid thread : Z) : outcome (process_table * Z) :=
  if bool_decide (thread = 0) then Ret (t, current_pid)
  else
    match find_thread t thread with
    | None => Ret (t, current_pid)
    | Some p =>
        parent ← slot (previousPid t) (Z.of_nat p);
        dir ← slot (previousDirectory t) (Z.of_nat p);
        Ret (set_cwd (set_thread_id t p 0) (chdir_nolock (cwd t) dir), parent)
    end.

Definition ios_releaseThreadId (t : process_table) (current_pid pid : Z) : outcome (process_table * Z) :=
  x ← slot (thread_ids t) pid;
  if bool_decide (x ≠ 0) then
    dir ← slot (previousDirectory t) pid;
    parent ← slot (previousPid t) pid;
    Ret (set_thread_id (set_cwd t (chdir_nolock (cwd t) dir)) (Z.to_nat pid) 0, parent)
  else Ret (t, current_pid).

Definition newPreviousDirectory (t : process_table) (current_pid : Z) : outcome process_table :=
  parent ← slot (previousPid t) current_pid;
  Ret (set_previous t (Z.to_nat current_pid) (cwd t) parent).

(** *** Waiting *)

(** The thread a wait looks at; [last_thread] is [ios_getLastThreadId()]. *)
Definition wait_target (t : process_table) (pid last_thread : Z) : outcome Z :=
  if bool_decide (pid = -1) || bool_decide (pid = 0) then Ret last_thread else ios_getThreadId t pid.

Definition WNOHANG : Z := 1.

(** One look of [waitpid] at the table: [Some r] returns [r], [None] keeps
    waiting. *)
Definition waitpid_poll (t : process_table) (pid last_thread options : Z) : outcome (option Z) :=
  x ← wait_target t pid last_thread;
  if bool_decide (options ≠ 0) && bool_decide (WNOHANG ≠ 0) then
    Ret (Some (if bool_decide (x ≠ 0) then 0 else pid))
  else Ret (if bool_decide (x ≠ 0) then None else Some pid).

End process.

(** ** The numbers in cyclic order *)

(** The [k]-th number after [last]. *)
Definition cyc (last : Z) (k : nat) : Z := (last - 1 + Z.of_nat k) `mod` 127 + 1.

Lemma cyc_range last k : 1 ≤ cyc last k ≤ 127.
Proof. unfold cyc. pose proof (Z.mod_pos_bound (last - 1 + Z.of_nat k) 127). lia. Qed.

Lemma cyc_succ last k : 0 ≤ last ≤ 127 → cyc (cyc last k) 1 = cyc last (S k).
Proof.
  intros _. unfold cyc. f_equal.
  replace ((last - 1 + Z.of_nat k) `mod` 127 + 1 - 1 + Z.of_nat 1)
    with ((last - 1 + Z.of_nat k) `mod` 127 + 1) by lia.
  rewrite Zplus_mod_idemp_l. f_equal. lia.
Qed.

Lemma cyc_shift last j k : cyc (cyc last j) k = cyc last (j + k).
Proof.
  unfold cyc. f_equal.
  replace ((last - 1 + Z.of_nat j) `mod` 127 + 1 - 1 + Z.of_nat k)
    with ((last - 1 + Z.of_nat j) `mod` 127 + Z.of_nat k) by lia.
  rewrite Zplus_mod_idemp_l. f_equal. lia.
Qed.

Lemma cyc_1 last : 0 ≤ last ≤ 127 → cyc last 1 = if bool_decide (last + 1 >= IOS_MAX_THREADS) then 1 else last + 1.
Proof.
  intros Hl. unfold cyc, IOS_MAX_THREADS. case_bool_decide.
  - assert (last = 127) as -> by lia. done.
  - rewrite Z.mod_small; lia.
Qed.

Lemma cyc_onto last q : 0 ≤ last ≤ 127 → 1 ≤ q ≤ 127 → ∃ k, (1 ≤ k ≤ 127)%nat ∧ cyc last k = q.
Proof.
  intros Hl Hq. destruct (decide (last < q)) as [Hlt|Hge].
  - exists (Z.to_nat (q - last)). split; [lia|]. unfold cyc. rewrite Z.mod_small; lia.
  - exists (Z.to_nat (q - last + 127)). split; [lia|]. unfold cyc.
    rewrite <- (Z.mod_unique _ _ 1 (q - 1)); lia.
Qed.

(** ** Allocation *)

Record table_wf (t : process_table) : Prop := {
  wf_threads : length (thread_ids t) = 128%nat;
  wf_num : length (numVariablesSet t) = 128%nat;
  wf_env : length (environment t) = 128%nat;
  wf_copy : length (copyEnvironment t) = 128%nat;
  wf_dir : length (previousDirectory t) = 128%nat;
  wf_prev : length (previousPid t) = 128%nat;
  wf_last : 0 ≤ last_allocated_pid t ≤ 127 }.

Definition pid_free (t : process_table) (pid : Z) : Prop := thread_ids t !! Z.to_nat pid = Some 0.
Global Instance pid_free_dec t pid : Decision (pid_free t pid).
Proof. unfold pid_free. apply _. Defined.

Lemma slot_range {A} (l : list A) (i : Z) : length l = 128%nat → 0 ≤ i ≤ 127 →
  ∃ x, l !! Z.to_nat i = Some x ∧ slot l i = Ret x.
Proof.
  intros Hl Hi. destruct (lookup_lt_is_Some_2 l (Z.to_nat i)) as [x Hx]; [lia|].
  exists x. split; [done|]. rewrite <- (Z2Nat.id i) by lia. by apply slot_ok.
Qed.

Lemma wf_set_last t o last : table_wf t → 0 ≤ last ≤ 127 → table_wf (set_last t o last).
Proof. intros [] ?. by split. Qed.

(** What a claim makes of the table. *)
Record claimed (t t' : process_table) (pid parent : Z) (vars : list string) : Prop := {
  cl_wf : table_wf t';
  cl_threads : thread_ids t' = <[Z.to_nat pid := -1]> (thread_ids t);
  cl_env : env_at t' (Z.to_nat pid) vars;
  cl_parent : previousPid t' = <[Z.to_nat pid := parent]> (previousPid t);
  cl_dir : previousDirectory t' = <[Z.to_nat pid := cwd t]> (previousDirectory t);
  cl_last : last_allocated_pid t' = last_allocated_pid t ∧ pid_overflow t' = pid_overflow t;
  cl_global : cwd t' = cwd t ∧ environ t' = environ t ∧ copyEnvironment t' = copyEnvironment t;
  cl_other q : q ≠ Z.to_nat pid → environment t' !! q = environment t !! q ∧
               numVariablesSet t' !! q = numVariablesSet t !! q }.

Lemma claim_spec t pid parent envp n vars :
  table_wf t → 1 ≤ pid ≤ 127 → holds_vars envp n vars →
  ∃ t', claim_pid t pid parent envp = Ret t' ∧ claimed t t' pid parent vars.
Proof.
  intros Hw Hp Hr. pose proof Hw as [W1 W2 W3 W4 W5 W6 W7]. unfold claim_pid.
  destruct (slot_range (thread_ids t) pid W1 ltac:(lia)) as (x & _ & ->). simpl.
  destruct (slot_range (previousPid t) pid W6 ltac:(lia)) as (y & _ & ->). simpl.
  set (p := Z.to_nat pid). set (t1 := set_environment _ p None).
  assert (p < 128)%nat as Hlt by lia.
  destruct (storeEnvironment_spec t1 p envp n vars 0) as (t2 & E & Henv & [F1 [F2 F2'] [F3 F3'] (F4 & F5 & F6) [F7 F8] F9]).
  - simpl. apply list_lookup_insert_eq. lia.
  - simpl. apply list_lookup_insert_eq. lia.
  - done.
  - replace pid with (Z.of_nat p) by lia. rewrite E. simpl. eexists. split; [done|].
    simpl in *. rewrite !length_insert in *.
    split; simpl; rewrite ?F1, ?F2, ?F2', ?F3, ?F3', ?F4, ?F5, ?F6; try done;
      rewrite ?Nat2Z.id; try done.
    + split; simpl; rewrite ?F1, ?F2, ?F2', ?F3', ?F6; rewrite ?length_insert; try done; congruence.
    + intros q Hq. destruct (F9 q Hq) as [-> ->]. by rewrite !list_lookup_insert_ne.
Qed.

Lemma claimed_set_last t t' o last pid parent vars :
  claimed (set_last t o last) t' pid parent vars →
  table_wf t' ∧ thread_ids t' = <[Z.to_nat pid := -1]> (thread_ids t) ∧ env_at t' (Z.to_nat pid) vars ∧
  previousPid t' = <[Z.to_nat pid := parent]> (previousPid t) ∧
  previousDirectory t' = <[Z.to_nat pid := cwd t]> (previousDirectory t) ∧
  last_allocated_pid t' = last ∧ cwd t' = cwd t ∧ environ t' = environ t ∧
  copyEnvironment t' = copyEnvironment t ∧
  (∀ q, q ≠ Z.to_nat pid → environment t' !! q = environment t !! q ∧
               numVariablesSet t' !! q = numVariablesSet t !! q).
Proof. intros [? ? ? ? ? [? ?] (? & ? & ?) ?]. by split_and!. Qed.

(** The search stops at the first free number in cyclic order. *)
Lemma search_spec k : ∀ fuel t parent envp n vars,
  table_wf t → holds_vars envp n vars → (k < fuel)%nat →
  pid_free t (cyc (last_allocated_pid t) (S k)) →
  (∀ j, (1 ≤ j ≤ k)%nat → ¬ pid_free t (cyc (last_allocated_pid t) j)) →
  ∃ t' pid, search fuel t parent envp = Ret (t', pid) ∧ pid = cyc (last_allocated_pid t) (S k) ∧
    claimed (set_last t (pid_overflow t) pid) t' pid parent vars.
Proof.
  induction k as [|k IH]; intros [|fuel] t parent envp n vars Hw Hr Hf Hfree Hbusy; try lia; simpl;
    unfold search_step; cbv zeta; rewrite <- cyc_1 by apply Hw;
    pose proof (cyc_range (last_allocated_pid t) 1) as Hrange; unfold ios_getThreadId;
    rewrite bool_decide_eq_false_2 by (unfold IOS_MAX_THREADS; lia);
    set (pid := cyc (last_allocated_pid t) 1) in *;
    (assert (table_wf (set_last t (pid_overflow t) pid)) as Hw1 by (apply wf_set_last; [done|lia]));
    destruct (slot_range (thread_ids t) pid (wf_threads _ Hw) ltac:(lia)) as (x & Hx & Es); simpl; rewrite Es; simpl.
  - unfold pid_free in Hfree. rewrite Hx in Hfree. injection Hfree as ->. simpl.
    destruct (claim_spec _ pid parent envp n vars Hw1 Hrange Hr) as (t' & -> & Hc). simpl.
    by eexists _, _.
  - rewrite bool_decide_eq_false_2.
    2: { intros ->. by apply (Hbusy 1%nat ltac:(lia)). }
    simpl. destruct (IH fuel (set_last t (pid_overflow t) pid) parent envp n vars Hw1 Hr) as (t' & p & E & Hp & Hc);
      [lia|..].
    + unfold pid_free in *. simpl. unfold pid. rewrite cyc_shift. done.
    + intros j Hj. unfold pid_free in *. simpl. unfold pid. rewrite cyc_shift. apply Hbusy. lia.
    + exists t', p. split; [done|]. simpl in Hp. unfold pid in Hp. rewrite cyc_shift in Hp.
      split; [done|]. done.
Qed.

(** The first free number after [last], if there is one. *)
Lemma first_free t : table_wf t → (∃ q, 1 ≤ q ≤ 127 ∧ pid_free t q) →
  ∃ k, (k < 127)%nat ∧ pid_free t (cyc (last_allocated_pid t) (S k)) ∧
    ∀ j, (1 ≤ j ≤ k)%nat → ¬ pid_free t (cyc (last_allocated_pid t) j).
Proof.
  intros Hw (q & Hq & Hfree). destruct (cyc_onto _ q (wf_last _ Hw) Hq) as (k & Hk & <-).
  assert (∃ k0, (k0 < k)%nat ∧ pid_free t (cyc (last_allocated_pid t) (S k0))) as Hex.
  { exists (k - 1)%nat. replace (S (k - 1)) with k by lia. split; [lia|done]. }
  clear Hfree. destruct Hex as (k0 & Hk0 & Hf). revert Hf.
  induction k0 as [k0 IH] using lt_wf_ind. intros Hf.
  destruct (decide (Exists (λ j, pid_free t (cyc (last_allocated_pid t) j)) (seq 1 k0))) as [Hin|Hno].
  - apply list.Exists_exists in Hin as (j & Hj & Hfj). apply elem_of_seq in Hj.
    apply (IH (j - 1)%nat); [lia|lia|]. by replace (S (j - 1)) with j by lia.
  - exists k0. split; [lia|]. split; [done|]. intros j Hj Hfj. apply Hno, list.Exists_exists.
    exists j. split; [apply elem_of_seq; lia|done].
Qed.

Local Arguments search : simpl never.

Lemma next_is_free_spec t : table_wf t →
  ∃ b, next_is_free t = Ret b ∧
    (b = true → pid_free t (cyc (last_allocated_pid t) 1) ∧
                cyc (last_allocated_pid t) 1 = last_allocated_pid t + 1).
Proof.
  intros Hw. unfold next_is_free. destruct (negb (pid_overflow t) && _) eqn:E; [|by eexists].
  apply andb_true_iff in E as [_ E%bool_decide_eq_true]. unfold IOS_MAX_THREADS in E.
  destruct (slot_range (thread_ids t) (last_allocated_pid t + 1) (wf_threads _ Hw)) as (x & Hx & ->);
    [pose proof (wf_last _ Hw); lia|]. simpl. eexists. split; [done|]. intros Hb%bool_decide_eq_true. subst x.
  rewrite cyc_1 by apply Hw. rewrite bool_decide_eq_false_2 by (unfold IOS_MAX_THREADS; lia). done.
Qed.

Lemma fork_ok (t : process_table) (current_pid : Z) (vars : list string) :
  table_wf t → 0 ≤ current_pid ≤ 127 → visible_vars t (Z.to_nat current_pid) vars →
  (∃ q, 1 ≤ q ≤ 127 ∧ pid_free t q) →
  ∃ t' pid k, ios_nextAvailablePid 127 t current_pid = Ret (t', pid) ∧
    1 ≤ pid ≤ 127 ∧ pid_free t pid ∧ pid = cyc (last_allocated_pid t) (S k) ∧
    (∀ j, (1 ≤ j ≤ k)%nat → ¬ pid_free t (cyc (last_allocated_pid t) j)) ∧
    table_wf t' ∧ thread_ids t' = <[Z.to_nat pid := -1]> (thread_ids t) ∧
    env_at t' (Z.to_nat pid) vars ∧
    previousPid t' = <[Z.to_nat pid := current_pid]> (previousPid t) ∧
    previousDirectory t' = <[Z.to_nat pid := cwd t]> (previousDirectory t) ∧
    last_allocated_pid t' = pid ∧ cwd t' = cwd t ∧ environ t' = environ t ∧
    copyEnvironment t' = copyEnvironment t ∧
    (∀ q, q ≠ Z.to_nat pid → environment t' !! q = environment t !! q ∧
                             numVariablesSet t' !! q = numVariablesSet t !! q).
Proof.
  intros Hw Hc Hvis Hex. unfold ios_nextAvailablePid.
  destruct (environmentVariables_spec t _ vars Hvis) as (envp & n & Ee & Hr).
  rewrite Z2Nat.id in Ee by lia. rewrite Ee. simpl.
  destruct (next_is_free_spec t Hw) as (b & -> & Hb).
  simpl. destruct b.
  - destruct (Hb eq_refl) as [Hfree E]. pose proof (cyc_range (last_allocated_pid t) 1) as Hrange.
    rewrite <- E. set (pid := cyc (last_allocated_pid t) 1) in *.
    destruct (claim_spec (set_last t (pid_overflow t) pid) pid current_pid envp n vars) as (t' & -> & Hcl);
      [apply wf_set_last; [done|lia]|done|done|]. simpl.
    apply claimed_set_last in Hcl. exists t', pid, 0%nat. destruct_and! Hcl. split_and!; try (done || lia).
  - destruct (first_free t Hw Hex) as (k & Hk & Hfree & Hbusy).
    destruct (search_spec k 127 (set_last t true (last_allocated_pid t)) current_pid envp n vars)
      as (t' & pid & -> & Hpid & Hcl); try done; [apply wf_set_last; [done|apply Hw]|].
    simpl in Hpid. apply (claimed_set_last (set_last t true (last_allocated_pid t))) in Hcl. simpl in Hcl.
    exists t', pid, k. pose proof (cyc_range (last_allocated_pid t) (S k)). rewrite Hpid in *.
    destruct_and! Hcl. split_and!; done || lia.
Qed.

(** with a free number left, [ios_fork] returns within one look at each
    number: the first free one in cyclic order after the last one handed out,
    so numbers are not reused too quickly.  The child gets its parent's
    variables in memory of its own, remembers the parent and the working
    directory; the other processes are untouched. *)
Theorem fork_spec (t : process_table) (current_pid : Z) (vars : list string) :
  table_wf t → 0 ≤ current_pid ≤ 127 → visible_vars t (Z.to_nat current_pid) vars →
  (∃ q, 1 ≤ q ≤ 127 ∧ pid_free t q) →
  ∃ t' pid k, ios_nextAvailablePid 127 t current_pid = Ret (t', pid) ∧
    1 ≤ pid ≤ 127 ∧ pid_free t pid ∧ pid = cyc (last_allocated_pid t) (S k) ∧
    (∀ j, (1 ≤ j ≤ k)%nat → ¬ pid_free t (cyc (last_allocated_pid t) j)) ∧
    table_wf t' ∧ thread_ids t' = <[Z.to_nat pid := -1]> (thread_ids t) ∧
    env_at t' (Z.to_nat pid) vars ∧
    previousPid t' = <[Z.to_nat pid := current_pid]> (previousPid t) ∧
    previousDirectory t' = <[Z.to_nat pid := cwd t]> (previousDirectory t) ∧
    last_allocated_pid t' = pid ∧ cwd t' = cwd t ∧ environ t' = environ t ∧
    copyEnvironment t' = copyEnvironment t ∧
    (∀ q, q ≠ Z.to_nat pid → environment t' !! q = environment t !! q ∧
                             numVariablesSet t' !! q = numVariablesSet t !! q).
Proof. apply fork_ok. Qed.

Lemma fork_spec_witness :
  ∃ t' k, ios_nextAvailablePid 127 demo_table 1 = Ret (t', cyc 2 (S k)) ∧
    env_at t' (Z.to_nat (cyc 2 (S k))) [entry "HOME" "/home"; entry "PATH" "/bin"].
Proof.
  destruct (fork_spec demo_table 1 [entry "HOME" "/home"; entry "PATH" "/bin"])
    as (t' & pid & k & H1 & _ & _ & -> & _ & _ & _ & H2 & _).
  - split; vm_compute; try reflexivity. split; discriminate.
  - lia.
  - left. eexists _, _. split; [reflexivity|]. split; [reflexivity|]. split; [reflexivity|]. by exists [].
  - exists 3. split; [lia|reflexivity].
  - exists t', k. split; [exact H1|exact H2].
Defined.

(** ** Several threads *)

Inductive proc_thread : Type :=
  | PIdle
  | PSearching (parent : Z) (envp : block).   (* in the loop, with [pid_mtx] *)

Record procs := Procs {
  pr_table : process_table;
  pr_lock : option nat;                       (* the owner of [pid_mtx] *)
  pr_threads : list (proc_thread * Z);        (* with [current_pid] *)
  pr_live : list Z }.                         (* numbers handed out and not released *)

Inductive proc_event : Type :=
  | EvFork (i : nat)                (* [ios_fork] up to the loop *)
  | EvSearch (i : nat)              (* one iteration of the loop *)
  | EvStore (i : nat) (thread : Z)
  | EvRelease (i : nat) (thread : Z)
  | EvReleaseBackground (i : nat) (thread : Z)
  | EvReleaseId (i : nat) (pid : Z)
  | EvSetCurrent (i : nat) (pid : Z).   (* [ios_setCurrentPid] *)

(** The numbers whose slot an operation cleared are no longer live. *)
Definition still_live (t : process_table) (live : list Z) : list Z :=
  filter (λ p, thread_ids t !! Z.to_nat p ≠ Some 0) live.

Section system.
Context (chdir_nolock : string → string → string).

Definition proc_exec (ev : proc_event) (s : procs) : outcome (option procs) :=
  let t := pr_table s in
  let idle i k :=
    match pr_threads s !! i, pr_lock s with
    | Some (PIdle, cur), None => k cur
    | _, _ => Ret None
    end in
  (* the thread releases the mutex with a new table and [current_pid] *)
  let done i (r : process_table * Z) :=
    Ret (Some (Procs r.1 None (<[i := (PIdle, r.2)]> (pr_threads s)) (still_live r.1 (pr_live s)))) in
  let claimed i (r : process_table * Z) :=
    Ret (Some (Procs r.1 None (<[i := (PIdle, r.2)]> (pr_threads s)) (r.2 :: pr_live s))) in
  match ev with
  | EvFork i => idle i (λ cur,
      envp ← environmentVariables t cur;
      free ← next_is_free t;
      if free : bool then
        let pid := last_allocated_pid t + 1 in
        t ← claim_pid (set_last t (pid_overflow t) pid) pid cur envp;
        claimed i (t, pid)
      else Ret (Some (Procs (set_last t true (last_allocated_pid t)) (Some i)
                        (<[i := (PSearching cur envp, cur)]> (pr_threads s)) (pr_live s))))
  | EvSearch i =>
      match pr_threads s !! i with
      | Some (PSearching parent envp, cur) =>
          '(t, pid, found) ← search_step t parent envp;
          if found : bool then claimed i (t, pid)
          else Ret (Some (Procs t (pr_lock s) (<[i := (PSearching parent envp, pid)]> (pr_threads s))
                            (pr_live s)))
      | _ => Ret None
      end
  | EvStore i thread => idle i (λ cur,
      if bool_decide (thread = -1) then Ret None
      else r ← ios_storeThreadId t cur thread; done i r)
  | EvRelease i thread => idle i (λ cur,
      r ← ios_releaseThread chdir_nolock t cur thread; done i r)
  | EvReleaseBackground i thread => idle i (λ cur,
      r ← ios_releaseBackgroundThread t cur thread; done i r)
  | EvReleaseId i pid => idle i (λ cur,
      if bool_decide (0 ≤ pid ≤ 127)
      then r ← ios_releaseThreadId chdir_nolock t cur pid; done i r else Ret None)
  | EvSetCurrent i pid =>
      match pr_threads s !! i with
      | Some (PIdle, _) =>
          if bool_decide (0 ≤ pid ≤ 127)
          then Ret (Some (Procs t (pr_lock s) (<[i := (PIdle, pid)]> (pr_threads s)) (pr_live s)))
          else Ret None
      | _ => Ret None
      end
  end.

Definition proc_step (ev : proc_event) (s : procs) : option procs :=
  match proc_exec ev s with Ret o => o | Undef _ => None end.

End system.

(** The table when the application starts. *)
Definition start_table (vars : list string) (dir : string) : process_table :=
  ProcessTable (replicate 128 0) (replicate 128 0) (replicate 128 None) (replicate 128 None)
    (replicate 128 EmptyString) (replicate 128 0) false 0 vars dir.
Definition procs_start (vars : list string) (dir : string) (threads : nat) : procs :=
  Procs (start_table vars dir) None (replicate threads (PIdle, 0)) [].

Record procs_inv (s : procs) : Prop := {
  pi_wf : table_wf (pr_table s);
  pi_vars p : (p < 128)%nat → ∃ vars, visible_vars (pr_table s) p vars;
  pi_prev p x : previousPid (pr_table s) !! p = Some x → 0 ≤ x ≤ 127;
  pi_cur i th cur : pr_threads s !! i = Some (th, cur) → 0 ≤ cur ≤ 127;
  pi_lock i parent envp cur : pr_threads s !! i = Some (PSearching parent envp, cur) →
    pr_lock s = Some i ∧ 0 ≤ parent ≤ 127 ∧ ∃ n vars, holds_vars envp n vars;
  pi_nodup : NoDup (pr_live s);
  pi_live p : p ∈ pr_live s ↔ 1 ≤ p ≤ 127 ∧ ¬ pid_free (pr_table s) p;
  pi_zero : thread_ids (pr_table s) !! 0%nat = Some 0 }.

Local Arguments replicate : simpl never.

Lemma procs_start_inv vars dir n : procs_inv (procs_start vars dir n).
Proof.
  assert (∀ p, 1 ≤ p ≤ 127 → pid_free (start_table vars dir) p) as Hfree.
  { intros p Hp. unfold pid_free. simpl. apply lookup_replicate_2. lia. }
  split; simpl.
  - split; simpl; rewrite ?length_replicate; try done; lia.
  - intros p Hp. exists vars. right. simpl. split; [apply lookup_replicate_2; lia|done].
  - intros p x Hx. apply lookup_replicate_1 in Hx as [-> _]. lia.
  - intros i th cur Hi. apply lookup_replicate_1 in Hi as [[= -> ->] _]. lia.
  - intros i parent envp cur Hi. by apply lookup_replicate_1 in Hi as [[= ] _].
  - apply NoDup_nil_2.
  - intros p. split; [by intros ?%not_elem_of_nil|]. intros [Hp Hn]. exfalso. by apply Hn, Hfree.
  - done.
Qed.

(** An operation that changes slots, the working directory and [current_pid]
    of a thread, and takes no slot. *)
Lemma done_inv s i t' cur' :
  procs_inv s → pr_lock s = None → 0 ≤ cur' ≤ 127 →
  numVariablesSet t' = numVariablesSet (pr_table s) → environment t' = environment (pr_table s) →
  copyEnvironment t' = copyEnvironment (pr_table s) →
  previousDirectory t' = previousDirectory (pr_table s) → previousPid t' = previousPid (pr_table s) →
  last_allocated_pid t' = last_allocated_pid (pr_table s) → environ t' = environ (pr_table s) →
  length (thread_ids t') = length (thread_ids (pr_table s)) →
  (∀ p, pid_free (pr_table s) p → pid_free t' p) →
  procs_inv (Procs t' None (<[i := (PIdle, cur')]> (pr_threads s)) (still_live t' (pr_live s))).
Proof.
  intros [Hw Hv Hp Hc Hl Hnd Hlive Hz] Hlock Hcur E1 E2 E3 E4 E5 E6 E7 E8 Hfree. split; simpl.
  - destruct Hw. split; congruence || lia.
  - intros p Hlt. destruct (Hv p Hlt) as (vars & [He|He]); exists vars; unfold visible_vars, env_at in *;
      rewrite E2, ?E1, ?E7; auto.
  - intros p x. rewrite E5. apply Hp.
  - intros j th cur Hj. apply list_lookup_insert_Some in Hj as [(_ & [= <- <-] & _)|(_ & Hj)]; [done|eauto].
  - intros j parent envp cur Hj. apply list_lookup_insert_Some in Hj as [(_ & [=] & _)|(_ & Hj)].
    destruct (Hl _ _ _ _ Hj) as (? & _). congruence.
  - by apply list.NoDup_filter.
  - intros p. unfold still_live. rewrite list_elem_of_filter, Hlive. unfold pid_free. split.
    + by intros (? & ? & _).
    + intros (Hr & Hn). split_and!; try done; try lia. intros Hf. by apply Hn, Hfree.
  - specialize (Hfree 0 Hz). done.
Qed.

(** A slot is taken. *)
Lemma claimed_inv s i t' pid parent vars o :
  procs_inv s → (∀ j th cur, pr_threads s !! j = Some (th, cur) → j ≠ i → th = PIdle) →
  1 ≤ pid ≤ 127 → pid_free (pr_table s) pid → 0 ≤ parent ≤ 127 →
  claimed (set_last (pr_table s) o pid) t' pid parent vars →
  procs_inv (Procs t' None (<[i := (PIdle, pid)]> (pr_threads s)) (pid :: pr_live s)).
Proof.
  intros [Hw Hv Hp Hc Hl Hnd Hlive Hz] Hidle Hpid Hfree Hparent Hcl.
  apply claimed_set_last in Hcl as (C1 & C2 & C3 & C4 & C5 & C6 & C7 & C8 & C9 & C10). split; simpl.
  - done.
  - intros p Hlt. destruct (decide (p = Z.to_nat pid)) as [->|Hne]; [exists vars; by left|].
    destruct (C10 p Hne) as [E1 E2]. destruct (Hv p Hlt) as (vs & [He|He]); exists vs;
      unfold visible_vars, env_at in *; rewrite E1, ?E2, ?C8; auto.
  - intros p x. rewrite C4. intros [(_ & <- & _)|(_ & Hx)]%list_lookup_insert_Some; [done|eauto].
  - intros j th cur Hj. apply list_lookup_insert_Some in Hj as [(_ & [= <- <-] & _)|(_ & Hj)]; [lia|eauto].
  - intros j pa envp cur Hj. apply list_lookup_insert_Some in Hj as [(_ & [=] & _)|(Hji & Hj)].
    by specialize (Hidle _ _ _ Hj (not_eq_sym Hji)).
  - apply list.NoDup_cons. split; [|done]. rewrite Hlive. by intros [_ ?].
  - intros p. rewrite elem_of_cons, Hlive. unfold pid_free in *. rewrite C2. split.
    + intros [->|[Hr Hn]]; (split; [lia|]).
      * rewrite list_lookup_insert_eq by (rewrite (wf_threads _ Hw); lia). done.
      * intros [(_ & ? & _)|(_ & ?)]%list_lookup_insert_Some; done.
    + intros [Hr Hn]. destruct (decide (p = pid)) as [->|Hne]; [by left|]. right. split; [done|].
      by rewrite list_lookup_insert_ne in Hn by lia.
  - rewrite C2, list_lookup_insert_ne by lia. done.
Qed.

(** What the operations on slots do. *)
Definition only_slots (t t' : process_table) : Prop :=
  numVariablesSet t' = numVariablesSet t ∧ environment t' = environment t ∧
  copyEnvironment t' = copyEnvironment t ∧ previousDirectory t' = previousDirectory t ∧
  previousPid t' = previousPid t ∧ last_allocated_pid t' = last_allocated_pid t ∧
  environ t' = environ t ∧ length (thread_ids t') = length (thread_ids t).

Lemma free_insert t p x q :
  (p < 128)%nat → length (thread_ids t) = 128%nat → (x = 0 ∨ thread_ids t !! p ≠ Some 0) →
  pid_free t q → pid_free (set_thread_id t p x) q.
Proof.
  unfold pid_free. simpl. intros Hp Hlen Hor Hq. destruct (decide (Z.to_nat q = p)) as [<-|Hne].
  - destruct Hor as [->|]; [|done]. by apply list_lookup_insert_eq; lia.
  - by rewrite list_lookup_insert_ne.
Qed.

Lemma find_thread_lt t thread p : find_thread t thread = Some p → (p < length (thread_ids t))%nat.
Proof.
  unfold find_thread. destruct (list_find _ _) as [[q x]|] eqn:E; [|done]. intros [= <-].
  apply list_find_Some in E as (Hx & _). by eapply lookup_lt_Some.
Qed.

Section preservation.
Context (chdir_nolock : string → string → string).

(** Each slot operation is defined and takes no slot. *)
Definition slot_op (t : process_table) (r : outcome (process_table * Z)) : Prop :=
  ∃ t' cur', r = Ret (t', cur') ∧ 0 ≤ cur' ≤ 127 ∧ only_slots t t' ∧ ∀ p, pid_free t p → pid_free t' p.

Context (t : process_table) (Hw : table_wf t)
  (Hp : ∀ p x, previousPid t !! p = Some x → 0 ≤ x ≤ 127) (cur : Z) (Hcur : 0 ≤ cur ≤ 127).

Lemma only_slots_refl : only_slots t t.
Proof. by repeat split. Qed.

Lemma store_op thread : thread ≠ -1 → slot_op t (ios_storeThreadId t cur thread).
Proof.
  intros Hne. unfold ios_storeThreadId.
  destruct (slot_range _ _ (wf_threads _ Hw) Hcur) as (x & Hx & ->). simpl.
  case_bool_decide as Hx1; [|exists t, cur; split_and!; try done; lia]. subst x.
  destruct (slot_range _ _ (wf_prev _ Hw) Hcur) as (y & Hy & Ey).
  case_bool_decide as H0; [rewrite Ey; simpl|]; eexists _, _; (split; [done|]).
  - split; [by eapply Hp|]. split; [repeat split; simpl; by rewrite length_insert|].
    intros p. apply free_insert; [lia|apply Hw|by left].
  - split; [done|]. split; [repeat split; simpl; by rewrite length_insert|].
    intros p. apply free_insert; [lia|apply Hw|by right; rewrite Hx].
Qed.

Lemma release_background_op thread : slot_op t (ios_releaseBackgroundThread t cur thread).
Proof.
  unfold ios_releaseBackgroundThread. destruct (find_thread t thread) as [p|] eqn:E.
  2: { exists t, cur. split_and!; try done; lia. }
  apply find_thread_lt in E. rewrite (wf_threads _ Hw) in E.
  destruct (slot_range _ (Z.of_nat p) (wf_prev _ Hw) ltac:(lia)) as (y & Hy & ->). simpl.
  eexists _, _. split; [done|]. split; [by eapply Hp|]. split; [repeat split; simpl; by rewrite length_insert|].
  intros q. apply free_insert; [lia|apply Hw|by left].
Qed.

Lemma release_op thread : slot_op t (ios_releaseThread chdir_nolock t cur thread).
Proof.
  unfold ios_releaseThread. case_bool_decide; [exists t, cur; split_and!; try done; lia|].
  destruct (find_thread t thread) as [p|] eqn:E.
  2: { exists t, cur. split_and!; try done; lia. }
  apply find_thread_lt in E. rewrite (wf_threads _ Hw) in E.
  destruct (slot_range _ (Z.of_nat p) (wf_prev _ Hw) ltac:(lia)) as (y & Hy & ->). simpl.
  destruct (slot_range _ (Z.of_nat p) (wf_dir _ Hw) ltac:(lia)) as (d & _ & ->). simpl.
  eexists _, _. split; [done|]. split; [by eapply Hp|]. split; [repeat split; simpl; by rewrite length_insert|].
  intros q Hq. pose proof (free_insert t p 0 q ltac:(lia) (wf_threads _ Hw) ltac:(by left) Hq). done.
Qed.

Lemma release_id_op pid : 0 ≤ pid ≤ 127 → slot_op t (ios_releaseThreadId chdir_nolock t cur pid).
Proof.
  intros Hpid. unfold ios_releaseThreadId.
  destruct (slot_range _ _ (wf_threads _ Hw) Hpid) as (x & Hx & ->). simpl.
  case_bool_decide; [|exists t, cur; split_and!; try done; lia].
  destruct (slot_range _ _ (wf_dir _ Hw) Hpid) as (d & _ & ->). simpl.
  destruct (slot_range _ _ (wf_prev _ Hw) Hpid) as (y & Hy & ->). simpl.
  eexists _, _. split; [done|]. split; [by eapply Hp|]. split; [repeat split; simpl; by rewrite length_insert|].
  intros q Hq.
  pose proof (free_insert t (Z.to_nat pid) 0 q ltac:(lia) (wf_threads _ Hw) ltac:(by left) Hq). done.
Qed.
End preservation.

Section safety.
Context (chdir_nolock : string → string → string).

Lemma slot_op_exec s i r :
  procs_inv s → pr_lock s = None → slot_op (pr_table s) r →
  ∃ s', (x ← r; Ret (Some (Procs x.1 None (<[i := (PIdle, x.2)]> (pr_threads s))
           (still_live x.1 (pr_live s))))) = Ret (Some s') ∧ procs_inv s'.
Proof.
  intros Hinv Hl (t' & cur' & -> & Hc & (E1 & E2 & E3 & E4 & E5 & E6 & E7 & E8) & Hf). simpl.
  eexists. split; [done|]. by apply done_inv.
Qed.

Lemma fork_exec s i cur :
  procs_inv s → pr_lock s = None → pr_threads s !! i = Some (PIdle, cur) →
  ∃ s', proc_exec chdir_nolock (EvFork i) s = Ret (Some s') ∧ procs_inv s'.
Proof.
  intros Hinv Hl Hi. pose proof Hinv as [Hw Hv Hp Hc Hlk Hnd Hlive Hz].
  pose proof (Hc _ _ _ Hi) as Hcur. unfold proc_exec. rewrite Hi, Hl.
  destruct (Hv (Z.to_nat cur)) as (vars & Hvis); [lia|].
  destruct (environmentVariables_spec _ _ _ Hvis) as (envp & n & Ee & Hr).
  rewrite Z2Nat.id in Ee by lia. rewrite Ee. cbn [mbind outcome_bind].
  destruct (next_is_free_spec (pr_table s) Hw) as (b & -> & Hb). cbn [mbind outcome_bind]. destruct b.
  - destruct (Hb eq_refl) as [Hfree E]. pose proof (cyc_range (last_allocated_pid (pr_table s)) 1) as Hrange.
    rewrite <- E. set (pid := cyc (last_allocated_pid (pr_table s)) 1) in *.
    destruct (claim_spec (set_last (pr_table s) (pid_overflow (pr_table s)) pid) pid cur envp n vars)
      as (t' & -> & Hcl); [apply wf_set_last; [done|lia]|done|done|]. simpl.
    eexists. split; [done|]. eapply claimed_inv; try done.
    intros j [|pa en] cj Hj Hji; [done|]. destruct (Hlk _ _ _ _ Hj) as (? & _). congruence.
  - eexists. split; [done|]. split; simpl; try done.
    + apply wf_set_last; [done|apply Hw].
    + intros j th cj Hj. apply list_lookup_insert_Some in Hj as [(_ & [= <- <-] & _)|(_ & Hj)]; [done|eauto].
    + intros j pa en cj Hj. apply list_lookup_insert_Some in Hj as [(<- & [= <- <- <-] & _)|(_ & Hj)]; [by eauto|].
      destruct (Hlk _ _ _ _ Hj) as (? & _). congruence.
Qed.

Lemma search_exec s i parent envp cur :
  procs_inv s → pr_threads s !! i = Some (PSearching parent envp, cur) →
  ∃ s', proc_exec chdir_nolock (EvSearch i) s = Ret (Some s') ∧ procs_inv s' ∧
    ((∃ q, 1 ≤ q ≤ 127 ∧ pid_free (pr_table s) q) ∨
     (pr_lock s' = Some i ∧ thread_ids (pr_table s') = thread_ids (pr_table s) ∧
      ∃ c, pr_threads s' !! i = Some (PSearching parent envp, c))).
Proof.
  intros Hinv Hi. pose proof Hinv as [Hw Hv Hp Hc Hlk Hnd Hlive Hz].
  destruct (Hlk _ _ _ _ Hi) as (Hl & Hpa & n & vars & Hr). unfold proc_exec. rewrite Hi.
  unfold search_step. cbv zeta. rewrite <- cyc_1 by apply Hw.
  pose proof (cyc_range (last_allocated_pid (pr_table s)) 1) as Hrange. unfold ios_getThreadId.
  rewrite bool_decide_eq_false_2 by (unfold IOS_MAX_THREADS; lia).
  set (pid := cyc (last_allocated_pid (pr_table s)) 1) in *.
  destruct (slot_range _ pid (wf_threads _ Hw) ltac:(lia)) as (x & Hx & Es). simpl. rewrite Es. simpl.
  case_bool_decide as H0.
  - subst x.
    destruct (claim_spec (set_last (pr_table s) (pid_overflow (pr_table s)) pid) pid parent envp n vars)
      as (t' & -> & Hcl); [apply wf_set_last; [done|lia]|done|done|]. simpl.
    eexists. split; [done|]. split; [|left; eauto]. eapply claimed_inv; try done.
    intros j [|pa en] cj Hj Hji; [done|]. destruct (Hlk _ _ _ _ Hj) as (? & _). congruence.
  - simpl. eexists. split; [done|]. split.
    + split; simpl; try done.
      * apply wf_set_last; [done|lia].
      * intros j th cj Hj. apply list_lookup_insert_Some in Hj as [(_ & [= <- <-] & _)|(_ & Hj)]; [lia|eauto].
      * intros j pa en cj Hj. apply list_lookup_insert_Some in Hj as [(<- & [= <- <- <-] & _)|(_ & Hj)]; eauto 10.
    + right. simpl. split_and!; try done. exists pid. apply list_lookup_insert_eq. by eapply lookup_lt_Some.
Qed.

(** Every event is defined and keeps the invariant. *)
Lemma proc_exec_inv s ev : procs_inv s →
  ∃ o, proc_exec chdir_nolock ev s = Ret o ∧ ∀ s', o = Some s' → procs_inv s'.
Proof.
  intros Hinv. pose proof Hinv as [Hw Hv Hp Hc Hlk Hnd Hlive Hz].
  assert (∀ i k, (∀ cur, pr_threads s !! i = Some (PIdle, cur) → pr_lock s = None →
      ∃ o, k cur = Ret o ∧ ∀ s', o = Some s' → procs_inv s') →
    ∃ o, match pr_threads s !! i, pr_lock s with Some (PIdle, cur), None => k cur | _, _ => Ret None end = Ret o ∧
      ∀ s', o = Some s' → procs_inv s') as Hidle.
  { intros i k Hk. destruct (pr_threads s !! i) as [[[|pa en] cur]|] eqn:Ei; [|by eexists..].
    destruct (pr_lock s) eqn:El; [by eexists|]. by apply Hk. }
  assert (∀ i r, pr_lock s = None → slot_op (pr_table s) r → ∃ o, (x ← r; Ret (Some (Procs x.1 None
      (<[i := (PIdle, x.2)]> (pr_threads s)) (still_live x.1 (pr_live s))))) = Ret o ∧
    ∀ s', o = Some s' → procs_inv s') as Hop.
  { intros i r El Hr. destruct (slot_op_exec s i r Hinv El Hr) as (s' & -> & H'). eexists. split; [done|].
    by intros ? [= <-]. }
  destruct ev as [i|i|i th|i th|i th|i pid|i pid].
  - destruct (pr_threads s !! i) as [[[|pa en] cur]|] eqn:Ei; [|by unfold proc_exec; rewrite Ei; eexists..].
    destruct (pr_lock s) eqn:El; [by unfold proc_exec; rewrite Ei, El; eexists|].
    destruct (fork_exec s i cur Hinv El Ei) as (s' & -> & H'). eexists. split; [done|]. by intros ? [= <-].
  - destruct (pr_threads s !! i) as [[[|pa en] cur]|] eqn:Ei; [by unfold proc_exec; rewrite Ei; eexists| |
      by unfold proc_exec; rewrite Ei; eexists].
    destruct (search_exec s i pa en cur Hinv Ei) as (s' & -> & H' & _). eexists. split; [done|]. by intros ? [= <-].
  - apply Hidle. intros cur Ei El. case_bool_decide; [by eexists|]. apply Hop; [done|].
    apply store_op; eauto.
  - apply Hidle. intros cur Ei El. apply Hop; [done|]. apply release_op; eauto.
  - apply Hidle. intros cur Ei El. apply Hop; [done|]. apply release_background_op; eauto.
  - apply Hidle. intros cur Ei El. case_bool_decide; [|by eexists]. apply Hop; [done|]. apply release_id_op; eauto.
  - simpl. destruct (pr_threads s !! i) as [[[|pa en] cur]|] eqn:Ei; [|by eexists..].
    case_bool_decide as Hr; [|by eexists]. eexists. split; [done|]. intros ? [= <-]. split; simpl; try done.
    + intros j th cj Hj. apply list_lookup_insert_Some in Hj as [(_ & [= <- <-] & _)|(_ & Hj)]; [done|eauto].
    + intros j pa en cj Hj. apply list_lookup_insert_Some in Hj as [(_ & [=] & _)|(_ & Hj)]. eauto.
Qed.

Lemma procs_reachable_inv vars dir n s :
  reachable (proc_step chdir_nolock) (λ x, x = procs_start vars dir n) s → procs_inv s.
Proof.
  apply reachable_invariant.
  - intros ? ->. apply procs_start_inv.
  - intros e x x' Hx Hs. unfold proc_step in Hs.
    destruct (proc_exec_inv x e Hx) as (o & E & Ho). rewrite E in Hs. by apply Ho.
Qed.
End safety.

(** C10: in every interleaving of forks, starts, releases and changes of
    [current_pid] nothing indexes the arrays out of bounds or reads
    uninitialised memory, and the live commands have distinct numbers between
    1 and 127, exactly the ones whose slot is not free. *)
Theorem process_numbers_distinct (chdir_nolock : string → string → string) (vars : list string)
    (dir : string) (n : nat) (s : procs) :
  reachable (proc_step chdir_nolock) (λ x, x = procs_start vars dir n) s →
  (∀ ev, defined (proc_exec chdir_nolock ev s)) ∧ NoDup (pr_live s) ∧
  ∀ p, p ∈ pr_live s ↔ 1 ≤ p ≤ 127 ∧ ¬ pid_free (pr_table s) p.
Proof.
  intros Hr. apply procs_reachable_inv in Hr as Hinv. split; [|by destruct Hinv].
  intros ev. destruct (proc_exec_inv chdir_nolock s ev Hinv) as (o & E & _). by exists o.
Qed.

Definition no_chdir (old path : string) : string := path.

Lemma process_numbers_distinct_witness :
  ∃ s, run (proc_step no_chdir) [EvFork 0; EvFork 1; EvStore 1 77; EvFork 1; EvStore 0 0; EvRelease 1 77]
         (procs_start [] "/" 2) = Some s ∧ pr_live s = [3] ∧ NoDup (pr_live s).
Proof.
  destruct (run (proc_step no_chdir) [EvFork 0; EvFork 1; EvStore 1 77; EvFork 1; EvStore 0 0; EvRelease 1 77]
    (procs_start [] "/" 2)) as [s|] eqn:E; [|exfalso; vm_compute in E; discriminate].
  exists s. split; [done|]. split; [vm_compute in E; injection E as <-; reflexivity|].
  destruct (process_numbers_distinct no_chdir [] "/" 2 s) as (_ & H & _); [|exact H].
  eapply run_reachable; [by apply reachable_init|exact E].
Defined.

(** *** All numbers taken *)

Definition stuck_at (i : nat) (s : procs) : Prop :=
  procs_inv s ∧ pr_lock s = Some i ∧ (∃ parent envp cur, pr_threads s !! i = Some (PSearching parent envp, cur)) ∧
  ∀ q, 1 ≤ q ≤ 127 → ¬ pid_free (pr_table s) q.

Lemma stuck_step chdir_nolock i ev s s' :
  stuck_at i s → proc_step chdir_nolock ev s = Some s' → stuck_at i s'.
Proof.
  intros (Hinv & Hl & (pa & en & cur & Hi) & Hfull) Hs.
  assert (procs_inv s') as Hinv'.
  { unfold proc_step in Hs. destruct (proc_exec_inv chdir_nolock s ev Hinv) as (o & E & Ho).
    rewrite E in Hs. by apply Ho. }
  split; [done|]. unfold proc_step in Hs.
  assert (∀ j (k : Z → outcome (option procs)), match pr_threads s !! j, pr_lock s with Some (PIdle, c), None => k c | _, _ => Ret None end
    = Ret None) as Hblocked.
  { intros j k. rewrite Hl. destruct (pr_threads s !! j) as [[[|? ?] ?]|]; done. }
  destruct ev as [j|j|j th|j th|j th|j pid|j pid]; try (unfold proc_exec in Hs; rewrite Hblocked in Hs; done).
  - destruct (pr_threads s !! j) as [[[|pj ej] cj]|] eqn:Ej; [by unfold proc_exec in Hs; rewrite Ej in Hs| |
      by unfold proc_exec in Hs; rewrite Ej in Hs].
    assert (j = i) as -> by (destruct (pi_lock _ Hinv _ _ _ _ Ej); congruence).
    destruct (search_exec chdir_nolock s i pj ej cj Hinv Ej) as (s1 & E & _ & Hor).
    rewrite E in Hs. injection Hs as <-.
    destruct Hor as [(q & Hq & Hf)|(Hl1 & Ht & c & Hc)]; [by destruct (Hfull q Hq)|].
    split; [done|]. split; [eauto|]. unfold pid_free in *. by rewrite Ht.
  - unfold proc_exec in Hs. destruct (pr_threads s !! j) as [[[|pj ej] cj]|] eqn:Ej; [|done..].
    case_bool_decide; [|done]. injection Hs as <-. simpl. split; [done|]. split; [|done].
    exists pa, en, cur. rewrite list_lookup_insert_ne by congruence. done.
Qed.

(** once all 127 numbers are taken, a thread in the search of [ios_fork]
    stays there whatever happens: it holds [pid_mtx], and the functions that
    would free a number wait for that mutex. *)
Theorem fork_full_deadlock (chdir_nolock : string → string → string) (i : nat) (s s' : procs) :
  stuck_at i s → reachable (proc_step chdir_nolock) (λ x, x = s) s' → stuck_at i s'.
Proof.
  intros Hs. apply (reachable_invariant (proc_step chdir_nolock)); [by intros ? ->|].
  intros e x x'. apply stuck_step.
Qed.

(** 127 forks succeed; the next one finds no number. *)
Definition full_procs : option procs :=
  run (proc_step no_chdir) (replicate 127 (EvFork 0) ++ [EvFork 1]) (procs_start [] "/" 2).

(** Thread 1 is in the loop and no number is free. *)
Definition is_full (o : option procs) : bool :=
  match o with
  | Some s =>
      bool_decide (pr_lock s = Some 1%nat) && forallb (λ x, negb (x =? 0)) (tail (thread_ids (pr_table s)))
      && match pr_threads s !! 1%nat with Some (PSearching _ _, _) => true | _ => false end
  | None => false
  end.

Lemma is_full_stuck s : procs_inv s → is_full (Some s) = true → stuck_at 1 s.
Proof.
  intros Hinv Hf. unfold is_full in Hf. apply andb_true_iff in Hf as [Hf Ht].
  apply andb_true_iff in Hf as [Hl%bool_decide_eq_true Hall]. split; [done|]. split; [done|]. split.
  - destruct (pr_threads s !! 1%nat) as [[[|pa en] cur]|]; try done. by eexists _, _, _.
  - intros q Hq Hfree. unfold pid_free in Hfree. destruct (thread_ids (pr_table s)) as [|x l]; [done|].
    destruct (Z.to_nat q) as [|k] eqn:Ek; [lia|]. simpl in *.
    rewrite List.forallb_forall in Hall. specialize (Hall 0).
    assert (In 0 l) as Hin by (apply list_elem_of_In; by eapply list_elem_of_lookup_2). by specialize (Hall Hin).
Qed.

Lemma full_procs_full : is_full full_procs = true.
Proof. by vm_compute. Qed.

Lemma full_procs_inv s : full_procs = Some s → procs_inv s.
Proof.
  unfold full_procs. generalize (replicate 127 (EvFork 0) ++ [EvFork 1]) as es. intros es E.
  apply (procs_reachable_inv no_chdir [] "/" 2 s).
  eapply run_reachable; [apply reachable_init; reflexivity|exact E].
Qed.

Lemma fork_full_deadlock_witness :
  ∃ s, full_procs = Some s ∧ ∀ s', reachable (proc_step no_chdir) (λ x, x = s) s' → stuck_at 1 s'.
Proof.
  pose proof full_procs_full as Hf. destruct full_procs as [s|] eqn:E; [|discriminate Hf].
  exists s. split; [reflexivity|]. intros s'. apply (fork_full_deadlock no_chdir 1 s s').
  apply is_full_stuck; [|exact Hf]. apply full_procs_inv. exact E.
Defined.

(** ** Release *)

(** release undoes fork.  A command that never started gives its number
    back through [ios_storeThreadId(0)]; one that ran on a thread of its own
    through [ios_releaseThread], which also returns to the directory the parent
    was in.  In both cases [current_pid] is the parent again and every slot is
    as before. *)
Theorem fork_release_roundtrip (chdir_nolock : string → string → string) (t : process_table)
    (current_pid thread : Z) (vars : list string) :
  table_wf t → 0 ≤ current_pid ≤ 127 → visible_vars t (Z.to_nat current_pid) vars →
  (∃ q, 1 ≤ q ≤ 127 ∧ pid_free t q) → thread ≠ 0 → thread ≠ -1 → thread ∉ thread_ids t →
  ∃ t1 pid, ios_nextAvailablePid 127 t current_pid = Ret (t1, pid) ∧
    (∃ t2, ios_storeThreadId t1 pid 0 = Ret (t2, current_pid) ∧ thread_ids t2 = thread_ids t) ∧
    (∃ t2 t3, ios_storeThreadId t1 pid thread = Ret (t2, pid) ∧
       ios_releaseThread chdir_nolock t2 pid thread = Ret (t3, current_pid) ∧
       thread_ids t3 = thread_ids t ∧ cwd t3 = chdir_nolock (cwd t) (cwd t)).
Proof.
  intros Hw Hc Hv Hex H0 H1 Hni.
  destruct (fork_ok t current_pid vars Hw Hc Hv Hex)
    as (t1 & pid & k & E & Hr & Hfree & _ & _ & Hw1 & Ht & _ & Hpp & Hpd & _ & Hcwd & _).
  exists t1, pid. split; [done|]. set (p := Z.to_nat pid) in *.
  assert (p < length (thread_ids t))%nat as Hp by (rewrite (wf_threads _ Hw); lia).
  assert (∀ x, slot (<[p := x]> (thread_ids t)) pid = Ret x) as Hslot.
  { intros x. replace pid with (Z.of_nat p) by lia. by apply slot_ok, list_lookup_insert_eq. }
  assert (slot (previousPid t1) (Z.of_nat p) = Ret current_pid) as Hparent.
  { apply slot_ok. rewrite Hpp. apply list_lookup_insert_eq. rewrite (wf_prev _ Hw). lia. }
  assert (slot (previousDirectory t1) (Z.of_nat p) = Ret (cwd t)) as Hdir.
  { apply slot_ok. rewrite Hpd. apply list_lookup_insert_eq. rewrite (wf_dir _ Hw). lia. }
  assert (∀ x, <[p := 0]> (<[p := x]> (thread_ids t)) = thread_ids t) as Hback.
  { intros x. rewrite list_insert_insert_eq. by apply list_insert_id. }
  assert (Z.of_nat p = pid) as Ep by lia.
  split; unfold ios_storeThreadId; rewrite Ht, Hslot; simpl.
  - rewrite Ep in Hparent. rewrite Hparent. simpl. eexists. split; [done|]. simpl. rewrite Ht. apply Hback.
  - rewrite bool_decide_eq_false_2 by done. eexists _, _. split; [done|].
    unfold ios_releaseThread. rewrite bool_decide_eq_false_2 by done. fold p.
    assert (find_thread (set_thread_id t1 p thread) thread = Some p) as ->.
    { unfold find_thread. simpl. rewrite Ht, list_insert_insert_eq.
      assert (list_find (λ x, x = thread) (<[p := thread]> (thread_ids t)) = Some (p, thread)) as ->; [|done].
      apply list_find_Some. split; [by apply list_lookup_insert_eq|]. split; [done|].
      intros j y Hj Hlt. rewrite list_lookup_insert_ne in Hj by lia. intros ->.
      apply Hni. by eapply list_elem_of_lookup_2. }
    simpl. rewrite Hparent. simpl. rewrite Hdir. simpl. split; [done|]. simpl.
    rewrite Ht, list_insert_insert_eq, Hcwd. split; [apply Hback|done].
Qed.

Lemma fork_release_roundtrip_witness :
  ∃ t1 pid, ios_nextAvailablePid 127 demo_table 1 = Ret (t1, pid) ∧
    ∃ t2 t3, ios_storeThreadId t1 pid 99 = Ret (t2, pid) ∧
      ios_releaseThread no_chdir t2 pid 99 = Ret (t3, 1) ∧ thread_ids t3 = thread_ids demo_table.
Proof.
  destruct (fork_release_roundtrip no_chdir demo_table 1 99 [entry "HOME" "/home"; entry "PATH" "/bin"])
    as (t1 & pid & H1 & _ & t2 & t3 & H2 & H3 & H4 & _); try (done || lia).
  - left. eexists _, _. split; [reflexivity|]. split; [reflexivity|]. split; [reflexivity|]. by exists [].
  - exists 3. split; [lia|reflexivity].
  - apply (bool_decide_unpack _). by vm_compute.
  - exists t1, pid. split; [exact H1|]. exists t2, t3. by split_and!.
Defined.

(** ** Waiting *)

(** The test [options && WNOHANG] is true for every option: [waitpid] with
    any non-zero options returns at once, with 0 while the command runs. *)
Theorem waitpid_any_option (t : process_table) (pid last_thread options thread : Z) :
  options ≠ 0 → wait_target t pid last_thread = Ret thread → thread ≠ 0 →
  waitpid_poll t pid last_thread options = Ret (Some 0).
Proof.
  intros Ho Ht Hn. unfold waitpid_poll. rewrite Ht. simpl.
  by rewrite !bool_decide_eq_true_2.
Qed.

(** A wait for a number beyond the table never ends. *)
Theorem waitpid_out_of_range (t : process_table) (pid last_thread : Z) :
  IOS_MAX_THREADS ≤ pid → waitpid_poll t pid last_thread 0 = Ret None.
Proof.
  intros Hp. unfold waitpid_poll, wait_target, ios_getThreadId, IOS_MAX_THREADS in *.
  rewrite (bool_decide_eq_false_2 (pid = -1)), (bool_decide_eq_false_2 (pid = 0)),
    (bool_decide_eq_true_2 (pid >= 128)) by lia. done.
Qed.

(** [ios_releaseBackgroundThread] does not check its argument: called with no
    thread it takes the first free slot for the command's and [current_pid]
    becomes whatever that slot's last parent was. *)
Theorem release_background_null (t : process_table) (current_pid p parent : Z) :
  0 ≤ p → find_thread t 0 = Some (Z.to_nat p) → previousPid t !! Z.to_nat p = Some parent →
  ∃ t', ios_releaseBackgroundThread t current_pid 0 = Ret (t', parent) ∧ thread_ids t' = thread_ids t.
Proof.
  intros Hp Hf Hpp. unfold ios_releaseBackgroundThread. rewrite Hf.
  rewrite (slot_ok _ _ _ Hpp). simpl. eexists. split; [done|]. simpl. apply list_insert_id.
  unfold find_thread in Hf. destruct (list_find _ _) as [[q x]|] eqn:E; [|done]. injection Hf as Hq.
  simpl in Hq. subst q. apply list_find_Some in E as (Hx & -> & _). done.
Qed.
