(* ===== verification/Sleep.v ===== *)
(** * Interruptible sleeps ([src/libc_replacement.c])

    [nanosleep], [sleep] and [usleep] are loops of [poll] on the descriptor
    that announces the cancellation of the session.
    - A [round] is what one iteration sees of its surroundings: the clock
      before and after, whether the session is cancelled, the descriptor, and
      what [poll] returns for a time-out.
    - [nanosleep_loop] runs over a list of rounds; [Asleep] means that the
      loop needs another one.
    - Times are integers; the clock and the request are far from the limits of
      64 bits.  The conversion of the time-out to [int] is kept at 32 bits.
    - Theorems: the subtraction is exact and saturates at zero; the call
      returns 0 only after the requested time and reports exactly what is left
      otherwise; the time-outs cover the rest of the sleep to a millisecond; an
      undisturbed sleep takes one round. *)

From S2P Require Import Prelude.

Local Open Scope Z_scope.

Record timespec := Timespec { tv_sec : Z; tv_nsec : Z }.
Global Instance timespec_eq_dec : EqDecision timespec.
Proof. solve_decision. Defined.

Definition ios_timespec_subtract (lhs rhs : timespec) : timespec :=
  let sec := tv_sec lhs - tv_sec rhs in
  let nsec := tv_nsec lhs - tv_nsec rhs in
  let '(sec, nsec) := if bool_decide (nsec < 0) then (sec - 1, nsec + 1000000000) else (sec, nsec) in
  if bool_decide (sec < 0) then Timespec 0 0 else Timespec sec nsec.

Definition ios_timespec_is_zero (value : timespec) : bool :=
  bool_decide (tv_sec value = 0) && bool_decide (tv_nsec value = 0).

(** The time-out of [poll] for the remaining time. *)
Definition sleep_timeout_ms (remaining : timespec) : Z :=
  if bool_decide (tv_sec remaining > INT_MAX `quot` 1000) then INT_MAX
  else
    let timeout_ms_ll := tv_sec remaining * 1000 + (tv_nsec remaining + 999999) `quot` 1000000 in
    if bool_decide (timeout_ms_ll ≤ 0) then 1 else wrapS 32 timeout_ms_ll.

Record round := Round {
  before : option timespec;         (* [None]: [clock_gettime] fails *)
  cancelled : bool;                 (* [ios_sessionCancelRequested()] *)
  cancel_fd : Z;                    (* [ios_sessionCancelFD()] *)
  poll_result : Z → Z * option errno;
  after : option timespec }.

Definition ios_wait_for_cancel_or_timeout_ms (r : round) (timeout_ms : Z) : Z * option errno :=
  if cancelled r then (-1, Some EINTR)
  else if bool_decide (cancel_fd r < 0) then poll_result r timeout_ms
  else
    let '(result, err) := poll_result r timeout_ms in
    if bool_decide (result ≤ 0) then (result, err) else (-1, Some EINTR).

Inductive sleep_result : Type :=
  | Slept                                        (* 0; [*rmtp] is zero *)
  | Interrupted (remaining : timespec) (err : option errno)   (* -1; [*rmtp] *)
  | Asleep (remaining : timespec).               (* no more rounds *)

Fixpoint nanosleep_loop (rs : list round) (remaining : timespec) : sleep_result :=
  if ios_timespec_is_zero remaining then Slept
  else
    match rs with
    | [] => Asleep remaining
    | r :: rs =>
        match before r with
        | None => Interrupted remaining None
        | Some b =>
            let '(result, err) := ios_wait_for_cancel_or_timeout_ms r (sleep_timeout_ms remaining) in
            if bool_decide (result < 0) then
              Interrupted
                (match after r with
                 | Some a => ios_timespec_subtract remaining (ios_timespec_subtract a b)
                 | None => remaining
                 end) err
            else
              match after r with
              | None => Slept
              | Some a => nanosleep_loop rs (ios_timespec_subtract remaining (ios_timespec_subtract a b))
              end
        end
    end.

(** [None]: [EINVAL], the clock is not read and [*rmtp] is not written. *)
Definition ios_nanosleep_internal (rs : list round) (rqtp : option timespec) : option sleep_result :=
  match rqtp with
  | None => None
  | Some t =>
      if bool_decide (tv_sec t < 0) || bool_decide (tv_nsec t < 0) || bool_decide (tv_nsec t >= 1000000000)
      then None else Some (nanosleep_loop rs t)
  end.

Definition ios_nanosleep (rs : list round) (rqtp : option timespec) : option sleep_result :=
  ios_nanosleep_internal rs rqtp.

(** The value of [ios_sleep]; [None] while it sleeps. *)
Definition ios_sleep (rs : list round) (seconds : Z) : outcome (option Z) :=
  match ios_nanosleep_internal rs (Some (Timespec seconds 0)) with
  | Some Slept => Ret (Some 0)
  | Some (Interrupted r _) =>
      Ret (Some (wrapU 32 (tv_sec r + (if bool_decide (tv_nsec r ≠ 0) then 1 else 0))))
  | Some (Asleep _) => Ret None
  | None => Undef Uninitialised
  end.

Definition ios_usleep (rs : list round) (usec : Z) : option sleep_result :=
  ios_nanosleep_internal rs (Some (Timespec (usec `div` 1000000) ((usec `mod` 1000000) * 1000))).

(** ** Durations *)

Definition ns (t : timespec) : Z := tv_sec t * 1000000000 + tv_nsec t.
Definition valid (t : timespec) : Prop := 0 ≤ tv_nsec t < 1000000000.
Definition duration (t : timespec) : Prop := valid t ∧ 0 ≤ tv_sec t.

Lemma subtract_ok a b : valid a → valid b →
  duration (ios_timespec_subtract a b) ∧ ns (ios_timespec_subtract a b) = Z.max 0 (ns a - ns b).
Proof.
  destruct a as [s n], b as [s' n']. unfold valid, duration, ios_timespec_subtract, valid, ns. simpl.
  intros. repeat case_bool_decide; simpl; repeat case_bool_decide; simpl in *; lia.
Qed.

Lemma is_zero_ns t : duration t → ios_timespec_is_zero t = bool_decide (ns t = 0).
Proof.
  destruct t as [s n]. unfold duration, valid, ios_timespec_is_zero, ns. simpl. intros.
  repeat case_bool_decide; simpl; try done; lia.
Qed.

(** The clock readings of a round are valid. *)
Definition round_ok (r : round) : Prop :=
  (∀ t, before r = Some t → valid t) ∧ (∀ t, after r = Some t → valid t).

(** How long a round took, by its clock. *)
Definition elapsed (r : round) : Z :=
  match before r, after r with
  | Some b, Some a => Z.max 0 (ns a - ns b)
  | _, _ => 0
  end.

(** The rounds the loop uses up. *)
Fixpoint used (rs : list round) (remaining : timespec) : list round :=
  if ios_timespec_is_zero remaining then []
  else
    match rs with
    | [] => []
    | r :: rs =>
        match before r, after r with
        | Some b, Some a =>
            if bool_decide (fst (ios_wait_for_cancel_or_timeout_ms r (sleep_timeout_ms remaining)) < 0) then [r]
            else r :: used rs (ios_timespec_subtract remaining (ios_timespec_subtract a b))
        | _, _ => [r]
        end
    end.
Definition total (rs : list round) : Z := foldr (λ r x, elapsed r + x) 0 rs.

Lemma elapsed_ok r b a : round_ok r → before r = Some b → after r = Some a →
  valid (ios_timespec_subtract a b) ∧ ns (ios_timespec_subtract a b) = elapsed r.
Proof.
  intros [Hb Ha] Eb Ea. unfold elapsed. rewrite Eb, Ea.
  destruct (subtract_ok a b (Ha _ Ea) (Hb _ Eb)) as [[? ?] ?]. done.
Qed.

(** What one completed round leaves. *)
Lemma round_left r b a rem : round_ok r → before r = Some b → after r = Some a → duration rem →
  let rem' := ios_timespec_subtract rem (ios_timespec_subtract a b) in
  duration rem' ∧ ns rem' = Z.max 0 (ns rem - elapsed r).
Proof.
  intros Hr Eb Ea [Hv _]. destruct (elapsed_ok r b a Hr Eb Ea) as [Hv' He]. cbv zeta. rewrite <- He.
  by apply subtract_ok.
Qed.

Lemma total_nonneg rs : 0 ≤ total rs.
Proof. induction rs as [|r rs IH]; simpl; [lia|]. unfold elapsed. destruct (before r), (after r); lia. Qed.

Lemma nanosleep_loop_ok rs rem : Forall round_ok rs → duration rem →
  match nanosleep_loop rs rem with
  | Slept => ns rem ≤ total (used rs rem) ∨ ∃ r, r ∈ used rs rem ∧ after r = None
  | Interrupted rest _ => duration rest ∧ ns rest = Z.max 0 (ns rem - total (used rs rem))
  | Asleep rest => duration rest ∧ 0 < ns rest ∧ ns rest = ns rem - total (used rs rem) ∧ used rs rem = rs
  end.
Proof.
  intros Hrs. revert rem. induction Hrs as [|r rs Hr _ IH]; intros rem Hd; simpl;
    rewrite is_zero_ns by done; case_bool_decide as Hz; simpl.
  - left. lia.
  - split_and!; try done; destruct Hd as [[? ?] ?]; unfold ns in *; lia.
  - left. lia.
  - destruct (before r) as [b|] eqn:Eb; simpl.
    2: { unfold elapsed. rewrite Eb. split; [done|]. destruct Hd as [[? ?] ?]. unfold ns. lia. }
    destruct (ios_wait_for_cancel_or_timeout_ms r (sleep_timeout_ms rem)) as [res err]. simpl.
    destruct (after r) as [a|] eqn:Ea; simpl.
    + destruct (round_left r b a rem Hr Eb Ea Hd) as [Hd' Hn']. cbv zeta in *.
      case_bool_decide as Hneg; simpl; [split; [done|]; rewrite Hn'; f_equal; lia|].
      pose proof (total_nonneg (used rs (ios_timespec_subtract rem (ios_timespec_subtract a b)))) as Ht.
      specialize (IH _ Hd'). destruct (nanosleep_loop rs _) as [|rest e|rest].
      * destruct IH as [IH|(r' & Hin & Ha)]; [left; lia|right; exists r'; split; [by right|done]].
      * destruct IH as [IH1 IH2]. split; [done|]. lia.
      * destruct IH as (IH1 & IH2 & IH3 & IH4). split_and!; try done; [|by f_equal]. lia.
    + case_bool_decide; simpl.
      * unfold elapsed. rewrite Eb, Ea. split; [done|]. destruct Hd as [[? ?] ?]. unfold ns. lia.
      * right. exists r. split; [by left|done].
Qed.

Lemma ios_nanosleep_eq rs t : duration t → ios_nanosleep rs (Some t) = Some (nanosleep_loop rs t).
Proof.
  intros [[? ?] ?]. unfold ios_nanosleep, ios_nanosleep_internal.
  repeat case_bool_decide; simpl; try done; lia.
Qed.

(** Whatever happens in the rounds, a valid request returns 0 only after the
    requested time has passed by the monotonic clock (or the clock failed), a
    call that returns -1 stores exactly the requested minus the elapsed time,
    never negative and normalised, and a call that is still asleep has used up
    all rounds.  A request that is no duration is refused before the clock is
    read. *)
Theorem nanosleep_spec rs t : Forall round_ok rs →
  match ios_nanosleep rs (Some t) with
  | Some Slept => ns t ≤ total (used rs t) ∨ ∃ r, r ∈ used rs t ∧ after r = None
  | Some (Interrupted rest _) => duration rest ∧ ns rest = Z.max 0 (ns t - total (used rs t))
  | Some (Asleep rest) => duration rest ∧ 0 < ns rest ∧ ns rest = ns t - total rs
  | None => ¬ duration t
  end.
Proof.
  intros Hrs. destruct (decide (duration t)) as [Hd|Hd].
  - rewrite ios_nanosleep_eq by done. pose proof (nanosleep_loop_ok rs t Hrs Hd) as H.
    destruct (nanosleep_loop rs t); [done|done|]. destruct H as (? & ? & ? & Hu). by rewrite Hu in *.
  - unfold ios_nanosleep, ios_nanosleep_internal.
    repeat case_bool_decide; simpl; try done. exfalso. apply Hd. split; [split|]; lia.
Qed.

(** ** The time-out of a round *)

Lemma timeout_bounds t : duration t → 0 < ns t ≤ INT_MAX * 1000000 →
  1 ≤ sleep_timeout_ms t ≤ INT_MAX ∧ ns t ≤ sleep_timeout_ms t * 1000000 < ns t + 1000000.
Proof.
  destruct t as [s n]. unfold duration, valid, sleep_timeout_ms, ns. simpl. intros [[? ?] ?] ?.
  change (INT_MAX `quot` 1000) with 2147483. change INT_MAX with 2147483647 in *.
  rewrite Z.quot_div_nonneg by lia. pose proof (Z.div_mod (n + 999999) 1000000) as Hq.
  pose proof (Z.mod_pos_bound (n + 999999) 1000000).
  repeat case_bool_decide; try lia. rewrite wrapS_small by (simpl; lia). lia.
Qed.

(** Nobody cancels the session, [poll] expires after at least the time it was
    given (for ever when it is negative: there is no such round), and the
    clock does not fail. *)
Definition undisturbed (r : round) (timeout_ms : Z) : Prop :=
  cancelled r = false ∧ poll_result r timeout_ms = (0, None) ∧ is_Some (before r) ∧ is_Some (after r) ∧
  timeout_ms * 1000000 ≤ elapsed r.

(** An undisturbed sleep of at most [INT_MAX] milliseconds returns 0 after a
    single round, and [poll] is asked for the requested time rounded up to the
    next millisecond, so that the sleep is not longer than that either. *)
Theorem nanosleep_undisturbed r rs t : duration t → 0 < ns t ≤ INT_MAX * 1000000 → round_ok r →
  undisturbed r (sleep_timeout_ms t) →
  ios_nanosleep (r :: rs) (Some t) = Some Slept ∧ used (r :: rs) t = [r] ∧
  ns t ≤ sleep_timeout_ms t * 1000000 < ns t + 1000000.
Proof.
  intros Hd Hn Hr (Hc & Hp & [b Eb] & [a Ea] & He).
  destruct (timeout_bounds t Hd Hn) as [_ Ht].
  destruct (round_left r b a t Hr Eb Ea Hd) as [Hd' Hn']. cbv zeta in *.
  rewrite ios_nanosleep_eq by done. simpl. rewrite is_zero_ns by done.
  rewrite bool_decide_eq_false_2 by lia. rewrite Eb, Ea.
  unfold ios_wait_for_cancel_or_timeout_ms. rewrite Hc, Hp.
  set (rem' := ios_timespec_subtract _ _) in *.
  assert (ios_timespec_is_zero rem' = true) as Hz.
  { rewrite is_zero_ns by done. apply bool_decide_eq_true_2. lia. }
  assert (nanosleep_loop rs rem' = Slept ∧ used rs rem' = []) as [-> Hu].
  { destruct rs; simpl; by rewrite Hz. }
  case_bool_decide; simpl; rewrite Hu; done.
Qed.

(** The seconds [sleep] returns are the unslept time rounded up, at most the
    requested seconds: the sum in [unsigned int] does not wrap around. *)
Theorem sleep_unslept rs seconds v : Forall round_ok rs → 0 ≤ seconds < 2 ^ 32 →
  ios_sleep rs seconds = Ret (Some v) →
  let t := Timespec seconds 0 in
  0 ≤ v ≤ seconds ∧
  (∀ rest err, ios_nanosleep rs (Some t) = Some (Interrupted rest err) →
     v * 1000000000 - 1000000000 < ns t - total (used rs t) ≤ v * 1000000000 ∨
     v = 0 ∧ ns t ≤ total (used rs t)).
Proof.
  intros Hrs Hs Hv t. assert (duration t) as Hd by (repeat split; simpl; lia).
  unfold ios_sleep in Hv. fold t in Hv.
  change (ios_nanosleep_internal rs (Some t)) with (ios_nanosleep rs (Some t)) in Hv.
  rewrite ios_nanosleep_eq in * by done. pose proof (nanosleep_loop_ok rs t Hrs Hd) as H.
  pose proof (total_nonneg (used rs t)).
  destruct (nanosleep_loop rs t) as [|rest e|rest]; simplify_eq; [split; [lia|]; intros; simplify_eq|].
  destruct H as [[[? ?] ?] Hn]. destruct rest as [s n]. unfold ns in Hn. simpl in *.
  unfold ns. simpl. rewrite wrapU_small by (case_bool_decide; simpl; lia).
  split; [case_bool_decide; lia|]. intros ? ? [= <- <-]. case_bool_decide; lia.
Qed.

(** ** Examples *)

(** A round of the given length that expires, and one that is interrupted by
    a cancellation. *)
Definition expires (b a : timespec) : round := Round (Some b) false 7 (λ _, (0, None)) (Some a).
Definition interrupts (b a : timespec) : round := Round (Some b) false 7 (λ _, (1, None)) (Some a).

Ltac round_ok_solve := split; intros ? [= <-]; unfold valid; simpl; lia.
Ltac rounds_ok_solve := repeat (apply Forall_cons_2; [round_ok_solve|]); apply Forall_nil_2.

Lemma nanosleep_spec_witness :
  ios_nanosleep [expires (Timespec 10 900000000) (Timespec 11 100000000);
                 interrupts (Timespec 11 200000000) (Timespec 12 0)] (Some (Timespec 2 500000000))
    = Some (Interrupted (Timespec 1 500000000) (Some EINTR)) ∧
  ns (Timespec 1 500000000) = Z.max 0 (2500000000 - 1000000000).
Proof.
  split; [vm_compute; reflexivity|].
  pose proof (nanosleep_spec [expires (Timespec 10 900000000) (Timespec 11 100000000);
    interrupts (Timespec 11 200000000) (Timespec 12 0)] (Timespec 2 500000000)) as H.
  destruct H as [_ H]; [|exact H].
  rounds_ok_solve.
Defined.

Lemma nanosleep_undisturbed_witness :
  ios_nanosleep [expires (Timespec 10 0) (Timespec 12 500000000)] (Some (Timespec 2 499999999)) = Some Slept.
Proof.
  apply (nanosleep_undisturbed (expires (Timespec 10 0) (Timespec 12 500000000)) [] (Timespec 2 499999999)).
  - unfold duration, valid. simpl. lia.
  - vm_compute. split; [reflexivity|discriminate].
  - round_ok_solve.
  - unfold undisturbed. simpl. split_and!; try done; eauto.
Defined.

Lemma sleep_unslept_witness :
  ios_sleep [interrupts (Timespec 5 100000000) (Timespec 8 0)] 10 = Ret (Some 8) ∧ 0 ≤ 8 ≤ 10.
Proof.
  split; [vm_compute; reflexivity|].
  apply (sleep_unslept [interrupts (Timespec 5 100000000) (Timespec 8 0)] 10 8);
    [|lia|vm_compute; reflexivity].
  rounds_ok_solve.
Defined.

(** A remaining time of [INT_MAX / 1000] seconds and more than 647
    milliseconds passes the guard against overflow, but its milliseconds are
    more than [INT_MAX]; the conversion to [int] makes the time-out negative,
    for which [poll] waits without limit. *)
Theorem nanosleep_timeout_overflow n : 647000000 < n < 1000000000 →
  sleep_timeout_ms (Timespec (INT_MAX `quot` 1000) n) < 0.
Proof.
  intros. unfold sleep_timeout_ms. simpl. change (INT_MAX `quot` 1000) with 2147483.
  rewrite Z.quot_div_nonneg by lia.
  pose proof (Z.div_mod (n + 999999) 1000000). pose proof (Z.mod_pos_bound (n + 999999) 1000000).
  repeat case_bool_decide; try lia. unfold wrapS.
  change (2 ^ (32 - 1)) with 2147483648. change (2 ^ 32) with 4294967296.
  set (q := (n + 999999) `div` 1000000) in *.
  rewrite <- (Z.mod_unique (2147483 * 1000 + q + 2147483648) 4294967296 1 (2147483000 + q + 2147483648 - 4294967296)); lia.
Qed.
