(* ===== verification/SessionIO.v ===== *)
(** * Input and output of a session ([src/libc_replacement.c])

    The replacements of [poll], [select], [pselect], [read], [write] and of
    the stdio calls.  They watch, besides the caller's descriptors, the
    descriptor that announces the cancellation of the session, and they route
    the standard streams to the streams of the thread.
    - The operating system, and the session another thread may cancel at any
      moment, are the class [Kernel]: each operation takes the world and
      returns its answer and the next world.  [KernelLaws] states what POSIX
      documents of [poll] and [select].
    - The loops that retry after a signal take a fuel.
    - Theorems: [ios_poll] and [ios_select] give the caller the contract of
      the calls they replace and report a cancellation as [EINTR]; the wait
      for a descriptor ends by readiness, time-out, cancellation or error
      after finitely many signals; the stdio calls wait exactly when the
      buffer of the stream cannot satisfy them; output to a standard stream
      goes to the stream of the thread and is refused once the session is
      cancelled. *)

From S2P Require Import Prelude.

Local Open Scope Z_scope.

(** ** The operating system *)

Inductive sysret : Type :=
  | SOk (n : Z)          (* the value of the call, not negative *)
  | SErr (e : errno).    (* -1 and [errno] *)

Record session := Session { cancel_requested : bool; cancel_pipe_read_fd : Z }.

Record pollfd := Pollfd { fd : Z; events : Z; revents : Z }.
Definition set_revents (p : pollfd) (v : Z) : pollfd := Pollfd (fd p) (events p) v.

Definition POLLIN : Z := 1.
Definition POLLERR : Z := 8.
Definition POLLHUP : Z := 16.
Definition POLLNVAL : Z := 32.
Definition O_NONBLOCK : Z := 4.
Definition FD_SETSIZE : Z := 1024.
Definition STDIN_FILENO : Z := 0.
Definition STDOUT_FILENO : Z := 1.
Definition STDERR_FILENO : Z := 2.

Definition fd_set := gset Z.
(** The three sets of [select]; [None] is the null pointer. *)
Record fd_sets := Sets { readfds : option fd_set; writefds : option fd_set; errorfds : option fd_set }.

Class Kernel (W : Type) := {
  currentSession : W → option session * W;
  sys_poll : list pollfd → Z → W → sysret * list Z * W;     (* the [revents] *)
  sys_select : Z → fd_sets → W → sysret * fd_sets * W;
  sys_getfl : Z → W → sysret * W;
  sys_read : Z → Z → W → sysret * W;
  sys_write : Z → list Z → W → sysret * W;
  sys_malloc : Z → W → bool * W }.

(** The contract of [poll]: a value that is not negative is the number of
    entries with an event, and only requested events and the three that are
    always reported occur; an error leaves the entries as they are. *)
Definition count_ready (revs : list Z) : Z := zlen (filter (λ v, v ≠ 0) revs).
Definition reportable (p : pollfd) (v : Z) : Prop :=
  Z.ldiff v (Z.lor (events p) (Z.lor POLLERR (Z.lor POLLHUP POLLNVAL))) = 0.
Definition poll_post (fds : list pollfd) (r : sysret) (revs : list Z) : Prop :=
  match r with
  | SOk n => Forall2 reportable fds revs ∧ n = count_ready revs
  | SErr _ => revs = revents <$> fds
  end.

(** The contract of [select]: the sets shrink to the descriptors that are
    ready, whose number is the value; an error leaves the sets alone. *)
Definition fds_of (s : option fd_set) : fd_set := default ∅ s.
Definition shrinks (nfds : Z) (s s' : option fd_set) : Prop :=
  (is_Some s ↔ is_Some s') ∧ fds_of s' ⊆ fds_of s ∧ ∀ x, x ∈ fds_of s' → 0 ≤ x < nfds.
Definition num_fds (s : fd_sets) : Z :=
  Z.of_nat (size (fds_of (readfds s)) + size (fds_of (writefds s)) + size (fds_of (errorfds s))).
Definition select_post (nfds : Z) (s : fd_sets) (r : sysret) (s' : fd_sets) : Prop :=
  match r with
  | SOk n => shrinks nfds (readfds s) (readfds s') ∧ shrinks nfds (writefds s) (writefds s') ∧
             shrinks nfds (errorfds s) (errorfds s') ∧ n = num_fds s'
  | SErr _ => s' = s
  end.

Class KernelLaws (W : Type) `{Kernel W} := {
  poll_law fds t w : let '(r, revs, _) := sys_poll fds t w in poll_post fds r revs;
  select_law nfds s w : let '(r, s', _) := sys_select nfds s w in select_post nfds s r s' }.

(** ** Operations *)

Section operations.
Context {W : Type} `{Kernel W}.

Definition ios_sessionCancelRequested (w : W) : bool * W :=
  let '(s, w) := currentSession w in
  (match s with None => false | Some s => cancel_requested s end, w).

Definition ios_sessionCancelFD (w : W) : Z * W :=
  let '(s, w) := currentSession w in
  (match s with None => -1 | Some s => cancel_pipe_read_fd s end, w).

Definition cancel_pollfd (cancel_fd : Z) : pollfd :=
  Pollfd cancel_fd (Z.lor POLLIN (Z.lor POLLERR POLLHUP)) 0.

(** The loop of [ios_wait_for_fd_or_cancel]; [None]: the fuel ran out. *)
Fixpoint wait_loop (fuel : nat) (fds : list pollfd) (timeout_ms : Z) (w : W) : option (sysret * W) :=
  match fuel with
  | O => None
  | S fuel =>
      let '(r, revs, w) := sys_poll fds timeout_ms w in
      match r with
      | SErr e =>
          if bool_decide (e = EINTR) then
            let '(c, w) := ios_sessionCancelRequested w in
            if c then Some (SErr e, w)
            else wait_loop fuel (zip_with set_revents fds revs) timeout_ms w
          else Some (SErr e, w)
      | SOk n =>
          if bool_decide (n = 0) then Some (SOk 0, w)
          else if bool_decide (revs !!! 1%nat ≠ 0) then Some (SErr EINTR, w)
          else if bool_decide (Z.land (revs !!! 0%nat) POLLNVAL ≠ 0) then Some (SErr EBADF, w)
          else Some (SOk 0, w)
      end
  end.

Definition wait_fds (fd events cancel_fd : Z) : list pollfd :=
  [Pollfd fd (Z.lor events (Z.lor POLLERR POLLHUP)) 0; cancel_pollfd cancel_fd].

Definition ios_wait_for_fd_or_cancel (fuel : nat) (fd events timeout_ms : Z) (w : W) : option (sysret * W) :=
  if bool_decide (fd < 0) then Some (SErr EBADF, w)
  else
    let '(c, w) := ios_sessionCancelRequested w in
    if c then Some (SErr EINTR, w)
    else
      let '(cancel_fd, w) := ios_sessionCancelFD w in
      if bool_decide (cancel_fd < 0) || bool_decide (cancel_fd = fd) then Some (SOk 0, w)
      else wait_loop fuel (wait_fds fd events cancel_fd) timeout_ms w.

Definition stack_fds : Z := 65.
Definition sizeof_pollfd : Z := 8.

(** [ios_poll]: the value of the call and the caller's array afterwards. *)
Definition ios_poll (fds : list pollfd) (nfds timeout : Z) (w : W) : outcome (sysret * list pollfd * W) :=
  let '(c, w) := ios_sessionCancelRequested w in
  if c then Ret (SErr EINTR, fds, w)
  else
    let '(cancel_fd, w) := ios_sessionCancelFD w in
    if bool_decide (zlen fds < nfds) then Undef OutOfBounds
    else
    let mine := ztake nfds fds in
    if bool_decide (cancel_fd < 0) then
      let '(r, revs, w) := sys_poll mine timeout w in
      Ret (r, zip_with set_revents mine revs ++ zdrop nfds fds, w)
    else
      let needed_fds := nfds + 1 in
      let '(refused, w) :=
        if bool_decide (needed_fds > stack_fds) then
          if bool_decide (needed_fds > SIZE_MAX `quot` sizeof_pollfd) then (true, w)
          else let '(ok, w) := sys_malloc (needed_fds * sizeof_pollfd) w in (negb ok, w)
        else (false, w) in
      if refused then Ret (SErr ENOMEM, fds, w)
      else
        let local_fds := ((λ p, set_revents p 0) <$> mine) ++ [cancel_pollfd cancel_fd] in
        let '(r, revs, w) := sys_poll (ztake (wrapU 32 (nfds + 1)) local_fds) timeout w in
        match r with
        | SErr e => Ret (SErr e, fds, w)
        | SOk n =>
            if bool_decide (n = 0) then Ret (SOk 0, fds, w)
            else if bool_decide (revs !!! Z.to_nat nfds ≠ 0) then Ret (SErr EINTR, fds, w)
            else Ret (SOk n, zip_with set_revents mine revs ++ zdrop nfds fds, w)
        end.

(** [ios_select] and [ios_pselect], which differ in the type of the time-out
    and in the signal mask handed to the system call. *)
Definition ios_select (nfds : Z) (s : fd_sets) (w : W) : sysret * fd_sets * W :=
  let '(c, w) := ios_sessionCancelRequested w in
  if c then (SErr EINTR, s, w)
  else
    let '(cancel_fd, w) := ios_sessionCancelFD w in
    if bool_decide (cancel_fd < 0) || bool_decide (cancel_fd >= FD_SETSIZE) then sys_select nfds s w
    else
      let caller_watched_cancel_fd := bool_decide (cancel_fd ∈ fds_of (readfds s)) in
      let local_readfds := {[ cancel_fd ]} ∪ fds_of (readfds s) in
      let effective_nfds := if bool_decide (cancel_fd >= nfds) then cancel_fd + 1 else nfds in
      let '(r, s', w) := sys_select effective_nfds (Sets (Some local_readfds) (writefds s) (errorfds s)) w in
      let untouched := Sets (readfds s) (writefds s') (errorfds s') in
      match r with
      | SErr e => (SErr e, untouched, w)
      | SOk n =>
          if bool_decide (n = 0) then (SOk 0, untouched, w)
          else if bool_decide (cancel_fd ∈ fds_of (readfds s')) then (SErr EINTR, untouched, w)
          else
            (SOk n,
             Sets (match readfds s with
                   | Some _ => Some (if caller_watched_cancel_fd then fds_of (readfds s')
                                     else fds_of (readfds s') ∖ {[ cancel_fd ]})
                   | None => None
                   end) (writefds s') (errorfds s'), w)
      end.

(** ** Streams *)

(** What the code uses of a [FILE] of the BSD stdio library: the number of
    buffered characters and where they are. *)
Record FILE := File { fileno : Z; _r : Z; _p : list Z }.

(** The streams of the process, and those of the thread ([None]: NULL). *)
Record stdio := Stdio {
  stdin : FILE; stdout : FILE; stderr : FILE;
  thread_stdin : option FILE; thread_stdout : option FILE; thread_stderr : option FILE }.

Definition default_out (st : stdio) : stdio :=
  Stdio (stdin st) (stdout st) (stderr st) (thread_stdin st)
    (Some (default (stdout st) (thread_stdout st))) (thread_stderr st).
Definition default_err (st : stdio) : stdio :=
  Stdio (stdin st) (stdout st) (stderr st) (thread_stdin st) (thread_stdout st)
    (Some (default (stderr st) (thread_stderr st))).
Definition default_in (st : stdio) : stdio :=
  Stdio (stdin st) (stdout st) (stderr st) (Some (default (stdin st) (thread_stdin st)))
    (thread_stdout st) (thread_stderr st).

Definition ios_stream_buffered_input (stream : option FILE) : Z :=
  match stream with
  | Some f => if bool_decide (_r f > 0) then _r f else 0
  | None => 0
  end.

Definition newline : Z := 10.

Definition ios_fgets_satisfied_by_buffer (stream : FILE) (size : Z) : bool :=
  let buffered := ios_stream_buffered_input (Some stream) in
  if bool_decide (size ≤ 1) then true
  else if bool_decide (buffered >= size - 1) then true
  else if bool_decide (buffered = 0) then false
  else bool_decide (newline ∈ ztake buffered (_p stream)).

(** [fwrite], [fputs], [read], ... on a stream. *)
Definition libc_call (A : Type) := FILE → W → A * W.

Definition ios_should_abort_stdio_write (st : stdio) (stream : option FILE) (w : W) : bool * W :=
  let '(c, w) := ios_sessionCancelRequested w in
  match stream with
  | Some f =>
      (c && (match thread_stdout st with
             | Some o => bool_decide (fileno f = fileno o)
             | None => false
             end || bool_decide (fileno f = STDOUT_FILENO)), w)
  | None => (false, w)
  end.

(** The stream of the thread for a standard stream, the stream itself
    otherwise. *)
Definition route (st : stdio) (f : FILE) : outcome FILE :=
  if bool_decide (fileno f = STDOUT_FILENO) then
    match thread_stdout st with Some o => Ret o | None => Undef NullDeref end
  else if bool_decide (fileno f = STDERR_FILENO) then
    match thread_stderr st with Some e => Ret e | None => Undef NullDeref end
  else Ret f.

(** The shape shared by [ios_fwrite], [ios_fputs], [ios_fputc] and
    [ios_putw]: [fail] is their value when the output is refused. *)
Definition stdio_write (fail : Z) (op : libc_call Z) (st : stdio) (stream : option FILE) (w : W) :
    outcome (Z * option errno * stdio * W) :=
  match stream with
  | None => Undef NullDeref
  | Some f =>
      let '(abort, w) := ios_should_abort_stdio_write st stream w in
      if abort then Ret (fail, Some EINTR, st, w)
      else
        let st := default_err (default_out st) in
        target ← route st f;
        let '(v, w) := op target w in Ret (v, None, st, w)
  end.

Definition EOF : Z := -1.
Definition ios_fwrite := stdio_write 0.
Definition ios_fputs := stdio_write EOF.
Definition ios_fputc := stdio_write EOF.
Definition ios_putw := stdio_write EOF.

Definition fprintf (op : libc_call Z) (st : stdio) (stream : option FILE) (w : W) :
    outcome (Z * option errno * stdio * W) :=
  stdio_write (-1) op (default_out (default_err st)) stream w.

Definition printf (op : libc_call Z) (st : stdio) (w : W) : outcome (Z * option errno * stdio * W) :=
  let '(c, w) := ios_sessionCancelRequested w in
  if c then Ret (-1, Some EINTR, st, w)
  else
    match thread_stdout st with
    | None => Undef NullDeref
    | Some o => let '(v, w) := op o w in Ret (v, None, st, w)
    end.

Definition ios_puts (fputs : libc_call Z) (fputc_newline : libc_call Z) (st : stdio) (w : W) :
    Z * option errno * stdio * W :=
  let st := default_out st in
  let '(c, w) := ios_sessionCancelRequested w in
  if c then (EOF, Some EINTR, st, w)
  else
    let o := default (stdout st) (thread_stdout st) in
    let '(returnValue, w) := fputs o w in
    let '(_, w) := fputc_newline o w in (returnValue, None, st, w).

Definition ios_fflush (fflush : libc_call Z) (st : stdio) (stream : option FILE) (w : W) :
    outcome (Z * stdio * W) :=
  match stream with
  | None => Ret (0, st, w)
  | Some f =>
      let st := default_err (default_out st) in
      target ← route st f;
      let '(v, w) := fflush target w in Ret (v, st, w)
  end.

Definition ios_write (st : stdio) (fildes : Z) (buf : list Z) (w : W) : sysret * stdio * W :=
  let '(c, w) := ios_sessionCancelRequested w in
  if c && (bool_decide (fildes = STDOUT_FILENO) ||
           match thread_stdout st with Some o => bool_decide (fildes = fileno o) | None => false end)
  then (SErr EINTR, st, w)
  else
    let st := default_err (default_out st) in
    let target :=
      if bool_decide (fildes = STDOUT_FILENO) then fileno (default (stdout st) (thread_stdout st))
      else if bool_decide (fildes = STDERR_FILENO) then fileno (default (stderr st) (thread_stderr st))
      else fildes in
    let '(r, w) := sys_write target buf w in (r, st, w).

(** ** Input *)

Fixpoint read_loop (fuel : nat) (effective_fd nbyte : Z) (is_nonblocking : bool) (w : W) :
    option (sysret * W) :=
  match fuel with
  | O => None
  | S fuel =>
      let '(r, w) := sys_read effective_fd nbyte w in
      match r with
      | SErr e =>
          if bool_decide (e = EINTR) then
            let '(c, w) := ios_sessionCancelRequested w in
            if c then Some (SErr e, w)
            else if is_nonblocking then read_loop fuel effective_fd nbyte is_nonblocking w
            else
              match ios_wait_for_fd_or_cancel fuel effective_fd POLLIN (-1) w with
              | Some (SOk _, w) => read_loop fuel effective_fd nbyte is_nonblocking w
              | other => other
              end
          else Some (SErr e, w)
      | SOk n => Some (SOk n, w)
      end
  end.

Definition read_fd (st : stdio) (fildes : Z) : Z :=
  if bool_decide (fildes = STDIN_FILENO) then fileno (default (stdin st) (thread_stdin st)) else fildes.

Definition ios_read (fuel : nat) (st : stdio) (fildes nbyte : Z) (w : W) : option (sysret * stdio * W) :=
  let st := default_in st in
  let effective_fd := read_fd st fildes in
  let '(c, w) := ios_sessionCancelRequested w in
  if c then Some (SErr EINTR, st, w)
  else
    let '(flags, w) := sys_getfl effective_fd w in
    let is_nonblocking := match flags with SOk n => bool_decide (Z.land n O_NONBLOCK ≠ 0) | SErr _ => false end in
    '(r, w) ← (if is_nonblocking then read_loop fuel effective_fd nbyte true w
               else
                 match ios_wait_for_fd_or_cancel fuel effective_fd POLLIN (-1) w with
                 | Some (SOk _, w) => read_loop fuel effective_fd nbyte false w
                 | other => other
                 end);
    Some (r, st, w).

(** The shape shared by [ios_fread], [ios_fgetc] and [ios_fgets]: [waits]
    tells whether the call waits for the descriptor first. *)
Definition stdio_read {A} (fuel : nat) (waits : FILE → bool) (fail : A) (op : libc_call A)
    (stream : option FILE) (w : W) : option (A * option errno * W) :=
  match stream with
  | None => Some (fail, Some EINVAL, w)
  | Some f =>
      let '(c, w) := ios_sessionCancelRequested w in
      if c then Some (fail, Some EINTR, w)
      else if waits f then
        '(r, w) ← ios_wait_for_fd_or_cancel fuel (fileno f) POLLIN (-1) w;
        match r with
        | SErr e => Some (fail, Some e, w)
        | SOk _ => let '(v, w) := op f w in Some (v, None, w)
        end
      else let '(v, w) := op f w in Some (v, None, w)
  end.

Definition fread_requested (size nitems : Z) : Z :=
  if bool_decide (size ≠ 0) && bool_decide (nitems > SIZE_MAX `div` size) then SIZE_MAX
  else wrapU 64 (size * nitems).

Definition ios_fread (fuel : nat) (fread : libc_call Z) (size nitems : Z) :=
  stdio_read fuel (λ f, bool_decide (ios_stream_buffered_input (Some f) < fread_requested size nitems)) 0 fread.

Definition ios_fgetc (fuel : nat) (fgetc : libc_call Z) :=
  stdio_read fuel (λ f, bool_decide (ios_stream_buffered_input (Some f) = 0)) EOF fgetc.

Definition ios_fgets (fuel : nat) (fgets : libc_call (option (list Z))) (size : Z) :=
  stdio_read fuel (λ f, negb (ios_fgets_satisfied_by_buffer f size)) None fgets.

(** [scanf] flushes the output and always waits. *)
Definition scanf (fuel : nat) (fflush vfscanf : libc_call Z) (st : stdio) (w : W) :
    option (Z * option errno * stdio * W) :=
  let st := default_in (default_out (default_err st)) in
  let '(_, w) := fflush (default (stdout st) (thread_stdout st)) w in
  let '(_, w) := fflush (default (stderr st) (thread_stderr st)) w in
  let input := default (stdin st) (thread_stdin st) in
  '(r, w) ← ios_wait_for_fd_or_cancel fuel (fileno input) POLLIN (-1) w;
  match r with
  | SErr e => Some (EOF, Some e, st, w)
  | SOk _ => let '(v, w) := vfscanf input w in Some (v, None, st, w)
  end.

End operations.

(** ** Polling *)

Lemma count_ready_snoc revs v : count_ready (revs ++ [v]) = count_ready revs + (if bool_decide (v ≠ 0) then 1 else 0).
Proof.
  unfold count_ready, zlen. rewrite list.filter_app, length_app.
  rewrite list.filter_cons, list.filter_nil. repeat case_decide; case_bool_decide; simpl; try done; lia.
Qed.

Lemma reportable_length fds revs : Forall2 reportable fds revs → length revs = length fds.
Proof. intros H. symmetry. by eapply Forall2_length. Qed.

Lemma revents_set fds revs : length revs = length fds → revents <$> zip_with set_revents fds revs = revs.
Proof.
  revert revs. induction fds as [|p fds IH]; intros [|v revs] Hl; simplify_eq/=; [done|].
  f_equal. by apply IH.
Qed.

Definition watched (p : pollfd) : Z * Z := (fd p, events p).

Lemma watched_set fds revs : (length fds ≤ length revs)%nat → watched <$> zip_with set_revents fds revs = watched <$> fds.
Proof.
  revert revs. induction fds as [|p fds IH]; intros [|v revs] Hl; simplify_eq/=; [done|done|lia|].
  f_equal. apply IH. lia.
Qed.

(** The entries of the caller in the copy that also watches the cancellation. *)
Lemma reportable_extended fds c revs :
  Forall2 reportable (((λ p, set_revents p 0) <$> fds) ++ [c]) revs →
  ∃ mine v, revs = mine ++ [v] ∧ Forall2 reportable fds mine.
Proof.
  intros Hx. apply list.Forall2_app_inv_l in Hx as (mine & rest & Hm & Hr & ->).
  apply list.Forall2_cons_inv_l in Hr as (v & k & _ & Hk & ->). apply list.Forall2_nil_inv_l in Hk as ->.
  exists mine, v. split; [done|]. exact (proj1 (list.Forall2_fmap_l _ _ _ _) Hm).
Qed.

(** The result of a call in a session that is not cancelled. *)
Ltac answered := do 3 eexists; split; [done|split; [|done]].

Section polling.
Context {W : Type} `{KernelLaws W}.

(** The contract of [poll] for the entries of the caller. *)
Definition poll_contract (fds : list pollfd) (r : sysret) (fds' : list pollfd) : Prop :=
  watched <$> fds' = watched <$> fds ∧ poll_post fds r (revents <$> fds').

(** What the operating system is asked when the descriptor [c] of a cancellation
    is watched, and what becomes of its answer: the events of the caller's entries
    are [mine], that of the cancellation is [v]. *)
Definition watches_cancel (fds : list pollfd) (c timeout : Z) (w3 : W) (r : sysret) (fds' : list pollfd) (w' : W) : Prop :=
  ∃ answer mine v,
    sys_poll (((λ p, set_revents p 0) <$> fds) ++ [cancel_pollfd c]) timeout w3 = (answer, mine ++ [v], w') ∧
    length mine = length fds ∧
    match answer with
    | SErr e => r = SErr e ∧ fds' = fds
    | SOk n =>
        (n = 0 → r = SOk 0 ∧ fds' = fds) ∧
        (n ≠ 0 → v ≠ 0 → r = SErr EINTR ∧ fds' = fds) ∧
        (n ≠ 0 → v = 0 → r = SOk (count_ready mine) ∧ fds' = zip_with set_revents fds mine ∧ poll_contract fds r fds')
    end.

Lemma poll_direct fds timeout w : let '(r, revs, _) := sys_poll fds timeout w in
  poll_contract fds r (zip_with set_revents fds revs).
Proof.
  pose proof (poll_law fds timeout w) as Hlaw. destruct (sys_poll _ _ _) as [[r revs] w'].
  assert (length revs = length fds) as Hl.
  { destruct r; simpl in Hlaw; [by apply reportable_length, Hlaw|]. by rewrite Hlaw, length_fmap. }
  split; [apply watched_set; lia|]. by rewrite revents_set.
Qed.

Lemma poll_extended fds c timeout w3 :
  let '(answer, revs, w') := sys_poll (((λ p, set_revents p 0) <$> fds) ++ [cancel_pollfd c]) timeout w3 in
  let '(r, fds') :=
    match answer with
    | SErr e => (SErr e, fds)
    | SOk n => if bool_decide (n = 0) then (SOk 0, fds)
               else if bool_decide (revs !!! length fds ≠ 0) then (SErr EINTR, fds)
               else (SOk n, zip_with set_revents fds revs)
    end in
  watches_cancel fds c timeout w3 r fds' w'.
Proof.
  pose proof (poll_law (((λ p, set_revents p 0) <$> fds) ++ [cancel_pollfd c]) timeout w3) as Hlaw.
  unfold watches_cancel. destruct (sys_poll _ _ _) as [[[n|e] revs] w'].
  - destruct Hlaw as [(mine & v & -> & Hm)%reportable_extended ->].
    pose proof (reportable_length _ _ Hm) as Hl. rewrite <- Hl, lookup_total_app_r, Nat.sub_diag by done. cbn.
    assert (zip_with set_revents fds (mine ++ [v]) = zip_with set_revents fds mine) as ->.
    { rewrite <- (app_nil_r fds) at 1. rewrite zip_with_app by done. simpl. by rewrite app_nil_r. }
    rewrite count_ready_snoc. destruct (bool_decide (v ≠ 0)) eqn:Hv.
    + apply bool_decide_eq_true in Hv. pose proof (Zle_0_nat (length (filter (λ v, v ≠ 0) mine))).
      rewrite bool_decide_eq_false_2 by (unfold count_ready, zlen; lia).
      eexists _, mine, v. split; [done|]. split; [done|]. split_and!; [unfold count_ready, zlen in *; lia|done|done].
    + apply bool_decide_eq_false, dec_stable in Hv. rewrite Z.add_0_r. case_bool_decide as Hz.
      * eexists _, mine, v. by split_and!.
      * eexists _, mine, v. split; [done|]. split; [done|]. split_and!; [done|done|]. intros _ _. split_and!; [done..|].
        split; [apply watched_set; lia|]. rewrite revents_set by done. done.
  - cbn in Hlaw. subst revs. rewrite fmap_app. eexists _, _, _. split; [done|]. split; [by rewrite !length_fmap|done].
Qed.

(** C32: [ios_poll] on an array of fewer than 2^32 - 1 entries is defined.  In a
    session that is cancelled it answers [EINTR] and asks nobody.  Without a
    descriptor for the cancellation it is [poll].  With one, unless there is no
    memory for the copy of more than 64 entries, it asks the operating system
    once, about the caller's entries and that descriptor: an error is passed on;
    a time-out is answered 0; an event of the descriptor is answered [EINTR], in
    these cases with the array as it was; otherwise the array gets the events
    and the value counts the caller's entries that have one, so that the contract
    of [poll] holds for the caller. *)
Theorem ios_poll_spec fds timeout w : zlen fds < 2 ^ 32 - 1 →
  ∃ r fds' w', ios_poll fds (zlen fds) timeout w = Ret (r, fds', w') ∧
    let '(cancelled, w1) := ios_sessionCancelRequested w in
    let '(c, w2) := ios_sessionCancelFD w1 in
    (cancelled = true → r = SErr EINTR ∧ fds' = fds ∧ w' = w1) ∧
    (cancelled = false → c < 0 → poll_contract fds r fds' ∧
       let '(answer, revs, w3) := sys_poll fds timeout w2 in r = answer ∧ fds' = zip_with set_revents fds revs ∧ w' = w3) ∧
    (cancelled = false → 0 ≤ c →
       let '(allocated, w3) := if bool_decide (zlen fds ≤ 64) then (true, w2) else sys_malloc ((zlen fds + 1) * sizeof_pollfd) w2 in
       if allocated : bool then watches_cancel fds c timeout w3 r fds' w' else r = SErr ENOMEM ∧ fds' = fds).
Proof.
  intros Hlen. unfold ios_poll.
  destruct (ios_sessionCancelRequested w) as [cancelled w1]. destruct (ios_sessionCancelFD w1) as [c w2].
  destruct cancelled; [by eexists _, _, _; split|]. rewrite bool_decide_eq_false_2 by lia.
  assert (ztake (zlen fds) fds = fds) as -> by (unfold ztake, zlen; rewrite Nat2Z.id; by rewrite take_ge).
  assert (zdrop (zlen fds) fds = []) as -> by (unfold zdrop, zlen; rewrite Nat2Z.id; by rewrite drop_ge).
  case_bool_decide as Hc.
  { pose proof (poll_direct fds timeout w2) as Hp. destruct (sys_poll _ _ _) as [[r revs] w3].
    rewrite app_nil_r. eexists _, _, _. split; [done|]. split_and!; [done|done|lia]. }
  assert ((if bool_decide (zlen fds + 1 > stack_fds) then
      if bool_decide (zlen fds + 1 > SIZE_MAX `quot` sizeof_pollfd) then (true, w2)
      else let '(ok, w) := sys_malloc ((zlen fds + 1) * sizeof_pollfd) w2 in (negb ok, w)
    else (false, w2)) =
    (let '(allocated, w3) := if bool_decide (zlen fds ≤ 64) then (true, w2)
       else sys_malloc ((zlen fds + 1) * sizeof_pollfd) w2 in (negb allocated, w3))) as ->.
  { change stack_fds with 65. destruct (decide (zlen fds ≤ 64)).
    - by rewrite bool_decide_eq_false_2, bool_decide_eq_true_2 by lia.
    - rewrite bool_decide_eq_true_2, (bool_decide_eq_false_2 (zlen fds ≤ 64)) by lia.
      rewrite bool_decide_eq_false_2; [done|]. change (SIZE_MAX `quot` sizeof_pollfd) with 2305843009213693951. lia. }
  destruct (if bool_decide (zlen fds ≤ 64) then (true, w2) else _) as [[] w3]; cbn [negb];
    [|by eexists _, _, _; split; [done|]; split_and!].
  rewrite wrapU_small by (unfold zlen in *; lia).
  assert (ztake (zlen fds + 1) (((λ p, set_revents p 0) <$> fds) ++ [cancel_pollfd c]) =
    ((λ p, set_revents p 0) <$> fds) ++ [cancel_pollfd c]) as ->.
  { apply take_ge. rewrite length_app, length_fmap. unfold zlen. simpl. lia. }
  pose proof (poll_extended fds c timeout w3) as Hp. replace (Z.to_nat (zlen fds)) with (length fds) by (unfold zlen; lia).
  destruct (sys_poll _ _ _) as [[[n|e] revs] w4]; [|by eexists _, _, _].
  destruct (bool_decide (n = 0)); [by eexists _, _, _|].
  destruct (bool_decide (revs !!! length fds ≠ 0)); [by eexists _, _, _|].
  rewrite app_nil_r. by eexists _, _, _.
Qed.

End polling.

(** ** Selecting *)

Section selecting.
Context {W : Type} `{KernelLaws W}.

(** The members of a set are below the number the caller passes. *)
Definition below (nfds : Z) (s : fd_set) : Prop := ∀ x, x ∈ s → x < nfds.

Lemma shrinks_below nfds nfds' s s' : shrinks nfds' s s' → below nfds (fds_of s) → shrinks nfds s s'.
Proof.
  intros (? & Hsub & Hb) Hnfds. split_and!; [done..|]. intros x Hx.
  split; [by apply Hb|]. apply Hnfds. by apply Hsub.
Qed.

(** What the caller gets back of the set that also watches the cancellation. *)
Lemma shrinks_cancel nfds nfds' c (R : fd_set) r' :
  shrinks nfds' (Some ({[ c ]} ∪ R)) r' → c ∉ fds_of r' → below nfds R →
  fds_of r' ⊆ R ∧ ∀ x, x ∈ fds_of r' → 0 ≤ x < nfds.
Proof.
  intros (_ & Hsub & Hb) Hc Hnfds. simpl in Hsub.
  assert (fds_of r' ⊆ R) as HR by set_solver. split; [done|].
  intros x Hx. split; [by apply Hb|]. apply Hnfds. by apply HR.
Qed.

Definition ios_select_post (nfds : Z) (s : fd_sets) (r : sysret) (s' : fd_sets) : Prop :=
  match r with
  | SOk n => select_post nfds s r s' ∨
             n = 0 ∧ readfds s' = readfds s ∧ fds_of (writefds s') = ∅ ∧ fds_of (errorfds s') = ∅
  | SErr _ => readfds s' = readfds s
  end.

Definition watched_readfds (c : Z) (s : fd_sets) : fd_sets :=
  Sets (Some ({[ c ]} ∪ fds_of (readfds s))) (writefds s) (errorfds s).

Lemma select_expired nfds c s s' : select_post nfds (watched_readfds c s) (SOk 0) s' →
  fds_of (writefds s') = ∅ ∧ fds_of (errorfds s') = ∅.
Proof.
  intros (_ & _ & _ & Hn). unfold num_fds in Hn.
  split; apply leibniz_equiv, size_empty_inv; lia.
Qed.

Lemma select_extended nfds nfds' c s n s' :
  select_post nfds' (watched_readfds c s) (SOk n) s' → c ∉ fds_of (readfds s') →
  below nfds (fds_of (readfds s)) → below nfds (fds_of (writefds s)) → below nfds (fds_of (errorfds s)) →
  select_post nfds s (SOk n)
    (Sets (match readfds s with
           | Some _ => Some (if bool_decide (c ∈ fds_of (readfds s)) then fds_of (readfds s')
                             else fds_of (readfds s') ∖ {[ c ]})
           | None => None
           end) (writefds s') (errorfds s')).
Proof.
  intros (Hr & Hw & He & ->) Hc Hbr Hbw Hbe.
  destruct (shrinks_cancel nfds nfds' c _ _ Hr Hc Hbr) as [Hsub Hlt].
  assert (fds_of (readfds s') ∖ {[ c ]} = fds_of (readfds s')) as -> by set_solver.
  set (mine := match readfds s with Some _ => _ | None => _ end).
  assert ((is_Some (readfds s) ↔ is_Some mine) ∧ fds_of mine = fds_of (readfds s')) as [Hsome Hmine].
  { unfold mine. destruct (readfds s) as [R|]; simpl in *; [|set_solver].
    split; [split; eauto|]. by case_bool_decide. }
  split_and!; simpl; [|by eapply shrinks_below|by eapply shrinks_below|].
  - unfold shrinks. by rewrite Hmine.
  - unfold num_fds. simpl. by rewrite Hmine.
Qed.

(** For sets whose members are below [nfds], [ios_select] keeps the contract of
    [select] whatever the operating system answers: the sets shrink to ready
    descriptors below [nfds], the value counts them, and the descriptor of the
    cancellation is not among them even when it is above [nfds].  The one
    exception is a time-out, where the read set is not cleared.  An error
    leaves the read set alone, and a session that is already cancelled is
    answered with [EINTR] without a system call. *)
Theorem ios_select_spec nfds s w :
  below nfds (fds_of (readfds s)) → below nfds (fds_of (writefds s)) → below nfds (fds_of (errorfds s)) →
  let '(r, s', w') := ios_select nfds s w in
  ios_select_post nfds s r s' ∧
  (fst (ios_sessionCancelRequested w) = true → r = SErr EINTR ∧ s' = s ∧ w' = snd (ios_sessionCancelRequested w)).
Proof.
  intros Hbr Hbw Hbe. unfold ios_select.
  destruct (ios_sessionCancelRequested w) as [[] w1]; [done|]. simpl.
  destruct (ios_sessionCancelFD w1) as [c w2].
  destruct (_ || _).
  { pose proof (select_law nfds s w2) as Hl. destruct (sys_select nfds s w2) as [[[n|e] s'] w3].
    - split; [|done]. by left.
    - split; [|done]. simpl in *. by subst. }
  set (nfds' := if bool_decide (c >= nfds) then c + 1 else nfds). change (Sets (Some _) _ _) with (watched_readfds c s).
  pose proof (select_law nfds' (watched_readfds c s) w2) as Hl.
  destruct (sys_select _ _ _) as [[[n|e] s'] w3]; [|done].
  case_bool_decide as Hz; [|case_bool_decide as Hc; [done|]]; (split; [|done]).
  - subst n. right. destruct (select_expired _ _ _ _ Hl) as [? ?]. done.
  - left. by eapply select_extended.
Qed.

End selecting.

(** ** Waiting and reading *)

(** A call is interrupted only by a signal, and finitely many signals arrive
    while the session waits. *)
Class FiniteSignals (W : Type) `{Kernel W} := {
  signals : W → nat;
  signals_session w : (signals (snd (currentSession w)) ≤ signals w)%nat;
  signals_getfl x w : (signals (snd (sys_getfl x w)) ≤ signals w)%nat;
  signals_poll fds t w : let '(r, _, w') := sys_poll fds t w in
    (signals w' ≤ signals w)%nat ∧ (r = SErr EINTR → (signals w' < signals w)%nat);
  signals_read x n w : let '(r, w') := sys_read x n w in
    (signals w' ≤ signals w)%nat ∧ (r = SErr EINTR → (signals w' < signals w)%nat) }.

(** The result of a call that fails. *)
Ltac refused := do 2 eexists; split_and!; [done|lia|by intros].

Section waiting.
Context {W : Type} `{KernelLaws W} `{!FiniteSignals W}.

Lemma signals_requested w : (signals (snd (ios_sessionCancelRequested w)) ≤ signals w)%nat.
Proof. unfold ios_sessionCancelRequested. pose proof (signals_session w). by destruct (currentSession w). Qed.

Lemma signals_fd w : (signals (snd (ios_sessionCancelFD w)) ≤ signals w)%nat.
Proof. unfold ios_sessionCancelFD. pose proof (signals_session w). by destruct (currentSession w). Qed.

Lemma set_revents_unchanged fds : zip_with set_revents fds (revents <$> fds) = fds.
Proof. induction fds as [|[] fds IH]; simpl; [done|]. by f_equal. Qed.

(** The last [poll] found no event, or an event of the descriptor [x] itself,
    which is open, and no cancellation. *)
Definition ready_or_expired (x ev cancel_fd t : Z) (w' : W) : Prop :=
  ∃ wk n revs, sys_poll (wait_fds x ev cancel_fd) t wk = (SOk n, revs, w') ∧
    (revs = [0; 0] ∨ ∃ v, revs = [v; 0] ∧ v ≠ 0 ∧ Z.land v POLLNVAL = 0).

Lemma count_ready_zero revs : count_ready revs = 0 → Forall (λ v, v = 0) revs.
Proof.
  unfold count_ready, zlen. induction revs as [|v revs IH]; [done|].
  rewrite list.filter_cons. case_decide; simpl; intros; [lia|]. apply Forall_cons_2; [lia|by apply IH].
Qed.

Lemma poll_answer x ev c t w n revs w' :
  sys_poll (wait_fds x ev c) t w = (SOk n, revs, w') → ∃ v v', revs = [v; v'] ∧ n = count_ready [v; v'].
Proof.
  intros Hp. pose proof (poll_law (wait_fds x ev c) t w) as Hl. rewrite Hp in Hl.
  destruct Hl as [Hr ->]. apply reportable_length in Hr. destruct revs as [|v [|v' [|]]]; try done. eauto.
Qed.

Lemma wait_loop_ok fuel x ev c t w : (signals w < fuel)%nat →
  ∃ r w', wait_loop fuel (wait_fds x ev c) t w = Some (r, w') ∧ (signals w' ≤ signals w)%nat ∧
    ∀ n, r = SOk n → ready_or_expired x ev c t w'.
Proof.
  revert w. induction fuel as [|fuel IH]; intros w Hf; [lia|]. cbn [wait_loop].
  pose proof (signals_poll (wait_fds x ev c) t w) as Hs. pose proof (poll_law (wait_fds x ev c) t w) as Hl.
  destruct (sys_poll _ _ _) as [[[n|e] revs] w1] eqn:Ep; destruct Hs as [Hs1 Hs2].
  - destruct (poll_answer _ _ _ _ _ _ _ _ Ep) as (v & v' & -> & Hn). clear Hl.
    case_bool_decide as Hz; [|case_bool_decide as Hc; [refused|case_bool_decide; [refused|]]].
    + do 2 eexists. split; [done|]. split; [done|]. intros ? _. exists w, n, [v; v']. split; [done|]. left.
      rewrite Hz in Hn. symmetry in Hn. apply count_ready_zero in Hn.
      apply Forall_cons_1 in Hn as [-> [-> _]%Forall_cons_1]. done.
    + do 2 eexists. split; [done|]. split; [done|]. intros ? _. exists w, n, [v; v']. split; [done|]. right.
      exists v. simpl in *. destruct (decide (v' = 0)) as [->|]; [|by destruct Hc].
      split_and!; [done| |lia]. intros ->. by apply Hz.
  - simpl in Hl. subst revs. rewrite set_revents_unchanged.
    case_bool_decide as He; [|refused].
    subst e. specialize (Hs2 eq_refl). pose proof (signals_requested w1) as Hs3.
    destruct (ios_sessionCancelRequested w1) as [[] w2]; simpl in Hs3.
    + refused.
    + destruct (IH w2) as (r & w' & ? & ? & ?); [lia|]. exists r, w'. split_and!; [done|lia|done].
Qed.

Lemma wait_ok fuel x ev t w : (signals w < fuel)%nat →
  ∃ r w', ios_wait_for_fd_or_cancel fuel x ev t w = Some (r, w') ∧ (signals w' ≤ signals w)%nat ∧
    ∀ n, r = SOk n → 0 ≤ x ∧ fst (ios_sessionCancelRequested w) = false ∧
      let c := fst (ios_sessionCancelFD (snd (ios_sessionCancelRequested w))) in
      (c < 0 ∨ c = x ∨ ready_or_expired x ev c t w').
Proof.
  intros Hf. unfold ios_wait_for_fd_or_cancel. case_bool_decide; [refused|].
  pose proof (signals_requested w). destruct (ios_sessionCancelRequested w) as [[] w1]; simpl in *; [refused|].
  pose proof (signals_fd w1). destruct (ios_sessionCancelFD w1) as [c w2]; simpl in *.
  destruct (bool_decide (c < 0) || bool_decide (c = x)) eqn:Ec.
  - do 2 eexists. split_and!; [done|lia|]. intros n _. apply orb_true_iff in Ec. rewrite !bool_decide_eq_true in Ec.
    split_and!; [lia|done|]. naive_solver.
  - destruct (wait_loop_ok fuel x ev c t w2) as (r & w' & ? & ? & Hr); [lia|].
    exists r, w'. split_and!; [done|lia|]. intros n ->. split_and!; [lia|done|]. eauto.
Qed.

(** The wait for a descriptor ends after at most one round per signal.  It
    succeeds only for a descriptor that is not negative in a session not
    cancelled at the call, and when the session can be cancelled only after
    a [poll] without any event (the time-out) or one that reports an event
    of an open descriptor and no cancellation. *)
Theorem wait_for_fd_spec fuel x ev t w : (signals w < fuel)%nat →
  ∃ r w', ios_wait_for_fd_or_cancel fuel x ev t w = Some (r, w') ∧
    ∀ n, r = SOk n → 0 ≤ x ∧ fst (ios_sessionCancelRequested w) = false ∧
      let c := fst (ios_sessionCancelFD (snd (ios_sessionCancelRequested w))) in
      (c < 0 ∨ c = x ∨ ready_or_expired x ev c t w').
Proof. intros Hf. destruct (wait_ok fuel x ev t w Hf) as (r & w' & ? & _ & ?). eauto. Qed.

(** A value that is not an error comes from a [read] of that descriptor, the
    last system call. *)
Definition read_from (x nbyte : Z) (r : sysret) (w' : W) : Prop :=
  ∀ n, r = SOk n → ∃ wk, sys_read x nbyte wk = (SOk n, w').

Lemma read_loop_ok fuel x nbyte nb w : (signals w < fuel)%nat →
  ∃ r w', read_loop fuel x nbyte nb w = Some (r, w') ∧ read_from x nbyte r w'.
Proof.
  revert w. induction fuel as [|fuel IH]; intros w Hf; [lia|]. cbn [read_loop].
  pose proof (signals_read x nbyte w) as Hs.
  destruct (sys_read x nbyte w) as [[n|e] w1] eqn:Er; destruct Hs as [Hs1 Hs2].
  - do 2 eexists. split; [done|]. intros n' [= <-]. by exists w.
  - case_bool_decide as He; [|do 2 eexists; split; [done|]; by intros ? ?]. subst e.
    specialize (Hs2 eq_refl). pose proof (signals_requested w1) as Hs3.
    destruct (ios_sessionCancelRequested w1) as [[] w2]; simpl in Hs3; [do 2 eexists; split; [done|]; by intros ? ?|].
    destruct nb; [apply IH; lia|].
    destruct (wait_ok fuel x POLLIN (-1) w2) as ([n|e] & w3 & -> & ? & _); [lia| |].
    + apply IH. lia.
    + do 2 eexists. split; [done|]. by intros ? ?.
Qed.

(** [ios_read] returns after finitely many signals; what it delivers was read
    from the input stream of the thread when the descriptor is the standard
    input, from the given descriptor otherwise, and nothing is read in a
    session that is already cancelled: the answer is [EINTR]. *)
Theorem ios_read_spec fuel st fildes nbyte w : (signals w < fuel)%nat →
  ∃ r w', ios_read fuel st fildes nbyte w = Some (r, default_in st, w') ∧
    read_from (read_fd (default_in st) fildes) nbyte r w' ∧
    (fst (ios_sessionCancelRequested w) = true → r = SErr EINTR ∧ w' = snd (ios_sessionCancelRequested w)).
Proof.
  intros Hf. unfold ios_read. set (x := read_fd _ _). pose proof (signals_requested w) as Hs.
  destruct (ios_sessionCancelRequested w) as [[] w1]; simpl in *.
  { do 2 eexists. split_and!; [done| |done]. by intros ? ?. }
  pose proof (signals_getfl x w1) as Hs2. destruct (sys_getfl x w1) as [flags w2]. simpl in Hs2.
  destruct (match flags with SOk _ => _ | SErr _ => _ end).
  - destruct (read_loop_ok fuel x nbyte true w2) as (r & w' & -> & ?); [lia|]. do 2 eexists. split_and!; [done|done|by intros].
  - destruct (wait_ok fuel x POLLIN (-1) w2) as ([n|e] & w3 & -> & ? & _); [lia| |].
    + destruct (read_loop_ok fuel x nbyte false w3) as (r & w' & -> & ?); [lia|]. do 2 eexists. split_and!; [done|done|by intros].
    + do 2 eexists. split_and!; [done| |done]. by intros ? ?.
Qed.

End waiting.

(** ** Buffered input *)

(** What [fgets] delivers from the buffer alone: [n] characters, or fewer up
    to a newline; [None] when it has to refill the buffer first. *)
Fixpoint fgets_buffer (n : nat) (buf : list Z) : option (list Z) :=
  match n with
  | O => Some []
  | S n =>
      match buf with
      | [] => None
      | c :: buf => if bool_decide (c = newline) then Some [c] else (c ::.) <$> fgets_buffer n buf
      end
  end.

Lemma fgets_buffer_some n buf : is_Some (fgets_buffer n buf) ↔ (n ≤ length buf)%nat ∨ newline ∈ take n buf.
Proof.
  revert buf. induction n as [|n IH]; intros buf; simpl; [split; [left; lia|by eauto]|].
  destruct buf as [|c buf]; simpl.
  { split; [by intros []|]. intros [?|Hin]; [lia|]. by apply not_elem_of_nil in Hin. }
  rewrite elem_of_cons. case_bool_decide as Hc.
  - split; [|by eauto]. intros _. right. by left.
  - rewrite fmap_is_Some, IH. split; [intros [?|?]; [left; lia|right; by right]|].
    intros [?|[?|?]]; [left; lia|congruence|by right].
Qed.

(** A stream is well formed when its buffer holds the counted characters. *)
Definition stream_ok (f : FILE) : Prop := _r f ≤ zlen (_p f) ∧ _r f ≤ INT_MAX.
Definition buffer (f : FILE) : list Z := ztake (ios_stream_buffered_input (Some f)) (_p f).

Lemma buffered_length f : stream_ok f → zlen (buffer f) = ios_stream_buffered_input (Some f).
Proof.
  intros [? ?]. unfold buffer, ztake, zlen in *. simpl. rewrite length_take. case_bool_decide; lia.
Qed.

(** The test that lets [ios_fgets] skip the wait holds exactly when [fgets]
    can return from the buffer without touching the descriptor: a call never
    blocks inside [fgets], where a cancellation would not reach it, and never
    waits for input it already has. *)
Theorem fgets_satisfied_spec f size : stream_ok f →
  ios_fgets_satisfied_by_buffer f size = true ↔ is_Some (fgets_buffer (Z.to_nat (size - 1)) (buffer f)).
Proof.
  intros Hok. pose proof (buffered_length f Hok) as Hl. rewrite fgets_buffer_some.
  unfold ios_fgets_satisfied_by_buffer. fold (buffer f). unfold zlen in Hl.
  case_bool_decide; [split; [left; lia|done]|].
  case_bool_decide; [split; [left; lia|done]|].
  case_bool_decide as Hz.
  - rewrite Hz in Hl. destruct (buffer f); [|done]. rewrite take_nil, elem_of_nil.
    split; [done|]. intros [?|[]]. simpl in *. lia.
  - rewrite bool_decide_eq_true, take_ge by lia. split; [by right|]. intros [?|?]; [lia|done].
Qed.

(** The product [size * nitems] of [fread] saturates instead of wrapping:
    [ios_fread] waits exactly when the buffer has fewer bytes than requested. *)
Theorem fread_requested_spec f size nitems : stream_ok f → 0 ≤ size ≤ SIZE_MAX → 0 ≤ nitems ≤ SIZE_MAX →
  ios_stream_buffered_input (Some f) < fread_requested size nitems ↔
  ios_stream_buffered_input (Some f) < size * nitems.
Proof.
  intros [_ Hr] Hs Hn. assert (ios_stream_buffered_input (Some f) < SIZE_MAX) as Hb.
  { unfold INT_MAX, SIZE_MAX in *. simpl. case_bool_decide; lia. }
  set (b := ios_stream_buffered_input (Some f)) in *. clearbody b.
  unfold fread_requested. destruct (decide (size = 0)) as [->|Hnz]; [done|].
  rewrite (bool_decide_eq_true_2 (size ≠ 0)) by done. simpl. case_bool_decide as Hov.
  - assert (SIZE_MAX < size * nitems) as Hov'; [|split; intros _; lia].
    pose proof (Z.mul_succ_div_gt SIZE_MAX size) as Hd. nia.
  - rewrite wrapU_small; [done|]. change (2 ^ 64) with (SIZE_MAX + 1).
    pose proof (Z.mul_div_le SIZE_MAX size) as Hd. nia.
Qed.

(** ** Output *)

Section output.
Context {W : Type} `{Kernel W}.

(** Where output to a stream goes. *)
Definition destination (st : stdio) (f : FILE) : FILE :=
  if bool_decide (fileno f = STDOUT_FILENO) then default (stdout st) (thread_stdout st)
  else if bool_decide (fileno f = STDERR_FILENO) then default (stderr st) (thread_stderr st)
  else f.

(** The descriptor is the output of the session. *)
Definition session_output (st : stdio) (x : Z) : bool :=
  bool_decide (x = STDOUT_FILENO) ||
  match thread_stdout st with Some o => bool_decide (x = fileno o) | None => false end.

Lemma route_defaults st f : route (default_err (default_out st)) f = Ret (destination st f).
Proof. unfold route, destination. simpl. by repeat case_bool_decide. Qed.

Lemma abort_output st f w :
  ios_should_abort_stdio_write st (Some f) w =
  (fst (ios_sessionCancelRequested w) && session_output st (fileno f), snd (ios_sessionCancelRequested w)).
Proof.
  unfold ios_should_abort_stdio_write. destruct (ios_sessionCancelRequested w) as [c w']. simpl.
  by rewrite (orb_comm (match thread_stdout st with Some _ => _ | None => _ end)).
Qed.

(** Output through [fwrite], [fputs], [fputc], [putw] ([fail] is the value of
    each on failure), [fprintf] and [write] all follow one rule: in a cancelled
    session what is meant for the output of the session is refused with
    [EINTR] before anything is written, and everything else, error messages
    included, is written by one call on the stream of the thread that replaces
    the standard stream, or on the stream itself. *)
Theorem output_routed fail (op : libc_call Z) st f buf w :
  let '(c, w1) := ios_sessionCancelRequested w in
  let st' := default_err (default_out st) in
  stdio_write fail op st (Some f) w =
    (if c && session_output st (fileno f) then Ret (fail, Some EINTR, st, w1)
     else let '(v, w2) := op (destination st f) w1 in Ret (v, None, st', w2)) ∧
  fprintf op st (Some f) w =
    (if c && session_output st' (fileno f) then Ret (-1, Some EINTR, st', w1)
     else let '(v, w2) := op (destination st f) w1 in Ret (v, None, st', w2)) ∧
  ios_write st (fileno f) buf w =
    (if c && session_output st (fileno f) then (SErr EINTR, st, w1)
     else let '(r, w2) := sys_write (fileno (destination st f)) buf w1 in (r, st', w2)).
Proof.
  pose proof (abort_output st f w) as Ha. pose proof (abort_output (default_out (default_err st)) f w) as Hf.
  unfold fprintf, stdio_write, ios_write. rewrite Ha, Hf, !route_defaults.
  destruct (ios_sessionCancelRequested w) as [c w1]. cbn [fst snd mbind outcome_bind].
  split_and!; [done|done|]. unfold destination, session_output. simpl.
  by repeat case_bool_decide.
Qed.

End output.

(** ** A concrete operating system

    Descriptors are ready or not for good, a number of signals is pending,
    each of which interrupts a call, and the session is cancelled or not from
    the start. *)

Record world := World {
  w_session : option session; w_signals : nat; w_ready : gset Z; w_output : list (Z * list Z) }.
Definition one_signal_less (w : world) : world :=
  World (w_session w) (w_signals w - 1) (w_ready w) (w_output w).
Definition interrupted (w : world) : bool := bool_decide (0 < w_signals w)%nat.
Definition ready_events (w : world) (p : pollfd) : Z :=
  if bool_decide (fd p ∈ w_ready w) then Z.land (events p) POLLIN else 0.
Definition ready_fds (w : world) (nfds : Z) (s : option fd_set) : option fd_set :=
  (λ s, filter (λ x, 0 ≤ x < nfds ∧ x ∈ w_ready w) s) <$> s.
Definition ready_sets (w : world) (nfds : Z) (s : fd_sets) : fd_sets :=
  Sets (ready_fds w nfds (readfds s)) (ready_fds w nfds (writefds s)) (ready_fds w nfds (errorfds s)).

Global Instance world_kernel : Kernel world := {
  currentSession w := (w_session w, w);
  sys_poll fds t w :=
    if interrupted w then (SErr EINTR, revents <$> fds, one_signal_less w)
    else (SOk (count_ready (ready_events w <$> fds)), ready_events w <$> fds, w);
  sys_select nfds s w :=
    if interrupted w then (SErr EINTR, s, one_signal_less w)
    else (SOk (num_fds (ready_sets w nfds s)), ready_sets w nfds s, w);
  sys_getfl x w := (SOk 0, w);
  sys_read x n w := if interrupted w then (SErr EINTR, one_signal_less w) else (SOk n, w);
  sys_write x buf w := (SOk (zlen buf), World (w_session w) (w_signals w) (w_ready w) (w_output w ++ [(x, buf)]));
  sys_malloc n w := (true, w) }.

Lemma ready_events_reportable w p : reportable p (ready_events w p).
Proof.
  unfold reportable, ready_events. case_bool_decide; [|done].
  apply Z.bits_inj'. intros n Hn. rewrite Z.ldiff_spec, Z.land_spec, Z.lor_spec, Z.bits_0.
  destruct (Z.testbit (events p) n); simpl; [by rewrite andb_false_r|done].
Qed.

Lemma ready_fds_shrinks w nfds s : shrinks nfds s (ready_fds w nfds s).
Proof. unfold ready_fds. destruct s as [s|]; simpl; unfold shrinks; simpl; set_solver. Qed.

Global Instance world_laws : KernelLaws world.
Proof.
  split; intros; simpl; destruct (interrupted w); simpl; auto using ready_fds_shrinks.
  split; [|done]. apply Forall2_fmap_r, Forall_Forall2_diag, Forall_true. apply ready_events_reportable.
Qed.

Lemma one_signal_less_signals w : interrupted w = true → (w_signals (one_signal_less w) < w_signals w)%nat.
Proof. unfold interrupted. rewrite bool_decide_eq_true. simpl. lia. Qed.

Global Instance world_signals : FiniteSignals world.
Proof.
  refine {| signals := w_signals |}; intros; simpl; try lia;
    destruct (interrupted w) eqn:Ei; simpl; try (split; [lia|done]);
    pose proof (one_signal_less_signals w Ei); simpl in *; split; lia.
Defined.

(** Descriptor 5 is readable, 6 is not, and the session of descriptor 9 is not
    cancelled. *)
Definition example_world : world := World (Some (Session false 9)) 2 {[ 5 ]} [].
Definition quiet_world : world := World (Some (Session false 9)) 0 {[ 5 ]} [].

Lemma ios_poll_spec_witness :
  ios_poll [Pollfd 5 POLLIN 0; Pollfd 6 POLLIN 77] 2 100 quiet_world =
    Ret (SOk 1, [Pollfd 5 POLLIN 1; Pollfd 6 POLLIN 0], quiet_world) ∧
  poll_contract [Pollfd 5 POLLIN 0; Pollfd 6 POLLIN 77] (SOk 1) [Pollfd 5 POLLIN 1; Pollfd 6 POLLIN 0].
Proof.
  assert (ios_poll [Pollfd 5 POLLIN 0; Pollfd 6 POLLIN 77] 2 100 quiet_world =
    Ret (SOk 1, [Pollfd 5 POLLIN 1; Pollfd 6 POLLIN 0], quiet_world)) as E by by vm_compute.
  split; [exact E|].
  destruct (ios_poll_spec [Pollfd 5 POLLIN 0; Pollfd 6 POLLIN 77] 100 quiet_world) as (r & fds' & w' & E' & _ & _ & H);
    [vm_compute; reflexivity|]. change (zlen _) with 2 in E'. rewrite E in E'. injection E' as <- <- <-.
  destruct (H eq_refl ltac:(done)) as (answer & mine & v & Ea & _ & Hm). cbn in Ea. injection Ea as <- Em.
  apply (app_inj_tail [1; 0] mine 0 v) in Em as [<- <-]. by apply Hm.
Defined.

Lemma ios_select_spec_witness :
  ios_select 7 (Sets (Some {[ 5; 6 ]}) None None) quiet_world = (SOk 1, Sets (Some {[ 5 ]}) None None, quiet_world) ∧
  ios_select_post 7 (Sets (Some {[ 5; 6 ]}) None None) (SOk 1) (Sets (Some {[ 5 ]}) None None).
Proof.
  assert (ios_select 7 (Sets (Some {[ 5; 6 ]}) None None) quiet_world =
    (SOk 1, Sets (Some {[ 5 ]}) None None, quiet_world)) as He by (vm_compute; reflexivity).
  split; [exact He|].
  pose proof (ios_select_spec 7 (Sets (Some {[ 5; 6 ]}) None None) quiet_world) as Hs. rewrite He in Hs.
  apply Hs; unfold below, fds_of; simpl; set_solver by lia.
Defined.

Lemma wait_for_fd_spec_witness :
  ∃ w', ios_wait_for_fd_or_cancel 3 5 POLLIN (-1) example_world = Some (SOk 0, w') ∧
    ready_or_expired 5 POLLIN 9 (-1) w'.
Proof.
  destruct (wait_for_fd_spec 3 5 POLLIN (-1) example_world) as (r & w' & He & Hr); [vm_compute; lia|].
  assert (r = SOk 0) as ->. { vm_compute in He. congruence. }
  exists w'. split; [exact He|]. destruct (Hr 0 eq_refl) as (_ & _ & Hc). cbn in Hc. destruct Hc as [?|[?|?]]; [lia|lia|done].
Defined.

Lemma ios_read_spec_witness :
  ∃ w', ios_read 3 (Stdio (File 0 0 []) (File 1 0 []) (File 2 0 []) (Some (File 5 0 [])) None None) 0 80 example_world =
    Some (SOk 80, Stdio (File 0 0 []) (File 1 0 []) (File 2 0 []) (Some (File 5 0 [])) None None, w') ∧
    ∃ wk, sys_read 5 80 wk = (SOk 80, w').
Proof.
  destruct (ios_read_spec 3 (Stdio (File 0 0 []) (File 1 0 []) (File 2 0 []) (Some (File 5 0 [])) None None) 0 80
    example_world) as (r & w' & He & Hr & _); [vm_compute; lia|].
  assert (r = SOk 80) as ->. { vm_compute in He. congruence. }
  exists w'. split; [exact He|]. apply (Hr 80 eq_refl).
Defined.

Lemma fgets_satisfied_spec_witness :
  ios_fgets_satisfied_by_buffer (File 5 3 [104; 105; 10; 99]) 80 = true ∧
  is_Some (fgets_buffer 79 [104; 105; 10]).
Proof.
  split; [vm_compute; reflexivity|].
  apply (fgets_satisfied_spec (File 5 3 [104; 105; 10; 99]) 80); [|vm_compute; reflexivity].
  split; vm_compute; discriminate.
Defined.

(** ** Time-outs

    Where [poll] and [select] clear the events and sets of the caller when the
    time runs out, the replacements return before they write them back. *)

Theorem poll_timeout_stale : ios_poll [Pollfd 6 POLLIN POLLIN] 1 100 quiet_world =
  Ret (SOk 0, [Pollfd 6 POLLIN POLLIN], quiet_world).
Proof. vm_compute. reflexivity. Qed.

Theorem select_timeout_stale : ios_select 7 (Sets (Some {[ 6 ]}) None None) quiet_world =
  (SOk 0, Sets (Some {[ 6 ]}) None None, quiet_world).
Proof. vm_compute. reflexivity. Qed.
