(* ===== verification/Warn.v ===== *)
(** * Error messages ([src/libc_replacement.c], [vwarn] to [warnc])

    The replacements of the functions of [<err.h>].  A [va_list] is either
    [Fresh] or [Consumed]: after [vfprintf] its value is indeterminate and
    using it again is undefined.  The text that reaches the error stream of the
    thread is a string; [ios_progname], [strerror] and the formatting of
    [vfprintf] are parameters. *)

From S2P Require Import Prelude CString.

Local Open Scope string_scope.

Section messages.
Context {arg : Type} (ios_progname : string) (strerror : Z → string) (format : string → list arg → string).

Inductive va_list : Type :=
  | Fresh (args : list arg)
  | Consumed.

Record printed := Printed {
  text : string;               (* what was written to [thread_stderr] *)
  errno_now : Z;
  exit_status : option Z }.    (* the argument of [ios_exit], once called *)

Definition fputs (s : string) (p : printed) : printed := Printed (text p +:+ s) (errno_now p) (exit_status p).
Definition ios_exit (eval : Z) (p : printed) : printed := Printed (text p) (errno_now p) (Some eval).
Definition newline_string : string := String (Ascii.ascii_of_nat 10) "".

Definition vfprintf (fmt : string) (va : va_list) (p : printed) : outcome (printed * va_list) :=
  match va with
  | Fresh args => Ret (fputs (format fmt args) p, Consumed)
  | Consumed => Undef Uninitialised
  end.

Definition vwarn (fmt : option string) (va : va_list) (p : printed) : outcome (printed * va_list) :=
  let p := fputs ios_progname p in
  '(p, va) ← match fmt with
             | Some fmt => vfprintf fmt va (fputs ": " p)
             | None => Ret (p, va)
             end;
  let p := fputs ": " p in
  let p := fputs (strerror (errno_now p)) p in
  Ret (fputs newline_string p, va).

Definition vwarnx (fmt : option string) (va : va_list) (p : printed) : outcome (printed * va_list) :=
  let p := fputs ": " (fputs ios_progname p) in
  '(p, va) ← match fmt with
             | Some fmt => vfprintf fmt va p
             | None => Ret (p, va)
             end;
  Ret (fputs newline_string p, va).

Definition warn (fmt : option string) (args : list arg) (p : printed) : outcome printed :=
  match fmt with
  | Some _ => '(p, _) ← vwarn fmt (Fresh args) p; Ret p
  | None => Ret p
  end.

Definition warnx (fmt : option string) (args : list arg) (p : printed) : outcome printed :=
  match fmt with
  | Some _ => '(p, _) ← vwarnx fmt (Fresh args) p; Ret p
  | None => Ret p
  end.

Definition err (eval : Z) (fmt : option string) (args : list arg) (p : printed) : outcome printed :=
  p ← warn fmt args p; Ret (ios_exit eval p).

Definition errx (eval : Z) (fmt : option string) (args : list arg) (p : printed) : outcome printed :=
  p ← warnx fmt args p; Ret (ios_exit eval p).

Definition errc (eval errorcode : Z) (fmt : option string) (args : list arg) (p : printed) : outcome printed :=
  p ← match fmt with
      | Some f =>
          let p := fputs ": " (fputs ios_progname p) in
          '(p, _) ← vfprintf f (Fresh args) p;
          Ret (fputs newline_string (fputs (strerror errorcode) (fputs ": " p)))
      | None => Ret p
      end;
  Ret (ios_exit eval p).

Definition warnc (code : Z) (fmt : option string) (args : list arg) (p : printed) : outcome printed :=
  let p := fputs ios_progname p in
  p ← match fmt with
      | Some f =>
          '(p, va) ← vfprintf f (Fresh args) (fputs ": " p);
          '(p, _) ← vwarn fmt va p;
          Ret p
      | None => Ret p
      end;
  Ret (fputs newline_string (fputs (strerror code) (fputs ": " p))).

(** The exiting forms print exactly what the warning forms print, and
    [err] is [errc] with the current [errno]. *)
Theorem err_is_errc (eval : Z) (fmt : option string) (args : list arg) (p : printed) :
  err eval fmt args p = errc eval (errno_now p) fmt args p.
Proof.
  unfold err, errc, warn, vwarn. destruct fmt as [fmt|]; [|done]. simpl. done.
Qed.

(** [warnc] formats the message and then hands the used argument list to
    [vwarn]: with a format string its behaviour is undefined. *)
Theorem warnc_reuses_arguments (code : Z) (fmt : string) (args : list arg) (p : printed) :
  warnc code (Some fmt) args p = Undef Uninitialised.
Proof. done. Qed.

End messages.
