(* ===== verification/WebAssembly.v ===== *)
(** * Counters of WebAssembly commands ([src/libc_replacement.c])

    WebAssembly commands of one line are first prepared, each with its place in
    the line, and then run together by whoever waits for one of them.  The two
    counters are global variables; [executeWebAssemblyCommandsInOrder] spins
    until no command is being prepared and calls the function of the
    application, when there is one, that runs them.  Accesses to a counter are
    steps: the code uses plain integers without a lock, so the counters are
    exact only when the updates do not overlap. *)

From S2P Require Import Prelude.

Local Open Scope Z_scope.

Record wasm := Wasm {
  preparingWebAssemblyCommands : Z;
  orderOfWebAssemblyCommands : Z;
  runs : nat }.     (* how often the function of the application was called *)

Definition wasm_init : wasm := Wasm 0 0 0.

Definition startedPreparingWebAssemblyCommand (s : wasm) : wasm :=
  Wasm (preparingWebAssemblyCommands s +i32 1)%C (orderOfWebAssemblyCommands s +i32 1)%C (runs s).

Definition webAssemblyCommandOrder (s : wasm) : Z := orderOfWebAssemblyCommands s.

Definition finishedPreparingWebAssemblyCommand (s : wasm) : wasm :=
  if bool_decide (preparingWebAssemblyCommands s > 0)
  then Wasm (preparingWebAssemblyCommands s -i32 1)%C (orderOfWebAssemblyCommands s) (runs s)
  else s.

(** One look of the loop; [None] keeps spinning.  [found]: [dlsym] finds the
    function. *)
Definition executeWebAssemblyCommandsInOrder (found : bool) (s : wasm) : option wasm :=
  if found then
    if bool_decide (preparingWebAssemblyCommands s > 0) then None
    else Some (Wasm (preparingWebAssemblyCommands s) 0 (S (runs s)))
  else Some (Wasm (preparingWebAssemblyCommands s) 0 (runs s)).

Inductive wasm_event : Type :=
  | WStarted
  | WFinished
  | WExecute (found : bool).

Definition wasm_step (ev : wasm_event) (s : wasm) : option wasm :=
  match ev with
  | WStarted => Some (startedPreparingWebAssemblyCommand s)
  | WFinished => Some (finishedPreparingWebAssemblyCommand s)
  | WExecute found => executeWebAssemblyCommandsInOrder found s
  end.

Fixpoint wasm_run (evs : list wasm_event) (s : wasm) : option wasm :=
  match evs with
  | [] => Some s
  | ev :: evs => s ← wasm_step ev s; wasm_run evs s
  end.

Definition is_started (ev : wasm_event) : bool := match ev with WStarted => true | _ => false end.
Definition is_finished (ev : wasm_event) : bool := match ev with WFinished => true | _ => false end.
Definition is_execute (ev : wasm_event) : bool := match ev with WExecute _ => true | _ => false end.
Definition number (p : wasm_event → bool) (evs : list wasm_event) : Z := zlen (filter p evs).

Lemma number_cons p ev evs : number p (ev :: evs) = (if p ev then 1 else 0) + number p evs.
Proof. unfold number, zlen. rewrite list.filter_cons. case_decide as H; destruct (p ev); simpl in *; try done; lia. Qed.

Lemma number_nonneg p evs : 0 ≤ number p evs.
Proof. unfold number, zlen. lia. Qed.

(** Every prefix of the events finishes at most as many commands as it
    started. *)
Definition balanced (n : Z) (evs : list wasm_event) : Prop :=
  ∀ k, number is_finished (take k evs) ≤ n + number is_started (take k evs).

Lemma balanced_cons n ev evs : balanced n (ev :: evs) →
  balanced (n + (if is_started ev then 1 else 0) - (if is_finished ev then 1 else 0)) evs.
Proof. intros H k. specialize (H (S k)). simpl in H. rewrite !number_cons in H. lia. Qed.

Lemma balanced_head n evs : balanced n (WFinished :: evs) → 0 < n.
Proof. intros H. specialize (H 1%nat). simpl in H. unfold number, zlen in H. rewrite take_0 in H. simpl in H. lia. Qed.

Lemma wasm_run_counts evs s s' : wasm_run evs s = Some s' →
  0 ≤ preparingWebAssemblyCommands s → 0 ≤ orderOfWebAssemblyCommands s →
  preparingWebAssemblyCommands s + number is_started evs ≤ INT_MAX →
  orderOfWebAssemblyCommands s + number is_started evs ≤ INT_MAX →
  balanced (preparingWebAssemblyCommands s) evs →
  preparingWebAssemblyCommands s' =
    preparingWebAssemblyCommands s + number is_started evs - number is_finished evs ∧
  (number is_execute evs = 0 → webAssemblyCommandOrder s' = orderOfWebAssemblyCommands s + number is_started evs).
Proof.
  revert s. induction evs as [|ev evs IH]; intros s Hrun Hp Ho Hmax Hmax' Hb.
  { simplify_eq/=. unfold number, zlen, webAssemblyCommandOrder. simpl. lia. }
  pose proof (balanced_cons _ _ _ Hb) as Hb'. pose proof (number_nonneg is_started evs).
  cbn [wasm_run] in Hrun. apply bind_Some in Hrun as (s1 & Es & Hrun). rewrite !number_cons in *.
  pose proof (number_nonneg is_execute evs). unfold INT_MAX in *.
  destruct ev as [| |found]; simplify_eq/=.
  - unfold startedPreparingWebAssemblyCommand in IH, Hrun. rewrite !wrapS_small in Hrun by lia.
    specialize (IH _ Hrun). simpl in IH. rewrite Z.sub_0_r in Hb'. destruct IH as [IH1 IH2]; [lia..|done|lia].
  - pose proof (balanced_head _ _ Hb). unfold finishedPreparingWebAssemblyCommand in Hrun.
    rewrite bool_decide_eq_true_2, !wrapS_small in Hrun by lia.
    specialize (IH _ Hrun). simpl in IH. destruct IH as [IH1 IH2]; [lia..| |lia].
    by replace (preparingWebAssemblyCommands s + 0 - 1) with (preparingWebAssemblyCommands s - 1) in Hb' by lia.
  - assert (preparingWebAssemblyCommands s1 = preparingWebAssemblyCommands s ∧ orderOfWebAssemblyCommands s1 = 0)
      as [E1 E2].
    { unfold executeWebAssemblyCommandsInOrder in Es. destruct found; [case_bool_decide|]; by simplify_eq/=. }
    specialize (IH _ Hrun). rewrite E1, E2 in IH. rewrite Z.add_0_r, Z.sub_0_r in Hb'.
    destruct IH as [IH1 _]; [lia..|done|lia].
Qed.

(** As long as no more commands are finished than were started and the counter
    does not reach [INT_MAX], the counter is the number of commands being
    prepared, and the number a command gets is its place in the line. *)
Theorem wasm_counts_exact evs s' : wasm_run evs wasm_init = Some s' → number is_started evs ≤ INT_MAX →
  balanced 0 evs →
  preparingWebAssemblyCommands s' = number is_started evs - number is_finished evs ∧
  (number is_execute evs = 0 → webAssemblyCommandOrder s' = number is_started evs).
Proof.
  intros Hrun Hmax Hb. destruct (wasm_run_counts evs wasm_init s' Hrun) as [H1 H2]; [simpl; lia..|done|].
  simpl in *. lia.
Qed.
