(* ===== verification/Quoting.v ===== *)
(** * Quotes in command lines ([src/ios_system.m], [src/ios_shell_parser.m])

    The character scanners the shell parser is built from.  A command line is
    the list of its characters, a pointer into it an index.
    - [strstrquoted] looks for a pattern outside quotes, [find_matching_paren]
      for the parenthesis that closes a substitution, [find_backtick] for a
      back quote outside quotes; [trim_whitespace] and [string_replace_range]
      edit lines.
    - [qrun] is the state of quotation after a prefix, [occurs] an occurrence of
      a pattern none of whose characters is quoted.
    - Theorems: what [strstrquoted] finds is such an occurrence; for a pattern
      that repeats one character it is the first one, and there is none when it
      finds none.  Patterns of different characters can be missed and an escaped
      character outside quotes confuses the quotes after it. *)

From S2P Require Import Prelude.
From Stdlib Require Import Ascii.

Abbreviation text := (list ascii) (only parsing).
Definition chars (s : string) : text := String.list_ascii_of_string s.

Definition DQUOTE : ascii := ascii_of_nat 34.
Definition SQUOTE : ascii := ascii_of_nat 39.
Definition BACKSLASH : ascii := ascii_of_nat 92.
Definition BACKTICK : ascii := ascii_of_nat 96.
Definition LPAREN : ascii := ascii_of_nat 40.
Definition RPAREN : ascii := ascii_of_nat 41.
Definition DOLLAR : ascii := ascii_of_nat 36.
Definition SPACE : ascii := ascii_of_nat 32.
Definition TAB : ascii := ascii_of_nat 9.
Definition SEMICOLON : ascii := ascii_of_nat 59.
Definition AMPERSAND : ascii := ascii_of_nat 38.
Definition BAR : ascii := ascii_of_nat 124.

(** ** Operations *)

Definition is_quote (c : ascii) : bool := bool_decide (c = DQUOTE) || bool_decide (c = SQUOTE).

(** The loop of [strstrquoted] from index [i]: the open quote, the number of
    backslashes counted, and how much of the pattern has been matched. *)
Fixpoint quoted_scan (str1 str2 : text) (i : nat) (quotechar : option ascii) (esclen matchlen : nat)
    : option nat :=
  match str1 with
  | [] => None
  | ch :: rest =>
      match quotechar with
      | Some q =>
          if bool_decide (ch = BACKSLASH) then quoted_scan rest str2 (S i) quotechar (S esclen) matchlen
          else if bool_decide (ch = q) then
            if Nat.odd esclen then quoted_scan rest str2 (S i) quotechar 0 matchlen
            else quoted_scan rest str2 (S i) None 0 matchlen
          else quoted_scan rest str2 (S i) quotechar 0 matchlen
      | None =>
          if is_quote ch then
            quoted_scan rest str2 (S i) (if Nat.even esclen then Some ch else None) 0 0
          else
            let esclen := if bool_decide (ch = BACKSLASH) then S esclen else esclen in
            if bool_decide (str2 !! matchlen = Some ch) then
              if bool_decide (S matchlen = length str2) then Some (i + 1 - S matchlen)
              else quoted_scan rest str2 (S i) None esclen (S matchlen)
            else quoted_scan rest str2 (S i) None esclen 0
      end
  end.

Definition strstrquoted (str1 str2 : text) : option nat :=
  if bool_decide (length str1 < length str2) then None
  else if bool_decide (str1 = str2) then Some 0
  else quoted_scan str1 str2 0 None 0 0.

(** [find_matching_paren(start)]: the index of the parenthesis. *)
Fixpoint paren_scan (s : text) (i depth : nat) (in_single_quote in_double_quote : bool) : option nat :=
  match s with
  | [] => None
  | ch :: rest =>
      if negb in_single_quote && bool_decide (ch = DQUOTE) then
        paren_scan rest (S i) depth in_single_quote (negb in_double_quote)
      else if negb in_double_quote && bool_decide (ch = SQUOTE) then
        paren_scan rest (S i) depth (negb in_single_quote) in_double_quote
      else if negb in_single_quote && negb in_double_quote then
        if bool_decide (ch = LPAREN) then paren_scan rest (S i) (S depth) in_single_quote in_double_quote
        else if bool_decide (ch = RPAREN) then
          match depth with
          | S (S _ as depth) => paren_scan rest (S i) depth in_single_quote in_double_quote
          | _ => Some i
          end
        else paren_scan rest (S i) depth in_single_quote in_double_quote
      else paren_scan rest (S i) depth in_single_quote in_double_quote
  end.

Definition find_matching_paren (start : text) : option nat := paren_scan start 0 1 false false.

Fixpoint backtick_scan (s : text) (i : nat) (in_single_quote in_double_quote : bool) : option nat :=
  match s with
  | [] => None
  | ch :: rest =>
      if negb in_single_quote && bool_decide (ch = DQUOTE) then
        backtick_scan rest (S i) in_single_quote (negb in_double_quote)
      else if negb in_double_quote && bool_decide (ch = SQUOTE) then
        backtick_scan rest (S i) (negb in_single_quote) in_double_quote
      else if negb in_single_quote && negb in_double_quote && bool_decide (ch = BACKTICK) then Some i
      else backtick_scan rest (S i) in_single_quote in_double_quote
  end.

Definition find_backtick (start : text) : option nat := backtick_scan start 0 false false.

Definition is_blank (c : ascii) : bool := bool_decide (c = SPACE) || bool_decide (c = TAB).

Fixpoint skip_while (p : ascii → bool) (s : text) : text :=
  match s with
  | [] => []
  | c :: t => if p c then skip_while p t else s
  end.

(** The loop backwards from the end of [str], which stops at its first
    character. *)
Definition trim_end (p : ascii → bool) (str : text) : text :=
  match str with
  | [] => []
  | c :: t => c :: rev (skip_while p (rev t))
  end.

Definition trim_whitespace (str : text) : text := trim_end is_blank (skip_while is_blank str).

Definition string_replace_range (original : text) (range_start range_end : nat) (replacement : text) : text :=
  take range_start original ++ replacement ++ drop range_end original.

(** ** Quotation *)

(** The open quote and the number of backslashes [strstrquoted] has counted. *)
Definition quotation : Type := option ascii * nat.

Definition qstep (s : quotation) (ch : ascii) : quotation :=
  match s with
  | (Some q, esc) =>
      if bool_decide (ch = BACKSLASH) then (Some q, S esc)
      else if bool_decide (ch = q) then if Nat.odd esc then (Some q, 0) else (None, 0)
      else (Some q, 0)
  | (None, esc) =>
      if is_quote ch then (if Nat.even esc then Some ch else None, 0)
      else (None, if bool_decide (ch = BACKSLASH) then S esc else esc)
  end.

Definition qrun (s : quotation) (t : text) : quotation := foldl qstep s t.

(** A character the scan compares with the pattern. *)
Definition active (s : quotation) (ch : ascii) : bool := bool_decide (fst s = None) && negb (is_quote ch).

(** The unquoted occurrences: the characters of [p] from index [i], all of
    them active. *)
Definition occurs_from (s : quotation) (t p : text) (i : nat) : Prop :=
  i + length p ≤ length t ∧ ∀ j c, p !! j = Some c →
    t !! (i + j) = Some c ∧ active (qrun s (take (i + j) t)) c = true.
Definition occurs (t p : text) (i : nat) : Prop := occurs_from (None, 0) t p i.

Lemma qrun_app s t u : qrun s (t ++ u) = qrun (qrun s t) u.
Proof. apply foldl_app. Qed.

Lemma occurs_app s t u p i : occurs_from s t p i → occurs_from s (t ++ u) p i.
Proof.
  intros [Hl Ho]. split; [rewrite length_app; lia|]. intros j c Hj.
  pose proof (lookup_lt_Some _ _ _ Hj). destruct (Ho j c Hj) as [H1 H2].
  rewrite lookup_app_l, take_app_le by lia. done.
Qed.

Lemma occurs_app_inv s t u p i : occurs_from s (t ++ u) p i → i + length p ≤ length t → occurs_from s t p i.
Proof.
  intros [_ Ho] Hl. split; [done|]. intros j c Hj.
  pose proof (lookup_lt_Some _ _ _ Hj). destruct (Ho j c Hj) as [H1 H2].
  rewrite lookup_app_l in H1 by lia. by rewrite take_app_le in H2 by lia.
Qed.

Lemma occurs_nil s t i : i ≤ length t → occurs_from s t [] i.
Proof. intros. split; [simpl; lia|]. by intros j c ?. Qed.

(** An occurrence at the end of [t] grows with the next character. *)
Lemma occurs_snoc s t p i ch : occurs_from s t p i → i + length p = length t → active (qrun s t) ch = true →
  occurs_from s (t ++ [ch]) (p ++ [ch]) i.
Proof.
  intros [_ Ho] Hl Ha. split; [rewrite !length_app; simpl; lia|]. intros j c Hj.
  apply lookup_app_Some in Hj as [Hj|[Hj1 Hj2]].
  - pose proof (lookup_lt_Some _ _ _ Hj). destruct (Ho j c Hj) as [H1 H2].
    rewrite lookup_app_l, take_app_le by lia. done.
  - apply list_lookup_singleton_Some in Hj2 as [? <-].
    replace (i + j) with (length t) by lia. by rewrite list_lookup_middle, take_app_length.
Qed.

(** The last character of an occurrence at the end. *)
Lemma occurs_snoc_inv s t p i ch c : occurs_from s (t ++ [ch]) (p ++ [c]) i → i + length p = length t →
  ch = c ∧ active (qrun s t) ch = true ∧ occurs_from s t p i.
Proof.
  intros [_ Ho] Hl. destruct (Ho (length p) c) as [H1 H2]; [by rewrite list_lookup_middle|].
  rewrite Hl in H1, H2. rewrite list_lookup_middle in H1 by done. injection H1 as ->. rewrite take_app_length in H2.
  split_and!; [done|done|]. apply (occurs_app_inv s t [c]); [|lia].
  split; [rewrite length_app; simpl; lia|]. intros j c' Hj. apply Ho. by apply lookup_app_l_Some.
Qed.

(** ** What [strstrquoted] finds *)

Definition unquotable (p : text) : Prop := Forall (λ c, is_quote c = false) p.

(** What the scan knows after the prefix [t]: the quotation, and that the last
    [m] characters match the start of the pattern. *)
Record scan_inv (t p : text) (q : option ascii) (esc m : nat) : Prop := {
  si_quotation : qrun (None, 0) t = (q, esc);
  si_quoted : q ≠ None → m = 0;
  si_short : m < length p;
  si_fits : m ≤ length t;
  si_match : occurs t (take m p) (length t - m) }.

Lemma scan_inv_reset t p ch q esc m q' esc' : scan_inv t p q esc m → qstep (q, esc) ch = (q', esc') →
  scan_inv (t ++ [ch]) p q' esc' 0.
Proof.
  intros [Hq _ Hp _ _] Hs. split; try done; try lia.
  - rewrite qrun_app, Hq. done.
  - rewrite take_0. apply occurs_nil. lia.
Qed.

Lemma scan_inv_match t p ch esc esc' m : scan_inv t p None esc m → is_quote ch = false →
  p !! m = Some ch → qstep (None, esc) ch = (None, esc') → 
  occurs (t ++ [ch]) (take (S m) p) (length t - m) ∧
  (S m < length p → scan_inv (t ++ [ch]) p None esc' (S m)).
Proof.
  intros [Hq _ Hp Hf Ho] Hn Hm Hs.
  assert (occurs (t ++ [ch]) (take (S m) p) (length t - m)) as Ho'.
  { rewrite (take_S_r _ _ _ Hm). apply occurs_snoc; [done|rewrite length_take; lia|].
    rewrite Hq. unfold active. by rewrite Hn. }
  split; [done|]. intros Hlt. split; try done.
  - rewrite qrun_app, Hq. done.
  - rewrite length_app. simpl. lia.
  - rewrite length_app. simpl. by replace (length t + 1 - S m) with (length t - m) by lia.
Qed.

Lemma scan_sound rest t p q esc m k : scan_inv t p q esc m →
  quoted_scan rest p (length t) q esc m = Some k → occurs (t ++ rest) p k.
Proof.
  revert t q esc m. induction rest as [|ch rest IH]; intros t q esc m Hinv; simpl; [done|].
  replace (S (length t)) with (length (t ++ [ch])) by (rewrite length_app; simpl; lia).
  rewrite (cons_middle ch t rest), (app_assoc t). pose proof (scan_inv_reset t p ch q esc m) as Hr.
  destruct q as [q|].
  - rewrite (si_quoted _ _ _ _ _ Hinv) by done. unfold qstep in Hr.
    repeat case_bool_decide; try destruct (Nat.odd esc); eauto.
  - simpl in Hr. destruct (is_quote ch) eqn:Hn; [by eauto|].
    set (esc' := if bool_decide (ch = BACKSLASH) then S esc else esc) in *.
    case_bool_decide as Hm; [|by eauto].
    destruct (scan_inv_match t p ch esc esc' m Hinv Hn Hm) as [Ho Hnext]; [simpl; by rewrite Hn|].
    case_bool_decide as Hl; [|pose proof (si_short _ _ _ _ _ Hinv); eapply IH, Hnext; lia].
    intros [= <-]. pose proof (si_fits _ _ _ _ _ Hinv). replace (length t + 1 - S m) with (length t - m) by lia.
    apply occurs_app. by rewrite Hl, firstn_all in Ho.
Qed.

Lemma scan_inv_start p : p ≠ [] → scan_inv [] p None 0 0.
Proof.
  intros Hp. split; try done; destruct p; try done; simpl; lia.
Qed.

(** A line without quotes is active throughout. *)
Lemma qrun_unquotable s t : fst s = None → unquotable t → fst (qrun s t) = None.
Proof.
  revert s. induction t as [|c t IH]; intros [q esc] Hq Ht; [done|].
  apply Forall_cons_1 in Ht as [Hc Ht]. simpl in *. subst q. apply IH; [|done]. simpl. by rewrite Hc.
Qed.

Lemma occurs_self p : unquotable p → occurs p p 0.
Proof.
  intros Hp. split; [done|]. intros j c Hj. split; [done|]. unfold active.
  rewrite qrun_unquotable; [|done|by apply Forall_take].
  by rewrite (Forall_lookup_1 _ _ _ _ Hp Hj).
Qed.

(** An occurrence [strstrquoted] reports is one of the pattern outside
    quotes. *)
Lemma strstrquoted_occurs s p i : unquotable p → p ≠ [] → strstrquoted s p = Some i → occurs s p i.
Proof.
  intros Hu Hp. unfold strstrquoted. case_bool_decide; [done|]. case_bool_decide.
  - intros [= <-]. subst. by apply occurs_self.
  - intros Hs. by apply (scan_sound s [] p None 0 0 i (scan_inv_start p Hp)).
Qed.

(** *** Patterns of one repeated character *)

(** Besides [scan_inv]: no occurrence so far, and no longer run of the
    character at the end than the one counted. *)
Record run_inv (t : text) (c : ascii) (n m : nat) : Prop := {
  ri_none : ∀ i, ¬ occurs t (replicate n c) i;
  ri_run : ∀ r, r ≤ length t → occurs t (replicate r c) (length t - r) → r ≤ m }.

Lemma replicate_snoc {A} n (c : A) : replicate (S n) c = replicate n c ++ [c].
Proof. by rewrite <- replicate_cons_app. Qed.

(** A run at the end after one more character. *)
Lemma run_snoc t ch c r : r ≤ length (t ++ [ch]) → occurs (t ++ [ch]) (replicate r c) (length (t ++ [ch]) - r) →
  r = 0 ∨ ∃ r', r = S r' ∧ r' ≤ length t ∧ ch = c ∧ active (qrun (None, 0) t) ch = true ∧
    occurs t (replicate r' c) (length t - r').
Proof.
  rewrite length_app. simpl. intros Hr Ho. destruct r as [|r]; [by left|]. right.
  rewrite replicate_snoc in Ho. replace (length t + 1 - S r) with (length t - r) in Ho by lia.
  destruct (occurs_snoc_inv _ _ _ _ _ _ Ho) as (? & ? & ?); [rewrite length_replicate; lia|].
  exists r. split_and!; try done. lia.
Qed.

Lemma run_inv_next t ch c n m m' : run_inv t c n m → m' < n →
  (ch = c → active (qrun (None, 0) t) ch = true → S m ≤ m') → run_inv (t ++ [ch]) c n m'.
Proof.
  intros [Hnone Hrun] Hm Hnext.
  assert (∀ r, r ≤ length (t ++ [ch]) → occurs (t ++ [ch]) (replicate r c) (length (t ++ [ch]) - r) → r ≤ m')
    as Hrun'.
  { intros r Hr Ho. destruct (run_snoc t ch c r Hr Ho) as [->|(r' & -> & Hr' & Hc & Ha & Ho')]; [lia|].
    specialize (Hrun r' Hr' Ho'). specialize (Hnext Hc Ha). lia. }
  split; [|done]. intros i Ho. destruct (decide (i + n ≤ length t)) as [Hle|Hgt].
  - apply (Hnone i). apply (occurs_app_inv _ _ [ch]); [done|]. by rewrite length_replicate.
  - pose proof (proj1 Ho) as Hl. rewrite length_replicate, length_app in Hl. simpl in Hl.
    specialize (Hrun' n). rewrite length_app in Hrun'. simpl in Hrun'.
    replace (length t + 1 - n) with i in Hrun' by lia. specialize (Hrun' ltac:(lia) Ho). lia.
Qed.

Definition first_occurrence (s p : text) (r : option nat) : Prop :=
  match r with
  | Some i => occurs s p i ∧ ∀ j, j < i → ¬ occurs s p j
  | None => ∀ j, ¬ occurs s p j
  end.

Lemma scan_first rest t c n q esc m : scan_inv t (replicate n c) q esc m → run_inv t c n m → is_quote c = false →
  first_occurrence (t ++ rest) (replicate n c) (quoted_scan rest (replicate n c) (length t) q esc m).
Proof.
  intros Hinv Hrun Hcq. revert t q esc m Hinv Hrun.
  induction rest as [|ch rest IH]; intros t q esc m Hinv Hrun; simpl.
  { rewrite app_nil_r. apply Hrun. }
  replace (S (length t)) with (length (t ++ [ch])) in * by (rewrite length_app; simpl; lia).
  rewrite (cons_middle ch t rest), (app_assoc t) in *.
  pose proof (si_short _ _ _ _ _ Hinv) as Hm. rewrite length_replicate in Hm.
  pose proof (si_quotation _ _ _ _ _ Hinv) as Hq.
  assert (∀ q' esc', qstep (q, esc) ch = (q', esc') → (ch = c → active (q, esc) ch = false) →
    first_occurrence ((t ++ [ch]) ++ rest) (replicate n c)
      (quoted_scan rest (replicate n c) (length (t ++ [ch])) q' esc' 0)) as Hreset.
  { intros q' esc' Hs Ha. apply IH.
    - by eapply scan_inv_reset.
    - eapply run_inv_next; [done|lia|]. rewrite Hq. intros Hc Hact. rewrite (Ha Hc) in Hact. done. }
  destruct q as [q|].
  - rewrite (si_quoted _ _ _ _ _ Hinv) by done. simpl in Hreset.
    repeat case_bool_decide; try destruct (Nat.odd esc); by apply Hreset.
  - simpl in Hreset. unfold active in Hreset. destruct (is_quote ch) eqn:Hn; [by apply Hreset|].
    set (esc' := if bool_decide (ch = BACKSLASH) then S esc else esc) in *.
    destruct (decide (replicate n c !! m = Some ch)) as [Hl|Hl];
      [rewrite (bool_decide_eq_true_2 _ Hl)|rewrite (bool_decide_eq_false_2 _ Hl)].
    2:{ apply Hreset; [done|]. intros ->. destruct Hl. by apply lookup_replicate_2. }
    clear Hreset. apply lookup_replicate_1 in Hl as [-> _].
    destruct (scan_inv_match t (replicate n c) c esc esc' m Hinv Hn) as [Ho Hnext];
      [by apply lookup_replicate_2|simpl; by rewrite Hn|].
    rewrite length_replicate in *. case_bool_decide as Hend.
    + rewrite Hend, take_replicate, Nat.min_id in Ho.
      pose proof (si_fits _ _ _ _ _ Hinv). replace (length t + 1 - S m) with (length t - m) by lia.
      split; [by apply occurs_app|]. intros j Hj Ho'. apply (ri_none _ _ _ _ Hrun j).
      rewrite <- app_assoc in Ho'. apply (occurs_app_inv _ _ _ _ _ Ho'). rewrite length_replicate. lia.
    + apply IH; [by apply Hnext; lia|]. eapply run_inv_next; [done|lia|]. done.
Qed.

Lemma strstrquoted_is_first s c n : is_quote c = false →
  first_occurrence s (replicate (S n) c) (strstrquoted s (replicate (S n) c)).
Proof.
  intros Hc. assert (unquotable (replicate (S n) c)) as Hu by by apply Forall_replicate.
  unfold strstrquoted. case_bool_decide as Hlt; [|case_bool_decide as Heq].
  - intros j [Hl _]. lia.
  - subst s. split; [by apply occurs_self|]. lia.
  - apply (scan_first s []); [by apply scan_inv_start| |done].
    split.
    + intros i [Hl _]. simpl in Hl. lia.
    + simpl. lia.
Qed.

(** For [;], [|], [&&], [||] and the other patterns of one repeated
    character, [strstrquoted] returns the first occurrence outside quotes, and
    NULL exactly when there is none. *)
Theorem strstrquoted_first s c n : is_quote c = false →
  first_occurrence s (replicate (S n) c) (strstrquoted s (replicate (S n) c)).
Proof. apply strstrquoted_is_first. Qed.

Lemma strstrquoted_first_witness :
  strstrquoted (chars "echo 'a;b';ls") (replicate 1 SEMICOLON) = Some 10 ∧
  occurs (chars "echo 'a;b';ls") (replicate 1 SEMICOLON) 10.
Proof.
  assert (strstrquoted (chars "echo 'a;b';ls") (replicate 1 SEMICOLON) = Some 10) as Hs by (vm_compute; reflexivity).
  split; [exact Hs|].
  pose proof (strstrquoted_first (chars "echo 'a;b';ls") SEMICOLON 0 eq_refl) as Hf.
  rewrite Hs in Hf. exact (proj1 Hf).
Defined.

(** ** Pieces of a line *)

(** A piece that leaves no quote open. *)
Definition closed (t : text) : Prop := fst (qrun (None, 0) t) = None.
Global Instance closed_dec t : Decision (closed t).
Proof. unfold closed. apply _. Defined.

Lemma first_occurrence_Some s p r i : first_occurrence s p r → occurs s p i → (∀ j, j < i → ¬ occurs s p j) →
  r = Some i.
Proof.
  intros Hr Ho Hfirst. destruct r as [k|]; simpl in Hr; [|by destruct (Hr i)]. destruct Hr as [Hk Hk'].
  f_equal. destruct (Nat.lt_trichotomy k i) as [?|[?|?]]; [by destruct (Hfirst k)|done|by destruct (Hk' i)].
Qed.

Lemma occurs_piece t c n rest : closed t → is_quote c = false →
  occurs (t ++ replicate n c ++ rest) (replicate n c) (length t).
Proof.
  intros Ht Hc. split; [rewrite !length_app, length_replicate; lia|].
  intros j c' Hj. apply lookup_replicate_1 in Hj as [-> Hj].
  rewrite lookup_app_r, lookup_app_l by (rewrite ?length_replicate; lia).
  rewrite take_app_ge, take_app_le by (rewrite ?length_replicate; lia).
  replace (length t + j - length t) with j by lia. rewrite lookup_replicate_2 by done. split; [done|].
  unfold active. rewrite qrun_app, qrun_unquotable; [by rewrite Hc|done|].
  rewrite take_replicate. by apply Forall_replicate.
Qed.

(** The separator after a piece is the first one, unless the piece ends with
    its character. *)
Lemma strstrquoted_piece t c n rest : closed t → is_quote c = false →
  (∀ i, ¬ occurs t (replicate (S n) c) i) → n = 0 ∨ list.last t ≠ Some c →
  strstrquoted (t ++ replicate (S n) c ++ rest) (replicate (S n) c) = Some (length t).
Proof.
  intros Ht Hc Hnone Hlast. eapply first_occurrence_Some; [by apply strstrquoted_is_first|by apply occurs_piece|].
  intros j Hj Ho. destruct (decide (j + S n ≤ length t)) as [Hin|Hout].
  - apply (Hnone j). eapply occurs_app_inv; [done|]. by rewrite length_replicate.
  - destruct Hlast as [->|Hlast]; [lia|]. apply Hlast.
    destruct (proj2 Ho (length t - 1 - j) c) as [Hl _]; [apply lookup_replicate_2; lia|].
    rewrite lookup_app_l in Hl by lia. rewrite last_lookup. by replace (pred (length t)) with (j + (length t - 1 - j)) by lia.
Qed.

(** The last piece has no separator. *)
Lemma strstrquoted_none t c n : is_quote c = false → (∀ i, ¬ occurs t (replicate (S n) c) i) →
  strstrquoted t (replicate (S n) c) = None.
Proof.
  intros Hc Hnone. pose proof (strstrquoted_is_first t c n Hc) as Hf.
  destruct (strstrquoted _ _) as [i|]; [|done]. by destruct (Hnone i), Hf.
Qed.

Lemma strstrquoted_None t c n : is_quote c = false → strstrquoted t (replicate (S n) c) = None →
  ∀ i, ¬ occurs t (replicate (S n) c) i.
Proof. intros Hc Hs. pose proof (strstrquoted_is_first t c n Hc) as Hf. by rewrite Hs in Hf. Qed.

(** ** Limits of the scan *)

(** The character that breaks a partial match is not tried as the start of
    another one: in [$$(date)] no [$(] is found although it occurs. *)
Theorem strstrquoted_misses : strstrquoted (chars "echo $$(date)") (chars "$(") = None ∧
  occurs (chars "echo $$(date)") (chars "$(") 6.
Proof.
  split; [vm_compute; reflexivity|]. split; [vm_compute; lia|].
  intros j c Hj. destruct j as [|[|j]]; [..|done]; vm_compute in Hj; injection Hj as <-; done.
Qed.

(** A backslash outside quotes is counted until the next quote, whatever is in
    between, so the quote is taken for an escaped one: the separator inside the
    quotes of [a\b "x;y"] is found. *)
Theorem escape_unquotes : strstrquoted (chars "a\b " ++ DQUOTE :: chars "x;y" ++ [DQUOTE]) (chars ";") = Some 6.
Proof. vm_compute. reflexivity. Qed.

(** A backslash does not protect a separator. *)
Theorem escaped_separator : strstrquoted (chars "find . -exec ls {} \;") (chars ";") = Some 20.
Proof. vm_compute. reflexivity. Qed.
