(* ===== verification/ShellParser.v ===== *)
(** * Sequences and conditions of commands ([src/ios_shell_parser.m])

    [ios_execute_sequential] runs the commands between semicolons,
    [ios_execute_conditional] a chain of [&&] and [||], and [ios_system]
    ([src/ios_system.m]) chooses between them, a pipeline and a single command.
    - [Shell] is what they call to run one command: [ios_fork], [ios_system],
      [ios_waitpid] and the release of the caller's process number.  The world
      is threaded through the calls.
    - The parsing loops take a fuel; one more than the length of the line is
      enough.  Allocations succeed.
    - Theorems: both parsers are defined on all lines; a line assembled from
      pieces with closed quotes is taken apart again; the commands run in order;
      chains of one connective behave as POSIX says, mixed chains do not; a line
      whose first bar belongs to [||] is never treated as a condition. *)

From S2P Require Import Prelude Quoting.
From Stdlib Require Import Ascii.

Class Shell (W : Type) := {
  ios_fork : W → Z * W;
  ios_system : text → W → Z * W;
  ios_waitpid : Z → W → W;
  release_outer_fork_sentinel : W → W }.

Definition semicolon : text := replicate 1 SEMICOLON.
Definition and_and : text := replicate 2 AMPERSAND.
Definition or_or : text := replicate 2 BAR.
Definition bar : text := replicate 1 BAR.

(** ** Operations *)

(** The loop that counts the segments. *)
Fixpoint count_segments (fuel : nat) (ptr : text) (max_segments : nat) : outcome nat :=
  match fuel with
  | O => Undef OutOfFuel
  | S fuel =>
      match strstrquoted ptr semicolon with
      | Some i => count_segments fuel (drop (S i) ptr) (S max_segments)
      | None => Ret max_segments
      end
  end.

(** The loop that stores the trimmed segments that are not empty in an array
    of [room] entries. *)
Fixpoint semicolon_loop (fuel : nat) (segment_start : text) (room : nat) (segments : list text)
    : outcome (list text) :=
  match fuel with
  | O => Undef OutOfFuel
  | S fuel =>
      let semicolon := strstrquoted segment_start semicolon in
      let segment := match semicolon with Some i => take i segment_start | None => segment_start end in
      let trimmed := trim_whitespace segment in
      segments ← (if bool_decide (trimmed = []) then Ret segments
                  else if bool_decide (length segments < room) then Ret (segments ++ [trimmed])
                  else Undef OutOfBounds);
      match semicolon with
      | Some i => semicolon_loop fuel (drop (S i) segment_start) room segments
      | None => Ret segments
      end
  end.

Definition parse_semicolons (input : text) : outcome (list text) :=
  if bool_decide (input = []) then Ret []
  else
    max_segments ← count_segments (S (length input)) input 1;
    semicolon_loop (S (length input)) input (max_segments + 1) [].

Inductive ios_shell_operator_t : Set :=
  | IOS_OP_NONE | IOS_OP_SEMICOLON | IOS_OP_AND | IOS_OP_OR.
Global Instance operator_eq_dec : EqDecision ios_shell_operator_t.
Proof. solve_decision. Defined.

(** The linked list of nodes is a list. *)
Record ios_cmd_node_t := Node { command : text; next_op : ios_shell_operator_t }.

(** The next [&&] or [||]: where it is and which one. *)
Definition next_operator (segment_start : text) : option (nat * ios_shell_operator_t) :=
  match strstrquoted segment_start and_and, strstrquoted segment_start or_or with
  | Some a, None => Some (a, IOS_OP_AND)
  | Some a, Some o => if bool_decide (a < o) then Some (a, IOS_OP_AND) else Some (o, IOS_OP_OR)
  | None, Some o => Some (o, IOS_OP_OR)
  | None, None => None
  end.

Fixpoint conditional_loop (fuel : nat) (segment_start : text) (nodes : list ios_cmd_node_t)
    : outcome (list ios_cmd_node_t) :=
  match fuel with
  | O => Undef OutOfFuel
  | S fuel =>
      let op := next_operator segment_start in
      let segment := match op with Some (i, _) => take i segment_start | None => segment_start end in
      let trimmed := trim_whitespace segment in
      let op_type := match op with Some (_, o) => o | None => IOS_OP_NONE end in
      let nodes := if bool_decide (trimmed = []) then nodes else nodes ++ [Node trimmed op_type] in
      match op with
      | Some (i, _) => conditional_loop fuel (drop (i + 2) segment_start) nodes
      | None => Ret nodes
      end
  end.

Definition parse_conditionals (input : text) : outcome (list ios_cmd_node_t) :=
  if bool_decide (input = []) then Ret [] else conditional_loop (S (length input)) input [].

(** [ios_check_shell_operators]. *)
Definition ios_check_shell_operators (command : text) : bool * bool * bool :=
  (bool_decide (is_Some (strstrquoted command semicolon)),
   bool_decide (is_Some (strstrquoted command and_and)),
   bool_decide (is_Some (strstrquoted command or_or))).

Section execution.
Context {W : Type} `{Shell W}.

Definition run_command (c : text) (w : W) : Z * W :=
  let '(pid, w) := ios_fork w in
  let '(result, w) := ios_system c w in
  (result, ios_waitpid pid w).

(** The loop over the segments; [last_result] is the value of the last one. *)
Fixpoint run_segments (segments : list text) (last_result : Z) (w : W) : Z * W :=
  match segments with
  | [] => (last_result, w)
  | c :: segments =>
      if bool_decide (c = []) then run_segments segments last_result w
      else let '(result, w) := run_command c w in run_segments segments result w
  end.

Definition ios_execute_sequential (command : text) (w : W) : outcome (Z * W) :=
  let w := release_outer_fork_sentinel w in
  segments ← parse_semicolons command;
  Ret (run_segments segments 0 w).

Fixpoint run_nodes (nodes : list ios_cmd_node_t) (result : Z) (w : W) : Z * W :=
  match nodes with
  | [] => (result, w)
  | node :: rest =>
      if bool_decide (command node = []) then run_nodes rest result w
      else
        let '(result, w) := run_command (command node) w in
        match rest with
        | [] => (result, w)
        | _ =>
            if bool_decide (next_op node = IOS_OP_AND) && bool_decide (result ≠ 0%Z) then (result, w)
            else if bool_decide (next_op node = IOS_OP_OR) && bool_decide (result = 0%Z) then (result, w)
            else run_nodes rest result w
        end
  end.

Definition ios_execute_conditional (command : text) (w : W) : outcome (Z * W) :=
  let w := release_outer_fork_sentinel w in
  nodes ← parse_conditionals command;
  Ret (run_nodes nodes 0 w).

End execution.

(** How [ios_system] treats a line: the order of its tests.  [expand_alias]
    stands for the expansion of aliases between them. *)
Inductive dispatch : Set := Sequential | Conditional | Pipeline | Simple.
Global Instance dispatch_eq_dec : EqDecision dispatch.
Proof. solve_decision. Defined.

Definition is_conditional (command : text) : bool :=
  match strstrquoted command or_or with
  | Some orPos =>
      match strstrquoted command bar with
      | Some pipeCheck => negb (bool_decide (pipeCheck = orPos) || bool_decide (pipeCheck + 1 = orPos))
      | None => true
      end
  | None => true
  end.

Definition ios_system_dispatch (expand_alias : text → text) (command : text) : dispatch :=
  let '(has_semicolon, has_and, has_or) := ios_check_shell_operators command in
  if has_semicolon then Sequential
  else if (has_and || has_or) && is_conditional command then Conditional
  else if bool_decide (is_Some (strstrquoted (expand_alias command) bar)) then Pipeline
  else Simple.

(** ** Parsing is defined *)

Lemma strstrquoted_bound s c n i : is_quote c = false → strstrquoted s (replicate (S n) c) = Some i →
  i + S n ≤ length s.
Proof.
  intros Hc Hs. pose proof (strstrquoted_is_first s c n Hc) as Hf. rewrite Hs in Hf.
  destruct Hf as [[Hl _] _]. by rewrite length_replicate in Hl.
Qed.

(** How many segments are left. *)
Lemma count_segments_defined fuel ptr n : length ptr < fuel → ∃ k, count_segments fuel ptr n = Ret (n + k) ∧
  ∀ room segments, length segments + k < room →
    ∃ segments', semicolon_loop fuel ptr room segments = Ret segments' ∧ length segments' ≤ length segments + S k.
Proof.
  revert ptr n. induction fuel as [|fuel IH]; intros ptr n Hf; [lia|]. cbn [count_segments semicolon_loop].
  destruct (strstrquoted ptr semicolon) as [i|] eqn:Hs.
  - apply strstrquoted_bound in Hs; [|done].
    destruct (IH (drop (S i) ptr) (S n)) as (k & Hk & Hloop); [rewrite length_drop; lia|].
    exists (S k). split; [rewrite Hk; f_equal; lia|]. intros room segments Hroom.
    case_bool_decide; [|rewrite bool_decide_eq_true_2 by lia]; cbn [mbind outcome_bind].
    + destruct (Hloop room segments) as (s' & -> & ?); [lia|]. exists s'. split; [done|lia].
    + destruct (Hloop room (segments ++ [trim_whitespace (take i ptr)])) as (s' & -> & Hl); rewrite length_app in *;
        simpl in *; [lia|]. exists s'. split; [done|lia].
  - exists 0. split; [by rewrite Nat.add_0_r|]. intros room segments Hroom.
    case_bool_decide; [|rewrite bool_decide_eq_true_2 by lia]; cbn [mbind outcome_bind].
    + exists segments. split; [done|lia].
    + eexists. split; [done|]. rewrite length_app. simpl. lia.
Qed.

(** Taking a line apart reads and writes no memory out of bounds and ends. *)
Lemma parse_semicolons_defined input : defined (parse_semicolons input).
Proof.
  unfold parse_semicolons. case_bool_decide; [by eexists|].
  destruct (count_segments_defined (S (length input)) input 1) as (k & -> & Hloop); [lia|]. cbn [mbind outcome_bind].
  destruct (Hloop (1 + k + 1) []) as (s' & -> & _); [simpl; lia|]. by eexists.
Qed.

Lemma next_operator_bound s i o : next_operator s = Some (i, o) → i + 2 ≤ length s.
Proof.
  unfold next_operator. destruct (strstrquoted s and_and) as [a|] eqn:Ha, (strstrquoted s or_or) as [b|] eqn:Hb;
    try case_bool_decide; intros; simplify_eq;
    (apply strstrquoted_bound in Ha || apply strstrquoted_bound in Hb); try done;
    (apply strstrquoted_bound in Hb || idtac); done.
Qed.

Lemma conditional_loop_defined fuel s nodes : length s < fuel → defined (conditional_loop fuel s nodes).
Proof.
  revert s nodes. induction fuel as [|fuel IH]; intros s nodes Hf; [lia|]. cbn [conditional_loop].
  destruct (next_operator s) as [[i o]|] eqn:Hn; [|by eexists].
  apply next_operator_bound in Hn. apply IH. rewrite length_drop. lia.
Qed.

Lemma parse_conditionals_defined input : defined (parse_conditionals input).
Proof. unfold parse_conditionals. case_bool_decide; [by eexists|]. apply conditional_loop_defined. lia. Qed.

(** ** Lines made of pieces *)

Fixpoint join (sep : text) (ps : list text) : text :=
  match ps with
  | [] => []
  | [p] => p
  | p :: ps => p ++ sep ++ join sep ps
  end.

Lemma join_cons sep p p' ps : join sep (p :: p' :: ps) = p ++ sep ++ join sep (p' :: ps).
Proof. done. Qed.

Lemma drop_piece n (p sep rest : text) : length sep = n → drop (length p + n) (p ++ sep ++ rest) = rest.
Proof. intros <-. by rewrite app_assoc, <- length_app, drop_app_length. Qed.

Lemma drop_segment (p rest : text) : drop (S (length p)) (p ++ semicolon ++ rest) = rest.
Proof. rewrite <- Nat.add_1_r. by apply drop_piece. Qed.

(** A piece closes its quotes and has no separator outside them. *)
Definition segment (p : text) : Prop := closed p ∧ strstrquoted p semicolon = None.

Definition nonempty (p : text) : bool := negb (bool_decide (p = [])).
Definition trimmed_pieces (ps : list text) : list text := filter nonempty (trim_whitespace <$> ps).

Lemma trimmed_pieces_cons p ps : trimmed_pieces (p :: ps) =
  (if bool_decide (trim_whitespace p = []) then [] else [trim_whitespace p]) ++ trimmed_pieces ps.
Proof.
  unfold trimmed_pieces, nonempty. cbn [fmap list_fmap]. rewrite list.filter_cons.
  case_bool_decide; case_decide as Hd; simpl in Hd; done.
Qed.

Lemma strstrquoted_segment p rest : segment p → strstrquoted (p ++ semicolon ++ rest) semicolon = Some (length p).
Proof.
  intros [Hc Hs]. apply (strstrquoted_piece p SEMICOLON 0); [done|done| |by left].
  by apply strstrquoted_None.
Qed.

Lemma semicolon_loop_pieces fuel ps room segments : Forall segment ps → ps ≠ [] → length ps ≤ fuel →
  length segments + length ps ≤ room →
  semicolon_loop fuel (join semicolon ps) room segments = Ret (segments ++ trimmed_pieces ps).
Proof.
  revert ps segments. induction fuel as [|fuel IH]; intros [|p ps] segments Hps Hne Hf Hroom; try done; [simpl in *; lia|].
  apply Forall_cons_1 in Hps as [Hp Hps]. rewrite trimmed_pieces_cons. cbn [semicolon_loop]. simpl in Hf, Hroom.
  destruct ps as [|p' ps].
  - simpl. rewrite (proj2 Hp), app_nil_r. case_bool_decide; [by rewrite app_nil_r|].
    by rewrite bool_decide_eq_true_2 by lia.
  - rewrite join_cons, strstrquoted_segment, take_app_length, drop_segment by done.
    case_bool_decide; [|rewrite bool_decide_eq_true_2 by lia]; cbn [mbind outcome_bind].
    + apply IH; [done|done|simpl in *; lia..].
    + rewrite IH; [by rewrite <- app_assoc|done|done|simpl in *; lia|rewrite length_app; simpl in *; lia].
Qed.

Lemma count_segments_pieces fuel ps n : Forall segment ps → ps ≠ [] → length ps ≤ fuel →
  count_segments fuel (join semicolon ps) n = Ret (n + pred (length ps)).
Proof.
  revert ps n. induction fuel as [|fuel IH]; intros [|p ps] n Hps Hne Hf; try done; [simpl in *; lia|].
  apply Forall_cons_1 in Hps as [Hp Hps]. cbn [count_segments]. simpl in Hf. destruct ps as [|p' ps].
  - simpl. rewrite (proj2 Hp). by rewrite Nat.add_0_r.
  - rewrite join_cons, strstrquoted_segment, drop_segment by done.
    rewrite IH by (done || simpl in *; lia). f_equal. simpl. lia.
Qed.

Lemma join_length ps : length ps ≤ S (length (join semicolon ps)).
Proof.
  induction ps as [|p [|p' ps] IH]; [simpl; lia..|].
  rewrite join_cons, !length_app. simpl in *. lia.
Qed.

Lemma parse_semicolons_pieces ps : Forall segment ps → parse_semicolons (join semicolon ps) = Ret (trimmed_pieces ps).
Proof.
  intros Hps. unfold parse_semicolons. destruct ps as [|p ps]; [done|].
  case_bool_decide as He.
  - destruct ps as [|p' ps].
    + simpl in He. subst p. done.
    + exfalso. rewrite join_cons in He. apply (f_equal length) in He. rewrite !length_app in He. simpl in He. lia.
  - pose proof (join_length (p :: ps)). rewrite count_segments_pieces by done. cbn [mbind outcome_bind].
    rewrite semicolon_loop_pieces; [done..|simpl in *; lia].
Qed.

(** ** Sequential execution *)

Section sequential.
Context {W : Type} `{Shell W}.

(** One command after the other; the value is that of the last one. *)
Definition in_order (cs : list text) (w : W) : Z * W := foldl (λ '(_, w) c, run_command c w) (0%Z, w) cs.

Lemma run_segments_foldl cs r w : Forall (λ c, c ≠ []) cs →
  run_segments cs r w = foldl (λ '(_, w) c, run_command c w) (r, w) cs.
Proof.
  intros Hcs. revert r w. induction Hcs as [|c cs Hc _ IH]; intros r w; [done|]. simpl.
  rewrite bool_decide_eq_false_2 by done. destruct (run_command c w) as [r' w']. apply IH.
Qed.

Lemma trimmed_pieces_nonempty ps : Forall (λ c, c ≠ []) (trimmed_pieces ps).
Proof.
  apply list.Forall_forall. intros c Hc. apply list_elem_of_filter in Hc as [Hc _]. unfold nonempty in Hc.
  case_bool_decide; done.
Qed.

(** C7: A line whose pieces close their quotes runs as its pieces: each that is
    not blank, trimmed, in order, whatever the others return; semicolons inside
    quotes do not separate.  The value is that of the last command, 0 when there
    is none. *)
Theorem sequential_spec ps w : Forall segment ps →
  ios_execute_sequential (join semicolon ps) w = Ret (in_order (trimmed_pieces ps) (release_outer_fork_sentinel w)).
Proof.
  intros Hps. unfold ios_execute_sequential. rewrite parse_semicolons_pieces by done. cbn [mbind outcome_bind].
  rewrite run_segments_foldl by apply trimmed_pieces_nonempty. done.
Qed.

End sequential.

(** ** Conditional execution *)

Inductive connective : Set := And | Or.
Definition op_of (o : connective) : ios_shell_operator_t :=
  match o with And => IOS_OP_AND | Or => IOS_OP_OR end.
Definition op_char (o : connective) : ascii := match o with And => AMPERSAND | Or => BAR end.
Definition op_text (o : connective) : text := replicate 2 (op_char o).

(** [p0 op1 p1 op2 p2 ...] *)
Fixpoint chain_line (p : text) (rest : list (connective * text)) : text :=
  match rest with
  | [] => p
  | (o, p') :: rest => p ++ op_text o ++ chain_line p' rest
  end.

(** A piece of a chain: quotes closed, neither connective outside quotes, not
    ending with a character of a connective, not blank. *)
Record link (p : text) : Prop := {
  link_closed : closed p;
  link_and : strstrquoted p and_and = None;
  link_or : strstrquoted p or_or = None;
  link_last : ∀ o, list.last p ≠ Some (op_char o);
  link_nonempty : trim_whitespace p ≠ [] }.

Lemma link_none p o : link p → ∀ i, ¬ occurs p (op_text o) i.
Proof. intros Hp. destruct o; by apply strstrquoted_None, Hp. Qed.

Lemma strstrquoted_link p o rest : link p → strstrquoted (p ++ op_text o ++ rest) (op_text o) = Some (length p).
Proof.
  intros Hp. apply (strstrquoted_piece p (op_char o) 1); [apply Hp|by destruct o|by apply link_none|].
  right. apply Hp.
Qed.

(** The other connective comes later. *)
Lemma other_later p o o' rest i : link p → o ≠ o' →
  strstrquoted (p ++ op_text o ++ rest) (op_text o') = Some i → length p < i.
Proof.
  intros Hp Ho Hs.
  assert (is_quote (op_char o') = false) as Hq by by destruct o'.
  pose proof (strstrquoted_is_first (p ++ op_text o ++ rest) (op_char o') 1 Hq) as Hf.
  change (replicate 2 (op_char o')) with (op_text o') in Hf. rewrite Hs in Hf. destruct Hf as [Hoc _].
  destruct (decide (length p < i)) as [|Hle]; [done|]. exfalso.
  destruct (decide (i + 2 ≤ length p)) as [Hin|Hout].
  - apply (link_none p o' Hp i). by eapply occurs_app_inv.
  - assert (i = length p ∨ i + 1 = length p) as [->|Hi] by lia.
    + destruct (proj2 Hoc 0 (op_char o')) as [Hl _]; [done|].
      rewrite Nat.add_0_r, lookup_app_r, Nat.sub_diag in Hl by lia. destruct o, o'; done.
    + destruct (proj2 Hoc 0 (op_char o')) as [Hl _]; [done|].
      rewrite Nat.add_0_r, lookup_app_l in Hl by lia. apply (link_last p Hp o').
      by rewrite last_lookup, <- Hi, Nat.add_1_r.
Qed.

Lemma next_operator_link p o rest : link p →
  next_operator (p ++ op_text o ++ rest) = Some (length p, op_of o).
Proof.
  intros Hp. pose proof (strstrquoted_link p o rest Hp) as Hs.
  unfold next_operator. destruct o.
  - change and_and with (op_text And). rewrite Hs.
    destruct (strstrquoted _ or_or) as [i|] eqn:Ho; [|done].
    apply (other_later p And Or) in Ho; [|done..]. by rewrite bool_decide_eq_true_2.
  - change or_or with (op_text Or). rewrite Hs.
    destruct (strstrquoted _ and_and) as [i|] eqn:Ha; [|done].
    apply (other_later p Or And) in Ha; [|done..]. by rewrite bool_decide_eq_false_2 by lia.
Qed.

Fixpoint chain_nodes (p : text) (rest : list (connective * text)) : list ios_cmd_node_t :=
  match rest with
  | [] => [Node (trim_whitespace p) IOS_OP_NONE]
  | (o, p') :: rest => Node (trim_whitespace p) (op_of o) :: chain_nodes p' rest
  end.

Definition chain_ok (p : text) (rest : list (connective * text)) : Prop := link p ∧ Forall (link ∘ snd) rest.

Lemma conditional_loop_chain fuel p rest nodes : chain_ok p rest → length rest < fuel →
  conditional_loop fuel (chain_line p rest) nodes = Ret (nodes ++ chain_nodes p rest).
Proof.
  revert p rest nodes. induction fuel as [|fuel IH]; intros p rest nodes [Hp Hrest] Hf; [lia|].
  cbn [conditional_loop]. destruct rest as [|[o p'] rest]; simpl in Hf.
  - simpl. unfold next_operator. rewrite (link_and p Hp), (link_or p Hp).
    by rewrite bool_decide_eq_false_2 by apply Hp.
  - cbn [chain_line]. rewrite next_operator_link, take_app_length, drop_piece by done.
    rewrite bool_decide_eq_false_2 by apply Hp. apply Forall_cons_1 in Hrest as [Hp' Hrest].
    rewrite IH by (done || lia). by rewrite <- app_assoc.
Qed.

Lemma chain_line_length p rest : length rest ≤ length (chain_line p rest).
Proof.
  revert p. induction rest as [|[o p'] rest IH]; intros p; simpl; [lia|].
  specialize (IH p'). rewrite length_app. simpl. lia.
Qed.

Lemma parse_conditionals_chain p rest : chain_ok p rest →
  parse_conditionals (chain_line p rest) = Ret (chain_nodes p rest).
Proof.
  intros Hok. unfold parse_conditionals. case_bool_decide as He.
  - exfalso. apply (link_nonempty p (proj1 Hok)). destruct rest as [|[o p'] rest]; simpl in He; [by subst|].
    by apply app_eq_nil in He as [-> _].
  - pose proof (chain_line_length p rest). rewrite conditional_loop_chain by (done || lia). done.
Qed.

Section conditional.
Context {W : Type} `{Shell W}.

Definition goes_on (o : connective) (status : Z) : bool :=
  match o with And => bool_decide (status = 0%Z) | Or => bool_decide (status ≠ 0%Z) end.

(** The chain as the code runs it: a connective that does not hold ends it. *)
Fixpoint stopping (rest : list (connective * text)) (status : Z) (w : W) : Z * W :=
  match rest with
  | [] => (status, w)
  | (o, p) :: rest =>
      if goes_on o status then let '(status, w) := run_command (trim_whitespace p) w in stopping rest status w
      else (status, w)
  end.

(** The chain as POSIX defines an AND-OR list, with connectives of equal
    precedence associating to the left: a connective that does not hold skips
    its command. *)
Fixpoint skipping (rest : list (connective * text)) (status : Z) (w : W) : Z * W :=
  match rest with
  | [] => (status, w)
  | (o, p) :: rest =>
      if goes_on o status then let '(status, w) := run_command (trim_whitespace p) w in skipping rest status w
      else skipping rest status w
  end.

Definition run_chain (go : list (connective * text) → Z → W → Z * W) (p : text) (rest : list (connective * text))
    (w : W) : Z * W :=
  let '(status, w) := run_command (trim_whitespace p) w in go rest status w.

Lemma run_nodes_chain p rest r w : chain_ok p rest →
  run_nodes (chain_nodes p rest) r w = run_chain stopping p rest w.
Proof.
  revert p r w. induction rest as [|[o p'] rest IH]; intros p r w [Hp Hrest]; unfold run_chain; simpl.
  - rewrite bool_decide_eq_false_2 by apply Hp. by destruct (run_command _ _).
  - apply Forall_cons_1 in Hrest as [Hp' Hrest]. rewrite bool_decide_eq_false_2 by apply Hp.
    destruct (run_command (trim_whitespace p) w) as [status w'].
    specialize (IH p' status w' (conj Hp' Hrest)). unfold run_chain in IH.
    assert (∃ n ns, chain_nodes p' rest = n :: ns) as (n & ns & En) by (destruct rest as [|[]]; simpl; eauto).
    rewrite En in *. rewrite <- IH. clear IH. generalize (run_nodes (n :: ns) status w'). intros X.
    destruct o; simpl; repeat case_bool_decide; simplify_eq/=; done.
Qed.

Lemma conditional_runs p rest w : chain_ok p rest →
  ios_execute_conditional (chain_line p rest) w = Ret (run_chain stopping p rest (release_outer_fork_sentinel w)).
Proof.
  intros Hok. unfold ios_execute_conditional. rewrite parse_conditionals_chain by done. cbn [mbind outcome_bind].
  by rewrite run_nodes_chain.
Qed.

Lemma skipping_false o rest status w : Forall (λ x, fst x = o) rest → goes_on o status = false →
  skipping rest status w = (status, w).
Proof.
  intros Hrest Hgo. induction Hrest as [|[o' p] rest Ho _ IH]; [done|]. simpl in *. subst. by rewrite Hgo.
Qed.

Lemma stopping_uniform o rest status w : Forall (λ x, fst x = o) rest →
  stopping rest status w = skipping rest status w.
Proof.
  intros Hrest. revert status w. induction Hrest as [|[o' p] rest Ho Hrest IH]; intros status w; [done|].
  simpl in *. subst o'. destruct (goes_on o status) eqn:Hgo; [|by rewrite skipping_false with (o := o)].
  destruct (run_command _ _). apply IH.
Qed.

(** C8: A chain of one connective, [a && b && c] or [a || b || c], whose pieces
    close their quotes runs as POSIX says: in order, each command only while
    the connective holds, and the value is that of the last command run. *)
Theorem conditional_posix p rest o w : chain_ok p rest → Forall (λ x, fst x = o) rest →
  ios_execute_conditional (chain_line p rest) w = Ret (run_chain skipping p rest (release_outer_fork_sentinel w)).
Proof.
  intros Hok Ho. rewrite conditional_runs by done. f_equal. unfold run_chain.
  destruct (run_command _ _). by apply (stopping_uniform o).
Qed.

End conditional.

(** ** Which lines are conditions *)

(** A line whose first bar outside quotes is that of [||], such as [a || b] or
    [a && b || c], is not treated as a condition: the test against the bars of
    pipelines compares the first [|] with the first [||], which are the same.
    Without a semicolon and an alias the line becomes a pipeline. *)
Theorem or_never_conditional p rest : closed p → strstrquoted p bar = None → list.last p ≠ Some BAR →
  strstrquoted (p ++ or_or ++ rest) semicolon = None →
  ios_system_dispatch id (p ++ or_or ++ rest) = Pipeline.
Proof.
  intros Hc Hb Hl Hs. pose proof (strstrquoted_None p BAR 0 eq_refl Hb) as Hnone.
  assert (strstrquoted (p ++ or_or ++ rest) bar = Some (length p)) as Hbar.
  { apply (strstrquoted_piece p BAR 0 (bar ++ rest)); [done..|by left]. }
  assert (strstrquoted (p ++ or_or ++ rest) or_or = Some (length p)) as Hor.
  { apply (strstrquoted_piece p BAR 1 rest); [done|done| |by right].
    intros i [Hi Ho]. apply (Hnone i). split; [simpl in *; lia|]. intros j c Hj. apply Ho.
    destruct j; [done|by destruct j]. }
  unfold ios_system_dispatch, ios_check_shell_operators, is_conditional. simpl id.
  rewrite Hs, Hor, Hbar. rewrite (bool_decide_eq_true_2 (length p = length p)) by done.
  rewrite (bool_decide_eq_false_2 (is_Some None)) by by intros []. simpl. rewrite andb_false_r.
  by rewrite bool_decide_eq_true_2 by eauto.
Qed.

(** ** Examples *)

(** Every command succeeds but those that start with [f]. *)
Definition recorded : Type := list text.
Global Instance recording_shell : Shell recorded := {
  ios_fork w := (1%Z, w);
  ios_system c w := (if bool_decide (head c = head (chars "f")) then 1%Z else 0%Z, w ++ [c]);
  ios_waitpid _ w := w;
  release_outer_fork_sentinel w := w }.

Lemma sequential_spec_witness :
  ios_execute_sequential (join semicolon [chars " a 'x;y' "; chars " "; chars "b"]) ([] : recorded) =
    Ret (0%Z, [chars "a 'x;y'"; chars "b"]) ∧
  join semicolon [chars " a 'x;y' "; chars " "; chars "b"] = chars " a 'x;y' ; ;b".
Proof.
  split; [|vm_compute; reflexivity].
  rewrite (sequential_spec [chars " a 'x;y' "; chars " "; chars "b"] ([] : recorded)); [vm_compute; reflexivity|].
  repeat (apply Forall_cons_2; [split; vm_compute; reflexivity|]). apply Forall_nil_2.
Defined.

Lemma link_intro p : closed p → strstrquoted p and_and = None → strstrquoted p or_or = None →
  list.last p ≠ Some AMPERSAND → list.last p ≠ Some BAR → trim_whitespace p ≠ [] → link p.
Proof. intros. split; try done. by intros []. Qed.

Ltac link_solve := apply link_intro; vm_compute; congruence.

Lemma conditional_posix_witness :
  let rest := [(And, chars " fail "); (And, chars " b")] in
  ios_execute_conditional (chain_line (chars "a '&&' ") rest) ([] : recorded) =
    Ret (1%Z, [chars "a '&&'"; chars "fail"]) ∧
  chain_line (chars "a '&&' ") rest = chars "a '&&' && fail && b".
Proof.
  split; [|vm_compute; reflexivity].
  rewrite (conditional_posix (chars "a '&&' ") [(And, chars " fail "); (And, chars " b")] And ([] : recorded)).
  - vm_compute. reflexivity.
  - split; [link_solve|]. repeat (apply Forall_cons_2; [link_solve|]). apply Forall_nil_2.
  - repeat (apply Forall_cons_2; [done|]). apply Forall_nil_2.
Defined.

(** In a mixed chain the code stops where POSIX skips: [a || b && c] runs [c]
    in a shell, here it does not. *)
Theorem conditional_mixed :
  let rest := [(Or, chars "b"); (And, chars "c")] in
  ios_execute_conditional (chars "a||b&&c") ([] : recorded) = Ret (0%Z, [chars "a"]) ∧
  chain_line (chars "a") rest = chars "a||b&&c" ∧
  run_chain skipping (chars "a") rest ([] : recorded) = (0%Z, [chars "a"; chars "c"]).
Proof. vm_compute. split_and!; reflexivity. Qed.
