(* ===== verification/Substitution.v ===== *)
(** * Command substitution ([src/ios_shell_parser.m])

    [ios_expand_substitutions] replaces [$(command)] and [`command`] by the
    output of the command, which [capture_command_output] reads from a pipe.
    - [Capture] is what it takes to run a command with its output redirected:
      the process number of the thread, whether a pipe can be made, and the
      bytes the command writes.  Allocations succeed, but for the growth of the
      read buffer, which may fail.
    - A [word] is a line with nested substitutions; [print] writes it down, [eval]
      is its meaning: inner commands first, from left to right.
    - Theorems: the output is read completely and trailing line ends are cut;
      lines of plain text and plain outputs expand to their meaning, each
      command being run exactly once.  The result is scanned again after each
      replacement, so that output which looks like a substitution is executed,
      possibly without end; and output beyond the capacity of the pipe blocks
      the command for ever. *)

From S2P Require Import Prelude Quoting.
From Stdlib Require Import Ascii.

Definition dollar_paren : text := [DOLLAR; LPAREN].
Definition NEWLINE : ascii := ascii_of_nat 10.
Definition RETURN : ascii := ascii_of_nat 13.
Definition NUL : ascii := ascii_of_nat 0.

(** [strstr]: the index of the first occurrence. *)
Fixpoint strstr (s p : text) : option nat :=
  if bool_decide (take (length p) s = p) then Some 0
  else match s with [] => None | _ :: s => S <$> strstr s p end.

Class Capture (W : Type) := {
  ios_currentPid : W → Z;
  ios_setCurrentPid : Z → W → W;
  pipe_ok : W → bool;              (* [pipe] and [fdopen] succeed *)
  run_redirected : text → W → text * W;   (* what the command writes to the pipe *)
  realloc_ok : nat → bool }.       (* a buffer of that size can be had *)

Section operations.
Context {W : Type} `{Capture W}.

(** The loop of [read] on the pipe, whose write end is closed: [avail] is left
    in it, [buffer] has been read into [capacity] bytes. *)
Fixpoint read_output (fuel : nat) (avail buffer : text) (capacity : nat) : outcome text :=
  match fuel with
  | O => Undef OutOfFuel
  | S fuel =>
      let n := min (length avail) (capacity - length buffer - 1) in
      if bool_decide (n = 0) then
        if bool_decide (length buffer < capacity) then Ret buffer else Undef OutOfBounds
      else
        let buffer := buffer ++ take n avail in
        if bool_decide (capacity - 1 ≤ length buffer) then
          if realloc_ok (capacity * 2) then read_output fuel (drop n avail) buffer (capacity * 2)
          else if bool_decide (length buffer < capacity) then Ret buffer else Undef OutOfBounds
        else read_output fuel (drop n avail) buffer capacity
  end.

Definition is_line_end (c : ascii) : bool := bool_decide (c = NEWLINE) || bool_decide (c = RETURN).
Definition strip_line_ends (s : text) : text := rev (skip_while is_line_end (rev s)).

(** The buffer read as a C string. *)
Fixpoint c_string (s : text) : text :=
  match s with
  | [] => []
  | c :: s => if bool_decide (c = NUL) then [] else c :: c_string s
  end.

Definition capture_command_output (command : text) (w : W) : outcome (text * W) :=
  if bool_decide (command = []) then Ret ([], w)
  else
    let saved_outer_pid := ios_currentPid w in
    if negb (pipe_ok w) then Ret ([], w)
    else
      let '(output, w) := run_redirected command w in
      let w := ios_setCurrentPid saved_outer_pid w in
      buffer ← read_output (S (length output)) output [] 4096;
      Ret (c_string (strip_line_ends buffer), w).

Fixpoint backtick_loop (fuel : nat) (result : text) (w : W) : outcome (text * W) :=
  match fuel with
  | O => Undef OutOfFuel
  | S fuel =>
      match find_backtick result with
      | None => Ret (result, w)
      | Some b1 =>
          match find_backtick (drop (b1 + 1) result) with
          | None => Ret (result, w)
          | Some k =>
              let inner_cmd := take k (drop (b1 + 1) result) in
              '(output, w) ← capture_command_output inner_cmd w;
              backtick_loop fuel (string_replace_range result b1 (b1 + 1 + k + 1) output) w
          end
      end
  end.

Definition has_markers (input : text) : bool :=
  bool_decide (is_Some (strstr input dollar_paren)) || bool_decide (BACKTICK ∈ input).

Fixpoint ios_expand_substitutions (fuel : nat) (input : text) (w : W) : outcome (text * W) :=
  match fuel with
  | O => Undef OutOfFuel
  | S fuel =>
      if has_markers input then
        '(result, w) ← dollar_loop fuel input w;
        backtick_loop fuel result w
      else Ret (input, w)
  end
with dollar_loop (fuel : nat) (result : text) (w : W) : outcome (text * W) :=
  match fuel with
  | O => Undef OutOfFuel
  | S fuel =>
      match strstr result dollar_paren with
      | None => Ret (result, w)
      | Some _ =>
          match strstrquoted result dollar_paren with
          | None => Ret (result, w)
          | Some d =>
              match find_matching_paren (drop (d + 2) result) with
              | None => Ret (result, w)
              | Some k =>
                  let inner_cmd := take k (drop (d + 2) result) in
                  '(inner_cmd, w) ← ios_expand_substitutions fuel inner_cmd w;
                  '(output, w) ← capture_command_output inner_cmd w;
                  dollar_loop fuel (string_replace_range result d (d + 2 + k + 1) output) w
              end
          end
      end
  end.

Lemma expand_S fuel input w : ios_expand_substitutions (S fuel) input w =
  if has_markers input then '(result, w) ← dollar_loop fuel input w; backtick_loop fuel result w
  else Ret (input, w).
Proof. done. Qed.

Lemma dollar_loop_S fuel result w : dollar_loop (S fuel) result w =
  match strstr result dollar_paren with
  | None => Ret (result, w)
  | Some _ =>
      match strstrquoted result dollar_paren with
      | None => Ret (result, w)
      | Some d =>
          match find_matching_paren (drop (d + 2) result) with
          | None => Ret (result, w)
          | Some k =>
              '(inner_cmd, w) ← ios_expand_substitutions fuel (take k (drop (d + 2) result)) w;
              '(output, w) ← capture_command_output inner_cmd w;
              dollar_loop fuel (string_replace_range result d (d + 2 + k + 1) output) w
          end
      end
  end.
Proof. done. Qed.

End operations.

(** ** Reading the output *)

Section capture.
Context {W : Type} `{Capture W}.

(** As long as the buffer can grow, the whole output is read, never outside the
    buffer. *)
Lemma read_output_all fuel avail buffer capacity : (∀ n, realloc_ok n = true) → length avail < fuel →
  length buffer + 1 < capacity → read_output fuel avail buffer capacity = Ret (buffer ++ avail).
Proof.
  intros Hr. revert avail buffer capacity. induction fuel as [|fuel IH]; intros avail buffer capacity Hf Hc; [lia|].
  cbn [read_output]. set (n := min _ _).
  case_bool_decide as Hn.
  - rewrite bool_decide_eq_true_2 by lia. destruct avail; [by rewrite app_nil_r|]. subst n. cbn [length] in Hn. lia.
  - assert (length (take n avail) = n) as Hl by (rewrite length_take; lia).
    assert (length (drop n avail) < fuel) by (rewrite length_drop; lia).
    assert ((buffer ++ take n avail) ++ drop n avail = buffer ++ avail) as Happ.
    { by rewrite <- app_assoc, take_drop. }
    rewrite length_app, Hl.
    case_bool_decide; [rewrite Hr|]; (rewrite IH; [by rewrite Happ|done|rewrite length_app, Hl; lia]).
Qed.

(** [capture_command_output] delivers what the command wrote without trailing
    line ends, up to the first zero byte, and restores the process number. *)
Theorem capture_spec command w : (∀ n, realloc_ok n = true) → command ≠ [] → pipe_ok w = true →
  capture_command_output command w =
  let '(output, w') := run_redirected command w in
  Ret (c_string (strip_line_ends output), ios_setCurrentPid (ios_currentPid w) w').
Proof.
  intros Hr Hc Hp. unfold capture_command_output. rewrite bool_decide_eq_false_2, Hp by done. cbn [negb].
  destruct (run_redirected command w) as [output w']. rewrite read_output_all; [done|done|lia|cbn [length]; lia].
Qed.

End capture.

(** ** Lines with substitutions *)

Inductive word : Type :=
  | Empty
  | Lit (t : text) (rest : word)
  | Sub (inner rest : word).

Fixpoint print (x : word) : text :=
  match x with
  | Empty => []
  | Lit t rest => t ++ print rest
  | Sub inner rest => dollar_paren ++ print inner ++ [RPAREN] ++ print rest
  end.

(** Characters without a meaning for quoting and substitution. *)
Definition plain_char (c : ascii) : bool :=
  negb (bool_decide (c ∈ [DOLLAR; BACKTICK; DQUOTE; SQUOTE; BACKSLASH; LPAREN; RPAREN])).
Definition plain (t : text) : Prop := Forall (λ c, plain_char c = true) t.

Section meaning.
Context {W : Type} (capture : text → W → text * W).

(** The text of a line and the world after its commands have run. *)
Fixpoint eval (x : word) (w : W) : text * W :=
  match x with
  | Empty => ([], w)
  | Lit t rest => let '(s, w) := eval rest w in (t ++ s, w)
  | Sub inner rest =>
      let '(c, w) := eval inner w in
      let '(o, w) := capture c w in
      let '(s, w) := eval rest w in (o ++ s, w)
  end.

(** The literals and the outputs met on the way are plain. *)
Fixpoint plain_word (x : word) (w : W) : Prop :=
  match x with
  | Empty => True
  | Lit t rest => plain t ∧ plain_word rest w
  | Sub inner rest =>
      plain_word inner w ∧
      let '(c, w) := eval inner w in
      let '(o, w) := capture c w in
      plain o ∧ plain_word rest w
  end.

Lemma eval_plain x w : plain_word x w → plain (fst (eval x w)).
Proof.
  revert w. induction x as [|t rest IH|inner IHi rest IH]; intros w; simpl.
  - intros _. apply Forall_nil_2.
  - intros [Ht Hr]. specialize (IH w Hr). destruct (eval rest w) as [s w']. simpl in *. by apply Forall_app_2.
  - intros [Hi Hr]. destruct (eval inner w) as [c w1]. destruct (capture c w1) as [o w2]. destruct Hr as [Ho Hr].
    specialize (IH w2 Hr). destruct (eval rest w2) as [s w3]. simpl in *. by apply Forall_app_2.
Qed.

End meaning.

(** *** What the scanners find in plain text *)

Lemma plain_char_ne c d : plain_char c = true → plain_char d = false → c ≠ d.
Proof. intros Hc Hd ->. congruence. Qed.

Lemma strstr_plain t rest : plain t → strstr (t ++ dollar_paren ++ rest) dollar_paren = Some (length t).
Proof.
  intros Ht. induction Ht as [|c t Hc _ IH]; [done|]. cbn [app strstr length].
  rewrite bool_decide_eq_false_2; [by rewrite IH|].
  intros Hx. apply (plain_char_ne c DOLLAR Hc); [done|]. by injection Hx.
Qed.

Lemma strstr_none t : plain t → strstr t dollar_paren = None.
Proof.
  intros Ht. induction Ht as [|c t Hc _ IH]; [done|]. cbn [strstr length].
  rewrite bool_decide_eq_false_2; [by rewrite IH|].
  intros Hx. apply (plain_char_ne c DOLLAR Hc); [done|]. by injection Hx.
Qed.

Lemma plain_not_quote c : plain_char c = true → is_quote c = false.
Proof.
  intros Hc. unfold is_quote. rewrite !bool_decide_eq_false_2; [done|by apply plain_char_ne..].
Qed.

Lemma strstrquoted_plain t rest : plain t → strstrquoted (t ++ dollar_paren ++ rest) dollar_paren = Some (length t).
Proof.
  intros Ht. unfold strstrquoted. rewrite bool_decide_eq_false_2 by (rewrite !length_app; simpl; lia).
  assert (∀ i, quoted_scan (t ++ dollar_paren ++ rest) dollar_paren i None 0 0 = Some (i + length t)) as Hscan.
  { induction Ht as [|c t Hc _ IH]; intros i.
    - cbn. rewrite Nat.add_0_r. f_equal. lia.
    - cbn [app quoted_scan]. rewrite (plain_not_quote c Hc).
      rewrite (bool_decide_eq_false_2 (c = BACKSLASH)) by by apply plain_char_ne.
      rewrite bool_decide_eq_false_2.
      + rewrite IH. f_equal. simpl. lia.
      + intros Hx. apply (plain_char_ne c DOLLAR Hc); [done|]. by injection Hx. }
  case_bool_decide as Heq; [|apply Hscan].
  f_equal. apply (f_equal length) in Heq. rewrite !length_app in Heq. simpl in Heq. lia.
Qed.

(** A printed word is passed over by the search for the closing parenthesis. *)
Lemma paren_scan_plain t rest i depth : plain t →
  paren_scan (t ++ rest) i depth false false = paren_scan rest (i + length t) depth false false.
Proof.
  intros Ht. revert i. induction Ht as [|c t Hc _ IH]; intros i; [by rewrite Nat.add_0_r|].
  cbn [app paren_scan negb andb]. rewrite !bool_decide_eq_false_2 by by apply plain_char_ne.
  rewrite IH. f_equal. simpl. lia.
Qed.

Lemma paren_scan_print {W} (capture : text → W → text * W) x w rest i depth : plain_word capture x w → 0 < depth →
  paren_scan (print x ++ rest) i depth false false = paren_scan rest (i + length (print x)) depth false false.
Proof.
  revert w rest i depth. induction x as [|t x IH|inner IHi x IH]; intros w rest i depth Hx Hd.
  - simpl. by rewrite Nat.add_0_r.
  - destruct Hx as [Ht Hx]. cbn [print]. rewrite <- app_assoc, paren_scan_plain, (IH w), length_app by done.
    f_equal. lia.
  - destruct Hx as [Hi Hx]. cbn [print]. rewrite <- !app_assoc.
    destruct (eval capture inner w) as [c w1]. destruct (capture c w1) as [o w2]. destruct Hx as [_ Hx].
    change (paren_scan (print inner ++ [RPAREN] ++ print x ++ rest) (S (S i)) (S depth) false false =
      paren_scan rest (i + length (dollar_paren ++ print inner ++ [RPAREN] ++ print x)) depth false false).
    rewrite (IHi w) by (done || lia). cbn [app paren_scan]. destruct depth as [|depth]; [lia|]. cbn.
    etransitivity; [apply (IH w2); [done|lia]|]. f_equal. rewrite !length_app. simpl. lia.
Qed.

Lemma find_matching_paren_print {W} (capture : text → W → text * W) x w rest : plain_word capture x w →
  find_matching_paren (print x ++ [RPAREN] ++ rest) = Some (length (print x)).
Proof. intros Hx. unfold find_matching_paren. rewrite (paren_scan_print capture x w) by (done || lia). done. Qed.

Lemma find_backtick_plain t : plain t → find_backtick t = None.
Proof.
  intros Ht. unfold find_backtick. generalize 0 as i. induction Ht as [|c t Hc _ IH]; intros i; [done|].
  cbn [backtick_scan negb andb]. rewrite !bool_decide_eq_false_2 by by apply plain_char_ne. apply IH.
Qed.

(** *** Expansion is evaluation *)

Section expansion.
Context {W : Type} `{Capture W}.
Context (buffer_grows : ∀ n, realloc_ok n = true).

Definition captured (command : text) (w : W) : text * W :=
  if bool_decide (command = []) then ([], w)
  else if negb (pipe_ok w) then ([], w)
  else
    let '(output, w') := run_redirected command w in
    (c_string (strip_line_ends output), ios_setCurrentPid (ios_currentPid w) w').

Lemma capture_captured command w : capture_command_output command w = Ret (captured command w).
Proof.
  unfold captured, capture_command_output. case_bool_decide; [done|]. destruct (pipe_ok w); [|done]. cbn [negb].
  destruct (run_redirected command w) as [output w']. rewrite read_output_all; [done|done|lia|cbn [length]; lia].
Qed.

(** The fuel a line takes. *)
Fixpoint word_size (x : word) : nat :=
  match x with
  | Empty => 0
  | Lit _ rest => word_size rest
  | Sub inner rest => 2 + word_size inner + word_size rest
  end.

(** A line without substitutions means itself. *)
Lemma no_markers x w s : plain_word captured x w → plain s → has_markers (s ++ print x) = false →
  eval captured x w = (print x, w).
Proof.
  revert w s. induction x as [|t x IH|inner IHi x IH]; intros w s Hx Hs Hm; [done|..].
  - destruct Hx as [Ht Hx]. cbn [eval print] in *. rewrite app_assoc in Hm.
    by rewrite (IH w (s ++ t)) by (done || by apply Forall_app_2).
  - exfalso. unfold has_markers in Hm. cbn [print] in Hm.
    rewrite strstr_plain in Hm by done. rewrite bool_decide_eq_true_2 in Hm by eauto. done.
Qed.

Lemma string_replace_sub (s i o r : text) :
  string_replace_range (s ++ dollar_paren ++ i ++ [RPAREN] ++ r) (length s) (length s + 2 + length i + 1) o = s ++ o ++ r.
Proof.
  unfold string_replace_range. rewrite take_app_length. do 2 f_equal.
  replace (s ++ dollar_paren ++ i ++ [RPAREN] ++ r) with ((s ++ dollar_paren ++ i ++ [RPAREN]) ++ r)
    by by rewrite <- !app_assoc.
  rewrite drop_app_ge by (rewrite !length_app; simpl; lia).
  replace (_ - _) with 0 by (rewrite !length_app; simpl; lia). done.
Qed.

Lemma drop_piece2 (s r : text) : drop (length s + 2) (s ++ dollar_paren ++ r) = r.
Proof. rewrite drop_app_ge by lia. by replace (length s + 2 - length s) with 2 by lia. Qed.

Lemma backtick_loop_plain fuel t w : plain t → 0 < fuel → backtick_loop fuel t w = Ret (t, w).
Proof. intros Ht Hf. destruct fuel; [lia|]. cbn [backtick_loop]. by rewrite find_backtick_plain. Qed.

Lemma expand_word fuel :
  (∀ x w, S (word_size x) < fuel → plain_word captured x w →
    ios_expand_substitutions fuel (print x) w = Ret (eval captured x w)) ∧
  (∀ x w s, word_size x < fuel → plain s → plain_word captured x w →
    dollar_loop fuel (s ++ print x) w = Ret (s ++ fst (eval captured x w), snd (eval captured x w))).
Proof.
  induction fuel as [|fuel [IHe IHd]]; [split; intros; lia|]. split.
  - intros x w Hf Hx. rewrite expand_S.
    destruct (has_markers (print x)) eqn:Hm.
    + specialize (IHd x w [] ltac:(lia) (Forall_nil_2 _) Hx). cbn [app] in IHd. rewrite IHd.
      cbn [mbind outcome_bind]. pose proof (eval_plain captured x w Hx) as Hp.
      destruct (eval captured x w) as [t w']. apply backtick_loop_plain; [done|lia].
    + rewrite (no_markers x w []); [done|done|apply Forall_nil_2|done].
  - intros x. induction x as [|t x IHx|inner _ x _]; intros w s Hf Hs Hx.
    + rewrite dollar_loop_S. cbn [print eval fst snd]. rewrite app_nil_r. by rewrite strstr_none.
    + destruct Hx as [Ht Hx]. cbn [print]. rewrite app_assoc, IHx; [|done|by apply Forall_app_2|done].
      cbn [eval]. destruct (eval captured x w). by rewrite <- app_assoc.
    + destruct Hx as [Hi Hx]. rewrite dollar_loop_S. cbn [print]. simpl in Hf.
      rewrite strstr_plain, strstrquoted_plain by done.
      rewrite drop_piece2, (find_matching_paren_print captured inner w), take_app_length by done.
      rewrite IHe by (done || lia). cbn [mbind outcome_bind].
      cbn [eval]. destruct (eval captured inner w) as [c w1]. rewrite capture_captured. cbn [mbind outcome_bind].
      destruct (captured c w1) as [o w2]. destruct Hx as [Ho Hx].
      rewrite string_replace_sub, app_assoc, IHd; [|lia|by apply Forall_app_2|done].
      destruct (eval captured x w2). by rewrite <- app_assoc.
Qed.


End expansion.

(** ** Output that looks like a substitution *)

Section rescanning.
Context {W : Type} `{Capture W}.
Context (buffer_grows : ∀ n, realloc_ok n = true).

Lemma expand_plain fuel t w : plain t → ios_expand_substitutions (S fuel) t w = Ret (t, w).
Proof.
  intros Ht. rewrite expand_S. unfold has_markers. rewrite strstr_none by done.
  rewrite !bool_decide_eq_false_2; [done| |by intros []].
  intros Hin. by specialize (proj1 (list.Forall_forall _ _) Ht _ Hin).
Qed.

(** A command that prints its own substitution keeps the expansion busy for
    ever, however long it runs. *)
Theorem substitution_diverges c fuel w : plain c →
  (∀ w, fst (captured c w) = dollar_paren ++ c ++ [RPAREN]) →
  ios_expand_substitutions fuel (dollar_paren ++ c ++ [RPAREN]) w = Undef OutOfFuel.
Proof.
  intros Hc Hout.
  assert (∀ fuel w, dollar_loop fuel (dollar_paren ++ c ++ [RPAREN]) w = Undef OutOfFuel) as Hloop.
  { clear fuel w. intros fuel. induction fuel as [|fuel IH]; intros w; [done|].
    rewrite dollar_loop_S. pose proof (strstr_plain [] (c ++ [RPAREN]) (Forall_nil_2 _)) as H1.
    pose proof (strstrquoted_plain [] (c ++ [RPAREN]) (Forall_nil_2 _)) as H2. cbn [app length] in H1, H2.
    rewrite H1, H2. change (drop (0 + 2) (dollar_paren ++ c ++ [RPAREN])) with (c ++ [RPAREN]).
    assert (find_matching_paren (c ++ [RPAREN]) = Some (length c)) as ->.
    { unfold find_matching_paren. by rewrite paren_scan_plain. }
    destruct fuel as [|fuel]; [done|]. rewrite take_app_length, expand_plain by done. cbn [mbind outcome_bind].
    rewrite capture_captured by done. cbn [mbind outcome_bind].
    specialize (Hout w). destruct (captured c w) as [o w']. simpl in Hout. subst o.
    pose proof (string_replace_sub [] c (dollar_paren ++ c ++ [RPAREN]) []) as Hr.
    rewrite !app_nil_r in Hr. etransitivity; [|apply (IH w')]. f_equal. exact Hr. }
  destruct fuel as [|fuel]; [done|]. rewrite expand_S.
  assert (has_markers (dollar_paren ++ c ++ [RPAREN]) = true) as ->.
  { unfold has_markers. pose proof (strstr_plain [] (c ++ [RPAREN]) (Forall_nil_2 _)) as H1. cbn [app length] in H1.
    rewrite H1. by rewrite bool_decide_eq_true_2 by eauto. }
  by rewrite Hloop.
Qed.

End rescanning.

(** ** Examples *)

(** Commands are recorded; their outputs are given by a table. *)
Record recorder := Recorder { ran : list text; current : Z }.
Definition output_table (c : text) : text :=
  if bool_decide (c = chars "name") then chars "f" ++ [NEWLINE]
  else if bool_decide (c = chars "cat f") then chars "hello" ++ [NEWLINE; NEWLINE]
  else if bool_decide (c = chars "evil") then chars "$(rm -r x)"
  else if bool_decide (c = chars "loop") then chars "$(loop)"
  else [].
Global Instance recorder_capture : Capture recorder := {
  ios_currentPid := current;
  ios_setCurrentPid p w := Recorder (ran w) p;
  pipe_ok _ := true;
  run_redirected c w := (output_table c, Recorder (ran w ++ [c]) (current w + 1)%Z);
  realloc_ok _ := true }.

Lemma recorder_grows n : @realloc_ok recorder _ n = true.
Proof. reflexivity. Qed.

Definition nested_word : word :=
  Lit (chars "echo ") (Sub (Lit (chars "cat ") (Sub (Lit (chars "name") Empty) Empty)) (Lit (chars "!") Empty)).

Lemma plain_bool t : forallb plain_char t = true → plain t.
Proof.
  intros Ht. apply list.Forall_forall. intros c Hc.
  apply (proj1 (forallb_forall _ _) Ht). by apply list_elem_of_In.
Qed.


Lemma substitution_diverges_witness :
  ios_expand_substitutions 20 (dollar_paren ++ chars "loop" ++ [RPAREN]) (Recorder [] 0) = Undef OutOfFuel.
Proof.
  apply (substitution_diverges (W := recorder) recorder_grows).
  - apply plain_bool. vm_compute. reflexivity.
  - intros w. vm_compute. reflexivity.
Defined.

(** The output of a command is executed when it looks like a substitution. *)
Theorem substitution_injection :
  ios_expand_substitutions 10 (chars "echo $(evil)") (Recorder [] 0) =
  Ret (chars "echo ", Recorder [chars "evil"; chars "rm -r x"] 0).
Proof. vm_compute. reflexivity. Qed.

(** ** The pipe

    [capture_command_output] reads the pipe only after the command has ended,
    and a command that writes to a full pipe waits. *)

Record transfer := Transfer {
  to_write : nat;      (* bytes the command has still to write *)
  in_pipe : nat;
  ended : bool;        (* the command has ended and [ios_waitpid] returned *)
  delivered : nat }.

Inductive transfer_event : Set := WriteByte | EndCommand | ReadByte.

Definition transfer_step (capacity : nat) (ev : transfer_event) (s : transfer) : option transfer :=
  match ev with
  | WriteByte =>
      if bool_decide (0 < to_write s) && bool_decide (in_pipe s < capacity)
      then Some (Transfer (to_write s - 1) (in_pipe s + 1) (ended s) (delivered s)) else None
  | EndCommand =>
      if bool_decide (to_write s = 0) then Some (Transfer 0 (in_pipe s) true (delivered s)) else None
  | ReadByte =>
      if ended s && bool_decide (0 < in_pipe s)
      then Some (Transfer (to_write s) (in_pipe s - 1) (ended s) (delivered s + 1)) else None
  end.

Definition transfer_start (n : nat) (s : transfer) : Prop := s = Transfer n 0 false 0.

(** A command with more output than the pipe holds never ends: the
    substitution waits for it without reading. *)
Theorem capture_deadlock capacity n s : capacity < n →
  reachable (transfer_step capacity) (transfer_start n) s → ended s = false ∧ delivered s = 0.
Proof.
  intros Hn Hs.
  cut (ended s = false ∧ delivered s = 0 ∧ to_write s + in_pipe s = n ∧ in_pipe s ≤ capacity); [tauto|].
  apply (reachable_invariant (transfer_step capacity) (transfer_start n)
    (λ s, ended s = false ∧ delivered s = 0 ∧ to_write s + in_pipe s = n ∧ in_pipe s ≤ capacity)); [| |done].
  - intros ? ->. simpl. lia.
  - intros [] t t' (He & Hd & Hsum & Hcap) Hstep; simpl in Hstep.
    + repeat case_bool_decide; simplify_eq/=; split_and!; try done; lia.
    + case_bool_decide; [|done]. exfalso. lia.
    + rewrite He in Hstep. done.
Qed.

Lemma capture_deadlock_witness : ∃ s, run (transfer_step 2) [WriteByte; WriteByte] (Transfer 3 0 false 0) = Some s ∧
  ended s = false.
Proof.
  exists (Transfer 1 2 false 0). split; [vm_compute; reflexivity|].
  apply (capture_deadlock 2 3); [lia|].
  apply (run_reachable _ _ [WriteByte; WriteByte] (Transfer 3 0 false 0)); [by apply reachable_init|reflexivity].
Defined.
