(* ===== verification/Pipeline.v ===== *)
(** * Pipelines of commands ([src/ios_pipeline.m])

    [ios_pipeline_execute] splits a line at its bars, connects the stages with
    pipes and starts a thread per stage; [ios_pipeline_wait] joins them.
    - [parse_pipeline] walks over the line once; characters already passed
      matter only through the last one, [prev].
    - [setup] gives each stage its three streams; a [stream] is an end of a pipe
      or one the caller or the process owns.  [stage_cleanup] is what the thread
      of a stage does to its streams when the command has ended, with the set of
      open streams, those of the caller and the process among them, as its
      state: flushing or closing a stream that is not open is undefined.
    - The threads of the stages, waiting and killing are in [PipelineRun].
    - Theorems: lines of at most 32 stages are taken apart correctly, longer
      ones overrun the array of stages; in every order of their ends the stages
      close all pipe ends exactly once, unless the line shares the error output,
      where every stage but the last closes a stream twice. *)

From S2P Require Import Prelude Quoting ShellParser.
From Stdlib Require Import Ascii.

Definition MAX_PIPELINE_STAGES : nat := 32.

(** ** Parsing *)

Definition is_space (c : ascii) : bool := bool_decide (c = SPACE).

(** [stages[num_stages++] = strdup(stage)] when the stage is not empty; the
    array has [MAX_PIPELINE_STAGES] entries. *)
Definition add_stage (stages : list text) (stage : text) : outcome (list text) :=
  if bool_decide (stage = []) then Ret stages
  else if bool_decide (length stages < MAX_PIPELINE_STAGES) then Ret (stages ++ [stage])
  else Undef OutOfBounds.

(** The code after the loop: the rest of the line from [stage_start]. *)
Definition last_stage (stages : list text) (stage_start : text) : outcome (list text) :=
  add_stage stages (trim_end is_space (skip_while is_space stage_start)).

(** The loop.  [stage] is the line from [stage_start] to [ptr], [prev] the
    character before [ptr], and [as_space] tells that the next character, an
    ampersand after a bar, has been overwritten with a space. *)
Fixpoint pipeline_loop (rest : text) (prev : option ascii) (as_space : bool) (stage : text)
    (stages : list text) (share_stderr : bool) : outcome (list text * bool) :=
  match rest with
  | [] => stages ← last_stage stages stage; Ret (stages, share_stderr)
  | ch :: rest =>
      let ch := if as_space then SPACE else ch in
      if bool_decide (length stages < MAX_PIPELINE_STAGES) then
        if bool_decide (ch = BAR) then
          if bool_decide (prev = Some AMPERSAND) then
            (* the ampersand becomes the end of the stage, which is not trimmed *)
            stages ← add_stage stages (skip_while is_space (take (length stage - 1) stage));
            pipeline_loop rest None false [] stages true
          else
            stages ← add_stage stages (trim_end is_space (skip_while is_space stage));
            if bool_decide (head rest = Some AMPERSAND)
            then pipeline_loop rest None true [] stages true
            else pipeline_loop rest None false [] stages share_stderr
        else pipeline_loop rest (Some ch) false (stage ++ [ch]) stages share_stderr
      else stages ← last_stage stages (stage ++ ch :: rest); Ret (stages, share_stderr)
  end.

Definition parse_pipeline (command : text) : outcome (list text * bool) :=
  pipeline_loop command None false [] [] false.

(** ** Streams of the stages *)

Inductive stream : Set :=
  | External (n : nat)        (* given by the caller *)
  | Standard (n : nat)        (* [stdin], [stdout] or [stderr] of the process: 0, 1, 2 *)
  | ReadEnd (pipe : nat)      (* of the pipe between two stages, as a [FILE] *)
  | WriteEnd (pipe : nat).
Global Instance stream_eq_dec : EqDecision stream.
Proof. solve_decision. Defined.
Global Instance stream_countable : Countable stream.
Proof.
  refine (inj_countable' (λ s, match s with
    | External n => (0, n) | Standard n => (1, n) | ReadEnd n => (2, n) | WriteEnd n => (3, n) end)
    (λ '(k, n), match k with 0 => External n | 1 => Standard n | 2 => ReadEnd n | _ => WriteEnd n end) _).
  by intros [].
Defined.

Record ios_pipeline_options_t := Options {
  opt_input : option stream; opt_output : option stream; opt_error : option stream }.

Record ios_pipeline_stage := Stage {
  stdin_stream : option stream; stdout_stream : option stream; stderr_stream : option stream;
  stdin_is_external : bool; stdout_is_external : bool; stderr_is_external : bool }.

(** The streams of stage [i] of [num_stages]; pipe [i] connects it to the next
    one.  [pipe] and [fdopen] succeed. *)
Definition setup (opts : ios_pipeline_options_t) (share_stderr : bool) (num_stages i : nat) : ios_pipeline_stage :=
  let first := bool_decide (i = 0) in
  let last := bool_decide (i = num_stages - 1) in
  let stdin := if first then default (Standard 0) (opt_input opts) else ReadEnd (i - 1) in
  let stdout := if last then default (Standard 1) (opt_output opts) else WriteEnd i in
  let '(stderr, stderr_external) :=
    if share_stderr || last then
      match last, opt_error opts with
      | true, Some e => (e, true)
      | _, _ => (stdout, last)
      end
    else (default (Standard 2) (opt_error opts), bool_decide (is_Some (opt_error opts))) in
  Stage (Some stdin) (Some stdout) (Some stderr) first last stderr_external.

Definition pipe_end (s : stream) : bool := match s with ReadEnd _ | WriteEnd _ => true | _ => false end.

(** [fflush] and [fclose] of a stream, which must be open. *)
Definition fflush (s : stream) (opened : gset stream) : outcome (gset stream) :=
  if bool_decide (s ∈ opened) then Ret opened else Undef UseAfterFree.
Definition fclose (s : stream) (opened : gset stream) : outcome (gset stream) :=
  if bool_decide (s ∈ opened) then Ret (opened ∖ {[ s ]}) else Undef UseAfterFree.

Definition when_stream (s : option stream) (guard : stream → bool) (f : stream → gset stream → outcome (gset stream))
    (opened : gset stream) : outcome (gset stream) :=
  match s with
  | Some s => if guard s then f s opened else Ret opened
  | None => Ret opened
  end.

(** The end of [pipeline_stage_thread]: flush the output, close the streams the
    pipeline made.  [stdout_stream] is set to NULL when it has been closed. *)
Definition stage_cleanup (st : ios_pipeline_stage) (opened : gset stream) : outcome (gset stream) :=
  opened ← when_stream (stdout_stream st) (λ _, true) fflush opened;
  opened ← when_stream (stderr_stream st) (λ s, negb (bool_decide (Some s = stdout_stream st))) fflush opened;
  let closes_stdout s := negb (stdout_is_external st) && negb (bool_decide (s = Standard 1)) in
  opened ← when_stream (stdout_stream st) closes_stdout fclose opened;
  let stdout_now :=
    match stdout_stream st with
    | Some s => if closes_stdout s then None else Some s
    | None => None
    end in
  opened ← when_stream (stderr_stream st)
    (λ s, negb (stderr_is_external st) && negb (bool_decide (s = Standard 2)) &&
          negb (bool_decide (Some s = stdout_now))) fclose opened;
  when_stream (stdin_stream st)
    (λ s, negb (stdin_is_external st) && negb (bool_decide (s = Standard 0))) fclose opened.

(** The ends of the pipes of a pipeline. *)
Definition all_ends (num_stages : nat) : gset stream :=
  list_to_set ((ReadEnd <$> seq 0 (num_stages - 1)) ++ (WriteEnd <$> seq 0 (num_stages - 1))).

(** The stages end in some order. *)
Fixpoint cleanup_all (opts : ios_pipeline_options_t) (share : bool) (n : nat) (order : list nat) (opened : gset stream)
    : outcome (gset stream) :=
  match order with
  | [] => Ret opened
  | i :: order => opened ← stage_cleanup (setup opts share n i) opened; cleanup_all opts share n order opened
  end.

(** ** Lines of stages *)

Definition trim_spaces (p : text) : text := trim_end is_space (skip_while is_space p).

(** A stage as it is written: no bar or ampersand, not blank. *)
Record stage_text (p : text) : Prop := {
  st_bar : BAR ∉ p;
  st_ampersand : AMPERSAND ∉ p;
  st_nonblank : trim_spaces p ≠ [] }.

Lemma trim_spaces_nil p : trim_spaces p = [] ↔ Forall (λ c, c = SPACE) p.
Proof.
  unfold trim_spaces. induction p as [|c p IH]; simpl; [by split|]. unfold is_space at 2. case_bool_decide as Hc.
  - rewrite IH. split; [by intros; apply Forall_cons_2|by intros [_ ?]%Forall_cons_1].
  - split; [done|]. by intros [? _]%Forall_cons_1.
Qed.

(** The characters of a stage are passed over. *)
Lemma pipeline_loop_stage p rest prev stage stages share : BAR ∉ p → AMPERSAND ∉ p → prev ≠ Some AMPERSAND →
  length stages < MAX_PIPELINE_STAGES → ∃ prev', prev' ≠ Some AMPERSAND ∧
  pipeline_loop (p ++ rest) prev false stage stages share =
  pipeline_loop rest prev' false (stage ++ p) stages share.
Proof.
  revert prev stage. induction p as [|c p IH]; intros prev stage Hb Ha Hprev Hs.
  { exists prev. split; [done|]. by rewrite app_nil_r. }
  apply not_elem_of_cons in Hb as [Hb1 Hb2]. apply not_elem_of_cons in Ha as [Ha1 Ha2].
  destruct (IH (Some c) (stage ++ [c]) Hb2 Ha2) as (prev' & ? & He); [congruence|done|].
  exists prev'. split; [done|]. cbn [app pipeline_loop].
  rewrite bool_decide_eq_true_2, bool_decide_eq_false_2 by done. rewrite He. by rewrite <- app_assoc.
Qed.

Lemma head_join p ps : stage_text p → head (join bar (p :: ps)) ≠ Some AMPERSAND.
Proof.
  intros Hp Hh. apply (st_ampersand p Hp).
  assert (p ≠ []) as Hne. { intros ->. by destruct (st_nonblank [] Hp). }
  destruct p as [|c p]; [done|]. assert (c = AMPERSAND) as -> by (destruct ps; simpl in Hh; congruence). by left.
Qed.

Lemma join_nonblank p ps : stage_text p → trim_spaces (join bar (p :: ps)) ≠ [].
Proof.
  intros Hp. rewrite trim_spaces_nil. intros Hall. apply (st_nonblank p Hp). apply trim_spaces_nil.
  destruct ps as [|p' ps]; [done|]. rewrite join_cons in Hall. by apply list.Forall_app in Hall as [? _].
Qed.

Lemma add_stage_nonempty stages p : p ≠ [] → length stages < MAX_PIPELINE_STAGES →
  add_stage stages p = Ret (stages ++ [p]).
Proof. intros. unfold add_stage. by rewrite bool_decide_eq_false_2, bool_decide_eq_true_2. Qed.

Lemma pipeline_loop_join ps stages : Forall stage_text ps → ps ≠ [] → length stages ≤ MAX_PIPELINE_STAGES →
  pipeline_loop (join bar ps) None false [] stages false =
  if decide (length stages + length ps ≤ MAX_PIPELINE_STAGES) then Ret (stages ++ (trim_spaces <$> ps), false)
  else Undef OutOfBounds.
Proof.
  revert stages. induction ps as [|p ps IH]; intros stages Hps Hne Hl; [done|].
  apply Forall_cons_1 in Hps as [Hp Hps].
  destruct (decide (length stages < MAX_PIPELINE_STAGES)) as [Hlt|Hge].
  - destruct ps as [|p' ps].
    + destruct (pipeline_loop_stage p [] None [] stages false) as (prev' & _ & He); try apply Hp; try done.
      rewrite app_nil_r in He. simpl join. rewrite He. simpl. unfold last_stage.
      rewrite add_stage_nonempty by (done || apply Hp). cbn [mbind outcome_bind].
      rewrite decide_True by lia. done.
    + rewrite join_cons.
      destruct (pipeline_loop_stage p (bar ++ join bar (p' :: ps)) None [] stages false) as (prev' & Hprev & ->);
        try apply Hp; try done.
      change (bar ++ ?x) with (BAR :: x). cbn [pipeline_loop].
      rewrite (bool_decide_eq_true_2 (length stages < MAX_PIPELINE_STAGES)), bool_decide_eq_true_2 by done.
      rewrite (bool_decide_eq_false_2 (prev' = Some AMPERSAND)) by done.
      rewrite add_stage_nonempty by (done || apply Hp). cbn [mbind outcome_bind].
      rewrite bool_decide_eq_false_2 by by apply head_join; apply Forall_cons_1 in Hps as [? _].
      rewrite IH; [|done|done|rewrite length_app; simpl; lia].
      rewrite length_app. simpl length.
      repeat case_decide; try lia; [|done]. cbn [fmap list_fmap]. by rewrite <- app_assoc.
  - rewrite decide_False by (simpl; lia). pose proof (join_nonblank p ps Hp) as Hnb.
    destruct (join bar (p :: ps)) as [|c rest] eqn:Ej; [done|]. cbn [pipeline_loop].
    rewrite bool_decide_eq_false_2 by done. cbn [app]. unfold last_stage, add_stage.
    fold (trim_spaces (c :: rest)). rewrite !bool_decide_eq_false_2 by done. done.
Qed.

(** C37: A line of at most 32 stages that are not blank is taken apart into its
    stages, trimmed and in order; with more stages the code writes behind the
    end of its array. *)
Theorem parse_pipeline_spec ps : Forall stage_text ps → ps ≠ [] →
  parse_pipeline (join bar ps) =
  if decide (length ps ≤ MAX_PIPELINE_STAGES) then Ret (trim_spaces <$> ps, false) else Undef OutOfBounds.
Proof. intros Hps Hne. unfold parse_pipeline. rewrite pipeline_loop_join; [done..|simpl; lia]. Qed.

(** ** Every end is closed once *)

(** [E] are the streams that are open besides the pipes: those of the process and
    those given by the caller. *)
Record outside (opts : ios_pipeline_options_t) (E : gset stream) : Prop := {
  out_ends s : s ∈ E → pipe_end s = false;
  out_standard n : n < 3 → Standard n ∈ E;
  out_input s : opt_input opts = Some s → s ∈ E;
  out_output s : opt_output opts = Some s → s ∈ E;
  out_error s : opt_error opts = Some s → s ∈ E }.

(** The ends that stage [i] owns. *)
Definition ends (n i : nat) : gset stream :=
  (if decide (i < n - 1) then {[ WriteEnd i ]} else ∅) ∪ (if decide (0 < i) then {[ ReadEnd (i - 1) ]} else ∅).

Lemma elem_of_ends n i s : s ∈ ends n i ↔ (s = WriteEnd i ∧ i < n - 1) ∨ (∃ j, i = S j ∧ s = ReadEnd j).
Proof.
  unfold ends. rewrite elem_of_union. repeat case_decide; rewrite ?elem_of_singleton, ?elem_of_empty; split.
  - intros [->| ->]; [by left|right]. exists (i - 1). split; [lia|done].
  - intros [[-> _]|(j & -> & ->)]; [by left|right]. f_equal. lia.
  - intros [->|[]]. by left.
  - intros [[-> _]|(j & -> & ->)]; [by left|lia].
  - intros [[]| ->]. right. exists (i - 1). split; [lia|done].
  - intros [[-> ?]|(j & -> & ->)]; [lia|right]. f_equal. lia.
  - intros [[]|[]].
  - intros [[-> ?]|(j & -> & ->)]; lia.
Qed.

Lemma ends_disjoint n i j s : s ∈ ends n i → s ∈ ends n j → i = j.
Proof.
  rewrite !elem_of_ends. intros [[-> _]|(k & -> & ->)] [[? _]|(k' & -> & ?)]; congruence.
Qed.

Lemma fclose_open s opened : s ∈ opened → fclose s opened = Ret (opened ∖ {[ s ]}).
Proof. intros. unfold fclose. by rewrite bool_decide_eq_true_2. Qed.

Lemma fflush_ok s opened : s ∈ opened → fflush s opened = Ret opened.
Proof. intros. unfold fflush. by rewrite bool_decide_eq_true_2. Qed.

Lemma ends_pipe n i s : s ∈ ends n i → pipe_end s = true.
Proof. rewrite elem_of_ends. by intros [[-> _]|(j & _ & ->)]. Qed.

Lemma stdin_of_setup opts share n i :
  stdin_stream (setup opts share n i) =
  Some (if bool_decide (i = 0) then default (Standard 0) (opt_input opts) else ReadEnd (i - 1)).
Proof. unfold setup. by destruct share, (bool_decide (i = n - 1)), (opt_error opts). Qed.

Lemma stdin_external_of_setup opts share n i : stdin_is_external (setup opts share n i) = bool_decide (i = 0).
Proof. unfold setup. by destruct share, (bool_decide (i = n - 1)), (opt_error opts). Qed.

(** Closing the input of a stage. *)
Lemma close_stdin opts n i opened : (∀ j, i = S j → ReadEnd j ∈ opened) →
  when_stream (stdin_stream (setup opts false n i))
    (λ s, negb (stdin_is_external (setup opts false n i)) && negb (bool_decide (s = Standard 0))) fclose opened =
  Ret (opened ∖ (if decide (0 < i) then {[ ReadEnd (i - 1) ]} else ∅)).
Proof.
  intros Hin. rewrite stdin_of_setup, stdin_external_of_setup. destruct i as [|j]; simpl.
  - by rewrite difference_empty_L.
  - rewrite Nat.sub_0_r. by apply fclose_open, Hin.
Qed.

(** Stages other than the last one do not close their error output. *)
Lemma cleanup_inner opts E n i opened : outside opts E → E ⊆ opened → i < n - 1 → ends n i ⊆ opened →
  stage_cleanup (setup opts false n i) opened = Ret (opened ∖ ends n i).
Proof.
  intros Hopts HE Hi Hends.
  assert (WriteEnd i ∈ opened) as Hw. { apply Hends, elem_of_ends. by left. }
  assert (∀ j, i = S j → ReadEnd j ∈ opened) as Hr. { intros j ->. apply Hends, elem_of_ends. eauto. }
  unfold stage_cleanup.
  assert (stdout_stream (setup opts false n i) = Some (WriteEnd i) ∧ stdout_is_external (setup opts false n i) = false ∧
    ∃ e, stderr_stream (setup opts false n i) = Some e ∧ e ∈ E ∧
      (stderr_is_external (setup opts false n i) = true ∨ e = Standard 2)) as (-> & -> & e & -> & He & Hext).
  { unfold setup. rewrite (bool_decide_eq_false_2 (i = n - 1)) by lia. simpl. split_and!; [done..|].
    eexists. split; [done|]. destruct (opt_error opts) as [e|] eqn:Ee; simpl.
    - split; [by apply (out_error opts)|]. by left.
    - split; [by apply (out_standard opts E Hopts 2); lia|by right]. }
  cbn [when_stream]. rewrite fflush_ok by done. cbn [mbind outcome_bind].
  assert (∀ b, (if b : bool then fflush e opened else Ret opened) = Ret opened) as ->.
  { intros []; [|done]. by apply fflush_ok, HE. }
  cbn [mbind outcome_bind negb andb]. rewrite (bool_decide_eq_false_2 (WriteEnd i = Standard 1)) by done. cbn [negb].
  rewrite fclose_open by done. cbn [mbind outcome_bind].
  assert (negb (stderr_is_external (setup opts false n i)) && negb (bool_decide (e = Standard 2)) = false) as ->.
  { destruct Hext as [->| ->]; [done|]. rewrite bool_decide_eq_true_2 by done. by rewrite andb_false_r. }
  cbn [andb mbind outcome_bind]. rewrite close_stdin.
  - f_equal. unfold ends. rewrite (decide_True (P := i < n - 1)) by done. set_solver.
  - intros j Hj. apply elem_of_difference. split; [by apply Hr|]. set_solver.
Qed.

Lemma cleanup_last opts E n i opened : outside opts E → E ⊆ opened → i = n - 1 → ends n i ⊆ opened →
  stage_cleanup (setup opts false n i) opened = Ret (opened ∖ ends n i).
Proof.
  intros Hopts HE Hi Hends.
  assert (∀ j, i = S j → ReadEnd j ∈ opened) as Hr. { intros j ->. apply Hends, elem_of_ends. eauto. }
  unfold stage_cleanup.
  assert (∃ o e, stdout_stream (setup opts false n i) = Some o ∧ o ∈ E ∧
    stdout_is_external (setup opts false n i) = true ∧ stderr_stream (setup opts false n i) = Some e ∧
    e ∈ E ∧ stderr_is_external (setup opts false n i) = true) as (o & e & -> & Ho & -> & -> & He & ->).
  { unfold setup. rewrite (bool_decide_eq_true_2 (i = n - 1)) by done. simpl.
    assert (default (Standard 1) (opt_output opts) ∈ E) as Ho.
    { destruct (opt_output opts) eqn:Eo; simpl; [by apply (out_output opts)|apply (out_standard opts E Hopts 1); lia]. }
    destruct (opt_error opts) as [e|] eqn:Ee; simpl; do 2 eexists; split_and!; try done. by apply (out_error opts). }
  cbn [when_stream]. rewrite fflush_ok by by apply HE. cbn [mbind outcome_bind].
  assert (∀ b, (if b : bool then fflush e opened else Ret opened) = Ret opened) as ->.
  { intros []; [|done]. by apply fflush_ok, HE. }
  cbn [mbind outcome_bind negb andb]. rewrite close_stdin by done.
  f_equal. unfold ends. rewrite (decide_False (P := i < n - 1)) by lia. set_solver.
Qed.

Lemma cleanup_stage opts E n i opened : outside opts E → E ⊆ opened → i < n → ends n i ⊆ opened →
  stage_cleanup (setup opts false n i) opened = Ret (opened ∖ ends n i).
Proof.
  intros. destruct (decide (i = n - 1)); [by eapply cleanup_last|]. eapply cleanup_inner; [done|done|lia|done].
Qed.

(** What is open besides [E] belongs to the stages that have not ended. *)
Definition owned (n : nat) (order : list nat) (E opened : gset stream) : Prop :=
  ∀ s, s ∈ opened ↔ s ∈ E ∨ ∃ i, i ∈ order ∧ s ∈ ends n i.

Lemma cleanup_all_owned opts E n order opened : outside opts E → NoDup order → (∀ i, i ∈ order → i < n) →
  owned n order E opened → cleanup_all opts false n order opened = Ret E.
Proof.
  intros Hopts Hnd. revert opened. induction Hnd as [|i order Hi _ IH]; intros opened Hlt Hown; simpl.
  - f_equal. apply set_eq. intros s. rewrite (Hown s). split; [|by left]. intros [?|(i & Hin & _)]; [done|].
    by apply not_elem_of_nil in Hin.
  - rewrite (cleanup_stage opts E); [|done|intros s ?; apply Hown; by left|apply Hlt; by left
      |intros s Hs; apply Hown; right; exists i; split; [by left|done]].
    cbn [mbind outcome_bind]. apply IH; [intros j Hj; apply Hlt; by right|].
    intros s. rewrite elem_of_difference, (Hown s). split.
    + intros [[?|(j & Hj & Hs)] Hn]; [by left|right]. exists j. split; [|done]. apply elem_of_cons in Hj as [->|Hj]; done.
    + intros [HE|(j & Hj & Hs)].
      * split; [by left|]. intros Hs%ends_pipe. by rewrite (out_ends opts E Hopts s HE) in Hs.
      * split; [right; exists j; split; [by right|done]|].
        intros Hsi. by rewrite (ends_disjoint n i j s Hsi Hs) in Hi.
Qed.

Lemma elem_of_all_ends n order s : order ≡ₚ seq 0 n → s ∈ all_ends n ↔ ∃ i, i ∈ order ∧ s ∈ ends n i.
Proof.
  intros Hperm. unfold all_ends. rewrite elem_of_list_to_set, elem_of_app, !list_elem_of_fmap.
  assert (∀ i, i ∈ order ↔ i < n) as Hin. { intros i. rewrite Hperm, elem_of_seq. lia. }
  split.
  - intros [(i & -> & Hi)|(i & -> & Hi)]; apply elem_of_seq in Hi.
    + exists (S i). rewrite Hin, elem_of_ends. split; [lia|]. eauto.
    + exists i. rewrite Hin, elem_of_ends. split; [lia|]. left. split; [done|lia].
  - intros (i & Hi & Hs). apply Hin in Hi. apply elem_of_ends in Hs as [[-> ?]|(j & -> & ->)].
    + right. exists i. split; [done|]. apply elem_of_seq. lia.
    + left. exists j. split; [done|]. apply elem_of_seq. lia.
Qed.

(** C15: When the line does not share the error output, the stages can end in any
    order: no thread flushes or closes a stream that is not open, every end of
    every pipe is closed, and of the other open streams [E], those of the caller
    and of the process, all are still open in the end. *)
Theorem pipeline_closes opts E n order : outside opts E → order ≡ₚ seq 0 n →
  cleanup_all opts false n order (all_ends n ∪ E) = Ret E.
Proof.
  intros Hopts Hperm. apply cleanup_all_owned; [done| | |].
  - rewrite Hperm. apply NoDup_seq.
  - intros i. rewrite Hperm, elem_of_seq. lia.
  - intros s. rewrite elem_of_union, (elem_of_all_ends n order) by done. tauto.
Qed.

(** With the error output shared ([|&] or [&|]) a stage before the last closes
    its output, forgets it, and closes the same stream again as its error
    output. *)
Theorem shared_stderr_double_close opts n i : i < n - 1 →
  stage_cleanup (setup opts true n i) (all_ends n) = Undef UseAfterFree.
Proof.
  intros Hi. assert (WriteEnd i ∈ all_ends n) as Hw.
  { apply (elem_of_all_ends n (seq 0 n)); [done|]. exists i. rewrite elem_of_seq, elem_of_ends. split; [lia|]. by left. }
  unfold stage_cleanup, setup. rewrite (bool_decide_eq_false_2 (i = n - 1)) by lia. simpl.
  rewrite fflush_ok by done. cbn [mbind outcome_bind].
  rewrite (bool_decide_eq_true_2 (Some (WriteEnd i) = Some (WriteEnd i))) by done. cbn [negb mbind outcome_bind].
  rewrite fclose_open by done. cbn [mbind outcome_bind]. 
  unfold fclose. rewrite (bool_decide_eq_false_2 (WriteEnd i ∈ _)); [done|].
  intros [_ Hn]%elem_of_difference. by apply Hn, elem_of_singleton.
Qed.

(** ** Concrete cases *)

Definition two_stages : list text := [chars "ls -l "; chars " wc"].

Lemma parse_pipeline_spec_witness :
  parse_pipeline (join bar two_stages) = Ret ([chars "ls -l"; chars "wc"], false).
Proof.
  rewrite (parse_pipeline_spec two_stages); [by vm_compute| |done].
  repeat apply Forall_cons_2; [..|by apply Forall_nil_2]; constructor;
    apply (bool_decide_unpack _); by vm_compute.
Defined.

(** Three stages with the caller's output that end back to front. *)
Lemma pipeline_closes_witness :
  let E : gset stream := {[ Standard 0; Standard 1; Standard 2; External 7 ]} in
  cleanup_all (Options None (Some (External 7)) None) false 3 [2; 0; 1] (all_ends 3 ∪ E) = Ret E.
Proof.
  intros E. apply (pipeline_closes (Options None (Some (External 7)) None) E 3 [2; 0; 1]).
  - split; simpl; try done.
    + intros s. unfold E. rewrite !elem_of_union, !elem_of_singleton. by intros [[[->| ->]| ->]| ->].
    + intros n Hn. assert (n = 0 ∨ n = 1 ∨ n = 2) as [->|[->| ->]] by lia; by apply (bool_decide_unpack _).
    + intros s [= <-]. by apply (bool_decide_unpack _).
  - apply (bool_decide_unpack _). by vm_compute.
Defined.

Lemma shared_stderr_double_close_witness :
  stage_cleanup (setup (Options None None None) true 2 0) (all_ends 2) = Undef UseAfterFree.
Proof. apply (shared_stderr_double_close (Options None None None) 2 0). lia. Defined.
