(* ===== verification/PipelineRun.v ===== *)
(** * The threads of a pipeline ([src/ios_pipeline.m])

    [ios_pipeline_execute] starts a thread per stage, [ios_pipeline_wait] joins
    them, [ios_pipeline_kill] signals them from another thread, and
    [ios_pipeline_is_complete] and [ios_pipeline_get_stats] look at the
    counters.  A [pipeline] is what these threads share, with the place where
    each of them is; [pl_step] is one step of one of them, an atomic operation
    or a call that blocks.  The command a stage runs returns any value; what
    happens to its streams is in [Pipeline].  [ios_pipeline_wait] takes a
    time-out and does not look at it.
    - Theorems: a wait returns only after every thread has ended, with the value
      of the last stage; a pipeline that is complete has no thread left, so that
      destroying it frees nothing in use; a wait is never stuck and takes a
      bounded number of steps; a pipeline nobody waits for, or one of whose
      threads could not be started, is never complete.
    - No time-out ends a wait ([timeout_ignored]); a signal can be sent to a
      thread that has been joined ([kill_after_join]). *)

From S2P Require Import Prelude.

Inductive ios_pipeline_stage_status_t : Set :=
  | IOS_STAGE_PENDING | IOS_STAGE_RUNNING | IOS_STAGE_COMPLETED | IOS_STAGE_FAILED | IOS_STAGE_KILLED.
Global Instance status_eq_dec : EqDecision ios_pipeline_stage_status_t.
Proof. solve_decision. Defined.

(** Where the thread of a stage is: it does not exist, is about to store
    [IOS_STAGE_RUNNING], runs the command, is about to store the exit code, the
    status, or has ended. *)
Inductive phase : Set :=
  | NoThread
  | Created
  | Executing
  | Returned (result : Z)
  | Stored (result : Z)
  | Ended (result : Z).
Global Instance phase_eq_dec : EqDecision phase.
Proof. solve_decision. Defined.

Record stage := MkStage {
  thread_id : bool;       (* whether it is not 0 *)
  status : ios_pipeline_stage_status_t;
  exit_code : Z;
  at_phase : phase }.

(** Where the caller is: about to create the thread of stage [i], to count it;
    done with [ios_pipeline_execute]; in [ios_pipeline_wait] at stage [i],
    before the join, before [thread_id] is cleared and before the two counters;
    back with a value. *)
Inductive caller : Set :=
  | Launching (i : nat)
  | CountLaunch (i : nat)
  | Launched
  | Waiting (i : nat)
  | ClearThread (i : nat)
  | CountRunning (i : nat)
  | CountCompleted (i : nat)
  | WaitReturned (code : Z).

(** Where a thread in [ios_pipeline_kill] is: nowhere, about to look at the
    status of stage [i], at its [thread_id], about to send the signal to the
    thread, about to store [IOS_STAGE_KILLED]. *)
Inductive killer : Set :=
  | NoKill
  | KillLook (i : nat)
  | KillThread (i : nat)
  | KillSend (i : nat)
  | KillStore (i : nat).

Record pipeline := Pipeline {
  stages : list stage;
  running_count : Z;
  completed_count : Z;
  all_started : bool;
  main : caller;
  kill : killer }.

Definition num_stages (p : pipeline) : nat := length (stages p).

Definition new_stage : stage := MkStage false IOS_STAGE_PENDING 0 NoThread.

(** The state of [ios_pipeline_execute] before its last loop. *)
Definition new_pipeline (n : nat) : pipeline :=
  Pipeline (replicate n new_stage) 0 0 false (Launching 0) NoKill.

Definition set_stage (i : nat) (s : stage) (p : pipeline) : pipeline :=
  Pipeline (<[i := s]> (stages p)) (running_count p) (completed_count p) (all_started p) (main p) (kill p).
Definition set_main (m : caller) (p : pipeline) : pipeline :=
  Pipeline (stages p) (running_count p) (completed_count p) (all_started p) m (kill p).
Definition set_kill (k : killer) (p : pipeline) : pipeline :=
  Pipeline (stages p) (running_count p) (completed_count p) (all_started p) (main p) k.
Definition add_running (d : Z) (p : pipeline) : pipeline :=
  Pipeline (stages p) (wrapS 32 (running_count p + d)) (completed_count p) (all_started p) (main p) (kill p).
Definition add_completed (d : Z) (p : pipeline) : pipeline :=
  Pipeline (stages p) (running_count p) (wrapS 32 (completed_count p + d)) (all_started p) (main p) (kill p).

(** ** Steps *)

(** [pipeline_stage_thread]; [result] is what the command returns, read in the
    second step only. *)
Definition stage_thread_step (result : Z) (s : stage) : option stage :=
  match at_phase s with
  | NoThread | Ended _ => None
  | Created => Some (MkStage (thread_id s) IOS_STAGE_RUNNING (exit_code s) Executing)
  | Executing => Some (MkStage (thread_id s) (status s) (exit_code s) (Returned result))
  | Returned r => Some (MkStage (thread_id s) (status s) r (Stored r))
  | Stored r =>
      Some (MkStage (thread_id s) (if bool_decide (r = 0%Z) then IOS_STAGE_COMPLETED else IOS_STAGE_FAILED)
              (exit_code s) (Ended r))
  end.

(** The last loop of [ios_pipeline_execute]; [created] tells whether
    [pthread_create] succeeds. *)
Definition launch_step (created : bool) (p : pipeline) : option pipeline :=
  match main p with
  | Launching i =>
      match stages p !! i with
      | Some s =>
          if created then
            Some (set_main (CountLaunch i) (set_stage i (MkStage true (status s) (exit_code s) Created) p))
          else
            Some (set_main (Launching (S i)) (set_stage i (MkStage (thread_id s) IOS_STAGE_FAILED (-1) NoThread) p))
      | None =>
          Some (Pipeline (stages p) (running_count p) (completed_count p) true Launched (kill p))
      end
  | CountLaunch i => Some (set_main (Launching (S i)) (add_running 1 p))
  | _ => None
  end.

Definition last_exit_code (p : pipeline) : Z :=
  match list.last (stages p) with Some s => exit_code s | None => 0%Z end.

(** [ios_pipeline_wait]; [pthread_join] blocks until the thread has ended.  The
    code does not use [timeout_ms]. *)
Definition wait_step (timeout_ms : Z) (p : pipeline) : option pipeline :=
  match main p with
  | Launched => Some (set_main (Waiting 0) p)
  | Waiting i =>
      match stages p !! i with
      | Some s =>
          if thread_id s then
            match at_phase s with
            | Ended _ => Some (set_main (ClearThread i) p)
            | _ => None
            end
          else Some (set_main (Waiting (S i)) p)
      | None => Some (set_main (WaitReturned (last_exit_code p)) p)
      end
  | ClearThread i =>
      match stages p !! i with
      | Some s => Some (set_main (CountRunning i) (set_stage i (MkStage false (status s) (exit_code s) (at_phase s)) p))
      | None => None
      end
  | CountRunning i => Some (set_main (CountCompleted i) (add_running (-1) p))
  | CountCompleted i => Some (set_main (Waiting (S i)) (add_completed 1 p))
  | _ => None
  end.

(** [ios_pipeline_kill]: the caller has the handle of the pipeline only after
    [ios_pipeline_execute]. *)
Definition kill_step (p : pipeline) : option pipeline :=
  match kill p with
  | NoKill =>
      match main p with
      | Launching _ | CountLaunch _ => None
      | _ => Some (set_kill (KillLook 0) p)
      end
  | KillLook i =>
      match stages p !! i with
      | Some s =>
          if bool_decide (status s = IOS_STAGE_RUNNING) then Some (set_kill (KillThread i) p)
          else Some (set_kill (KillLook (S i)) p)
      | None => Some (set_kill NoKill p)
      end
  | KillThread i =>
      match stages p !! i with
      | Some s => Some (set_kill (if thread_id s then KillSend i else KillLook (S i)) p)
      | None => None
      end
  | KillSend i => Some (set_kill (KillStore i) p)       (* [pthread_kill] *)
  | KillStore i =>
      match stages p !! i with
      | Some s =>
          Some (set_kill (KillLook (S i))
                  (set_stage i (MkStage (thread_id s) IOS_STAGE_KILLED (exit_code s) (at_phase s)) p))
      | None => None
      end
  end.

Inductive event : Set :=
  | EvStage (i : nat) (result : Z)
  | EvLaunch (created : bool)
  | EvWait (timeout_ms : Z)
  | EvKill.

Definition pl_step (e : event) (p : pipeline) : option pipeline :=
  match e with
  | EvStage i result => s ← stages p !! i; s' ← stage_thread_step result s; Some (set_stage i s' p)
  | EvLaunch created => launch_step created p
  | EvWait timeout_ms => wait_step timeout_ms p
  | EvKill => kill_step p
  end.

(** ** Looking at a pipeline *)

Definition ios_pipeline_is_complete (p : pipeline) : bool :=
  bool_decide (completed_count p = Z.of_nat (num_stages p)).

Record ios_pipeline_stats_t := Stats {
  stat_num_stages : nat; stat_running : Z; stat_completed : Z; stat_failed : nat;
  stat_all_started : bool; stat_all_completed : bool }.

Definition is_failed (s : stage) : bool :=
  bool_decide (status s = IOS_STAGE_FAILED) || bool_decide (status s = IOS_STAGE_KILLED).

Definition ios_pipeline_get_stats (p : pipeline) : ios_pipeline_stats_t :=
  Stats (num_stages p) (running_count p) (completed_count p)
    (length (filter (λ s, Is_true (is_failed s)) (stages p))) (all_started p) (ios_pipeline_is_complete p).

(** [ios_pipeline_get_stage_info] without the command. *)
Definition ios_pipeline_get_stage_info (p : pipeline) (stage_index : Z)
    : option (ios_pipeline_stage_status_t * Z) :=
  if bool_decide (stage_index < 0)%Z || bool_decide (Z.of_nat (num_stages p) ≤ stage_index)%Z then None
  else s ← stages p !! Z.to_nat stage_index; Some (status s, exit_code s).

(** What [ios_pipeline_destroy] does first: it waits unless the pipeline is
    complete. *)
Definition destroy_waits (p : pipeline) : bool := negb (ios_pipeline_is_complete p).

(** ** Invariant *)

Definition has_thread (s : stage) : Prop := at_phase s ≠ NoThread.
Global Instance has_thread_dec s : Decision (has_thread s).
Proof. unfold has_thread. apply _. Defined.

Definition threads (l : list stage) : nat := length (filter has_thread l).

(** Stages the caller has passed in its last loop. *)
Definition launched_upto (p : pipeline) : nat :=
  match main p with Launching i => i | CountLaunch i => S i | _ => num_stages p end.
(** Stages that [ios_pipeline_wait] has joined, or found without a thread. *)
Definition joined_upto (p : pipeline) : nat :=
  match main p with
  | Waiting i | ClearThread i => i
  | CountRunning i | CountCompleted i => S i
  | WaitReturned _ => num_stages p
  | _ => 0
  end.
(** Stages counted as completed, and as not running any more. *)
Definition completed_upto (p : pipeline) : nat :=
  match main p with
  | Waiting i | ClearThread i | CountRunning i | CountCompleted i => i
  | WaitReturned _ => num_stages p
  | _ => 0
  end.
Definition stopped_upto (p : pipeline) : nat :=
  match main p with
  | Waiting i | ClearThread i | CountRunning i => i
  | CountCompleted i => S i
  | WaitReturned _ => num_stages p
  | _ => 0
  end.
Definition started_upto (p : pipeline) : nat :=
  match main p with Launching i | CountLaunch i => i | _ => num_stages p end.

(** What stage [i] looks like when [la] stages have been launched and [jo] joined. *)
Record stage_ok (la jo i : nat) (s : stage) : Prop := {
  so_pending : la ≤ i → s = new_stage;
  so_failed : i < la → at_phase s = NoThread → exit_code s = (-1)%Z ∧ status s = IOS_STAGE_FAILED;
  so_joined : i < jo → thread_id s = false;
  so_ended : i < jo → has_thread s → ∃ r, at_phase s = Ended r;
  so_thread : i < la → jo ≤ i → thread_id s = bool_decide (has_thread s);
  so_code : ∀ r, at_phase s = Stored r ∨ at_phase s = Ended r → exit_code s = r;
  so_status : ∀ r, at_phase s = Ended r →
    status s = IOS_STAGE_KILLED ∨ status s = if bool_decide (r = 0%Z) then IOS_STAGE_COMPLETED else IOS_STAGE_FAILED;
  so_running : status s = IOS_STAGE_RUNNING → has_thread s }.

Record pl_inv (p : pipeline) : Prop := {
  pi_size : (Z.of_nat (num_stages p) < 2 ^ 31)%Z;
  pi_launch : launched_upto p ≤ num_stages p;
  pi_join : joined_upto p ≤ num_stages p;
  pi_stage : ∀ i s, stages p !! i = Some s → stage_ok (launched_upto p) (joined_upto p) i s;
  pi_running : running_count p =
    (Z.of_nat (threads (take (started_upto p) (stages p))) - Z.of_nat (threads (take (stopped_upto p) (stages p))))%Z;
  pi_completed : completed_count p = Z.of_nat (threads (take (completed_upto p) (stages p)));
  pi_started : all_started p = match main p with Launching _ | CountLaunch _ => false | _ => true end;
  pi_kill : ∀ i s, kill p = KillThread i ∨ kill p = KillSend i ∨ kill p = KillStore i → stages p !! i = Some s → has_thread s;
  pi_nokill : match main p with Launching _ | CountLaunch _ => kill p = NoKill | _ => True end;
  pi_at : match main p with
    | CountLaunch i | CountRunning i | CountCompleted i => ∃ s, stages p !! i = Some s ∧ has_thread s
    | ClearThread i => ∃ s r, stages p !! i = Some s ∧ at_phase s = Ended r
    | _ => True
    end;
  pi_code : ∀ c, main p = WaitReturned c → c = last_exit_code p }.

Lemma threads_nil : threads [] = 0.
Proof. done. Qed.

Lemma threads_take_S l i s : l !! i = Some s →
  threads (take (S i) l) = threads (take i l) + (if decide (has_thread s) then 1 else 0).
Proof.
  intros Hs. rewrite (take_S_r l i s Hs). unfold threads. rewrite list.filter_app, length_app.
  rewrite list.filter_cons. by case_decide.
Qed.

Lemma threads_le l k : threads (take k l) ≤ length l.
Proof. unfold threads. rewrite length_filter, length_take. lia. Qed.

Lemma threads_take_mono l j k : j ≤ k → threads (take j l) ≤ threads (take k l).
Proof.
  intros Hjk. unfold threads. replace j with (j `min` k) by lia. rewrite <- take_take.
  rewrite <- (take_drop j (take k l)) at 2. rewrite list.filter_app, length_app. lia.
Qed.

(** A stage that keeps its thread, or keeps having none. *)
Lemma threads_insert l i s s' k : l !! i = Some s → (has_thread s' ↔ has_thread s) →
  threads (take k (<[i := s']> l)) = threads (take k l).
Proof.
  intros Hs Hiff. destruct (decide (i < k)) as [Hk|Hk]; [|by rewrite take_insert_ge by lia].
  rewrite take_insert_lt by lia. assert (take k l !! i = Some s) as Ht by by rewrite lookup_take_lt.
  unfold threads. rewrite (insert_take_drop _ i s') by by eapply lookup_lt_Some.
  rewrite <- (take_drop_middle _ i s Ht) at 3. rewrite !list.filter_app, !length_app, !list.filter_cons.
  repeat case_decide; tauto || done.
Qed.

Lemma last_insert_ne l i s s' : l !! i = Some s → exit_code s' = exit_code s →
  exit_code <$> list.last (<[i := s']> l) = exit_code <$> list.last l.
Proof.
  intros Hs He. rewrite !last_lookup, length_insert.
  destruct (decide (i = pred (length l))) as [->|Hne].
  - rewrite list_lookup_insert_eq by by eapply lookup_lt_Some. rewrite Hs. simpl. by rewrite He.
  - by rewrite list_lookup_insert_ne.
Qed.

Lemma pl_inv_init n : (Z.of_nat n < 2 ^ 31)%Z → pl_inv (new_pipeline n).
Proof.
  intros Hn. split; unfold num_stages; simpl; rewrite ?length_replicate; try done; try (unfold launched_upto, joined_upto; simpl; lia).
  - intros i s [-> _]%lookup_replicate. unfold launched_upto, joined_upto.
    split; simpl; try done; try lia; by intros ? [?|?].
  - naive_solver.
Qed.

(** Changing a stage and nothing else. *)
Lemma inv_set_stage p i s s' : pl_inv p → stages p !! i = Some s → (has_thread s' ↔ has_thread s) →
  stage_ok (launched_upto p) (joined_upto p) i s' → (∀ r, at_phase s = Ended r → at_phase s' = Ended r) →
  (exit_code s' = exit_code s ∨ ∀ c, main p ≠ WaitReturned c) → pl_inv (set_stage i s' p).
Proof.
  intros Hinv Hs Hthread Hok Hended Hcode. destruct Hinv as [Hsize Hla Hjo Hst Hrun Hcomp Hall Hkill Hnk Hat Hret].
  assert (num_stages (set_stage i s' p) = num_stages p) as Hn by apply length_insert.
  assert (launched_upto (set_stage i s' p) = launched_upto p) as El.
  { unfold launched_upto. rewrite Hn. by destruct p. }
  assert (joined_upto (set_stage i s' p) = joined_upto p) as Ej.
  { unfold joined_upto. rewrite Hn. by destruct p. }
  split; rewrite ?El, ?Ej, ?Hn; try done.
  - intros j t Hj. simpl in Hj. destruct (decide (i = j)) as [<-|Hne].
    + rewrite list_lookup_insert_eq in Hj by by eapply lookup_lt_Some. by simplify_eq.
    + rewrite list_lookup_insert_ne in Hj by done. by apply Hst.
  - unfold started_upto, stopped_upto. rewrite Hn. simpl. rewrite !(threads_insert _ _ s) by done. exact Hrun.
  - unfold completed_upto. rewrite Hn. simpl. rewrite (threads_insert _ _ s) by done. exact Hcomp.
  - intros j t Hk Hj. simpl in *. destruct (decide (i = j)) as [<-|Hne].
    + rewrite list_lookup_insert_eq in Hj by by eapply lookup_lt_Some. simplify_eq. apply Hthread. by eapply Hkill.
    + rewrite list_lookup_insert_ne in Hj by done. by eapply Hkill.
  - assert (∀ k, (∃ t, stages p !! k = Some t ∧ has_thread t) →
      ∃ t, <[i := s']> (stages p) !! k = Some t ∧ has_thread t) as Hex.
    { intros k (t & Ht & Hht). destruct (decide (i = k)) as [<-|Hne].
      - exists s'. rewrite list_lookup_insert_eq by by eapply lookup_lt_Some. simplify_eq. tauto.
      - exists t. by rewrite list_lookup_insert_ne. }
    simpl. destruct (main p) as [| | | |k| | |]; auto. destruct Hat as (t & r & Ht & Hr). destruct (decide (i = k)) as [<-|Hne].
    + exists s', r. rewrite list_lookup_insert_eq by by eapply lookup_lt_Some. simplify_eq. auto.
    + exists t, r. by rewrite list_lookup_insert_ne.
  - intros c Hc. simpl in Hc. destruct Hcode as [Hcode|Hcode]; [|by destruct (Hcode c)].
    rewrite (Hret c Hc). unfold last_exit_code. simpl. pose proof (last_insert_ne _ _ _ _ Hs Hcode) as Hl.
    destruct (list.last (<[i:=s']> _)), (list.last (stages p)); simplify_eq/=; done.
Qed.

Lemma inv_stage_thread p i result s s' : pl_inv p → stages p !! i = Some s →
  stage_thread_step result s = Some s' → pl_inv (set_stage i s' p).
Proof.
  intros Hinv Hs Hstep. pose proof (pi_stage p Hinv i s Hs) as [Hpend Hfail Hjoin Hend Hth Hcode Hstat Hrun].
  assert (has_thread s) as Hhas. { intros E. unfold stage_thread_step in Hstep. by rewrite E in Hstep. }
  assert (¬ i < joined_upto p) as Hnj.
  { intros Hlt. destruct (Hend Hlt Hhas) as [r E]. unfold stage_thread_step in Hstep. by rewrite E in Hstep. }
  assert (i < launched_upto p) as Hla.
  { destruct (decide (launched_upto p ≤ i)) as [Hle|]; [|lia]. rewrite (Hpend Hle) in Hhas. by destruct Hhas. }
  specialize (Hth Hla ltac:(lia)). rewrite bool_decide_eq_true_2 in Hth by done.
  assert (has_thread s' ∧ thread_id s' = true) as [Hhas' Hid].
  { unfold stage_thread_step in Hstep. unfold has_thread. destruct (at_phase s); by simplify_eq/=. }
  apply (inv_set_stage p i s); [done..| | |].
  - split; try lia.
    + by intros _ ?.
    + intros. by rewrite bool_decide_eq_true_2.
    + unfold stage_thread_step in Hstep. destruct (at_phase s); simplify_eq/=; intros ? [?|?]; simplify_eq; auto.
    + unfold stage_thread_step in Hstep. destruct (at_phase s); simplify_eq/=; intros ? ?; simplify_eq; auto.
    + done.
  - intros r E. unfold stage_thread_step in Hstep. by rewrite E in Hstep.
  - right. intros c Hc. apply Hnj. unfold joined_upto. rewrite Hc. by eapply lookup_lt_Some.
Qed.

Lemma inv_set_kill p k : pl_inv p → (∀ i s, k = KillThread i ∨ k = KillSend i ∨ k = KillStore i → stages p !! i = Some s → has_thread s) →
  all_started p = true → pl_inv (set_kill k p).
Proof.
  intros [Hsize Hla Hjo Hst Hrun Hcomp Hall Hkill Hnk Hat Hret] Hk Hs. split; try done.
  simpl. rewrite Hs in Hall. by destruct (main p).
Qed.

Lemma kill_started p : pl_inv p → kill p ≠ NoKill → all_started p = true.
Proof. intros Hinv Hk. rewrite (pi_started p Hinv). pose proof (pi_nokill p Hinv). by destruct (main p). Qed.

Lemma inv_kill p p' : pl_inv p → kill_step p = Some p' → pl_inv p'.
Proof.
  intros Hinv Hstep. unfold kill_step in Hstep. destruct (kill p) as [|i|i|i|i] eqn:Ek.
  - assert (p' = set_kill (KillLook 0) p) as -> by (destruct (main p); by simplify_eq). apply inv_set_kill; [done|naive_solver|].
    rewrite (pi_started p Hinv). by destruct (main p).
  - assert (all_started p = true) as Hs by by apply kill_started; [|rewrite Ek].
    destruct (stages p !! i) as [s|] eqn:Es; [|by step_inv; apply inv_set_kill; [|naive_solver|]].
    destruct (bool_decide (status s = IOS_STAGE_RUNNING)) eqn:Er; step_inv; apply inv_set_kill; try done; [|naive_solver].
    apply bool_decide_eq_true in Er. intros ? t [[= <-]|[[=]|[=]]] Ht. simplify_eq. by eapply so_running, Er; apply pi_stage.
  - assert (all_started p = true) as Hs by by apply kill_started; [|rewrite Ek].
    destruct (stages p !! i) as [s|] eqn:Es; [|done]. step_inv. apply inv_set_kill; [done| |done].
    intros j t Hj Ht. apply (pi_kill p Hinv j t); [|done]. left. rewrite Ek. destruct (thread_id s); naive_solver.
  - step_inv. apply inv_set_kill; [done| |by apply (kill_started p); [|rewrite Ek]].
    intros j t Hj Ht. apply (pi_kill p Hinv j t); [|done]. right. left. rewrite Ek. naive_solver.
  - destruct (stages p !! i) as [s|] eqn:Es; [|done]. step_inv.
    apply inv_set_kill; [|naive_solver|by apply (kill_started p); [|rewrite Ek]].
    pose proof (pi_stage p Hinv i s Es) as [Hpend Hfail Hjoin Hend Hth Hcode Hstat Hrun].
    pose proof (pi_kill p Hinv i s (or_intror (or_intror Ek)) Es) as Hhas.
    apply (inv_set_stage p i s); [done..| |done|by left]. split; simpl; try done.
    + intros Hle. rewrite (Hpend Hle) in Hhas. by destruct Hhas.
    + intros r Hr. by left.
Qed.

(** The counters at [k] stages. *)
Lemma counters_small p k : pl_inv p → (0 ≤ Z.of_nat (threads (take k (stages p))) < 2 ^ 31)%Z.
Proof. intros Hinv. pose proof (threads_le (stages p) k). pose proof (pi_size p Hinv). unfold num_stages in *. lia. Qed.

Lemma stage_ok_weaken la jo la' jo' i s : stage_ok la jo i s → (i < la ↔ i < la') → (i < jo ↔ i < jo') →
  stage_ok la' jo' i s.
Proof. intros [] Hla Hjo. split; intros; eauto with lia. all: firstorder lia. Qed.

Ltac unfold_upto :=
  unfold launched_upto, joined_upto, started_upto, stopped_upto, completed_upto, num_stages in *.

Lemma inv_launch p created p' : pl_inv p → launch_step created p = Some p' → pl_inv p'.
Proof.
  intros Hinv Hstep. pose proof Hinv as [Hsize Hla Hjo Hst Hrun Hcomp Hall Hkill Hnk Hat Hret].
  unfold launch_step in Hstep. unfold_upto. destruct (main p) as [i|i| |i|i|i|i|c] eqn:Em; try done.
  - destruct (stages p !! i) as [s|] eqn:Es.
    + pose proof (lookup_lt_Some _ _ _ Es) as Hi.
      assert (s = new_stage) as -> by by apply (Hst i s Es).
      destruct created; step_inv; split; unfold_upto; simpl; rewrite ?length_insert; try done; try lia.
      * apply insert_forall; [by split; simpl; try lia; try done; intros ? [?|?]|].
        intros j t Hne Ht. eapply stage_ok_weaken; [by apply Hst|lia|lia].
      * rewrite take_insert_ge by lia. exact Hrun.
      * intros j t Hk. rewrite Hnk in Hk. naive_solver.
      * eexists. split; [by apply list_lookup_insert_eq|done].
      * apply insert_forall; [by split; simpl; try lia; try done; intros ? [?|?]|].
        intros j t Hne Ht. eapply stage_ok_weaken; [by apply Hst|lia|lia].
      * rewrite (threads_take_S _ _ (MkStage false IOS_STAGE_FAILED (-1) NoThread)) by by apply list_lookup_insert_eq.
        rewrite decide_False by by intros []. rewrite take_insert_ge by lia. rewrite Nat.add_0_r. exact Hrun.
      * intros j t Hk. rewrite Hnk in Hk. naive_solver.
    + step_inv. apply lookup_ge_None in Es. split; unfold_upto; simpl; try done; try lia.
      * intros j t Ht. eapply stage_ok_weaken; [by apply Hst| |done]. apply lookup_lt_Some in Ht. lia.
      * rewrite Hrun. do 3 f_equal. f_equal. lia.
  - step_inv. destruct Hat as (s & Hs & Hhas). split; unfold_upto; simpl; try done.
    rewrite (threads_take_S _ _ _ Hs), decide_True by done. rewrite Hrun, take_0, threads_nil.
    pose proof (counters_small p i Hinv). pose proof (threads_le (stages p) (S i)) as Hle.
    rewrite (threads_take_S _ _ _ Hs), decide_True in Hle by done. rewrite wrapS_small by lia. lia.
Qed.

(** The join of stage [i]. *)
Lemma inv_join p i s r : pl_inv p → main p = ClearThread i → stages p !! i = Some s → at_phase s = Ended r →
  pl_inv (set_main (CountRunning i) (set_stage i (MkStage false (status s) (exit_code s) (at_phase s)) p)).
Proof.
  intros Hinv Em Es Ea. pose proof Hinv as [Hsize Hla Hjo Hst Hrun Hcomp Hall Hkill Hnk Hat Hret].
  pose proof (lookup_lt_Some _ _ _ Es) as Hi. unfold_upto. rewrite Em in *.
  destruct (Hst i s Es) as [Hpend Hfail Hjoin Hend Hth Hcode Hstat Hr].
  split; unfold_upto; simpl; rewrite ?length_insert; try done; try lia.
  - apply insert_forall.
    + split; simpl; rewrite ?Ea; try lia; try done; [by eauto|by rewrite <- Ea|by rewrite <- Ea].
    + intros j t Hne Ht. eapply stage_ok_weaken; [by apply Hst|lia|lia].
  - by rewrite !(threads_insert _ _ s).
  - by rewrite (threads_insert _ _ s).
  - intros j t Hk Ht. revert j t Ht Hk.
    apply (insert_forall _ _ _ (λ j t, kill p = KillThread j ∨ kill p = KillSend j ∨ kill p = KillStore j → has_thread t)); [|eauto]. intros _. unfold has_thread. simpl. by rewrite Ea.
  - eexists. split; [by apply list_lookup_insert_eq|]. unfold has_thread. simpl. by rewrite Ea.
Qed.

Lemma inv_wait p ms p' : pl_inv p → wait_step ms p = Some p' → pl_inv p'.
Proof.
  intros Hinv Hstep. pose proof Hinv as [Hsize Hla Hjo Hst Hrun Hcomp Hall Hkill Hnk Hat Hret].
  unfold wait_step in Hstep. destruct (main p) as [i|i| |i|i|i|i|c] eqn:Em; try done.
  - step_inv. unfold_upto. rewrite Em in *. by split; unfold_upto; simpl.
  - destruct (stages p !! i) as [s|] eqn:Es.
    + pose proof (lookup_lt_Some _ _ _ Es) as Hi. destruct (thread_id s) eqn:Eid.
      * destruct (at_phase s) as [| | | | |r] eqn:Ea; step_inv. unfold_upto. rewrite Em in *.
        split; unfold_upto; simpl; try done. by eauto.
      * step_inv. unfold_upto. rewrite Em in *.
        assert (¬ has_thread s) as Hno.
        { pose proof (so_thread _ _ _ _ (Hst i s Es) Hi ltac:(lia)) as Ht. rewrite Eid in Ht.
          symmetry in Ht. by apply bool_decide_eq_false in Ht. }
        split; unfold_upto; simpl; rewrite ?(threads_take_S _ _ _ Es), ?decide_False, ?Nat.add_0_r by done; try done.
        intros j t Ht. destruct (decide (j = i)) as [->|Hne].
        -- simplify_eq. destruct (Hst i s Es). split; try done. lia.
        -- eapply stage_ok_weaken; [by apply Hst|lia|lia].
    + step_inv. apply lookup_ge_None in Es. unfold_upto. rewrite Em in *.
      assert (i = length (stages p)) as -> by lia. split; unfold_upto; simpl; try done. by intros ? [= <-].
  - destruct Hat as (s & r & Es & Ea). rewrite Es in Hstep. step_inv. by eapply inv_join.
  - step_inv. destruct Hat as (s & Hs & Hhas). unfold_upto. rewrite Em in *.
    pose proof (counters_small p (length (stages p)) Hinv). pose proof (counters_small p i Hinv).
    pose proof (threads_take_mono (stages p) (S i) (length (stages p))) as Hmono.
    rewrite (threads_take_S _ _ _ Hs), decide_True in Hmono by done.
    split; unfold_upto; simpl; try done; [|by eauto].
    rewrite Hrun, wrapS_small by lia. rewrite (threads_take_S _ _ _ Hs), decide_True by done. lia.
  - step_inv. destruct Hat as (s & Hs & Hhas). unfold_upto. rewrite Em in *.
    pose proof (counters_small p (S i) Hinv) as Hsm. rewrite (threads_take_S _ _ _ Hs), decide_True in Hsm by done.
    split; unfold_upto; simpl; try done.
    rewrite Hcomp, wrapS_small by lia. rewrite (threads_take_S _ _ _ Hs), decide_True by done. lia.
Qed.

Definition pl_init (p : pipeline) : Prop := ∃ n, (Z.of_nat n < 2 ^ 31)%Z ∧ p = new_pipeline n.

Lemma pl_reachable_inv p : reachable pl_step pl_init p → pl_inv p.
Proof.
  apply reachable_invariant.
  - intros s (n & Hn & ->). by apply pl_inv_init.
  - intros e s s' Hinv Hstep. destruct e as [i r|c|t|]; simpl in Hstep.
    + destruct (stages s !! i) as [t|] eqn:Et; [|done]. simpl in Hstep.
      destruct (stage_thread_step r t) as [t'|] eqn:Es; [|done]. simpl in Hstep. simplify_eq.
      by eapply inv_stage_thread.
    + by eapply inv_launch.
    + by eapply inv_wait.
    + by eapply inv_kill.
Qed.

(** ** Waiting *)

(** The value a stage ends with: the result of its command, -1 when it could not
    be started. *)
Definition stage_value (s : stage) : option Z :=
  match at_phase s with Ended r => Some r | NoThread => Some (-1)%Z | _ => None end.

Lemma threads_all l : Forall has_thread l → threads l = length l.
Proof.
  unfold threads. induction 1 as [|s l Hs _ IH]; [done|]. rewrite list.filter_cons, decide_True by done. simpl. lia.
Qed.

Lemma threads_all_inv l : threads l = length l → Forall has_thread l.
Proof.
  unfold threads. induction l as [|s l IH]; [by intros; apply Forall_nil_2|].
  rewrite list.filter_cons. pose proof (length_filter has_thread l). case_decide; simpl; [|lia].
  intros. apply Forall_cons_2; [done|]. apply IH. lia.
Qed.

(** C16: When [ios_pipeline_wait] returns, whatever its time-out, which the code
    ignores, in every interleaving with the stages and with a thread that kills
    them: every stage has ended, with a status that tells whether its command
    failed unless it was killed; the value is the one of the last stage, -1 if
    that could not be started; no stage is counted as running any more. *)
Theorem wait_result p code : reachable pl_step pl_init p → main p = WaitReturned code →
  (∀ i s, stages p !! i = Some s → thread_id s = false ∧ ∃ r, stage_value s = Some r ∧ exit_code s = r ∧
     (status s = IOS_STAGE_KILLED ∨ status s = if bool_decide (r = 0%Z) then IOS_STAGE_COMPLETED else IOS_STAGE_FAILED)) ∧
  code = match list.last (stages p) with Some s => default 0%Z (stage_value s) | None => 0%Z end ∧
  running_count p = 0%Z ∧ completed_count p = Z.of_nat (threads (stages p)).
Proof.
  intros Hr Hm. pose proof (pl_reachable_inv p Hr) as Hinv.
  pose proof Hinv as [Hsize Hla Hjo Hst Hrun Hcomp Hall Hkill Hnk Hat Hret]. unfold_upto. rewrite Hm in *.
  assert (∀ i s, stages p !! i = Some s → thread_id s = false ∧ ∃ r, stage_value s = Some r ∧ exit_code s = r ∧
     (status s = IOS_STAGE_KILLED ∨
      status s = if bool_decide (r = 0%Z) then IOS_STAGE_COMPLETED else IOS_STAGE_FAILED)) as Hall'.
  { intros i s Hs. pose proof (lookup_lt_Some _ _ _ Hs) as Hi. destruct (Hst i s Hs) as [_ Hf Hj He _ Hc Hstat _].
    split; [by apply Hj|]. unfold stage_value. destruct (decide (has_thread s)) as [Hh|Hh].
    - destruct (He Hi Hh) as [r Ea]. rewrite Ea. exists r. split_and!; [done|by apply Hc; right|by apply Hstat].
    - apply dec_stable in Hh. rewrite Hh. destruct (Hf Hi Hh) as [Ec Es]. exists (-1)%Z. split_and!; [done..|by right]. }
  split_and!; [done| | |].
  - rewrite (Hret code eq_refl). unfold last_exit_code. destruct (list.last (stages p)) as [s|] eqn:El; [|done].
    rewrite last_lookup in El. destruct (Hall' _ _ El) as (_ & r & -> & -> & _). done.
  - lia.
  - by rewrite Hcomp, take_ge.
Qed.

(** A complete pipeline, which [ios_pipeline_destroy] frees without waiting, has
    only stages whose threads have ended and have been joined. *)
Theorem complete_all_joined p : reachable pl_step pl_init p → ios_pipeline_is_complete p = true →
  ∀ i s, stages p !! i = Some s → thread_id s = false ∧ ∃ r, at_phase s = Ended r.
Proof.
  intros Hr Hc i s Hs. pose proof (pl_reachable_inv p Hr) as Hinv.
  apply bool_decide_eq_true in Hc. rewrite (pi_completed p Hinv) in Hc.
  apply Nat2Z.inj in Hc. unfold num_stages in Hc.
  assert (length (stages p) ≤ length (take (completed_upto p) (stages p))) as Hlen.
  { rewrite <- Hc. unfold threads. apply length_filter. }
  rewrite length_take in Hlen. pose proof (lookup_lt_Some _ _ _ Hs) as Hi.
  rewrite take_ge in Hc by lia. apply threads_all_inv in Hc.
  assert (completed_upto p ≤ joined_upto p) as Hle. { unfold_upto. destruct (main p); lia. }
  destruct (pi_stage p Hinv i s Hs) as [_ _ Hj He _ _ _ _].
  split; [apply Hj; lia|]. apply He; [lia|]. rewrite list.Forall_forall in Hc. by eapply Hc, list_elem_of_lookup_2.
Qed.

(** Before anybody has waited for it, no pipeline is complete, even when all its
    stages have ended; and one with a stage that could not be started is never
    complete. *)
Theorem never_complete p : reachable pl_step pl_init p → 0 < num_stages p →
  main p = Launched ∨ (∃ i s, i < launched_upto p ∧ stages p !! i = Some s ∧ at_phase s = NoThread) →
  ios_pipeline_is_complete p = false.
Proof.
  intros Hr Hn Hcase. pose proof (pl_reachable_inv p Hr) as Hinv. apply bool_decide_eq_false.
  rewrite (pi_completed p Hinv). destruct Hcase as [Hm|(i & s & Hi & Hs & Ha)].
  - unfold completed_upto. rewrite Hm, take_0, threads_nil. lia.
  - intros Hc%Nat2Z.inj. unfold num_stages in *.
    pose proof (threads_take_mono (stages p) (completed_upto p) (length (stages p) `max` completed_upto p)) as Hmono.
    rewrite (take_ge (stages p) (length (stages p) `max` _)) in Hmono by lia.
    pose proof (threads_le (stages p) (length (stages p))) as Hle. rewrite take_ge in Hle by lia.
    assert (threads (stages p) = length (stages p)) as Hall by lia. apply threads_all_inv in Hall.
    rewrite list.Forall_forall in Hall. by destruct (Hall s (list_elem_of_lookup_2 _ _ _ Hs)).
Qed.

(** ** Termination *)

Definition phase_weight (s : stage) : nat :=
  match at_phase s with Created => 4 | Executing => 3 | Returned _ => 2 | Stored _ => 1 | NoThread | Ended _ => 0 end.

Definition main_weight (n : nat) (m : caller) : nat :=
  match m with
  | Launching i => 6 * (n - i) + 4 * n + 3
  | CountLaunch i => 6 * (n - S i) + 1 + 4 * n + 3
  | Launched => 4 * n + 2
  | Waiting i => 4 * (n - i) + 1
  | ClearThread i => 4 * (n - S i) + 4
  | CountRunning i => 4 * (n - S i) + 3
  | CountCompleted i => 4 * (n - S i) + 2
  | WaitReturned _ => 0
  end.

(** A bound on the steps of the caller and the stages. *)
Definition weight (p : pipeline) : nat :=
  main_weight (num_stages p) (main p) + sum_list_with phase_weight (stages p).

Lemma weight_set_stage p i s s' : stages p !! i = Some s →
  weight (set_stage i s' p) + phase_weight s = weight p + phase_weight s'.
Proof.
  intros Hs. unfold weight, num_stages. simpl. rewrite length_insert.
  pose proof (sum_list_with_insert phase_weight (stages p) i s s' Hs). lia.
Qed.

Lemma weight_kill p p' : kill_step p = Some p' → weight p' = weight p.
Proof.
  unfold kill_step. destruct (kill p) as [|i|i|i|i]; intros Hstep.
  - by destruct (main p); simplify_eq.
  - by destruct (stages p !! i) as [s|]; [case_match|]; simplify_eq.
  - by destruct (stages p !! i) as [s|]; simplify_eq.
  - by simplify_eq.
  - destruct (stages p !! i) as [s|] eqn:Es; simplify_eq.
    pose proof (weight_set_stage p i s (MkStage (thread_id s) IOS_STAGE_KILLED (exit_code s) (at_phase s)) Es) as Hw.
    change (phase_weight (MkStage _ _ _ (at_phase s))) with (phase_weight s) in Hw.
    change (weight (set_kill _ ?q)) with (weight q). lia.
Qed.

Lemma weight_launch p c p' : pl_inv p → launch_step c p = Some p' → weight p' < weight p.
Proof.
  intros Hinv Hstep. pose proof (pi_launch p Hinv) as Hla. unfold launch_step, launched_upto in *.
  destruct (main p) as [i|i| |i|i|i|i|k] eqn:Em; try done.
  - destruct (stages p !! i) as [s|] eqn:Es.
    + pose proof (lookup_lt_Some _ _ _ Es) as Hi.
      assert (s = new_stage) as ->. { eapply so_pending; [by apply pi_stage|]. unfold launched_upto. by rewrite Em. }
      destruct c; step_inv; unfold weight, num_stages in *; simpl; rewrite length_insert, Em; simpl.
      * pose proof (sum_list_with_insert phase_weight _ _ _ (MkStage true IOS_STAGE_PENDING 0 Created) Es) as Hw.
        change (phase_weight new_stage) with 0 in Hw. change (phase_weight (MkStage _ _ _ Created)) with 4 in Hw. lia.
      * pose proof (sum_list_with_insert phase_weight _ _ _ (MkStage false IOS_STAGE_FAILED (-1) NoThread) Es) as Hw.
        change (phase_weight new_stage) with 0 in Hw. change (phase_weight (MkStage _ _ _ NoThread)) with 0 in Hw. lia.
    + step_inv. unfold weight, num_stages. rewrite Em. simpl. lia.
  - step_inv. unfold weight, num_stages in *. rewrite Em. simpl. lia.
Qed.

Lemma weight_wait p t p' : pl_inv p → wait_step t p = Some p' → weight p' < weight p.
Proof.
  intros Hinv Hstep. pose proof (pi_join p Hinv) as Hjo. unfold wait_step, joined_upto in *.
  destruct (main p) as [i|i| |i|i|i|i|k] eqn:Em; try done.
  - step_inv. unfold weight, num_stages. rewrite Em. simpl. lia.
  - destruct (stages p !! i) as [s|] eqn:Es.
    + pose proof (lookup_lt_Some _ _ _ Es) as Hi. destruct (thread_id s).
      * destruct (at_phase s) eqn:Ea; step_inv. unfold weight, num_stages in *. rewrite Em. simpl. lia.
      * step_inv. unfold weight, num_stages in *. rewrite Em. simpl. lia.
    + step_inv. unfold weight, num_stages. rewrite Em. simpl. lia.
  - destruct (stages p !! i) as [s|] eqn:Es; step_inv. pose proof (lookup_lt_Some _ _ _ Es) as Hi.
    pose proof (weight_set_stage p i s (MkStage false (status s) (exit_code s) (at_phase s)) Es) as Hw.
    change (phase_weight (MkStage _ _ _ (at_phase s))) with (phase_weight s) in Hw.
    unfold weight, num_stages in *. simpl in *. rewrite length_insert in *. rewrite Em in *. simpl in *. lia.
  - step_inv. unfold weight, num_stages in *. rewrite Em. simpl. lia.
  - step_inv. unfold weight, num_stages in *. rewrite Em. simpl. lia.
Qed.

Lemma weight_stage p i r s s' : stages p !! i = Some s → stage_thread_step r s = Some s' →
  weight (set_stage i s' p) < weight p.
Proof.
  intros Hs Hstep. pose proof (weight_set_stage p i s s' Hs) as Hw.
  unfold stage_thread_step, phase_weight in *. destruct (at_phase s); simplify_eq/=; lia.
Qed.

Definition is_kill (e : event) : bool := match e with EvKill => true | _ => false end.

Lemma weight_step e p p' : pl_inv p → pl_step e p = Some p' →
  weight p' + (if is_kill e then 0 else 1) ≤ weight p.
Proof.
  intros Hinv Hstep. destruct e as [i r|c|t|]; simpl in *.
  - destruct (stages p !! i) as [s|] eqn:Es; [|done]. simpl in Hstep.
    destruct (stage_thread_step r s) as [s'|] eqn:Et; [|done]. simpl in Hstep. simplify_eq.
    pose proof (weight_stage p i r s s' Es Et). lia.
  - pose proof (weight_launch p c p' Hinv Hstep). lia.
  - pose proof (weight_wait p t p' Hinv Hstep). lia.
  - pose proof (weight_kill p p' Hstep). lia.
Qed.

Lemma stage_enabled s : has_thread s → (∀ r, at_phase s ≠ Ended r) → is_Some (stage_thread_step 0 s).
Proof. unfold stage_thread_step, has_thread. destruct (at_phase s); intros ? He; eauto; done || by edestruct He. Qed.

Lemma not_stuck p : pl_inv p → (∀ c, main p ≠ WaitReturned c) → ∃ e, is_kill e = false ∧ is_Some (pl_step e p).
Proof.
  intros Hinv Hm. pose proof (pi_at p Hinv) as Hat. destruct (main p) as [i|i| |i|i|i|i|c] eqn:Em; [..|by destruct (Hm c)].
  - exists (EvLaunch true). simpl. unfold launch_step. rewrite Em. by destruct (stages p !! i).
  - exists (EvLaunch true). simpl. unfold launch_step. by rewrite Em.
  - exists (EvWait 0). simpl. unfold wait_step. by rewrite Em.
  - destruct (stages p !! i) as [s|] eqn:Es; [|by exists (EvWait 0); simpl; unfold wait_step; rewrite Em, Es].
    destruct (thread_id s) eqn:Eid; [|by exists (EvWait 0); simpl; unfold wait_step; rewrite Em, Es, Eid].
    assert (has_thread s) as Hh.
    { pose proof (pi_stage p Hinv i s Es) as Hok. pose proof (lookup_lt_Some _ _ _ Es) as Hi.
      pose proof (so_thread _ _ _ _ Hok) as Ht. unfold_upto. rewrite Em in Ht. rewrite Eid in Ht.
      specialize (Ht Hi ltac:(lia)). symmetry in Ht. by apply bool_decide_eq_true in Ht. }
    destruct (at_phase s) as [| | | | |r] eqn:Ea; [done|..|by exists (EvWait 0); simpl; unfold wait_step; rewrite Em, Es, Eid, Ea];
      exists (EvStage i 0); simpl; rewrite Es; simpl;
      (destruct (stage_enabled s Hh) as [s' ->]; [by rewrite Ea|done]).
  - exists (EvWait 0). simpl. unfold wait_step. rewrite Em. destruct Hat as (s & _ & -> & _). done.
  - exists (EvWait 0). simpl. unfold wait_step. by rewrite Em.
  - exists (EvWait 0). simpl. unfold wait_step. by rewrite Em.
Qed.

(** C19: A wait ends: from any state, the stages and the caller together take at most
    [weight] steps however the scheduler interleaves them with each other and
    with a thread that kills; and as long as the wait has not returned one of
    them can take a step. *)
Theorem wait_terminates p : reachable pl_step pl_init p →
  (∀ es p', run pl_step es p = Some p' → length (filter (λ e, is_kill e = false) es) + weight p' ≤ weight p) ∧
  ((∀ c, main p ≠ WaitReturned c) → ∃ e, is_kill e = false ∧ is_Some (pl_step e p)).
Proof.
  intros Hr. split; [|by apply not_stuck, pl_reachable_inv].
  intros es. revert p Hr. induction es as [|e es IH]; intros p Hr p' Hrun; simpl in Hrun.
  - simplify_eq. simpl. lia.
  - destruct (pl_step e p) as [p1|] eqn:Ep; [|done].
    pose proof (weight_step e p p1 (pl_reachable_inv p Hr) Ep).
    pose proof (IH p1 (reachable_step _ _ _ _ _ Hr Ep) p' Hrun).
    rewrite list.filter_cons. destruct e; case_decide; simplify_eq/=; lia.
Qed.

(** ** Concrete runs *)

(** Two stages that return 3 and 0; the second one is launched last and ends
    first. *)
Definition two_stage_run : list event :=
  [EvLaunch true; EvStage 0 0; EvLaunch true; EvLaunch true; EvLaunch true; EvLaunch true;
   EvStage 1 0; EvStage 1 0; EvStage 1 0; EvStage 1 0; EvStage 0 3; EvStage 0 0; EvStage 0 0].
Definition wait_run : list event := replicate 10 (EvWait 50).

Definition run_two (es : list event) : pipeline := default (new_pipeline 0) (run pl_step es (new_pipeline 2)).

Lemma run_two_reachable es p : run pl_step es (new_pipeline 2) = Some p → reachable pl_step pl_init p.
Proof.
  intros Hrun. eapply run_reachable; [|exact Hrun]. apply reachable_init. exists 2. split; [lia|done].
Qed.

Lemma wait_result_witness : running_count (run_two (two_stage_run ++ wait_run)) = 0%Z ∧
  main (run_two (two_stage_run ++ wait_run)) = WaitReturned 0.
Proof.
  assert (main (run_two (two_stage_run ++ wait_run)) = WaitReturned 0) as Hm by by vm_compute.
  split; [|done]. refine (proj1 (proj2 (proj2 (wait_result _ 0 _ Hm)))).
  apply (run_two_reachable (two_stage_run ++ wait_run)). by vm_compute.
Defined.

Lemma complete_all_joined_witness : ∃ s, stages (run_two (two_stage_run ++ wait_run)) !! 0 = Some s ∧
  thread_id s = false ∧ ∃ r, at_phase s = Ended r.
Proof.
  exists (MkStage false IOS_STAGE_FAILED 3 (Ended 3)). split; [by vm_compute|].
  apply (complete_all_joined (run_two (two_stage_run ++ wait_run))) with (i := 0); [|by vm_compute..].
  apply (run_two_reachable (two_stage_run ++ wait_run)). by vm_compute.
Defined.

(** Both stages have ended. *)
Lemma never_complete_witness : ios_pipeline_is_complete (run_two two_stage_run) = false ∧
  (at_phase <$> stages (run_two two_stage_run)) = [Ended 3; Ended 0].
Proof.
  split; [|by vm_compute]. apply never_complete; [|by vm_compute; lia|left; by vm_compute].
  apply (run_two_reachable two_stage_run). by vm_compute.
Defined.

Lemma wait_terminates_witness : ∃ e, is_kill e = false ∧ is_Some (pl_step e (run_two two_stage_run)).
Proof.
  refine (proj2 (wait_terminates (run_two two_stage_run) _) _).
  - apply (run_two_reachable two_stage_run). by vm_compute.
  - intros c. by vm_compute.
Defined.

(** ** What goes wrong *)

(** The header promises that a wait ends with -1 when its time-out expires; a
    wait whose first stage still runs takes no step at all. *)
Theorem timeout_ignored timeout_ms :
  wait_step timeout_ms (run_two [EvLaunch true; EvLaunch true; EvLaunch true; EvLaunch true; EvLaunch true;
                                 EvStage 0 0; EvWait timeout_ms]) = None.
Proof. by vm_compute. Qed.

(** The thread of a stage ends and is joined between the look at its [thread_id]
    and the signal. *)
Theorem kill_after_join :
  let p := run_two [EvLaunch true; EvLaunch true; EvLaunch true; EvLaunch true; EvLaunch true; EvStage 0 0;
                    EvKill; EvKill; EvKill; EvStage 0 0; EvStage 0 0; EvStage 0 0; EvWait (-1); EvWait (-1); EvWait (-1)] in
  kill p = KillSend 0 ∧ (thread_id <$> stages p !! 0) = Some false ∧ (at_phase <$> stages p !! 0) = Some (Ended 0).
Proof. by vm_compute. Qed.
