(* ===== verification/Async.v ===== *)
(** * Commands that run by themselves ([src/ios_async.m])

    [ios_system_async] starts a thread that runs a command and hands out a
    handle, with which a client waits for the command, asks for its status, has
    it killed, sets a function to be called at its end, and which it releases.
    The handle is freed when the count of its references reaches zero; the
    thread takes a reference of its own when it starts.
    - [async_exec] is the transition system of the thread and one client that
      makes a list of calls, cut at the critical sections and the atomic
      operations.  The clock is read by the step that checks the time-out; what
      [ios_system] and [ios_kill_session] answer comes with the event.
    - [client_safe]: without a time-out, a client that does what it likes with
      the handle, then waits and then releases it touches no freed memory, the
      wait answers what the command returned, the handle is freed, and a
      function that was set is called exactly once.
    - Other clients are not safe: [release_running], [timeout_frees_running],
      [callback_removed].  A time-out kills nothing ([timeout_never_kills]) and is
      not noticed by a client that sleeps ([timeout_unnoticed]).
    - Not modelled: the streams and the session of the thread ([SessionThread]);
      the getters of the number and the text of the command. *)

From S2P Require Import Prelude.

Open Scope Z_scope.

Inductive ios_command_status_t : Set :=
  | IOS_CMD_PENDING | IOS_CMD_RUNNING | IOS_CMD_COMPLETED | IOS_CMD_FAILED | IOS_CMD_KILLED | IOS_CMD_TIMEOUT.
Global Instance command_status_eq_dec : EqDecision ios_command_status_t.
Proof. solve_decision. Defined.

Abbreviation callback_t := positive (only parsing).

Record ios_command := Command {
  status : ios_command_status_t;
  exit_code : Z;
  kill_requested : bool;
  callback : option callback_t;
  callback_invoked : bool;
  timeout_ms : Z;
  owns_session : bool;
  ref_count : Z }.

Definition set_status (v : ios_command_status_t) (c : ios_command) : ios_command :=
  Command v (exit_code c) (kill_requested c) (callback c) (callback_invoked c) (timeout_ms c) (owns_session c) (ref_count c).
Definition set_exit_code (v : Z) (c : ios_command) : ios_command :=
  Command (status c) v (kill_requested c) (callback c) (callback_invoked c) (timeout_ms c) (owns_session c) (ref_count c).
Definition request_kill (c : ios_command) : ios_command :=
  Command (status c) (exit_code c) true (callback c) (callback_invoked c) (timeout_ms c) (owns_session c) (ref_count c).
Definition set_callback (f : option callback_t) (c : ios_command) : ios_command :=
  Command (status c) (exit_code c) (kill_requested c) f (callback_invoked c) (timeout_ms c) (owns_session c) (ref_count c).
Definition set_invoked (c : ios_command) : ios_command :=
  Command (status c) (exit_code c) (kill_requested c) (callback c) true (timeout_ms c) (owns_session c) (ref_count c).
Definition add_ref (d : Z) (c : ios_command) : ios_command :=
  Command (status c) (exit_code c) (kill_requested c) (callback c) (callback_invoked c) (timeout_ms c) (owns_session c)
    (wrapS 32 (ref_count c + d)).

Record ios_async_options_t := Options { opt_session : option Z; opt_callback : option callback_t; opt_timeout_ms : Z }.
Definition ios_async_default_options : ios_async_options_t := Options None None (-1).

(** [ios_system_async]: [context] is the session of the caller; the three flags
    tell whether the two allocations and the creation of the thread succeed. *)
Definition ios_system_async (command_given calloc_ok strdup_ok thread_ok : bool) (context : option Z)
    (options : option ios_async_options_t) : option ios_command :=
  if command_given && calloc_ok && strdup_ok && thread_ok then
    let opts := default ios_async_default_options options in
    let session_id := match opt_session opts with Some id => Some id | None => context end in
    Some (Command IOS_CMD_PENDING (-1) false (opt_callback opts) false (opt_timeout_ms opts) (bool_decide (session_id = None)) 1)
  else None.

(** [status == IOS_CMD_PENDING || status == IOS_CMD_RUNNING]. *)
Definition unfinished (v : ios_command_status_t) : bool :=
  match v with IOS_CMD_PENDING | IOS_CMD_RUNNING => true | _ => false end.

Definition check_timeout (elapsed_ms : Z) (c : ios_command) : bool :=
  if bool_decide (timeout_ms c < 0) then false else bool_decide (timeout_ms c ≤ elapsed_ms).

(** The end of the thread's critical section. *)
Definition finish (elapsed_ms result : Z) (c : ios_command) : ios_command :=
  set_status (if check_timeout elapsed_ms c then IOS_CMD_TIMEOUT
              else if kill_requested c then IOS_CMD_KILLED
              else if bool_decide (result = 0) then IOS_CMD_COMPLETED else IOS_CMD_FAILED)
    (set_exit_code result c).

(** ** The threads *)

(** A round of the loop of [ios_command_wait]: it sleeps, or it is over, with a
    broadcast when that is because of the time-out. *)
Inductive look : Type :=
  | Sleeps
  | Over (code : Z) (c : ios_command) (broadcast : bool).

Definition wait_look (elapsed_ms : Z) (c : ios_command) : look :=
  if unfinished (status c) then
    if check_timeout elapsed_ms c then Over (exit_code c) (set_status IOS_CMD_TIMEOUT c) true else Sleeps
  else Over (exit_code c) c false.

(** Where a thread is in [ios_command_release]: about to count down, to look at
    the status, to wait, asleep in the wait, about to free, done. *)
Inductive release_pc : Type :=
  | RelCount | RelLook | RelWait | RelSleep (woken : bool) | RelFree | RelDone.

(** Where the thread of the command is: created, counted, running the command,
    back from it, about to look for the callback, to call it, to close the
    session, in the release. *)
Inductive worker_pc : Type :=
  | WCreated | WCounted | WRunning | WReturned (result : Z) | WInvoke (result : Z) | WCalling (result : Z) | WClose
  | WRelease (r : release_pc).

Inductive call : Type :=
  | Wait | TryWait | GetStatus | Kill | KillOnTimeout | SetCallback (f : option callback_t) | Release.

Inductive reply : Type :=
  | Code (code : Z) | NotDone | StatusIs (v : ios_command_status_t) | Nothing.

(** Where the client is: between two calls, asleep in a wait, about to load the
    exit code, about to kill, and the same three places around the callback. *)
Inductive client_pc : Type :=
  | CIdle | CAsleep (woken : bool) | CLoad | CKill
  | CInvokeLoad | CInvoke (code : Z) | CCalling (code : Z)
  | CRelease (r : release_pc).

Record async := Async {
  cmd : option ios_command;           (* none when it is freed *)
  worker : worker_pc;
  client : client_pc;
  todo : list call;                   (* with the call the client is in *)
  replies : list reply;               (* newest first *)
  called : list (callback_t * Z);     (* calls of callbacks, newest first *)
  returned : option Z }.              (* what [ios_system] returned *)

Definition with_cmd (c : option ios_command) (s : async) : async :=
  Async c (worker s) (client s) (todo s) (replies s) (called s) (returned s).
Definition at_worker (w : worker_pc) (s : async) : async :=
  Async (cmd s) w (client s) (todo s) (replies s) (called s) (returned s).
Definition at_client (k : client_pc) (s : async) : async :=
  Async (cmd s) (worker s) k (todo s) (replies s) (called s) (returned s).
Definition reply_with (r : reply) (s : async) : async :=
  Async (cmd s) (worker s) CIdle (tail (todo s)) (r :: replies s) (called s) (returned s).
Definition add_call (f : callback_t) (code : Z) (s : async) : async :=
  Async (cmd s) (worker s) (client s) (todo s) (replies s) ((f, code) :: called s) (returned s).
Definition ios_system_returns (code : Z) (s : async) : async :=
  Async (cmd s) (worker s) (client s) (todo s) (replies s) (called s) (Some code).

Definition broadcast (s : async) : async :=
  let s := match client s with CAsleep _ => at_client (CAsleep true) s | CRelease (RelSleep _) => at_client (CRelease (RelSleep true)) s | _ => s end in
  match worker s with WRelease (RelSleep _) => at_worker (WRelease (RelSleep true)) s | _ => s end.

(** Every use of the handle. *)
Definition live (s : async) : outcome ios_command :=
  match cmd s with Some c => Ret c | None => Undef UseAfterFree end.

(** A step of [ios_command_release]; [None]: it sleeps or it is done. *)
Definition release_step (elapsed_ms : Z) (r : release_pc) (s : async) : outcome (option (release_pc * async)) :=
  let wait :=
    c ← live s;
    Ret (Some (match wait_look elapsed_ms c with
               | Sleeps => (RelSleep false, s)
               | Over _ c' b => (RelFree, if b : bool then broadcast (with_cmd (Some c') s) else s)
               end)) in
  match r with
  | RelCount =>
      c ← live s;
      Ret (Some (if bool_decide (1 < ref_count c) then RelDone else RelLook, with_cmd (Some (add_ref (-1) c)) s))
  | RelLook => c ← live s; Ret (Some (if unfinished (status c) then RelWait else RelFree, s))
  | RelWait | RelSleep true => wait
  | RelFree => _ ← live s; Ret (Some (RelDone, with_cmd None s))
  | RelSleep false | RelDone => Ret None
  end.

(** The call of the callback, behind the critical section of
    [invoke_callback_if_set]. *)
Definition call_back (code : Z) (s : async) : outcome async :=
  c ← live s;
  match callback c with Some f => Ret (add_call f code s) | None => Undef NullDeref end.

(** [command_thread_func]. *)
Definition worker_step (result elapsed_ms : Z) (s : async) : outcome (option async) :=
  match worker s with
  | WCreated => c ← live s; Ret (Some (at_worker WCounted (with_cmd (Some (add_ref 1 c)) s)))
  | WCounted => c ← live s; Ret (Some (at_worker WRunning (with_cmd (Some (set_status IOS_CMD_RUNNING c)) s)))
  | WRunning => _ ← live s; Ret (Some (at_worker (WReturned result) (ios_system_returns result s)))
  | WReturned r => c ← live s; Ret (Some (broadcast (at_worker (WInvoke r) (with_cmd (Some (finish elapsed_ms r c)) s))))
  | WInvoke r =>
      c ← live s;
      Ret (Some (if bool_decide (callback c ≠ None) && negb (callback_invoked c)
                 then at_worker (WCalling r) (with_cmd (Some (set_invoked c)) s) else at_worker WClose s))
  | WCalling r => s ← call_back r s; Ret (Some (at_worker WClose s))
  | WClose => _ ← live s; Ret (Some (at_worker (WRelease RelCount) s))
  | WRelease r => o ← release_step elapsed_ms r s; Ret (option_map (λ x, at_worker (WRelease x.1) x.2) o)
  end.

(** [ios_command_kill]; [answer] is that of [ios_kill_session]. *)
Definition kill_command (answer : Z) (c : ios_command) (s : async) : async :=
  if bool_decide (status c = IOS_CMD_RUNNING) then reply_with (Code answer) (with_cmd (Some (request_kill c)) s)
  else reply_with (Code 0) s.

Definition wait_command (elapsed_ms : Z) (c : ios_command) (s : async) : async :=
  match wait_look elapsed_ms c with
  | Sleeps => at_client (CAsleep false) s
  | Over code c' b => reply_with (Code code) (if b : bool then broadcast (with_cmd (Some c') s) else s)
  end.

Definition client_step (answer elapsed_ms : Z) (s : async) : outcome (option async) :=
  match client s with
  | CIdle =>
      match todo s with
      | [] => Ret None
      | Wait :: _ => c ← live s; Ret (Some (wait_command elapsed_ms c s))
      | TryWait :: _ => c ← live s; Ret (Some (if unfinished (status c) then reply_with NotDone s else at_client CLoad s))
      | GetStatus :: _ => c ← live s; Ret (Some (reply_with (StatusIs (status c)) s))
      | Kill :: _ => c ← live s; Ret (Some (kill_command answer c s))
      | KillOnTimeout :: _ =>
          c ← live s; Ret (Some (if bool_decide (status c = IOS_CMD_TIMEOUT) then at_client CKill s else reply_with Nothing s))
      | SetCallback f :: _ =>
          c ← live s;
          let s := with_cmd (Some (set_callback f c)) s in
          Ret (Some (if negb (unfinished (status c)) && negb (callback_invoked c) && bool_decide (f ≠ None)
                     then at_client CInvokeLoad s else reply_with Nothing s))
      | Release :: _ => Ret (Some (at_client (CRelease RelCount) s))
      end
  | CAsleep false => Ret None
  | CAsleep true => c ← live s; Ret (Some (wait_command elapsed_ms c s))
  | CLoad => c ← live s; Ret (Some (reply_with (Code (exit_code c)) s))
  | CKill => c ← live s; Ret (Some (kill_command answer c s))
  | CInvokeLoad => c ← live s; Ret (Some (at_client (CInvoke (exit_code c)) s))
  | CInvoke code =>
      c ← live s;
      Ret (Some (if bool_decide (callback c ≠ None) && negb (callback_invoked c)
                 then at_client (CCalling code) (with_cmd (Some (set_invoked c)) s) else reply_with Nothing s))
  | CCalling code => s ← call_back code s; Ret (Some (reply_with Nothing s))
  | CRelease RelDone => Ret None
  | CRelease r => o ← release_step elapsed_ms r s; Ret (option_map (λ x, at_client (CRelease x.1) x.2) o)
  end.

(** A step of the thread, of the client, or a spurious wake-up of the client. *)
Inductive async_event : Type :=
  | Worker (result elapsed_ms : Z)
  | Client (answer elapsed_ms : Z)
  | Spurious.

Definition async_exec (e : async_event) (s : async) : outcome (option async) :=
  match e with
  | Worker result elapsed_ms => worker_step result elapsed_ms s
  | Client answer elapsed_ms => client_step answer elapsed_ms s
  | Spurious => Ret (match client s with CAsleep _ => Some (at_client (CAsleep true) s) | _ => None end)
  end.

Definition async_step (e : async_event) (s : async) : option async :=
  match async_exec e s with Ret o => o | Undef _ => None end.

Definition async_start (c : ios_command) (calls : list call) : async := Async (Some c) WCreated CIdle calls [] [] None.

(** [ios_system_sync] and [ios_system_timeout]. *)
Definition sync_calls : list call := [Wait; Release].
Definition timeout_calls : list call := [Wait; KillOnTimeout; Release].

(** ** Clients that wait before they release *)

(** Calls that keep the handle and do not take the callback away. *)
Definition keeps (k : call) : bool := match k with Release | SetCallback None => false | _ => true end.

Inductive remaining : list call → Prop :=
  | rem_wait : remaining [Wait; Release]
  | rem_call k ks : keeps k = true → remaining ks → remaining (k :: ks).

Definition sets_callback (ks : list call) : Prop := ∃ f, SetCallback f ∈ ks.

Definition script_ok (s : async) : Prop :=
  match client s with
  | CRelease _ => todo s = [Release]
  | CIdle => todo s = [Release] ∨ remaining (todo s)
  | CAsleep _ => ∃ ks, todo s = Wait :: ks ∧ (ks = [Release] ∨ remaining ks)
  | CLoad => ∃ ks, todo s = TryWait :: ks ∧ remaining ks
  | CKill => ∃ ks, todo s = KillOnTimeout :: ks ∧ remaining ks
  | _ => ∃ f ks, todo s = SetCallback (Some f) :: ks ∧ remaining ks
  end.

Definition worker_ok (w : worker_pc) (c : ios_command) (ret : option Z) : Prop :=
  match w with
  | WCreated | WCounted => status c = IOS_CMD_PENDING
  | WRunning => status c = IOS_CMD_RUNNING
  | WReturned r => status c = IOS_CMD_RUNNING ∧ ret = Some r
  | _ => unfinished (status c) = false ∧ ret = Some (exit_code c)
  end.

(** The references of the two threads. *)
Definition worker_holds (w : worker_pc) : Z :=
  match w with WCreated | WRelease (RelLook | RelWait | RelSleep _ | RelFree | RelDone) => 0 | _ => 1 end.
Definition client_holds (k : client_pc) : Z :=
  match k with CRelease (RelLook | RelWait | RelSleep _ | RelFree | RelDone) => 0 | _ => 1 end.

Definition waits_in_release (r : release_pc) : Prop := match r with RelWait | RelSleep _ => True | _ => False end.
Definition frees (r : release_pc) : Prop := match r with RelLook | RelFree => True | _ => False end.

(** The releases: only one thread frees, when the other is done, and none waits. *)
Definition release_ok (w : worker_pc) (k : client_pc) : Prop :=
  match w with
  | WRelease r => ¬ waits_in_release r ∧ (frees r → k = CRelease RelDone) ∧ (r = RelDone → k ≠ CRelease RelDone)
  | _ => True
  end ∧
  match k with CRelease r => ¬ waits_in_release r ∧ (frees r → w = WRelease RelDone) | _ => True end.

Definition calling (w : worker_pc) (k : client_pc) : nat :=
  (match w with WCalling _ => 1 | _ => 0 end + match k with CCalling _ => 1 | _ => 0 end)%nat.
Definition in_callback (k : client_pc) : Prop := match k with CInvokeLoad | CInvoke _ | CCalling _ => True | _ => False end.
Definition about_to_invoke (w : worker_pc) (k : client_pc) : Prop :=
  match k with CInvokeLoad | CInvoke _ => True | _ => match w with WClose | WRelease _ => False | _ => True end end.

Record callback_ok (has : bool) (c : ios_command) (s : async) : Prop := {
  cb_count : (length (called s) + calling (worker s) (client s) = if callback_invoked c then 1 else 0)%nat;
  cb_invoked : callback_invoked c = true → callback c ≠ None;
  cb_client : in_callback (client s) → callback c ≠ None;
  cb_pending : callback c ≠ None → callback_invoked c = true ∨ about_to_invoke (worker s) (client s);
  cb_has : callback c ≠ None ∨ sets_callback (todo s) ↔ has = true }.

Record handle_ok (has : bool) (c : ios_command) (s : async) : Prop := {
  ho_timeout : timeout_ms c < 0;
  ho_worker : worker_ok (worker s) c (returned s);
  ho_refs : ref_count c = worker_holds (worker s) + client_holds (client s);
  ho_waited : todo s = [Release] → unfinished (status c) = false;
  ho_asleep : client s = CAsleep false → unfinished (status c) = true;
  ho_release : release_ok (worker s) (client s);
  ho_callback : callback_ok has c s }.

Record async_inv (has : bool) (s : async) : Prop := {
  ai_script : script_ok s;
  ai_waited : todo s = [Release] → ∃ r, returned s = Some r ∧ head (replies s) = Some (Code r);
  ai_handle : match cmd s with
              | Some c => handle_ok has c s
              | None => worker s = WRelease RelDone ∧ client s = CRelease RelDone ∧ length (called s) = (if has then 1 else 0)%nat
              end }.

Lemma remaining_not_release ks : remaining ks → ks ≠ [Release].
Proof. intros H. inversion H as [|k' ks' Hk Hr]; subst; [done|]. intros [= -> ->]. inversion Hr. Qed.

Lemma remaining_cons k ks : remaining (k :: ks) → k = Wait ∧ ks = [Release] ∨ keeps k = true ∧ remaining ks.
Proof. inversion 1; subst; eauto. Qed.

Lemma no_timeout elapsed_ms c : timeout_ms c < 0 → check_timeout elapsed_ms c = false.
Proof. intros H. unfold check_timeout. by rewrite bool_decide_eq_true_2. Qed.

(** What is left to do when nobody uses the handle any more. *)
Lemma freed_ok has c s w : client s = CRelease RelDone → worker s = WRelease w → script_ok s → callback_ok has c s →
  length (called s) = (if has then 1 else 0)%nat.
Proof.
  intros Hk Hw Hs [Hcount Hinv _ Hpend Hhas]. unfold script_ok in Hs. rewrite Hk, Hw in *. rewrite Hs in Hhas. unfold calling in Hcount. simpl in *.
  assert (¬ sets_callback [Release]) as Hno by (intros [f Hf]; set_solver).
  destruct (callback_invoked c) eqn:Hi, has; try lia.
  - destruct Hhas as [Hhas _]. assert (false = true) by (apply Hhas; left; by apply Hinv). done.
  - destruct Hhas as [_ [Hcb|?]]; [done| |done]. by destruct (Hpend Hcb).
Qed.

(** Steps that do not touch what the callback's invariant speaks of. *)
Lemma callback_same has c c' s s' : callback_ok has c s → callback c' = callback c → callback_invoked c' = callback_invoked c →
  called s' = called s → (in_callback (client s') → in_callback (client s)) → todo s' = todo s → calling (worker s') (client s') = calling (worker s) (client s) →
  (about_to_invoke (worker s) (client s) → about_to_invoke (worker s') (client s')) → callback_ok has c' s'.
Proof.
  intros [Hcount Hinv Hclient Hpend Hhas] E1 E2 E3 E4 E5 E6 Hi. split; rewrite ?E1, ?E2, ?E3, ?E5; [by rewrite E6|done|auto| |done].
  intros Hcb. destruct (Hpend Hcb); auto.
Qed.

Lemma small_refs w k d : -1 ≤ d ≤ 1 → wrapS 32 (worker_holds w + client_holds k + d) = worker_holds w + client_holds k + d.
Proof.
  intros Hd. assert (0 ≤ worker_holds w ≤ 1) by (destruct w as [| | | | | | |[]]; simpl; lia).
  assert (0 ≤ client_holds k ≤ 1) by (destruct k as [| | | | | | |[]]; simpl; lia). apply wrapS_small; lia.
Qed.

(** The steps of the thread. *)

Definition good (has : bool) (m : outcome (option async)) : Prop := ∃ s', m = Ret (Some s') ∧ async_inv has s'.

Section thread_steps.
Context (has : bool) (c : ios_command) (k : client_pc) (ks : list call) (rs : list reply) (cs : list (callback_t * Z))
  (ret : option Z) (result elapsed_ms : Z).

Abbreviation at_place w := (Async (Some c) w k ks rs cs ret).

Lemma start_inv w : w = WCreated ∨ w = WCounted ∨ w = WRunning → async_inv has (at_place w) →
  good has (worker_step result elapsed_ms (at_place w)).
Proof.
  intros Hplace [Hs Hw Hh]. unfold good, worker_step, live, call_back. simpl in *.
  destruct Hh as [Ht Hwok Href Hwaited Hasleep [Hrw Hrc] Hcb]. simpl in *.
  destruct Hplace as [-> |[-> | ->]]; simpl in *.
  - eexists. split; [done|]. split; [done|done|]. simpl.
    split; simpl; [done|done| |done|done| |by eapply callback_same].
    + pose proof (small_refs WCreated k 1 ltac:(lia)) as E. simpl in E. rewrite Href, E. lia.
    + split; [done|]. destruct k; naive_solver.
  - eexists. split; [done|]. split; [done|done|]. simpl.
    split; simpl; [done|done|done| | | |by eapply callback_same].
    + intros E. specialize (Hwaited E). by rewrite Hwok in Hwaited.
    + done.
    + split; [done|]. destruct k; naive_solver.
  - eexists. split; [done|]. split; [done| |]; simpl.
    { intros E. specialize (Hwaited E). by rewrite Hwok in Hwaited. }
    split; simpl; [done|done|done|done|done| |by eapply callback_same]. split; [done|]. destruct k; naive_solver.
Qed.

Lemma finish_inv r : async_inv has (at_place (WReturned r)) → good has (worker_step result elapsed_ms (at_place (WReturned r))).
Proof.
  intros [Hs Hw Hh]. unfold good, worker_step, live, call_back. simpl in *.
  destruct Hh as [Ht Hwok Href Hwaited Hasleep [Hrw Hrc] Hcb]. simpl in *.
  destruct Hwok as [Hst ->].
  assert (ks ≠ [Release]) as Hks by (intros E; specialize (Hwaited E); by rewrite Hst in Hwaited).
  assert (∀ r', k ≠ CRelease r') as Hk by (intros r' ->; done).
  assert (unfinished (status (finish elapsed_ms r c)) = false) as Hfin.
  { unfold finish. rewrite no_timeout by done. simpl. destruct (kill_requested c); [done|]. by case_bool_decide. }
  eexists. split; [done|]. unfold broadcast.
  assert (∀ k', client_holds k' = client_holds k → script_ok (Async (Some c) (WReturned r) k' ks rs cs (Some r)) →
    k' ≠ CAsleep false → (∀ r', k' ≠ CRelease r') → calling (WInvoke r) k' = calling (WReturned r) k →
    (in_callback k' ↔ in_callback k) → (about_to_invoke (WReturned r) k → about_to_invoke (WInvoke r) k') →
    async_inv has (Async (Some (finish elapsed_ms r c)) (WInvoke r) k' ks rs cs (Some r))) as H.
  { intros k' E Hs' Hna Hnr Hcall Hin Habout. split; [done|done|]. simpl. split; simpl; [done| |by rewrite E|done|done| |].
    - by split.
    - split; [done|]. destruct k' ; try done; naive_solver.
    - destruct Hcb as [Hcount Hinv Hclient Hpend Hhas]. split; simpl; [by rewrite Hcall|done|by rewrite Hin| |done].
      intros Hc. destruct (Hpend Hc); auto. }
  destruct k as [|b| | | | | |r']; simpl; try (by apply H).
  by destruct (Hk r').
Qed.

Lemma invoke_inv r w : w = WInvoke r ∨ w = WCalling r → async_inv has (at_place w) →
  good has (worker_step result elapsed_ms (at_place w)).
Proof.
  intros Hplace [Hs Hw Hh]. unfold good, worker_step, live, call_back. simpl in *.
  destruct Hh as [Ht Hwok Href Hwaited Hasleep [Hrw Hrc] Hcb]. simpl in *.
  destruct Hplace as [-> | ->]; simpl in *.
  - destruct Hwok as [Hst ->]. destruct Hcb as [Hcount Hinv Hclient Hpend Hhas].
    unfold calling, about_to_invoke in *. simpl in *.
    case_bool_decide as Hc; [destruct (callback_invoked c) eqn:Hi|]; simpl; eexists; (split; [done|]);
      (split; [done|done|]); simpl; (split; simpl; [done|done|done|done|done|split; [done|destruct k; naive_solver]|]).
    + split; simpl; unfold calling; rewrite ?Hi; [lia|done|done|by left|done].
    + split; simpl; unfold calling; [lia|done|done|by left|done].
    + split; simpl; unfold calling; [lia|done|done|by intros ?|done].
  - destruct Hwok as [Hst ->]. destruct Hcb as [Hcount Hinv Hclient Hpend Hhas]. unfold calling in Hcount. simpl in *.
    destruct (callback_invoked c) eqn:Hi; [|lia]. specialize (Hinv eq_refl). destruct (callback c) as [f|] eqn:Hf; [|done].
    eexists. split; [done|]. split; [done|done|]. simpl.
    split; simpl; [done|done|done|done|done|split; [done|destruct k; naive_solver]|].
    split; simpl; unfold calling; rewrite ?Hf; [rewrite Hi; lia|done|done|by left|done].
Qed.

Lemma thread_release_inv w r : w = WClose ∨ w = WRelease r ∧ r ≠ RelDone → async_inv has (at_place w) →
  good has (worker_step result elapsed_ms (at_place w)).
Proof.
  intros Hplace [Hs Hw Hh]. unfold good, worker_step, live, call_back. simpl in *.
  destruct Hh as [Ht Hwok Href Hwaited Hasleep [Hrw Hrc] Hcb]. simpl in *.
  destruct Hplace as [-> |[-> Hr]]; simpl in *.
  - eexists. split; [done|]. split; [done|done|]. simpl.
    split; simpl; [done|done|done|done|done|split; [split; [by intros []|by split; [intros []|]]|destruct k; naive_solver]|].
    by eapply callback_same.
  - destruct r as [| | |b| |]; simpl.
    + eexists. split; [done|]. split; [done|done|]. simpl.
      assert (ref_count (add_ref (-1) c) = client_holds k) as Href'.
      { pose proof (small_refs (WRelease RelCount) k (-1) ltac:(lia)) as E. simpl in E. simpl. rewrite Href, E. lia. }
      split; simpl; [done|done|by case_bool_decide|done|done| |by eapply callback_same; [..|case_bool_decide]].
      case_bool_decide as Hc; (split; [split_and!|]); try done; destruct k as [| | | | | | |[]]; simpl in *; try lia; naive_solver.
    + eexists. split; [done|]. destruct Hwok as [Hst ->]. rewrite Hst. split; [done|done|]. simpl.
      split; simpl; [done|done|done|done|done| |by eapply callback_same].
      destruct Hrw as (_ & Hk & _). rewrite Hk by done. unfold release_ok. simpl. naive_solver.
    + by destruct Hrw as [[] _].
    + by destruct Hrw as [[] _].
    + eexists. split; [done|]. split; [done|done|]. simpl. destruct Hrw as (_ & Hk & _).
      rewrite Hk in * by done. split_and!; [done|done|]. by eapply (freed_ok has c (Async (Some c) _ _ _ _ _ _)).
    + done.
Qed.
End thread_steps.

Lemma worker_inv has s result elapsed_ms : async_inv has s →
  ∃ o, worker_step result elapsed_ms s = Ret o ∧ (worker s ≠ WRelease RelDone → is_Some o) ∧
    ∀ s', o = Some s' → async_inv has s'.
Proof.
  intros Hi. destruct s as [[c|] w k ks rs cs ret].
  2: { destruct Hi as [_ _ (Hw & _ & _)]. simpl in Hw. subst w. eexists. by split_and!. }
  assert (w = WRelease RelDone ∨ good has (worker_step result elapsed_ms (Async (Some c) w k ks rs cs ret))) as [-> |(s' & E & H)].
  { destruct w as [| | |r|r|r| |r]; try (right; by apply start_inv; [tauto|]); try (right; by apply finish_inv).
    - right. by apply (invoke_inv has c k ks rs cs ret result elapsed_ms r); [left|].
    - right. by apply (invoke_inv has c k ks rs cs ret result elapsed_ms r); [right|].
    - right. by apply (thread_release_inv has c k ks rs cs ret result elapsed_ms WClose RelDone); [left|].
    - destruct r; [right; by eapply thread_release_inv; [right|]..|by left]. }
  - eexists. by split_and!.
  - exists (Some s'). split_and!; [exact E|by eexists|by intros ? [= <-]].
Qed.

(** The steps of the client. *)
Lemma finished_returned w c ret : worker_ok w c ret → unfinished (status c) = false → ret = Some (exit_code c).
Proof. destruct w; simpl; [intros ->; done|intros ->; done|intros ->; done|intros [-> _]; done|by intros [_ ?]..]. Qed.

Lemma release_idle w k k' : release_ok w k → (∀ r, k ≠ CRelease r) → (∀ r, k' ≠ CRelease r) → release_ok w k'.
Proof.
  intros [Hw _] Hk Hk'. split; [|by destruct k'; try done; destruct (Hk' r)]. destruct w as [| | | | | | |r]; try done.
  destruct Hw as (H1 & H2 & H3). split_and!; [done|intros Hf; by destruct (Hk RelDone (H2 Hf))|by intros _ ?%Hk'].
Qed.

Lemma holds_one k : (∀ r, k ≠ CRelease r) → client_holds k = 1.
Proof. intros Hk. destruct k; try done. naive_solver. Qed.

(** The client stays on the same side of the release, with the same callback. *)
Lemma client_moves has c c' w k k' ks ks' rs rs' cs ret :
  handle_ok has c (Async (Some c) w k ks rs cs ret) → (∀ r, k ≠ CRelease r) → (∀ r, k' ≠ CRelease r) →
  status c' = status c → exit_code c' = exit_code c → timeout_ms c' = timeout_ms c → ref_count c' = ref_count c →
  script_ok (Async (Some c') w k' ks' rs' cs ret) →
  (k' = CAsleep false → unfinished (status c) = true) →
  (ks' = [Release] → unfinished (status c) = false ∧ head rs' = Some (Code (exit_code c))) →
  callback_ok has c' (Async (Some c') w k' ks' rs' cs ret) →
  async_inv has (Async (Some c') w k' ks' rs' cs ret).
Proof.
  intros [Ht Hwok Href Hwaited Hasleep Hrel _] Hk Hk' Es Ee Et Er Hs Ha Hw Hcb. simpl in *. split; [done| |]; simpl.
  - intros E. destruct (Hw E) as [Hf ->]. exists (exit_code c). split; [|done]. by eapply finished_returned.
  - split; simpl; rewrite ?Et, ?Er, ?Es; [done| | |intros E; by apply Hw|done|by eapply release_idle|done].
    + unfold worker_ok in *. rewrite Es, Ee. exact Hwok.
    + rewrite Href, !holds_one; done.
Qed.

Lemma remaining_pop k ks : remaining (k :: ks) → k ≠ Wait → keeps k = true ∧ remaining ks.
Proof. intros [[-> _]|H]%remaining_cons; [done|]. by intros _. Qed.

(** The rest of the calls sets a callback if they all do, and this is not the one. *)
Lemma sets_tail k ks : (∀ f, k ≠ SetCallback f) → sets_callback (k :: ks) ↔ sets_callback ks.
Proof. intros Hk. unfold sets_callback. split; intros [f Hf]; exists f; [|set_solver]. apply elem_of_cons in Hf as [E|?]; [by destruct (Hk f)|done]. Qed.

Lemma callback_pop has c c' w k k' kk ks rs rs' cs ret :
  callback_ok has c (Async (Some c) w k (kk :: ks) rs cs ret) → callback c' = callback c → callback_invoked c' = callback_invoked c →
  (∀ f, kk ≠ SetCallback f) → ¬ in_callback k → ¬ in_callback k' →
  callback_ok has c' (Async (Some c') w k' ks rs' cs ret) ∧ callback_ok has c' (Async (Some c') w k' (kk :: ks) rs' cs ret).
Proof.
  intros [Hcount Hinv Hclient Hpend Hhas] E1 E2 Hkk Hk Hk'. simpl in *.
  assert (calling w k = calling w k') as Hcall by (unfold calling; by destruct k, k'; simpl in *).
  assert (about_to_invoke w k → about_to_invoke w k') as Habout by (unfold about_to_invoke; by destruct k, k'; simpl in *).
  split; split; simpl; rewrite ?E1, ?E2, <- ?Hcall; try done; try (intros Hc; destruct (Hpend Hc); auto).
  by rewrite <- (sets_tail kk ks).
Qed.

Lemma wait_inv has c w k ks rs cs ret elapsed_ms : handle_ok has c (Async (Some c) w k (Wait :: ks) rs cs ret) →
  k = CIdle ∨ k = CAsleep true → ks = [Release] ∨ remaining ks →
  async_inv has (wait_command elapsed_ms c (Async (Some c) w k (Wait :: ks) rs cs ret)).
Proof.
  intros Hh Hk Hks. pose proof (ho_callback _ _ _ Hh) as Hcb. pose proof (ho_timeout _ _ _ Hh) as Ht.
  assert (∀ r, k ≠ CRelease r) as Hnr by (by destruct Hk as [-> | ->]).
  assert (¬ in_callback k) as Hni by (destruct Hk as [-> | ->]; simpl; tauto).
  unfold wait_command, wait_look. rewrite no_timeout by done. destruct (unfinished (status c)) eqn:Hu.
  - eapply client_moves; [exact Hh|done|done|done..| |done|done|].
    + exists ks. done.
    + apply (callback_pop has c c w k (CAsleep false) Wait ks rs rs cs ret); [done..|by intros []].
  - eapply client_moves; [exact Hh|done|done|done..| |done|done|].
    + by destruct Hks; [left|right].
    + apply (callback_pop has c c w k CIdle Wait ks rs); [done..|by intros []].
Qed.

(** A call that is neither a wait nor about the callback nor the release ends. *)
Lemma reply_inv has c c' w k kk ks r rs cs ret : handle_ok has c (Async (Some c) w k (kk :: ks) rs cs ret) →
  (∀ r, k ≠ CRelease r) → ¬ in_callback k → remaining ks → (∀ f, kk ≠ SetCallback f) →
  c' = c ∨ c' = request_kill c → async_inv has (Async (Some c') w CIdle ks (r :: rs) cs ret).
Proof.
  intros Hh Hk Hn Hks Hkk Hc. pose proof (ho_callback _ _ _ Hh) as Hcb.
  eapply (client_moves has c c' w k CIdle (kk :: ks) ks rs); [exact Hh|done|done|by destruct Hc as [-> | ->]..| | |by intros ?%remaining_not_release|].
  - by right.
  - done.
  - apply (callback_pop has c c' w k CIdle kk ks rs); [done|by destruct Hc as [-> | ->]..|done|done|by intros []].
Qed.

(** When the command has ended its thread holds its reference or is done. *)
Lemma worker_side c w ret k : worker_ok w c ret → unfinished (status c) = false → k ≠ CRelease RelDone →
  match w with
  | WRelease r => ¬ waits_in_release r ∧ (frees r → k = CRelease RelDone) ∧ (r = RelDone → k ≠ CRelease RelDone)
  | _ => True
  end → worker_holds w = 1 ∧ (∀ r, w = WRelease r → r = RelCount) ∨ worker_holds w = 0 ∧ w = WRelease RelDone.
Proof.
  intros Hwok Hu Hk Hrw. destruct w as [| | |z|z|z| |r0]; simpl in Hwok; try (left; split; [done|by intros ? [=]]).
  - by rewrite Hwok in Hu.
  - destruct Hrw as (Hw & Hf & _). destruct r0; simpl in *; try (by destruct Hw); try (by destruct (Hk (Hf I))); [left|by right].
    split; [done|by intros ? [= <-]].
Qed.

(** The steps of the release. *)
Lemma release_inv has c w r rs cs ret elapsed_ms : handle_ok has c (Async (Some c) w (CRelease r) [Release] rs cs ret) →
  (∃ z, ret = Some z ∧ head rs = Some (Code z)) → r ≠ RelDone →
  ∃ r' s', release_step elapsed_ms r (Async (Some c) w (CRelease r) [Release] rs cs ret) = Ret (Some (r', s')) ∧
    async_inv has (at_client (CRelease r') s').
Proof.
  intros Hh Hz Hr. destruct Hh as [Ht Hwok Href Hwaited Hasleep [Hrw Hrc] Hcb]. unfold release_step, live. simpl in *.
  assert (∀ c' w' r' s, callback c' = callback c → callback_invoked c' = callback_invoked c → called s = cs → todo s = [Release] →
    worker s = w' → client s = CRelease r' → w' = w → callback_ok has c' s) as Hsame.
  { intros c' w' r' s E1 E2 E3 E4 Ew Ek ->. eapply callback_same; [exact Hcb|done|done|done| |done| |]; rewrite ?Ew, ?Ek; done. }
  specialize (Hwaited eq_refl). destruct r as [| | |b| |]; simpl; try done.
  - eexists _, _. split; [done|]. split; [done|done|]. simpl.
    assert (wrapS 32 (ref_count c + -1) = worker_holds w) as Href'.
    { pose proof (small_refs w (CRelease RelCount) (-1) ltac:(lia)) as E. simpl in E. rewrite Href, E. lia. }
    split; simpl; [done|by destruct w|rewrite Href'; case_bool_decide; simpl; lia|done|done| |by eapply Hsame].
    destruct (worker_side c w ret (CRelease RelCount) Hwok Hwaited) as [[Hw1 Hw]|[Hw0 ->]]; [done|done| |]; case_bool_decide as Hc; try lia.
    + split; [|split; [by intros []|by intros []]]. destruct w as [| | | | | | |r0]; try done.
      rewrite (Hw r0) by done. split_and!; [by intros []|by intros []|done].
    + split; split_and!; done || by intros [].
  - rewrite Hwaited. eexists _, _. split; [done|]. split; [done|done|]. simpl.
    split; simpl; [done|by destruct w|done|done|done| |by eapply Hsame].
    destruct Hrc as [_ Hw]. rewrite (Hw I). unfold release_ok. simpl. naive_solver.
  - by destruct Hrc as [[] _].
  - by destruct Hrc as [[] _].
  - eexists _, _. split; [done|]. split; [done|done|]. simpl. destruct Hrc as [_ Hw]. rewrite (Hw I) in *.
    split_and!; [done|done|]. eapply (freed_ok has c (Async (Some c) (WRelease RelDone) (CRelease RelDone) [Release] rs cs ret)); [done|done|done|by eapply Hsame].
Qed.

Lemma call_back_live f c w k ks rs cs ret code : callback c = Some f →
  call_back code (Async (Some c) w k ks rs cs ret) = Ret (Async (Some c) w k ks rs ((f, code) :: cs) ret).
Proof. intros Hf. unfold call_back. simpl. by rewrite Hf. Qed.

Lemma good_ret has s : async_inv has s → good has (Ret (Some s)).
Proof. by exists s. Qed.

Section client_steps.
Context (has : bool) (c : ios_command) (w : worker_pc) (ks : list call) (rs : list reply) (cs : list (callback_t * Z))
  (ret : option Z) (answer elapsed_ms : Z).

Abbreviation client_at k ks := (Async (Some c) w k ks rs cs ret).

Lemma begin_release : (∃ r, ret = Some r ∧ head rs = Some (Code r)) → handle_ok has c (client_at CIdle [Release]) →
  async_inv has (client_at (CRelease RelCount) [Release]).
Proof.
  intros Hw Hh.
  split; [done|done|]. simpl. destruct Hh as [Ht Hwok Href Hwaited Hasleep [Hrw Hrc] Hcb]. simpl in *.
  split; simpl; [done|done|done|done|done| |by eapply callback_same].
  split; [|split; by intros []]. destruct w as [| | | | | | |r]; try done. destruct Hrw as (H1 & H2 & H3).
  split_and!; [done|intros Hf; by specialize (H2 Hf)|done].
Qed.

Lemma set_callback_inv f : remaining ks → handle_ok has c (client_at CIdle (SetCallback (Some f) :: ks)) →
  good has (client_step answer elapsed_ms (client_at CIdle (SetCallback (Some f) :: ks))).
Proof.
  intros Hrem Hh. apply good_ret. pose proof (ho_callback _ _ _ Hh) as Hcb.
  pose proof (ho_worker _ _ _ Hh) as Hwok. simpl in Hwok. destruct Hcb as [Hcount Hinv Hclient Hpend Hhas]. simpl in *.
  assert (has = true) as -> by (apply Hhas; right; exists (Some f); by left). clear Hhas.
  rewrite andb_true_r. destruct (negb (unfinished (status c)) && negb (callback_invoked c)) eqn:Hb.
  - eapply client_moves; [exact Hh|done..| |done|by intros [=]|]; [by exists f, ks|]. split; simpl; [done|done|done|by right|].
    split; [done|by left].
  - eapply client_moves; [exact Hh|done..| |done|by intros ?%remaining_not_release|]; [by right|]. split; simpl; [done|done|by intros []| |].
    + intros _. destruct (callback_invoked c); [by left|right]. rewrite andb_true_r in Hb. apply negb_false_iff in Hb.
       unfold about_to_invoke. destruct w; simpl in Hwok; try done; by rewrite (proj1 Hwok) in Hb.
    + split; [done|by left].
Qed.

(** The other calls of a client that has more calls to make. *)
Lemma call_inv kk : remaining (kk :: ks) → handle_ok has c (client_at CIdle (kk :: ks)) →
  good has (client_step answer elapsed_ms (client_at CIdle (kk :: ks))).
Proof.
  intros Hrem Hh. pose proof (ho_callback _ _ _ Hh) as Hcb. destruct kk as [| | | | |f|].
  - apply good_ret, wait_inv; [done|by left|]. apply remaining_cons in Hrem. naive_solver.
  - apply remaining_pop in Hrem as [_ Hrem]; [|done]. apply good_ret. destruct (unfinished (status c)).
    + by eapply reply_inv; [exact Hh|done|intros []|done|done|left].
    + eapply client_moves; [exact Hh|done..| |done|by intros [=]|]; [by exists ks|].
      apply (callback_pop has c c w CIdle CLoad TryWait ks rs rs); [done|done|done|done|by intros []..].
  - apply remaining_pop in Hrem as [_ Hrem]; [|done]. apply good_ret. by eapply reply_inv; [exact Hh|done|intros []|done|done|left].
  - apply remaining_pop in Hrem as [_ Hrem]; [|done]. apply good_ret. unfold kill_command.
    case_bool_decide; by eapply reply_inv; [exact Hh|done|intros []|done|done|auto].
  - apply remaining_pop in Hrem as [_ Hrem]; [|done]. apply good_ret. case_bool_decide.
    + eapply client_moves; [exact Hh|done..| |done|by intros [=]|]; [by exists ks|].
      apply (callback_pop has c c w CIdle CKill KillOnTimeout ks rs rs); [done|done|done|done|by intros []..].
    + by eapply reply_inv; [exact Hh|done|intros []|done|done|left].
  - apply remaining_pop in Hrem as [Hf Hrem]; [|done]. destruct f as [f|]; [|done]. by apply set_callback_inv.
  - inversion Hrem; subst; done.
Qed.

Lemma callback_inv k : match k with CInvokeLoad | CInvoke _ | CCalling _ => True | _ => False end →
  (∃ f ks', ks = SetCallback (Some f) :: ks' ∧ remaining ks') → handle_ok has c (client_at k ks) →
  good has (client_step answer elapsed_ms (client_at k ks)).
Proof.
  intros Hk Hs Hh. pose proof (ho_callback _ _ _ Hh) as Hcb. unfold client_step, live. simpl.
  destruct k as [|b| | | |code|code|r]; try done.
  - destruct Hs as (f & ks' & -> & Hrem). apply good_ret.
    eapply client_moves; [exact Hh|done..| |done|by intros [=]|]; [by exists f, ks'|]. by eapply callback_same.
  - destruct Hs as (f & ks' & -> & Hrem). destruct Hcb as [Hcount Hinv Hclient Hpend Hhas]. simpl in *.
    assert (has = true) as -> by (apply Hhas; right; exists (Some f); by left). clear Hhas. specialize (Hclient I).
    rewrite (bool_decide_eq_true_2 _ Hclient). apply good_ret. unfold calling in Hcount. simpl in *. destruct (callback_invoked c) eqn:Hi.
    + eapply client_moves; [exact Hh|done..| |done|by intros ?%remaining_not_release|]; [by right|].
      split; simpl; rewrite ?Hi; [unfold calling; simpl; lia|done|by intros []|by left|]. split; [done|by left].
    + eapply client_moves; [exact Hh|done..| |done|by intros [=]|]; [by exists f, ks'|].
      split; simpl; [unfold calling; simpl; lia|done|done|by left|]. split; [done|by left].
  - destruct Hs as (f & ks' & -> & Hrem). destruct Hcb as [Hcount Hinv Hclient Hpend Hhas]. simpl in *.
    assert (has = true) as -> by (apply Hhas; right; exists (Some f); by left). clear Hhas. specialize (Hclient I).
    unfold calling in Hcount. simpl in Hcount. destruct (callback_invoked c) eqn:Hi; [|lia].
    destruct (callback c) as [g|] eqn:Hg; [|done]. rewrite (call_back_live g) by done. apply good_ret.
    destruct Hh as [Ht Hwok Href Hwaited Hasleep Hrel _]. simpl in *. split; [by right|by intros ?%remaining_not_release|]. simpl.
    split; simpl; [done|done|done|by intros ?%remaining_not_release|done|by eapply release_idle|].
    split; simpl; rewrite ?Hi, ?Hg; [unfold calling; simpl; lia|done|done|by left|]. split; [done|by left].
Qed.
End client_steps.

Lemma client_inv has s answer elapsed_ms : async_inv has s →
  ∃ o, client_step answer elapsed_ms s = Ret o ∧ (client s ≠ CRelease RelDone → client s ≠ CAsleep false → is_Some o) ∧
    ∀ s', o = Some s' → async_inv has s'.
Proof.
  intros [Hs Hw Hh]. destruct s as [c w k ks rs cs ret]. simpl in *. destruct c as [c|].
  2: { destruct Hh as (-> & -> & _). eexists. by split_and!. }
  assert (k = CRelease RelDone ∨ k = CAsleep false ∨ good has (client_step answer elapsed_ms (Async (Some c) w k ks rs cs ret)))
    as [-> |[-> |(s' & E & H)]]; [|by eexists..|exists (Some s'); split_and!; [exact E|by eexists|by intros ? [= <-]]].
  unfold script_ok in Hs. simpl in Hs. destruct k as [|b| | | |code|code|r]; simpl in Hs.
  - right; right. destruct Hs as [-> |Hrem]; [by apply good_ret, begin_release; [apply Hw|]|].
    destruct ks as [|kk ks]; [inversion Hrem|]. by apply call_inv.
  - destruct Hs as (ks' & -> & Hks). destruct b; [|by right; left]. right; right. by apply good_ret, wait_inv; [|right|].
  - right; right. destruct Hs as (ks' & -> & Hrem). apply good_ret. by eapply reply_inv; [exact Hh|done|intros []|done|done|left].
  - right; right. destruct Hs as (ks' & -> & Hrem). apply good_ret. unfold kill_command.
    case_bool_decide; by eapply reply_inv; [exact Hh|done|intros []|done|done|auto].
  - right; right. by apply callback_inv.
  - right; right. by apply callback_inv.
  - right; right. by apply callback_inv.
  - subst ks. destruct (match r with RelDone => true | _ => false end) eqn:Hr; [left; by destruct r|]. right; right.
    destruct (release_inv has c w r rs cs ret elapsed_ms Hh (Hw eq_refl)) as (r' & s' & E & Hinv); [by intros ->|].
    unfold client_step. simpl client. destruct r; try done; rewrite E; by apply good_ret.
Qed.

Lemma async_exec_inv has e s : async_inv has s → ∃ o, async_exec e s = Ret o ∧ ∀ s', o = Some s' → async_inv has s'.
Proof.
  intros Hi. destruct e as [result elapsed_ms|answer elapsed_ms|]; simpl.
  - destruct (worker_inv has s result elapsed_ms Hi) as (o & ? & _ & ?). eauto.
  - destruct (client_inv has s answer elapsed_ms Hi) as (o & ? & _ & ?). eauto.
  - eexists. split; [done|]. intros s'. destruct s as [c w k ks rs cs ret]; simpl. destruct k as [|b| | | | | |]; try done.
    intros [= <-]. destruct Hi as [Hs Hw Hh]. split; [done|done|]. simpl in *. destruct c as [c|]; [|by destruct Hh as (_ & ? & _)].
    destruct Hh as [Ht Hwok Href Hwaited Hasleep [Hrw _] Hcb]. split; simpl in *; [done|done|done|done|done| |by eapply callback_same].
    split; [|done]. destruct w as [| | | | | | |r]; try done. destruct Hrw as (H1 & H2 & H3).
    split_and!; [done|intros Hf; by specialize (H2 Hf)|done].
Qed.

(** A new handle. *)
Definition new_command (c : ios_command) : Prop :=
  status c = IOS_CMD_PENDING ∧ callback_invoked c = false ∧ ref_count c = 1.

Lemma ios_system_async_new ok1 ok2 ok3 ok4 context options c : ios_system_async ok1 ok2 ok3 ok4 context options = Some c →
  new_command c ∧ callback c = opt_callback (default ios_async_default_options options) ∧
  timeout_ms c = opt_timeout_ms (default ios_async_default_options options).
Proof. unfold ios_system_async. destruct (_ && _); [|done]. by intros [= <-]. Qed.

Lemma async_start_inv (has : bool) c calls : new_command c → timeout_ms c < 0 → remaining calls →
  (callback c ≠ None ∨ sets_callback calls ↔ has = true) → async_inv has (async_start c calls).
Proof.
  intros (Hst & Hinv & Href) Ht Hrem Hhas. split; simpl; [by right|by intros ?%remaining_not_release|].
  split; simpl; [done|done|done|by intros ?%remaining_not_release|done|done|].
  split; simpl; rewrite ?Hinv; try done. by right.
Qed.

(** C20: Without a time-out, for a client that makes any calls which keep the handle
    and its callback, then waits and then releases it, in every interleaving with
    the thread of the command: nothing freed is used and the two are never both
    stuck; a wait that has answered for the last time answered what [ios_system]
    returned; and when both are done the handle is freed, and a callback that was
    given with the command or set by a call was called exactly once. *)
Theorem client_safe ok1 ok2 ok3 ok4 context options c calls s (has : bool) :
  ios_system_async ok1 ok2 ok3 ok4 context options = Some c →
  timeout_ms c < 0 → remaining calls → (callback c ≠ None ∨ sets_callback calls ↔ has = true) →
  reachable async_step (λ s, s = async_start c calls) s →
  (∀ e, ∃ o, async_exec e s = Ret o) ∧
  (worker s = WRelease RelDone ∧ client s = CRelease RelDone ∨ ∃ e s', e ≠ Spurious ∧ async_step e s = Some s') ∧
  (todo s = [Release] → ∃ r, returned s = Some r ∧ head (replies s) = Some (Code r)) ∧
  (worker s = WRelease RelDone ∧ client s = CRelease RelDone → cmd s = None ∧ length (called s) = (if has then 1 else 0)%nat).
Proof.
  intros Hnew%ios_system_async_new Ht Hrem Hhas Hr. destruct Hnew as (Hnew & _).
  assert (async_inv has s) as Hi.
  { eapply (reachable_invariant async_step); [| |exact Hr].
    - intros ? ->. by apply async_start_inv.
    - intros e s1 s2 H1. unfold async_step. destruct (async_exec_inv has e s1 H1) as (o & -> & H2). intros ->. by apply H2. }
  split_and!.
  - intros e. destruct (async_exec_inv has e s Hi) as (o & ? & _). by exists o.
  - destruct (worker_inv has s 0 0 Hi) as (o & E & Hw & _). destruct (client_inv has s 0 0 Hi) as (o' & E' & Hc & _).
    assert (∀ e o, e ≠ Spurious → async_exec e s = Ret o → is_Some o → ∃ e s', e ≠ Spurious ∧ async_step e s = Some s') as Hstep.
    { intros e o1 He E1 [s1 ->]. exists e, s1. unfold async_step. by rewrite E1. }
    destruct (worker s) as [| | |z|z|z| |r] eqn:Ew; try (right; apply (Hstep (Worker 0 0) o ltac:(done) E), Hw; done).
    destruct r; try (right; apply (Hstep (Worker 0 0) o ltac:(done) E), Hw; done).
    destruct (client s) as [|b| | | | | |r'] eqn:Ec; try (right; apply (Hstep (Client 0 0) o' ltac:(done) E'), Hc; done).
    + destruct b; [right; apply (Hstep (Client 0 0) o' ltac:(done) E'), Hc; done|]. exfalso.
      pose proof (ai_handle _ _ Hi) as Hh. destruct (cmd s) as [c'|]; [|by destruct Hh as (_ & ? & _); congruence].
      pose proof (ho_worker _ _ _ Hh) as Hwok. rewrite Ew in Hwok. destruct Hwok as [Hf _].
      by rewrite (ho_asleep _ _ _ Hh Ec) in Hf.
    + destruct r'; try (right; apply (Hstep (Client 0 0) o' ltac:(done) E'), Hc; done). by left.
  - apply Hi.
  - intros [Hw Hc]. pose proof (ai_handle _ _ Hi) as Hh. destruct (cmd s) as [c'|]; [|by destruct Hh as (_ & _ & ?)].
    destruct (ho_release _ _ _ Hh) as [Hrel _]. rewrite Hw in Hrel. by destruct Hrel as (_ & _ & []).
Qed.

(** [ios_system_sync] is such a client. *)
Definition sync_options : ios_async_options_t := Options None (Some 1%positive) (-1).

Lemma client_safe_witness : ∃ c, ios_system_async true true true true None (Some sync_options) = Some c ∧
  ∀ s, reachable async_step (λ s, s = async_start c sync_calls) s →
    (∀ e, ∃ o, async_exec e s = Ret o) ∧ (worker s = WRelease RelDone ∧ client s = CRelease RelDone → cmd s = None ∧ length (called s) = 1%nat).
Proof.
  eexists. split; [reflexivity|]. intros s Hr.
  destruct (client_safe true true true true None (Some sync_options) _ sync_calls s true eq_refl) as (H1 & _ & _ & H2);
    [done|apply rem_wait|by split; [|left]|exact Hr|]. by split.
Defined.

(** ** What goes wrong *)

(** The state after steps, with what became undefined. *)
Fixpoint async_run (es : list async_event) (s : async) : outcome (option async) :=
  match es with
  | [] => Ret (Some s)
  | e :: es => o ← async_exec e s; match o with Some s => async_run es s | None => Ret None end
  end.

Definition started (timeout : Z) (f : option callback_t) (calls : list call) : async :=
  match ios_system_async true true true true None (Some (Options None f timeout)) with
  | Some c => async_start c calls
  | None => Async None WCreated CIdle [] [] [] None
  end.
Definition W : async_event := Worker 0 0.
Definition C : async_event := Client 0 1000.

(** A client releases the handle before the thread has counted itself: it waits
    for the command in the release and frees the handle that the thread is about
    to look at. *)
Theorem release_running : async_run ([C; C; C; C; W; W; W; W; C; C] ++ [W]) (started (-1) None [Release]) = Undef UseAfterFree.
Proof. by vm_compute. Qed.

(** A client releases the handle of a running command: it does not wait. *)
Theorem release_does_not_wait :
  match async_run [W; W; C; C] (started (-1) None [Release]) with
  | Ret (Some s) => client s = CRelease RelDone ∧ status <$> cmd s = Some IOS_CMD_RUNNING
  | _ => False
  end.
Proof. by vm_compute. Qed.

(** [ios_system_timeout] when the thread of the command is slow to start: the
    wait gives up and the handle is freed before the thread looks at it. *)
Theorem timeout_frees_running : async_run ([C; C; C; C; C; C; C] ++ [W]) (started 1000 None timeout_calls) = Undef UseAfterFree.
Proof. by vm_compute. Qed.

(** [ios_system_timeout] of a command that runs: the status is [IOS_CMD_TIMEOUT]
    when it asks for the kill, which answers 0 and requests nothing. *)
Theorem timeout_never_kills :
  match async_run [W; W; C; C; C] (started 1000 None timeout_calls) with
  | Ret (Some s) => worker s = WRunning ∧ head (replies s) = Some (Code 0) ∧ kill_requested <$> cmd s = Some false
  | _ => False
  end.
Proof. by vm_compute. Qed.

(** A client that sleeps is not woken by its time-out: however late it is, it
    takes no step. *)
Theorem timeout_unnoticed (elapsed_ms : Z) :
  match async_run [W; W; Client 0 0] (started 1000 None timeout_calls) with
  | Ret (Some s) => client s = CAsleep false ∧ async_exec (Client 0 elapsed_ms) s = Ret None
  | _ => False
  end.
Proof. by vm_compute. Qed.

(** The thread has seen a callback and given up the mutex; the client takes it
    away, and the thread calls the null pointer. *)
Theorem callback_removed :
  async_run ([W; W; W; W; W; C] ++ [W]) (started (-1) (Some 1%positive) [SetCallback None]) = Undef NullDeref.
Proof. by vm_compute. Qed.
