(* ===== verification/SessionManager.v ===== *)
(** * The table of sessions ([src/ios_session_manager.m])

    A session is found by its identifier (an address) in a hash table of 256
    chains.  It is freed when it has been deleted and the last reference to it
    has been released; a new session with the same identifier may exist by then.
    - [table] is the table with the heap of sessions: reading a freed session is
      undefined.  The operations are the functions of the source, run one at a
      time; [SessionRace] interleaves them.
    - [SessionParams] is what the table asks of [ios_session_init_params] and
      [ios_session_cleanup_params]; [SessionState] has the code.  [Malloc] picks
      addresses.
    - The abstract state [spec] knows which session of an identifier is alive
      and which references are held; a session exists exactly when it is alive
      or referenced.  [calls_refine]: every sequence of calls behaves as the
      specification says and is free of undefined behaviour. *)

From S2P Require Import Prelude.
From stdpp Require Import gmultiset.

(** ** Interfaces *)

(** The parameters of a session hold resources (memory, descriptors) between
    their initialisation and their clean-up. *)
Class SessionParams := {
  params : Type;
  resources : Type;
  init_params : resources → params * resources;
  cleanup_params : params → resources → outcome resources;
  holds : list params → resources → Prop;    (* what is held is held for these parameters *)
  holds_perm ps ps' r : ps ≡ₚ ps' → holds ps r → holds ps' r;
  init_holds ps r : holds ps r → holds ((init_params r).1 :: ps) (init_params r).2;
  cleanup_holds p ps r : holds (p :: ps) r → ∃ r', cleanup_params p r = Ret r' ∧ holds ps r' }.

Definition ptr := nat.

(** [malloc] returns an address that is not in use. *)
Class Malloc := {
  malloc : gset ptr → ptr;
  malloc_fresh used : malloc used ∉ used }.

Definition SESSION_HASH_TABLE_SIZE : Z := 256.

Record entry := Entry { session_id : Z; entry_session : ptr }.
Global Instance entry_eq_dec : EqDecision entry.
Proof. solve_decision. Defined.

(** [ios_session_ref_t]. *)
Record ref := Ref { ref_session : ptr; ref_id : Z }.
Global Instance ref_eq_dec : EqDecision ref.
Proof. solve_decision. Defined.

(** An identifier is a 64-bit address. *)
Definition hash_session_id (session_id : Z) : Z :=
  Z.land (Z.lxor session_id (Z.shiftr session_id 16)) (SESSION_HASH_TABLE_SIZE - 1).

(** ** Operations *)

Section operations.
Context `{Params : SessionParams, Alloc : Malloc}.

Record session := Session {
  ref_count : Z; is_destroying : bool;
  context : option Z;           (* the identifier, NULL before the first use *)
  session_params : params }.

Record table := Table {
  buckets : list (list entry);
  heap : gmap ptr session;
  total_sessions : Z;
  total_refs : Z;
  held : resources }.

Definition set_bucket (i : Z) (b : list entry) (t : table) : table :=
  Table (<[Z.to_nat i := b]> (buckets t)) (heap t) (total_sessions t) (total_refs t) (held t).
Definition set_session (p : ptr) (s : session) (t : table) : table :=
  Table (buckets t) (<[p := s]> (heap t)) (total_sessions t) (total_refs t) (held t).
Definition free_session (p : ptr) (t : table) : table :=
  Table (buckets t) (delete p (heap t)) (total_sessions t) (total_refs t) (held t).
Definition set_held (r : resources) (t : table) : table :=
  Table (buckets t) (heap t) (total_sessions t) (total_refs t) r.
Definition add_sessions (d : Z) (t : table) : table :=
  Table (buckets t) (heap t) (wrapS 32 (total_sessions t + d)) (total_refs t) (held t).
Definition add_refs (d : Z) (t : table) : table :=
  Table (buckets t) (heap t) (total_sessions t) (wrapS 32 (total_refs t + d)) (held t).
Definition set_ref_count (n : Z) (s : session) : session :=
  Session n (is_destroying s) (context s) (session_params s).
Definition set_destroying (s : session) : session :=
  Session (ref_count s) true (context s) (session_params s).

(** [session_table_init]. *)
Definition session_table_init (r : resources) : table :=
  Table (replicate (Z.to_nat SESSION_HASH_TABLE_SIZE) []) ∅ 0 0 r.

Definition deref (p : ptr) (t : table) : outcome session :=
  match heap t !! p with Some s => Ret s | None => Undef UseAfterFree end.

Definition bucket (i : Z) (t : table) : outcome (list entry) :=
  match buckets t !! Z.to_nat i with Some b => Ret b | None => Undef OutOfBounds end.

(** The walk along a chain of [session_table_lookup_locked]. *)
Fixpoint chain_lookup (id : Z) (chain : list entry) : option entry :=
  match chain with
  | [] => None
  | e :: chain => if bool_decide (session_id e = id) then Some e else chain_lookup id chain
  end.

Definition session_table_lookup_locked (id : Z) (t : table) : outcome (option entry) :=
  b ← bucket (hash_session_id id) t; Ret (chain_lookup id b).

(** The walk that removes the first entry with a property, through [entry_ptr]. *)
Fixpoint chain_remove (f : entry → bool) (chain : list entry) : option (entry * list entry) :=
  match chain with
  | [] => None
  | e :: chain =>
      if f e then Some (e, chain)
      else match chain_remove f chain with Some (e', chain') => Some (e', e :: chain') | None => None end
  end.

(** Which of the three allocations of a call succeed. *)
Record memory := Memory { entry_ok : bool; session_ok : bool; reference_ok : bool }.

Definition session_table_insert_locked (m : memory) (id : Z) (t : table) : outcome (table * option entry) :=
  if negb (entry_ok m) then Ret (t, None)
  else if negb (session_ok m) then Ret (t, None)
  else
    let p := malloc (dom (heap t)) in
    let '(sp, r) := init_params (held t) in
    let e := Entry id p in
    b ← bucket (hash_session_id id) t;
    let t := set_session p (Session 0 false None sp) (set_held r t) in
    Ret (add_sessions 1 (set_bucket (hash_session_id id) (e :: b) t), Some e).

(** Both counters and the structure returned to the caller, whose allocation is
    not checked. *)
Definition acquire (m : memory) (id : Z) (e : entry) (t : table) : outcome (table * option ref) :=
  s ← deref (entry_session e) t;
  let t := add_refs 1 (set_session (entry_session e) (set_ref_count (wrapS 32 (ref_count s + 1)) s) t) in
  if reference_ok m then Ret (t, Some (Ref (entry_session e) id)) else Undef NullDeref.

(** An entry to which references may be added. *)
Definition usable (e : option entry) (t : table) : outcome (option entry) :=
  match e with
  | Some e => s ← deref (entry_session e) t; Ret (if is_destroying s then None else Some e)
  | None => Ret None
  end.

Definition ios_session_get_or_create (m : memory) (id : Z) (t : table) : outcome (table * option ref) :=
  (* under the read lock *)
  e ← session_table_lookup_locked id t;
  u ← usable e t;
  match u with
  | Some e => acquire m id e t
  | None =>
      (* again, under the write lock *)
      e ← session_table_lookup_locked id t;
      u ← usable e t;
      match u with
      | Some e => acquire m id e t
      | None =>
          '(t, e) ← session_table_insert_locked m id t;
          match e with Some e => acquire m id e t | None => Ret (t, None) end
      end
  end.

Definition ios_session_get (m : memory) (id : Z) (t : table) : outcome (table * option ref) :=
  e ← session_table_lookup_locked id t;
  u ← usable e t;
  match u with Some e => acquire m id e t | None => Ret (t, None) end.

(** The end of a session that a walk has taken out of its chain. *)
Definition destroy (i : Z) (e : entry) (chain : list entry) (t : table) : outcome table :=
  s ← deref (entry_session e) t;
  r ← cleanup_params (session_params s) (held t);
  Ret (add_sessions (-1) (free_session (entry_session e) (set_held r (set_bucket i chain t)))).

Definition ios_session_release (r : option ref) (t : table) : outcome table :=
  match r with
  | None => Ret t
  | Some r =>
      s ← deref (ref_session r) t;
      let prev_count := ref_count s in
      let t := add_refs (-1) (set_session (ref_session r) (set_ref_count (wrapS 32 (prev_count - 1)) s) t) in
      if bool_decide (0 < prev_count)%Z then
        if bool_decide (prev_count = 1)%Z then
          s ← deref (ref_session r) t;
          if is_destroying s then
            let i := hash_session_id (ref_id r) in
            b ← bucket i t;
            match chain_remove (λ e, bool_decide (entry_session e = ref_session r)) b with
            | Some (e, b) => destroy i e b t
            | None => Ret t
            end
          else Ret t
        else Ret t
      else Undef AssertFailed
  end.

Definition ios_session_delete (id : Z) (t : table) : outcome (table * bool) :=
  e ← session_table_lookup_locked id t;
  match e with
  | None => Ret (t, false)
  | Some e =>
      s ← deref (entry_session e) t;
      let t := set_session (entry_session e) (set_destroying s) t in
      s ← deref (entry_session e) t;
      let has_refs := bool_decide (0 < ref_count s)%Z in
      if has_refs then Ret (t, true)
      else
        b ← bucket (hash_session_id id) t;
        match chain_remove (λ e, bool_decide (session_id e = id)) b with
        | Some (e, b) => t ← destroy (hash_session_id id) e b t; Ret (t, true)
        | None => Ret (t, true)
        end
  end.

Definition ios_session_get_stats (t : table) : Z * Z := (total_sessions t, total_refs t).

(** The sessions of [ios_session_manager_shutdown]: every entry of every chain
    is cleaned up and freed, whatever its references. *)
Fixpoint shutdown_chain (chain : list entry) (t : table) : outcome table :=
  match chain with
  | [] => Ret t
  | e :: chain =>
      s ← deref (entry_session e) t;
      r ← cleanup_params (session_params s) (held t);
      shutdown_chain chain (free_session (entry_session e) (set_held r t))
  end.

Fixpoint shutdown_buckets (i : nat) (bs : list (list entry)) (t : table) : outcome table :=
  match bs with
  | [] => Ret t
  | b :: bs => t ← shutdown_chain b t; shutdown_buckets (S i) bs (set_bucket (Z.of_nat i) [] t)
  end.

Definition shutdown_sessions (t : table) : outcome table :=
  t ← shutdown_buckets 0 (buckets t) t;
  Ret (Table (buckets t) (heap t) 0 0 (held t)).
End operations.

(** The wait of [ios_session_manager_shutdown] for the references, given the
    values the counter has when it is looked at: at most 1000 rounds of 10 ms.
    The result is whether references are left. *)
Fixpoint shutdown_wait (iterations : nat) (refs : nat → Z) : bool :=
  match iterations with
  | 0 => bool_decide (0 < refs 0%nat)%Z
  | S n => if bool_decide (0 < refs 0%nat)%Z then shutdown_wait n (λ k, refs (S k)) else false
  end.
Definition ios_session_manager_shutdown_wait := shutdown_wait 1000.

Lemma hash_bound id : (0 ≤ hash_session_id id < SESSION_HASH_TABLE_SIZE)%Z.
Proof.
  unfold hash_session_id, SESSION_HASH_TABLE_SIZE. change (256 - 1)%Z with (Z.ones 8).
  rewrite Z.land_ones by lia. apply Z.mod_pos_bound. lia.
Qed.

(** ** Specification *)

Global Instance ref_countable : Countable ref.
Proof.
  refine (inj_countable' (λ r, (ref_session r, ref_id r)) (λ '(p, id), Ref p id) _). by intros [].
Defined.

Record spec := Spec {
  live : gmap Z ptr;          (* the session an identifier finds *)
  refs : gmultiset ref }.     (* the references held by callers *)

Definition session_exists (sp : spec) (p : ptr) : Prop :=
  (∃ id, live sp !! id = Some p) ∨ (∃ id, Ref p id ∈ refs sp).

Inductive call : Set :=
  | GetOrCreate (id : Z)
  | Get (id : Z)
  | Release (r : ref)
  | Delete (id : Z).

Inductive result : Set :=
  | RRef (r : option ref)
  | RDone
  | RBool (b : bool).

Inductive spec_step (sp : spec) : call → spec → result → Prop :=
  | spec_found id p : live sp !! id = Some p →
      spec_step sp (GetOrCreate id) (Spec (live sp) ({[+ Ref p id +]} ⊎ refs sp)) (RRef (Some (Ref p id)))
  | spec_created id p : live sp !! id = None → ¬ session_exists sp p →
      spec_step sp (GetOrCreate id) (Spec (<[id := p]> (live sp)) ({[+ Ref p id +]} ⊎ refs sp)) (RRef (Some (Ref p id)))
  | spec_get id p : live sp !! id = Some p →
      spec_step sp (Get id) (Spec (live sp) ({[+ Ref p id +]} ⊎ refs sp)) (RRef (Some (Ref p id)))
  | spec_get_none id : live sp !! id = None → spec_step sp (Get id) sp (RRef None)
  | spec_release r : r ∈ refs sp →
      spec_step sp (Release r) (Spec (live sp) (refs sp ∖ {[+ r +]})) RDone
  | spec_delete id b : (b = true ↔ is_Some (live sp !! id) ∨ ∃ p, Ref p id ∈ refs sp) →
      spec_step sp (Delete id) (Spec (delete id (live sp)) (refs sp)) (RBool b).

Section refinement.
Context `{Params : SessionParams, Alloc : Malloc}.

Definition all_memory : memory := Memory true true true.

(** The calls when no allocation fails. *)
Definition exec (c : call) (t : table) : outcome (table * result) :=
  match c with
  | GetOrCreate id => '(t, r) ← ios_session_get_or_create all_memory id t; Ret (t, RRef r)
  | Get id => '(t, r) ← ios_session_get all_memory id t; Ret (t, RRef r)
  | Release r => t ← ios_session_release (Some r) t; Ret (t, RDone)
  | Delete id => '(t, b) ← ios_session_delete id t; Ret (t, RBool b)
  end.

Definition heap_params (h : gmap ptr session) : list params := session_params <$> (map_to_list h).*2.

(** Entries, heap and specification; the order of the entries does not matter. *)
Record flat_ok (es : list entry) (h : gmap ptr session) (sp : spec) : Prop := {
  fo_nodup : NoDup (entry_session <$> es);
  fo_entry : ∀ e, e ∈ es → ∃ s, h !! entry_session e = Some s ∧
    ref_count s = Z.of_nat (multiplicity (Ref (entry_session e) (session_id e)) (refs sp)) ∧
    is_destroying s = bool_decide (live sp !! session_id e ≠ Some (entry_session e)) ∧
    (is_destroying s = true → (0 < ref_count s)%Z);
  fo_heap : ∀ p, is_Some (h !! p) → ∃ e, e ∈ es ∧ entry_session e = p;
  fo_live : ∀ id p, live sp !! id = Some p → Entry id p ∈ es;
  fo_refs : ∀ r, r ∈ refs sp → Entry (ref_id r) (ref_session r) ∈ es }.

Record refines (t : table) (sp : spec) : Prop := {
  rf_length : length (buckets t) = Z.to_nat SESSION_HASH_TABLE_SIZE;
  rf_hash : ∀ i b e, buckets t !! i = Some b → e ∈ b → Z.to_nat (hash_session_id (session_id e)) = i;
  rf_first : ∀ id p b, live sp !! id = Some p → buckets t !! Z.to_nat (hash_session_id id) = Some b →
    chain_lookup id b = Some (Entry id p);
  rf_flat : flat_ok (concat (buckets t)) (heap t) sp;
  rf_sessions : total_sessions t = Z.of_nat (length (concat (buckets t)));
  rf_refs : total_refs t = Z.of_nat (size (refs sp));
  rf_held : holds (heap_params (heap t)) (held t) }.

(** ** Chains *)

Lemma chain_lookup_Some id b e : chain_lookup id b = Some e → e ∈ b ∧ session_id e = id.
Proof.
  induction b as [|e' b IH]; simpl; [done|]. case_bool_decide; intros; simplify_eq.
  - split; [by left|done].
  - destruct IH; [done|]. split; [by right|done].
Qed.

Lemma chain_lookup_None id b e : chain_lookup id b = None → e ∈ b → session_id e ≠ id.
Proof.
  induction b as [|e' b IH]; simpl; [by intros _ ?%not_elem_of_nil|]. case_bool_decide; [done|].
  intros Hl [->|He]%elem_of_cons; [done|]. by apply IH.
Qed.

Lemma chain_remove_Some f b e b' : chain_remove f b = Some (e, b') → f e = true ∧ b ≡ₚ e :: b' ∧
  ∀ id e', chain_lookup id b = Some e' → e' ≠ e → chain_lookup id b' = Some e'.
Proof.
  revert b'. induction b as [|e' b IH]; intros b' Hr; simplify_eq/=.
  destruct (f e') eqn:Ef; simplify_eq.
  - split_and!; [done..|]. intros id e'. case_bool_decide; [congruence|done].
  - destruct (chain_remove f b) as [[e1 b1]|] eqn:Eb; [|done]. simplify_eq.
    destruct (IH b1 eq_refl) as (Hf & Hp & Hl). split_and!; [done| |].
    + rewrite Hp. constructor.
    + intros id e2. simpl. case_bool_decide; [done|]. by apply Hl.
Qed.

Lemma chain_remove_is_Some f b e : e ∈ b → f e = true → is_Some (chain_remove f b).
Proof.
  induction b as [|e' b IH]; [by intros ?%not_elem_of_nil|]. intros [->|He]%elem_of_cons Hf; simpl.
  - by rewrite Hf.
  - destruct (f e'); [done|]. destruct (IH He Hf) as [[e1 b1] ->]. done.
Qed.

(** By the identifier the walk removes what the look-up finds. *)
Lemma chain_remove_lookup id b : chain_remove (λ e, bool_decide (session_id e = id)) b = 
  (e ← chain_lookup id b; '(_, b') ← chain_remove (λ e, bool_decide (session_id e = id)) b; Some (e, b')).
Proof.
  induction b as [|e b IH]; simpl; [done|]. case_bool_decide; [done|]. rewrite IH at 1.
  destruct (chain_lookup id b); simpl; [|done].
  by destruct (chain_remove _ b) as [[]|].
Qed.

(** One bucket and the rest of the table. *)
Lemma concat_insert (bs : list (list entry)) i b : bs !! i = Some b →
  ∃ rest, concat bs ≡ₚ b ++ rest ∧ ∀ b', concat (<[i := b']> bs) ≡ₚ b' ++ rest.
Proof.
  intros Hi. exists (concat (take i bs) ++ concat (drop (S i) bs)). split.
  - rewrite <- (take_drop_middle bs i b Hi) at 1. rewrite concat_app. simpl. by rewrite Permutation_app_swap_app.
  - intros b'. rewrite insert_take_drop by by eapply lookup_lt_Some.
    rewrite concat_app. simpl. by rewrite Permutation_app_swap_app.
Qed.
(** ** Entries and heap *)

Lemma flat_perm es es' h sp : es ≡ₚ es' → flat_ok es h sp → flat_ok es' h sp.
Proof.
  intros Hp [Hnd He Hh Hl Hr]. assert (∀ e, e ∈ es ↔ e ∈ es') as Hel by (intros; by rewrite Hp).
  split; [by rewrite <- Hp| | | |]; intros; try apply Hel; auto.
  - by apply He, Hel.
  - destruct (Hh p) as (e & ? & ?); [done|]. exists e. by rewrite <- Hel.
Qed.

Lemma flat_unique es h sp e e' : flat_ok es h sp → e ∈ es → e' ∈ es → entry_session e = entry_session e' → e = e'.
Proof.
  intros [Hnd _ _ _ _] He He' Heq. apply list_elem_of_lookup in He as [i Hi]. apply list_elem_of_lookup in He' as [j Hj].
  assert (i = j) as ->; [|by simplify_eq].
  eapply NoDup_lookup; [exact Hnd| |]; rewrite list_lookup_fmap.
  - by rewrite Hi.
  - rewrite Hj. simpl. by rewrite Heq.
Qed.

(** Changing one session: the counter, the mark, and what the specification says
    about them. *)
Lemma flat_update es h sp sp' id p s' : flat_ok es h sp → Entry id p ∈ es →
  (∀ r, r ≠ Ref p id → multiplicity r (refs sp') = multiplicity r (refs sp)) →
  ref_count s' = Z.of_nat (multiplicity (Ref p id) (refs sp')) →
  (∀ q, q ≠ p → ∀ id', live sp' !! id' = Some q ↔ live sp !! id' = Some q) →
  (∀ id', live sp' !! id' = Some p → live sp !! id' = Some p) →
  is_destroying s' = bool_decide (live sp' !! id ≠ Some p) →
  (is_destroying s' = true → (0 < ref_count s')%Z) →
  flat_ok es (<[p := s']> h) sp'.
Proof.
  intros Hf Hin Hm Hc Hl Hl' Hd Hpos. pose proof Hf as [Hnd He Hh Hlive Hr]. split; [done|..].
  - intros e Hine. destruct (decide (entry_session e = p)) as [Hp|Hne].
    + assert (e = Entry id p) as -> by by eapply flat_unique.
      exists s'. by rewrite lookup_insert_eq.
    + destruct (He e Hine) as (s & Hs & Hcnt & Hdest & Hz). exists s. rewrite lookup_insert_ne by done.
      split_and!; [done| | |done].
      * rewrite Hm; [done|]. congruence.
      * rewrite Hdest. apply bool_decide_ext. by rewrite (Hl _ Hne).
  - intros q [s Hs]. destruct (decide (q = p)) as [->|Hne]; [by exists (Entry id p)|].
    rewrite lookup_insert_ne in Hs by done. apply Hh. eauto.
  - intros id' q Hq. destruct (decide (q = p)) as [->|Hne]; [by apply Hlive, Hl'|]. apply Hlive. by apply Hl.
  - intros r Hrin. destruct (decide (r = Ref p id)) as [->|Hne]; [done|]. apply Hr.
    apply elem_of_multiplicity. rewrite <- Hm by done. by apply elem_of_multiplicity.
Qed.

(** A new session. *)
Lemma flat_insert es h sp id p s : flat_ok es h sp → h !! p = None → live sp !! id = None →
  ref_count s = 0%Z → is_destroying s = false →
  flat_ok (Entry id p :: es) (<[p := s]> h) (Spec (<[id := p]> (live sp)) (refs sp)).
Proof.
  intros Hf Hp Hid Hc Hd. pose proof Hf as [Hnd He Hh Hlive Hr].
  assert (∀ e, e ∈ es → entry_session e ≠ p) as Hnew.
  { intros e Hin. destruct (He e Hin) as (s' & Hs' & _). intros <-. congruence. }
  split; simpl.
  - constructor; [|done]. intros (e & -> & Hin)%list_elem_of_fmap. by apply (Hnew e).
  - intros e [->|Hin]%elem_of_cons; simpl.
    + exists s. rewrite !lookup_insert_eq, Hc, Hd. split_and!; [done| | |done].
      * destruct (decide (Ref p id ∈ refs sp)) as [Hx|Hx]; [by destruct (Hnew _ (Hr _ Hx))|].
        by rewrite elem_of_multiplicity in Hx; lia.
      * rewrite bool_decide_eq_false_2; [done|]. tauto.
    + pose proof (Hnew e Hin) as Hne. destruct (He e Hin) as (s' & Hs' & Hcnt & Hdest & Hz). exists s'.
      rewrite lookup_insert_ne by done. split_and!; [done..| |done]. rewrite Hdest. apply bool_decide_ext.
      destruct (decide (session_id e = id)) as [->|Hne']; [|by rewrite lookup_insert_ne].
      rewrite lookup_insert_eq, Hid. split; congruence.
  - intros q [s' Hs']. destruct (decide (q = p)) as [->|Hne]; [exists (Entry id p); split; [by left|done]|].
    rewrite lookup_insert_ne in Hs' by done. destruct (Hh q) as (e & ? & ?); [eauto|]. exists e. split; [by right|done].
  - intros id' q Hq. destruct (decide (id' = id)) as [->|Hne].
    + rewrite lookup_insert_eq in Hq. simplify_eq. by left.
    + rewrite lookup_insert_ne in Hq by done. right. by apply Hlive.
  - intros r Hrin. right. by apply Hr.
Qed.

(** A session that is neither alive nor referenced any more. *)
Lemma flat_delete es h sp sp' id p : flat_ok (Entry id p :: es) h sp →
  (∀ r, r ≠ Ref p id → multiplicity r (refs sp') = multiplicity r (refs sp)) →
  multiplicity (Ref p id) (refs sp') = 0 →
  (∀ q, q ≠ p → ∀ id', live sp' !! id' = Some q ↔ live sp !! id' = Some q) →
  (∀ id', live sp' !! id' ≠ Some p) →
  flat_ok es (delete p h) sp'.
Proof.
  intros Hf Hm Hm0 Hl Hl'. pose proof Hf as [Hnd He Hh Hlive Hr]. simpl in Hnd. apply list.NoDup_cons in Hnd as [Hnin Hnd].
  assert (∀ e, e ∈ es → entry_session e ≠ p) as Hne.
  { intros e Hin <-. apply Hnin. apply list_elem_of_fmap. eauto. }
  split; [done|..].
  - intros e Hin. specialize (Hne e Hin). destruct (He e) as (s & Hs & Hcnt & Hdest & Hz); [by right|].
    exists s. rewrite lookup_delete_ne by done. split_and!; [done| | |done].
    + rewrite Hm; [done|]. congruence.
    + rewrite Hdest. apply bool_decide_ext. by rewrite (Hl _ Hne).
  - intros q [s Hs]. apply lookup_delete_Some in Hs as [Hqp Hs]. destruct (Hh q) as (e & Hin & <-); [by eauto|].
    apply elem_of_cons in Hin as [->|Hin]; [done|]. eauto.
  - intros id' q Hq. assert (q ≠ p) as Hqp by (intros ->; by apply (Hl' id')).
    apply (Hl q Hqp) in Hq. apply Hlive in Hq. apply elem_of_cons in Hq as [?|?]; [congruence|done].
  - intros r Hrin. assert (r ≠ Ref p id) as Hrne.
    { intros ->. rewrite elem_of_multiplicity, Hm0 in Hrin. lia. }
    assert (r ∈ refs sp) as Hrin'. { apply elem_of_multiplicity. rewrite <- Hm by done.
      by apply elem_of_multiplicity. }
    apply Hr in Hrin' as [Heq|?]%elem_of_cons; [|done]. simplify_eq. by destruct r.
Qed.

(** A session exists exactly when it is alive or referenced. *)
Lemma flat_exists es h sp p : flat_ok es h sp → is_Some (h !! p) ↔ session_exists sp p.
Proof.
  intros [Hnd He Hh Hlive Hr]. split.
  - intros Hp. destruct (Hh p Hp) as ([id q] & Hin & Heq). simpl in Heq. subst q.
    destruct (He _ Hin) as (s & Hs & Hcnt & Hdest & Hz). simpl in *.
    destruct (decide (live sp !! id = Some p)) as [Hl|Hl]; [left; eauto|]. right. exists id.
    rewrite bool_decide_eq_true_2 in Hdest by done. specialize (Hz Hdest).
    apply elem_of_multiplicity. lia.
  - intros [[id Hl]|[id Hin]].
    + destruct (He _ (Hlive _ _ Hl)) as (s & Hs & _). by exists s.
    + destruct (He _ (Hr _ Hin)) as (s & Hs & _). by exists s.
Qed.

(** ** Parameters of the sessions *)

Lemma heap_params_insert h p s : h !! p = None → heap_params (<[p := s]> h) ≡ₚ session_params s :: heap_params h.
Proof. intros Hp. unfold heap_params. by rewrite map_to_list_insert. Qed.

Lemma heap_params_delete h p s : h !! p = Some s → heap_params h ≡ₚ session_params s :: heap_params (delete p h).
Proof.
  intros Hp. rewrite <- heap_params_insert by apply lookup_delete_eq. by rewrite insert_delete_eq, insert_id.
Qed.

Lemma heap_params_update h p s s' : h !! p = Some s → session_params s' = session_params s →
  heap_params (<[p := s']> h) ≡ₚ heap_params h.
Proof.
  intros Hp Hs. rewrite <- insert_delete_eq. rewrite heap_params_insert by apply lookup_delete_eq.
  rewrite Hs. symmetry. by apply heap_params_delete.
Qed.
(** ** Operations keep the refinement *)

Lemma elem_of_concat (bs : list (list entry)) e : e ∈ concat bs ↔ ∃ b, e ∈ b ∧ b ∈ bs.
Proof.
  induction bs as [|b bs IH]; simpl.
  - split; [by intros ?%not_elem_of_nil|]. by intros (b & _ & ?%not_elem_of_nil).
  - rewrite elem_of_app, IH. setoid_rewrite elem_of_cons. naive_solver.
Qed.

Lemma multiplicity_size (r : ref) (X : gmultiset ref) : multiplicity r X ≤ size X.
Proof.
  etrans; [|apply (gmultiset_subseteq_size (multiplicity r X *: {[+ r +]}))].
  - rewrite gmultiset_size_scalar_mul, gmultiset_size_singleton. lia.
  - intros r'. rewrite multiplicity_scalar_mul, multiplicity_singleton. case_decide; subst; lia.
Qed.

Lemma session_bucket t sp id : refines t sp →
  ∃ b, buckets t !! Z.to_nat (hash_session_id id) = Some b ∧ bucket (hash_session_id id) t = Ret b.
Proof.
  intros Hr. pose proof (hash_bound id). pose proof (rf_length t sp Hr).
  destruct (lookup_lt_is_Some_2 (buckets t) (Z.to_nat (hash_session_id id))) as [b Hb]; [lia|].
  exists b. split; [done|]. unfold bucket. by rewrite Hb.
Qed.

Lemma bucket_entries t i b e : buckets t !! i = Some b → e ∈ b → e ∈ concat (buckets t).
Proof.
  intros Hb He. apply elem_of_concat. exists b. split; [done|]. by eapply list_elem_of_lookup_2.
Qed.

(** All entries of an identifier are in its bucket. *)
Lemma entry_bucket t sp id b e : refines t sp → buckets t !! Z.to_nat (hash_session_id id) = Some b →
  e ∈ concat (buckets t) → session_id e = id → e ∈ b.
Proof.
  intros Hr Hb (b' & He & Hb')%elem_of_concat Hid. apply list_elem_of_lookup in Hb' as [i Hi].
  pose proof (rf_hash t sp Hr i b' e Hi He) as Hh. subst. by simplify_eq.
Qed.

Lemma lookup_usable t sp id : refines t sp →
  (e ← session_table_lookup_locked id t; usable e t) = Ret (Entry id <$> live sp !! id).
Proof.
  intros Hr. destruct (session_bucket t sp id Hr) as (b & Hb & Hbk). unfold session_table_lookup_locked. rewrite Hbk.
  cbn [mbind outcome_bind]. destruct (live sp !! id) as [p|] eqn:El.
  - rewrite (rf_first t sp Hr id p b El Hb). simpl. unfold deref.
    destruct (fo_entry _ _ _ (rf_flat t sp Hr) _ (fo_live _ _ _ (rf_flat t sp Hr) _ _ El)) as (s & Hs & _ & Hd & _).
    simpl in *. rewrite Hs. cbn [mbind outcome_bind]. rewrite Hd, bool_decide_eq_false_2; [done|tauto].
  - destruct (chain_lookup id b) as [e|] eqn:Ee; [|done]. simpl.
    apply chain_lookup_Some in Ee as [Hin Hid]. subst id.
    destruct (fo_entry _ _ _ (rf_flat t sp Hr) e) as (s & Hs & _ & Hd & _); [by eapply bucket_entries|].
    unfold deref. rewrite Hs. cbn [mbind outcome_bind]. rewrite Hd, El. done.
Qed.

(** Changing a session without its parameters, and the count of references. *)
Lemma refines_update t sp sp' id p s s' n : refines t sp → Entry id p ∈ concat (buckets t) → heap t !! p = Some s →
  session_params s' = session_params s → flat_ok (concat (buckets t)) (<[p := s']> (heap t)) sp' →
  (∀ id p, live sp' !! id = Some p → live sp !! id = Some p) → n = Z.of_nat (size (refs sp')) →
  refines (Table (buckets t) (<[p := s']> (heap t)) (total_sessions t) n (held t)) sp'.
Proof.
  intros Hr Hin Hs Hp Hf Hl Hn. destruct Hr. split; simpl; eauto.
  eapply holds_perm; [|done]. symmetry. by eapply heap_params_update.
Qed.

Lemma acquire_refines t sp id p : refines t sp → live sp !! id = Some p → (Z.of_nat (size (refs sp)) < INT_MAX)%Z →
  ∃ t', acquire all_memory id (Entry id p) t = Ret (t', Some (Ref p id)) ∧
    refines t' (Spec (live sp) ({[+ Ref p id +]} ⊎ refs sp)).
Proof.
  intros Hr Hl Hb. pose proof (rf_flat t sp Hr) as Hf. pose proof (fo_live _ _ _ Hf _ _ Hl) as Hin.
  destruct (fo_entry _ _ _ Hf _ Hin) as (s & Hs & Hc & Hd & _). simpl in *.
  unfold acquire, deref. simpl. rewrite Hs. cbn [mbind outcome_bind]. eexists. split; [done|].
  assert (multiplicity (Ref p id) (refs sp) ≤ size (refs sp)) as Hle.
  { apply multiplicity_size. }
  rewrite Hc, wrapS_small by range_solve. unfold add_refs. simpl. rewrite (rf_refs t sp Hr), wrapS_small by range_solve.
  apply (refines_update t sp _ id p s); try done.
  - apply (flat_update _ _ sp _ id p); simpl; try done.
    + intros r Hne. rewrite multiplicity_disj_union, multiplicity_singleton_ne by done. done.
    + rewrite multiplicity_disj_union, multiplicity_singleton_eq. lia.
    + rewrite Hd, bool_decide_eq_false_2; [done|tauto].
  - simpl. rewrite gmultiset_size_disj_union, gmultiset_size_singleton. lia.
Qed.
Lemma insert_refines t sp id : refines t sp → live sp !! id = None → (total_sessions t < INT_MAX)%Z →
  ∃ t' p, session_table_insert_locked all_memory id t = Ret (t', Some (Entry id p)) ∧ heap t !! p = None ∧
    refines t' (Spec (<[id := p]> (live sp)) (refs sp)).
Proof.
  intros Hr Hl Hb. destruct (session_bucket t sp id Hr) as (b & Hbi & Hbk).
  unfold session_table_insert_locked. cbn [all_memory entry_ok session_ok negb].
  pose proof (init_holds _ _ (rf_held t sp Hr)) as Hhold. destruct (init_params (held t)) as [par r] eqn:Ei.
  rewrite Hbk. cbn [mbind outcome_bind]. eexists _, _. split; [done|].
  assert (heap t !! malloc (dom (heap t)) = None) as Hp.
  { apply not_elem_of_dom. apply malloc_fresh. }
  split; [done|]. revert Hp. generalize (malloc (dom (heap t))). intros p Hp.
  destruct (concat_insert _ _ _ Hbi) as (rest & Hc & Hc').
  assert (concat (<[Z.to_nat (hash_session_id id) := Entry id p :: b]> (buckets t)) ≡ₚ Entry id p :: concat (buckets t)) as Hperm.
  { by rewrite Hc', Hc. }
  destruct Hr as [Hlen Hhash Hfirst Hflat Hsess Hrefs Hheld]. split; simpl.
  - by rewrite length_insert.
  - intros k c e Hk He. revert k c Hk e He. apply (insert_forall _ _ _ (λ i b, ∀ e, e ∈ b → Z.to_nat (hash_session_id (session_id e)) = i)).
    + intros e [->|He]%elem_of_cons; [done|]. by eapply Hhash.
    + intros j y _ Hy e He. by eapply Hhash.
  - intros id' q b' Hq Hb'. destruct (decide (id' = id)) as [->|Hne].
    + rewrite lookup_insert_eq in Hq. simplify_eq.
      rewrite list_lookup_insert_eq in Hb' by by eapply lookup_lt_Some. simplify_eq/=. by rewrite bool_decide_eq_true_2.
    + rewrite lookup_insert_ne in Hq by done. apply list_lookup_insert_Some in Hb' as [(Hh & <- & _)|[Hh Hb']].
      * simpl. rewrite bool_decide_eq_false_2 by done. apply Hfirst; [done|]. by rewrite <- Hh.
      * by apply Hfirst.
  - eapply flat_perm; [by symmetry|]. by apply flat_insert.
  - rewrite Hperm. simpl. rewrite Hsess in *. rewrite wrapS_small by range_solve. lia.
  - done.
  - eapply holds_perm; [|exact Hhold]. simpl. symmetry. by apply heap_params_insert.
Qed.

(** Taking a session out of the table and freeing it, after its counter and its
    mark have been changed. *)
Lemma destroy_refines t sp sp' id p f b b' s s' n : refines t sp →
  buckets t !! Z.to_nat (hash_session_id id) = Some b → chain_remove f b = Some (Entry id p, b') →
  heap t !! p = Some s → session_params s' = session_params s →
  (∀ r, r ≠ Ref p id → multiplicity r (refs sp') = multiplicity r (refs sp)) →
  multiplicity (Ref p id) (refs sp') = 0 →
  (∀ q, q ≠ p → ∀ id', live sp' !! id' = Some q ↔ live sp !! id' = Some q) →
  (∀ id', live sp' !! id' ≠ Some p) → n = Z.of_nat (size (refs sp')) → (total_sessions t ≤ INT_MAX)%Z →
  ∃ t', destroy (hash_session_id id) (Entry id p) b'
      (Table (buckets t) (<[p := s']> (heap t)) (total_sessions t) n (held t)) = Ret t' ∧ refines t' sp'.
Proof.
  intros Hr Hb Hrem Hs Hpar Hm Hm0 Hl Hl' Hn Hmax. apply chain_remove_Some in Hrem as (_ & Hperm & Hlook).
  destruct Hr as [Hlen Hhash Hfirst Hflat Hsess Hrefs Hheld].
  destruct (cleanup_holds (session_params s) (heap_params (delete p (heap t))) (held t)) as (r & Hclean & Hheld').
  { eapply holds_perm; [|exact Hheld]. by apply heap_params_delete. }
  unfold destroy, deref. simpl. rewrite lookup_insert_eq. cbn [mbind outcome_bind]. rewrite Hpar, Hclean.
  cbn [mbind outcome_bind]. eexists. split; [done|].
  destruct (concat_insert _ _ _ Hb) as (rest & Hc & Hc'). specialize (Hc' b').
  assert (concat (buckets t) ≡ₚ Entry id p :: concat (<[Z.to_nat (hash_session_id id) := b']> (buckets t))) as Hall.
  { by rewrite Hc, Hc', Hperm. }
  split; simpl.
  - by rewrite length_insert.
  - intros k c e Hk He. revert k c Hk e He. apply (insert_forall _ _ _ (λ i b, ∀ e, e ∈ b → Z.to_nat (hash_session_id (session_id e)) = i)).
    + intros e He. eapply Hhash; [done|]. rewrite Hperm. by right.
    + intros j y _ Hy e He. by eapply Hhash.
  - intros id' q c Hq Hc0. assert (q ≠ p) as Hqp by (intros ->; by apply (Hl' id')).
    apply Hl in Hq; [|done]. apply list_lookup_insert_Some in Hc0 as [(Hh & <- & _)|[Hh Hc0]].
    + apply Hlook; [apply Hfirst; [done|by rewrite <- Hh]|congruence].
    + by apply Hfirst.
  - rewrite delete_insert_eq. eapply flat_delete; [by eapply flat_perm|done..].
  - rewrite Hsess in *. rewrite Hall in *. simpl in *. rewrite wrapS_small by range_solve. lia.
  - done.
  - by rewrite delete_insert_eq.
Qed.
Lemma release_refines t sp r : refines t sp → r ∈ refs sp → (Z.of_nat (size (refs sp)) ≤ INT_MAX)%Z →
  (total_sessions t ≤ INT_MAX)%Z →
  ∃ t', ios_session_release (Some r) t = Ret t' ∧ refines t' (Spec (live sp) (refs sp ∖ {[+ r +]})).
Proof.
  intros Hr Hin Hmax Hmax'. pose proof (rf_flat t sp Hr) as Hf. destruct r as [p id].
  pose proof (fo_refs _ _ _ Hf _ Hin) as He. simpl in He.
  destruct (fo_entry _ _ _ Hf _ He) as (s & Hs & Hc & Hd & _). simpl in *.
  pose proof (multiplicity_size (Ref p id) (refs sp)) as Hle.
  assert (0 < multiplicity (Ref p id) (refs sp)) as Hpos by by apply elem_of_multiplicity.
  assert (∀ r, r ≠ Ref p id → multiplicity r (refs sp ∖ {[+ Ref p id +]}) = multiplicity r (refs sp)) as Hm.
  { intros r Hne. rewrite multiplicity_difference, multiplicity_singleton_ne by done. lia. }
  assert (multiplicity (Ref p id) (refs sp ∖ {[+ Ref p id +]}) = multiplicity (Ref p id) (refs sp) - 1) as Hm1.
  { by rewrite multiplicity_difference, multiplicity_singleton_eq. }
  assert (size (refs sp ∖ {[+ Ref p id +]}) = size (refs sp) - 1) as Hsz.
  { rewrite gmultiset_size_difference by by apply gmultiset_singleton_subseteq_l.
    by rewrite gmultiset_size_singleton. }
  unfold ios_session_release, deref. simpl. rewrite Hs. cbn [mbind outcome_bind].
  rewrite (bool_decide_eq_true_2 (0 < ref_count s)%Z) by (rewrite Hc; lia).
  unfold add_refs. simpl. rewrite (rf_refs t sp Hr), (wrapS_small 32 (Z.of_nat _ + -1)) by range_solve.
  rewrite lookup_insert_eq. cbn [mbind outcome_bind].
  rewrite (wrapS_small 32 (ref_count s - 1)) by range_solve.
  assert ((is_destroying s = true → (1 < ref_count s)%Z) →
    refines (Table (buckets t) (<[p := set_ref_count (ref_count s - 1) s]> (heap t)) (total_sessions t)
      (Z.of_nat (size (refs sp)) + -1) (held t)) (Spec (live sp) (refs sp ∖ {[+ Ref p id +]}))) as Hkeep.
  { intros Hcond. apply (refines_update t sp _ id p s); try done; [|simpl; lia].
    apply (flat_update _ _ sp _ id p); simpl; try done; [lia|]. intros Hdest. specialize (Hcond Hdest). lia. }
  destruct (decide (ref_count s = 1%Z)) as [Hone|Hone];
    [rewrite (bool_decide_eq_true_2 (ref_count s = 1%Z)) by done
    |rewrite (bool_decide_eq_false_2 (ref_count s = 1%Z)) by done; eexists; split; [done|]; apply Hkeep; intros _; lia].
  destruct (is_destroying s) eqn:Ed; simpl; rewrite Ed; [|eexists; split; [done|]; by apply Hkeep].
  destruct (session_bucket t sp id Hr) as (b & Hb & _). unfold bucket. simpl. rewrite Hb. cbn [mbind outcome_bind].
  pose proof (entry_bucket t sp id b _ Hr Hb He eq_refl) as Heb.
  destruct (chain_remove_is_Some (λ e, bool_decide (entry_session e = p)) b _ Heb) as [[e b'] Hrem].
  { simpl. by apply bool_decide_eq_true_2. }
  rewrite Hrem. assert (e = Entry id p) as ->.
  { apply chain_remove_Some in Hrem as (Hfe%bool_decide_eq_true & Hperm & _).
    eapply flat_unique; [exact Hf| |exact He|done]. eapply bucket_entries; [done|]. rewrite Hperm. by left. }
  eapply destroy_refines; try done; simpl.
  - lia.
  - intros id' Hl. symmetry in Hd. apply bool_decide_eq_true in Hd. apply Hd.
    pose proof (fo_live _ _ _ Hf _ _ Hl) as He'.
    pose proof (flat_unique _ _ _ _ _ Hf He He' eq_refl) as Heq. by simplify_eq.
  - lia.
Qed.

Lemma delete_refines t sp id : refines t sp → (total_sessions t ≤ INT_MAX)%Z →
  ∃ t' b, ios_session_delete id t = Ret (t', b) ∧ refines t' (Spec (delete id (live sp)) (refs sp)) ∧
    (b = true ↔ is_Some (live sp !! id) ∨ ∃ p, Ref p id ∈ refs sp).
Proof.
  intros Hr Hmax. pose proof (rf_flat t sp Hr) as Hf. destruct (session_bucket t sp id Hr) as (b & Hb & Hbk).
  unfold ios_session_delete, session_table_lookup_locked. rewrite Hbk. cbn [mbind outcome_bind].
  destruct (chain_lookup id b) as [e|] eqn:El.
  - pose proof (chain_lookup_Some _ _ _ El) as [Heb Hid]. destruct e as [id' p]. simpl in Hid. subst id'.
    pose proof (bucket_entries _ _ _ _ Hb Heb) as He.
    destruct (fo_entry _ _ _ Hf _ He) as (s & Hs & Hc & Hd & Hpos). simpl in *.
    assert (is_Some (live sp !! id) ∨ ∃ p, Ref p id ∈ refs sp) as Hex.
    { destruct (decide (live sp !! id = Some p)) as [Hl|Hl]; [left; eauto|right]. exists p.
      apply elem_of_multiplicity. rewrite bool_decide_eq_true_2 in Hd by done. specialize (Hpos Hd). lia. }
    assert (∀ q, q ≠ p → ∀ id', delete id (live sp) !! id' = Some q ↔ live sp !! id' = Some q) as Hl.
    { intros q Hq id'. rewrite lookup_delete_Some. split; [tauto|]. intros Hl. split; [|done]. intros <-.
      pose proof (rf_first t sp Hr _ _ _ Hl Hb). congruence. }
    assert (∀ id', delete id (live sp) !! id' ≠ Some p) as Hl'.
    { intros id' [Hne Hl0]%lookup_delete_Some. pose proof (fo_live _ _ _ Hf _ _ Hl0) as He'.
      pose proof (flat_unique _ _ _ _ _ Hf He He' eq_refl) as Heq. by simplify_eq. }
    unfold deref. simpl. rewrite Hs. cbn [mbind outcome_bind]. simpl. rewrite lookup_insert_eq.
    cbn [mbind outcome_bind]. simpl.
    destruct (decide (0 < ref_count s)%Z) as [Hrc|Hrc];
      [rewrite (bool_decide_eq_true_2 (0 < ref_count s)%Z) by done
      |rewrite (bool_decide_eq_false_2 (0 < ref_count s)%Z) by done].
    + eexists _, true. split; [done|]. split; [|done]. apply (refines_update t sp _ id p s); try done.
      * apply (flat_update _ _ sp _ id p); simpl; try done; [intros id'; by intros ?%Hl'|].
        symmetry. by apply bool_decide_eq_true_2.
      * intros id' q. simpl. intros [_ ?]%lookup_delete_Some. done.
      * by rewrite (rf_refs t sp Hr).
    + unfold bucket. simpl. rewrite Hb. cbn [mbind outcome_bind]. rewrite chain_remove_lookup, El. simpl.
      destruct (chain_remove_is_Some (λ e, bool_decide (session_id e = id)) b _ Heb) as [[e b'] Hrem].
      { simpl. by apply bool_decide_eq_true_2. }
      pose proof Hrem as Hrem'. rewrite chain_remove_lookup, El in Hrem'. simpl in Hrem'. rewrite Hrem in *.
      simplify_eq/=.
      edestruct (destroy_refines t sp (Spec (delete id (live sp)) (refs sp)) id p
        (λ e, bool_decide (session_id e = id)) b b' s (set_destroying s) (total_refs t))
        as (t' & Ht' & Href); try done; simpl.
      * rewrite Hc in Hrc. lia.
      * by rewrite (rf_refs t sp Hr).
      * unfold set_session. simpl. rewrite Ht'. cbn [mbind outcome_bind]. by eexists _, true.
  - assert (live sp !! id = None) as Hl.
    { destruct (live sp !! id) as [p|] eqn:Hl; [|done]. pose proof (rf_first t sp Hr _ _ _ Hl Hb). congruence. }
    eexists t, false. split; [done|]. split.
    + rewrite delete_id by done. by destruct sp.
    + split; [done|]. intros [[p Hp]|[p Hp]]; [congruence|].
      pose proof (fo_refs _ _ _ Hf _ Hp) as He. pose proof (entry_bucket t sp id b _ Hr Hb He eq_refl) as Heb.
      by pose proof (chain_lookup_None _ _ _ El Heb).
Qed.
(** ** Calls *)

(** The counters are [int]s. *)
Definition counters_fit (t : table) : Prop := (total_sessions t < INT_MAX)%Z ∧ (total_refs t < INT_MAX)%Z.

Lemma get_or_create_refines t sp id : refines t sp → counters_fit t →
  ∃ t' p sp', ios_session_get_or_create all_memory id t = Ret (t', Some (Ref p id)) ∧
    spec_step sp (GetOrCreate id) sp' (RRef (Some (Ref p id))) ∧ refines t' sp'.
Proof.
  intros Hr [Hs Hc]. rewrite (rf_refs t sp Hr) in Hc. pose proof (lookup_usable t sp id Hr) as Hu.
  apply outcome_bind_Ret in Hu as (e & He & Hu). unfold ios_session_get_or_create.
  rewrite He. cbn [mbind outcome_bind]. rewrite Hu. cbn [mbind outcome_bind].
  destruct (live sp !! id) as [p|] eqn:El; simpl.
  - destruct (acquire_refines t sp id p Hr El Hc) as (t' & -> & Hr'). eexists _, _, _. split; [done|].
    split; [by apply spec_found|done].
  - cbn [mbind outcome_bind fmap option_fmap option_map].
    destruct (insert_refines t sp id Hr El Hs) as (t1 & p & -> & Hp & Hr1). cbn [mbind outcome_bind].
    destruct (acquire_refines t1 _ id p Hr1) as (t' & -> & Hr'); [apply lookup_insert_eq|done|].
    simpl in Hr'. eexists _, _, _. split; [done|]. split; [|exact Hr']. apply spec_created; [done|].
    rewrite <- (flat_exists _ _ _ p (rf_flat t sp Hr)), Hp. by intros [].
Qed.

Lemma get_refines t sp id : refines t sp → counters_fit t →
  ∃ t' r sp', ios_session_get all_memory id t = Ret (t', r) ∧ spec_step sp (Get id) sp' (RRef r) ∧ refines t' sp'.
Proof.
  intros Hr [_ Hc]. rewrite (rf_refs t sp Hr) in Hc. pose proof (lookup_usable t sp id Hr) as Hu.
  apply outcome_bind_Ret in Hu as (e & He & Hu). unfold ios_session_get. rewrite He. cbn [mbind outcome_bind].
  rewrite Hu. cbn [mbind outcome_bind]. destruct (live sp !! id) as [p|] eqn:El; simpl.
  - destruct (acquire_refines t sp id p Hr El Hc) as (t' & -> & Hr'). eexists _, _, _. split; [done|].
    split; [by apply spec_get|done].
  - eexists _, _, _. split; [done|]. split; [by apply spec_get_none|done].
Qed.

(** References that callers hold may be released. *)
Definition call_ok (c : call) (h : gmultiset ref) : Prop :=
  match c with Release r => r ∈ h | _ => True end.

Lemma call_refines t sp c : refines t sp → call_ok c (refs sp) → counters_fit t →
  ∃ t' res sp', exec c t = Ret (t', res) ∧ spec_step sp c sp' res ∧ refines t' sp'.
Proof.
  intros Hr Hok Hfit. destruct c as [id|id|r|id]; unfold exec.
  - destruct (get_or_create_refines t sp id Hr Hfit) as (t' & p & sp' & -> & ? & ?). cbn [mbind outcome_bind]. eauto 6.
  - destruct (get_refines t sp id Hr Hfit) as (t' & r & sp' & -> & ? & ?). cbn [mbind outcome_bind]. eauto 6.
  - destruct Hfit as [Hs Hc]. pose proof Hc as Hc'. rewrite (rf_refs t sp Hr) in Hc'.
    destruct (release_refines t sp r Hr Hok) as (t' & -> & Hr'); [lia..|]. cbn [mbind outcome_bind].
    eexists _, _, _. split; [done|]. split; [by apply spec_release|done].
  - destruct Hfit as [Hs _]. destruct (delete_refines t sp id Hr) as (t' & b & -> & Hr' & Hb); [lia|].
    cbn [mbind outcome_bind]. eexists _, _, _. split; [done|]. split; [by apply spec_delete|done].
Qed.

Fixpoint exec_all (cs : list call) (t : table) : outcome (table * list result) :=
  match cs with
  | [] => Ret (t, [])
  | c :: cs => '(t, res) ← exec c t; '(t, rs) ← exec_all cs t; Ret (t, res :: rs)
  end.

(** The references held after a call. *)
Definition held_after (c : call) (res : result) (h : gmultiset ref) : gmultiset ref :=
  match c, res with
  | Release r, _ => h ∖ {[+ r +]}
  | _, RRef (Some r) => {[+ r +]} ⊎ h
  | _, _ => h
  end.

(** Callers release only what they hold, and the counters do not overflow. *)
Fixpoint permitted (cs : list call) (t : table) (h : gmultiset ref) : Prop :=
  match cs with
  | [] => True
  | c :: cs =>
      call_ok c h ∧ counters_fit t ∧
      match exec c t with Ret (t, res) => permitted cs t (held_after c res h) | Undef _ => True end
  end.

Lemma spec_held sp c sp' res : spec_step sp c sp' res → refs sp' = held_after c res (refs sp).
Proof. by destruct 1. Qed.
End refinement.

Inductive spec_run (sp : spec) : list call → spec → list result → Prop :=
  | spec_run_nil : spec_run sp [] sp []
  | spec_run_cons c cs sp1 sp2 res rs :
      spec_step sp c sp1 res → spec_run sp1 cs sp2 rs → spec_run sp (c :: cs) sp2 (res :: rs).

Section theorems.
Context `{Params : SessionParams, Alloc : Malloc}.

Lemma init_refines r : holds [] r → refines (session_table_init r) (Spec ∅ ∅).
Proof.
  intros Hr. assert (concat (replicate (Z.to_nat SESSION_HASH_TABLE_SIZE) ([] : list entry)) = []) as Hc by done.
  split; unfold session_table_init; cbn [buckets heap total_sessions total_refs held live refs].
  - by rewrite length_replicate.
  - intros i b e [-> _]%lookup_replicate ?%not_elem_of_nil. done.
  - intros id p b Hl. by rewrite lookup_empty in Hl.
  - rewrite Hc. split; simpl.
    + constructor.
    + by intros e ?%not_elem_of_nil.
    + intros p. rewrite lookup_empty. by intros [].
    + intros id p Hl. by rewrite lookup_empty in Hl.
    + intros q Hq. by apply gmultiset_not_elem_of_empty in Hq.
  - by rewrite Hc.
  - done.
  - done.
Qed.

Lemma exec_all_refines cs t sp : refines t sp → permitted cs t (refs sp) →
  ∃ t' rs sp', exec_all cs t = Ret (t', rs) ∧ spec_run sp cs sp' rs ∧ refines t' sp'.
Proof.
  revert t sp. induction cs as [|c cs IH]; intros t sp Hr Hp; simpl.
  - eexists _, _, _. split; [done|]. split; [constructor|done].
  - simpl in Hp. destruct Hp as (Hok & Hfit & Hrest).
    destruct (call_refines t sp c Hr Hok Hfit) as (t1 & res & sp1 & He & Hs & Hr1).
    rewrite He in *. cbn [mbind outcome_bind]. rewrite <- (spec_held _ _ _ _ Hs) in Hrest.
    destruct (IH t1 sp1 Hr1 Hrest) as (t2 & rs & sp2 & -> & Hs2 & Hr2). cbn [mbind outcome_bind].
    eexists _, _, _. split; [done|]. split; [by econstructor|done].
Qed.

Lemma sessions_counted t sp : refines t sp → total_sessions t = Z.of_nat (size (dom (heap t))).
Proof.
  intros Hr. rewrite (rf_sessions t sp Hr). f_equal.
  pose proof (rf_flat t sp Hr) as Hf. pose proof (fo_nodup _ _ _ Hf) as Hnd.
  assert (dom (heap t) = list_to_set (entry_session <$> concat (buckets t))) as ->.
  { apply set_eq. intros p. rewrite elem_of_dom, elem_of_list_to_set, list_elem_of_fmap. split.
    - intros Hp'. destruct (fo_heap _ _ _ Hf p Hp') as (e & ? & <-). eauto.
    - intros (e & -> & Hin). destruct (fo_entry _ _ _ Hf e Hin) as (s & Hs' & _). by exists s. }
  rewrite size_list_to_set by done. by rewrite length_fmap.
Qed.

(** C5: From an empty table, every sequence of calls that releases only references
    it holds is free of undefined behaviour and failed assertions, gives the
    results of the specification, and leaves exactly the sessions that are
    alive or referenced, with both statistics correct. *)
Theorem calls_refine cs r : holds [] r → permitted cs (session_table_init r) ∅ →
  ∃ t rs sp, exec_all cs (session_table_init r) = Ret (t, rs) ∧ spec_run (Spec ∅ ∅) cs sp rs ∧
    (∀ p, is_Some (heap t !! p) ↔ session_exists sp p) ∧
    ios_session_get_stats t = (Z.of_nat (size (dom (heap t))), Z.of_nat (size (refs sp))).
Proof.
  intros Hr Hp. destruct (exec_all_refines cs _ _ (init_refines r Hr) Hp) as (t & rs & sp & He & Hs & Hr').
  exists t, rs, sp. split_and!; [done..| |].
  - intros p. by eapply flat_exists, rf_flat.
  - unfold ios_session_get_stats. by rewrite (sessions_counted t sp Hr'), (rf_refs t sp Hr').
Qed.
(** ** The shape of the table *)

(** What a table looks like between calls: 256 chains; every entry is in the
    chain its identifier hashes to; no session has two entries; the entries are
    the sessions in memory; counters are not negative; a session marked for
    destruction is referenced, and of the sessions of an identifier at most one
    is not marked. *)
Record well_formed (t : table) : Prop := {
  wf_length : length (buckets t) = 256;
  wf_hash : ∀ i b e, buckets t !! i = Some b → e ∈ b → hash_session_id (session_id e) = Z.of_nat i;
  wf_nodup : NoDup (entry_session <$> concat (buckets t));
  wf_heap : ∀ p, is_Some (heap t !! p) ↔ p ∈ entry_session <$> concat (buckets t);
  wf_count : ∀ p s, heap t !! p = Some s → (0 ≤ ref_count s)%Z ∧ (is_destroying s = true → (0 < ref_count s)%Z);
  wf_one : ∀ e e' s s', e ∈ concat (buckets t) → e' ∈ concat (buckets t) → session_id e = session_id e' →
    heap t !! entry_session e = Some s → heap t !! entry_session e' = Some s' →
    is_destroying s = false → is_destroying s' = false → e = e' }.

Lemma refines_well_formed t sp : refines t sp → well_formed t.
Proof.
  intros Hr. pose proof (rf_flat t sp Hr) as Hf. split.
  - apply Hr.
  - intros i b e Hb He. pose proof (rf_hash t sp Hr i b e Hb He). pose proof (hash_bound (session_id e)). lia.
  - apply Hf.
  - intros p. rewrite list_elem_of_fmap. split.
    + intros Hp. destruct (fo_heap _ _ _ Hf p Hp) as (e & ? & <-). eauto.
    + intros (e & -> & Hin). destruct (fo_entry _ _ _ Hf e Hin) as (s & Hs & _). by exists s.
  - intros p s Hs. destruct (fo_heap _ _ _ Hf p) as (e & Hin & <-); [by exists s|].
    destruct (fo_entry _ _ _ Hf e Hin) as (s' & Hs' & Hc & _ & Hz). simplify_eq. split; [lia|done].
  - intros e e' s s' He He' Hid Hs Hs' Hd Hd'.
    destruct (fo_entry _ _ _ Hf e He) as (s1 & Hs1 & _ & Hd1 & _).
    destruct (fo_entry _ _ _ Hf e' He') as (s2 & Hs2 & _ & Hd2 & _). simplify_eq.
    rewrite Hd1 in Hd. rewrite Hd2 in Hd'. apply bool_decide_eq_false in Hd, Hd'.
    apply dec_stable in Hd, Hd'. rewrite Hid in Hd. destruct e, e'. simpl in *. congruence.
Qed.

(** C35: Every sequence of calls leaves a well-formed table. *)
Theorem calls_well_formed cs r : holds [] r → permitted cs (session_table_init r) ∅ →
  ∃ t rs, exec_all cs (session_table_init r) = Ret (t, rs) ∧ well_formed t.
Proof.
  intros Hr Hp. destruct (exec_all_refines cs _ _ (init_refines r Hr) Hp) as (t & rs & sp & He & _ & Hr').
  exists t, rs. split; [done|]. by eapply refines_well_formed.
Qed.

(** ** Shutdown *)

(** Exactly the sessions of the entries [es] are in the heap. *)
Definition heap_of (es : list entry) (t : table) : Prop :=
  NoDup (entry_session <$> es) ∧ (∀ p, is_Some (heap t !! p) ↔ p ∈ entry_session <$> es) ∧
  holds (heap_params (heap t)) (held t).

Lemma shutdown_chain_ok b rest t : heap_of (b ++ rest) t →
  ∃ t', shutdown_chain b t = Ret t' ∧ buckets t' = buckets t ∧ heap_of rest t'.
Proof.
  revert t. induction b as [|e b IH]; intros t Hh; simpl; [by eauto|].
  destruct Hh as (Hnd & Hdom & Hheld). cbn [app fmap list_fmap] in Hnd, Hdom. apply list.NoDup_cons in Hnd as [Hnin Hnd].
  destruct (proj2 (Hdom (entry_session e))) as [s Hs]; [by left|]. unfold deref. rewrite Hs. cbn [mbind outcome_bind].
  destruct (cleanup_holds (session_params s) (heap_params (delete (entry_session e) (heap t))) (held t)) as (r & -> & Hr).
  { eapply holds_perm; [|exact Hheld]. by apply heap_params_delete. }
  cbn [mbind outcome_bind]. apply (IH (free_session (entry_session e) (set_held r t))). split_and!; [done| |done].
  intros p. unfold free_session. cbn [heap set_held]. destruct (decide (p = entry_session e)) as [->|Hne].
  - rewrite lookup_delete_eq. split; [by intros []|done].
  - rewrite lookup_delete_ne, Hdom, elem_of_cons by done. split; [by intros [?|?]|by right].
Qed.

Lemma shutdown_buckets_ok i bs pre t : buckets t = pre ++ bs → length pre = i → heap_of (concat bs) t →
  ∃ t', shutdown_buckets i bs t = Ret t' ∧ buckets t' = pre ++ replicate (length bs) [] ∧ heap_of [] t'.
Proof.
  revert i pre t. induction bs as [|b bs IH]; intros i pre t Hb Hi Hh; simpl; [by eauto|].
  destruct (shutdown_chain_ok b (concat bs) t Hh) as (t1 & -> & Hb1 & Hh1). cbn [mbind outcome_bind].
  destruct (IH (S i) (pre ++ [[]]) (set_bucket (Z.of_nat i) [] t1)) as (t2 & -> & Hb2 & Hh2).
  - unfold set_bucket. cbn [buckets]. rewrite Hb1, Hb, Nat2Z.id, <- Hi, insert_app_r_alt, Nat.sub_diag by lia.
    simpl. by rewrite <- app_assoc.
  - rewrite length_app. simpl. lia.
  - done.
  - exists t2. split_and!; [done| |done]. by rewrite Hb2, <- app_assoc.
Qed.

(** The shutdown frees every session once and everything it holds, and leaves
    an empty table: also when references are left after the wait. *)
Lemma shutdown_refines t sp : refines t sp →
  ∃ t', shutdown_sessions t = Ret t' ∧ refines t' (Spec ∅ ∅) ∧ heap t' = ∅.
Proof.
  intros Hr. pose proof (rf_flat t sp Hr) as Hf.
  destruct (shutdown_buckets_ok 0 (buckets t) [] t) as (t1 & Ht1 & Hb1 & Hnd & Hdom & Hheld); [done..| |].
  { split_and!; [apply Hf| |apply Hr]. intros p. rewrite list_elem_of_fmap. split.
    - intros Hp. destruct (fo_heap _ _ _ Hf p Hp) as (e & ? & <-). eauto.
    - intros (e & -> & Hin). destruct (fo_entry _ _ _ Hf e Hin) as (s & Hs & _). by exists s. }
  assert (heap t1 = ∅) as Hempty.
  { apply map_empty. intros p. apply eq_None_not_Some. rewrite Hdom. apply not_elem_of_nil. }
  unfold shutdown_sessions. rewrite Ht1. cbn [mbind outcome_bind]. eexists. split; [done|]. split; [|done].
  simpl in Hb1. rewrite Hb1, (rf_length t sp Hr), Hempty. rewrite Hempty in Hheld.
  exact (init_refines (held t1) Hheld).
Qed.
(** A reference that is held over a shutdown, which waits for at most ten
    seconds, is released into freed memory. *)
Theorem shutdown_dangling t sp r : refines t sp → r ∈ refs sp →
  ∃ t', shutdown_sessions t = Ret t' ∧ ios_session_release (Some r) t' = Undef UseAfterFree.
Proof.
  intros Hr _. destruct (shutdown_refines t sp Hr) as (t' & Ht & _ & Hh). exists t'. split; [done|].
  unfold ios_session_release, deref. by rewrite Hh, lookup_empty.
Qed.
End theorems.
