(* ===== verification/SessionState.v ===== *)
(** * What a session holds ([src/ios_session_manager.m])

    - [sessionParameters]: the part of the struct that owns something.
      [ios_session_init_params] allocates the names of commands and the
      cancellation pipe, [ios_session_cleanup_params] gives everything back.
      [session_resources] is the instance of the interface of [SessionManager]:
      the sessions of the table neither leak nor free twice, when their streams
      are the ones of the process.
    - The streams are set by other code, which does not transfer their
      ownership: [cleanup_shared_stream] is the session whose output and error
      output are one stream.
    - The flag and the pipe of a cancellation, one call at a time and, as
      [cancel_step], interleaved: [cancel_pipe_agrees], [cancel_lost_wakeup],
      [cancel_stale_wakeup]. *)

From S2P Require Import Prelude SessionManager.

Inductive FILE : Set :=
  | NULL
  | Standard (n : nat)     (* [stdin], [stdout], [stderr] of the process: 0, 1, 2 *)
  | Opened (n : nat).
Global Instance FILE_eq_dec : EqDecision FILE.
Proof. solve_decision. Defined.

Definition NUM_COMMANDS : nat := 10.

Record sessionParameters := SP {
  sp_stdin : FILE; sp_stdout : FILE; sp_stderr : FILE; sp_tty : FILE;
  commandName : option (list bool);       (* the array, and which of its names are not NULL *)
  cancel_pipe_read_fd : Z; cancel_pipe_write_fd : Z }.

(** The descriptors and files that are open, the number of allocated blocks, and
    whether the next calls of [malloc] and [pipe] succeed (they do when the list
    has ended). *)
Record resource := Resource {
  fds : gset nat; files : gset nat; blocks : Z; answers : list bool }.

(** The answer to a call that may fail. *)
Definition ask (r : resource) : bool * resource :=
  match answers r with
  | [] => (true, r)
  | a :: rest => (a, Resource (fds r) (files r) (blocks r) rest)
  end.
Definition add_blocks (d : Z) (r : resource) : resource := Resource (fds r) (files r) (blocks r + d) (answers r).
Definition set_fds (s : gset nat) (r : resource) : resource := Resource s (files r) (blocks r) (answers r).

(** [malloc], with whether it succeeded. *)
Definition malloc_block (r : resource) : bool * resource :=
  let '(ok, r) := ask r in (ok, if ok then add_blocks 1 r else r).

(** The loop over the names. *)
Fixpoint malloc_names (n : nat) (r : resource) : list bool * resource :=
  match n with
  | 0 => ([], r)
  | S n => let '(ok, r) := malloc_block r in let '(names, r) := malloc_names n r in (ok :: names, r)
  end.

(** [pipe]. *)
Definition pipe (r : resource) : option (nat * nat) * resource :=
  let '(ok, r) := ask r in
  if ok then
    let a := fresh (fds r) in
    let b := fresh ({[ a ]} ∪ fds r) in
    (Some (a, b), set_fds ({[ a; b ]} ∪ fds r) r)
  else (None, r).

Definition ios_session_init_params (r : resource) : sessionParameters * resource :=
  let '(ok, r) := malloc_block r in
  let '(names, r) :=
    if ok then let '(l, r) := malloc_names NUM_COMMANDS r in (Some l, r) else (None, r) in
  let '(p, r) := pipe r in
  let '(rd, wr) := match p with Some (a, b) => (Z.of_nat a, Z.of_nat b) | None => (-1, -1)%Z end in
  (SP (Standard 0) (Standard 1) (Standard 2) (Standard 0) names rd wr, r).

(** [free] of the names that are not NULL. *)
Definition free_names (names : list bool) (r : resource) : resource :=
  fold_left (λ r ok, if ok : bool then add_blocks (-1) r else r) names r.

Definition fclose_file (f : FILE) (r : resource) : outcome resource :=
  match f with
  | Opened n =>
      if bool_decide (n ∈ files r) then Ret (Resource (fds r) (files r ∖ {[ n ]}) (blocks r) (answers r))
      else Undef DoubleFree
  | _ => Ret r
  end.

(** [if (f != NULL && f != standard) fclose(f)]. *)
Definition close_unless (standard f : FILE) (r : resource) : outcome resource :=
  if negb (bool_decide (f = NULL)) && negb (bool_decide (f = standard)) then fclose_file f r else Ret r.

Definition close_fd (fd : Z) (r : resource) : resource :=
  if bool_decide (0 ≤ fd)%Z then set_fds (fds r ∖ {[ Z.to_nat fd ]}) r else r.

Definition ios_session_cleanup_params (sp : sessionParameters) (r : resource) : outcome resource :=
  let r := match commandName sp with Some names => add_blocks (-1) (free_names names r) | None => r end in
  r ← close_unless (Standard 0) (sp_stdin sp) r;
  r ← close_unless (Standard 1) (sp_stdout sp) r;
  r ← close_unless (Standard 2) (sp_stderr sp) r;
  r ← close_unless (Standard 0) (sp_tty sp) r;
  Ret (close_fd (cancel_pipe_write_fd sp) (close_fd (cancel_pipe_read_fd sp) r)).

(** ** Ownership *)

Definition names_blocks (names : list bool) : Z := Z.of_nat (length (filter (λ b, b = true) names)).

Definition blocks_of (sp : sessionParameters) : Z :=
  match commandName sp with Some names => 1 + names_blocks names | None => 0 end.

Definition fds_of (sp : sessionParameters) : list nat :=
  if bool_decide (0 ≤ cancel_pipe_read_fd sp)%Z
  then [Z.to_nat (cancel_pipe_read_fd sp); Z.to_nat (cancel_pipe_write_fd sp)] else [].

(** The parameters as [ios_session_init_params] leaves them. *)
Record sp_ok (sp : sessionParameters) : Prop := {
  ok_stdin : sp_stdin sp = Standard 0; ok_stdout : sp_stdout sp = Standard 1;
  ok_stderr : sp_stderr sp = Standard 2; ok_tty : sp_tty sp = Standard 0;
  ok_fds : (0 ≤ cancel_pipe_read_fd sp)%Z ↔ (0 ≤ cancel_pipe_write_fd sp)%Z }.

Fixpoint sum_blocks (sps : list sessionParameters) : Z :=
  match sps with [] => 0 | sp :: sps => blocks_of sp + sum_blocks sps end.

(** Exactly what the sessions own is open and allocated. *)
Record owned (sps : list sessionParameters) (r : resource) : Prop := {
  ow_ok : Forall sp_ok sps;
  ow_nodup : NoDup (sps ≫= fds_of);
  ow_fds : fds r = list_to_set (sps ≫= fds_of);
  ow_blocks : blocks r = sum_blocks sps }.

Lemma owned_perm sps sps' r : sps ≡ₚ sps' → owned sps r → owned sps' r.
Proof.
  intros Hp [Hok Hnd Hf Hb]. split.
  - by rewrite <- Hp.
  - by rewrite <- Hp.
  - rewrite Hf. by rewrite Hp.
  - rewrite Hb. clear -Hp. induction Hp; simpl; lia.
Qed.

Lemma malloc_block_spec r ok r' : malloc_block r = (ok, r') →
  fds r' = fds r ∧ files r' = files r ∧ blocks r' = (blocks r + if ok then 1 else 0)%Z.
Proof.
  unfold malloc_block, ask. destruct (answers r) as [|[] rest]; intros; simplify_eq/=; split_and!; try done; lia.
Qed.

Lemma malloc_names_spec n r names r' : malloc_names n r = (names, r') →
  fds r' = fds r ∧ files r' = files r ∧ blocks r' = (blocks r + names_blocks names)%Z.
Proof.
  revert r names r'. induction n as [|n IH]; intros r names r' Hm; simpl in Hm.
  { simplify_eq. split_and!; [done..|]. unfold names_blocks. simpl. lia. }
  destruct (malloc_block r) as [ok r1] eqn:E1. destruct (malloc_names n r1) as [l r2] eqn:E2. simplify_eq.
  destruct (malloc_block_spec _ _ _ E1) as (Hf1 & Hg1 & Hb1). destruct (IH _ _ _ E2) as (Hf2 & Hg2 & Hb2).
  split_and!; [congruence..|]. rewrite Hb2, Hb1. unfold names_blocks. rewrite list.filter_cons.
  destruct ok; [rewrite decide_True by done|rewrite decide_False by done]; simpl length; lia.
Qed.

Lemma pipe_spec r p r' : pipe r = (p, r') → files r' = files r ∧ blocks r' = blocks r ∧
  match p with
  | Some (a, b) => fds r' = {[ a; b ]} ∪ fds r ∧ a ∉ fds r ∧ b ∉ fds r ∧ a ≠ b
  | None => fds r' = fds r
  end.
Proof.
  unfold pipe. destruct (ask r) as [ok r1] eqn:Ea.
  assert (fds r1 = fds r ∧ files r1 = files r ∧ blocks r1 = blocks r) as (Hf & Hg & Hb).
  { unfold ask in Ea. by destruct (answers r); simplify_eq/=. }
  destruct ok; intros; simplify_eq/=; rewrite <- ?Hf; split_and!; try done.
  - apply is_fresh.
  - pose proof (is_fresh ({[ fresh (fds r1) ]} ∪ fds r1)). set_solver.
  - pose proof (is_fresh ({[ fresh (fds r1) ]} ∪ fds r1)). set_solver.
Qed.

Lemma init_owned sps r : owned sps r →
  owned ((ios_session_init_params r).1 :: sps) (ios_session_init_params r).2.
Proof.
  intros [Hok Hnd Hf Hb]. unfold ios_session_init_params.
  destruct (malloc_block r) as [ok r1] eqn:E1. destruct (malloc_block_spec _ _ _ E1) as (Hf1 & _ & Hb1).
  assert (∃ names r2, (if ok then let '(l, r) := malloc_names NUM_COMMANDS r1 in (Some l, r) else (None, r1)) = (names, r2) ∧
    fds r2 = fds r ∧ blocks r2 = (blocks r + match names with Some l => 1 + names_blocks l | None => 0 end)%Z)
    as (names & r2 & -> & Hf2 & Hb2).
  { destruct ok; [|eexists _, _; split; [done|]; split; [congruence|lia]].
    destruct (malloc_names NUM_COMMANDS r1) as [l r2] eqn:E2.
    destruct (malloc_names_spec _ _ _ _ E2) as (Hf2 & _ & Hb2).
    eexists _, _. split; [done|]. split; [congruence|lia]. }
  destruct (pipe r2) as [p r3] eqn:E3. destruct (pipe_spec _ _ _ E3) as (_ & Hb3 & Hp).
  destruct p as [[a b]|]; cbn [fst snd].
  - destruct Hp as (Hf3 & Ha & Hbn & Hab). rewrite Hf2, Hf in Ha, Hbn. rewrite elem_of_list_to_set in Ha, Hbn.
    assert (fds_of (SP (Standard 0) (Standard 1) (Standard 2) (Standard 0) names (Z.of_nat a) (Z.of_nat b)) = [a; b]) as Hfd.
    { unfold fds_of. simpl. rewrite bool_decide_eq_true_2 by lia. by rewrite !Nat2Z.id. }
    split.
    + apply Forall_cons_2; [|done]. split; simpl; try done. lia.
    + cbn [mbind list_bind]. rewrite Hfd. simpl. constructor; [set_solver|]. by constructor.
    + cbn [mbind list_bind]. rewrite Hfd, Hf3, Hf2, Hf. set_solver.
    + simpl. unfold blocks_of at 1. simpl. destruct names; lia.
  - split.
    + apply Forall_cons_2; [|done]. split; simpl; done.
    + done.
    + cbn [mbind list_bind]. rewrite Hp, Hf2, Hf. done.
    + simpl. unfold blocks_of at 1. simpl. destruct names; lia.
Qed.

Lemma free_names_spec names r : fds (free_names names r) = fds r ∧ files (free_names names r) = files r ∧
  blocks (free_names names r) = (blocks r - names_blocks names)%Z.
Proof.
  revert r. unfold free_names, names_blocks. induction names as [|ok names IH]; intros r; simpl.
  - split_and!; [done..|lia].
  - destruct (IH (if ok then add_blocks (-1) r else r)) as (-> & -> & ->). rewrite list.filter_cons.
    destruct ok; simpl; split_and!; try done; lia.
Qed.

Lemma cleanup_owned sp sps r : owned (sp :: sps) r →
  ∃ r', ios_session_cleanup_params sp r = Ret r' ∧ owned sps r'.
Proof.
  intros [Hok Hnd Hf Hb]. apply Forall_cons_1 in Hok as [[E1 E2 E3 E4 E5] Hok].
  unfold ios_session_cleanup_params, close_unless. rewrite E1, E2, E3, E4. simpl. eexists. split; [done|].
  cbn [mbind list_bind] in Hnd, Hf. simpl in Hb. unfold blocks_of in Hb.
  set (r1 := match commandName sp with Some names => add_blocks (-1) (free_names names r) | None => r end).
  assert (fds r1 = fds r ∧ blocks r1 = sum_blocks sps) as [Hf1 Hb1].
  { subst r1. destruct (commandName sp) as [names|]; [|split; [done|lia]].
    destruct (free_names_spec names r) as (Hfn & _ & Hbn). simpl. split; [done|]. lia. }
  apply list.NoDup_app in Hnd as (Hnd1 & Hdisj & Hnd2).
  unfold close_fd, fds_of in *. case_bool_decide as Hr; case_bool_decide as Hw; try tauto.
  - split; try done. simpl. rewrite Hf1, Hf. set_solver.
  - split; try done. by rewrite Hf1, Hf.
Qed.

Global Instance session_resources : SessionParams := {
  params := sessionParameters; resources := resource;
  init_params := ios_session_init_params; cleanup_params := ios_session_cleanup_params;
  holds := owned; holds_perm := owned_perm; init_holds := init_owned; cleanup_holds := cleanup_owned }.

(** Addresses as a first-fit allocator gives them. *)
Global Instance fresh_malloc : Malloc := {
  malloc used := fresh used; malloc_fresh used := is_fresh used }.

Definition no_resources : resource := Resource ∅ ∅ 0 [].

Lemma no_resources_owned : holds (SessionParams := session_resources) [] no_resources.
Proof. split; try done; constructor. Qed.

(** ** Concrete sessions *)

(** A session is referenced twice, deleted and created anew; the references to
    the old one are released. *)
Definition some_calls : list call :=
  [GetOrCreate 7; Get 7; Delete 7; Get 7; GetOrCreate 7; Release (Ref 0 7); Release (Ref 0 7); Delete 8].

Definition empty_table : table := session_table_init (Params := session_resources) no_resources.

Lemma calls_refine_witness : ∃ t rs sp,
  exec_all some_calls empty_table = Ret (t, rs) ∧ spec_run (Spec ∅ ∅) some_calls sp rs ∧
  (∀ p, is_Some (heap t !! p) ↔ session_exists sp p) ∧
  ios_session_get_stats t = (Z.of_nat (size (dom (heap t))), Z.of_nat (size (refs sp))).
Proof.
  apply (calls_refine (Params := session_resources) some_calls no_resources no_resources_owned).
  vm_compute. repeat split; try lia.
Defined.

Lemma calls_well_formed_witness : ∃ t rs, exec_all some_calls empty_table = Ret (t, rs) ∧ well_formed t.
Proof.
  apply (calls_well_formed (Params := session_resources) some_calls no_resources no_resources_owned).
  vm_compute. repeat split; try lia.
Defined.

(** The session's output and error output are one stream the application has
    opened: the clean-up closes it twice. *)
Theorem cleanup_shared_stream sp f r : sp_stdin sp = Standard 0 → sp_stdout sp = Opened f → sp_stderr sp = Opened f →
  f ∈ files r → ios_session_cleanup_params sp r = Undef DoubleFree.
Proof.
  intros E1 E2 E3 Hf. unfold ios_session_cleanup_params, close_unless. rewrite E1, E2, E3. simpl.
  assert (∃ r1, match commandName sp with Some names => add_blocks (-1) (free_names names r) | None => r end = r1 ∧
    files r1 = files r) as (r1 & -> & Hr1).
  { destruct (commandName sp) as [names|]; [|by eauto]. eexists. split; [done|]. by destruct (free_names_spec names r) as (_ & ? & _). }
  rewrite Hr1, (bool_decide_eq_true_2 (f ∈ files r)) by done. cbn [mbind outcome_bind files].
  rewrite (bool_decide_eq_false_2 (f ∈ files r ∖ {[ f ]})); [done|].
  intros [_ Hn]%elem_of_difference. by apply Hn, elem_of_singleton.
Qed.

Lemma cleanup_shared_stream_witness :
  ios_session_cleanup_params (SP (Standard 0) (Opened 5) (Opened 5) (Standard 0) None (-1) (-1)) (Resource ∅ {[ 5 ]} 0 []) =
  Undef DoubleFree.
Proof. apply (cleanup_shared_stream _ 5); [done..|]. by vm_compute. Defined.

(** ** Cancellation *)

(** The flag and the number of bytes in the pipe ([None]: [pipe] failed). *)
Record cancellation := Cancel { cancel_requested : bool; pipe_bytes : option nat }.

Definition PIPE_CAPACITY : nat := 16384.

(** The loop around [write], which does not block; [interrupts] is how often it
    fails with [EINTR]. *)
Fixpoint write_wake (interrupts : nat) (bytes : nat) : nat :=
  match interrupts with
  | S n => write_wake n bytes
  | 0 => if bool_decide (bytes < PIPE_CAPACITY) then S bytes else bytes
  end.

Definition ios_session_request_cancel (interrupts : nat) (c : cancellation) : cancellation :=
  let already_cancelled := cancel_requested c in
  match pipe_bytes c with
  | Some bytes => Cancel true (Some (if already_cancelled then bytes else write_wake interrupts bytes))
  | None => Cancel true None
  end.

(** The loop around [read] with a buffer of 32 bytes, until the pipe is empty. *)
Fixpoint drain (fuel interrupts : nat) (bytes : nat) : option nat :=
  match fuel with
  | 0 => None
  | S fuel =>
      match interrupts with
      | S n => drain fuel n bytes
      | 0 => if bool_decide (0 < bytes) then drain fuel 0 (bytes - 32) else Some bytes
      end
  end.

Definition ios_session_clear_cancel (fuel interrupts : nat) (c : cancellation) : option cancellation :=
  match pipe_bytes c with
  | None => Some (Cancel false None)
  | Some bytes => bytes ← drain fuel interrupts bytes; Some (Cancel false (Some bytes))
  end.

Inductive cancel_call : Set := RequestCancel (interrupts : nat) | ClearCancel (interrupts : nat).

Definition cancel_exec (e : cancel_call) (c : cancellation) : option cancellation :=
  match e with
  | RequestCancel n => Some (ios_session_request_cancel n c)
  | ClearCancel n => ios_session_clear_cancel (n + default 0 (pipe_bytes c) + 1) n c
  end.

Lemma write_wake_lt n b : b < PIPE_CAPACITY → write_wake n b = S b.
Proof. intros Hb. induction n; simpl; [|done]. by rewrite bool_decide_eq_true_2. Qed.

Lemma drain_empties fuel n b : n + b < fuel → drain fuel n b = Some 0.
Proof.
  revert n b. induction fuel as [|fuel IH]; intros n b Hf; [lia|]. simpl. destruct n as [|n]; [|apply IH; lia].
  case_bool_decide; [apply IH; lia|]. f_equal. lia.
Qed.

Definition cancel_init (c : cancellation) : Prop := c = Cancel false (Some 0).

(** Called one after another, the two functions always return, and the pipe is
    readable exactly while a cancellation is requested: it holds one byte then. *)
Theorem cancel_pipe_agrees c : reachable cancel_exec cancel_init c →
  pipe_bytes c = Some (if cancel_requested c then 1 else 0) ∧ ∀ e, is_Some (cancel_exec e c).
Proof.
  intros Hr. assert (pipe_bytes c = Some (if cancel_requested c then 1 else 0)) as Hc.
  { revert c Hr. apply reachable_invariant; [by intros ? ->|]. intros e [f p] c' Hp Hs. simpl in Hp. subst p.
    destruct e as [n|n]; simpl in Hs.
    - unfold ios_session_request_cancel in Hs. simplify_eq/=. destruct f; [done|].
      by rewrite write_wake_lt by (by apply Nat.ltb_lt).
    - unfold ios_session_clear_cancel in Hs. simpl in Hs. rewrite drain_empties in Hs by lia. by simplify_eq/=. }
  split; [done|]. intros [n|n]; simpl; [done|]. rewrite Hc. unfold ios_session_clear_cancel. rewrite Hc. simpl.
  by rewrite drain_empties by lia.
Qed.

Lemma cancel_pipe_agrees_witness : ∃ c, cancel_requested c = true ∧ pipe_bytes c = Some 1.
Proof.
  exists (Cancel true (Some 1)). split; [done|].
  refine (proj1 (cancel_pipe_agrees (Cancel true (Some 1)) _)).
  apply (run_reachable cancel_exec cancel_init [RequestCancel 0; ClearCancel 3; RequestCancel 2; RequestCancel 0]
    (Cancel false (Some 0))); [by apply reachable_init|by vm_compute].
Defined.

(** Between the two effects of each function another thread may run: a requester
    exchanges the flag and then writes, a clearing thread stores the flag and
    then reads. *)
Inductive cancel_place : Set := Idle | AboutToWrite | AboutToRead.

Inductive cancel_event : Set := Request (thread : nat) | Clear (thread : nat) | Go (thread : nat).

Record cancel_state := CancelState { cs_cancel : cancellation; cs_place : list cancel_place }.

Definition cancel_step (e : cancel_event) (s : cancel_state) : option cancel_state :=
  let c := cs_cancel s in
  match e with
  | Request i =>
      match cs_place s !! i with
      | Some Idle =>
          let next := if cancel_requested c then Idle else AboutToWrite in
          Some (CancelState (Cancel true (pipe_bytes c)) (<[i := next]> (cs_place s)))
      | _ => None
      end
  | Clear i =>
      match cs_place s !! i with
      | Some Idle => Some (CancelState (Cancel false (pipe_bytes c)) (<[i := AboutToRead]> (cs_place s)))
      | _ => None
      end
  | Go i =>
      match cs_place s !! i with
      | Some AboutToWrite =>
          Some (CancelState (Cancel (cancel_requested c) (write_wake 0 <$> pipe_bytes c)) (<[i := Idle]> (cs_place s)))
      | Some AboutToRead =>
          Some (CancelState (Cancel (cancel_requested c) ((λ _, 0) <$> pipe_bytes c)) (<[i := Idle]> (cs_place s)))
      | _ => None
      end
  end.

Definition two_threads : cancel_state := CancelState (Cancel false (Some 0)) [Idle; Idle].

(** A request between the two steps of a thread that clears: the cancellation is
    requested and the pipe is empty, a command that waits for it sleeps on; and
    no further request writes. *)
Theorem cancel_lost_wakeup :
  run cancel_step [Clear 0; Request 1; Go 1; Go 0; Request 1] two_threads =
  Some (CancelState (Cancel true (Some 0)) [Idle; Idle]).
Proof. by vm_compute. Qed.

(** A thread that clears between the two steps of a request: nothing is
    requested, and the pipe stays readable until somebody clears again. *)
Theorem cancel_stale_wakeup :
  run cancel_step [Request 1; Clear 0; Go 0; Go 1] two_threads =
  Some (CancelState (Cancel false (Some 1)) [Idle; Idle]).
Proof. by vm_compute. Qed.
