(* ===== verification/SessionThread.v ===== *)
(** * The session of a thread ([src/ios_system.m])

    Every thread has a current session, [currentSession], and the reference that
    keeps it alive, [currentSessionRef].  [ios_switchSession] exchanges both,
    [ios_closeSession] gives them up, and the command [sh] runs its commands in
    a session of its own with the streams of the caller.
    - [thread_ok]: the current session is the referenced one.  Switching and
      closing keep it, on top of the specification of [SessionManager]
      ([switch_keeps_thread], [close_keeps_thread]).
    - [sh] does not: it comes back to the session of the caller without a
      reference ([sh_drops_reference]), and the end of its session closes the
      streams of the caller ([sh_closes_streams]).
    - Not modelled: the working directory, which is the one of the process. *)

From S2P Require Import Prelude SessionManager SessionState.
From stdpp Require Import gmultiset.

(** [parentSession] is one variable of the process, here with the one thread that
    uses it. *)
Record thread := Thread {
  currentSession : option ptr;
  currentSessionRef : option ref;
  parentSession : option ptr }.

(** The address of the name of the session of [sh]. *)
Definition sh_session : Z := 4096.

Section switching.
Context `{Params : SessionParams, Alloc : Malloc}.

(** [session->context == id]. *)
Definition context_is (p : ptr) (id : Z) (t : table) : outcome bool :=
  s ← deref p t; Ret (bool_decide (context s = Some id)).

(** [if (session->context == NULL) session->context = id]. *)
Definition fill_context (p : ptr) (id : Z) (t : table) : outcome table :=
  s ← deref p t;
  Ret (if bool_decide (context s = None)
       then set_session p (Session (ref_count s) (is_destroying s) (Some id) (session_params s)) t else t).

Definition release_current (th : thread) (t : table) : outcome (table * thread) :=
  match currentSessionRef th with
  | Some r => t ← ios_session_release (Some r) t; Ret (t, Thread None None (parentSession th))
  | None => Ret (t, th)
  end.

(** Whether the thread is in the session already, by itself or inside [sh]. *)
Definition already_in (id : Z) (th : thread) (t : table) : outcome bool :=
  in_sh ← match currentSession th, parentSession th with
          | Some p, Some q =>
              a ← context_is p sh_session t;
              if a : bool then context_is q id t else Ret false
          | _, _ => Ret false
          end;
  if in_sh : bool then Ret true
  else match currentSession th with Some p => context_is p id t | None => Ret false end.

Definition ios_switchSession (m : memory) (id : Z) (th : thread) (t : table) : outcome (table * thread) :=
  stay ← already_in id th t;
  if stay : bool then Ret (t, th)
  else
    '(t, th) ← release_current th t;
    '(t, r) ← ios_session_get_or_create m id t;
    match r with
    | None => Ret (t, Thread (currentSession th) None (parentSession th))
    | Some r =>
        t ← fill_context (ref_session r) id t;
        Ret (t, Thread (Some (ref_session r)) (Some r) (parentSession th))
    end.

Definition ios_closeSession (id : Z) (th : thread) (t : table) : outcome (table * thread) :=
  '(t, th) ←
    match currentSessionRef th, currentSession th with
    | Some _, Some p =>
        here ← context_is p id t;
        if here : bool then release_current th t else Ret (t, th)
    | _, _ => Ret (t, th)
    end;
  '(t, _) ← ios_session_delete id t;
  Ret (t, th).

(** ** The invariant of a thread *)

Definition thread_ok (th : thread) (sp : spec) : Prop :=
  match currentSession th, currentSessionRef th with
  | Some p, Some r => ref_session r = p ∧ r ∈ refs sp
  | None, None => True
  | _, _ => False
  end.

(** A session that exists can be read. *)
Lemma deref_ref t sp r : refines t sp → r ∈ refs sp → ∃ s, deref (ref_session r) t = Ret s ∧ heap t !! ref_session r = Some s.
Proof.
  intros Hr Hin. pose proof (rf_flat t sp Hr) as Hf.
  destruct (fo_entry _ _ _ Hf _ (fo_refs _ _ _ Hf r Hin)) as (s & Hs & _). simpl in Hs.
  exists s. unfold deref. by rewrite Hs.
Qed.

Lemma fill_context_refines t sp r id : refines t sp → r ∈ refs sp →
  ∃ t' s, fill_context (ref_session r) id t = Ret t' ∧ refines t' sp ∧
    heap t' !! ref_session r = Some s ∧ is_Some (context s).
Proof.
  intros Hr Hin. destruct (deref_ref t sp r Hr Hin) as (s & Hd & Hs). unfold fill_context. rewrite Hd.
  cbn [mbind outcome_bind]. case_bool_decide as Hc.
  2: { eexists _, s. split_and!; [done..|]. by destruct (context s). }
  eexists _, _. split; [done|]. split.
  - pose proof (rf_flat t sp Hr) as Hf. pose proof (fo_refs _ _ _ Hf r Hin) as He.
    destruct (fo_entry _ _ _ Hf _ He) as (s' & Hs' & Hcount & Hdest & Hz). simpl in *. simplify_eq.
    eapply (refines_update t sp sp (ref_id r) (ref_session r) s); try done.
    + by apply (flat_update _ _ sp _ (ref_id r) (ref_session r)).
    + apply Hr.
  - split; [by apply lookup_insert_eq|by eexists].
Qed.

(** Releasing a reference does not raise the counters. *)
Lemma release_counters t t' sp r : refines t sp → refines t' (Spec (live sp) (refs sp ∖ {[+ r +]})) →
  counters_fit t → counters_fit t'.
Proof.
  intros Hr Hr' [Hs Hc]. split.
  - rewrite (sessions_counted _ _ Hr'). rewrite (sessions_counted _ _ Hr) in Hs.
    assert (dom (heap t') ⊆ dom (heap t)) as Hsub; [|apply subseteq_size in Hsub; lia].
    intros p. rewrite !elem_of_dom, (flat_exists _ _ _ _ (rf_flat _ _ Hr)), (flat_exists _ _ _ _ (rf_flat _ _ Hr')).
    intros [?|[id Hin]]; [by left|]. right. exists id. simpl in Hin. multiset_solver.
  - rewrite (rf_refs _ _ Hr'). rewrite (rf_refs _ _ Hr) in Hc. simpl.
    assert (refs sp ∖ {[+ r +]} ⊆ refs sp) as Hsub by multiset_solver. apply gmultiset_subseteq_size in Hsub. lia.
Qed.

Lemma release_current_ok th t sp : refines t sp → counters_fit t → thread_ok th sp →
  ∃ t' sp', release_current th t = Ret (t', Thread None None (parentSession th)) ∧ refines t' sp' ∧
    counters_fit t' ∧ live sp' = live sp.
Proof.
  intros Hr Hfit Hth. destruct th as [cur cref par]. unfold thread_ok, release_current in *.
  cbn [currentSession currentSessionRef parentSession] in *.
  destruct cur as [p|], cref as [r|]; try done; [|by eexists _, _].
  destruct Hth as [<- Hin]. destruct Hfit as [Hs Hc]. pose proof Hc as Hc'. rewrite (rf_refs t sp Hr) in Hc'.
  destruct (release_refines t sp r Hr Hin) as (t' & Ht & Hr'); [lia..|]. rewrite Ht. cbn [mbind outcome_bind].
  eexists _, _. split_and!; [done..| |done].
  eapply release_counters; [exact Hr|exact Hr'|by split].
Qed.

(** The thread is in the session of the identifier: its current session has the
    identifier as its context. *)
Definition in_session (th : thread) (t : table) (id : Z) : Prop :=
  ∃ p s, currentSession th = Some p ∧ heap t !! p = Some s ∧ context s = Some id.

Lemma context_is_defined t sp r id : refines t sp → r ∈ refs sp →
  ∃ b, context_is (ref_session r) id t = Ret b ∧
    (b = true ↔ ∃ s, heap t !! ref_session r = Some s ∧ context s = Some id).
Proof.
  intros Hr Hin. destruct (deref_ref t sp r Hr Hin) as (s & Hd & Hs). unfold context_is. rewrite Hd. eexists. split; [done|].
  rewrite bool_decide_eq_true. split; [by eauto|]. by intros (s' & Hs' & ?); simplify_eq.
Qed.

Lemma already_in_spec th t sp id : refines t sp → thread_ok th sp → parentSession th = None →
  ∃ b, already_in id th t = Ret b ∧ (b = true ↔ in_session th t id).
Proof.
  intros Hr Hth Hpar. unfold already_in, in_session, thread_ok in *. rewrite Hpar.
  destruct (currentSession th) as [p|]; [destruct (currentSessionRef th) as [r|]; [|done]|].
  - destruct Hth as [<- Hin]. destruct (context_is_defined t sp r id Hr Hin) as (b & -> & Hb).
    exists b. split; [done|]. rewrite Hb. split; [intros (s & ? & ?); by exists (ref_session r), s|].
    intros (p & s & [= <-] & ? & ?). by exists s.
  - exists false. split; [done|]. split; [done|]. by intros (? & ? & ? & _).
Qed.

Lemma spec_get_or_create_ref sp id sp' r : spec_step sp (GetOrCreate id) sp' (RRef (Some r)) →
  r ∈ refs sp' ∧ live sp' !! id = Some (ref_session r) ∧ ref_id r = id.
Proof.
  inversion 1; subst; simpl; (split; [multiset_solver|]); [done|]. by rewrite lookup_insert_eq.
Qed.


(** Closing a session: no undefined behaviour, the identifier finds no session
    any more, and the thread does not stay in a session without a reference. *)
Theorem close_keeps_thread th t sp id : refines t sp → counters_fit t → thread_ok th sp →
  ∃ t' th' sp', ios_closeSession id th t = Ret (t', th') ∧ refines t' sp' ∧ thread_ok th' sp' ∧ live sp' !! id = None.
Proof.
  intros Hr Hfit Hth. unfold ios_closeSession.
  assert (∃ t1 th1 sp1, match currentSessionRef th, currentSession th with
    | Some _, Some p => here ← context_is p id t; if here : bool then release_current th t else Ret (t, th)
    | _, _ => Ret (t, th) end = Ret (t1, th1) ∧ refines t1 sp1 ∧ counters_fit t1 ∧ thread_ok th1 sp1)
    as (t1 & th1 & sp1 & -> & Hr1 & Hfit1 & Hth1).
  { pose proof Hth as Hth0. unfold thread_ok in Hth0.
    destruct (currentSession th) as [p|], (currentSessionRef th) as [r|]; try done; [|by eexists _, _, _].
    destruct Hth0 as [<- Hin]. destruct (context_is_defined t sp r id Hr Hin) as (b & -> & _). cbn [mbind outcome_bind].
    destruct b; [|by eexists _, _, _].
    destruct (release_current_ok th t sp Hr Hfit Hth) as (t1 & sp1 & -> & Hr1 & Hfit1 & _). by eexists _, _, _. }
  cbn [mbind outcome_bind]. destruct Hfit1 as [Hs1 _].
  destruct (delete_refines t1 sp1 id Hr1) as (t2 & b & -> & Hr2 & _); [lia|]. cbn [mbind outcome_bind].
  eexists _, _, _. split_and!; [done..|]. apply lookup_delete_eq.
Qed.
End switching.

(** ** The command [sh] *)

Record streams := Streams { thread_stdin : FILE; thread_stdout : FILE; thread_stderr : FILE }.

Local Existing Instance session_resources.

(** The session of [sh] uses the streams of the thread. *)
Definition use_streams (ss : streams) (p : ptr) (t : table) : outcome table :=
  s ← deref p t;
  let sp := session_params s in
  Ret (set_session p (Session (ref_count s) (is_destroying s) (Some sh_session)
    (SP (thread_stdin ss) (thread_stdout ss) (thread_stderr ss) (sp_tty sp) (commandName sp)
        (cancel_pipe_read_fd sp) (cancel_pipe_write_fd sp))) t).

(** [sh_main] from the point where it has several commands to its loop: [None]
    when it refuses to run.  [busy] tells whether the last thread of a session of
    [sh] that exists is another one than this. *)
Definition sh_enter (m : memory) (busy : ptr → bool) (ss : streams) (th : thread) (t : table)
    : outcome (table * option thread) :=
  '(t, r) ← ios_session_get m sh_session t;
  let running := match r with Some r => busy (ref_session r) | None => false end in
  t ← ios_session_release r t;
  if running then Ret (t, None)
  else
    match currentSession th with
    | None => Undef NullDeref
    | Some p =>
        inside ← context_is p sh_session t;
        if inside : bool then Ret (t, None)
        else
          let th := Thread (Some p) (currentSessionRef th)
                      (match parentSession th with None => Some p | q => q end) in
          '(t, th) ← ios_switchSession m sh_session th t;
          match currentSession th with
          | None => Undef NullDeref
          | Some p => t ← use_streams ss p t; Ret (t, Some th)
          end
    end.

(** The end of [sh_main]. *)
Definition sh_leave (th : thread) (t : table) : outcome (table * thread) :=
  '(t, th) ← ios_closeSession sh_session th t;
  Ret (t, Thread (parentSession th) (currentSessionRef th) None).

(** A thread of the application that runs [sh] with several commands in session
    7, with an output of its own. *)
Definition app_streams : streams := Streams (Standard 0) (Opened 5) (Standard 2).
Definition app_resources : resource := Resource ∅ {[ 5 ]} 0 [].

Definition sh_command (th : thread) (t : table) : outcome (table * thread) :=
  '(t, inner) ← sh_enter all_memory (λ _, false) app_streams th t;
  match inner with Some th => sh_leave th t | None => Ret (t, th) end.

Definition sh_run : outcome (table * thread) :=
  '(t, th) ← ios_switchSession all_memory 7 (Thread None None None) (session_table_init app_resources);
  sh_command th t.

(** After [sh] the thread is back in its session without a reference to it:
    when another thread closes the session, the thread is left with a session
    that has been freed. *)
Theorem sh_drops_reference :
  match sh_run with
  | Ret (t, th) =>
      currentSession th = Some 0 ∧ currentSessionRef th = None ∧ ref_count <$> (heap t !! 0) = Some 0%Z ∧
      match ios_session_delete 7 t with
      | Ret (t, found) => found = true ∧ context_is 0 7 t = Undef UseAfterFree
      | Undef _ => False
      end
  | Undef _ => False
  end.
Proof. vm_compute. repeat split. Qed.

(** A thread in session 7 that another thread deletes: switching to 7 leaves the
    thread in the deleted session, which the reference alone keeps in memory. *)
Definition deleted_run : outcome (table * thread) :=
  '(t, th) ← ios_switchSession all_memory 7 (Thread None None None) (session_table_init app_resources);
  '(t, _) ← ios_session_delete 7 t;
  ios_switchSession all_memory 7 th t.

Theorem stays_in_deleted :
  match deleted_run with
  | Ret (t, th) => currentSession th = Some 0 ∧ is_destroying <$> (heap t !! 0) = Some true ∧
      match ios_session_get all_memory 7 t with Ret (_, r) => r = None | Undef _ => False end
  | Undef _ => False
  end.
Proof. vm_compute. repeat split. Qed.

(** The output of the caller was open before, and the end of [sh] has closed it. *)
Theorem sh_closes_streams :
  5 ∈ files app_resources ∧
  match sh_run with Ret (t, _) => 5 ∉ files (held t) | Undef _ => False end.
Proof. split; [by vm_compute|]. vm_compute. by intros [=]. Qed.

(** ** Concrete threads *)


Lemma close_keeps_thread_witness : ∃ t' th' sp',
  ios_closeSession 7 (Thread None None None) empty_table = Ret (t', th') ∧
  refines t' sp' ∧ thread_ok th' sp' ∧ live sp' !! 7%Z = None.
Proof.
  apply (close_keeps_thread (Thread None None None) empty_table (Spec ∅ ∅)); [|by split|done].
  apply init_refines, no_resources_owned.
Defined.
