(* ===== verification/SessionRace.v ===== *)
(** * Concurrent use of one session ([src/ios_session_manager.m])

    The functions of [SessionManager] by the steps between which other threads
    can run, for the entries of one identifier.  A look-up and the marking of
    [ios_session_delete] hold the bucket's lock for reading, so several threads
    can be there at a time; the code under the lock for writing is one step,
    taken when nobody holds the lock.  References are counted without a lock (and
    here without the width of the counter, which [SessionManager] has).
    - Without deletions the table is right under all interleavings: concurrent
      calls of [ios_session_get_or_create] agree on one session, and its counter
      is the number of references ([created_once]).
    - With deletions the check of the counter and the free are not atomic with
      respect to look-ups and releases: [get_races_delete],
      [release_races_delete], [delete_races_create] lead to freed memory. *)

From S2P Require Import Prelude.

Definition address := nat.

Record object := Object { object_refs : Z; object_destroying : bool }.

(** Where a thread is. *)
Inductive place : Set :=
  | Outside
  | GetFound (p : address)        (* read lock held: found usable, about to count the reference *)
  | GetCounted (p : address)      (* read lock held: about to unlock *)
  | CreateMiss                    (* found nothing: about to take the write lock *)
  | Holding (p : address)         (* back from the call with a reference *)
  | ReleaseLast (p : address)     (* the counter was 1: about to look at the mark *)
  | ReleaseFree (p : address)     (* the mark was set: about to take the write lock *)
  | DeleteMarked (p : address)    (* read lock held: marked, about to look at the counter *)
  | DeleteFree.                   (* the counter was 0: about to take the write lock *)
Global Instance place_eq_dec : EqDecision place.
Proof. solve_decision. Defined.

(** The entries of the identifier in their order, the sessions, the number of
    threads that hold the lock for reading. *)
Record state := State {
  chain : list address;
  objects : gmap address object;
  readers : nat;
  threads : list place }.

Definition set_place (i : nat) (pl : place) (s : state) : state :=
  State (chain s) (objects s) (readers s) (<[i := pl]> (threads s)).
Definition set_object (p : address) (o : object) (s : state) : state :=
  State (chain s) (<[p := o]> (objects s)) (readers s) (threads s).
Definition set_readers (n : nat) (s : state) : state :=
  State (chain s) (objects s) n (threads s).

(** An access to a session, which must not have been freed. *)
Definition access (p : address) (s : state) (k : object → outcome state) : outcome state :=
  match objects s !! p with Some o => k o | None => Undef UseAfterFree end.

(** The first step of [ios_session_get] and [ios_session_get_or_create]. *)
Definition get_start (create : bool) (i : nat) (s : state) : outcome state :=
  let miss := set_place i (if create then CreateMiss else Outside) s in
  match chain s with
  | [] => Ret miss
  | p :: _ =>
      access p s (λ o,
        if object_destroying o then Ret miss
        else Ret (set_readers (S (readers s)) (set_place i (GetFound p) s)))
  end.

(** The part of [ios_session_get_or_create] under the write lock; [fresh] is
    the address of the new session. *)
Definition create_locked (i : nat) (fresh : address) (s : state) : outcome state :=
  let create :=
    State (fresh :: chain s) (<[fresh := Object 1 false]> (objects s)) (readers s) (<[i := Holding fresh]> (threads s)) in
  match chain s with
  | [] => Ret create
  | p :: _ =>
      access p s (λ o,
        if object_destroying o then Ret create
        else Ret (set_place i (Holding p) (set_object p (Object (object_refs o + 1) false) s)))
  end.

(** The first step of [ios_session_release]. *)
Definition release_start (i : nat) (p : address) (s : state) : outcome state :=
  access p s (λ o,
    let s := set_object p (Object (object_refs o - 1) (object_destroying o)) s in
    if bool_decide (0 < object_refs o)%Z
    then Ret (set_place i (if bool_decide (object_refs o = 1)%Z then ReleaseLast p else Outside) s)
    else Undef AssertFailed).

(** Taking session [p] out of the chain and freeing it. *)
Definition remove_session (i : nat) (p : address) (s : state) : outcome state :=
  access p s (λ _,
    Ret (State (filter (λ q, q ≠ p) (chain s)) (delete p (objects s)) (readers s) (<[i := Outside]> (threads s)))).

Definition delete_start (i : nat) (s : state) : outcome state :=
  match chain s with
  | [] => Ret s
  | p :: _ =>
      access p s (λ o,
        Ret (set_readers (S (readers s)) (set_place i (DeleteMarked p) (set_object p (Object (object_refs o) true) s))))
  end.

Inductive event : Set :=
  | Get (i : nat) (create : bool)
  | Release (i : nat)
  | Delete (i : nat)
  | Go (i : nat) (fresh : address).

(** The next step of thread [i]; the write lock is free when nobody reads. *)
Definition go (i : nat) (fresh : address) (s : state) : option (outcome state) :=
  let write_lock (r : outcome state) := if bool_decide (readers s = 0) then Some r else None in
  match threads s !! i with
  | Some (GetFound p) =>
      Some (access p s (λ o,
        Ret (set_place i (GetCounted p) (set_object p (Object (object_refs o + 1) (object_destroying o)) s))))
  | Some (GetCounted p) => Some (Ret (set_readers (readers s - 1) (set_place i (Holding p) s)))
  | Some CreateMiss =>
      if bool_decide (is_Some (objects s !! fresh)) then None else write_lock (create_locked i fresh s)
  | Some (ReleaseLast p) =>
      Some (access p s (λ o, Ret (set_place i (if object_destroying o then ReleaseFree p else Outside) s)))
  | Some (ReleaseFree p) =>
      write_lock (if bool_decide (p ∈ chain s) then remove_session i p s else Ret (set_place i Outside s))
  | Some (DeleteMarked p) =>
      Some (access p s (λ o,
        Ret (set_readers (readers s - 1)
               (set_place i (if bool_decide (0 < object_refs o)%Z then Outside else DeleteFree) s))))
  | Some DeleteFree =>
      write_lock (match chain s with p :: _ => remove_session i p s | [] => Ret (set_place i Outside s) end)
  | _ => None
  end.

(** A step of a program that has not run into undefined behaviour. *)
Definition step (e : event) (st : outcome state) : option (outcome state) :=
  match st with
  | Undef _ => None
  | Ret s =>
      match e with
      | Get i create =>
          match threads s !! i with Some Outside => Some (get_start create i s) | _ => None end
      | Release i =>
          match threads s !! i with Some (Holding p) => Some (release_start i p s) | _ => None end
      | Delete i =>
          match threads s !! i with Some Outside => Some (delete_start i s) | _ => None end
      | Go i fresh => go i fresh s
      end
  end.

Definition start (n : nat) : outcome state := Ret (State [] ∅ 0 (replicate n Outside)).

(** ** Races of deletions *)

(** Two threads, and a session 0 without references. *)
Definition created : list event := [Get 0 true; Go 0 0; Release 0; Go 0 0].

(** A look-up has found the session usable and has not counted its reference
    when the other thread deletes: it is freed, and the caller of
    [ios_session_get] has a reference to it. *)
Theorem get_races_delete :
  ∃ s, run step (created ++ [Get 0 false; Delete 1; Go 1 0; Go 0 0; Go 0 0; Go 1 0]) (start 2) = Some (Ret s) ∧
    threads s = [Holding 0; Outside] ∧ objects s = ∅ ∧
    step (Release 0) (Ret s) = Some (Undef UseAfterFree).
Proof. eexists. split; [by vm_compute|]. split; [done|]. split; [by vm_compute|by vm_compute]. Qed.

(** The last reference is released, and before the thread looks at the mark the
    other thread deletes the session. *)
Theorem release_races_delete :
  run step [Get 0 true; Go 0 0; Release 0; Delete 1; Go 1 0; Go 1 0; Go 0 0] (start 2) = Some (Undef UseAfterFree).
Proof. by vm_compute. Qed.

(** Between the check of the counter and the free, one thread has deleted the
    session as well and another one has created it anew: the new session is
    freed while it is referenced. *)
Theorem delete_races_create :
  ∃ s, run step (created ++ [Delete 0; Delete 1; Go 0 0; Go 1 0; Go 0 0; Get 2 true; Go 2 1; Go 1 0]) (start 3) = Some (Ret s) ∧
    threads s = [Outside; Outside; Holding 1] ∧ objects s = ∅.
Proof. eexists. split; [by vm_compute|]. split; [done|by vm_compute]. Qed.

(** ** Without deletions *)

Definition step_keep (e : event) (st : outcome state) : option (outcome state) :=
  match e with Delete _ => None | _ => step e st end.

(** Counted references of a thread. *)
Definition counted (pl : place) : nat := match pl with GetCounted _ | Holding _ => 1 | _ => 0 end.
Definition references (s : state) : nat := sum_list_with counted (threads s).

(** Where a thread can be when [p] is the only session, and when there is none. *)
Definition place_ok (p : option address) (pl : place) : Prop :=
  match pl with
  | Outside | CreateMiss => True
  | GetFound q | GetCounted q | Holding q | ReleaseLast q => p = Some q
  | _ => False
  end.

Record keep_inv (p : option address) (s : state) : Prop := {
  ki_chain : chain s = match p with Some p => [p] | None => [] end;
  ki_objects : objects s = match p with Some p => {[ p := Object (Z.of_nat (references s)) false ]} | None => ∅ end;
  ki_threads : ∀ i pl, threads s !! i = Some pl → place_ok p pl }.

Lemma references_move i pl pl' s : threads s !! i = Some pl →
  sum_list_with counted (<[i := pl']> (threads s)) + counted pl = references s + counted pl'.
Proof. apply sum_list_with_insert. Qed.

(** A thread moves and the counter of the session follows. *)
Lemma keep_move p i pl pl' s o n : keep_inv (Some p) s → threads s !! i = Some pl → place_ok (Some p) pl' →
  o = Object (Z.of_nat (references s) + Z.of_nat (counted pl') - Z.of_nat (counted pl)) false →
  keep_inv (Some p) (State (chain s) (<[p := o]> (objects s)) n (<[i := pl']> (threads s))).
Proof.
  intros [Hc Ho Ht] Hi Hpl ->. pose proof (references_move i pl pl' s Hi) as Hm. split; [done| |].
  - simpl. rewrite Ho, insert_singleton_eq. unfold references at 2. simpl. do 2 f_equal. lia.
  - simpl. by apply (insert_forall _ _ _ (λ _, place_ok (Some p))); [|intros j y _; apply Ht].
Qed.

(** The same when the session is not touched. *)
Lemma keep_stay p i pl pl' s n : keep_inv p s → threads s !! i = Some pl → place_ok p pl' → counted pl' = counted pl →
  keep_inv p (State (chain s) (objects s) n (<[i := pl']> (threads s))).
Proof.
  intros [Hc Ho Ht] Hi Hpl Hcnt. pose proof (references_move i pl pl' s Hi) as Hm. split; [done| |].
  - simpl. rewrite Ho. destruct p; [|done]. unfold references at 2. simpl. do 2 f_equal. lia.
  - simpl. by apply (insert_forall _ _ _ (λ _, place_ok p)); [|intros j y _; apply Ht].
Qed.

Lemma keep_get p create i s : keep_inv p s → threads s !! i = Some Outside →
  ∃ s', get_start create i s = Ret s' ∧ keep_inv p s'.
Proof.
  intros Hinv Hi. pose proof Hinv as [Hc Ho Ht]. unfold get_start. rewrite Hc. destruct p as [p|].
  - unfold access. rewrite Ho, lookup_singleton_eq. simpl. eexists. split; [done|].
    by apply (keep_stay (Some p) i Outside (GetFound p) s).
  - eexists. split; [done|].
    by apply (keep_stay None i Outside (if create then CreateMiss else Outside) s); [..|destruct create|destruct create].
Qed.

Lemma keep_create p fresh i s : keep_inv p s → threads s !! i = Some CreateMiss →
  ∃ s' q, create_locked i fresh s = Ret s' ∧ keep_inv (Some q) s'.
Proof.
  intros Hinv Hi. pose proof Hinv as [Hc Ho Ht]. unfold create_locked. rewrite Hc. destruct p as [p|].
  - unfold access. rewrite Ho, lookup_singleton_eq. simpl. eexists _, p. split; [done|].
    apply (keep_move p i CreateMiss (Holding p) s); [done..|]. f_equal. simpl. lia.
  - eexists _, fresh. split; [done|]. split; simpl; [by rewrite ?Hc| |].
    + rewrite Ho. assert (references s = 0) as Hr.
      { unfold references. clear -Ht. induction (threads s) as [|pl l IH]; [done|]. simpl.
        assert (place_ok None pl) as Hpl by by apply (Ht 0). rewrite IH by (intros j pl' Hj; by apply (Ht (S j))).
        by destruct pl. }
      pose proof (references_move i CreateMiss (Holding fresh) s Hi) as Hm. rewrite Hr in Hm. simpl in Hm.
      unfold references. simpl. rewrite insert_empty. do 2 f_equal. lia.
    + apply (insert_forall _ _ _ (λ _, place_ok (Some fresh))); [done|]. intros j pl _ Hj. specialize (Ht j pl Hj).
      by destruct pl.
Qed.

Lemma keep_release p q i s : keep_inv p s → threads s !! i = Some (Holding q) →
  ∃ s', release_start i q s = Ret s' ∧ keep_inv p s'.
Proof.
  intros Hinv Hi. pose proof Hinv as [Hc Ho Ht]. pose proof (Ht i _ Hi) as Hq. simpl in Hq. subst p.
  unfold release_start, access. rewrite Ho, lookup_singleton_eq. simpl.
  assert (0 < references s) as Hpos.
  { pose proof (sum_list_with_lookup counted (threads s) i _ Hi) as Hl. simpl in Hl. unfold references. lia. }
  rewrite bool_decide_eq_true_2 by lia. eexists. split; [done|].
  apply (keep_move q i (Holding q) _ s); [done..| |].
  - by case_bool_decide.
  - f_equal. case_bool_decide; simpl; lia.
Qed.

Lemma keep_go p i fresh s r : keep_inv p s → go i fresh s = Some r → ∃ s' q, r = Ret s' ∧ keep_inv q s'.
Proof.
  intros Hinv Hgo. pose proof Hinv as [Hc Ho Ht]. unfold go in Hgo.
  destruct (threads s !! i) as [pl|] eqn:Hi; [|done]. pose proof (Ht i pl Hi) as Hpl.
  destruct pl as [|q|q| |q|q|q|q|]; try done; simpl in Hpl; subst.
  - unfold access in Hgo. rewrite Ho, lookup_singleton_eq in Hgo. simplify_eq/=. eexists _, (Some q). split; [done|].
    apply (keep_move q i (GetFound q) (GetCounted q) s); [done..|]. f_equal. simpl. lia.
  - simplify_eq/=. eexists _, _. split; [done|]. by apply (keep_stay (Some q) i (GetCounted q) (Holding q) s).
  - repeat case_bool_decide; try done. simplify_eq.
    destruct (keep_create p fresh i s Hinv Hi) as (s' & q & -> & Hq). eauto.
  - unfold access in Hgo. rewrite Ho, lookup_singleton_eq in Hgo. simplify_eq/=. eexists _, _. split; [done|].
    by apply (keep_stay (Some q) i (ReleaseLast q) Outside s).
Qed.

(** C6: As long as nobody deletes, in every interleaving of any number of threads
    that look up, create and release: nothing is undefined, at most one session
    is created, every thread that has a reference has one to this session, and
    the session's counter is the number of references. *)
Theorem created_once n st : reachable step_keep (λ st, st = start n) st →
  ∃ s, st = Ret s ∧
    ((chain s = [] ∧ ∀ i p, threads s !! i ≠ Some (Holding p)) ∨
     ∃ p, chain s = [p] ∧ objects s = {[ p := Object (Z.of_nat (references s)) false ]} ∧
       ∀ i q, threads s !! i = Some (Holding q) → q = p).
Proof.
  intros Hr. assert (∃ s p, st = Ret s ∧ keep_inv p s) as (s & p & -> & [Hc Ho Ht]).
  { revert st Hr. apply reachable_invariant.
    - intros st ->. eexists _, None. split; [done|]. split; [done..|]. by intros i pl [-> _]%lookup_replicate.
    - intros e st st' (s & p & -> & Hinv) Hstep. destruct e as [i c|i|i|i f]; simpl in Hstep; try done.
      + destruct (threads s !! i) as [[]|] eqn:Hi; simplify_eq. destruct (keep_get p c i s Hinv Hi) as (s' & -> & ?). eauto.
      + destruct (threads s !! i) as [[]|] eqn:Hi; simplify_eq.
        destruct (keep_release _ _ i s Hinv Hi) as (s' & -> & ?). eauto.
      + destruct (keep_go p i f s st' Hinv Hstep) as (s' & q & -> & ?). eauto. }
  exists s. split; [done|]. destruct p as [p|]; [right|left].
  - exists p. split_and!; [done..|]. intros i q Hi. pose proof (Ht i _ Hi) as Hq. simpl in Hq. congruence.
  - split; [done|]. intros i q Hi. by pose proof (Ht i _ Hi).
Qed.

(** Two threads that find no session: the second one to get the lock uses the
    session of the first. *)
Definition both_created : state := State [4] {[ 4 := Object 2 false ]} 0 [Holding 4; Holding 4].

Lemma created_once_witness :
  run step_keep [Get 0 true; Get 1 true; Go 1 4; Go 0 9] (start 2) = Some (Ret both_created) ∧
  ∃ s, Ret both_created = Ret s ∧
    ((chain s = [] ∧ ∀ i p, threads s !! i ≠ Some (Holding p)) ∨
     ∃ p, chain s = [p] ∧ objects s = {[ p := Object (Z.of_nat (references s)) false ]} ∧
       ∀ i q, threads s !! i = Some (Holding q) → q = p).
Proof.
  split; [by vm_compute|]. apply (created_once 2).
  apply (run_reachable step_keep _ [Get 0 true; Get 1 true; Go 1 4; Go 0 9] (start 2)); [by apply reachable_init|].
  by vm_compute.
Defined.
