(* ===== verification/Arguments.v ===== *)
(** * Words of a command line ([src/ios_system.m])

    [ios_execv] makes a line of its arguments with [concatenateArgv], and
    [ios_system] takes a line apart again: [getLastCharacterOfArgument] finds
    the end of a word, [unquoteArgument] removes its quotes, the loop in
    [ios_system] collects the words in an array sized by the number of spaces.
    - The line is the list of its characters and the code's pointers are
      offsets; functions that rewrite the line return it.  What follows the loop
      (variables, [~] and wildcards in words that were not quoted) is not
      modelled.
    - Theorems: taking the line of [concatenateArgv] apart gives the arguments
      back when none of them ends with a backslash ([arguments_roundtrip]); the
      buffer of [concatenateArgv] is large enough ([concatenate_fits]); the
      loop ends and stays within its array on all lines without record
      separators that are not an [alias] command ([split_defined]).
    - [alias ll=ls -l] writes behind the array ([alias_overruns]); a backslash at
      the end of an argument swallows the next one ([backslash_swallows]); of
      the two quotes only the single one can be written inside itself
      ([nested_double_quote]). *)

From S2P Require Import Prelude Quoting.
From Stdlib Require Import Ascii.

Definition RECORD_SEPARATOR : ascii := ascii_of_nat 30.

(** ** Making a line *)

(** An argument with what is put around it. *)
Definition enclose (arg : text) : text :=
  if bool_decide (DQUOTE ∉ arg) then SPACE :: DQUOTE :: arg ++ [DQUOTE]
  else if bool_decide (SQUOTE ∉ arg) then SPACE :: SQUOTE :: arg ++ [SQUOTE]
  else if bool_decide (RECORD_SEPARATOR ∉ arg) then SPACE :: RECORD_SEPARATOR :: arg ++ [RECORD_SEPARATOR]
  else SPACE :: arg.

Definition concatenateArgv (argv : list text) : option text :=
  match argv with
  | [] => None
  | command :: args => Some (command ++ concat (enclose <$> args))
  end.

(** The size of its buffer. *)
Definition concatenate_size (argv : list text) : nat :=
  sum_list_with (λ a, length a + 1) argv + 3 * length argv + 1.

(** ** The end of a word *)

(** Backslashes from offset [k] backwards, not counting offset 0. *)
Fixpoint count_back (str : text) (k : nat) : nat :=
  match k with
  | 0 => 0
  | S k' => if bool_decide (str !! k = Some BACKSLASH) then S (count_back str k') else 0
  end.

Definition escaped (str : text) (n : nat) : bool :=
  bool_decide (1 < n) && bool_decide (str !! (n - 1) = Some BACKSLASH) && Nat.odd (count_back str (n - 1)).

(** The occurrences of [c] in [rest], which is [str] from offset [n]. *)
Fixpoint next_unescaped (str : text) (c : ascii) (rest : text) (n : nat) : option nat :=
  match rest with
  | [] => None
  | x :: rest =>
      if bool_decide (x = c) && negb (escaped str n) then Some n else next_unescaped str c rest (S n)
  end.

Definition nextUnescapedCharacter (str : text) (c : ascii) : option nat :=
  if bool_decide (str !! 0 = Some BACKSLASH ∧ str !! 1 = Some c)
  then next_unescaped str c (drop 2 str) 2
  else next_unescaped str c str 0.

Definition shift (k : nat) (n : option nat) : option nat := (λ n, k + n) <$> n.

(** [strchr]. *)
Fixpoint strchr (str : text) (c : ascii) : option nat :=
  match str with
  | [] => None
  | x :: str => if bool_decide (x = c) then Some 0 else S <$> strchr str c
  end.

(** A word that starts with the quote [q]: [again] is the call of
    [getLastCharacterOfArgument] on the rest of the line from the second quote,
    after the three characters of a quote inside quotes have been removed.  For
    a double quote the code skips the character after them as well. *)
Definition quoted_end (q : ascii) (again : text → outcome (text * option nat)) (argument : text)
    : outcome (text * option nat) :=
  match shift 1 (nextUnescapedCharacter (drop 1 argument) q) with
  | None => Ret (argument, None)
  | Some e =>
      let rest := drop e argument in
      if bool_decide (length rest ≤ 1) then Ret (argument, Some (e + 1))
      else if bool_decide (rest !! 1 = Some SPACE) then Ret (argument, Some (e + 1))
      else if bool_decide (take 3 rest = [q; BACKSLASH; q]) then
        let before := take e argument in
        let tail := drop 3 rest in
        let skipped := if bool_decide (q = DQUOTE) then take 1 tail else [] in
        if bool_decide (q = DQUOTE) && bool_decide (tail = []) then Ret (before, None)
        else
          '(tail', n) ← again (drop (length skipped) tail);
          Ret (before ++ skipped ++ tail', shift (e + length skipped) n)
      else Ret (argument, shift (e + 1) (nextUnescapedCharacter (drop (e + 1) argument) SPACE))
  end.

Fixpoint getLastCharacterOfArgument (fuel : nat) (argument : text) : outcome (text * option nat) :=
  match fuel with
  | 0 => Undef OutOfFuel
  | S fuel =>
      match argument with
      | [] => Ret (argument, None)
      | c :: rest =>
          if bool_decide (c = DQUOTE) then quoted_end DQUOTE (getLastCharacterOfArgument fuel) argument
          else if bool_decide (c = SQUOTE) then quoted_end SQUOTE (getLastCharacterOfArgument fuel) argument
          else if bool_decide (c = RECORD_SEPARATOR) then
            match strchr rest RECORD_SEPARATOR with
            | None => Ret (argument, None)
            | Some e => Ret (argument, Some (e + 2))
            end
          else Ret (argument, shift 1 (nextUnescapedCharacter rest SPACE))
      end
  end.

(** ** Quotes of a word *)

(** [\x] becomes [x]. *)
Fixpoint remove_backslashes (argument : text) : text :=
  match argument with
  | [] => []
  | c :: rest =>
      if bool_decide (c = BACKSLASH) then
        match rest with [] => [] | x :: rest => x :: remove_backslashes rest end
      else c :: remove_backslashes rest
  end.

Definition surrounded (q : ascii) (argument : text) : bool :=
  bool_decide (head argument = Some q) && bool_decide (list.last argument = Some q).

(** The text between the first and the last character: nothing when they are
    the same one. *)
Definition inner (argument : text) : text := drop 1 (take (length argument - 1) argument).

Definition unquoteArgument (argument : text) : text :=
  if surrounded DQUOTE argument || surrounded SQUOTE argument || surrounded RECORD_SEPARATOR argument
  then inner argument else remove_backslashes argument.

(** ** The words of a line *)

Definition num_spaces (str : text) : nat := length (filter (λ c, c = SPACE) str).

Definition EQUALS : ascii := ascii_of_nat 61.

(** The second word of [alias name=value], with the equal sign replaced when a
    space comes after it. *)
Definition alias_word (str : text) : text :=
  match strchr str EQUALS, strchr str SPACE with
  | Some e, Some s => if bool_decide (e < s) then <[e := SPACE]> str else str
  | _, _ => str
  end.

(** The loop.  [argv] has [room] entries, one of which is for the final NULL. *)
Fixpoint split_loop (fuel room : nat) (str : text) (argv : list text) : outcome (list text) :=
  match fuel with
  | 0 => Undef OutOfFuel
  | S fuel =>
      if bool_decide (str = []) then Ret argv
      else if bool_decide (room ≤ length argv) then Undef OutOfBounds
      else
        let second := bool_decide (length argv = 1) in
        if second && bool_decide (argv !! 0 = Some (chars "export")) then Ret (argv ++ [str])
        else
          let str := if second && bool_decide (argv !! 0 = Some (chars "alias")) then alias_word str else str in
          '(str, e) ← getLastCharacterOfArgument (length str + 1) str;
          match e with
          | Some e =>
              if bool_decide (e < length str) then
                let argv := argv ++ [unquoteArgument (take e str)] in
                if bool_decide (length argv < room) then
                  split_loop fuel room (skip_while (λ c, bool_decide (c = SPACE)) (drop (e + 1) str)) argv
                else Undef AssertFailed
              else Ret (argv ++ [unquoteArgument str])
          | None => Ret (argv ++ [unquoteArgument str])
          end
  end.

(** The words of a command, with the final [argv[argc] = NULL]. *)
Definition split_arguments (command : text) : outcome (list text) :=
  let room := num_spaces command + 2 in
  argv ← split_loop (length command + 1) room command [];
  if bool_decide (length argv < room) then Ret argv else Undef OutOfBounds.

(** ** The buffer of [concatenateArgv] *)

Lemma length_enclose a : length (enclose a) ≤ length a + 3.
Proof. unfold enclose. repeat case_bool_decide; simpl; rewrite ?length_app; simpl; lia. Qed.

(** The line and its terminator fit. *)
Theorem concatenate_fits argv cmd : concatenateArgv argv = Some cmd → length cmd + 1 ≤ concatenate_size argv.
Proof.
  destruct argv as [|c args]; intros Hc; [done|]. injection Hc as <-. unfold concatenate_size.
  rewrite length_app. cbn [sum_list_with length].
  assert (length (concat (enclose <$> args)) ≤ sum_list_with (λ a, length a + 1) args + 2 * length args) as H; [|lia].
  induction args as [|a args IH]; [simpl; lia|]. cbn [fmap list_fmap concat sum_list_with length]. rewrite length_app. pose proof (length_enclose a). lia.
Qed.

Lemma concatenate_fits_witness : length (chars "ls " ++ DQUOTE :: chars "a b" ++ [DQUOTE]) + 1 ≤ concatenate_size [chars "ls"; chars "a b"].
Proof. apply concatenate_fits. by vm_compute. Defined.

(** ** Words *)

Lemma next_unescaped_skip str c a rest n : c ∉ a →
  next_unescaped str c (a ++ rest) n = next_unescaped str c rest (n + length a).
Proof.
  revert n. induction a as [|x a IH]; intros n Hc; simpl; [f_equal; lia|].
  apply not_elem_of_cons in Hc as [Hx Ha]. rewrite bool_decide_eq_false_2 by done. simpl.
  rewrite IH by done. f_equal. lia.
Qed.

(** The first occurrence of [q] ends a word that has no [q] and does not end with
    a backslash. *)
Lemma nextUnescaped_first a q rest : q ≠ BACKSLASH → q ∉ a → list.last a ≠ Some BACKSLASH →
  nextUnescapedCharacter (a ++ q :: rest) q = Some (length a).
Proof.
  intros Hq Ha Hl. unfold nextUnescapedCharacter. rewrite bool_decide_eq_false_2.
  - rewrite next_unescaped_skip by done. simpl. rewrite bool_decide_eq_true_2 by done. simpl.
    destruct (escaped (a ++ q :: rest) (length a)) eqn:He; [|done]. unfold escaped in He.
    apply andb_prop in He as [[Hlt%bool_decide_eq_true Hb%bool_decide_eq_true]%andb_prop _].
    rewrite lookup_app_l in Hb by lia. destruct Hl. rewrite last_lookup. by replace (pred (length a)) with (length a - 1) by lia.
  - intros [H0 H1]. destruct a as [|x [|y a]]; simplify_eq/=.
    apply not_elem_of_cons in Ha as [_ Ha]. apply not_elem_of_cons in Ha as [Ha _]. done.
Qed.

Lemma nextUnescaped_none str c : c ∉ str → nextUnescapedCharacter str c = None.
Proof.
  intros Hc. unfold nextUnescapedCharacter.
  assert (∀ l n, c ∉ l → next_unescaped str c l n = None) as Hn.
  { intros l n Hl. pose proof (next_unescaped_skip str c l [] n Hl) as H. by rewrite app_nil_r in H. }
  case_bool_decide; apply Hn; [|done]. intros Hin. apply Hc. rewrite <- (take_drop 2 str). apply elem_of_app. by right.
Qed.

Lemma unquote_enclosed q a : q = DQUOTE ∨ q = SQUOTE ∨ q = RECORD_SEPARATOR → unquoteArgument (q :: a ++ [q]) = a.
Proof.
  intros Hq. unfold unquoteArgument, inner. assert (surrounded q (q :: a ++ [q]) = true) as Hs.
  { unfold surrounded. simpl. rewrite bool_decide_eq_true_2 by done. simpl. apply bool_decide_eq_true_2.
    rewrite app_comm_cons. by rewrite last_snoc. }
  assert ((surrounded DQUOTE (q :: a ++ [q]) || surrounded SQUOTE (q :: a ++ [q]) || surrounded RECORD_SEPARATOR (q :: a ++ [q])) = true) as ->.
  { destruct Hq as [-> |[-> | ->]]; rewrite Hs, ?orb_true_r; done. }
  simpl length. rewrite length_app. simpl. replace (length a + 1 - 0) with (S (length a)) by lia. simpl.
  by rewrite take_app_length.
Qed.

Lemma strchr_first a q rest : q ∉ a → strchr (a ++ q :: rest) q = Some (length a).
Proof.
  induction a as [|x a IH]; intros Ha; simpl; [by rewrite bool_decide_eq_true_2|].
  apply not_elem_of_cons in Ha as [Hx Ha]. rewrite bool_decide_eq_false_2 by done. by rewrite IH.
Qed.

(** An argument that can be enclosed. *)
Record arg_ok (a : text) : Prop := {
  ao_last : list.last a ≠ Some BACKSLASH;
  ao_quote : DQUOTE ∉ a ∨ SQUOTE ∉ a ∨ RECORD_SEPARATOR ∉ a }.

(** The rest of a line after an argument. *)
Definition word_end (rest : text) : Prop := rest = [] ∨ head rest = Some SPACE.

Lemma quoted_end_closed q again a rest : q ≠ BACKSLASH → q ∉ a → list.last a ≠ Some BACKSLASH → word_end rest →
  quoted_end q again (q :: a ++ q :: rest) = Ret (q :: a ++ q :: rest, Some (length a + 2)).
Proof.
  intros Hq Ha Hl Hr. unfold quoted_end. change (drop 1 (q :: a ++ q :: rest)) with (a ++ q :: rest).
  rewrite nextUnescaped_first by done. cbn [shift fmap option_fmap option_map].
  change (q :: a ++ q :: rest) with ((q :: a) ++ q :: rest). rewrite (drop_app_length' (q :: a)) by done.
  destruct Hr as [->|Hr]; simpl.
  - do 3 f_equal. lia.
  - destruct rest as [|x rest]; [done|]. simplify_eq/=. do 3 f_equal. lia.
Qed.

(** An enclosed argument ends where it was closed. *)
Lemma getLast_enclosed fuel a rest : arg_ok a → word_end rest →
  ∃ q, enclose a = SPACE :: q :: a ++ [q] ∧ q ≠ SPACE ∧ unquoteArgument (q :: a ++ [q]) = a ∧
    getLastCharacterOfArgument (S fuel) (q :: a ++ q :: rest) = Ret (q :: a ++ q :: rest, Some (length a + 2)).
Proof.
  intros [Hl Hq] Hr. unfold enclose. case_bool_decide as H1.
  { exists DQUOTE. split_and!; [done..|apply unquote_enclosed; auto|]. simpl. by apply quoted_end_closed. }
  case_bool_decide as H2.
  { exists SQUOTE. split_and!; [done..|apply unquote_enclosed; auto|]. simpl. by apply quoted_end_closed. }
  rewrite bool_decide_eq_true_2 by tauto. exists RECORD_SEPARATOR.
  split_and!; [done..|apply unquote_enclosed; auto|]. simpl. rewrite strchr_first by tauto. done.
Qed.

(** ** Round trip *)

(** A command name that needs no quotes. *)
Record command_ok (c : text) : Prop := {
  co_nonempty : c ≠ [];
  co_space : SPACE ∉ c;
  co_backslash : BACKSLASH ∉ c;
  co_head : head c ≠ Some DQUOTE ∧ head c ≠ Some SQUOTE ∧ head c ≠ Some RECORD_SEPARATOR;
  co_special : c ≠ chars "export" ∧ c ≠ chars "alias" }.

Lemma remove_backslashes_none a : BACKSLASH ∉ a → remove_backslashes a = a.
Proof.
  induction a as [|x a IH]; intros Ha; simpl; [done|]. apply not_elem_of_cons in Ha as [Hx Ha].
  rewrite bool_decide_eq_false_2 by done. by rewrite IH.
Qed.

Lemma unquote_command c : command_ok c → unquoteArgument c = c.
Proof.
  intros Hc. destruct (co_head c Hc) as (H1 & H2 & H3). unfold unquoteArgument, surrounded.
  rewrite !(bool_decide_eq_false_2 (head c = _)) by done. simpl. apply remove_backslashes_none, Hc.
Qed.

Lemma last_not_backslash a : BACKSLASH ∉ a → list.last a ≠ Some BACKSLASH.
Proof. intros Ha Hl. apply Ha. by apply last_Some_elem_of. Qed.

(** The end of a word without quotes. *)
Lemma getLast_plain fuel c rest : c ≠ [] → SPACE ∉ c → BACKSLASH ∉ c →
  head c ≠ Some DQUOTE → head c ≠ Some SQUOTE → head c ≠ Some RECORD_SEPARATOR → word_end rest →
  getLastCharacterOfArgument (S fuel) (c ++ rest) = Ret (c ++ rest, if decide (rest = []) then None else Some (length c)).
Proof.
  intros Hc Hsp Hb H1 H2 H3 Hr. destruct c as [|x c]; [done|]. simpl in H1, H2, H3. simpl app.
  cbn [getLastCharacterOfArgument]. rewrite !bool_decide_eq_false_2 by congruence.
  apply not_elem_of_cons in Hsp as [_ Hsp]. apply not_elem_of_cons in Hb as [_ Hb].
  destruct Hr as [->|Hr].
  - rewrite app_nil_r, nextUnescaped_none by done. done.
  - destruct rest as [|y rest]; [done|]. simplify_eq/=.
    rewrite nextUnescaped_first; [|done|done|by apply last_not_backslash]. done.
Qed.

(** The end of the command name. *)
Lemma getLast_command fuel c rest : command_ok c → word_end rest →
  getLastCharacterOfArgument (S fuel) (c ++ rest) = Ret (c ++ rest, if decide (rest = []) then None else Some (length c)).
Proof. intros [? ? ? (? & ? & ?) ?] ?. by apply getLast_plain. Qed.

Lemma enclosed_word_end args : word_end (concat (enclose <$> args)).
Proof.
  destruct args as [|a args]; [by left|right]. cbn [fmap list_fmap concat]. unfold enclose.
  repeat case_bool_decide; done.
Qed.

Lemma argv_first (argv : list text) c : argv !! 0 = Some c → argv ≠ [].
Proof. by destruct argv. Qed.

(** The loop from the first argument on. *)
Lemma split_loop_enclosed fuel room c args argv : Forall arg_ok args → args ≠ [] → command_ok c → argv !! 0 = Some c →
  length args < fuel → length argv + length args < room →
  split_loop fuel room (drop 1 (concat (enclose <$> args))) argv = Ret (argv ++ args).
Proof.
  revert fuel argv. induction args as [|a args IH]; intros fuel argv Hargs Hne Hc Hfirst Hfuel Hroom; [done|].
  destruct fuel as [|fuel]; [simpl in Hfuel; lia|]. apply Forall_cons_1 in Hargs as [Ha Hargs].
  destruct (getLast_enclosed (length (concat (enclose <$> args)) + length a + 2) a (concat (enclose <$> args)) Ha
    (enclosed_word_end args)) as (q & He & Hq & Hun & Hlast).
  cbn [fmap list_fmap concat]. rewrite He. cbn [app drop]. rewrite <- app_assoc. cbn [app].
  cbn [split_loop]. rewrite bool_decide_eq_false_2 by done.
  rewrite (bool_decide_eq_false_2 (room ≤ length argv)) by (simpl in Hroom; lia).
  destruct (co_special c Hc) as [Hx Hal].
  rewrite (bool_decide_eq_false_2 (argv !! 0 = Some (chars "export"))) by congruence.
  rewrite (bool_decide_eq_false_2 (argv !! 0 = Some (chars "alias"))) by congruence. rewrite !andb_false_r.
  assert (length (q :: a ++ q :: concat (enclose <$> args)) + 1 = S (length (concat (enclose <$> args)) + length a + 2)) as ->.
  { simpl. rewrite length_app. simpl. lia. }
  rewrite Hlast. cbn [mbind outcome_bind].
  assert (q :: a ++ q :: concat (enclose <$> args) = (q :: a ++ [q]) ++ concat (enclose <$> args)) as Hsplit.
  { simpl. by rewrite <- app_assoc. }
  assert (length (q :: a ++ [q]) = length a + 2) as Hlen by (simpl; rewrite length_app; simpl; lia).
  rewrite Hsplit. rewrite (take_app_length' (q :: a ++ [q])) by done. rewrite Hun.
  destruct args as [|a' args].
  - cbn [fmap list_fmap concat]. rewrite app_nil_r, Hlen. rewrite bool_decide_eq_false_2 by lia. by rewrite Hun.
  - rewrite bool_decide_eq_true_2; [|rewrite length_app, Hlen].
    2: { cbn [fmap list_fmap concat]. unfold enclose at 1. repeat case_bool_decide; simpl; lia. }
    rewrite bool_decide_eq_true_2 by (rewrite length_app; simpl in *; lia).
    rewrite drop_app, Hlen. rewrite drop_ge by (rewrite Hlen; lia). replace (length a + 2 + 1 - (length a + 2)) with 1 by lia.
    cbn [app]. apply Forall_cons_1 in Hargs as [Ha' Hargs'].
    assert (skip_while (λ c, bool_decide (c = SPACE)) (drop 1 (concat (enclose <$> a' :: args))) =
      drop 1 (concat (enclose <$> a' :: args))) as ->.
    { destruct (getLast_enclosed 0 a' [] Ha') as (q' & He' & Hq' & _); [by left|].
      cbn [fmap list_fmap concat]. rewrite He'. simpl. by rewrite bool_decide_eq_false_2. }
    rewrite IH; [by rewrite <- app_assoc|by apply Forall_cons_2|done|done| |simpl in *; lia|].
    + destruct argv; [done|]. by simplify_eq/=.
    + rewrite length_app. simpl in *. lia.
Qed.

Lemma num_spaces_app a b : num_spaces (a ++ b) = num_spaces a + num_spaces b.
Proof. unfold num_spaces. by rewrite list.filter_app, length_app. Qed.

Lemma enclosed_spaces args : length args ≤ num_spaces (concat (enclose <$> args)).
Proof.
  induction args as [|a args IH]; [done|]. cbn [fmap list_fmap concat length]. rewrite num_spaces_app.
  assert (1 ≤ num_spaces (enclose a)) as H; [|lia].
  unfold enclose, num_spaces. repeat case_bool_decide; rewrite list.filter_cons, decide_True by done; simpl; lia.
Qed.

(** C21: Taking the line of a command and its arguments apart gives them back: for
    every command name that needs no quotes and all arguments, with any spaces,
    quotes and special characters, that do not end with a backslash. *)
Theorem arguments_roundtrip c args line : command_ok c → Forall arg_ok args →
  concatenateArgv (c :: args) = Some line → split_arguments line = Ret (c :: args).
Proof.
  intros Hc Hargs Hline. injection Hline as <-. unfold split_arguments.
  set (rest := concat (enclose <$> args)). pose proof (enclosed_spaces args) as Hsp. fold rest in Hsp.
  assert (length args < num_spaces (c ++ rest) + 1) as Hroom by (rewrite num_spaces_app; lia).
  rewrite Nat.add_1_r. cbn [split_loop]. pose proof (co_nonempty c Hc) as Hne.
  rewrite bool_decide_eq_false_2 by (by destruct c). rewrite bool_decide_eq_false_2 by (simpl; lia). simpl andb.
  cbn iota. rewrite Nat.add_1_r, (getLast_command _ c rest Hc (enclosed_word_end args)). cbn [mbind outcome_bind].
  destruct args as [|a args].
  - rewrite decide_True by done. subst rest. cbn [fmap list_fmap concat app]. rewrite app_nil_r, (unquote_command c Hc).
    cbn [mbind outcome_bind]. rewrite bool_decide_eq_true_2 by (cbn [length]; lia). done.
  - assert (rest ≠ []) as Hrest. { subst rest. intros Hr. rewrite Hr in Hsp. change (num_spaces []) with 0 in Hsp.
      cbn [length] in Hsp. lia. }
    rewrite decide_False by done. rewrite bool_decide_eq_true_2.
    2: { rewrite length_app. destruct rest; [done|simpl; lia]. }
    rewrite take_app_length, (unquote_command c Hc). cbn [app length].
    rewrite bool_decide_eq_true_2 by lia.
    assert (skip_while (λ c, bool_decide (c = SPACE)) (drop (length c + 1) (c ++ rest)) = drop 1 rest) as ->.
    { rewrite drop_app, drop_ge by lia. replace (length c + 1 - length c) with 1 by lia. cbn [app].
      pose proof Hargs as [Ha _]%Forall_cons_1. destruct (getLast_enclosed 0 a [] Ha) as (q & He & Hq & _); [by left|].
      subst rest. cbn [fmap list_fmap concat]. rewrite He. simpl. by rewrite bool_decide_eq_false_2. }
    subst rest. rewrite (split_loop_enclosed _ _ c); [|done..| |].
    + cbn [mbind outcome_bind app]. rewrite bool_decide_eq_true_2; [done|]. cbn [length] in *. lia.
    + rewrite length_app. destruct c; [done|]. pose proof (enclosed_spaces (a :: args)) as Hs.
      assert (num_spaces (concat (enclose <$> a :: args)) ≤ length (concat (enclose <$> a :: args))) by apply length_filter.
      cbn [length] in *. lia.
    + cbn [length] in *. lia.
Qed.

Lemma arguments_roundtrip_witness :
  split_arguments (chars "ls " ++ DQUOTE :: chars "it's a b" ++ DQUOTE :: SPACE :: SQUOTE :: DQUOTE :: chars "c'") =
  Ret [chars "ls"; chars "it's a b"; DQUOTE :: chars "c"].
Proof.
  apply (arguments_roundtrip (chars "ls") [chars "it's a b"; DQUOTE :: chars "c"]); [| |by vm_compute].
  - constructor; try split_and!; try done; apply (bool_decide_unpack _); by vm_compute.
  - repeat apply Forall_cons_2; [..|by apply Forall_nil_2]; constructor; try done; apply (bool_decide_unpack _); by vm_compute.
Defined.

(** ** The array of the words *)

(** What the end of a word leaves of the line. *)
Definition end_ok (str str' : text) (e : option nat) : Prop :=
  length str' ≤ length str ∧ num_spaces str' ≤ num_spaces str ∧ (RECORD_SEPARATOR ∉ str → RECORD_SEPARATOR ∉ str') ∧
  ∀ n, e = Some n → n < length str' → str' !! n = Some SPACE.

Lemma next_unescaped_at str c rest n m : next_unescaped str c rest n = Some m →
  ∃ k, m = n + k ∧ rest !! k = Some c.
Proof.
  revert n. induction rest as [|x rest IH]; intros n Hn; simpl in Hn; [done|].
  destruct (bool_decide (x = c) && negb (escaped str n)) eqn:Eb.
  - simplify_eq. apply andb_prop in Eb as [->%bool_decide_eq_true _]. exists 0. split; [lia|done].
  - destruct (IH (S n) Hn) as (k & -> & Hk). exists (S k). split; [lia|done].
Qed.

Lemma nextUnescaped_at str c n : nextUnescapedCharacter str c = Some n → str !! n = Some c.
Proof.
  unfold nextUnescapedCharacter. case_bool_decide; intros Hn; apply next_unescaped_at in Hn as (k & -> & Hk); [|done].
  by rewrite lookup_drop in Hk.
Qed.

Lemma num_spaces_drop n str : num_spaces (drop n str) ≤ num_spaces str.
Proof. rewrite <- (take_drop n str) at 2. rewrite num_spaces_app. lia. Qed.

Lemma not_elem_drop (c : ascii) n str : c ∉ str → c ∉ drop n str.
Proof. intros Hc Hin. apply Hc. rewrite <- (take_drop n str). apply elem_of_app. by right. Qed.

Lemma not_elem_take (c : ascii) n str : c ∉ str → c ∉ take n str.
Proof. intros Hc Hin. apply Hc. rewrite <- (take_drop n str). apply elem_of_app. by left. Qed.

Lemma end_ok_same str e : (∀ n, e = Some n → n < length str → str !! n = Some SPACE) → end_ok str str e.
Proof. intros He. unfold end_ok. by split_and!. Qed.

(** Removing a quote inside quotes. *)
Lemma end_ok_rewrite str k l tail' n : k + 3 + l ≤ length str → end_ok (drop (k + 3 + l) str) tail' n →
  end_ok str (take k str ++ take l (drop (k + 3) str) ++ tail') (shift (k + l) n).
Proof.
  intros Hlen (Hl & Hs & Hrs & He).
  assert (length (take k str) = k) as Hk by (rewrite length_take; lia).
  assert (length (take l (drop (k + 3) str)) = l) as Hl2 by (rewrite length_take, length_drop; lia).
  split_and!.
  - rewrite !length_app, Hk, Hl2. rewrite length_drop in Hl. lia.
  - rewrite !num_spaces_app.
    rewrite <- (take_drop k str) at 3. rewrite num_spaces_app. apply Nat.add_le_mono_l.
    etrans; [|apply (num_spaces_drop 3)]. rewrite drop_drop.
    rewrite <- (take_drop l (drop (k + 3) str)) at 2. rewrite num_spaces_app, drop_drop. lia.
  - intros Hc. rewrite !not_elem_of_app. split_and!; [by apply not_elem_take|by apply not_elem_take, not_elem_drop|].
    by apply Hrs, not_elem_drop.
  - intros m Hm Hlt. destruct n as [n|]; [|done]. simplify_eq/=.
    rewrite !length_app, Hk, Hl2 in Hlt. rewrite lookup_app_r, Hk by lia. rewrite lookup_app_r, Hl2 by lia.
    replace (k + l + n - k - l) with n by lia. apply He; [done|lia].
Qed.

Lemma quoted_end_ok q again str fuel : length str ≤ fuel → RECORD_SEPARATOR ∉ str →
  (∀ s, length s < fuel → RECORD_SEPARATOR ∉ s → ∃ s' e, again s = Ret (s', e) ∧ end_ok s s' e) →
  ∃ str' e, quoted_end q again str = Ret (str', e) ∧ end_ok str str' e.
Proof.
  intros Hlen Hrs Hagain. unfold quoted_end.
  destruct (nextUnescapedCharacter (drop 1 str) q) as [e0|] eqn:En; cbn [shift fmap option_fmap option_map].
  2: { eexists _, _. split; [done|]. by apply end_ok_same. }
  apply nextUnescaped_at in En. rewrite lookup_drop in En. pose proof (lookup_lt_Some _ _ _ En) as Hlt.
  remember (1 + e0) as e eqn:Ee. case_bool_decide as H1.
  { eexists _, _. split; [done|]. apply end_ok_same. intros n [= <-] Hn. rewrite length_drop in H1. lia. }
  case_bool_decide as H2.
  { eexists _, _. split; [done|]. apply end_ok_same. intros n [= <-] Hn. by rewrite lookup_drop in H2. }
  case_bool_decide as H3.
  - assert (e + 3 ≤ length str) as Hl3.
    { assert (length (take 3 (drop e str)) = 3) as Ht by by rewrite H3. rewrite length_take, length_drop in Ht. lia. }
    rewrite drop_drop. set (l := if bool_decide (q = DQUOTE) then 1 else 0).
    destruct (decide (bool_decide (q = DQUOTE) = true ∧ drop (e + 3) str = [])) as [[Hq Ht]|Hnq].
    { rewrite Hq, Ht. simpl. eexists _, _. split; [done|]. split_and!.
      - rewrite length_take. lia.
      - rewrite <- (take_drop e str) at 2. rewrite num_spaces_app. lia.
      - apply not_elem_take.
      - done. }
    assert (e + 3 + l ≤ length str) as Hl.
    { subst l. destruct (bool_decide (q = DQUOTE)); [|lia].
      assert (drop (e + 3) str ≠ []) as Hne by tauto. destruct (decide (e + 3 = length str)) as [He3|]; [|lia].
      destruct Hne. apply drop_ge. lia. }
    assert ((if bool_decide (q = DQUOTE) then take 1 (drop (e + 3) str) else []) = take l (drop (e + 3) str)) as ->.
    { subst l. by destruct (bool_decide (q = DQUOTE)). }
    assert (bool_decide (q = DQUOTE) && bool_decide (drop (e + 3) str = []) = false) as ->.
    { destruct (bool_decide (q = DQUOTE)); [|done]. apply bool_decide_eq_false_2. tauto. }
    assert (length (take l (drop (e + 3) str)) = l) as -> by (rewrite length_take, length_drop; lia).
    rewrite drop_drop.
    destruct (Hagain (drop (e + 3 + l) str)) as (s' & n & -> & Hs'); [rewrite length_drop; lia|by apply not_elem_drop|].
    cbn [mbind outcome_bind]. eexists _, _. split; [done|]. by apply end_ok_rewrite.
  - eexists _, _. split; [done|]. apply end_ok_same. intros n Hn _.
    destruct (nextUnescapedCharacter (drop (e + 1) str) SPACE) as [k|] eqn:Ek; [|done]. simplify_eq/=.
    apply nextUnescaped_at in Ek. by rewrite lookup_drop in Ek.
Qed.

Lemma getLast_ok fuel str : length str < fuel → RECORD_SEPARATOR ∉ str →
  ∃ str' e, getLastCharacterOfArgument fuel str = Ret (str', e) ∧ end_ok str str' e.
Proof.
  revert str. induction fuel as [|fuel IH]; intros str Hlen Hrs; [lia|]. cbn [getLastCharacterOfArgument].
  destruct str as [|c str]; [eexists _, _; split; [done|]; by apply end_ok_same|].
  assert (∀ s, length s < fuel → RECORD_SEPARATOR ∉ s →
    ∃ s' e, getLastCharacterOfArgument fuel s = Ret (s', e) ∧ end_ok s s' e) as IH' by auto.
  case_bool_decide; [apply (quoted_end_ok _ _ _ fuel); [lia|done|done]|].
  case_bool_decide; [apply (quoted_end_ok _ _ _ fuel); [lia|done|done]|].
  rewrite bool_decide_eq_false_2. 2: { intros ->. apply Hrs. by left. }
  eexists _, _. split; [done|]. apply end_ok_same. intros n Hn _.
  destruct (nextUnescapedCharacter str SPACE) as [k|] eqn:Ek; [|done]. simplify_eq/=. by apply nextUnescaped_at.
Qed.

(** The first word of a line. *)
Definition first_word (line : text) : text :=
  match getLastCharacterOfArgument (length line + 1) line with
  | Ret (str, Some e) => if bool_decide (e < length str) then unquoteArgument (take e str) else unquoteArgument str
  | Ret (str, None) => unquoteArgument str
  | Undef _ => []
  end.

Lemma skip_spaces_suffix f (str : text) : ∃ k, skip_while f str = drop k str.
Proof.
  induction str as [|c str [k IH]]; simpl; [by exists 0|]. destruct (f c); [by exists (S k)|by exists 0].
Qed.

Lemma split_loop_ok fuel room str argv : length str < fuel → RECORD_SEPARATOR ∉ str →
  length argv + num_spaces str + 1 < room →
  (argv = [] → first_word str ≠ chars "alias") → argv !! 0 ≠ Some (chars "alias") →
  ∃ words, split_loop fuel room str argv = Ret words ∧ length words < room.
Proof.
  revert str argv. induction fuel as [|fuel IH]; intros str argv Hlen Hrs Hroom Hfirst Hal; [lia|]. cbn [split_loop].
  case_bool_decide as Hne; [eexists; split; [done|lia]|].
  rewrite (bool_decide_eq_false_2 (room ≤ length argv)) by lia.
  destruct (bool_decide (length argv = 1) && bool_decide (argv !! 0 = Some (chars "export")));
    [eexists; split; [done|]; rewrite length_app; simpl; lia|].
  rewrite (bool_decide_eq_false_2 (argv !! 0 = Some (chars "alias"))) by done. rewrite andb_false_r.
  destruct (getLast_ok (length str + 1) str) as (str' & e & He & Hl & Hs & Hrs' & Hsp); [lia|done|].
  pose proof He as He'. rewrite He. cbn [mbind outcome_bind].
  assert (∀ w, length (argv ++ [w]) = length argv + 1) as Hlast by (intros; rewrite length_app; done).
  destruct e as [e|]; [|eexists; split; [done|rewrite Hlast; lia]].
  case_bool_decide as Hlt; [|eexists; split; [done|rewrite Hlast; lia]].
  rewrite bool_decide_eq_true_2 by (rewrite Hlast; lia).
  destruct (skip_spaces_suffix (λ c, bool_decide (c = SPACE)) (drop (e + 1) str')) as [k ->]. rewrite drop_drop.
  pose proof (Hsp e eq_refl Hlt) as Hspace.
  assert (num_spaces (drop (e + 1 + k) str') + 1 ≤ num_spaces str') as Hcount.
  { rewrite <- (take_drop_middle str' e SPACE Hspace) at 2. rewrite num_spaces_app.
    change (SPACE :: drop (S e) str') with ([SPACE] ++ drop (S e) str'). rewrite num_spaces_app.
    change (num_spaces [SPACE]) with 1. pose proof (num_spaces_drop k (drop (S e) str')) as Hd.
    rewrite drop_drop in Hd. replace (S e + k) with (e + 1 + k) in Hd by lia. lia. }
  apply IH.
  - rewrite length_drop. lia.
  - by apply not_elem_drop, Hrs'.
  - rewrite Hlast. lia.
  - intros Ha. by apply app_eq_nil in Ha as [_ ?].
  - destruct argv as [|w argv]; [|done]. cbn [app lookup list_lookup]. intros [= Hw]. apply Hfirst; [done|].
    unfold first_word. rewrite He'. by rewrite bool_decide_eq_true_2.
Qed.

(** C36: Whatever the quotes and backslashes of a line are: taking it apart ends, and
    the words and the final NULL fit into the array, when the line has no record
    separator and its first word is not [alias]. *)
Theorem split_defined command : RECORD_SEPARATOR ∉ command → first_word command ≠ chars "alias" →
  ∃ words, split_arguments command = Ret words ∧ length words ≤ num_spaces command + 1.
Proof.
  intros Hrs Hf. unfold split_arguments.
  destruct (split_loop_ok (length command + 1) (num_spaces command + 2) command []) as (words & -> & Hw);
    [lia|done|simpl; lia|done|done|].
  cbn [mbind outcome_bind]. rewrite bool_decide_eq_true_2 by done. exists words. split; [done|lia].
Qed.

Lemma split_defined_witness : ∃ words, split_arguments (chars "a 'b c\") = Ret words ∧ length words ≤ 3.
Proof. apply (split_defined (chars "a 'b c\")); apply (bool_decide_unpack _); by vm_compute. Defined.

(** ** Defects *)

(** [alias ll=ls -l]: the equal sign becomes a space after the spaces have been
    counted, and the final NULL is written behind the array. *)
Theorem alias_overruns : split_arguments (chars "alias ll=ls -l") = Undef OutOfBounds.
Proof. by vm_compute. Qed.

(** An argument that ends with a backslash is enclosed as it is: its closing
    quote is escaped and the next argument is part of it. *)
Theorem backslash_swallows :
  split_arguments <$> concatenateArgv [chars "ls"; chars "a\"; chars "b"] =
  Some (Ret [chars "ls"; chars "a\" ++ DQUOTE :: SPACE :: DQUOTE :: chars "b"]).
Proof. by vm_compute. Qed.

(** A single quote inside single quotes can be written, with the quotes closed
    around an escaped one; a double quote inside double quotes not. *)
Theorem nested_double_quote :
  split_arguments (chars "echo 'a'\''b c'") = Ret [chars "echo"; chars "a'b c"] ∧
  split_arguments (chars "echo " ++ DQUOTE :: chars "a" ++ [DQUOTE; BACKSLASH; DQUOTE; DQUOTE] ++ chars "b c" ++ [DQUOTE]) =
    Ret [chars "echo"; DQUOTE :: chars "a" ++ DQUOTE :: chars "b"; chars "c" ++ [DQUOTE]].
Proof. by vm_compute. Qed.
