(* ===== verification/ShCommand.v ===== *)
(** * The command [sh] ([src/ios_system.m])

    [sh_main] runs the commands between the words [&&] and [||]; each of them is
    made a line again by [concatenateArgv] ([Arguments]), and
    [splitCommandAndExecute] runs the commands inside such a line.  One command
    is run through the interface [Shell] of [ShellParser].
    - Theorems: when the connectives are words of their own, [sh] runs the
      commands exactly as [ios_execute_conditional] does ([sh_words_conditional]);
      a line of commands joined by [&&] runs until one fails
      ([split_and_posix]); in a line with [||] only, no command is run as it is
      written ([split_or_skips]).
    - The session [sh] runs in is in [SessionThread]. *)

From S2P Require Import Prelude Quoting ShellParser Arguments.
From Stdlib Require Import Ascii.

Section sh.
Context {W : Type} `{Shell W}.

(** Where the next command of the line ends, and whether [&&] ends it: with no
    [&&] the position stays 0, which no [||] is before. *)
Definition next_command (nextAnd nextOr : option nat) : nat * bool :=
  let '(pos, andNext) := match nextAnd with Some a => (a, true) | None => (0, false) end in
  match nextOr with
  | Some o => if bool_decide (o < pos) then (o, false) else (pos, andNext)
  | None => (pos, andNext)
  end.

Fixpoint split_execute_loop (fuel : nat) (command : text) (returnValue : Z) (w : W) : outcome (Z * W) :=
  match fuel with
  | 0 => Undef OutOfFuel
  | S fuel =>
      if bool_decide (command = []) then Ret (returnValue, w)
      else
        match strstrquoted command and_and, strstrquoted command or_or with
        | None, None => Ret (run_command command w)
        | nextAnd, nextOr =>
            let '(pos, andNextCommand) := next_command nextAnd nextOr in
            let '(r, w) := run_command (take pos command) w in
            if andNextCommand && negb (bool_decide (r = 0%Z)) then Ret (r, w)
            else if negb andNextCommand && bool_decide (r = 0%Z) then Ret (r, w)
            else split_execute_loop fuel (skip_while (λ c, bool_decide (c = SPACE)) (drop (pos + 2) command)) r w
        end
  end.

(** [splitCommandAndExecute]; the line may be NULL. *)
Definition splitCommandAndExecute (command : option text) (w : W) : outcome (Z * W) :=
  match command with
  | None => Ret (0%Z, w)
  | Some command => split_execute_loop (length command + 1) command 0 w
  end.

Definition is_connective (word : text) : bool := bool_decide (word = and_and) || bool_decide (word = or_or).

(** The words before the first connective, it, and the words after it. *)
Fixpoint first_words (words : list text) : list text * option (text * list text) :=
  match words with
  | [] => ([], None)
  | x :: words =>
      if is_connective x then ([], Some (x, words))
      else let '(ws, rest) := first_words words in (x :: ws, rest)
  end.

(** The loop of [sh_main]. *)
Fixpoint sh_loop (fuel : nat) (words : list text) (returnValue : Z) (w : W) : outcome (Z * W) :=
  match fuel with
  | 0 => Undef OutOfFuel
  | S fuel =>
      match words with
      | [] => Ret (returnValue, w)
      | _ =>
          let '(ws, rest) := first_words words in
          '(r, w) ← splitCommandAndExecute (concatenateArgv ws) w;
          match rest with
          | None => Ret (r, w)
          | Some (op, words) =>
              let andNextCommand := bool_decide (op = and_and) in
              if andNextCommand && negb (bool_decide (r = 0%Z)) then Ret (r, w)
              else if negb andNextCommand && bool_decide (r = 0%Z) then Ret (r, w)
              else sh_loop fuel words r w
          end
      end
  end.
Definition sh_commands (words : list text) (w : W) : outcome (Z * W) := sh_loop (length words + 1) words 0 w.

(** ** Termination *)

Lemma next_command_drop command a o : strstrquoted command and_and = a → strstrquoted command or_or = o →
  a ≠ None ∨ o ≠ None → (next_command a o).1 + 2 ≤ length command.
Proof.
  intros Ha Ho Hne. unfold next_command. destruct a as [a|], o as [o|]; simpl.
  - apply strstrquoted_bound in Ha; [|done]. apply strstrquoted_bound in Ho; [|done]. case_bool_decide; simpl; lia.
  - apply strstrquoted_bound in Ha; [|done]. simpl. lia.
  - apply strstrquoted_bound in Ho; [|done]. lia.
  - by destruct Hne.
Qed.

Lemma length_skip_while f (s : text) : length (skip_while f s) ≤ length s.
Proof. induction s as [|c s IH]; simpl; [done|]. destruct (f c); simpl; lia. Qed.

Lemma split_execute_defined fuel command r w : length command < fuel → defined (split_execute_loop fuel command r w).
Proof.
  revert command r w. induction fuel as [|fuel IH]; intros command r w Hf; [lia|]. cbn [split_execute_loop].
  case_bool_decide; [by eexists|].
  destruct (strstrquoted command and_and) as [a|] eqn:Ha, (strstrquoted command or_or) as [o|] eqn:Ho; try by eexists.
  all: match goal with |- context [next_command ?x ?y] =>
         pose proof (next_command_drop command x y Ha Ho ltac:(first [by left|by right])) as Hlen;
         destruct (next_command x y) as [pos an]; simpl in Hlen end.
  all: destruct (run_command (take pos command) w) as [r' w']; repeat (case_match; [by eexists|]).
  all: apply IH; pose proof (length_skip_while (λ c, bool_decide (c = SPACE)) (drop (pos + 2) command)) as Hs;
       rewrite length_drop in Hs; lia.
Qed.

(** Whatever the line is, the loop ends. *)
Lemma splitCommandAndExecute_defined command w : defined (splitCommandAndExecute command w).
Proof. destruct command as [c|]; [apply split_execute_defined; lia|by eexists]. Qed.

(** ** Words *)

(** A simple command: a line that is not empty and has no connective outside
    its quotes. *)
Record simple_words (ws : list text) (line : text) : Prop := {
  sw_line : concatenateArgv ws = Some line;
  sw_nonempty : line ≠ [];
  sw_words : Forall (λ x, is_connective x = false) ws;
  sw_and : strstrquoted line and_and = None;
  sw_or : strstrquoted line or_or = None }.

(** Commands with the connectives between them, and the same as nodes of
    [ios_execute_conditional]. *)
Definition op_word (op : ios_shell_operator_t) : text :=
  if bool_decide (op = IOS_OP_AND) then and_and else or_or.

Fixpoint chain_words (first : list text) (rest : list (ios_shell_operator_t * list text)) : list text :=
  match rest with
  | [] => first
  | (op, ws) :: rest => first ++ op_word op :: chain_words ws rest
  end.

Fixpoint word_nodes (first : text) (rest : list (ios_shell_operator_t * text)) : list ios_cmd_node_t :=
  match rest with
  | [] => [Node first IOS_OP_NONE]
  | (op, line) :: rest => Node first op :: word_nodes line rest
  end.

Lemma first_words_chain ws op rest : Forall (λ x, is_connective x = false) ws → is_connective op = true →
  first_words (ws ++ op :: rest) = (ws, Some (op, rest)).
Proof.
  intros Hws Hop. induction Hws as [|x ws Hx _ IH]; simpl; [by rewrite Hop|]. by rewrite Hx, IH.
Qed.

Lemma first_words_last ws : Forall (λ x, is_connective x = false) ws → first_words ws = (ws, None).
Proof. intros Hws. induction Hws as [|x ws Hx _ IH]; simpl; [done|]. by rewrite Hx, IH. Qed.

Lemma split_simple ws line w : simple_words ws line →
  splitCommandAndExecute (concatenateArgv ws) w = Ret (run_command line w).
Proof.
  intros [Hl Hne _ Ha Ho]. rewrite Hl. unfold splitCommandAndExecute. rewrite Nat.add_1_r. cbn [split_execute_loop].
  rewrite bool_decide_eq_false_2 by done. by rewrite Ha, Ho.
Qed.

Lemma op_word_connective op : is_connective (op_word op) = true.
Proof. by destruct op. Qed.

Lemma simple_words_cons ws line : simple_words ws line → ∃ x ws', ws = x :: ws'.
Proof. intros Hs. destruct ws as [|x ws']; [by pose proof (sw_line _ _ Hs)|eauto]. Qed.

Lemma sh_loop_chain fuel first line rest rest' r w : simple_words first line →
  Forall2 (λ a b, a.1 = b.1 ∧ (a.1 = IOS_OP_AND ∨ a.1 = IOS_OP_OR) ∧ simple_words a.2 b.2) rest rest' →
  length rest < fuel →
  sh_loop fuel (chain_words first rest) r w = Ret (run_nodes (word_nodes line rest') r w).
Proof.
  intros Hf Hr. revert fuel first line r w Hf.
  induction Hr as [|[op ws] [op' line'] rest rest' (Heq & Hop & Hws) _ IH]; intros fuel first line r w Hf Hlen;
    (destruct fuel as [|fuel]; [simpl in Hlen; lia|]).
  - cbn [chain_words word_nodes sh_loop run_nodes]. rewrite first_words_last by apply Hf.
    rewrite (split_simple _ line) by done. rewrite bool_decide_eq_false_2 by apply Hf.
    destruct (simple_words_cons _ _ Hf) as (x & ws' & ->). cbn [mbind outcome_bind]. simpl command.
    by destruct (run_command line w).
  - simpl in Heq, Hop, Hws, Hlen. subst op'. cbn [chain_words word_nodes sh_loop run_nodes].
    rewrite first_words_chain by (apply Hf || apply op_word_connective).
    rewrite (split_simple _ line) by done. simpl command. rewrite (bool_decide_eq_false_2 (line = [])) by apply Hf.
    destruct (simple_words_cons _ _ Hf) as (x & ws' & ->). cbn [app mbind outcome_bind]. simpl next_op.
    destruct (run_command line w) as [r' w'].
    assert (word_nodes line' rest' ≠ []) as Hne by (by destruct rest' as [|[]]).
    rewrite (IH fuel ws line' r' w' Hws ltac:(lia)).
    destruct (word_nodes line' rest') as [|n ns]; [done|].
    destruct Hop as [-> | ->]; simpl; repeat case_bool_decide; simplify_eq; done.
Qed.
End sh.

Lemma chain_words_length first rest : length rest ≤ length (chain_words first rest).
Proof.
  revert first. induction rest as [|[op ws] rest IH]; intros first; [simpl; lia|]. cbn [chain_words].
  rewrite length_app. simpl. specialize (IH ws). lia.
Qed.

(** C38: Commands separated by the words [&&] and [||], none of which has such a
    connective inside: [sh] runs them as [ios_execute_conditional] runs its
    chain of nodes, with the same value. *)
Theorem sh_words_conditional {W} `{Shell W} first line rest rest' (w : W) : simple_words first line →
  Forall2 (λ a b, a.1 = b.1 ∧ (a.1 = IOS_OP_AND ∨ a.1 = IOS_OP_OR) ∧ simple_words a.2 b.2) rest rest' →
  sh_commands (chain_words first rest) w = Ret (run_nodes (word_nodes line rest') 0 w).
Proof.
  intros Hf Hr. apply sh_loop_chain; [done|done|]. pose proof (chain_words_length first rest). lia.
Qed.

(** A line with [||] and no [&&]: the first thing that is run is an empty
    command, and when that returns 0 nothing else is. *)
Theorem split_or_skips {W} `{Shell W} command o (w : W) :
  strstrquoted command and_and = None → strstrquoted command or_or = Some o →
  (run_command [] w).1 = 0%Z → splitCommandAndExecute (Some command) w = Ret (run_command [] w).
Proof.
  intros Ha Ho Hr. unfold splitCommandAndExecute. rewrite Nat.add_1_r. cbn [split_execute_loop].
  rewrite bool_decide_eq_false_2. 2: { intros ->. by vm_compute in Ho. }
  rewrite Ha, Ho. cbn [next_command]. rewrite bool_decide_eq_false_2 by lia. rewrite take_0.
  destruct (run_command [] w) as [r w']. simpl in Hr. subst r. simpl. done.
Qed.

(** ** Lines of [&&] *)

(** [p && q && ...] with any number of spaces after each [&&]. *)
Fixpoint and_line (p : text) (rest : list (nat * text)) : text :=
  match rest with
  | [] => p
  | (k, q) :: rest => p ++ and_and ++ replicate k SPACE ++ and_line q rest
  end.

(** The commands in order until one fails. *)
Fixpoint until_failure {W} `{Shell W} (p : text) (rest : list text) (w : W) : Z * W :=
  let '(r, w) := run_command p w in
  match rest with
  | [] => (r, w)
  | q :: rest => if bool_decide (r = 0%Z) then until_failure q rest w else (r, w)
  end.

Lemma link_nonnil p : link p → p ≠ [].
Proof. intros Hp ->. by apply (link_nonempty [] Hp). Qed.

Lemma skip_spaces k (l : text) : head l ≠ Some SPACE → skip_while (λ c, bool_decide (c = SPACE)) (replicate k SPACE ++ l) = l.
Proof.
  intros Hl. induction k as [|k IH]; simpl; [|done]. destruct l as [|c l]; [done|]. simpl.
  rewrite bool_decide_eq_false_2; [done|]. by intros ->.
Qed.

Lemma and_line_head p rest : p ≠ [] → head (and_line p rest) = head p.
Proof. intros Hp. destruct p; [done|]. by destruct rest as [|[]]. Qed.

Lemma split_and_line {W} `{Shell W} fuel p rest r (w : W) : link p → Forall (λ x, link x.2 ∧ head x.2 ≠ Some SPACE) rest →
  length rest < fuel →
  split_execute_loop fuel (and_line p rest) r w = Ret (until_failure p (rest.*2) w).
Proof.
  revert fuel p r w. induction rest as [|[k q] rest IH]; intros fuel p r w Hp Hrest Hf;
    (destruct fuel as [|fuel]; [simpl in Hf; lia|]); cbn [split_execute_loop].
  - rewrite bool_decide_eq_false_2 by by apply link_nonnil. simpl. rewrite (link_and p Hp), (link_or p Hp).
    by destruct (run_command p w).
  - apply Forall_cons_1 in Hrest as [[Hq Hhead] Hrest]. simpl in Hq, Hhead, Hf. cbn [and_line].
    rewrite bool_decide_eq_false_2 by (pose proof (link_nonnil p Hp); by destruct p).
    pose proof (strstrquoted_link p And (replicate k SPACE ++ and_line q rest) Hp) as Ha.
    change (op_text And) with and_and in Ha. rewrite Ha.
    assert (next_command (Some (length p)) (strstrquoted (p ++ and_and ++ replicate k SPACE ++ and_line q rest) or_or) =
      (length p, true)) as ->.
    { unfold next_command. destruct (strstrquoted _ or_or) as [o|] eqn:Ho; [|done].
      apply (other_later p And Or) in Ho; [|done|done]. by rewrite bool_decide_eq_false_2 by lia. }
    rewrite take_app_length, drop_piece by done. cbn [fmap list_fmap until_failure snd].
    destruct (run_command p w) as [r' w']. cbn [andb negb].
    rewrite skip_spaces. 2: { rewrite and_line_head; [done|by apply link_nonnil]. }
    case_bool_decide; cbn [negb]; [apply IH; [done|done|lia]|done].
Qed.

Lemma and_line_length p rest : length rest ≤ length (and_line p rest).
Proof.
  revert p. induction rest as [|[k q] rest IH]; intros p; [simpl; lia|]. cbn [and_line].
  rewrite !length_app. simpl. specialize (IH q). lia.
Qed.

(** Inside one word of [sh], commands joined by [&&] run in order until one
    fails, whose value is the result. *)
Theorem split_and_posix {W} `{Shell W} p rest (w : W) : link p → Forall (λ x, link x.2 ∧ head x.2 ≠ Some SPACE) rest →
  splitCommandAndExecute (Some (and_line p rest)) w = Ret (until_failure p (rest.*2) w).
Proof. intros Hp Hr. apply split_and_line; [done|done|]. pose proof (and_line_length p rest). lia. Qed.

(** ** Concrete commands *)

Lemma sh_words_conditional_witness :
  sh_commands [chars "ls"; chars "a b"; and_and; chars "false"; or_or; chars "pwd"] ([] : recorded) =
  Ret (0%Z, [chars "ls " ++ DQUOTE :: chars "a b" ++ [DQUOTE]; chars "false"; chars "pwd"]).
Proof.
  rewrite (sh_words_conditional [chars "ls"; chars "a b"] (chars "ls " ++ DQUOTE :: chars "a b" ++ [DQUOTE])
    [(IOS_OP_AND, [chars "false"]); (IOS_OP_OR, [chars "pwd"])]
    [(IOS_OP_AND, chars "false"); (IOS_OP_OR, chars "pwd")] ([] : recorded)); [by vm_compute|..].
  - constructor; try done; try by vm_compute. repeat apply Forall_cons_2; [done..|]. apply Forall_nil_2.
  - assert (∀ c, is_connective c = false → Forall (λ x, is_connective x = false) [c]) as Hone.
    { intros c Hc. apply Forall_cons_2; [done|apply Forall_nil_2]. }
    constructor; [split_and!; [done|by left|]|constructor; [split_and!; [done|by right|]|constructor]].
    all: constructor; try apply Hone; by vm_compute.
Defined.

(** [ls || pwd] runs neither [ls] nor [pwd]. *)
Lemma split_or_skips_witness :
  splitCommandAndExecute (Some (chars "ls || pwd")) ([] : recorded) = Ret (0%Z, [[]]).
Proof. rewrite (split_or_skips (chars "ls || pwd") 3 ([] : recorded)); by vm_compute. Defined.

Lemma split_and_posix_witness :
  splitCommandAndExecute (Some (chars "ls &&  false && pwd")) ([] : recorded) = Ret (1%Z, [chars "ls "; chars "false "]).
Proof.
  rewrite (split_and_posix (chars "ls ") [(2, chars "false "); (1, chars "pwd")] ([] : recorded)); [by vm_compute|link_solve|].
  repeat (apply Forall_cons_2; [split; [link_solve|by vm_compute]|]). apply Forall_nil_2.
Defined.
