(* ===== verification/WindowSize.v ===== *)
(** * The size of a session's window ([src/ios_system.m])

    [ios_setWindowSize] prints the width and the height into two fields of five
    characters of the session, and [ios_ioctl] answers [TIOCGWINSZ] from them.
    - [sprintf_dec] is [sprintf] with ["%d"], [atoi] its inverse on the field;
      writing more than the field holds is out of bounds.
    - Theorems: sizes from -999 on are read back, cut off at 9999 and as unsigned
      16-bit numbers ([window_size_roundtrip]); smaller ones overrun the field
      ([window_size_overrun]).
    - The signals to the threads of the session are not modelled. *)

From S2P Require Import Prelude Quoting.
From Stdlib Require Import Ascii.

Definition FIELD_SIZE : nat := 5.
Definition MINUS : ascii := ascii_of_nat 45.

Definition digit (d : Z) : ascii := ascii_of_nat (48 + Z.to_nat d).

(** The decimal digits of a number, the last one first; 32 bits have at most 10. *)
Fixpoint digits (fuel : nat) (n : Z) : text :=
  match fuel with
  | 0 => []
  | S fuel => digit (n `mod` 10) :: if bool_decide (n < 10)%Z then [] else digits fuel (n `div` 10)
  end.

Definition sprintf_dec (n : Z) : text :=
  if bool_decide (n < 0)%Z then MINUS :: rev (digits 10 (- n)) else rev (digits 10 n).

(** [sprintf(field, "%d", n)] with the terminator. *)
Definition sprintf_field (n : Z) : outcome text :=
  let s := sprintf_dec n in
  if bool_decide (length s + 1 ≤ FIELD_SIZE) then Ret s else Undef OutOfBounds.

Definition digit_value (c : ascii) : option Z :=
  let n := Z.of_nat (nat_of_ascii c) in
  if bool_decide (48 ≤ n ≤ 57)%Z then Some (n - 48)%Z else None.

Fixpoint atoi_digits (s : text) (acc : Z) : Z :=
  match s with
  | [] => acc
  | c :: s => match digit_value c with Some d => atoi_digits s (10 * acc + d) | None => acc end
  end.

(** [atoi] on text without leading blanks. *)
Definition atoi (s : text) : Z :=
  match s with
  | c :: rest => if bool_decide (c = MINUS) then (- atoi_digits rest 0)%Z else atoi_digits s 0
  | [] => 0%Z
  end.

Record window := Window { columns : text; lines : text }.

(** The fields of a session that has been initialised. *)
Definition initial_window : window := Window (chars "80") (chars "80").

Definition ios_setWindowSize (width height : Z) : outcome window :=
  c ← sprintf_field (Z.min width 9999);
  l ← sprintf_field (Z.min height 9999);
  Ret (Window c l).

(** [ios_ioctl] for [TIOCGWINSZ] on a descriptor of the terminal: columns and
    rows. *)
Definition ios_ioctl_winsize (w : window) : Z * Z :=
  (wrapU 16 (atoi (columns w)), wrapU 16 (atoi (lines w))).

(** ** Reading back *)

(** All sizes that fit, one by one. *)
Definition field_reads_back (n : Z) : bool :=
  match sprintf_field n with Ret s => bool_decide (atoi s = n) | Undef _ => false end.

Lemma fields_read_back : forallb (λ k, field_reads_back (Z.of_nat k - 999)) (seq 0 (Z.to_nat 10999)) = true.
Proof. by vm_compute. Qed.

Lemma field_read_back n : (-999 ≤ n ≤ 9999)%Z → ∃ s, sprintf_field n = Ret s ∧ atoi s = n.
Proof.
  intros Hn. pose proof fields_read_back as Hall. rewrite forallb_forall in Hall.
  specialize (Hall (Z.to_nat (n + 999))). rewrite Z2Nat.id in Hall by lia.
  replace (n + 999 - 999)%Z with n in Hall by lia. unfold field_reads_back in Hall.
  rewrite in_seq in Hall. specialize (Hall ltac:(lia)). destruct (sprintf_field n) as [s|]; [|done].
  exists s. split; [done|]. by apply bool_decide_eq_true in Hall.
Qed.

(** The size a program asks for is the one that was set: at most 9999, and as
    the unsigned 16-bit number the structure has. *)
Theorem window_size_roundtrip width height : (-999 ≤ width)%Z → (-999 ≤ height)%Z →
  ∃ w, ios_setWindowSize width height = Ret w ∧
    ios_ioctl_winsize w = (wrapU 16 (Z.min width 9999), wrapU 16 (Z.min height 9999)).
Proof.
  intros Hw Hh. unfold ios_setWindowSize.
  destruct (field_read_back (Z.min width 9999)) as (c & -> & Hc); [lia|]. cbn [mbind outcome_bind].
  destruct (field_read_back (Z.min height 9999)) as (l & -> & Hl); [lia|]. cbn [mbind outcome_bind].
  eexists. split; [done|]. unfold ios_ioctl_winsize. simpl. by rewrite Hc, Hl.
Qed.

Lemma window_size_roundtrip_witness : ∃ w, ios_setWindowSize 132 43 = Ret w ∧ ios_ioctl_winsize w = (132, 43)%Z.
Proof. apply (window_size_roundtrip 132 43); lia. Defined.


Lemma length_digits_1000 n : (1000 ≤ n)%Z → 4 ≤ length (digits 10 n).
Proof.
  intros Hn. pose proof (Z.div_le_mono 1000 n 10 ltac:(lia) Hn) as H1.
  pose proof (Z.div_le_mono 100 (n `div` 10) 10 ltac:(lia) H1) as H2.
  change (1000 `div` 10)%Z with 100%Z in H1. change (100 `div` 10)%Z with 10%Z in H2.
  change 10 with (S (S 8)) at 1. cbn [digits]. rewrite (bool_decide_eq_false_2 (n < 10)%Z) by lia. cbn [length].
  rewrite (bool_decide_eq_false_2 (n `div` 10 < 10)%Z) by lia. cbn [length].
  rewrite (bool_decide_eq_false_2 (n `div` 10 `div` 10 < 10)%Z) by lia. cbn [length]. lia.
Qed.

(** A width below -999 is printed with more characters than the field has. *)
Theorem window_size_overrun width height : (width < -999)%Z → ios_setWindowSize width height = Undef OutOfBounds.
Proof.
  intros Hw. unfold ios_setWindowSize, sprintf_field, sprintf_dec. rewrite (Z.min_l width 9999) by lia.
  rewrite (bool_decide_eq_true_2 (width < 0)%Z) by lia.
  rewrite (bool_decide_eq_false_2 (length (MINUS :: rev (digits 10 (- width))) + 1 ≤ FIELD_SIZE)); [done|].
  cbn [length]. rewrite length_rev. pose proof (length_digits_1000 (- width) ltac:(lia)). unfold FIELD_SIZE. lia.
Qed.

Lemma window_size_overrun_witness : ios_setWindowSize (-1000) 25 = Undef OutOfBounds.
Proof. apply (window_size_overrun (-1000) 25). lia. Defined.
