(* ===== verification/Waitpid.v ===== *)
(** * Waiting for a command ([src/libc_replacement.c])

    [ios_waitpid], [waitpid] and [ios_full_waitpid] read memory that other
    threads change, in loops without a lock.
    - A [moment] is what one access of the waiting thread finds there: the
      number of WebAssembly commands being prepared, the table of processes,
      the last thread and the status of the session.
    - The calls run over a list of moments and note their effects; [Waiting]
      means that the loop needs another moment.
    - Whether [dlsym] finds the function of the application that runs the
      prepared commands, and whether the thread has its own streams, are
      parameters.
    - Theorems: a call without options returns exactly at the first look that
      finds the number free, after the prepared commands have been run, with
      the status of the session at that time; it does return when the command
      ends for good; a number is taken from [fork] until its release, so a wait
      covers the life of the command. *)

From S2P Require Import Prelude EnvManager ProcessEnv ProcessTable WebAssembly.

Local Open Scope Z_scope.

Record moment := Moment {
  now_wasm : wasm;
  now_table : process_table;
  now_last : Z;             (* [ios_getLastThreadId()]; 0 is [nil] *)
  now_status : Z }.         (* [ios_getCommandStatus()] *)

Inductive wait_effect : Set :=
  | RunCommands             (* the function of the application is called *)
  | ResetOrder              (* [orderOfWebAssemblyCommands = 0] *)
  | FlushStdout
  | FlushStderr
  | FlushAll                (* [fflush(NULL)] *)
  | StoreStatus (n : Z).    (* [*stat_loc = n] *)
Global Instance wait_effect_eq_dec : EqDecision wait_effect.
Proof. solve_decision. Defined.

Inductive progress (A : Type) : Type :=
  | Done (a : A) (later : list moment) (effects : list wait_effect)
  | Waiting (effects : list wait_effect)
  | Wrong (u : ub).
Global Arguments Done {_} _ _ _.
Global Arguments Waiting {_} _.
Global Arguments Wrong {_} _.

(** The calls as computations over the moments to come. *)
Definition waiter (A : Type) : Type := list moment → list wait_effect → progress A.

Global Instance waiter_ret : MRet waiter := λ A a ms log, Done a ms log.
Global Instance waiter_bind : MBind waiter := λ A B f m ms log,
  match m ms log with
  | Done a ms log => f a ms log
  | Waiting log => Waiting log
  | Wrong u => Wrong u
  end.

(** One access to the shared memory. *)
Definition read_now {A} (f : moment → outcome A) : waiter A := λ ms log,
  match ms with
  | [] => Waiting log
  | m :: ms => match f m with Ret a => Done a ms log | Undef u => Wrong u end
  end.

(** A sequence is done when both parts are. *)
Lemma waiter_bind_Done {A B} (m : waiter A) (f : A → waiter B) ms log b later log' :
  (m ≫= f) ms log = Done b later log' ↔
  ∃ a ms1 log1, m ms log = Done a ms1 log1 ∧ f a ms1 log1 = Done b later log'.
Proof.
  unfold mbind, waiter_bind. destruct (m ms log) as [a ms1 log1|log1|u]; split.
  - intros H. by exists a, ms1, log1.
  - by intros (? & ? & ? & [= -> -> ->] & ?).
  - done.
  - by intros (? & ? & ? & ? & _).
  - done.
  - by intros (? & ? & ? & ? & _).
Qed.

Lemma read_now_Done {A} (f : moment → outcome A) ms log a later log' :
  read_now f ms log = Done a later log' ↔ ∃ m, ms = m :: later ∧ f m = Ret a ∧ log' = log.
Proof.
  destruct ms as [|m ms]; simpl.
  { split; [done|]. by intros (? & ? & _). }
  destruct (f m) as [x|u] eqn:E; split.
  - intros [= <- <- <-]. by exists m.
  - by intros (? & [= <- <-] & [= <-]%(eq_trans (eq_sym E)) & ->).
  - done.
  - intros (? & [= <- <-] & ? & _). congruence.
Qed.

Definition tell (es : list wait_effect) : waiter unit := λ ms log, Done tt ms (log ++ es).

Section waitpid.
(** [dlsym] finds the function; [thread_stdout] and [thread_stderr] are not
    [NULL]. *)
Context (found has_stdout has_stderr : bool).

(** The body of the loop that waits for the preparation. *)
Definition idle_flushes : list wait_effect :=
  (if has_stdout then [FlushStdout] else []) ++ (if has_stderr then [FlushStderr] else []).

Fixpoint preparing_loop (ms : list moment) (log : list wait_effect) : progress unit :=
  match ms with
  | [] => Waiting log
  | m :: ms =>
      if bool_decide (preparingWebAssemblyCommands (now_wasm m) > 0)
      then preparing_loop ms (log ++ idle_flushes)
      else Done tt ms log
  end.

Definition run_prepared : waiter unit :=
  (if found then _ ← (preparing_loop : waiter unit); tell [RunCommands] else tell []) ≫= λ _, tell [ResetOrder].

(** One look at the thread: 0 when the command has ended. *)
Definition look (pid : Z) (m : moment) : outcome Z := wait_target (now_table m) pid (now_last m).

Fixpoint look_loop (pid : Z) (ms : list moment) (log : list wait_effect) : progress unit :=
  match ms with
  | [] => Waiting log
  | m :: ms =>
      match look pid m with
      | Ret threadToWaitFor =>
          if bool_decide (threadToWaitFor ≠ 0) then look_loop pid ms log else Done tt ms log
      | Undef u => Wrong u
      end
  end.

Definition ios_waitpid (pid : Z) : waiter unit := _ ← run_prepared; look_loop pid.

(** The macros of the system headers. *)
Definition W_EXITCODE (ret sig : Z) : Z := wrapS 32 (Z.lor (Z.shiftl ret 8) sig).
Definition WEXITSTATUS (x : Z) : Z := Z.land (Z.shiftr x 8) 255.
Definition WIFEXITED (x : Z) : bool := bool_decide (Z.land x 127 = 0).

(** [if (stat_loc) *stat_loc = W_EXITCODE(ios_getCommandStatus(), 0);] *)
Definition store_status (stat_loc : bool) : waiter unit :=
  if stat_loc
  then status ← read_now (λ m, Ret (now_status m)); tell [StoreStatus (W_EXITCODE status 0)]
  else tell [].

(** [fflush(thread_stdout); fflush(thread_stderr);] *)
Definition final_flushes : list wait_effect :=
  [if has_stdout then FlushStdout else FlushAll; if has_stderr then FlushStderr else FlushAll].

Definition waitpid (pid : Z) (stat_loc : bool) (options : Z) : waiter Z :=
  if bool_decide (options ≠ 0) && bool_decide (WNOHANG ≠ 0) then
    _ ← run_prepared;
    threadToWaitFor ← read_now (look pid);
    if bool_decide (threadToWaitFor ≠ 0) then mret 0
    else
      _ ← store_status stat_loc;
      _ ← tell final_flushes;
      mret pid
  else
    _ ← ios_waitpid pid;
    _ ← store_status stat_loc;
    mret pid.

(** A copy of [waitpid] under another name. *)
Definition ios_full_waitpid (pid : Z) (stat_loc : bool) (options : Z) : waiter Z :=
  waitpid pid stat_loc options.

(** ** The loops *)

Definition preparing (m : moment) : Prop := preparingWebAssemblyCommands (now_wasm m) > 0.
Definition running (pid : Z) (m : moment) : Prop := ∃ x, look pid m = Ret x ∧ x ≠ 0.
Definition ended (pid : Z) (m : moment) : Prop := look pid m = Ret 0.

(** What the flushes of [busy] rounds add. *)
Definition idle (busy : list moment) : list wait_effect := concat (replicate (length busy) idle_flushes).

Lemma preparing_loop_Done ms log u later log' :
  preparing_loop ms log = Done u later log' ↔
  ∃ busy quiet, ms = busy ++ quiet :: later ∧ Forall preparing busy ∧ ¬ preparing quiet ∧ log' = log ++ idle busy.
Proof. destruct u.
  revert log. induction ms as [|m ms IH]; intros log; simpl.
  { split; [done|]. intros (busy & quiet & H & _). by destruct busy. }
  case_bool_decide as Hp.
  - rewrite IH. split.
    + intros (busy & quiet & -> & Hb & Hq & ->). exists (m :: busy), quiet. split_and!; [done|by constructor|done|].
      unfold idle. simpl. by rewrite <- app_assoc.
    + intros (busy & quiet & H & Hb & Hq & ->). destruct busy as [|m' busy]; simplify_eq/=; [done|].
      inversion Hb; subst. exists busy, quiet. split_and!; [done..|]. unfold idle. simpl. by rewrite <- app_assoc.
  - split.
    + intros [= <- <-]. exists [], m. split_and!; [done..|]. by rewrite app_nil_r.
    + intros (busy & quiet & H & Hb & Hq & ->). destruct busy as [|m' busy]; simplify_eq/=.
      * by rewrite app_nil_r.
      * by inversion Hb.
Qed.

Lemma look_loop_Done pid ms log u later log' :
  look_loop pid ms log = Done u later log' ↔
  ∃ looks last, ms = looks ++ last :: later ∧ Forall (running pid) looks ∧ ended pid last ∧ log' = log.
Proof. destruct u.
  unfold running, ended. induction ms as [|m ms IH]; simpl.
  { split; [done|]. intros (looks & last & H & _). by destruct looks. }
  destruct (look pid m) as [x|u] eqn:E; [case_bool_decide as Hx|].
  - rewrite IH. split.
    + intros (looks & last & -> & Hl & He & ->). exists (m :: looks), last. split_and!; eauto.
    + intros (looks & last & H & Hl & He & ->). destruct looks as [|m' looks]; simplify_eq/=; [congruence|].
      apply Forall_inv_tail in Hl. by exists looks, last.
  - assert (x = 0) as -> by (by destruct (decide (x = 0))). split.
    + intros [= <- <-]. by exists [], m.
    + intros (looks & last & H & Hl & He & ->). destruct looks as [|m' looks]; simplify_eq/=; [done|].
      apply Forall_inv in Hl as (y & Hy & ?). congruence.
  - split; [done|]. intros (looks & last & H & Hl & He & ->). destruct looks as [|m' looks]; simplify_eq/=;
      [congruence|]. apply Forall_inv in Hl as (y & Hy & ?). congruence.
Qed.

(** The moments [pre] that pass until the prepared commands have been run and
    the effects of that. *)
Definition prepared (pre : list moment) (effects : list wait_effect) : Prop :=
  if found
  then ∃ busy quiet, pre = busy ++ [quiet] ∧ Forall preparing busy ∧ ¬ preparing quiet ∧
                     effects = idle busy ++ [RunCommands; ResetOrder]
  else pre = [] ∧ effects = [ResetOrder].

Lemma run_prepared_Done ms log u later log' :
  run_prepared ms log = Done u later log' ↔
  ∃ pre effects, ms = pre ++ later ∧ prepared pre effects ∧ log' = log ++ effects.
Proof. destruct u.
  unfold run_prepared, prepared. rewrite waiter_bind_Done. destruct found.
  - setoid_rewrite waiter_bind_Done. setoid_rewrite preparing_loop_Done. unfold tell. split.
    + intros ([] & ms1 & log1 & ([] & ms2 & log2 & (busy & quiet & -> & Hb & Hq & ->) & [= <- <-]) & [= <- <-]).
      exists (busy ++ [quiet]), (idle busy ++ [RunCommands; ResetOrder]).
      split_and!; [by rewrite <- app_assoc|by exists busy, quiet|by rewrite <- !app_assoc].
    + intros (pre & effects & -> & (busy & quiet & -> & Hb & Hq & ->) & ->).
      exists tt, later, (log ++ idle busy ++ [RunCommands]). split; [|by rewrite <- !app_assoc].
      exists tt, later, (log ++ idle busy). split; [|by rewrite <- !app_assoc].
      exists busy, quiet. by rewrite <- app_assoc.
  - unfold tell. rewrite app_nil_r. split.
    + intros (? & ? & ? & [= <- <- <-] & [= <- <-]). by exists [], [ResetOrder].
    + intros (pre & effects & -> & (-> & ->) & ->). by exists tt, later, log.
Qed.

(** The moments [final] and the effects of storing the status. *)
Definition stored (stat_loc : bool) (final : list moment) (effects : list wait_effect) : Prop :=
  if stat_loc
  then ∃ m, final = [m] ∧ effects = [StoreStatus (W_EXITCODE (now_status m) 0)]
  else final = [] ∧ effects = [].

Lemma store_status_Done stat_loc ms log u later log' :
  store_status stat_loc ms log = Done u later log' ↔
  ∃ final effects, ms = final ++ later ∧ stored stat_loc final effects ∧ log' = log ++ effects.
Proof.
  destruct u. unfold store_status, stored. destruct stat_loc.
  - rewrite waiter_bind_Done. setoid_rewrite read_now_Done. unfold tell. split.
    + intros (? & ms1 & log1 & (m & -> & [= <-] & ->) & [= <- <-]). exists [m]. eauto 10.
    + intros (? & ? & -> & (m & -> & ->) & ->). eexists _, _, _. split; [by exists m|done].
  - unfold tell. rewrite app_nil_r. split.
    + intros [= <- <-]. exists [], []. by rewrite app_nil_r.
    + intros (? & ? & -> & (-> & ->) & ->). by rewrite app_nil_r.
Qed.

Lemma waitpid_Done pid stat_loc ms r later log :
  waitpid pid stat_loc 0 ms [] = Done r later log ↔
  r = pid ∧ ∃ pre effects looks last final stores,
    ms = pre ++ looks ++ last :: final ++ later ∧ prepared pre effects ∧
    Forall (running pid) looks ∧ ended pid last ∧ stored stat_loc final stores ∧ log = effects ++ stores.
Proof.
  unfold waitpid, ios_waitpid. simpl. rewrite waiter_bind_Done. setoid_rewrite waiter_bind_Done.
  setoid_rewrite run_prepared_Done. setoid_rewrite look_loop_Done. setoid_rewrite store_status_Done. split.
  - intros ([] & ms1 & ? & ([] & ms2 & ? & (pre & effects & -> & Hp & ->) & looks & last & -> & Hl & He & ->) &
      ([] & ms3 & ? & (final & stores & -> & Hs & ->) & [= <- <- <-])).
    split; [done|]. by exists pre, effects, looks, last, final, stores.
  - intros (-> & pre & effects & looks & last & final & stores & -> & Hp & Hl & He & Hs & ->).
    exists tt, (final ++ later), effects. split.
    + exists tt, (looks ++ last :: final ++ later), effects. split; [by exists pre, effects|by exists looks, last].
    + exists tt, later, (effects ++ stores). split; [by exists final, stores|done].
Qed.

(** With an option there is one look, whatever the option. *)
Lemma waitpid_nohang_Done pid stat_loc options ms r later log : options ≠ 0 →
  waitpid pid stat_loc options ms [] = Done r later log ↔
  ∃ pre effects seen tail,
    ms = pre ++ seen :: tail ∧ prepared pre effects ∧
    ((running pid seen ∧ r = 0 ∧ later = tail ∧ log = effects) ∨
     (ended pid seen ∧ r = pid ∧ ∃ final stores, tail = final ++ later ∧ stored stat_loc final stores ∧
        log = effects ++ stores ++ final_flushes)).
Proof.
  intros Ho. unfold waitpid. rewrite (bool_decide_eq_true_2 (options ≠ 0)) by done. simpl.
  rewrite waiter_bind_Done. setoid_rewrite run_prepared_Done. unfold running, ended. split.
  - intros ([] & ms1 & ? & (pre & effects & -> & Hp & ->) & H). apply waiter_bind_Done in H as (x & ms2 & ? & H & H').
    apply read_now_Done in H as (seen & -> & Hx & ->). exists pre, effects, seen, ms2. split_and!; [done..|].
    case_bool_decide as Hz.
    + left. injection H' as <- <- <-. eauto 10.
    + right. assert (x = 0) as -> by (by destruct (decide (x = 0))).
      apply waiter_bind_Done in H' as ([] & ms3 & ? & (final & stores & -> & Hs & ->)%store_status_Done & H').
      injection H' as <- <- <-. rewrite <- app_assoc. eauto 10.
  - intros (pre & effects & seen & tail & -> & Hp & [((x & Hx & Hz) & -> & -> & ->)|
      (He & -> & final & stores & -> & Hs & ->)]).
    + exists tt, (seen :: tail), effects. split; [by exists pre, effects|].
      apply waiter_bind_Done. exists x, tail, effects. split; [by apply read_now_Done; exists seen|].
      by rewrite bool_decide_eq_true_2.
    + exists tt, (seen :: final ++ later), effects. split; [by exists pre, effects|].
      apply waiter_bind_Done. exists 0, (final ++ later), effects. split; [by apply read_now_Done; exists seen|].
      simpl. apply waiter_bind_Done. exists tt, later, (effects ++ stores).
      split; [by apply store_status_Done; exists final, stores|]. unfold mbind, waiter_bind, tell, mret, waiter_ret.
      by rewrite <- app_assoc.
Qed.

End waitpid.

(** ** The calls return *)

Section ends.
Context (f : nat → moment).

(** The moments from the [a]-th on. *)
Definition trace (a n : nat) : list moment := f <$> seq a n.

(** Started at any time, the computation needs only finitely many moments. *)
Definition ends {A} (m : waiter A) (result : A → Prop) : Prop :=
  ∀ a log, ∃ len x log', result x ∧ ∀ n, m (trace a (len + n)) log = Done x (trace (a + len) n) log'.

Lemma ends_ret {A} (x : A) (P : A → Prop) : P x → ends (mret x) P.
Proof. intros HP a log. exists 0%nat, x, log. split; [done|]. intros n. by rewrite Nat.add_0_r. Qed.

Lemma ends_tell es : ends (tell es) (λ _, True).
Proof. intros a log. exists 0%nat, tt, (log ++ es). split; [done|]. intros n. by rewrite Nat.add_0_r. Qed.

Lemma ends_bind {A B} (m : waiter A) (g : A → waiter B) P Q :
  ends m P → (∀ x, P x → ends (g x) Q) → ends (m ≫= g) Q.
Proof.
  intros Hm Hg a log. destruct (Hm a log) as (l1 & x & log1 & Hx & H1).
  destruct (Hg x Hx (a + l1)%nat log1) as (l2 & y & log2 & Hy & H2).
  exists (l1 + l2)%nat, y, log2. split; [done|]. intros n. unfold mbind, waiter_bind.
  rewrite <- Nat.add_assoc, H1, H2, Nat.add_assoc. done.
Qed.

Lemma ends_read {A} (g : moment → outcome A) : (∀ k, defined (g (f k))) → ends (read_now g) (λ _, True).
Proof.
  intros Hd a log. destruct (Hd a) as [x Hx]. exists 1%nat, x, log. split; [done|]. intros n.
  rewrite Nat.add_1_r. simpl. by rewrite Hx.
Qed.

(** A loop that passes every moment ends at the latest when it need not wait
    any more. *)
Lemma ends_loop (loop : waiter unit) (stop : moment → Prop) `{!∀ m, Decision (stop m)} from :
  (∀ k ms log, stop (f k) → loop (f k :: ms) log = Done tt ms log) →
  (∀ k log, ¬ stop (f k) → ∃ log', ∀ ms, loop (f k :: ms) log = loop ms log') →
  (∀ k, (from ≤ k)%nat → stop (f k)) →
  ends loop (λ _, True).
Proof.
  intros Hstop Hgo Hfrom a log. remember (from - a)%nat as d eqn:Ed.
  revert a log Ed. induction d as [|d IH]; intros a log Ed.
  - exists 1%nat, tt, log. split; [done|]. intros n. rewrite Nat.add_1_r. apply Hstop, Hfrom. lia.
  - destruct (decide (stop (f a))) as [Hs|Hs].
    + exists 1%nat, tt, log. split; [done|]. intros n. rewrite Nat.add_1_r. by apply Hstop.
    + destruct (Hgo a log Hs) as [log1 H1].
      destruct (IH (S a) log1) as (len & [] & log2 & _ & H2); [lia|].
      exists (S len), tt, log2. split; [done|]. intros n. simpl.
      change (trace a (S (len + n))) with (f a :: trace (S a) (len + n)). rewrite H1, H2.
      by rewrite Nat.add_succ_r.
Qed.
End ends.

Section terminates.
Context (found has_stdout has_stderr : bool) (f : nat → moment) (pid : Z) (from : nat).
Context (Hquiet : ∀ k, (from ≤ k)%nat → ¬ preparing (f k)).
Context (Hended : ∀ k, (from ≤ k)%nat → ended pid (f k)).
Context (Hdefined : ∀ k, defined (look pid (f k))).

Lemma run_prepared_ends : ends f (run_prepared found has_stdout has_stderr) (λ _, True).
Proof.
  eapply ends_bind; [|intros; apply ends_tell]. destruct found; [|apply ends_tell].
  eapply ends_bind; [|intros; apply ends_tell].
  apply (ends_loop f _ (λ m, ¬ preparingWebAssemblyCommands (now_wasm m) > 0)) with (from := from).
  - intros k ms log Hs. simpl. by rewrite bool_decide_eq_false_2.
  - intros k log Hs. eexists. intros ms. simpl. rewrite bool_decide_eq_true_2 by (by apply dec_stable). done.
  - done.
Qed.

Lemma look_loop_ends : ends f (look_loop pid) (λ _, True).
Proof.
  assert (∀ m, Decision (look pid m = Ret 0)) as Hdec.
  { intros m. destruct (look pid m) as [x|u]; [|by right]. destruct (decide (x = 0)) as [->|]; [by left|right; congruence]. }
  apply (ends_loop f _ (λ m, look pid m = Ret 0)) with (from := from).
  - intros k ms log Hs. simpl. by rewrite Hs.
  - intros k log Hs. exists log. intros ms. simpl. destruct (Hdefined k) as [x Hx]. rewrite Hx.
    rewrite bool_decide_eq_true_2; [done|congruence].
  - done.
Qed.

Lemma waitpid_ends stat_loc : ends f (waitpid found has_stdout has_stderr pid stat_loc 0) (λ r, r = pid).
Proof.
  unfold waitpid. simpl. eapply ends_bind; [eapply ends_bind; [apply run_prepared_ends|intros; apply look_loop_ends]|].
  intros _ _. eapply ends_bind; [|intros; by apply ends_ret]. unfold store_status. destruct stat_loc; [|apply ends_tell].
  eapply ends_bind; [|intros; apply ends_tell]. apply ends_read. intros k. by eexists.
Qed.
End terminates.

(** ** Waiting for a process of the system *)

(** A state of the processes and what else a look can find. *)
Definition observation : Type := procs * (wasm * Z * Z).
Definition observe (o : observation) : moment :=
  let '(s, (w, last, status)) := o in Moment w (pr_table s) last status.

Section follows.
Context (chdir_nolock : string → string → string) (vars : list string) (dir : string) (n : nat).
Let reached (o : observation) : Prop :=
  reachable (proc_step chdir_nolock) (λ x, x = procs_start vars dir n) o.1.

(** A look finds the thread of a number that was handed out and not yet
    released, and nothing otherwise. *)
Lemma look_live pid o : 1 ≤ pid ≤ 127 → reached o →
  ∃ x, look pid (observe o) = Ret x ∧ (x ≠ 0 ↔ pid ∈ pr_live o.1).
Proof.
  intros Hp Hr. apply procs_reachable_inv in Hr. destruct o as [s [[w last] status]]. simpl in *.
  destruct (slot_range (thread_ids (pr_table s)) pid) as (x & Hx & Hs);
    [by apply wf_threads, pi_wf|lia|].
  exists x. unfold look, wait_target, ios_getThreadId, IOS_MAX_THREADS. simpl.
  rewrite (bool_decide_eq_false_2 (pid = -1)), (bool_decide_eq_false_2 (pid = 0)),
    (bool_decide_eq_false_2 (pid >= 128)) by lia.
  split; [done|]. rewrite pi_live by done. unfold pid_free. rewrite Hx. naive_solver.
Qed.

Lemma running_live pid o : 1 ≤ pid ≤ 127 → reached o → running pid (observe o) ↔ pid ∈ pr_live o.1.
Proof. intros Hp Hr. destruct (look_live pid o Hp Hr) as (x & E & Hx). unfold running. rewrite E. naive_solver. Qed.

Lemma ended_live pid o : 1 ≤ pid ≤ 127 → reached o → ended pid (observe o) ↔ pid ∉ pr_live o.1.
Proof.
  intros Hp Hr. destruct (look_live pid o Hp Hr) as (x & E & Hx). unfold ended. rewrite E, <- Hx.
  destruct (decide (x = 0)); naive_solver.
Qed.
End follows.

(** C29: a wait for a process follows its life: [waitpid] without
    options, called while other threads fork, start and release processes,
    returns exactly when one of its looks finds that the number is not handed
    out any more, and at the first such look; the prepared WebAssembly
    commands have been run before, once; the status stored is that of the
    session at the next access. *)
Theorem waitpid_follows_process (found has_stdout has_stderr stat_loc : bool)
    (chdir_nolock : string → string → string) (vars : list string) (dir : string) (n : nat)
    (pid : Z) (obs : list observation) r later log :
  1 ≤ pid ≤ 127 →
  Forall (λ o, reachable (proc_step chdir_nolock) (λ x, x = procs_start vars dir n) o.1) obs →
  waitpid found has_stdout has_stderr pid stat_loc 0 (observe <$> obs) [] = Done r later log ↔
  r = pid ∧ ∃ pre effects looks last final stores rest,
    obs = pre ++ looks ++ last :: final ++ rest ∧ later = observe <$> rest ∧
    prepared found has_stdout has_stderr (observe <$> pre) effects ∧
    Forall (λ o, pid ∈ pr_live o.1) looks ∧ pid ∉ pr_live last.1 ∧
    stored stat_loc (observe <$> final) stores ∧ log = effects ++ stores.
Proof.
  intros Hp Hr. rewrite waitpid_Done. split.
  - intros (-> & pre & effects & looks & last & final & stores & E & Hpre & Hl & He & Hs & ->).
    split; [done|]. apply fmap_app_inv in E as (pre' & obs1 & -> & E & ->).
    symmetry in E. apply fmap_app_inv in E as (looks' & obs2 & -> & E & ->).
    symmetry in E. apply fmap_cons_inv in E as (last' & obs3 & -> & E & ->).
    symmetry in E. apply fmap_app_inv in E as (final' & rest & -> & -> & ->).
    apply Forall_app in Hr as [_ [Hr1 [Hr2 _]%Forall_cons_1]%Forall_app].
    exists pre', effects, looks', last', final', stores, rest. split_and!; try done.
    + rewrite Forall_fmap in Hl. rewrite Forall_forall in Hl, Hr1 |- *. intros o Ho.
      by apply (running_live _ _ _ _ pid o Hp (Hr1 o Ho)), Hl.
    + by apply (ended_live _ _ _ _ pid _ Hp Hr2).
  - intros (-> & pre & effects & looks & last & final & stores & rest & -> & -> & Hpre & Hl & He & Hs & ->).
    split; [done|]. apply Forall_app in Hr as [_ [Hr1 [Hr2 _]%Forall_cons_1]%Forall_app].
    exists (observe <$> pre), effects, (observe <$> looks), (observe last), (observe <$> final), stores.
    rewrite !fmap_app. split_and!; try done.
    + by rewrite fmap_cons, fmap_app.
    + apply Forall_fmap. rewrite Forall_forall in Hl, Hr1 |- *. intros o Ho.
      by apply (running_live _ _ _ _ pid o Hp (Hr1 o Ho)), Hl.
    + by apply (ended_live _ _ _ _ pid _ Hp Hr2).
Qed.

(** Two threads; the second forks process 1, which runs and is released. *)
Definition wait_history (k : nat) : procs :=
  default (procs_start [] "/" 2)
    (run (proc_step no_chdir) (take k [EvFork 1; EvStore 1 77; EvRelease 1 77]) (procs_start [] "/" 2)).

Lemma wait_history_reachable k :
  reachable (proc_step no_chdir) (λ x, x = procs_start [] "/" 2) (wait_history k).
Proof.
  unfold wait_history. destruct (run _ _ _) as [s|] eqn:E; simpl; [|by apply reachable_init].
  eapply run_reachable; [by apply reachable_init|exact E].
Qed.

Lemma wait_history_over k : (3 ≤ k)%nat → wait_history k = wait_history 3.
Proof. intros Hk. unfold wait_history. by rewrite take_ge. Qed.

Definition wait_observations : list observation :=
  [(wait_history 1, (Wasm 1 1 0, 0, 5)); (wait_history 1, (Wasm 0 1 0, 0, 5));
   (wait_history 1, (Wasm 0 0 1, 0, 5)); (wait_history 2, (Wasm 0 0 1, 0, 5));
   (wait_history 3, (Wasm 0 0 1, 0, 3)); (wait_history 3, (Wasm 0 0 1, 0, 3))].

Lemma waitpid_follows_process_witness :
  ∃ effects stores,
    waitpid true true false 1 true 0 (observe <$> wait_observations) [] = Done 1 [] (effects ++ stores) ∧
    effects = [FlushStdout; RunCommands; ResetOrder] ∧ stores = [StoreStatus 768].
Proof.
  assert (Forall (λ o : observation, reachable (proc_step no_chdir) (λ x, x = procs_start [] "/" 2) o.1)
    wait_observations) as Hr by (repeat (apply List.Forall_cons; [apply wait_history_reachable|]); apply List.Forall_nil).
  exists [FlushStdout; RunCommands; ResetOrder], [StoreStatus 768]. split; [|done].
  apply (proj2 (waitpid_follows_process true true false true no_chdir [] "/" 2 1 wait_observations _ _ _
    ltac:(lia) Hr)). split; [done|].
  eexists (take 2 wait_observations), _, (take 2 (drop 2 wait_observations)), _, (drop 5 wait_observations), _, [].
  split; [reflexivity|]. split; [done|].
  split; [eexists (take 1 (observe <$> wait_observations)), _; split; [reflexivity|]; split_and!; [|done|reflexivity];
    by apply List.Forall_cons|].
  split; [apply (bool_decide_unpack _); by vm_compute|].
  split; [apply (bool_decide_unpack _); by vm_compute|]. split; [by eexists|reflexivity].
Defined.

(** C30: a wait returns when the command ends for good: if the number is
    free from some time on and no WebAssembly command is being prepared then,
    [waitpid] without options returns the number after finitely many accesses,
    whatever happened before. *)
Theorem waitpid_terminates (found has_stdout has_stderr stat_loc : bool) (f : nat → moment) (pid : Z) (from : nat) :
  (∀ k, (from ≤ k)%nat → ¬ preparing (f k) ∧ ended pid (f k)) → (∀ k, defined (look pid (f k))) →
  ∃ steps log, waitpid found has_stdout has_stderr pid stat_loc 0 (f <$> seq 0 steps) [] = Done pid [] log.
Proof.
  intros Hf Hd.
  destruct (waitpid_ends found has_stdout has_stderr f pid from (λ k H, proj1 (Hf k H)) (λ k H, proj2 (Hf k H)) Hd
    stat_loc 0%nat []) as (len & r & log & -> & H).
  exists len, log. specialize (H 0%nat). by rewrite Nat.add_0_r in H.
Qed.

Lemma waitpid_terminates_witness :
  ∃ steps log, waitpid true true true 1 true 0 ((λ k, observe (wait_history k, (wasm_init, 0, 3))) <$> seq 0 steps) []
    = Done 1 [] log.
Proof.
  apply (waitpid_terminates true true true true (λ k, observe (wait_history k, (wasm_init, 0, 3))) 1 3).
  - intros k Hk. split; [by vm_compute|]. rewrite wait_history_over by done. by vm_compute.
  - intros k. destruct (decide (3 ≤ k)%nat); [rewrite wait_history_over by done; vm_compute; by eexists|].
    do 3 (destruct k as [|k]; [vm_compute; by eexists|]). lia.
Defined.

(** ** The status *)

(** The exit status a caller gets out of [*stat_loc] is the status of the
    session modulo 256, and the command counts as exited. *)
Lemma exit_status_roundtrip n :
  WEXITSTATUS (W_EXITCODE n 0) = n `mod` 256 ∧ WIFEXITED (W_EXITCODE n 0) = true.
Proof.
  unfold W_EXITCODE, WEXITSTATUS, WIFEXITED, wrapS. rewrite Z.lor_0_r, Z.shiftl_mul_pow2 by lia.
  change 255 with (Z.ones 8). change 127 with (Z.ones 7). rewrite !Z.land_ones, Z.shiftr_div_pow2 by lia.
  change (2 ^ (32 - 1)) with (8388608 * 256). change (2 ^ 32) with (16777216 * 256). change (2 ^ 8) with 256.
  change (2 ^ 7) with 128. rewrite <- Z.mul_add_distr_r, Z.mul_mod_distr_r, <- Z.mul_sub_distr_r by lia.
  rewrite Z.div_mul by lia. set (x := (n + 8388608) `mod` 16777216 - 8388608). split.
  - subst x. Z.to_euclidean_division_equations. lia.
  - apply bool_decide_eq_true_2. replace (x * 256) with (x * 2 * 128) by lia. apply Z.mod_mul. lia.
Qed.

(** The status is that of the session, not of the process: two waits that look
    at the same moments, for any two processes that have ended, store the same
    status. *)
Theorem status_of_session (has_stdout has_stderr : bool) (pid pid' : Z) (m m' : moment) :
  ended pid m → ended pid' m →
  waitpid false has_stdout has_stderr pid true 0 [m; m'] [] =
    Done pid [] [ResetOrder; StoreStatus (W_EXITCODE (now_status m') 0)] ∧
  waitpid false has_stdout has_stderr pid' true 0 [m; m'] [] =
    Done pid' [] [ResetOrder; StoreStatus (W_EXITCODE (now_status m') 0)].
Proof.
  unfold ended. intros H H'. unfold waitpid, ios_waitpid, run_prepared, mbind, waiter_bind, tell. simpl.
  by rewrite H, H'.
Qed.

(** A wait for any child that succeeds returns the -1 it was given, which is
    also the answer for an error. *)
Theorem waitpid_any_child (found has_stdout has_stderr stat_loc : bool) ms r later log :
  waitpid found has_stdout has_stderr (-1) stat_loc 0 ms [] = Done r later log → r = -1.
Proof. rewrite waitpid_Done. by intros [-> _]. Qed.

(** A wait for a process group reads before the start of the table. *)
Theorem waitpid_group (found has_stdout has_stderr stat_loc : bool) pid m ms :
  pid < -1 → ¬ preparing m →
  waitpid found has_stdout has_stderr pid stat_loc 0 (m :: m :: ms) [] = Wrong OutOfBounds.
Proof.
  intros Hp Hq. assert (look pid m = Undef OutOfBounds) as Hl.
  { unfold look, wait_target, ios_getThreadId, IOS_MAX_THREADS, slot.
    rewrite (bool_decide_eq_false_2 (pid = -1)), (bool_decide_eq_false_2 (pid = 0)),
      (bool_decide_eq_false_2 (pid >= 128)), (bool_decide_eq_false_2 (0 ≤ pid)) by lia. done. }
  unfold waitpid, ios_waitpid, run_prepared, mbind, waiter_bind, tell. simpl.
  destruct found; simpl; [rewrite (bool_decide_eq_false_2 _ Hq)|]; simpl; by rewrite Hl.
Qed.

(** One round of [preparing_loop] waits exactly when the model of the counters
    does. *)
Lemma preparing_look m :
  executeWebAssemblyCommandsInOrder true (now_wasm m) = None ↔ preparing m.
Proof. unfold executeWebAssemblyCommandsInOrder, preparing. by case_bool_decide. Qed.
