(* ===== verification/Redirections.v ===== *)
(** * Redirections ([ios_system], [src/ios_system.m])

    [ios_system] looks for [<], [>], [>>], [2>], [2>&1] and [&>] in the line of
    a command, ends the line and the names of the files in place, and opens the
    files.
    - The line is a buffer of characters, a pointer an index into it; the code
      ends strings by writing NULs, so a buffer has NULs in it and [cstr] is the
      string at an index.  Scanning can shorten a quoted word in place.
    - [parse_redirections] finds and cuts out the names; [open_redirections]
      opens them and decides which streams the command gets.
    - Theorems: a line printed from words and redirections, in any order, is
      taken apart into them; the streams of a command; the branches for pipes
      in this part of the code are dead.  Combinations that are taken apart
      differently from what a shell does are exhibited. *)

From Stdlib Require Import Ascii.
From S2P Require Import Prelude Quoting Arguments.

Definition NUL : ascii := ascii_of_nat 0.
Definition LESS : ascii := ascii_of_nat 60.
Definition GREATER : ascii := ascii_of_nat 62.

(** ** The buffer *)

(** The string at a pointer. *)
Definition cstr (buf : text) (p : nat) : text :=
  (fix go (s : text) : text :=
     match s with
     | [] => []
     | c :: s => if bool_decide (c = NUL) then [] else c :: go s
     end) (drop p buf).

(** [strstrquoted(p, pattern)]. *)
Definition find_at (buf : text) (p : nat) (pattern : text) : option nat :=
  shift p (strstrquoted (cstr buf p) pattern).

(** [while ((p[0] == ' ') && strlen(p) > 0) p++;] *)
Definition skip_spaces (buf : text) (p : nat) : nat :=
  p + (length (cstr buf p) - length (skip_while (λ c, bool_decide (c = SPACE)) (cstr buf p))).

(** A string at [p] is replaced by one that is not longer. *)
Definition store_string (buf : text) (p : nat) (s : text) : text :=
  if bool_decide (length s < length (cstr buf p))
  then take p buf ++ s ++ NUL :: drop (p + length s + 1) buf
  else take p buf ++ s ++ drop (p + length s) buf.

(** [endFile = getLastCharacterOfArgument(p); if (endFile) endFile[0] = 0x00;] *)
Definition end_argument (buf : text) (p : nat) : outcome text :=
  '(s, e) ← getLastCharacterOfArgument (length (cstr buf p) + 1) (cstr buf p);
  let buf := store_string buf p s in
  Ret (match e with Some e => <[p + e := NUL]> buf | None => buf end).

(** [p = unquoteArgument(p)]: removing the backslashes moves the rest of the
    string and its NUL. *)
Definition unquote_at (buf : text) (p : nat) : text * nat :=
  let s := cstr buf p in
  if surrounded DQUOTE s || surrounded SQUOTE s || surrounded RECORD_SEPARATOR s
  then (<[p + length s - 1 := NUL]> buf, p + 1)
  else
    let s' := remove_backslashes s in
    (take p buf ++ s' ++ replicate (length s - length s') NUL ++ drop (p + length s) buf, p).

(** ** Parsing *)

(** [setuptools<=56]: the sign is not a redirection after [--]. *)
Definition after_sign (buf : text) (marker : nat) : option nat :=
  if bool_decide (buf !! (marker + 1) = Some EQUALS) then
    match find_at buf 0 (chars " -- ") with
    | None => Some (marker + 1)
    | Some doubleDashMarker => if bool_decide (marker < doubleDashMarker) then Some (marker + 1) else None
    end
  else Some (marker + 1).

Definition input_file (buf : text) : option nat * option nat :=
  match find_at buf 0 [LESS] with
  | None => (None, None)
  | Some inputFileMarker => (Some inputFileMarker, skip_spaces buf <$> after_sign buf inputFileMarker)
  end.

(** Where the markers and the names are. *)
Record markers := Markers {
  errorFileMarker : option nat;
  outputFileMarker : option nat;
  outputFileName : option nat;
  errorFileName : option nat;
  sharedErrorOutput : bool;
  appendToFileName : bool }.

(** [&>], then [2>&1], then [2>]. *)
Definition error_file (buf : text) : markers :=
  match find_at buf 0 (chars "&>") with
  | Some e => Markers (Some e) (Some e) (Some (e + 2)) None true false
  | None =>
      match find_at buf 0 (chars "2>&1") with
      | Some e =>
          let om := find_at buf 0 [GREATER] in
          let om := if bool_decide (om = Some (e + 1)) then find_at buf (e + 3) [GREATER] else om in
          Markers (Some e) om (S <$> om) None true false
      | None =>
          match find_at buf 0 (chars "2>") with
          | Some e => Markers (Some e) (Some 0) None (Some (skip_spaces buf (e + 2))) false false
          | None => Markers None (Some 0) None None false false
          end
      end
  end.

(** [>] and [>>] from [from] on; [plain_sign] is the pointer after a single sign. *)
Definition output_file (buf : text) (from : nat) (plain_sign : nat → option nat) (m : markers) : markers :=
  match find_at buf from [GREATER] with
  | None => Markers (errorFileMarker m) None None (errorFileName m) (sharedErrorOutput m) (appendToFileName m)
  | Some om =>
      if bool_decide (buf !! (om + 1) = Some GREATER)
      then Markers (errorFileMarker m) (Some om) (Some (om + 2)) (errorFileName m) (sharedErrorOutput m) true
      else Markers (errorFileMarker m) (Some om) (plain_sign om) (errorFileName m) (sharedErrorOutput m)
             (appendToFileName m)
  end.

Definition skip_output (buf : text) (m : markers) : markers :=
  Markers (errorFileMarker m) (outputFileMarker m) (skip_spaces buf <$> outputFileName m) (errorFileName m)
    (sharedErrorOutput m) (appendToFileName m).

Definition find_markers (buf : text) : markers :=
  let m := error_file buf in
  let m :=
    if sharedErrorOutput m then
      match outputFileName m with
      | None => Markers (errorFileMarker m) None None (errorFileName m) true (appendToFileName m)
      | Some _ => m
      end
    else output_file buf 0 (after_sign buf) m in
  let m := skip_output buf m in
  match errorFileName m with
  | Some e =>
      (* we got the same ">" twice, pick the next one *)
      if bool_decide (outputFileName m = Some e)
      then skip_output buf (output_file buf e (λ om, Some (om + 1)) m)
      else m
  | None => m
  end.

(** Applies an edit of the buffer at a pointer that may be [NULL]. *)
Definition edit (f : text → nat → outcome text) (p : option nat) (buf : text) : outcome text :=
  match p with Some p => f buf p | None => Ret buf end.

Definition cut (buf : text) (p : nat) : outcome text := Ret (<[p := NUL]> buf).

Definition unquote_opt (p : option nat) (buf : text) : text * option nat :=
  match p with
  | Some p => let '(buf, p) := unquote_at buf p in (buf, Some p)
  | None => (buf, None)
  end.

(** What is found: the line of the command and the names of the files. *)
Record redirections := Redirections {
  command : text;
  input : option text;
  output : option text;
  error : option text;
  shared : bool;
  append : bool }.
Global Instance redirections_eq_dec : EqDecision redirections.
Proof. solve_decision. Defined.

Definition parse_redirections (buf : text) : outcome redirections :=
  if bool_decide (RECORD_SEPARATOR ∈ buf) then Ret (Redirections buf None None None false false)
  else
    let '(inputFileMarker, inputFileName) := input_file buf in
    let m := find_markers buf in
    buf ← edit end_argument (outputFileName m) buf;
    buf ← edit end_argument inputFileName buf;
    buf ← edit end_argument (errorFileName m) buf;
    buf ← edit cut inputFileMarker buf;
    buf ← edit cut (outputFileMarker m) buf;
    buf ← edit cut (errorFileMarker m) buf;
    let '(buf, outputFileName) := unquote_opt (outputFileName m) buf in
    let '(buf, inputFileName) := unquote_opt inputFileName buf in
    let '(buf, errorFileName) := unquote_opt (errorFileName m) buf in
    Ret (Redirections (cstr buf 0) (cstr buf <$> inputFileName) (cstr buf <$> outputFileName)
           (cstr buf <$> errorFileName) (sharedErrorOutput m) (appendToFileName m)).

(** [2>&1] was found, and not [&>]. *)
Definition merges (buf : text) : bool :=
  bool_decide (RECORD_SEPARATOR ∉ buf) && bool_decide (find_at buf 0 (chars "&>") = None) &&
  bool_decide (find_at buf 0 (chars "2>&1") ≠ None).

(** ** Opening the files *)

(** A stream is the address of its [FILE]. *)
Abbreviation stream := positive (only parsing).

(** The streams in [params], the ones that have been closed. *)
Record opening := Opening {
  p_stdin : option stream;
  p_stdout : option stream;
  p_stderr : option stream;
  closed_streams : gset stream }.

Section opening.
(** [fopen] on the expanded name, the descriptor of a stream, the streams of
    the session and of the calling thread. *)
Context (fopen : text → string → option stream) (fileno : stream → Z).
Context (session_stdout session_stderr thread_stdin thread_stdout thread_stderr : stream).

(** [if (fileno(old) != fileno(session)) fclose(old);] *)
Definition close_unless_session (session old : stream) (closed : gset stream) : outcome (gset stream) :=
  if bool_decide (old ∈ closed) then Undef UseAfterFree
  else Ret (if bool_decide (fileno old ≠ fileno session) then {[ old ]} ∪ closed else closed).

Definition open_input (r : redirections) (p : opening) : opening :=
  let stdin := match input r ≫= (λ f, fopen f "r") with Some s => Some s | None => p_stdin p end in
  Opening (Some (default thread_stdin stdin)) (p_stdout p) (p_stderr p) (closed_streams p).

Definition open_output (r : redirections) (p : opening) : outcome opening :=
  match output r ≫= (λ f, fopen f (if append r then "a" else "w")) with
  | Some s =>
      closed ← match p_stdout p with
               | Some old => close_unless_session session_stdout old (closed_streams p)
               | None => Ret (closed_streams p)
               end;
      Ret (Opening (p_stdin p) (Some s) (p_stderr p) closed)
  | None => Ret (Opening (p_stdin p) (Some (default thread_stdout (p_stdout p))) (p_stderr p) (closed_streams p))
  end.

Definition open_error (r : redirections) (p : opening) : outcome opening :=
  let replace s :=
    closed ← match p_stderr p with
             | Some old => close_unless_session session_stderr old (closed_streams p)
             | None => Ret (closed_streams p)
             end;
    Ret (Opening (p_stdin p) (p_stdout p) s closed) in
  p ← (if shared r && bool_decide (p_stderr p ≠ p_stdout p) then replace (p_stdout p)
       else
         match error r ≫= (λ f, fopen f "w") with
         | Some s => replace (Some s)
         | None => Ret p
         end);
  Ret (Opening (p_stdin p) (p_stdout p) (Some (default thread_stderr (p_stderr p))) (closed_streams p)).

(** [params] starts with the streams set by [dup2] or [popen]. *)
Definition open_redirections (merged : bool) (r : redirections) (p : opening) : outcome opening :=
  let p := if merged then
             match p_stdout p with
             | Some s => Opening (p_stdin p) (p_stdout p) (Some s) (closed_streams p)
             | None => p
             end
           else p in
  p ← open_output r (open_input r p);
  open_error r p.

(** The streams a command line gets. *)
Definition command_streams (line : text) (p : opening) : outcome (text * opening) :=
  r ← parse_redirections line;
  p ← open_redirections (merges line) r p;
  Ret (command r, p).
End opening.

(** ** Searching a line word by word *)

Definition bare (c : ascii) : Prop := is_quote c = false ∧ c ≠ BACKSLASH ∧ c ≠ SPACE ∧ c ≠ RECORD_SEPARATOR ∧ c ≠ NUL.
Definition bare_word (w : text) : Prop := Forall bare w.

(** The words with single spaces between them. *)
Fixpoint join (ws : list text) : text :=
  match ws with
  | [] => []
  | [w] => w
  | w :: ws => w ++ SPACE :: join ws
  end.

Definition size (ws : list text) : nat := sum_list_with (λ w, length w + 1) ws.

Lemma size_app ws ws' : size (ws ++ ws') = size ws + size ws'.
Proof. unfold size. induction ws; simpl; lia. Qed.

Lemma join_line_cons w ws : ws ≠ [] → join (w :: ws) = w ++ SPACE :: join ws.
Proof. by destruct ws. Qed.

Lemma join_app ws ws' : ws ≠ [] → ws' ≠ [] → join (ws ++ ws') = join ws ++ SPACE :: join ws'.
Proof.
  intros H H'. induction ws as [|w ws IH]; [done|]. destruct ws as [|w' ws].
  - by apply join_line_cons.
  - rewrite <- app_comm_cons, join_line_cons, IH, (join_line_cons w) by done. by rewrite <- app_assoc.
Qed.

Lemma length_join ws : ws ≠ [] → length (join ws) + 1 = size ws.
Proof.
  induction ws as [|w ws IH]; [done|]. intros _. destruct ws as [|w' ws]; [unfold size; simpl; lia|].
  rewrite join_line_cons, length_app, length_cons by done.
  change (size (w :: w' :: ws)) with (length w + 1 + size (w' :: ws)). rewrite <- IH by done. lia.
Qed.

(** The part of a line from a word on. *)
Lemma drop_join ws ws' : ws' ≠ [] → drop (size ws) (join (ws ++ ws')) = join ws'.
Proof.
  intros H. destruct (decide (ws = [])) as [->|Hw]; [done|]. rewrite join_app by done.
  rewrite <- length_join by done. replace (length (join ws) + 1) with (length (join ws ++ [SPACE])) by (rewrite length_app; simpl; lia).
  change (SPACE :: join ws') with ([SPACE] ++ join ws'). rewrite app_assoc. apply drop_app_length.
Qed.

Lemma quoted_scan_chars w p i e m k : bare_word w → quoted_scan w p i None e m = Some k →
  ∀ c, c ∈ drop m p → c ∈ w.
Proof.
  intros Hw. revert i e m. induction Hw as [|ch w (Hq & Hb & _) Hw IH]; intros i e m; simpl; [done|].
  rewrite Hq, (bool_decide_eq_false_2 (ch = BACKSLASH)) by done.
  case_bool_decide as Hm.
  - rewrite (drop_S p ch m) by done. case_bool_decide as Hl.
    + intros _ c. rewrite (drop_ge p) by lia. set_solver.
    + intros H c. specialize (IH _ _ _ H c). set_solver.
  - intros H c Hc. apply list_elem_of_further, (IH _ _ _ H). rewrite drop_0.
    by eapply subseteq_drop.
Qed.

(** A pattern is looked for in each word: a space ends every partial match. *)
Definition sign_pattern (p : text) : Prop := p ≠ [] ∧ bare_word p.

Lemma quoted_scan_word w rest p i j e e' m : sign_pattern p → bare_word w → m ≤ i → m < length p →
  quoted_scan (w ++ SPACE :: rest) p (j + i) None e m =
  match quoted_scan w p i None e' m with
  | Some k => Some (j + k)
  | None => quoted_scan rest p (j + i + length w + 1) None e 0
  end.
Proof.
  intros [Hp Hpb] Hw. revert i e e' m. induction Hw as [|ch w (Hq & Hb & _) Hw IH]; intros i e e' m Hm Hl.
  - cbn [quoted_scan app]. change (is_quote SPACE) with false. cbv iota.
    rewrite (bool_decide_eq_false_2 (SPACE = BACKSLASH)), (bool_decide_eq_false_2 (p !! m = Some SPACE)).
    + f_equal. simpl. lia.
    + intros H. eapply Forall_lookup_1 in H; [|exact Hpb]. by destruct H as (_ & _ & ? & _).
    + done.
  - cbn [quoted_scan app]. rewrite Hq, (bool_decide_eq_false_2 (ch = BACKSLASH)) by done.
    replace (S (j + i)) with (j + S i) by lia. replace (j + i + length (ch :: w) + 1) with (j + S i + length w + 1) by (simpl; lia).
    case_bool_decide; [case_bool_decide|].
    + f_equal. lia.
    + apply IH; lia.
    + apply IH; lia.
Qed.

Definition word_find (p w : text) : option nat := quoted_scan w p 0 None 0 0.

Fixpoint find_words (p : text) (ws : list text) : option nat :=
  match ws with
  | [] => None
  | w :: ws => match word_find p w with Some k => Some k | None => shift (length w + 1) (find_words p ws) end
  end.

Lemma shift_shift a b o : shift a (shift b o) = shift (a + b) o.
Proof. destruct o; simpl; [f_equal; lia|done]. Qed.
Lemma shift_0 o : shift 0 o = o.
Proof. by destruct o. Qed.

Lemma quoted_scan_shift w p i j e e' m : bare_word w → m ≤ i →
  quoted_scan w p (j + i) None e m = shift j (quoted_scan w p i None e' m).
Proof.
  intros Hw. revert i e e' m. induction Hw as [|ch w (Hq & Hb & _) Hw IH]; intros i e e' m Hm; simpl; [done|].
  rewrite Hq, (bool_decide_eq_false_2 (ch = BACKSLASH)) by done. replace (S (j + i)) with (j + S i) by lia.
  case_bool_decide; [case_bool_decide|].
  - simpl. f_equal. lia.
  - apply IH; lia.
  - apply IH; lia.
Qed.

Lemma quoted_scan_join ws p j e : sign_pattern p → Forall bare_word ws →
  quoted_scan (join ws) p j None e 0 = shift j (find_words p ws).
Proof.
  intros Hp Hw. assert (0 < length p) as Hl by (destruct Hp; by destruct p; simpl; [|lia]).
  revert j e. induction Hw as [|w ws Hw Hws IH]; intros j e; [done|].
  destruct (decide (ws = [])) as [->|Hne].
  - cbn [join find_words]. unfold word_find. replace j with (j + 0) at 1 by lia. rewrite (quoted_scan_shift w p 0 j e 0) by (done || lia).
    by destruct (quoted_scan w p 0 None 0 0).
  - rewrite join_line_cons by done. cbn [find_words]. unfold word_find. replace j with (j + 0) at 1 by lia.
    rewrite (quoted_scan_word w _ p 0 j e 0) by (done || lia). destruct (quoted_scan w p 0 None 0 0); [done|].
    rewrite IH, shift_shift. f_equal. lia.
Qed.

Lemma quoted_scan_short w p i e m : bare_word w → length w + m < length p → quoted_scan w p i None e m = None.
Proof.
  intros Hw. revert i e m. induction Hw as [|ch w (Hq & Hb & _) Hw IH]; intros i e m Hl; simpl in *; [done|].
  rewrite Hq, (bool_decide_eq_false_2 (ch = BACKSLASH)) by done.
  case_bool_decide; [rewrite bool_decide_eq_false_2 by lia|]; apply IH; lia.
Qed.

Lemma quoted_scan_self p m e : bare_word p → m < length p → quoted_scan (drop m p) p m None e m = Some 0.
Proof.
  intros Hp Hm. remember (length p - m) as d eqn:Ed. revert m e Hm Ed. induction d as [|d IH]; intros m e Hm Ed; [lia|].
  destruct (lookup_lt_is_Some_2 p m Hm) as [ch Hch]. rewrite (drop_S p ch m Hch).
  pose proof (Forall_lookup_1 _ _ _ _ Hp Hch) as (Hq & Hb & _). cbn [quoted_scan].
  rewrite Hq, (bool_decide_eq_false_2 (ch = BACKSLASH)), (bool_decide_eq_true_2 (p !! m = Some ch)) by done.
  case_bool_decide; [f_equal; lia|]. apply IH; lia.
Qed.

Lemma find_words_short p ws : Forall bare_word ws → length (join ws) < length p → find_words p ws = None.
Proof.
  induction 1 as [|w ws Hw Hws IH]; intros Hl; [done|]. cbn [find_words].
  assert (length w ≤ length (join (w :: ws)) ∧ length (join ws) ≤ length (join (w :: ws))) as [H1 H2].
  { destruct (decide (ws = [])) as [->|]; [simpl; lia|]. rewrite join_line_cons, length_app, length_cons by done. lia. }
  unfold word_find. rewrite quoted_scan_short, IH; [done|lia|done|lia].
Qed.

Lemma strstrquoted_join p ws : sign_pattern p → Forall bare_word ws → strstrquoted (join ws) p = find_words p ws.
Proof.
  intros Hp Hw. unfold strstrquoted. case_bool_decide as Hl; [by rewrite find_words_short|].
  case_bool_decide as He.
  - destruct Hp as [Hne Hb]. destruct ws as [|w ws]; [by subst|]. destruct (decide (ws = [])) as [->|Hws].
    + simpl in He. subst w. cbn [find_words]. unfold word_find.
      pose proof (quoted_scan_self p 0 0 Hb) as H. rewrite drop_0 in H. rewrite H; [done|]. destruct p; simpl; [done|lia].
    + exfalso. rewrite join_line_cons in He by done. subst p. apply Forall_app in Hb as [_ Hb].
      apply Forall_inv in Hb. by destruct Hb as (_ & _ & ? & _).
  - rewrite quoted_scan_join by done. apply shift_0.
Qed.

Lemma word_find_none p w c : bare_word w → c ∈ p → c ∉ w → word_find p w = None.
Proof.
  intros Hw Hc Hn. destruct (word_find p w) as [k|] eqn:E; [|done]. exfalso.
  apply Hn, (quoted_scan_chars w p 0 0 0 k Hw E). by rewrite drop_0.
Qed.

Lemma find_words_app p ws ws' :
  find_words p (ws ++ ws') = match find_words p ws with Some k => Some k | None => shift (size ws) (find_words p ws') end.
Proof.
  induction ws as [|w ws IH]; [by rewrite shift_0|]. simpl. destruct (word_find p w); [done|]. rewrite IH.
  destruct (find_words p ws); [done|]. simpl. by rewrite shift_shift.
Qed.

(** ** Strings in a buffer that has been cut *)

Definition cuts (buf : text) (ps : list nat) : text := foldr (λ p b, <[p := NUL]> b) buf ps.

Lemma length_cuts buf ps : length (cuts buf ps) = length buf.
Proof. induction ps; simpl; [done|]. by rewrite length_insert. Qed.

Lemma cuts_lookup_ne buf ps i : i ∉ ps → cuts buf ps !! i = buf !! i.
Proof.
  induction ps as [|p ps IH]; intros Hi; simpl; [done|]. apply not_elem_of_cons in Hi as [H1 H2].
  rewrite list_lookup_insert_ne by done. by apply IH.
Qed.

Lemma cuts_lookup_eq buf ps i : i ∈ ps → i < length buf → cuts buf ps !! i = Some NUL.
Proof.
  induction ps as [|p ps IH]; intros Hi Hl; [by apply not_elem_of_nil in Hi|]. simpl.
  destruct (decide (p = i)) as [->|Hn].
  - apply list_lookup_insert_eq. by rewrite length_cuts.
  - rewrite list_lookup_insert_ne by done. apply IH; [|done]. set_solver.
Qed.

(** A string that no cut goes through. *)
Lemma drop_cuts a f rest ps : (∀ q, q ∈ ps → q < length a ∨ length a + length f ≤ q) →
  ∃ rest', drop (length a) (cuts (a ++ f ++ rest) ps) = f ++ rest' ∧ length rest' = length rest ∧
    (∀ k, rest' !! k = cuts (a ++ f ++ rest) ps !! (length a + length f + k)).
Proof.
  intros Hps. set (b := cuts (a ++ f ++ rest) ps).
  exists (drop (length a + length f) b). split_and!.
  - apply list_eq. intros k. rewrite lookup_drop. destruct (decide (k < length f)) as [Hk|Hk].
    + rewrite lookup_app_l by done. unfold b. rewrite cuts_lookup_ne by (intros Hin; apply Hps in Hin; lia).
      rewrite lookup_app_r, lookup_app_l by lia. f_equal. lia.
    + rewrite lookup_app_r, lookup_drop by lia. f_equal. lia.
  - rewrite length_drop. unfold b. rewrite length_cuts, !length_app. lia.
  - intros k. by rewrite lookup_drop.
Qed.

Lemma cstr_app f rest buf p : drop p buf = f ++ rest → NUL ∉ f → cstr buf p = f ++ cstr rest 0.
Proof.
  unfold cstr. intros ->. rewrite drop_0. induction f as [|c f IH]; intros Hn; [done|].
  apply not_elem_of_cons in Hn as [H1 H2]. simpl. rewrite bool_decide_eq_false_2 by done. by rewrite IH.
Qed.

Lemma cstr_end rest : rest !! 0 = None ∨ rest !! 0 = Some NUL → cstr rest 0 = [].
Proof. destruct rest; [done|]. intros [H|H]; simplify_eq/=. done. Qed.

Lemma bare_no_nul w : bare_word w → NUL ∉ w.
Proof. intros Hw Hn. eapply list.Forall_forall in Hw; [|exact Hn]. by destruct Hw as (_ & _ & _ & _ & ?). Qed.

Lemma cstr_cuts a f rest ps : NUL ∉ f → (∀ q, q ∈ ps → q < length a ∨ length a + length f ≤ q) →
  length a + length f ∈ ps ∨ rest = [] → cstr (cuts (a ++ f ++ rest) ps) (length a) = f.
Proof.
  intros Hn Hps Hend. destruct (drop_cuts a f rest ps Hps) as (rest' & E & Hl & Hr).
  rewrite (cstr_app f rest') by done. rewrite cstr_end; [apply app_nil_r|].
  destruct Hend as [Hin| ->].
  - destruct rest' as [|x rest']; [by left|right]. rewrite Hr, Nat.add_0_r. apply cuts_lookup_eq; [done|].
    rewrite !length_app. simpl in Hl. lia.
  - left. by destruct rest'.
Qed.

Lemma cstr_prefix buf p : ∃ rest, drop p buf = cstr buf p ++ rest.
Proof.
  unfold cstr. induction (drop p buf) as [|c s [rest IH]]; [by exists []|].
  case_bool_decide; [by exists (c :: s)|]. exists rest. simpl. by rewrite <- IH.
Qed.

Lemma put_back (buf : text) p s rest : drop p buf = s ++ rest → take p buf ++ s ++ drop (p + length s) buf = buf.
Proof.
  intros E. rewrite <- drop_drop, E, drop_app_length, <- E. apply take_drop.
Qed.

Lemma store_same buf p : store_string buf p (cstr buf p) = buf.
Proof.
  unfold store_string. rewrite bool_decide_eq_false_2 by lia. destruct (cstr_prefix buf p) as [rest E].
  by eapply put_back.
Qed.

(** A name of a file that needs no quotes. *)
Definition file_name (f : text) : Prop := f ≠ [] ∧ bare_word f ∧ LESS ∉ f ∧ GREATER ∉ f.

Lemma bare_notin w c : bare_word w → ¬ bare c → c ∉ w.
Proof. intros Hw Hc Hin. by eapply Hc, list.Forall_forall. Qed.

Lemma bare_head w q : bare_word w → ¬ bare q → head w ≠ Some q.
Proof. intros Hw Hq. destruct w as [|x w]; [done|]. intros [= ->]. by apply Forall_inv in Hw. Qed.

Lemma not_bare_space : ¬ bare SPACE. Proof. by intros (_ & _ & ? & _). Qed.
Lemma not_bare_backslash : ¬ bare BACKSLASH. Proof. by intros (_ & ? & _). Qed.
Lemma not_bare_dquote : ¬ bare DQUOTE. Proof. by intros (? & _). Qed.
Lemma not_bare_squote : ¬ bare SQUOTE. Proof. by intros (? & _). Qed.
Lemma not_bare_separator : ¬ bare RECORD_SEPARATOR. Proof. by intros (_ & _ & _ & ? & _). Qed.
#[local] Hint Resolve not_bare_space not_bare_backslash not_bare_dquote not_bare_squote not_bare_separator bare_notin bare_head : core.

Lemma end_argument_cuts a f rest ps : file_name f → word_end rest →
  (∀ q, q ∈ ps → q < length a ∨ length a + length f ≤ q) →
  end_argument (cuts (a ++ f ++ rest) ps) (length a) = Ret (cuts (a ++ f ++ rest) (length a + length f :: ps)).
Proof.
  intros (Hne & Hb & _) Hw Hps. destruct (drop_cuts a f rest ps Hps) as (rest' & E & Hl & Hr).
  assert (rest' = [] ∨ ∃ x t, rest' = x :: t ∧ (x = NUL ∨ x = SPACE)) as Hx.
  { destruct rest' as [|x t]; [by left|right]. exists x, t. split; [done|].
    specialize (Hr 0). simpl in Hr. rewrite Nat.add_0_r in Hr.
    destruct (decide (length a + length f ∈ ps)) as [Hin|Hni].
    - left. rewrite cuts_lookup_eq in Hr; [congruence|done|]. rewrite !length_app. simpl in Hl. lia.
    - right. rewrite cuts_lookup_ne, app_assoc, lookup_app_r, length_app, Nat.sub_diag in Hr by (done || rewrite length_app; lia).
      destruct Hw as [->|Hw]; [done|]. destruct rest as [|y rest]; [done|]. simplify_eq/=. done. }
  set (buf := cuts (a ++ f ++ rest) ps) in *. unfold end_argument.
  assert (cstr buf (length a) = f ++ cstr rest' 0) as Ec by (apply cstr_app; [done|by apply bare_no_nul]).
  assert (word_end (cstr rest' 0)) as Hwe.
  { destruct Hx as [->|(x & t & -> & [-> | ->])]; [by left|by left|by right]. }
  rewrite Nat.add_1_r, Ec, getLast_plain; [|by auto..]. rewrite <- Ec at 1. simpl. rewrite store_same. f_equal.
  change (cuts (a ++ f ++ rest) (length a + length f :: ps)) with (<[length a + length f := NUL]> buf).
  destruct (decide (cstr rest' 0 = [])) as [Hz|Hz]; [|done]. symmetry.
  destruct Hx as [->|(x & t & -> & [-> | ->])].
  - apply list_insert_ge. unfold buf. rewrite length_cuts. rewrite !length_app. destruct rest; simpl in *; lia.
  - apply list_insert_id. rewrite <- (Nat.add_0_r (length a + length f)), <- Hr. done.
  - done.
Qed.

Lemma unquote_at_bare buf p : bare_word (cstr buf p) → unquote_at buf p = (buf, p).
Proof.
  intros Hb. unfold unquote_at, surrounded. rewrite !(bool_decide_eq_false_2 (head _ = _)) by auto. simpl.
  rewrite remove_backslashes_none, Nat.sub_diag by auto. f_equal. destruct (cstr_prefix buf p) as [rest E].
  by eapply put_back.
Qed.

(** ** Lines with redirections *)

Inductive redir : Type :=
  | In (f : text)                       (* < f *)
  | Out (appending : bool) (f : text)   (* > f or >> f *)
  | Err (f : text)                      (* 2> f *)
  | Share.                              (* 2>&1 *)

Inductive redir_kind : Set := KIn | KOut | KErr.
Global Instance redir_kind_eq_dec : EqDecision redir_kind.
Proof. solve_decision. Defined.

Definition kind (r : redir) : redir_kind :=
  match r with In _ => KIn | Out _ _ => KOut | Err _ | Share => KErr end.

Definition sign (r : redir) : text :=
  match r with
  | In _ => chars "<" | Out false _ => chars ">" | Out true _ => chars ">>" | Err _ => chars "2>" | Share => chars "2>&1"
  end.

Definition target (r : redir) : option text :=
  match r with In f | Out _ f | Err f => Some f | Share => None end.

Definition redir_words (r : redir) : list text := sign r :: option_list (target r).
Definition rwords (rs : list redir) : list text := concat (redir_words <$> rs).

(** The line of a command given by its words. *)
Definition print_line (cw : list text) (rs : list redir) : text := join (cw ++ rwords rs).

Definition command_word (w : text) : Prop := bare_word w ∧ LESS ∉ w ∧ GREATER ∉ w.

(** At most one redirection of each stream; [>>] does not go with [2>&1]. *)
Record printable (cw : list text) (rs : list redir) : Prop := {
  pr_words : Forall command_word cw;
  pr_command : cw ≠ [];
  pr_names r f : r ∈ rs → target r = Some f → file_name f;
  pr_kinds : NoDup (kind <$> rs);
  pr_append f : Out true f ∈ rs → Share ∉ rs }.

Lemma sign_bare r : bare_word (sign r).
Proof. destruct r as [f|[] f|f|]; repeat constructor; done. Qed.

Definition redir_ok (r : redir) : Prop := ∀ f, target r = Some f → file_name f.

Lemma redir_words_bare r : redir_ok r → Forall bare_word (redir_words r).
Proof.
  intros Hr. constructor; [apply sign_bare|]. unfold redir_ok in Hr. destruct (target r) as [f|]; [|constructor].
  constructor; [|constructor]. by apply (Hr f).
Qed.

Lemma rwords_cons r rs : rwords (r :: rs) = redir_words r ++ rwords rs.
Proof. done. Qed.

Lemma rwords_bare rs : Forall redir_ok rs → Forall bare_word (rwords rs).
Proof. induction 1; [constructor|]. rewrite rwords_cons. apply Forall_app. split; [by apply redir_words_bare|done]. Qed.

Lemma rwords_app rs rs' : rwords (rs ++ rs') = rwords rs ++ rwords rs'.
Proof. unfold rwords. by rewrite fmap_app, concat_app. Qed.

(** What a pattern finds in a redirection. *)
Definition hit (p : text) (r : redir) : option nat := find_words p (redir_words r).

Lemma find_rwords_none p rs : Forall (λ r, hit p r = None) rs → find_words p (rwords rs) = None.
Proof.
  induction 1 as [|r rs Hr Hrs IH]; [done|]. rewrite rwords_cons, find_words_app. unfold hit in Hr. by rewrite Hr, IH.
Qed.

Lemma find_rwords p r1 r r2 k : Forall (λ r, hit p r = None) r1 → hit p r = Some k →
  find_words p (rwords (r1 ++ r :: r2)) = Some (size (rwords r1) + k).
Proof.
  intros H1 Hk. rewrite rwords_app, find_words_app, find_rwords_none, rwords_cons, find_words_app by done.
  unfold hit in Hk. by rewrite Hk.
Qed.

Lemma file_find p f c : file_name f → c ∈ p → c = LESS ∨ c = GREATER → word_find p f = None.
Proof. intros (_ & Hb & H1 & H2) Hc H. apply (word_find_none p f c Hb Hc). by destruct H as [-> | ->]. Qed.

Lemma hit_sign p r c : redir_ok r → c ∈ p → c = LESS ∨ c = GREATER → hit p r = word_find p (sign r).
Proof.
  intros Hr Hc H. unfold hit, redir_words. cbn [find_words]. destruct (word_find p (sign r)); [done|].
  destruct (target r) as [f|] eqn:E; [|done]. simpl. by rewrite (file_find p f c (Hr f E)).
Qed.

Section hits.
Context (r : redir) (Hr : redir_ok r).

Lemma hit_less : hit [LESS] r = match r with In _ => Some 0 | _ => None end.
Proof. rewrite (hit_sign _ _ LESS Hr); [by destruct r as [|[]| |]|set_solver|auto]. Qed.
Lemma hit_greater : hit [GREATER] r = match r with In _ => None | Out _ _ => Some 0 | _ => Some 1 end.
Proof. rewrite (hit_sign _ _ GREATER Hr); [by destruct r as [|[]| |]|set_solver|auto]. Qed.
Lemma hit_both : hit (chars "&>") r = None.
Proof. rewrite (hit_sign _ _ GREATER Hr); [by destruct r as [|[]| |]|simpl; set_solver|auto]. Qed.
Lemma hit_share : hit (chars "2>&1") r = match r with Share => Some 0 | _ => None end.
Proof. rewrite (hit_sign _ _ GREATER Hr); [by destruct r as [|[]| |]|simpl; set_solver|auto]. Qed.
Lemma hit_err : hit (chars "2>") r = match r with Err _ | Share => Some 0 | _ => None end.
Proof. rewrite (hit_sign _ _ GREATER Hr); [by destruct r as [|[]| |]|simpl; set_solver|auto]. Qed.
End hits.

Lemma join_no_nul ws : Forall bare_word ws → NUL ∉ join ws.
Proof.
  induction 1 as [|w ws Hw Hws IH]; [apply not_elem_of_nil|]. destruct (decide (ws = [])) as [->|Hne].
  - by apply bare_no_nul.
  - rewrite join_line_cons by done. rewrite not_elem_of_app, not_elem_of_cons. split_and!; [by apply bare_no_nul|done|done].
Qed.

Lemma find_from buf q p ws : drop q buf = join ws → Forall bare_word ws → sign_pattern p →
  find_at buf q p = shift q (find_words p ws).
Proof.
  intros E Hw Hp. unfold find_at. rewrite (cstr_app (join ws) []) by (by rewrite ?app_nil_r || by apply join_no_nul).
  simpl. rewrite app_nil_r. by rewrite strstrquoted_join.
Qed.

Section line.
Context (cw : list text) (rs : list redir) (Hok : printable cw rs).
Let line := print_line cw rs.

Definition pos (r1 : list redir) : nat := size cw + size (rwords r1).

Lemma redirs_ok : Forall redir_ok rs.
Proof. apply list.Forall_forall. intros r Hr f Hf. by eapply (pr_names _ _ Hok). Qed.

Lemma words_bare : Forall bare_word (cw ++ rwords rs).
Proof.
  apply Forall_app. split; [|apply rwords_bare, redirs_ok].
  eapply list.Forall_impl; [apply (pr_words _ _ Hok)|]. by intros ? [? _].
Qed.

Lemma split_ok r1 r r2 : rs = r1 ++ r :: r2 → Forall redir_ok r1 ∧ redir_ok r ∧ Forall redir_ok r2.
Proof. intros E. pose proof redirs_ok as H. rewrite E in H. by apply Forall_app in H as [? [? ?]%Forall_cons_1]. Qed.

Lemma line_from r1 r r2 : rs = r1 ++ r :: r2 → drop (pos r1) line = join (redir_words r ++ rwords r2).
Proof.
  intros E. unfold line, print_line, pos. rewrite E, rwords_app, rwords_cons, app_assoc, <- size_app. by apply drop_join.
Qed.

Lemma command_find p c : c ∈ p → c = LESS ∨ c = GREATER → find_words p cw = None.
Proof.
  intros Hc H. pose proof (pr_words _ _ Hok) as Hw. clear Hok line. induction Hw as [|w ws (Hb & H1 & H2) Hws IH]; [done|].
  cbn [find_words]. rewrite (word_find_none p w c), IH; [done|done|done|]. by destruct H as [-> | ->].
Qed.

Lemma find_at_first p c r1 r r2 k : sign_pattern p → c ∈ p → c = LESS ∨ c = GREATER → rs = r1 ++ r :: r2 →
  Forall (λ r, hit p r = None) r1 → hit p r = Some k → find_at line 0 p = Some (pos r1 + k).
Proof.
  intros Hp Hc H E H1 Hk. rewrite (find_from _ 0 p (cw ++ rwords rs)); [|done|apply words_bare|done].
  rewrite find_words_app, (command_find p c), E, (find_rwords p r1 r r2 k) by done. simpl. unfold pos. f_equal. lia.
Qed.

Lemma find_none p c : sign_pattern p → c ∈ p → c = LESS ∨ c = GREATER →
  Forall (λ r, hit p r = None) rs → find_at line 0 p = None.
Proof.
  intros Hp Hc H H1. rewrite (find_from _ 0 p (cw ++ rwords rs)); [|done|apply words_bare|done].
  by rewrite find_words_app, (command_find p c), find_rwords_none.
Qed.

(** After the sign there is a space and the name, where there is one. *)
Lemma after_from r1 r r2 f : rs = r1 ++ r :: r2 → target r = Some f →
  drop (pos r1) line = sign r ++ SPACE :: join (f :: rwords r2).
Proof. intros E Hf. rewrite (line_from r1 r r2 E). unfold redir_words. rewrite Hf. done. Qed.

Lemma skip_to_name r1 r r2 f : rs = r1 ++ r :: r2 → target r = Some f →
  skip_spaces line (pos r1 + length (sign r)) = pos r1 + length (sign r) + 1.
Proof.
  intros E Hf. destruct (split_ok r1 r r2 E) as (_ & Hr & H2). pose proof (Hr f Hf) as (Hne & Hb & _).
  assert (cstr line (pos r1 + length (sign r)) = SPACE :: join (f :: rwords r2)) as Ec.
  { rewrite (cstr_app (SPACE :: join (f :: rwords r2)) []); [by rewrite app_nil_r| |].
    - by rewrite app_nil_r, <- drop_drop, (after_from r1 r r2 f E Hf), drop_app_length.
    - apply not_elem_of_cons. split; [done|]. apply join_no_nul. constructor; [done|]. by apply rwords_bare. }
  unfold skip_spaces. rewrite Ec. cbn [skip_while]. rewrite bool_decide_eq_true_2 by done.
  assert (∃ x t, join (f :: rwords r2) = x :: t ∧ x ≠ SPACE) as (x & t & -> & Hx).
  { destruct f as [|x f]; [done|]. apply Forall_inv in Hb as (_ & _ & Hx & _).
    destruct (rwords r2) as [|w ws]; simpl; by eexists _, _. }
  cbn [skip_while]. rewrite bool_decide_eq_false_2 by done. simpl. lia.
Qed.

Lemma after_sign_name r1 r r2 f : rs = r1 ++ r :: r2 → target r = Some f →
  after_sign line (pos r1 + length (sign r) - 1) = Some (pos r1 + length (sign r)).
Proof.
  intros E Hf. assert (0 < length (sign r)) as Hl by (destruct r as [|[]| |]; simpl; lia). unfold after_sign.
  replace (pos r1 + length (sign r) - 1 + 1) with (pos r1 + length (sign r)) by lia.
  rewrite <- lookup_drop, (after_from r1 r r2 f E Hf), lookup_app_r, Nat.sub_diag by done. done.
Qed.
End line.

(** ** Cutting out the names *)

Section assemble.
Context (line : text).
Implicit Types (o : option (nat * text)) (ps : list nat).

Definition named o : Prop := ∀ p f, o = Some (p, f) →
  file_name f ∧ ∃ a rest, line = a ++ f ++ rest ∧ length a = p ∧ word_end rest.
Definition clear_of ps o : Prop := ∀ p f, o = Some (p, f) → ∀ q, q ∈ ps → q < p ∨ p + length f ≤ q.
Definition ends o : list nat := option_list ((λ pf, pf.1 + length pf.2) <$> o).

Lemma clear_of_incl ps ps' o : clear_of ps o → ps' ⊆ ps → clear_of ps' o.
Proof. intros H Hs p f Ho q Hq. eapply H; eauto. Qed.

Lemma edit_end o ps : named o → clear_of ps o →
  edit end_argument (fst <$> o) (cuts line ps) = Ret (cuts line (ends o ++ ps)).
Proof.
  intros Hn Hc. destruct o as [[p f]|]; [|done]. destruct (Hn p f eq_refl) as (Hf & a & rest & -> & <- & Hw).
  apply end_argument_cuts; [done..|]. by apply Hc.
Qed.

Lemma edit_cut (m : option nat) ps : edit cut m (cuts line ps) = Ret (cuts line (option_list m ++ ps)).
Proof. by destruct m. Qed.

Lemma cstr_name o ps : named o → clear_of ps o → ends o ⊆ ps → cstr (cuts line ps) <$> (fst <$> o) = snd <$> o.
Proof.
  intros Hn Hc He. destruct o as [[p f]|]; [|done]. destruct (Hn p f eq_refl) as (Hf & a & rest & -> & <- & Hw).
  simpl. f_equal. apply cstr_cuts; [by apply bare_no_nul, Hf|by apply (Hc _ _ eq_refl)|].
  left. apply He. simpl. set_solver.
Qed.

Lemma unquote_name o ps : named o → clear_of ps o → ends o ⊆ ps →
  unquote_opt (fst <$> o) (cuts line ps) = (cuts line ps, fst <$> o).
Proof.
  intros Hn Hc He. pose proof (cstr_name o ps Hn Hc He) as E. destruct o as [[p f]|]; [|done].
  simpl in *. injection E as E. rewrite unquote_at_bare; [done|]. rewrite E. by apply (Hn p f eq_refl).
Qed.

Ltac sublist := let q := fresh in let Hq := fresh in
  intros q Hq; subst; rewrite ?elem_of_app in *; rewrite ?elem_of_nil in *; tauto.

Lemma parse_assemble im nin nout nerr m ps :
  RECORD_SEPARATOR ∉ line → input_file line = (im, fst <$> nin) → find_markers line = m →
  outputFileName m = fst <$> nout → errorFileName m = fst <$> nerr →
  ps = option_list (errorFileMarker m) ++ option_list (outputFileMarker m) ++ option_list im ++
       ends nerr ++ ends nin ++ ends nout →
  Forall named [nin; nout; nerr] → Forall (clear_of ps) [nin; nout; nerr] →
  parse_redirections line =
    Ret (Redirections (cstr (cuts line ps) 0) (snd <$> nin) (snd <$> nout) (snd <$> nerr)
           (sharedErrorOutput m) (appendToFileName m)).
Proof.
  intros Hrs Hin Hm Ho He Hps Hn Hc. unfold parse_redirections. rewrite bool_decide_eq_false_2 by done.
  rewrite Hin, Hm. simpl. rewrite Ho, He.
  apply Forall_cons_1 in Hn as [Hn1 Hn]. apply Forall_cons_1 in Hn as [Hn2 Hn]. apply Forall_cons_1 in Hn as [Hn3 _].
  apply Forall_cons_1 in Hc as [Hc1 Hc]. apply Forall_cons_1 in Hc as [Hc2 Hc]. apply Forall_cons_1 in Hc as [Hc3 _].
  change line with (cuts line []) at 1.
  rewrite edit_end by (done || by eapply clear_of_incl; [exact Hc2|sublist]). simpl.
  rewrite edit_end by (done || by eapply clear_of_incl; [exact Hc1|sublist]). simpl.
  rewrite edit_end by (done || by eapply clear_of_incl; [exact Hc3|sublist]). simpl.
  rewrite edit_cut. simpl. rewrite edit_cut. simpl. rewrite edit_cut. simpl.
  rewrite app_nil_r, <- Hps.
  rewrite !unquote_name by (done || sublist). by rewrite !cstr_name by (done || sublist).
Qed.
End assemble.

(** ** Finding the signs *)

Fixpoint of_kind (k : redir_kind) (rs : list redir) : option redir :=
  match rs with
  | [] => None
  | r :: rs => if bool_decide (kind r = k) then Some r else of_kind k rs
  end.

Lemma of_kind_None k rs : of_kind k rs = None → Forall (λ r, kind r ≠ k) rs.
Proof. induction rs as [|r rs IH]; simpl; [constructor|]. case_bool_decide; [done|]. intros. constructor; auto. Qed.

Lemma of_kind_Some k rs r : NoDup (kind <$> rs) → of_kind k rs = Some r →
  kind r = k ∧ ∃ r1 r2, rs = r1 ++ r :: r2 ∧ Forall (λ r, kind r ≠ k) r1 ∧ Forall (λ r, kind r ≠ k) r2.
Proof.
  induction rs as [|x rs IH]; simpl; [done|]. intros [Hx Hnd]%list.NoDup_cons. case_bool_decide as Hk.
  - intros [= ->]. split; [done|]. exists [], rs. split_and!; [done|constructor|]. apply list.Forall_forall.
    intros y Hy He. apply Hx. rewrite Hk, <- He. by apply list_elem_of_fmap_2.
  - intros H. destruct (IH Hnd H) as (Hr & r1 & r2 & -> & H1 & H2). split; [done|].
    exists (x :: r1), r2. split_and!; [done|by constructor|done].
Qed.

(** Two redirections of a line: one comes before the other. *)
Lemma split_order {A} (l1 l2 k1 k2 : list A) a b : l1 ++ a :: l2 = k1 ++ b :: k2 → a ≠ b →
  (∃ l, k1 = l1 ++ a :: l ∧ l2 = l ++ b :: k2) ∨ (∃ l, l1 = k1 ++ b :: l ∧ k2 = l ++ a :: l2).
Proof.
  intros E Hn. apply app_eq_inv in E as [(k & -> & E)|(k & -> & E)]; destruct k as [|x k]; simplify_eq/=.
  - right. by exists k.
  - left. by exists k.
Qed.

Section markers.
Context (cw : list text) (rs : list redir) (Hok : printable cw rs).
Let line := print_line cw rs.
Let P := pos cw.

Lemma hits_none p (Q : redir → Prop) l : Forall redir_ok l → Forall Q l → (∀ r, redir_ok r → Q r → hit p r = None) →
  Forall (λ r, hit p r = None) l.
Proof. intros H1 H2 H. induction H1; inversion H2; subst; constructor; auto. Qed.

Lemma pattern_less : sign_pattern [LESS].
Proof. split; [done|]. by repeat constructor. Qed.
Lemma pattern_greater : sign_pattern [GREATER].
Proof. split; [done|]. by repeat constructor. Qed.
Lemma pattern_both : sign_pattern (chars "&>").
Proof. split; [done|]. by repeat constructor. Qed.
Lemma pattern_share : sign_pattern (chars "2>&1").
Proof. split; [done|]. by repeat constructor. Qed.
Lemma pattern_err : sign_pattern (chars "2>").
Proof. split; [done|]. by repeat constructor. Qed.

Lemma find_input r1 f r2 : rs = r1 ++ In f :: r2 → Forall (λ r, kind r ≠ KIn) r1 →
  input_file line = (Some (P r1), Some (P r1 + 2)).
Proof.
  intros E H1. destruct (split_ok cw rs Hok _ _ _ E) as (Hr1 & Hr & Hr2). unfold input_file, line.
  rewrite (find_at_first cw rs Hok [LESS] LESS r1 (In f) r2 0 pattern_less ltac:(set_solver) (or_introl eq_refl) E).
  - pose proof (after_sign_name cw rs r1 _ r2 f E eq_refl) as Ha. simpl length in Ha.
    pose proof (skip_to_name cw rs Hok r1 _ r2 f E eq_refl) as Hs. simpl length in Hs.
    replace (pos cw r1 + 1 - 1) with (pos cw r1 + 0) in Ha by lia. rewrite Ha. cbn [fmap option_fmap option_map].
    rewrite Hs. unfold P. do 2 f_equal; lia.
  - eapply hits_none; [done|exact H1|]. intros r Ho Hk. rewrite hit_less by done. by destruct r.
  - by rewrite hit_less.
Qed.

Lemma find_no_input : Forall (λ r, kind r ≠ KIn) rs → input_file line = (None, None).
Proof.
  intros H. unfold input_file, line. rewrite (find_none cw rs Hok [LESS] LESS); [done|apply pattern_less|set_solver|auto|].
  eapply hits_none; [by apply (redirs_ok cw)|exact H|]. intros r Ho Hk. rewrite hit_less by done. by destruct r.
Qed.

Lemma find_both : find_at line 0 (chars "&>") = None.
Proof.
  apply (find_none cw rs Hok _ GREATER); [apply pattern_both|simpl; set_solver|auto|].
  eapply hits_none with (Q := λ _, True); [by apply (redirs_ok cw)|by apply list.Forall_true|]. intros r Ho _. by apply hit_both.
Qed.

Lemma find_share r1 r2 : rs = r1 ++ Share :: r2 → Forall (λ r, kind r ≠ KErr) r1 →
  find_at line 0 (chars "2>&1") = Some (P r1).
Proof.
  intros E H1. destruct (split_ok cw rs Hok _ _ _ E) as (Hr1 & Hr & Hr2). rewrite <- (Nat.add_0_r (P r1)).
  apply (find_at_first cw rs Hok _ GREATER r1 Share r2 0); [apply pattern_share|simpl; set_solver|auto|done| |by rewrite hit_share].
  eapply hits_none; [done|exact H1|]. intros r Ho Hk. rewrite hit_share by done. by destruct r.
Qed.

Lemma find_no_share : Share ∉ rs → find_at line 0 (chars "2>&1") = None.
Proof.
  intros H. apply (find_none cw rs Hok _ GREATER); [apply pattern_share|simpl; set_solver|auto|].
  eapply hits_none with (Q := λ r, r ≠ Share); [by apply (redirs_ok cw)| |].
  - apply list.Forall_forall. intros r Hr ->. done.
  - intros r Ho Hk. rewrite hit_share by done. by destruct r.
Qed.

Lemma find_err r1 f r2 : rs = r1 ++ Err f :: r2 → Forall (λ r, kind r ≠ KErr) r1 →
  find_at line 0 (chars "2>") = Some (P r1).
Proof.
  intros E H1. destruct (split_ok cw rs Hok _ _ _ E) as (Hr1 & Hr & Hr2). rewrite <- (Nat.add_0_r (P r1)).
  apply (find_at_first cw rs Hok _ GREATER r1 (Err f) r2 0); [apply pattern_err|simpl; set_solver|auto|done| |by rewrite hit_err].
  eapply hits_none; [done|exact H1|]. intros r Ho Hk. rewrite hit_err by done. by destruct r.
Qed.

Lemma find_no_err : Forall (λ r, kind r ≠ KErr) rs → find_at line 0 (chars "2>") = None.
Proof.
  intros H. apply (find_none cw rs Hok _ GREATER); [apply pattern_err|simpl; set_solver|auto|].
  eapply hits_none; [by apply (redirs_ok cw)|exact H|]. intros r Ho Hk. rewrite hit_err by done. by destruct r.
Qed.

(** The first [>] of the line is that of the first redirection of an output. *)
Lemma find_output r1 r r2 : rs = r1 ++ r :: r2 → Forall (λ r, kind r = KIn) r1 → kind r ≠ KIn →
  find_at line 0 [GREATER] = Some (P r1 + match kind r with KErr => 1 | _ => 0 end).
Proof.
  intros E H1 Hk. destruct (split_ok cw rs Hok _ _ _ E) as (Hr1 & Hr & Hr2).
  apply (find_at_first cw rs Hok _ GREATER r1 r r2); [apply pattern_greater|set_solver|auto|done| |].
  - eapply hits_none; [done|exact H1|]. intros x Ho Hx. rewrite hit_greater by done. by destruct x.
  - rewrite hit_greater by done. by destruct r.
Qed.

Lemma find_no_output : Forall (λ r, kind r = KIn) rs → find_at line 0 [GREATER] = None.
Proof.
  intros H. apply (find_none cw rs Hok _ GREATER); [apply pattern_greater|set_solver|auto|].
  eapply hits_none; [by apply (redirs_ok cw)|exact H|]. intros r Ho Hk. rewrite hit_greater by done. by destruct r.
Qed.

(** The same from the name of the file for the errors on, or from the end of [2>&1]. *)
Lemma find_next q w l o e : drop q line = join (w :: rwords (l ++ o :: e)) → bare_word w → GREATER ∉ w →
  Forall redir_ok (l ++ o :: e) → Forall (λ r, kind r = KIn) l → kind o = KOut →
  find_at line q [GREATER] = Some (q + length w + 1 + size (rwords l)).
Proof.
  intros E Hw Hg Ho Hl Hk. pose proof Ho as Ho'. apply Forall_app in Ho' as [Hol Hoo]. apply Forall_inv in Hoo.
  rewrite (find_from _ q [GREATER] (w :: rwords (l ++ o :: e))); [|done|constructor; [done|by apply rwords_bare]|apply pattern_greater].
  cbn [find_words]. rewrite (word_find_none _ w GREATER), (find_rwords _ l o e 0); [|..|by rewrite hit_greater; destruct o| |set_solver|]; try done.
  - simpl. f_equal. lia.
  - eapply hits_none; [done|exact Hl|]. intros r Hr Hx. rewrite hit_greater by done. by destruct r.
Qed.

Lemma find_next_none q w e : drop q line = join (w :: rwords e) → bare_word w → GREATER ∉ w →
  Forall redir_ok e → Forall (λ r, kind r = KIn) e → find_at line q [GREATER] = None.
Proof.
  intros E Hw Hg Ho Hk.
  rewrite (find_from _ q [GREATER] (w :: rwords e)); [|done|constructor; [done|by apply rwords_bare]|apply pattern_greater].
  cbn [find_words]. rewrite (word_find_none _ w GREATER), find_rwords_none; [done| |done|set_solver|done].
  eapply hits_none; [done|exact Hk|]. intros r Hr Hx. rewrite hit_greater by done. by destruct r.
Qed.

(** The place of the name of a redirection. *)
Definition place (r1 : list redir) (r : redir) : nat := P r1 + length (sign r) + 1.

Lemma pos_cons r1 r l : P (r1 ++ r :: l) = P r1 + size (redir_words r) + size (rwords l).
Proof. unfold P, pos. rewrite rwords_app, rwords_cons, !size_app. lia. Qed.

Lemma size_named r f : target r = Some f → size (redir_words r) = length (sign r) + length f + 2.
Proof. intros E. unfold redir_words, size. rewrite E. simpl. lia. Qed.

Lemma output_at from r1 ap f r2 plain m : rs = r1 ++ Out ap f :: r2 → find_at line from [GREATER] = Some (P r1) →
  (ap = false → plain (P r1) = Some (P r1 + 1)) →
  skip_output line (output_file line from plain m) =
    Markers (errorFileMarker m) (Some (P r1)) (Some (place r1 (Out ap f))) (errorFileName m) (sharedErrorOutput m)
      (ap || appendToFileName m).
Proof.
  intros E Hf Hp. unfold output_file, skip_output. rewrite Hf.
  pose proof (skip_to_name cw rs Hok r1 _ r2 f E eq_refl) as Hs. fold line in Hs. fold P in Hs.
  assert (line !! (P r1 + 1) = if ap then Some GREATER else Some SPACE) as Hl.
  { unfold line, P. rewrite <- lookup_drop, (after_from cw rs r1 _ r2 f E eq_refl). by destruct ap. }
  unfold place. destruct ap; rewrite Hl; simpl in *.
  - by rewrite Hs.
  - rewrite Hp by done. simpl. by rewrite Hs.
Qed.

Lemma sign_after r1 r r2 f : rs = r1 ++ r :: r2 → target r = Some f → length (sign r) = 1 →
  after_sign line (P r1) = Some (P r1 + 1).
Proof.
  intros E Hf Hl. pose proof (after_sign_name cw rs r1 r r2 f E Hf) as Ha. rewrite Hl in Ha.
  by replace (pos cw r1 + 1 - 1) with (pos cw r1) in Ha by lia.
Qed.

Lemma kinds_in l : Forall (λ r, kind r ≠ KOut) l → Forall (λ r, kind r ≠ KErr) l → Forall (λ r, kind r = KIn) l.
Proof. intros H1 H2. induction H1 as [|r l H]; inversion H2; subst; constructor; auto. by destruct (kind r). Qed.

Lemma markers_no_err : Forall (λ r, kind r ≠ KErr) rs → ∀ r1 ap f r2, rs = r1 ++ Out ap f :: r2 →
  Forall (λ r, kind r ≠ KOut) r1 →
  find_markers line = Markers None (Some (P r1)) (Some (place r1 (Out ap f))) None false ap.
Proof.
  intros He r1 ap f r2 E H1. unfold find_markers, error_file. rewrite find_both, find_no_share, find_no_err; [|done|].
  2: { intros Hin. eapply list.Forall_forall in He; [|exact Hin]. done. }
  cbn [sharedErrorOutput]. rewrite (output_at 0 r1 ap f r2); [by destruct ap|done| |].
  - rewrite (find_output r1 _ r2 E); [simpl; f_equal; lia| |done]. apply kinds_in; [done|]. rewrite E in He. by apply Forall_app in He as [? _].
  - intros ->. by apply (sign_after r1 _ r2 f E).
Qed.

Lemma markers_none : Forall (λ r, kind r ≠ KErr) rs → Forall (λ r, kind r ≠ KOut) rs →
  find_markers line = Markers None None None None false false.
Proof.
  intros He Ho. unfold find_markers, error_file. rewrite find_both, find_no_share, find_no_err; [|done|].
  2: { intros Hin. eapply list.Forall_forall in He; [|exact Hin]. done. }
  cbn [sharedErrorOutput]. unfold output_file. by rewrite find_no_output by (by apply kinds_in).
Qed.
(** *** [2>] *)

Section err.
Context (e1 : list redir) (g : text) (e2 : list redir) (E : rs = e1 ++ Err g :: e2).
Context (H1 : Forall (λ r, kind r ≠ KErr) e1) (H2 : Forall (λ r, kind r ≠ KErr) e2).
Let m := Markers (Some (P e1)) (Some 0) None (Some (place e1 (Err g))) false false.

Lemma err_not_shared : Share ∉ rs.
Proof.
  rewrite E, not_elem_of_app, not_elem_of_cons. split_and!; [|done|]; intros Hin.
  - eapply list.Forall_forall in H1; [|exact Hin]. done.
  - eapply list.Forall_forall in H2; [|exact Hin]. done.
Qed.

Lemma error_file_err : error_file line = m.
Proof.
  unfold error_file. rewrite find_both, (find_no_share err_not_shared), (find_err e1 g e2 E H1).
  pose proof (skip_to_name cw rs Hok e1 _ e2 g E eq_refl) as Hs. fold line in Hs. fold P in Hs. simpl length in Hs.
  rewrite Hs. done.
Qed.

Lemma from_err_name : drop (place e1 (Err g)) line = join (g :: rwords e2).
Proof.
  unfold place. rewrite <- Nat.add_assoc, <- drop_drop. unfold line, P. rewrite (after_from cw rs e1 _ e2 g E eq_refl).
  change (SPACE :: join (g :: rwords e2)) with ([SPACE] ++ join (g :: rwords e2)). rewrite app_assoc.
  apply (drop_app_length (sign (Err g) ++ [SPACE])).
Qed.

(** The sign is found twice. *)
Lemma output_twice : Forall (λ r, kind r = KIn) e1 →
  skip_output line (output_file line 0 (after_sign line) m) =
    Markers (Some (P e1)) (Some (P e1 + 1)) (Some (place e1 (Err g))) (Some (place e1 (Err g))) false false.
Proof.
  intros Hin. unfold output_file. rewrite (find_output e1 _ e2 E) by done. cbn [kind].
  pose proof (after_from cw rs e1 _ e2 g E eq_refl) as Ha. simpl in Ha.
  pose proof (after_sign_name cw rs e1 _ e2 g E eq_refl) as Hs. simpl length in Hs.
  replace (pos cw e1 + 2 - 1) with (P e1 + 1) in Hs by (unfold P; lia).
  rewrite bool_decide_eq_false_2; [|unfold line; rewrite <- Nat.add_assoc; unfold P; rewrite <- lookup_drop, Ha; done].
  unfold skip_output, line. cbn [outputFileName errorFileMarker outputFileMarker errorFileName sharedErrorOutput appendToFileName m].
  rewrite Hs. cbn [fmap option_fmap option_map].
  pose proof (skip_to_name cw rs Hok e1 _ e2 g E eq_refl) as Hk. simpl length in Hk. rewrite Hk. done.
Qed.

Lemma markers_err_out r1 ap f r2 : rs = r1 ++ Out ap f :: r2 → Forall (λ r, kind r ≠ KOut) r1 →
  find_markers line =
    Markers (Some (P e1)) (Some (P r1)) (Some (place r1 (Out ap f))) (Some (place e1 (Err g))) false ap.
Proof.
  intros Er Hr1. unfold find_markers. rewrite error_file_err. cbn [sharedErrorOutput m].
  destruct (split_ok cw rs Hok _ _ _ E) as (_ & _ & Hok2).
  pose proof E as E'. rewrite Er in E'. apply split_order in E' as [(l & El & El')|(l & El & El')]; [| |done].
  - assert (Forall (λ r, kind r ≠ KErr) r1) as Hr1' by (rewrite El in H1; by apply Forall_app in H1 as [? _]).
    rewrite (output_at 0 r1 ap f r2 _ m Er); [| |intros ->; by apply (sign_after r1 _ r2 f Er)].
    2: { rewrite (find_output r1 _ r2 Er); [simpl; f_equal; lia|by apply kinds_in|done]. }
    cbn [errorFileName outputFileName m]. rewrite bool_decide_eq_false_2; [by destruct ap|].
    unfold place. rewrite El, pos_cons, (size_named _ f) by done. intros [= Hx]. simpl in Hx.
    destruct ap; simpl in Hx; lia.
  - assert (Forall (λ r, kind r = KIn) e1) as Hin.
    { apply kinds_in; [|done]. rewrite El in Hr1. by apply Forall_app in Hr1 as [? _]. }
    rewrite output_twice by done. cbn [errorFileName outputFileName]. rewrite bool_decide_eq_true_2 by done.
    rewrite (output_at (place e1 (Err g)) r1 ap f r2 _ _ Er); [by destruct ap| |done].
    pose proof from_err_name as Hd. rewrite El' in Hd, Hok2. destruct (split_ok cw rs Hok _ _ _ E) as (_ & Hg & _).
    pose proof (Hg g eq_refl) as (_ & Hb & _ & Hgr).
    rewrite (find_next _ g l (Out ap f) r2); [|done..| |done].
    + f_equal. rewrite El, pos_cons, (size_named _ g) by done. unfold place. simpl. lia.
    + rewrite El in Hr1. apply Forall_app in Hr1 as [_ Hl]. apply Forall_inv_tail in Hl. rewrite El' in H2.
      apply Forall_app in H2 as [Hl' _]. by apply kinds_in.
Qed.

Lemma markers_err_none : Forall (λ r, kind r ≠ KOut) rs →
  find_markers line = Markers (Some (P e1)) None None (Some (place e1 (Err g))) false false.
Proof.
  intros Ho. rewrite E in Ho. apply Forall_app in Ho as [Ho1 Ho2]. apply Forall_inv_tail in Ho2.
  destruct (split_ok cw rs Hok _ _ _ E) as (_ & Hg & Hok2). pose proof (Hg g eq_refl) as (_ & Hb & _ & Hgr).
  unfold find_markers. rewrite error_file_err. cbn [sharedErrorOutput m]. rewrite output_twice by (by apply kinds_in).
  cbn [errorFileName outputFileName]. rewrite bool_decide_eq_true_2 by done.
  unfold output_file. rewrite (find_next_none _ g e2); [done|apply from_err_name|done..|by apply kinds_in].
Qed.
End err.

(** *** [2>&1] *)

Section share.
Context (e1 e2 : list redir) (E : rs = e1 ++ Share :: e2).
Context (H1 : Forall (λ r, kind r ≠ KErr) e1) (H2 : Forall (λ r, kind r ≠ KErr) e2).

Lemma from_share_end : e2 ≠ [] → drop (P e1 + 3) line = join (chars "1" :: rwords e2).
Proof.
  intros He. rewrite <- drop_drop. unfold line, P. rewrite (line_from cw rs e1 _ e2 E).
  unfold redir_words. simpl target. cbn [option_list app]. destruct e2 as [|r e2']; [done|]. done.
Qed.

Lemma shared_first : Forall (λ r, kind r = KIn) e1 → find_at line 0 [GREATER] = Some (P e1 + 1).
Proof. intros H. by rewrite (find_output e1 _ e2 E). Qed.

Lemma markers_share_out r1 f r2 : rs = r1 ++ Out false f :: r2 → Forall (λ r, kind r ≠ KOut) r1 →
  find_markers line = Markers (Some (P e1)) (Some (P r1)) (Some (place r1 (Out false f))) None true false.
Proof.
  intros Er Hr1. assert (find_markers line = skip_output line (Markers (Some (P e1)) (Some (P r1)) (Some (S (P r1))) None true false)) as ->.
  2: { pose proof (skip_to_name cw rs Hok r1 _ r2 f Er eq_refl) as Hs. simpl length in Hs.
       unfold skip_output. cbn [outputFileName errorFileMarker outputFileMarker errorFileName sharedErrorOutput
         appendToFileName fmap option_fmap option_map].
       replace (S (P r1)) with (pos cw r1 + 1) by (unfold P; lia). unfold line. by rewrite Hs. }
  unfold find_markers, error_file. rewrite find_both, (find_share e1 e2 E H1).
  destruct (split_ok cw rs Hok _ _ _ E) as (_ & _ & Hok2).
  pose proof E as E'. rewrite Er in E'. apply split_order in E' as [(l & El & El')|(l & El & El')]; [| |done].
  - assert (Forall (λ r, kind r ≠ KErr) r1) as Hr1' by (rewrite El in H1; by apply Forall_app in H1 as [? _]).
    rewrite (find_output r1 _ r2 Er) by (done || by apply kinds_in). cbn [kind]. rewrite Nat.add_0_r.
    rewrite bool_decide_eq_false_2; [done|]. intros [= Hx]. rewrite El, pos_cons, (size_named _ f) in Hx by done. lia.
  - assert (Forall (λ r, kind r = KIn) e1) as Hin.
    { apply kinds_in; [|done]. rewrite El in Hr1. by apply Forall_app in Hr1 as [? _]. }
    rewrite shared_first, bool_decide_eq_true_2 by done.
    rewrite (find_next (P e1 + 3) (chars "1") l (Out false f) r2).
    + replace (P e1 + 3 + length (chars "1") + 1 + size (rwords l)) with (P r1); [done|].
      rewrite El, pos_cons. change (size (redir_words Share)) with 5. simpl. lia.
    + rewrite from_share_end; [by rewrite El'|]. rewrite El'. by destruct l.
    + by repeat constructor.
    + simpl. set_solver.
    + by rewrite <- El'.
    + rewrite El in Hr1. apply Forall_app in Hr1 as [_ Hl]. apply Forall_inv_tail in Hl. rewrite El' in H2.
      apply Forall_app in H2 as [Hl' _]. by apply kinds_in.
    + done.
Qed.

Lemma markers_share_none : Forall (λ r, kind r ≠ KOut) rs →
  find_markers line = Markers (Some (P e1)) None None None true false.
Proof.
  intros Ho. rewrite E in Ho. apply Forall_app in Ho as [Ho1 Ho2]. apply Forall_inv_tail in Ho2.
  unfold find_markers, error_file. rewrite find_both, (find_share e1 e2 E H1), shared_first, bool_decide_eq_true_2 by (done || by apply kinds_in).
  destruct (split_ok cw rs Hok _ _ _ E) as (_ & _ & Hok2).
  assert (find_at line (P e1 + 3) [GREATER] = None) as ->; [|done].
  destruct (decide (e2 = [])) as [Hz|Hz].
  - assert (drop (P e1 + 3) line = join [chars "1"]) as Hd.
    { rewrite <- drop_drop. unfold line, P. rewrite (line_from cw rs e1 _ e2 E). by rewrite Hz. }
    rewrite (find_from _ _ _ _ Hd); [done|by repeat constructor|apply pattern_greater].
  - apply (find_next_none _ (chars "1") e2); [by apply from_share_end|by repeat constructor|simpl; set_solver|done|by apply kinds_in].
Qed.
End share.
End markers.

(** ** Round trip *)

(** What a line stands for. *)
Definition redirect_spec (cw : list text) (rs : list redir) : redirections :=
  Redirections (if bool_decide (rs = []) then join cw else join cw ++ [SPACE])
    (of_kind KIn rs ≫= target) (of_kind KOut rs ≫= target) (of_kind KErr rs ≫= target)
    (match of_kind KErr rs with Some Share => true | _ => false end)
    (match of_kind KOut rs with Some (Out ap _) => ap | _ => false end).

Section roundtrip.
Context (cw : list text) (rs : list redir) (Hok : printable cw rs).
Let line := print_line cw rs.

(** The marker and the name of the redirection of a kind. *)
Definition slot_at (k : redir_kind) (mk : option nat) (nm : option (nat * text)) : Prop :=
  match of_kind k rs with
  | None => mk = None ∧ nm = None
  | Some r => kind r = k ∧ ∃ r1 r2, rs = r1 ++ r :: r2 ∧ mk = Some (pos cw r1) ∧
      nm = (λ f, (place cw r1 r, f)) <$> target r
  end.

Lemma input_slot : ∃ im nin, slot_at KIn im nin ∧ input_file line = (im, fst <$> nin).
Proof.
  unfold slot_at. destruct (of_kind KIn rs) as [r|] eqn:E.
  - apply of_kind_Some in E as (Hk & r1 & r2 & E & H1 & H2); [|apply Hok]. destruct r as [f| | |]; try done.
    exists (Some (pos cw r1)), (Some (place cw r1 (In f), f)). split; [split; [done|]; by exists r1, r2|].
    unfold line. rewrite (find_input cw rs Hok r1 f r2 E H1). unfold place. simpl. do 2 f_equal. lia.
  - exists None, None. split; [done|]. unfold line. by rewrite (find_no_input cw rs Hok (of_kind_None _ _ E)).
Qed.

Lemma output_slots : ∃ om nout em nerr, slot_at KOut om nout ∧ slot_at KErr em nerr ∧
  find_markers line = Markers em om (fst <$> nout) (fst <$> nerr) (shared (redirect_spec cw rs)) (append (redirect_spec cw rs)).
Proof.
  unfold slot_at, redirect_spec, line. simpl. destruct (of_kind KOut rs) as [o|] eqn:Eo.
  - apply of_kind_Some in Eo as (Hk & r1 & r2 & Er & Hr1 & Hr2); [|apply Hok]. destruct o as [|ap f| |]; try done.
    exists (Some (pos cw r1)), (Some (place cw r1 (Out ap f), f)). destruct (of_kind KErr rs) as [e|] eqn:Ee.
    + apply of_kind_Some in Ee as (Hke & e1 & e2 & E & H1 & H2); [|apply Hok].
      exists (Some (pos cw e1)), ((λ g, (place cw e1 e, g)) <$> target e).
      split; [split; [done|]; by exists r1, r2|]. split; [split; [done|]; by exists e1, e2|].
      destruct e as [| |g|]; try done; simpl.
      * by rewrite (markers_err_out cw rs Hok e1 g e2 E H1 H2 r1 ap f r2).
      * destruct ap; [exfalso; apply (pr_append _ _ Hok f); [rewrite Er|rewrite E]; set_solver|].
        by rewrite (markers_share_out cw rs Hok e1 e2 E H1 H2 r1 f r2).
    + exists None, None. split; [split; [done|]; by exists r1, r2|]. split; [done|].
      by rewrite (markers_no_err cw rs Hok (of_kind_None _ _ Ee) r1 ap f r2).
  - exists None, None. apply of_kind_None in Eo. destruct (of_kind KErr rs) as [e|] eqn:Ee.
    + apply of_kind_Some in Ee as (Hke & e1 & e2 & E & H1 & H2); [|apply Hok].
      exists (Some (pos cw e1)), ((λ g, (place cw e1 e, g)) <$> target e).
      split; [done|]. split; [split; [done|]; by exists e1, e2|]. destruct e as [| |g|]; try done; simpl.
      * by rewrite (markers_err_none cw rs Hok e1 g e2 E H1 H2).
      * by rewrite (markers_share_none cw rs Hok e1 e2 E H1 H2).
    + exists None, None. split; [done|]. split; [done|]. by rewrite (markers_none cw rs Hok (of_kind_None _ _ Ee)).
Qed.

Lemma slot_named k mk nm : slot_at k mk nm → named line nm ∧ snd <$> nm = of_kind k rs ≫= target.
Proof.
  unfold slot_at. destruct (of_kind k rs) as [r|]; [|by intros [-> ->]].
  intros (_ & r1 & r2 & E & _ & ->). split; [|simpl; by destruct (target r)].
  intros p f Hf. destruct (target r) as [f'|] eqn:Ef; [|done]. injection Hf as <- ->.
  destruct (split_ok cw rs Hok _ _ _ E) as (_ & Hr & Hr2). split; [by apply Hr|].
  pose proof (after_from cw rs r1 r r2 f E Ef) as Ha. fold line in Ha. unfold place.
  set (q := pos cw r1 + length (sign r) + 1).
  assert (drop q line = join (f :: rwords r2)) as Hd.
  { unfold q. rewrite <- Nat.add_assoc, <- drop_drop, Ha.
    change (SPACE :: join (f :: rwords r2)) with ([SPACE] ++ join (f :: rwords r2)). rewrite app_assoc.
    replace (length (sign r) + 1) with (length (sign r ++ [SPACE])) by (rewrite length_app; simpl; lia). apply drop_app_length. }
  assert (∃ rest, join (f :: rwords r2) = f ++ rest ∧ word_end rest) as (rest & Hj & Hw).
  { destruct (rwords r2) as [|w ws]; [exists []; split; [by rewrite app_nil_r|by left]|].
    exists (SPACE :: join (w :: ws)). split; [done|by right]. }
  exists (take q line), rest. split_and!; [by rewrite <- Hj, <- Hd, take_drop| |done].
  apply length_take_le. destruct (decide (q ≤ length line)) as [|Hlt]; [done|].
  rewrite drop_ge in Hd by lia. rewrite Hj in Hd. symmetry in Hd. apply app_nil in Hd as [-> _].
  by destruct (Hr [] Ef).
Qed.

Lemma sign_length r : 0 < length (sign r).
Proof. destruct r as [|[]| |]; simpl; lia. Qed.

Lemma slot_clear k mk nm k' mk' nm' : slot_at k mk nm → slot_at k' mk' nm' → (k = k' → mk = mk' ∧ nm = nm') →
  clear_of (option_list mk' ++ ends nm') nm.
Proof.
  unfold slot_at. intros Hs Hs' Heq p f Hn q Hq.
  destruct (of_kind k rs) as [r|]; [|by destruct Hs as [_ ->]]. destruct Hs as (Hk & r1 & r2 & E & -> & ->).
  destruct (target r) as [f0|] eqn:Ef; [|done]. injection Hn as <- ->. pose proof (sign_length r) as Hl.
  destruct (of_kind k' rs) as [r'|]; [|destruct Hs' as [-> ->]; simpl in Hq; set_solver].
  destruct Hs' as (Hk' & r1' & r2' & E' & -> & ->). unfold place in *.
  destruct (decide (k = k')) as [Hkk|Hkk].
  - destruct (Heq Hkk) as [H1 H2]. injection H1 as H1. rewrite <- H2 in Hq. simpl in Hq.
    apply elem_of_cons in Hq as [->|Hq]; [lia|]. apply list_elem_of_singleton in Hq. simpl in Hq. lia.
  - assert (q = pos cw r1' ∨ pos cw r1' + length (sign r') + 1 ≤ q ∧ q < pos cw r1' + size (redir_words r')) as Hq'.
    { apply elem_of_cons in Hq as [->|Hq]; [by left|right]. destruct (target r') as [f'|] eqn:Ef'; simpl in Hq; [|set_solver].
      apply list_elem_of_singleton in Hq. simpl in Hq. rewrite (size_named _ f' Ef'). lia. }
    rewrite E in E'. apply split_order in E' as [(l & -> & _)|(l & -> & _)]; [| |congruence].
    + right. rewrite pos_cons, (size_named _ f Ef) in Hq'. lia.
    + left. rewrite pos_cons. pose proof (sign_length r'). assert (0 < size (redir_words r')) by (unfold size, redir_words; simpl; lia). lia.
Qed.
Lemma first_slot k mk nm r rs' : rs = r :: rs' → kind r = k → slot_at k mk nm → mk = Some (size cw).
Proof.
  intros E Hk. unfold slot_at. rewrite E at 1. simpl. rewrite bool_decide_eq_true_2 by done.
  intros (_ & r1 & r2 & E' & -> & _). f_equal. destruct r1 as [|x r1]; [unfold pos, size; simpl; lia|].
  exfalso. pose proof (pr_kinds _ _ Hok) as Hnd. rewrite E' in E, Hnd. simplify_eq/=.
  apply list.NoDup_cons in Hnd as [Hni _]. apply Hni. rewrite fmap_app. set_solver.
Qed.

Lemma slot_after k mk nm q : slot_at k mk nm → q ∈ option_list mk ++ ends nm → size cw ≤ q.
Proof.
  unfold slot_at. destruct (of_kind k rs) as [r|]; [|intros [-> ->]; simpl; set_solver].
  intros (_ & r1 & r2 & _ & -> & ->) Hq. apply elem_of_cons in Hq as [->|Hq]; [unfold pos; lia|].
  destruct (target r); simpl in Hq; [|set_solver]. apply list_elem_of_singleton in Hq. unfold place, pos in Hq. simpl in Hq. lia.
Qed.

Lemma line_bare : RECORD_SEPARATOR ∉ line.
Proof.
  unfold line, print_line. pose proof (words_bare cw rs Hok) as H.
  induction H as [|w ws Hw Hws IH]; [apply not_elem_of_nil|]. destruct (decide (ws = [])) as [->|Hne]; [by auto|].
  rewrite join_line_cons by done. rewrite not_elem_of_app, not_elem_of_cons. split_and!; [by auto|done|done].
Qed.

(** The line of the command ends at the first sign. *)
Lemma command_cut ps : (rs = [] → ps = []) → (rs ≠ [] → size cw ∈ ps) → (∀ q, q ∈ ps → size cw ≤ q) →
  cstr (cuts line ps) 0 = command (redirect_spec cw rs).
Proof.
  intros Hnil Hin Hq. pose proof (join_no_nul _ (words_bare cw rs Hok)) as Hj. simpl. case_bool_decide as Hrs.
  - rewrite (Hnil Hrs). simpl. unfold line, print_line. rewrite Hrs in *. unfold rwords in *. simpl in *. rewrite app_nil_r in *.
    rewrite (cstr_app (join cw) []); [by rewrite app_nil_r|by rewrite app_nil_r|done].
  - assert (rwords rs ≠ []) as Hne by (destruct rs; [done|]; by rewrite rwords_cons).
    pose proof (pr_command _ _ Hok) as Hc. pose proof (length_join cw Hc) as Hlen.
    assert (line = [] ++ (join cw ++ [SPACE]) ++ join (rwords rs)) as ->.
    { unfold line, print_line. rewrite join_app by done. by rewrite <- app_assoc. }
    apply (cstr_cuts [] (join cw ++ [SPACE])).
    + rewrite join_app in Hj by done. rewrite not_elem_of_app, not_elem_of_cons in Hj. rewrite not_elem_of_app. set_solver.
    + intros q Hq'. apply Hq in Hq'. rewrite length_app. simpl. lia.
    + left. rewrite length_app. simpl. rewrite Hlen. by apply Hin.
Qed.

Lemma slot_nil k mk nm : rs = [] → slot_at k mk nm → mk = None ∧ nm = None.
Proof. unfold slot_at. by intros ->. Qed.

Lemma parse_line : parse_redirections line = Ret (redirect_spec cw rs).
Proof.
  destruct input_slot as (im & nin & Hin & Ein). destruct output_slots as (om & nout & em & nerr & Hout & Herr & Em).
  set (ps := option_list em ++ option_list om ++ option_list im ++ ends nerr ++ ends nin ++ ends nout).
  assert (∀ q, q ∈ ps → q ∈ option_list im ++ ends nin ∨ q ∈ option_list om ++ ends nout ∨ q ∈ option_list em ++ ends nerr) as Hps.
  { intros q. unfold ps. rewrite !elem_of_app. tauto. }
  assert (∀ k mk nm, slot_at k mk nm → (k, mk, nm) ∈ [(KIn, im, nin); (KOut, om, nout); (KErr, em, nerr)] → clear_of ps nm) as Hclear.
  { intros k mk nm Hs Hel p f Hf q Hq. destruct (Hps q Hq) as [H|[H|H]].
    - eapply (slot_clear k mk nm KIn im nin); [done..| |done|done]. intros ->. set_solver.
    - eapply (slot_clear k mk nm KOut om nout); [done..| |done|done]. intros ->. set_solver.
    - eapply (slot_clear k mk nm KErr em nerr); [done..| |done|done]. intros ->. set_solver. }
  destruct (slot_named _ _ _ Hin) as [Hn1 Hv1]. destruct (slot_named _ _ _ Hout) as [Hn2 Hv2].
  destruct (slot_named _ _ _ Herr) as [Hn3 Hv3].
  rewrite (parse_assemble line im nin nout nerr _ ps line_bare Ein Em); [|done..| |].
  - rewrite Hv1, Hv2, Hv3, command_cut; [done|..].
    + intros Hrs. unfold ps. by destruct (slot_nil _ _ _ Hrs Hin) as [-> ->], (slot_nil _ _ _ Hrs Hout) as [-> ->],
        (slot_nil _ _ _ Hrs Herr) as [-> ->].
    + intros Hne. assert (∃ r rs', rs = r :: rs') as (r & rs' & E) by (destruct rs; [done|]; by eexists _, _).
      unfold ps. rewrite !elem_of_app. destruct (kind r) eqn:Hk.
      * rewrite (first_slot _ _ _ r rs' E Hk Hin). set_solver.
      * rewrite (first_slot _ _ _ r rs' E Hk Hout). set_solver.
      * rewrite (first_slot _ _ _ r rs' E Hk Herr). set_solver.
    + intros q [H|[H|H]]%Hps; [by eapply (slot_after KIn)|by eapply (slot_after KOut)|by eapply (slot_after KErr)].
  - constructor; [done|]. constructor; [done|]. by constructor.
  - constructor; [by apply (Hclear KIn im); [done|set_solver]|].
    constructor; [by apply (Hclear KOut om); [done|set_solver]|].
    constructor; [by apply (Hclear KErr em); [done|set_solver]|constructor].
Qed.
End roundtrip.

(** C22: a line with redirections is taken apart into them: for every
    command of plain words (without quotes, backslashes, spaces, < and >) and every list of redirections of standard input ([<]), output ([>]
    or [>>]) and errors ([2>] or [2>&1]) with plain file names, at most one of
    each, in any order, and not [>>] together with [2>&1] (see [append_shared]),
    the printed line is parsed without undefined behaviour and gives the line of
    the command, the names of the files, and whether the output is appended and
    whether it is shared. *)
Theorem redirections_roundtrip (cw : list text) (rs : list redir) :
  printable cw rs → parse_redirections (print_line cw rs) = Ret (redirect_spec cw rs).
Proof. apply parse_line. Qed.

Definition demo_redirs : list redir := [Err (chars "log2"); In (chars "data.txt"); Out true (chars "out")].

Lemma redirections_roundtrip_witness :
  print_line [chars "sort"; chars "-k2"] demo_redirs = chars "sort -k2 2> log2 < data.txt >> out" ∧
  parse_redirections (print_line [chars "sort"; chars "-k2"] demo_redirs) =
    Ret (Redirections (chars "sort -k2 ") (Some (chars "data.txt")) (Some (chars "out")) (Some (chars "log2")) false true).
Proof.
  split; [reflexivity|]. apply (redirections_roundtrip [chars "sort"; chars "-k2"] demo_redirs).
  split; [repeat constructor; apply (bool_decide_unpack _); by vm_compute|done| | |].
  - intros r f Hr Hf. repeat (apply elem_of_cons in Hr as [->|Hr]; [injection Hf as <-; split_and!; [done|repeat constructor; done|..]; apply (bool_decide_unpack _); by vm_compute|]).
    by apply not_elem_of_nil in Hr.
  - apply (bool_decide_unpack _). by vm_compute.
  - intros f _ Hs. repeat (apply elem_of_cons in Hs as [?|Hs]; [done|]). by apply not_elem_of_nil in Hs.
Defined.

(** ** The streams of a command *)

(** Without streams from [dup2] or [popen] a command reads and writes the files
    that could be opened and the streams of the calling thread otherwise; its
    errors go where its output goes when they share; no stream is closed. *)
Theorem plain_streams fopen fileno sout serr tin tout terr merged (r : redirections) closed :
  open_redirections fopen fileno sout serr tin tout terr merged r (Opening None None None closed) =
    let out := default tout (output r ≫= λ f, fopen f (if append r then "a" else "w")) in
    Ret (Opening (Some (default tin (input r ≫= λ f, fopen f "r"))) (Some out)
      (Some (if shared r then out else default terr (error r ≫= λ f, fopen f "w"))) closed).
Proof.
  unfold open_redirections, open_input, open_output, open_error. destruct merged; simpl.
  - destruct (input r ≫= _), (output r ≫= _), (shared r), (error r ≫= _); done.
  - destruct (input r ≫= _), (output r ≫= _), (shared r), (error r ≫= _); done.
Qed.

(** With an output set by the caller, as for a command of a pipeline,
    [cmd > f 2>&1] closes that output and then uses it again, as the error
    stream that has become the same. *)
Theorem merged_after_close :
  command_streams (λ f _, Some 9%positive) (λ s, Zpos s) 1 2 1 1 2 (chars "cmd > f 2>&1")
    (Opening None (Some 7%positive) None ∅) = Undef UseAfterFree.
Proof. vm_compute. reflexivity. Qed.

(** A file that cannot be opened is not reported: the command runs with the
    stream of the caller. *)
Theorem open_failure_ignored :
  command_streams (λ _ _, None) (λ s, Zpos s) 1 2 3 1 2 (chars "cmd < missing > dir/") (Opening None None None ∅) =
    Ret (chars "cmd ", Opening (Some 3%positive) (Some 1%positive) (Some 2%positive) ∅).
Proof. vm_compute. reflexivity. Qed.

(** ** Lines taken apart differently from a shell *)

(** [>> f 2>&1] writes a file named [>]. *)
Theorem append_shared : parse_redirections (chars "make >> log 2>&1") =
  Ret (Redirections (chars "make ") None (Some (chars ">")) None true false).
Proof. vm_compute. reflexivity. Qed.

(** [>& f], which the comment names as the usual form, writes a file named [&]
    and does not redirect the errors. *)
Theorem shared_sign : parse_redirections (chars "make >& log") =
  Ret (Redirections (chars "make ") None (Some (chars "&")) None false false).
Proof. vm_compute. reflexivity. Qed.

(** [2>> f] truncates a file named [>f] and appends the output to [f]. *)
Theorem append_errors : parse_redirections (chars "make 2>>log") =
  Ret (Redirections (chars "make ") None (Some (chars "log")) (Some (chars ">log")) false true).
Proof. vm_compute. reflexivity. Qed.

(** What comes after the first redirection is dropped from the command. *)
Theorem arguments_after : parse_redirections (chars "echo > out hello") =
  Ret (Redirections (chars "echo ") None (Some (chars "out")) None false false).
Proof. vm_compute. reflexivity. Qed.

(** A [2] that ends an argument is taken for the descriptor. *)
Theorem digit_of_argument : parse_redirections (chars "cat file2>out") =
  Ret (Redirections (chars "cat file") None None (Some (chars "out")) false false).
Proof. vm_compute. reflexivity. Qed.

(** After [--] a [>=] is not a redirection, but the command is cut there. *)
Theorem double_dash_cut : parse_redirections (chars "pip install -- a>=3") =
  Ret (Redirections (chars "pip install -- a") None None None false false).
Proof. vm_compute. reflexivity. Qed.

(** ** Dead code *)

Lemma occurs_char t p j c i : occurs t p i → p !! j = Some c → occurs t (replicate 1 c) (i + j).
Proof.
  intros [Hl Ho] Hj. destruct (Ho j c Hj) as [H1 H2]. split.
  - simpl. apply lookup_lt_Some in H1. lia.
  - intros k c' Hk. destruct k as [|k]; [|done]. injection Hk as <-. by rewrite Nat.add_0_r.
Qed.

(** When [ios_system] gets to the redirections there is no bar outside quotes
    in the command, so neither of the searches for a pipe in this part finds
    one. *)
Theorem pipe_branches_dead (line : text) : strstrquoted line [BAR] = None →
  strstrquoted line (chars "&|") = None ∧ strstrquoted line (chars "|&") = None.
Proof.
  intros H. pose proof (strstrquoted_None line BAR 0 eq_refl H) as Hn.
  assert (∀ p j, unquotable p → p !! j = Some BAR → strstrquoted line p = None) as Hd.
  { intros p j Hu Hj. destruct (strstrquoted line p) as [i|] eqn:E; [|done]. exfalso.
    apply (Hn (i + j)). eapply occurs_char; [|done]. apply strstrquoted_occurs; [done| |done]. by destruct p. }
  split; [apply (Hd _ 1)|apply (Hd _ 0)]; done || by repeat constructor.
Qed.
