(* ===== verification/Paths.v ===== *)
(** * Normal forms of paths ([src/ios_system.m])

    [pathNormalizeArray], [pathNormalize] and [pathJoin], which the command [cd]
    uses.  A path is the list of its characters; [pathComponents] is the method
    of [NSString]: the names between the slashes, with a slash as the first or
    last component when the path starts or ends with one.
    - [resolve] is the walk a path describes: from a directory, given by the
      names on the way from the root, name by name.
    - Theorems: a path and its normal form lead to the same directory from
      everywhere, the normal form has no [.], no empty names and [..] only at
      the start of a relative path, and is its own normal form; joining two
      paths is walking one after the other. *)

From Stdlib Require Import Ascii.
From S2P Require Import Prelude Quoting.

Definition SLASH : ascii := ascii_of_nat 47.
Definition DOT : text := chars ".".
Definition DOTDOT : text := chars "..".

(** ** Operations *)

(** The pieces between the slashes. *)
Fixpoint split (s : text) : list text :=
  match s with
  | [] => [[]]
  | c :: s =>
      if bool_decide (c = SLASH) then [] :: split s
      else match split s with [] => [[c]] | w :: ws => (c :: w) :: ws end
  end.

Definition names (s : text) : list text := filter (λ w, w ≠ []) (split s).

Definition has_prefix (s : text) : bool := bool_decide (head s = Some SLASH).
Definition has_suffix (s : text) : bool := bool_decide (list.last s = Some SLASH).

Definition pathComponents (s : text) : list text :=
  (if has_prefix s then [[SLASH]] else []) ++ names s ++
  (if has_suffix s && bool_decide (names s ≠ []) then [[SLASH]] else []).

Definition ignored (p : text) : bool := bool_decide (p = []) || bool_decide (p = DOT) || bool_decide (p = [SLASH]).

(** One part in the loop of [pathNormalizeArray]. *)
Definition normalize_part (allowAboveRoot : bool) (res : list text) (p : text) : list text :=
  if ignored p then res
  else if bool_decide (p = DOTDOT) then
    if bool_decide (res ≠ []) && bool_decide (list.last res ≠ Some DOTDOT) then removelast res
    else if allowAboveRoot then res ++ [p] else res
  else res ++ [p].

Definition pathNormalizeArray (parts : list text) (allowAboveRoot : bool) : list text :=
  foldl (normalize_part allowAboveRoot) [] parts.

(** [componentsJoinedByString: @"/"]. *)
Fixpoint join_parts (parts : list text) : text :=
  match parts with
  | [] => []
  | [p] => p
  | p :: parts => p ++ SLASH :: join_parts parts
  end.

Definition pathNormalize (path : text) : text :=
  let isAbsolute := has_prefix path in
  let trailingSlash := has_suffix path in
  let result := join_parts (pathNormalizeArray (pathComponents path) (negb isAbsolute)) in
  let result := if bool_decide (result = []) && negb isAbsolute then DOT else result in
  let result := if bool_decide (result ≠ []) && trailingSlash then result ++ [SLASH] else result in
  (if isAbsolute then [SLASH] else []) ++ result.

(** [nil] segments are empty ones. *)
Definition pathJoin (segmentA segmentB : option text) : text :=
  let a := default [] segmentA in
  let b := default [] segmentB in
  if has_prefix b then pathNormalize b
  else pathNormalize (if bool_decide (a ≠ []) then (if bool_decide (b ≠ []) then a ++ SLASH :: b else a) else b).

(** ** Walking *)

Definition step (dir : list text) (p : text) : list text :=
  if ignored p then dir else if bool_decide (p = DOTDOT) then removelast dir else dir ++ [p].

Definition walk (dir parts : list text) : list text := foldl step dir parts.

(** Where a path leads from a directory. *)
Definition resolve (dir : list text) (path : text) : list text :=
  walk (if has_prefix path then [] else dir) (names path).

(** ** Pieces *)

Lemma split_nonempty s : split s ≠ [].
Proof. destruct s as [|c s]; simpl; [done|]. case_bool_decide; [done|]. by destruct (split s). Qed.

Lemma split_app s t : split (s ++ SLASH :: t) = split s ++ split t.
Proof.
  induction s as [|c s IH]; simpl; [done|]. rewrite IH. case_bool_decide; [done|].
  pose proof (split_nonempty s). destruct (split s); [done|]. done.
Qed.

Lemma split_plain s : SLASH ∉ s → split s = [s].
Proof.
  induction s as [|c s IH]; intros H; simpl; [done|]. apply not_elem_of_cons in H as [Hc H].
  rewrite bool_decide_eq_false_2 by done. by rewrite IH.
Qed.

Lemma names_app s t : names (s ++ SLASH :: t) = names s ++ names t.
Proof. unfold names. by rewrite split_app, list.filter_app. Qed.

Definition name (p : text) : Prop := p ≠ [] ∧ SLASH ∉ p.

Lemma names_name p : name p → names p = [p].
Proof. intros [Hne Hs]. unfold names. by rewrite split_plain, list.filter_cons_True. Qed.

Lemma split_names s : Forall (λ w, SLASH ∉ w) (split s).
Proof.
  induction s as [|c s IH]; simpl; [repeat constructor; apply not_elem_of_nil|].
  case_bool_decide as Hc; [constructor; [apply not_elem_of_nil|done]|].
  inversion IH as [|w ws Hw Hws]; subst; constructor; try done; apply not_elem_of_cons; (split; [done|]); [apply not_elem_of_nil|done].
Qed.

Lemma names_names s : Forall name (names s).
Proof.
  apply list.Forall_forall. intros w Hw. unfold names in Hw. apply list_elem_of_filter in Hw as [Hne Hw].
  split; [done|]. eapply list.Forall_forall in Hw; [|apply split_names]. done.
Qed.

Lemma names_join parts : Forall name parts → names (join_parts parts) = parts.
Proof.
  induction 1 as [|p parts Hp Hps IH]; [done|]. destruct parts as [|q parts]; [by apply names_name|].
  change (join_parts (p :: q :: parts)) with (p ++ SLASH :: join_parts (q :: parts)).
  by rewrite names_app, names_name, IH.
Qed.

(** The slashes among the components are skipped. *)
Lemma ignored_slash : ignored [SLASH] = true.
Proof. done. Qed.

Lemma walk_components dir s : walk dir (pathComponents s) = walk dir (names s).
Proof.
  unfold walk, pathComponents. rewrite !foldl_app.
  assert (∀ b d, foldl step d (if b : bool then [[SLASH]] else []) = d) as H by (by intros []). by rewrite !H.
Qed.

Lemma normalize_components allow s : pathNormalizeArray (pathComponents s) allow = pathNormalizeArray (names s) allow.
Proof.
  unfold pathNormalizeArray, pathComponents. rewrite !foldl_app.
  assert (∀ b d, foldl (normalize_part allow) d (if b : bool then [[SLASH]] else []) = d) as H by (by intros []). by rewrite !H.
Qed.

(** ** Normal forms *)

(** A name of a directory other than [.] and [..]. *)
Definition proper (p : text) : Prop := name p ∧ p ≠ DOT ∧ p ≠ DOTDOT.

(** Some steps up, unless that is not allowed, and then only down. *)
Definition normal (allow : bool) (parts : list text) : Prop :=
  ∃ k down, parts = replicate k DOTDOT ++ down ∧ Forall proper down ∧ (allow = false → k = 0).

Lemma proper_ignored p : proper p → ignored p = false.
Proof.
  intros ([Hne Hs] & Hd & _). unfold ignored. rewrite !bool_decide_eq_false_2; [done| |done|done].
  intros ->. set_solver.
Qed.

Lemma dotdot_ignored : ignored DOTDOT = false.
Proof. done. Qed.

Lemma name_dotdot : name DOTDOT.
Proof. split; [done|]. apply (bool_decide_unpack _). by vm_compute. Qed.

Lemma name_dot : name DOT.
Proof. split; [done|]. apply (bool_decide_unpack _). by vm_compute. Qed.

Lemma name_cases p : name p → ignored p = true ∨ p = DOTDOT ∨ proper p.
Proof.
  intros Hp. destruct (decide (p = DOT)) as [->|]; [by left|]. destruct (decide (p = DOTDOT)) as [->|]; [by right; left|].
  by right; right.
Qed.

(** The last step of a normal form that is not up. *)
Lemma normal_snoc allow res : normal allow res → res ≠ [] → list.last res ≠ Some DOTDOT →
  ∃ res' p, res = res' ++ [p] ∧ proper p ∧ normal allow res'.
Proof.
  intros (k & down & -> & Hd & Hk) Hne Hl. induction down as [|p down _] using rev_ind.
  - rewrite app_nil_r in *. destruct k as [|k]; [done|]. exfalso. apply Hl.
    by rewrite replicate_snoc, last_snoc.
  - apply Forall_app in Hd as [Hd Hp]. apply Forall_inv in Hp.
    exists (replicate k DOTDOT ++ down), p. split_and!; [by rewrite app_assoc|done|by exists k, down].
Qed.

Lemma normal_last allow res : normal allow res → ¬ (res ≠ [] ∧ list.last res ≠ Some DOTDOT) →
  ∃ k, res = replicate k DOTDOT ∧ (allow = false → k = 0).
Proof.
  intros (k & down & -> & Hd & Hk) Hn. exists k. split; [|done]. destruct (decide (down = [])) as [->|Hne]; [by rewrite app_nil_r|].
  exfalso. apply Hn. split; [by destruct k|]. rewrite last_app.
  destruct (list.last down) as [p|] eqn:El; [|by apply last_None in El].
  apply last_Some_elem_of in El. eapply list.Forall_forall in Hd; [|exact El]. intros [= ->]. by destruct Hd as (_ & _ & ?).
Qed.

Lemma normalize_normal allow res p : normal allow res → name p → normal allow (normalize_part allow res p).
Proof.
  intros Hr Hp. unfold normalize_part. destruct (name_cases p Hp) as [->|[->|Hpp]]; [done| |].
  - rewrite dotdot_ignored, (bool_decide_eq_true_2 (DOTDOT = DOTDOT)) by done. rewrite <- bool_decide_and. case_bool_decide as Hl.
    + destruct (normal_snoc allow res Hr) as (res' & q & -> & _ & Hr'); [by destruct Hl..|]. by rewrite removelast_last.
    + destruct (normal_last allow res Hr Hl) as (k & -> & Hk). destruct allow; [|by exists k, []; rewrite app_nil_r].
      exists (S k), []. split_and!; [|constructor|done]. by rewrite app_nil_r, replicate_snoc.
  - rewrite proper_ignored by done. destruct Hpp as (Hp1 & Hp2 & Hp3). rewrite bool_decide_eq_false_2 by done.
    destruct Hr as (k & down & -> & Hd & Hk). exists k, (down ++ [p]). split_and!; [by rewrite app_assoc| |done].
    apply Forall_app. split; [done|]. by constructor.
Qed.

Lemma array_normal allow parts : Forall name parts → normal allow (pathNormalizeArray parts allow).
Proof.
  unfold pathNormalizeArray. assert (normal allow []) as H0 by (by exists 0, []).
  generalize dependent (@nil text). intros res Hr Hp. revert res Hr. induction Hp as [|p parts Hp Hps IH]; intros res Hr; simpl; [done|].
  by apply IH, normalize_normal.
Qed.

(** ** A path and its normal form lead to the same place *)

Lemma walk_proper dir p : proper p → step dir p = dir ++ [p].
Proof. intros Hp. unfold step. rewrite proper_ignored by done. destruct Hp as (_ & _ & Hp). by rewrite bool_decide_eq_false_2. Qed.

Lemma normalize_step allow dir res p : normal allow res → name p → (allow = false → dir = []) →
  walk dir (normalize_part allow res p) = step (walk dir res) p.
Proof.
  intros Hr Hp Ha. unfold normalize_part. destruct (name_cases p Hp) as [Hi|[->|Hpp]].
  - unfold step. by rewrite Hi.
  - rewrite dotdot_ignored, (bool_decide_eq_true_2 (DOTDOT = DOTDOT)) by done. rewrite <- bool_decide_and.
    unfold step. rewrite dotdot_ignored, (bool_decide_eq_true_2 (DOTDOT = DOTDOT)) by done. case_bool_decide as Hl.
    + destruct (normal_snoc allow res Hr) as (res' & q & -> & Hq & _); [by destruct Hl..|]. rewrite removelast_last.
      unfold walk. rewrite foldl_app. simpl. rewrite walk_proper by done. by rewrite removelast_last.
    + destruct (normal_last allow res Hr Hl) as (k & -> & Hk). destruct allow.
      * unfold walk. rewrite foldl_app. done.
      * rewrite Hk, Ha by done. done.
  - rewrite proper_ignored by done. pose proof Hpp as (_ & _ & Hd). rewrite bool_decide_eq_false_2 by done.
    unfold walk. by rewrite foldl_app.
Qed.

Lemma normalize_walk allow dir parts : Forall name parts → (allow = false → dir = []) →
  walk dir (pathNormalizeArray parts allow) = walk dir parts.
Proof.
  intros Hp Ha. unfold pathNormalizeArray, walk at 2.
  enough (∀ res, normal allow res → walk dir (foldl (normalize_part allow) res parts) = foldl step (walk dir res) parts) as H
    by (apply H; by exists 0, []).
  induction Hp as [|p parts Hp Hps IH]; intros res Hr; simpl; [done|].
  rewrite IH by (by apply normalize_normal). by rewrite normalize_step.
Qed.

(** ** The strings *)

Lemma join_nil parts : Forall name parts → join_parts parts = [] → parts = [].
Proof. intros Hp H. rewrite <- (names_join parts Hp). by rewrite H. Qed.

Lemma join_head parts : Forall name parts → head (join_parts parts) ≠ Some SLASH.
Proof.
  destruct 1 as [|p parts [Hne Hs] _]; [done|]. destruct p as [|c p]; [done|].
  assert (c ≠ SLASH) by set_solver. destruct parts; simpl; congruence.
Qed.

Lemma join_last parts : Forall name parts → list.last (join_parts parts) ≠ Some SLASH.
Proof.
  induction 1 as [|p parts [Hne Hs] Hps IH]; [done|]. destruct parts as [|q parts].
  - simpl. intros Hl. by apply last_Some_elem_of in Hl.
  - change (join_parts (p :: q :: parts)) with (p ++ SLASH :: join_parts (q :: parts)).
    rewrite last_app_cons, last_cons. destruct (list.last (join_parts (q :: parts))) eqn:E; [done|].
    apply last_None in E. apply join_nil in E; [done|done].
Qed.

(** The parts of the normal form of a path. *)
Definition normal_parts (p : text) : list text := pathNormalizeArray (names p) (negb (has_prefix p)).

(** The text of the parts: [.] stands for none of them in a relative path. *)
Definition normal_text (p : text) : text :=
  if bool_decide (normal_parts p = []) && negb (has_prefix p) then DOT else join_parts (normal_parts p).

Lemma normal_names p : Forall name (normal_parts p).
Proof.
  destruct (array_normal (negb (has_prefix p)) (names p) (names_names p)) as (k & down & E & Hd & _).
  unfold normal_parts. rewrite E. apply Forall_app. split.
  - apply Forall_replicate, name_dotdot.
  - eapply list.Forall_impl; [exact Hd|]. by intros ? [? _].
Qed.

Lemma pathNormalize_text p :
  pathNormalize p = (if has_prefix p then [SLASH] else []) ++ normal_text p ++
                    (if bool_decide (normal_text p ≠ []) && has_suffix p then [SLASH] else []).
Proof.
  unfold pathNormalize, normal_text. rewrite normalize_components. fold (normal_parts p).
  rewrite (bool_decide_ext (join_parts (normal_parts p) = []) (normal_parts p = [])).
  2: { split; [apply join_nil, normal_names|by intros ->]. }
  f_equal. case_match; [done|]. by rewrite app_nil_r.
Qed.

Lemma names_slash s : names (SLASH :: s) = names s.
Proof. apply (names_app [] s). Qed.

Lemma names_text p : names (normal_text p) = if bool_decide (normal_parts p = []) && negb (has_prefix p) then [DOT] else normal_parts p.
Proof. unfold normal_text. case_match; [by apply names_name, name_dot|]. apply names_join, normal_names. Qed.

Lemma normalize_names p : names (pathNormalize p) = names (normal_text p).
Proof.
  rewrite pathNormalize_text. assert (∀ s b, names (s ++ (if b : bool then [SLASH] else [])) = names s) as H.
  { intros s []; [|by rewrite app_nil_r]. rewrite names_app. apply app_nil_r. }
  destruct (has_prefix p); simpl; [rewrite names_slash|]; apply H.
Qed.

Lemma normalize_prefix p : has_prefix (pathNormalize p) = has_prefix p.
Proof.
  rewrite pathNormalize_text. destruct (has_prefix p) eqn:Hp; [done|]. simpl. unfold has_prefix.
  apply bool_decide_eq_false_2. assert (head (normal_text p) ≠ Some SLASH ∧ normal_text p ≠ []) as [Hh Hne].
  { unfold normal_text. rewrite Hp. case_bool_decide as Hn; [done|]. simpl.
    split; [apply join_head, normal_names|]. intros E. apply Hn. by apply join_nil in E; [|apply normal_names]. }
  by destruct (normal_text p).
Qed.

Lemma names_walk dir p : walk dir (names (pathNormalize p)) = walk dir (normal_parts p).
Proof.
  rewrite normalize_names, names_text. case_bool_decide as Hn; [|done]. rewrite Hn. by destruct (has_prefix p).
Qed.

Lemma resolve_normalize dir p : resolve dir (pathNormalize p) = resolve dir p.
Proof.
  unfold resolve. rewrite normalize_prefix, names_walk. unfold normal_parts. apply normalize_walk; [apply names_names|].
  by destruct (has_prefix p).
Qed.

(** Parts that are in normal form stay. *)
Lemma array_idempotent allow parts : normal allow parts → pathNormalizeArray parts allow = parts.
Proof.
  intros (k & down & -> & Hd & Hk). unfold pathNormalizeArray. rewrite foldl_app.
  assert (foldl (normalize_part allow) [] (replicate k DOTDOT) = replicate k DOTDOT) as ->.
  { destruct allow; [|by rewrite Hk]. clear Hk. induction k as [|k IH]; [done|]. rewrite replicate_snoc, foldl_app, IH. simpl.
    unfold normalize_part. rewrite dotdot_ignored, (bool_decide_eq_true_2 (DOTDOT = DOTDOT)) by done.
    rewrite <- bool_decide_and, bool_decide_eq_false_2; [done|]. intros [Hne Hl]. apply Hl. destruct k; [done|].
    by rewrite replicate_snoc, last_snoc. }
  generalize (replicate k DOTDOT). induction Hd as [|p down Hp Hd IH]; intros res; simpl; [by rewrite app_nil_r|].
  assert (normalize_part allow res p = res ++ [p]) as ->.
  { unfold normalize_part. rewrite proper_ignored by done. destruct Hp as (_ & _ & Hp). by rewrite bool_decide_eq_false_2. }
  rewrite IH. by rewrite <- app_assoc.
Qed.

Lemma normal_parts_idempotent p : normal_parts (pathNormalize p) = normal_parts p.
Proof.
  unfold normal_parts at 1. rewrite normalize_prefix, normalize_names, names_text.
  case_bool_decide as Hn; simpl; [|apply array_idempotent, array_normal, names_names].
  rewrite Hn. by destruct (has_prefix p).
Qed.

Lemma normal_text_idempotent p : normal_text (pathNormalize p) = normal_text p.
Proof. unfold normal_text. by rewrite normal_parts_idempotent, normalize_prefix. Qed.

Lemma suffix_snoc a b : has_suffix (a ++ b ++ [SLASH]) = true.
Proof. unfold has_suffix. rewrite app_assoc, last_snoc. by apply bool_decide_eq_true_2. Qed.

Lemma suffix_text a p : normal_text p ≠ [] → has_suffix (a ++ normal_text p) = false.
Proof.
  intros E. unfold has_suffix. apply bool_decide_eq_false_2. rewrite last_app.
  destruct (list.last (normal_text p)) as [c|] eqn:El; [|by apply last_None in El].
  intros [= ->]. revert El. unfold normal_text. case_match; [done|]. apply join_last, normal_names.
Qed.

Lemma pathNormalize_idempotent p : pathNormalize (pathNormalize p) = pathNormalize p.
Proof.
  rewrite (pathNormalize_text (pathNormalize p)), normal_text_idempotent, normalize_prefix.
  destruct (decide (normal_text p = [])) as [E|E].
  - rewrite pathNormalize_text, E. done.
  - rewrite bool_decide_eq_true_2 by done. simpl.
    rewrite pathNormalize_text, bool_decide_eq_true_2 by done. simpl. destruct (has_suffix p) eqn:Hs.
    + by rewrite suffix_snoc.
    + rewrite app_nil_r, suffix_text by done. by rewrite app_nil_r.
Qed.

(** ** Theorems *)

(** The text of a normal form: [.] stands for no parts in a relative path, and the
    root keeps its one slash. *)
Definition written (absolute trailing : bool) (parts : list text) : text :=
  match parts with
  | [] => if absolute then [SLASH] else DOT ++ (if trailing then [SLASH] else [])
  | _ => (if absolute then [SLASH] else []) ++ join_parts parts ++ (if trailing then [SLASH] else [])
  end.

Lemma normalize_written p : pathNormalize p = written (has_prefix p) (has_suffix p) (normal_parts p).
Proof.
  rewrite pathNormalize_text. pose proof (normal_names p) as Hn. unfold normal_text, written.
  destruct (normal_parts p) as [|q parts]; [by destruct (has_prefix p), (has_suffix p)|].
  assert (join_parts (q :: parts) ≠ []) as Hj by (by intros E%join_nil).
  rewrite (bool_decide_eq_false_2 (q :: parts = [])) by done. cbn [andb].
  by rewrite (bool_decide_eq_true_2 (join_parts (q :: parts) ≠ [])).
Qed.

Lemma written_suffix absolute trailing parts : trailing = true → has_suffix (written absolute trailing parts) = true.
Proof.
  intros ->. destruct parts as [|q parts]; [by destruct absolute|].
  exact (suffix_snoc (if absolute then [SLASH] else []) (join_parts (q :: parts))).
Qed.

(** C34: [pathNormalize] gives the normal form of a path: path and normal
    form lead to the same directory from every directory; it is written as a
    slash exactly if the path is absolute, parts with one slash between them
    that are proper names (not empty, [.] or [..]) after some [..], with no
    [..] in an absolute path, and a slash at the end exactly if the path ended
    with one, where a relative path of no parts is [.] and an absolute one the
    slash alone; and normalizing it again changes nothing. *)
Theorem pathNormalize_spec (p : text) :
  (∀ dir, resolve dir (pathNormalize p) = resolve dir p) ∧
  (∃ parts, normal (negb (has_prefix p)) parts ∧ pathNormalize p = written (has_prefix p) (has_suffix p) parts) ∧
  has_prefix (pathNormalize p) = has_prefix p ∧
  (has_suffix p = true → has_suffix (pathNormalize p) = true) ∧
  pathNormalize (pathNormalize p) = pathNormalize p.
Proof.
  split_and!; [intros; apply resolve_normalize| |apply normalize_prefix| |apply pathNormalize_idempotent].
  - exists (normal_parts p). split; [apply array_normal, names_names|apply normalize_written].
  - intros Hs. rewrite normalize_written. by apply written_suffix.
Qed.

(** [pathJoin] is walking along one path after the other: from every
    directory the joined path leads to where the second path leads from the
    place the first one leads to. *)
Theorem pathJoin_walk (dir : list text) (a b : text) :
  resolve dir (pathJoin (Some a) (Some b)) = resolve (resolve dir a) b.
Proof.
  unfold pathJoin. simpl. destruct (has_prefix b) eqn:Hb.
  { rewrite resolve_normalize. unfold resolve. by rewrite Hb. }
  rewrite resolve_normalize. case_bool_decide as Ha; [case_bool_decide as Hbn|].
  - unfold resolve at 1 2. rewrite Hb, names_app. unfold walk. rewrite foldl_app.
    assert (has_prefix (a ++ SLASH :: b) = has_prefix a) as -> by (by destruct a). done.
  - subst b. done.
  - subst a. done.
Qed.

Example cd_parent : pathJoin (Some (chars "/home/me/src")) (Some (chars "../doc/./x/../")) = chars "/home/me/doc/".
Proof. reflexivity. Qed.
