(* ===== verification/Directories.v ===== *)
(** * The working directory ([src/ios_system.m])

    [chdir], [chdir_nolock], [ios_fchdir] and the command [cd] change the
    working directory of the process and then look whether the new one is
    allowed: below [miniRoot], the root of the session or one of the allowed
    paths.  If it is not they change back.
    - The file system is the class [FileManager]: it does not change while the
      calls run, absolute paths do not depend on the working directory, and the
      name of the current directory is an absolute path that leads to it.
    - [inside]: the working directory, and what the session remembers as its
      current and previous directory, start with the name of the mini-root, the
      root of the session or an allowed path.  Every call keeps it, one after
      another ([jail]); while a call runs the process is outside for a moment.
    - [cd -] goes back ([cd_back]).  Without a session a refused call leaves
      the process outside ([chdir_without_session]); a directory next to the
      root whose name only starts alike is allowed ([allowed_sibling]). *)

From Stdlib Require Import Ascii.
From S2P Require Import Prelude Quoting Paths.

Local Open Scope Z_scope.

Inductive access : Set := Missing | NotADirectory | Unreadable | Readable.
Global Instance access_eq_dec : EqDecision access.
Proof. solve_decision. Defined.

(** What [fileExistsAtPath:isDirectory:] and [isReadableFileAtPath:] tell of a
    path, where [changeCurrentDirectoryPath:] leads (the new
    [currentDirectoryPath]) and where [fchdir] does.  The first argument is the
    working directory. *)
Class FileManager : Type := {
  path_access : text → text → access;
  enter : text → text → option text;
  enter_fd : Z → option text;
  path_access_absolute c c' p : has_prefix p = true → path_access c p = path_access c' p;
  enter_absolute c c' p : has_prefix p = true → enter c p = enter c' p;
  enter_name c p d : enter c p = Some d → has_prefix d = true ∧ ∀ c', enter c' d = Some d;
  enter_fd_name fd d : enter_fd fd = Some d → has_prefix d = true ∧ ∀ c, enter c d = Some d }.

(** The directories of a session. *)
Record session_dirs := SessionDirs {
  currentDir : text;
  previousDirectory : text;
  localMiniRoot : text }.

Record dirs := Dirs {
  process_dir : text;                (* the working directory of the process *)
  session : option session_dirs }.   (* [currentSession] *)

(** [hasPrefix:]. *)
Definition starts_with (s prefix : text) : bool := bool_decide (take (length prefix) s = prefix).

Section directories.
Context `{FileManager}.
Context (miniRoot : option text) (allowedPaths : list text) (documents : text).

Definition __allowed_cd_to_path (s : option session_dirs) (path : text) : bool :=
  match miniRoot with
  | None => true
  | Some root =>
      starts_with path root ||
      match s with
      | Some s => bool_decide (localMiniRoot s ≠ []) && starts_with path (localMiniRoot s)
      | None => false
      end ||
      existsb (starts_with path) allowedPaths
  end.

(** [[fileManager changeCurrentDirectoryPath:path]], the result ignored. *)
Definition change_dir (path : text) (st : dirs) : dirs :=
  Dirs (default (process_dir st) (enter (process_dir st) path)) (session st).

(** What follows a change to a directory that is not allowed. *)
Definition go_back (resultDir : text) (s : session_dirs) (st : dirs) : dirs :=
  match miniRoot with
  | Some root =>
      if starts_with root resultDir
      then Dirs (process_dir (change_dir root st)) (Some (SessionDirs root root (localMiniRoot s)))
      else change_dir (currentDir s) st
  | None => change_dir (currentDir s) st
  end.

(** The check after the change; [update] is what an allowed change does to the
    session. *)
Definition settle (update : session_dirs → text → session_dirs) (st : dirs) : Z * option errno * dirs :=
  let resultDir := process_dir st in
  if __allowed_cd_to_path (session st) resultDir
  then (0, None, Dirs resultDir ((λ s, update s resultDir) <$> session st))
  else (-1, Some (Eother 13 (* EACCES *)),
        match session st with None => st | Some s => go_back resultDir s st end).

(** The checks before the change. *)
Definition change_checked (path : text) (st : dirs) : errno + dirs :=
  match path_access (process_dir st) path with
  | Missing => inl (Eother 2) (* ENOENT *)
  | NotADirectory => inl (Eother 20) (* ENOTDIR *)
  | Unreadable => inl (Eother 13)
  | Readable =>
      match enter (process_dir st) path with
      | None => inl (Eother 13)
      | Some d => inr (Dirs d (session st))
      end
  end.

Definition keep_previous (s : session_dirs) (d : text) : session_dirs := SessionDirs d (previousDirectory s) (localMiniRoot s).
Definition move_previous (s : session_dirs) (d : text) : session_dirs := SessionDirs d (currentDir s) (localMiniRoot s).

(** The locks and the wait for commands that end apart, [chdir] and
    [chdir_nolock] are the same. *)
Definition chdir_nolock (path : text) (st : dirs) : Z * option errno * dirs :=
  match change_checked path st with
  | inl e => (-1, Some e, st)
  | inr st => settle keep_previous st
  end.
Definition chdir (path : text) (st : dirs) : Z * option errno * dirs :=
  match change_checked path st with
  | inl e => (-1, Some e, st)
  | inr st => settle keep_previous st
  end.

Definition ios_fchdir (fd : Z) (st : dirs) : Z * option errno * dirs :=
  match enter_fd fd with
  | None => (-1, None, st)
  | Some d => settle move_previous (Dirs d (session st))
  end.

(** [ios_fchdir] without the lock. *)
Definition ios_fchdir_nolock (fd : Z) (st : dirs) : Z * option errno * dirs :=
  match enter_fd fd with
  | None => (-1, None, st)
  | Some d => settle move_previous (Dirs d (session st))
  end.

(** The session remembers the path as it was given. *)
Definition __cd_to_dir (newDir : text) (st : dirs) : dirs :=
  match change_checked newDir st with
  | inl _ => st
  | inr st => snd (settle (λ s _, move_previous s newDir) st)
  end.

(** [cd dir] and [cd]: the exit status. *)
Definition cd_main (arg : option text) (st : dirs) : Z * dirs :=
  match session st with
  | None => (1, st)
  | Some s =>
      match arg with
      | Some a =>
          let newDir := if bool_decide (a = chars "-") then previousDirectory s else a in
          (0, __cd_to_dir (pathJoin (Some (currentDir s)) (Some newDir)) st)
      | None =>
          let st := change_dir (default documents miniRoot) st in
          (0, Dirs (process_dir st) (Some (SessionDirs (process_dir st) (currentDir s) (localMiniRoot s))))
      end
  end.

(** ** Staying inside *)

Inductive dir_call : Type :=
  | Chdir (path : text)
  | ChdirNolock (path : text)
  | Fchdir (fd : Z)
  | FchdirNolock (fd : Z)
  | Cd (arg : option text).

Definition dir_step (c : dir_call) (st : dirs) : dirs :=
  match c with
  | Chdir path => snd (chdir path st)
  | ChdirNolock path => snd (chdir_nolock path st)
  | Fchdir fd => snd (ios_fchdir fd st)
  | FchdirNolock fd => snd (ios_fchdir_nolock fd st)
  | Cd arg => snd (cd_main arg st)
  end.

Definition dir_run (cs : list dir_call) (st : dirs) : dirs := foldl (λ st c, dir_step c st) st cs.

(** Only the root of the session matters. *)
Lemma allowed_local s s' d : localMiniRoot s = localMiniRoot s' →
  __allowed_cd_to_path (Some s) d = __allowed_cd_to_path (Some s') d.
Proof. intros E. unfold __allowed_cd_to_path. by rewrite E. Qed.

Context (root : text).
Hypothesis Hroot : miniRoot = Some root.
Hypothesis Hroot_name : ∀ c, enter c root = Some root.
Hypothesis Hroot_absolute : has_prefix root = true.

(** What a session may enter: its roots, and all whose name starts with that of
    a root. *)
Definition roots (local : text) : list text := root :: (if decide (local = []) then [] else [local]) ++ allowedPaths.
Definition permitted (local d : text) : Prop := ∃ r, r ∈ roots local ∧ r `prefix_of` d.

(** An absolute path to a permitted directory. *)
Definition leads_inside (local path : text) : Prop :=
  has_prefix path = true ∧ ∃ d, (∀ c, enter c path = Some d) ∧ permitted local d.

Record inside_session (local : text) (s : session_dirs) : Prop := {
  in_local : localMiniRoot s = local;
  in_current : leads_inside local (currentDir s);
  in_previous : leads_inside local (previousDirectory s) }.

Definition inside (local : text) (st : dirs) : Prop :=
  permitted local (process_dir st) ∧ ∃ s, session st = Some s ∧ inside_session local s.

Lemma starts_with_prefix s prefix : starts_with s prefix = true ↔ prefix `prefix_of` s.
Proof.
  unfold starts_with. rewrite bool_decide_eq_true. split.
  - intros E. exists (drop (length prefix) s). by rewrite <- E at 1; rewrite take_drop.
  - intros [rest ->]. by rewrite take_app_length.
Qed.

(** The check of the code. *)
Lemma allowed_permitted s d : __allowed_cd_to_path (Some s) d = true ↔ permitted (localMiniRoot s) d.
Proof.
  unfold __allowed_cd_to_path, permitted, roots. rewrite Hroot. split.
  - intros [[H1|H1]%orb_prop|H1]%orb_prop.
    + exists root. split; [by left|]. by apply starts_with_prefix.
    + apply andb_prop in H1 as [Hl%bool_decide_eq_true Hp%starts_with_prefix]. exists (localMiniRoot s). split; [|done].
      rewrite decide_False by done. right. by left.
    + apply existsb_exists in H1 as (r & Hr%list_elem_of_In & Hp%starts_with_prefix). exists r. split; [|done].
      right. apply elem_of_app. by right.
  - intros (r & Hr & Hp%starts_with_prefix). rewrite !orb_true_iff. apply elem_of_cons in Hr as [-> |[Hr|Hr]%elem_of_app].
    + by left; left.
    + left. right. case_decide as Hl; [by apply not_elem_of_nil in Hr|]. apply list_elem_of_singleton in Hr as ->.
      by rewrite bool_decide_eq_true_2.
    + right. apply existsb_exists. exists r. split; [by apply list_elem_of_In|done].
Qed.

Lemma root_leads local : permitted local root ∧ leads_inside local root.
Proof. assert (permitted local root) by (exists root; split; [by left|done]). split; [done|]. split; [done|]. by exists root. Qed.

Lemma go_back_inside local d s st : session st = Some s → inside_session local s → inside local (go_back d s st).
Proof.
  intros Hs Hin. destruct (root_leads local) as [Hr Hl]. unfold go_back. rewrite Hroot. destruct (starts_with root d).
  - split; [simpl; by rewrite Hroot_name|]. eexists. split; [done|]. split; [apply Hin|done..].
  - destruct (in_current _ _ Hin) as (_ & e & He & Hp). split; [simpl; by rewrite He|]. by exists s.
Qed.

Lemma settle_inside local update s st : session st = Some s → inside_session local s →
  let s' := update s (process_dir st) in
  localMiniRoot s' = local → has_prefix (currentDir s') = true → (∀ c, enter c (currentDir s') = Some (process_dir st)) →
  leads_inside local (previousDirectory s') → inside local (snd (settle update st)).
Proof.
  intros Hs Hin s' Hl Ha He Hp. unfold settle. rewrite Hs.
  destruct (__allowed_cd_to_path (Some s) (process_dir st)) eqn:E; [|by apply go_back_inside].
  apply allowed_permitted in E. rewrite (in_local _ _ Hin) in E. split; [done|]. exists s'. split; [done|]. split; [done| |done].
  split; [done|]. by exists (process_dir st).
Qed.

Lemma change_checked_enter path st st' : change_checked path st = inr st' →
  enter (process_dir st) path = Some (process_dir st') ∧ session st' = session st ∧ path_access (process_dir st) path = Readable.
Proof. unfold change_checked. destruct (path_access _ _); [done..|]. destruct (enter _ _) eqn:E; intros; by simplify_eq/=. Qed.

Lemma chdir_inside local path st : inside local st → inside local (snd (chdir path st)).
Proof.
  intros Hst. pose proof Hst as (_ & s & Hs & Hin). unfold chdir. destruct (change_checked path st) as [e|st'] eqn:E; [done|].
  apply change_checked_enter in E as (E & Hs' & _). apply enter_name in E as [Ha He]. rewrite <- Hs' in Hs.
  apply (settle_inside local keep_previous s); try done; apply Hin.
Qed.

Lemma fchdir_inside local fd st : inside local st → inside local (snd (ios_fchdir fd st)).
Proof.
  intros Hst. pose proof Hst as (_ & s & Hs & Hin). unfold ios_fchdir. destruct (enter_fd fd) as [d|] eqn:E; [|done].
  apply enter_fd_name in E as [Ha He]. apply (settle_inside local move_previous s); try done; apply Hin.
Qed.

Lemma cd_to_inside local path st : has_prefix path = true → inside local st → inside local (__cd_to_dir path st).
Proof.
  intros Hp Hst. pose proof Hst as (_ & s & Hs & Hin). unfold __cd_to_dir.
  destruct (change_checked path st) as [e|st'] eqn:E; [done|].
  apply change_checked_enter in E as (E & Hs' & _). rewrite <- Hs' in Hs.
  apply (settle_inside local (λ s _, move_previous s path) s); try done; try apply Hin.
  intros c. simpl. by rewrite (enter_absolute c (process_dir st)).
Qed.

Lemma pathJoin_absolute a b : has_prefix a = true → has_prefix (pathJoin (Some a) b) = true.
Proof.
  intros Ha. unfold pathJoin. simpl. destruct (has_prefix (default [] b)) eqn:Hb; [by rewrite normalize_prefix|].
  rewrite normalize_prefix. destruct a as [|c a]; [done|]. by repeat case_bool_decide.
Qed.

Lemma dir_step_inside local c st : inside local st → inside local (dir_step c st).
Proof.
  intros Hst. pose proof Hst as (_ & s & Hs & Hin). destruct c as [path|path|fd|fd|[a|]]; simpl.
  - by apply chdir_inside.
  - by apply (chdir_inside local path st).
  - by apply fchdir_inside.
  - by apply (fchdir_inside local fd st).
  - unfold cd_main. rewrite Hs. simpl. apply cd_to_inside; [|done]. apply pathJoin_absolute, Hin.
  - unfold cd_main. rewrite Hs, Hroot. simpl. rewrite Hroot_name. simpl. destruct (root_leads local) as [Hr Hl].
    split; [done|]. eexists. split; [done|]. split; simpl; [apply Hin|done|apply Hin].
Qed.
End directories.


(** *** A file system of directories *)

Section tree.
Context (tree : list (list text)) (Htree : Forall (Forall proper) tree).

Definition dir_name (d : list text) : text := SLASH :: join_parts d.

Definition tree_enter (c p : text) : option text :=
  let d := resolve (names c) p in if bool_decide (d ∈ tree) then Some (dir_name d) else None.

Lemma walk_down d parts : Forall proper parts → walk d parts = d ++ parts.
Proof.
  intros Hp. revert d. induction Hp as [|p parts Hp Hps IH]; intros d; simpl; [by rewrite app_nil_r|].
  rewrite (walk_proper d p Hp), IH. by rewrite <- app_assoc.
Qed.

Lemma resolve_name c d : Forall proper d → resolve c (dir_name d) = d.
Proof.
  intros Hd. unfold resolve, dir_name. simpl. rewrite names_slash, names_join, walk_down; [done|done|].
  eapply list.Forall_impl; [exact Hd|]. by intros ? [? _].
Qed.

#[local] Program Instance tree_manager : FileManager := {|
  path_access c p := match tree_enter c p with Some _ => Readable | None => Missing end;
  enter := tree_enter;
  enter_fd fd := dir_name <$> tree !! Z.to_nat fd |}.
Next Obligation. intros c c' p Hp. unfold tree_enter, resolve. by rewrite Hp. Qed.
Next Obligation. intros c c' p Hp. unfold tree_enter, resolve. by rewrite Hp. Qed.
Next Obligation.
  intros c p d. unfold tree_enter. case_bool_decide as Hd; [|done]. intros [= <-]. split; [done|].
  intros c'. unfold tree_enter. rewrite resolve_name by (by eapply list.Forall_forall in Htree). by rewrite bool_decide_eq_true_2.
Qed.
Next Obligation.
  intros fd d Hf. apply fmap_Some in Hf as (l & Hl & ->). apply list_elem_of_lookup_2 in Hl. split; [done|].
  intros c. simpl. unfold tree_enter. rewrite resolve_name by (by eapply list.Forall_forall in Htree). by rewrite bool_decide_eq_true_2.
Qed.
End tree.

Definition demo_tree : list (list text) :=
  [[]; [chars "data"]; [chars "data"; chars "docs"]; [chars "data"; chars "docs"; chars "a"]; [chars "data"; chars "docs2"]; [chars "etc"]].

Lemma demo_tree_proper : Forall (Forall proper) demo_tree.
Proof.
  repeat constructor; try done; apply (bool_decide_unpack _); by vm_compute.
Qed.

Definition demo_dirs (path : string) : dirs :=
  Dirs (chars path) (Some (SessionDirs (chars path) (chars path) [])).


(** ** Going back *)

(** [cd -] undoes [cd]: after a [cd] to an allowed directory, [cd -]
    brings the process and the session back to where they were, and the
    directory left becomes the previous one. *)
Theorem cd_back `{FileManager} (miniRoot : option text) (allowedPaths : list text) (documents d e : text)
    (s : session_dirs) (st st' : dirs) :
  session st = Some s → d ≠ chars "-" →
  change_checked (pathJoin (Some (currentDir s)) (Some d)) st = inr st' →
  __allowed_cd_to_path miniRoot allowedPaths (Some s) (process_dir st') = true →
  has_prefix (currentDir s) = true → pathNormalize (currentDir s) = currentDir s →
  (∀ c, path_access c (currentDir s) = Readable) → (∀ c, enter c (currentDir s) = Some e) →
  __allowed_cd_to_path miniRoot allowedPaths (Some s) e = true →
  dir_run miniRoot allowedPaths documents [Cd (Some d); Cd (Some (chars "-"))] st =
    Dirs e (Some (SessionDirs (currentDir s) (pathJoin (Some (currentDir s)) (Some d)) (localMiniRoot s))).
Proof.
  intros Hs Hd Hc Hal Ha Hn Hr He Hal'. simpl. unfold cd_main. rewrite Hs. rewrite (bool_decide_eq_false_2 _ Hd). cbn [snd].
  pose proof Hc as (_ & Hs' & _)%change_checked_enter. rewrite Hs in Hs'.
  unfold __cd_to_dir. rewrite Hc. unfold settle. rewrite Hs', Hal. cbn [snd session fmap option_fmap option_map].
  rewrite (bool_decide_eq_true_2 (chars "-" = chars "-")) by done.
  cbn [snd previousDirectory currentDir move_previous process_dir]. set (new := pathJoin (Some (currentDir s)) (Some d)).
  assert (pathJoin (Some new) (Some (currentDir s)) = currentDir s) as -> by (unfold pathJoin; simpl; by rewrite Ha).
  unfold change_checked. cbn [process_dir session]. rewrite Hr, He. cbn [process_dir session].
  rewrite (allowed_local _ _ (move_previous s new) s e eq_refl), Hal'. done.
Qed.

Lemma cd_back_witness :
  @dir_run (tree_manager demo_tree demo_tree_proper) (Some (chars "/data/docs")) [] []
    [Cd (Some (chars "a")); Cd (Some (chars "-"))] (demo_dirs "/data/docs") =
    Dirs (chars "/data/docs") (Some (SessionDirs (chars "/data/docs") (chars "/data/docs/a") [])).
Proof.
  apply (@cd_back (tree_manager demo_tree demo_tree_proper) (Some (chars "/data/docs")) [] [] (chars "a") (chars "/data/docs")
    (SessionDirs (chars "/data/docs") (chars "/data/docs") []) (demo_dirs "/data/docs")
    (Dirs (chars "/data/docs/a") (Some (SessionDirs (chars "/data/docs") (chars "/data/docs") []))));
    try done; try (intros c); by vm_compute.
Defined.

(** ** Limits *)

(** Without a session a refused change is reported but not undone. *)
Theorem chdir_without_session :
  @chdir (tree_manager demo_tree demo_tree_proper) (Some (chars "/data/docs")) [] (chars "/etc")
    (Dirs (chars "/data/docs") None) = (-1, Some (Eother 13), Dirs (chars "/etc") None).
Proof. by vm_compute. Qed.

(** A directory beside the root is allowed when its name starts with that of
    the root. *)
Theorem allowed_sibling :
  fst (@chdir (tree_manager demo_tree demo_tree_proper) (Some (chars "/data/docs")) [] (chars "/data/docs2")
    (demo_dirs "/data/docs")) = (0, None).
Proof. by vm_compute. Qed.

(** [chdir] does not remember the directory it leaves: [cd -] after it goes
    further back, unlike after [fchdir]. *)
Theorem chdir_forgets :
  let back c := process_dir (@dir_run (tree_manager demo_tree demo_tree_proper) (Some (chars "/data")) [] []
    [Cd (Some (chars "docs")); Cd (Some (chars "a")); c; Cd (Some (chars "-"))] (demo_dirs "/data")) in
  back (Chdir (chars "/data/docs2")) = chars "/data/docs" ∧ back (Fchdir 4) = chars "/data/docs/a".
Proof. by vm_compute. Qed.
