(* ===== verification/CommandThread.v ===== *)
(** * The thread of a command ([src/ios_system.m])

    [ios_system] runs a command in a thread of its own: [run_function] announces
    the thread and calls the function of the command, [cleanup_function] gives
    back what the command held, also when the command is killed.
    - The names of the running commands are a stack in the session:
      [push_name], [pop_name], refined to a list ([names_refine]).
    - [run_start] and [cleanup_function] work on the session, the table of
      processes ([ProcessTable]), the marks of running interpreters and the
      streams that have been closed; what else they do is a log of effects.  The
      wait for the first command of a pipe is the condition [must_wait], under
      which [cleanup_function] does not go on.
    - A field of the parameters that nobody set is a value, and reading it is
      undefined behaviour; so is the use of a closed stream.
    - Theorems: which streams are closed, once each, and that they are not those
      of the session in the same place; the process number, the slot of the
      interpreter and the thread numbers are given back ([command_life]).  The
      code stores [interp_handle] for commands of Python only and reads it at the
      end of all ([cleanup_unset_handle]): the theorem says what happens for
      every content of that field. *)

From S2P Require Import Prelude EnvManager ProcessEnv ProcessTable.

Local Open Scope Z_scope.

Abbreviation stream := positive (only parsing).

Definition NAME_MAX : Z := 255.

(** ** The names of the running commands *)

Record name_stack := NameStack {
  commandName : list string;    (* [numCommandsAllocated] buffers *)
  numCommand : Z }.

Definition names_init : name_stack := NameStack (replicate 10 EmptyString) 0.

(** [strcpy(commandName[i], name)] into a buffer of [NAME_MAX] characters. *)
Definition store_name (i : Z) (name : string) (l : list string) : outcome (list string) :=
  if bool_decide (Z.of_nat (String.length name) + 1 ≤ NAME_MAX ∧ 0 ≤ i < zlen l)
  then Ret (<[Z.to_nat i := name]> l) else Undef OutOfBounds.

Definition push_name (name : string) (s : name_stack) : outcome name_stack :=
  if bool_decide (numCommand s ≤ 0) && bool_decide (commandName s !! 0%nat = Some EmptyString) then
    l ← store_name 0 name (commandName s);
    Ret (NameStack l 1)
  else
    let l := if bool_decide (numCommand s >= zlen (commandName s))
             then commandName s ++ replicate 10 EmptyString else commandName s in
    l ← store_name (numCommand s) name l;
    Ret (NameStack l (numCommand s + 1)).

Definition pop_name (s : name_stack) : name_stack :=
  if bool_decide (numCommand s > 0) then NameStack (commandName s) (numCommand s - 1)
  else NameStack (<[0%nat := EmptyString]> (commandName s)) (numCommand s).

(** The name on top, which [ios_progname] returns; with no command it is the
    first buffer. *)
Definition top_name (s : name_stack) : outcome string :=
  if bool_decide (numCommand s ≤ 0) then slot (commandName s) 0 else slot (commandName s) (numCommand s - 1).

(** ** Parameters and session *)

(** The handle of the slot of an interpreter: never assigned, [NULL], or a slot
    of a pool. *)
Inductive handle : Set := Unset | NullHandle | SlotHandle (python : bool).
Global Instance handle_eq_dec : EqDecision handle.
Proof. solve_decision. Defined.

Record functionParameters := Parameters {
  argv0 : string;
  p_stdin : stream;
  p_stdout : stream;
  p_stderr : stream;
  isPipeIn : bool;
  isPipeOut : bool;
  isPipeErr : bool;
  backgroundCommand : bool;
  numInterpreter : Z;
  interp_handle : handle;
  storeRootThread : bool;
  dynamic_library : bool;       (* [dlHandle] is none of the special ones *)
  p_pid : Z }.

Record session := Session {
  names : name_stack;
  current_command_root_thread : Z;
  lastThreadId : Z;
  mainThreadId : Z;
  activePager : bool;
  global_errno : Z;
  s_stdin : stream;
  s_stdout : stream;
  s_stderr : stream }.

(** [PythonIsRunning] and the others. *)
Record interpreters := Interpreters {
  PythonIsRunning : list bool;
  PerlIsRunning : list bool;
  TeXIsRunning : list bool;
  sshIsRunning : list bool;
  curlIsRunning : bool }.

Inductive effect : Set :=
  | SignalRoot            (* [pthread_kill(root, SIGINT)] *)
  | DrainInput            (* reads standard input to its end *)
  | Flush                 (* the three streams of the thread *)
  | ReleaseSlot           (* [ios_interp_release] *)
  | Fclose (s : stream)
  | Dlclose
  | StopInteractive
  | EnvCleanup.           (* [ios_env_cleanup_thread] *)
Global Instance effect_eq_dec : EqDecision effect.
Proof. solve_decision. Defined.

Record world := World {
  w_session : session;
  w_table : process_table;
  w_pid : Z;                    (* [current_pid] of the thread *)
  w_interp : interpreters;
  w_closed : gset stream;
  w_log : list effect }.

Definition with_session (f : session → session) (w : world) : world :=
  World (f (w_session w)) (w_table w) (w_pid w) (w_interp w) (w_closed w) (w_log w).
Definition with_interp (f : interpreters → interpreters) (w : world) : world :=
  World (w_session w) (w_table w) (w_pid w) (f (w_interp w)) (w_closed w) (w_log w).
Definition log (es : list effect) (w : world) : world :=
  World (w_session w) (w_table w) (w_pid w) (w_interp w) (w_closed w) (w_log w ++ es).

Definition set_names (n : name_stack) (s : session) : session :=
  Session n (current_command_root_thread s) (lastThreadId s) (mainThreadId s) (activePager s) (global_errno s)
    (s_stdin s) (s_stdout s) (s_stderr s).
Definition set_root (t : Z) (s : session) : session :=
  Session (names s) t (lastThreadId s) (mainThreadId s) (activePager s) (global_errno s)
    (s_stdin s) (s_stdout s) (s_stderr s).
Definition set_last_thread (t : Z) (s : session) : session :=
  Session (names s) (current_command_root_thread s) t (mainThreadId s) (activePager s) (global_errno s)
    (s_stdin s) (s_stdout s) (s_stderr s).
Definition set_main (t : Z) (s : session) : session :=
  Session (names s) (current_command_root_thread s) (lastThreadId s) t (activePager s) (global_errno s)
    (s_stdin s) (s_stdout s) (s_stderr s).
Definition set_pager (b : bool) (s : session) : session :=
  Session (names s) (current_command_root_thread s) (lastThreadId s) (mainThreadId s) b (global_errno s)
    (s_stdin s) (s_stdout s) (s_stderr s).

Definition starts (prefix name : string) : bool := String.prefix prefix name.
Definition is_pager (name : string) : bool := bool_decide (name = "less"%string) || bool_decide (name = "more"%string).

(** The flags [ios_system] sets before it starts the thread; [tin], [tout] and
    [terr] are the streams of the calling thread. *)
Definition set_pipe_flags (tin tout terr : stream) (p : functionParameters) : functionParameters :=
  Parameters (argv0 p) (p_stdin p) (p_stdout p) (p_stderr p)
    (bool_decide (p_stdin p ≠ tin)) (bool_decide (p_stdout p ≠ tout))
    (bool_decide (p_stderr p ≠ terr) && bool_decide (p_stderr p ≠ p_stdout p))
    (backgroundCommand p) (numInterpreter p) (interp_handle p) (storeRootThread p) (dynamic_library p) (p_pid p).

(** [run_function] up to the call of the command. *)
Definition run_start (p : functionParameters) (thread : Z) (w : world) : outcome world :=
  '(t, pid) ← ios_storeThreadId (w_table w) (p_pid p) thread;
  let w := World (w_session w) t pid (w_interp w) (w_closed w) (w_log w) in
  let w := if storeRootThread p then with_session (set_root thread) w else w in
  Ret (if is_pager (argv0 p) then with_session (set_pager true) w else w).

(** ** The end of a command *)

Section cleanup.
(** The descriptors of streams, the streams of the process, the commands of
    TeX, [joinMainThread], and for WebAssembly whether standard input is a
    file. *)
Context (fileno : stream → Z) (std_in std_out std_err : stream) (TeXcommands : list string).
Context (joinMainThread stdin_is_file : bool) (chdir_nolock : string → string → string).

(** [fileno(s)], for a stream that may have been closed. *)
Definition fd_of (w : world) (s : stream) : outcome Z :=
  if bool_decide (s ∈ w_closed w) then Undef UseAfterFree else Ret (fileno s).

Definition fclose (s : stream) (w : world) : outcome world :=
  if bool_decide (s ∈ w_closed w) then Undef DoubleFree
  else Ret (World (w_session w) (w_table w) (w_pid w) (w_interp w) ({[ s ]} ∪ w_closed w) (w_log w ++ [Fclose s])).

(** The second name from the top. *)
Definition below_top (n : name_stack) : outcome (option string) :=
  if bool_decide (numCommand n > 1) then Some <$> slot (commandName n) (numCommand n - 2) else Ret None.

(** [less] and [more]: whether the caller becomes non-interactive. *)
Definition pager_exit (p : functionParameters) (w : world) : outcome (bool * world) :=
  if is_pager (argv0 p) then
    top ← top_name (names (w_session w));
    '(non_interactive, w) ←
      (if bool_decide (top ≠ EmptyString) && negb (is_pager top) then Ret (false, log [SignalRoot; DrainInput] w)
       else
         below ← below_top (names (w_session w));
         Ret (match below with
              | Some b =>
                  if starts "ipython" b || starts "isympy" b || starts "python" b
                  then (starts "python" b, log [DrainInput] w) else (false, w)
              | None => (false, w)
              end));
    Ret (non_interactive, with_session (set_pager false) w)
  else Ret (false, w).

(** The command is the end of a pipe whose first command is still running. *)
Definition in_pipe (p : functionParameters) : bool :=
  negb joinMainThread && isPipeOut p && negb (bool_decide (argv0 p = "ssh"%string)) &&
  negb (bool_decide (argv0 p = "dash"%string)).
Definition must_wait (p : functionParameters) (thread : Z) (w : world) : bool :=
  in_pipe p && bool_decide (current_command_root_thread (w_session w) ≠ 0) &&
  bool_decide (current_command_root_thread (w_session w) ≠ thread).

(** After the wait the first thread of the pipe is no longer waited for. *)
Definition leave_pipe (p : functionParameters) (thread : Z) (w : world) : world :=
  if in_pipe p && bool_decide (current_command_root_thread (w_session w) = thread)
  then with_session (set_root 0) w else w.

Definition unmark (i : Z) (l : list bool) : outcome (list bool) :=
  _ ← slot l i; Ret (<[Z.to_nat i := false]> l).

(** The interpreter is free again; the result tells whether standard input may
    be closed. *)
Definition release_interpreter (p : functionParameters) (w : world) : outcome (bool * world) :=
  let i := numInterpreter p in
  match interp_handle p with
  | Unset => Undef Uninitialised
  | SlotHandle python => Ret (negb python, log [ReleaseSlot] w)
  | NullHandle =>
      let n := argv0 p in
      let t := w_interp w in
      if starts "python" n then
        l ← unmark i (PythonIsRunning t);
        Ret (false, with_interp (λ t, Interpreters l (PerlIsRunning t) (TeXIsRunning t) (sshIsRunning t) (curlIsRunning t)) w)
      else if starts "perl" n then
        l ← unmark i (PerlIsRunning t);
        Ret (true, with_interp (λ t, Interpreters (PythonIsRunning t) l (TeXIsRunning t) (sshIsRunning t) (curlIsRunning t)) w)
      else if bool_decide (n ∈ TeXcommands) then
        l ← unmark i (TeXIsRunning t);
        Ret (true, with_interp (λ t, Interpreters (PythonIsRunning t) (PerlIsRunning t) l (sshIsRunning t) (curlIsRunning t)) w)
      else if bool_decide (n = "ssh"%string) || bool_decide (n = "scp"%string) || bool_decide (n = "sftp"%string) then
        l ← unmark i (sshIsRunning t);
        Ret (true, with_interp (λ t, Interpreters (PythonIsRunning t) (PerlIsRunning t) (TeXIsRunning t) l (curlIsRunning t)) w)
      else if bool_decide (n = "curl"%string) then
        Ret (true, with_interp (λ t, Interpreters (PythonIsRunning t) (PerlIsRunning t) (TeXIsRunning t) (sshIsRunning t) false) w)
      else Ret (true, w)
  end.

Definition is_sh (p : functionParameters) : bool := bool_decide (argv0 p = "sh"%string).

Definition close_stderr (p : functionParameters) (w : world) : outcome world :=
  e ← fd_of w (p_stderr p); o ← fd_of w (p_stdout p); i ← fd_of w (p_stdin p);
  let s := w_session w in
  let must := bool_decide (e ≠ fileno std_err) && bool_decide (e ≠ o) && bool_decide (o ≠ i) in
  let must := if is_sh p then must
              else must && isPipeErr p && bool_decide (e ≠ fileno (s_stderr s)) && bool_decide (e ≠ fileno (s_stdout s)) in
  if must then fclose (p_stderr p) w else Ret w.

Definition close_stdout (p : functionParameters) (w : world) : outcome world :=
  o ← fd_of w (p_stdout p); i ← fd_of w (p_stdin p);
  let must := bool_decide (o ≠ fileno std_out) && bool_decide (o ≠ i) in
  let must := if is_sh p then must else must && isPipeOut p && bool_decide (o ≠ fileno (s_stdout (w_session w))) in
  if must then fclose (p_stdout p) w else Ret w.

(** [must] is what the interpreter left of the decision. *)
Definition close_stdin (must : bool) (p : functionParameters) (w : world) : outcome world :=
  must ← (if is_sh p then Ret must
          else
            i ← fd_of w (p_stdin p);
            let must := must && isPipeIn p && bool_decide (i ≠ fileno (s_stdin (w_session w))) in
            let must := if bool_decide (argv0 p = "wasm"%string) then must && stdin_is_file else must in
            let n := names (w_session w) in
            top ← (if bool_decide (numCommand n > 0) then slot (commandName n) (numCommand n - 1) else Ret EmptyString);
            Ret (must && negb (bool_decide (numCommand n > 0) && starts "python" top)));
  if must : bool then fclose (p_stdin p) w else Ret w.

(** The thread gives up its numbers. *)
Definition release_thread (p : functionParameters) (thread : Z) (non_interactive : bool) (w : world) : outcome world :=
  let w := if bool_decide (lastThreadId (w_session w) = thread) then with_session (set_last_thread 0) w else w in
  let w := if negb (backgroundCommand p) && non_interactive then log [StopInteractive] w else w in
  '(t, pid) ← (if backgroundCommand p then ios_releaseBackgroundThread (w_table w) (w_pid w) thread
               else ios_releaseThread chdir_nolock (w_table w) (w_pid w) thread);
  let w := World (w_session w) t pid (w_interp w) (w_closed w) (w_log w) in
  let w := if bool_decide (current_command_root_thread (w_session w) = thread) then with_session (set_root 0) w else w in
  let w := if bool_decide (mainThreadId (w_session w) = thread) then with_session (set_main 0) w else w in
  Ret (log [EnvCleanup] w).

(** [cleanup_function] of a command that need not wait. *)
Definition cleanup_function (p : functionParameters) (thread : Z) (w : world) : outcome world :=
  '(non_interactive, w) ← pager_exit p w;
  let w := log [Flush] (leave_pipe p thread w) in
  let must := bool_decide (fileno (p_stdin p) ≠ fileno std_in) in
  '(may, w) ← release_interpreter p w;
  let w := with_session (λ s, set_names (pop_name (names s)) s) w in
  w ← close_stderr p w;
  w ← close_stdout p w;
  w ← close_stdin (must && may) p w;
  let w := if dynamic_library p then log [Dlclose] w else w in
  release_thread p thread non_interactive w.
End cleanup.

(** ** The stack of names *)

Definition names_rep (s : name_stack) (st : list string) : Prop :=
  numCommand s = zlen st ∧ zlen st ≤ zlen (commandName s) ∧ 0 < zlen (commandName s) ∧
  ∀ i n, reverse st !! i = Some n → commandName s !! i = Some n.

Definition short (n : string) : Prop := Z.of_nat (String.length n) + 1 ≤ NAME_MAX.

Lemma names_init_rep : names_rep names_init [].
Proof. unfold names_rep, names_init, zlen. simpl. split_and!; [lia..|]. by intros i n ?. Qed.

Lemma store_name_ok l i name : short name → 0 ≤ i < zlen l → store_name i name l = Ret (<[Z.to_nat i := name]> l).
Proof. intros Hs Hi. unfold store_name. by rewrite bool_decide_eq_true_2. Qed.

(** Writing the buffer at the height of the stack. *)
Lemma push_rep l st n k : zlen st < zlen l → k = zlen st →
  (∀ i m, reverse st !! i = Some m → l !! i = Some m) →
  names_rep (NameStack (<[Z.to_nat k := n]> l) (k + 1)) (n :: st).
Proof.
  intros Hl -> Hi. unfold names_rep, zlen in *. simpl. rewrite length_insert. split_and!; [lia..|].
  intros i m. rewrite reverse_cons. intros [Hm|[Hle Hm]]%lookup_app_Some.
  - rewrite list_lookup_insert_ne; [by apply Hi|]. apply lookup_lt_Some in Hm. rewrite length_reverse in Hm. lia.
  - apply list_lookup_singleton_Some in Hm as [Hz <-]. rewrite length_reverse in *.
    replace i with (Z.to_nat (Z.of_nat (length st))) by lia. apply list_lookup_insert_eq. lia.
Qed.

Lemma push_refines s st n : names_rep s st → short n → ∃ s', push_name n s = Ret s' ∧ names_rep s' (n :: st).
Proof.
  intros (Hn & Hl & Hp & Hi) Hs. unfold push_name. case_bool_decide as Hz; simpl; [case_bool_decide as Hf|].
  - rewrite store_name_ok by (done || lia). simpl. eexists. split; [done|].
    assert (zlen st = 0) as E by (unfold zlen in *; lia).
    pose proof (push_rep (commandName s) st n 0 ltac:(lia) ltac:(lia) Hi) as H. exact H.
  - assert (zlen st = 0) as E by (unfold zlen in *; lia). rewrite bool_decide_eq_false_2 by lia.
    rewrite store_name_ok by (done || lia). simpl. eexists. split; [done|]. apply (push_rep _ st); [lia..|done].
  - set (l := if bool_decide _ then _ else _).
    assert (zlen st < zlen l ∧ ∀ i m, reverse st !! i = Some m → l !! i = Some m) as [Hl' Hi'].
    { subst l. case_bool_decide; [|split; [lia|done]]. unfold zlen in *. rewrite length_app. simpl. split; [lia|].
      intros i m Hm. by apply lookup_app_l_Some, Hi. }
    rewrite store_name_ok by (done || (unfold zlen in *; lia)). simpl. eexists. split; [done|]. by apply (push_rep _ st).
Qed.

Lemma pop_refines s st : names_rep s st → names_rep (pop_name s) (tail st).
Proof.
  intros (Hn & Hl & Hp & Hi). unfold pop_name, names_rep. destruct st as [|n st].
  - rewrite bool_decide_eq_false_2 by (unfold zlen in *; simpl in *; lia). simpl.
    unfold zlen in *. rewrite length_insert. split_and!; [done..|]. by intros i n ?.
  - rewrite bool_decide_eq_true_2 by (unfold zlen in *; simpl in *; lia). simpl. unfold zlen in *. simpl in *.
    split_and!; [lia..|]. intros i m Hm. apply Hi. rewrite reverse_cons. by apply lookup_app_l_Some.
Qed.

Lemma top_refines s n st : names_rep s (n :: st) → top_name s = Ret n.
Proof.
  intros (Hn & Hl & Hp & Hi). unfold top_name. rewrite bool_decide_eq_false_2 by (unfold zlen in *; simpl in *; lia).
  replace (numCommand s - 1) with (Z.of_nat (length st)) by (unfold zlen in *; simpl in *; lia).
  apply slot_ok, Hi. rewrite reverse_cons, lookup_app_r by (by rewrite length_reverse). by rewrite length_reverse, Nat.sub_diag.
Qed.

(** Starting and ending commands. *)
Inductive name_op : Type := Push (n : string) | Pop.

Definition name_step (op : name_op) (s : name_stack) : outcome name_stack :=
  match op with Push n => push_name n s | Pop => Ret (pop_name s) end.
Definition stack_step (op : name_op) (st : list string) : list string :=
  match op with Push n => n :: st | Pop => tail st end.

Fixpoint name_run (ops : list name_op) (s : name_stack) : outcome name_stack :=
  match ops with [] => Ret s | op :: ops => s ← name_step op s; name_run ops s end.

Definition op_ok (op : name_op) : Prop := match op with Push n => short n | Pop => True end.

Lemma names_run_refine ops s st : names_rep s st → Forall op_ok ops →
  ∃ s', name_run ops s = Ret s' ∧ names_rep s' (foldl (λ st op, stack_step op st) st ops).
Proof.
  intros Hr Ho. revert s st Hr. induction Ho as [|op ops Hop Hops IH]; intros s st Hr; simpl; [by eauto|].
  destruct op as [n|]; simpl.
  - destruct (push_refines s st n Hr Hop) as (s' & -> & Hr'). simpl. by apply IH.
  - by apply IH, pop_refines.
Qed.

(** The names of the running commands are a stack, whatever is started and
    ended, with names of less than 255 characters: no buffer is overrun and the
    name on top is that of the command started last that has not ended. *)
Theorem names_refine (ops : list name_op) : Forall op_ok ops →
  ∃ s, name_run ops names_init = Ret s ∧
    let st := foldl (λ st op, stack_step op st) [] ops in
    numCommand s = zlen st ∧ (∀ n, head st = Some n → top_name s = Ret n).
Proof.
  intros Ho. destruct (names_run_refine ops _ _ names_init_rep Ho) as (s & E & Hr). exists s. split; [done|].
  simpl. split; [apply Hr|]. intros n Hn. destruct (foldl _ _ _) as [|m st]; [done|]. injection Hn as ->.
  by apply (top_refines _ _ st).
Qed.

(** A command written as [\ls] is not pushed, but popped when it ends: the name
    on top is then that of the caller's caller. *)
Theorem backslash_unbalances :
  ∃ s, name_run [Push "dash"; Push "python3"; Pop] names_init = Ret s ∧ top_name s = Ret "dash"%string.
Proof. eexists. by split. Qed.

(** A name of 255 characters or more, for instance a long path, overruns its
    buffer. *)
Theorem long_name_overruns n : NAME_MAX ≤ Z.of_nat (String.length n) → push_name n names_init = Undef OutOfBounds.
Proof. intros H. unfold push_name. simpl. unfold store_name. rewrite bool_decide_eq_false_2; [done|lia]. Qed.

(** ** What a command gives back *)

Section gives_back.
Context (fileno : stream → Z) (std_in std_out std_err : stream) (TeXcommands : list string).
Context (joinMainThread stdin_is_file : bool) (chdir_nolock : string → string → string).

Let cleanup := cleanup_function fileno std_in std_out std_err TeXcommands joinMainThread stdin_is_file chdir_nolock.

(** The output is a file or a pipe of the command's own. *)
Definition own_stdout (p : functionParameters) (s : session) : Prop :=
  isPipeOut p = true ∧ fileno (p_stdout p) ≠ fileno std_out ∧ fileno (p_stdout p) ≠ fileno (s_stdout s) ∧
  fileno (p_stdout p) ≠ fileno (p_stdin p).

(** So are the errors, and they are not sent to the output. *)
Definition own_stderr (p : functionParameters) (s : session) : Prop :=
  isPipeErr p = true ∧ fileno (p_stderr p) ≠ fileno std_err ∧ fileno (p_stderr p) ≠ fileno (s_stderr s) ∧
  fileno (p_stderr p) ≠ fileno (s_stdout s) ∧ fileno (p_stderr p) ≠ fileno (p_stdout p) ∧
  fileno (p_stdout p) ≠ fileno (p_stdin p).

(** The input, as far as the streams tell. *)
Definition own_stdin (p : functionParameters) (s : session) : Prop :=
  isPipeIn p = true ∧ fileno (p_stdin p) ≠ fileno std_in ∧ fileno (p_stdin p) ≠ fileno (s_stdin s).

#[local] Instance own_stdout_dec p s : Decision (own_stdout p s).
Proof. unfold own_stdout. apply _. Defined.
#[local] Instance own_stderr_dec p s : Decision (own_stderr p s).
Proof. unfold own_stderr. apply _. Defined.

(** How often the slot of an interpreter has been released. *)
Definition releases (w : world) : nat := length (filter (λ e, e = ReleaseSlot) (w_log w)).

Lemma releases_log es w : releases (log es w) = (releases w + length (filter (λ e, e = ReleaseSlot) es))%nat.
Proof. unfold releases. simpl. by rewrite list.filter_app, length_app. Qed.

(** Everything but the closed streams and the log. *)
Definition same_state (w w' : world) : Prop :=
  w_session w' = w_session w ∧ w_table w' = w_table w ∧ w_pid w' = w_pid w ∧ w_interp w' = w_interp w ∧
  releases w' = releases w.

Lemma fclose_ok s w : s ∉ w_closed w →
  ∃ w', fclose s w = Ret w' ∧ same_state w w' ∧ w_closed w' = {[ s ]} ∪ w_closed w.
Proof.
  intros Hs. unfold fclose. rewrite bool_decide_eq_false_2 by done. eexists. split; [done|]. split; [|done]. split_and!; try done.
  unfold releases. simpl. rewrite list.filter_app, length_app. simpl. lia.
Qed.

Lemma fd_of_ok s w : s ∉ w_closed w → fd_of fileno w s = Ret (fileno s).
Proof. intros Hs. unfold fd_of. by rewrite bool_decide_eq_false_2. Qed.

Lemma close_stderr_ok p w : is_sh p = false → p_stderr p ∉ w_closed w → p_stdout p ∉ w_closed w → p_stdin p ∉ w_closed w →
  ∃ w', close_stderr fileno std_err p w = Ret w' ∧ same_state w w' ∧
    w_closed w' = (if decide (own_stderr p (w_session w)) then {[ p_stderr p ]} else ∅) ∪ w_closed w.
Proof.
  intros Hsh He Ho Hi. unfold close_stderr. rewrite !fd_of_ok by done. simpl. rewrite Hsh.
  destruct (decide (own_stderr p (w_session w))) as [(H1 & H2 & H3 & H4 & H5 & H6)|Hn].
  - rewrite H1, !bool_decide_eq_true_2 by done. simpl. by apply fclose_ok.
  - assert (∀ b : bool, b = false → (if b then fclose (p_stderr p) w else Ret w) = Ret w) as Hb by (by intros ? ->).
    rewrite Hb; [eexists; split; [done|]; split; [done|set_solver]|].
    apply not_true_iff_false. rewrite !andb_true_iff, !bool_decide_eq_true. unfold own_stderr in Hn. tauto.
Qed.

Lemma close_stdout_ok p w : is_sh p = false → p_stdout p ∉ w_closed w → p_stdin p ∉ w_closed w →
  ∃ w', close_stdout fileno std_out p w = Ret w' ∧ same_state w w' ∧
    w_closed w' = (if decide (own_stdout p (w_session w)) then {[ p_stdout p ]} else ∅) ∪ w_closed w.
Proof.
  intros Hsh Ho Hi. unfold close_stdout. rewrite !fd_of_ok by done. simpl. rewrite Hsh.
  destruct (decide (own_stdout p (w_session w))) as [(H1 & H2 & H3 & H4)|Hn].
  - rewrite H1, !bool_decide_eq_true_2 by done. simpl. by apply fclose_ok.
  - assert (∀ b : bool, b = false → (if b then fclose (p_stdout p) w else Ret w) = Ret w) as Hb by (by intros ? ->).
    rewrite Hb; [eexists; split; [done|]; split; [done|set_solver]|].
    apply not_true_iff_false. rewrite !andb_true_iff, !bool_decide_eq_true. unfold own_stdout in Hn. tauto.
Qed.

(** The stack of names can be read. *)
Definition names_ok (n : name_stack) : Prop := 0 < zlen (commandName n) ∧ numCommand n ≤ zlen (commandName n).

Lemma names_slot n i : 0 ≤ i < zlen (commandName n) → ∃ x, slot (commandName n) i = Ret x.
Proof.
  intros Hi. unfold zlen in Hi. destruct (lookup_lt_is_Some_2 (commandName n) (Z.to_nat i)) as [x Hx]; [lia|].
  exists x. replace i with (Z.of_nat (Z.to_nat i)) by lia. by apply slot_ok.
Qed.

Lemma close_stdin_ok must p w : is_sh p = false → p_stdin p ∉ w_closed w → names_ok (names (w_session w)) →
  (must = true → fileno (p_stdin p) ≠ fileno std_in) →
  ∃ w', close_stdin fileno stdin_is_file must p w = Ret w' ∧ same_state w w' ∧
    (w_closed w' = w_closed w ∨ w_closed w' = {[ p_stdin p ]} ∪ w_closed w ∧ own_stdin p (w_session w)) ∧
    (must = false → w_closed w' = w_closed w).
Proof.
  intros Hsh Hi [Hp Hl] Hm. unfold close_stdin. rewrite Hsh, fd_of_ok by done. cbn [mbind outcome_bind].
  set (n := names (w_session w)) in *.
  assert (∃ top, (if bool_decide (numCommand n > 0) then slot (commandName n) (numCommand n - 1) else Ret EmptyString) = Ret top)
    as [top ->].
  { case_bool_decide; [|by eexists]. apply names_slot. lia. }
  cbn [mbind outcome_bind].
  match goal with |- context [if ?b then fclose _ _ else _] => destruct b eqn:Hb end.
  - destruct (fclose_ok (p_stdin p) w Hi) as (w' & -> & Hs & Hc). exists w'. split; [done|]. split; [done|].
    split; [right; split; [done|]|intros ->; destruct (bool_decide (argv0 p = _)); done]. unfold own_stdin. apply andb_true_iff in Hb as [Hb _].
    assert (must && isPipeIn p && bool_decide (fileno (p_stdin p) ≠ fileno (s_stdin (w_session w))) = true) as Hb'.
    { destruct (bool_decide (argv0 p = "wasm"%string)); [by apply andb_true_iff in Hb as [? _]|done]. }
    rewrite !andb_true_iff, bool_decide_eq_true in Hb'. destruct Hb' as [[H1 H2] H3]. auto.
  - eexists. split; [done|]. split; [done|]. split; [by left|done].
Qed.

Ltac same_releases :=
  unfold releases; simpl; rewrite ?list.filter_app, ?length_app; exact (Nat.add_0_r _) || done.

Lemma pager_exit_ok p w : names_ok (names (w_session w)) →
  ∃ b w', pager_exit p w = Ret (b, w') ∧ w_table w' = w_table w ∧ w_pid w' = w_pid w ∧ w_interp w' = w_interp w ∧
    w_closed w' = w_closed w ∧ (w_session w' = w_session w ∨ w_session w' = set_pager false (w_session w)) ∧
    releases w' = releases w.
Proof.
  intros [Hp Hl]. unfold pager_exit. destruct (is_pager (argv0 p)); [|by eexists _, _; split; [done|]; split_and!; auto].
  assert (∃ top, top_name (names (w_session w)) = Ret top) as [top ->].
  { unfold top_name. case_bool_decide; apply names_slot; lia. }
  cbn [mbind outcome_bind]. destruct (bool_decide (top ≠ EmptyString) && negb (is_pager top)); [by eexists _, _; split; [done|]; simpl; split_and!; auto; same_releases|].
  assert (∃ o, below_top (names (w_session w)) = Ret o) as [o ->].
  { unfold below_top. case_bool_decide; [|by eexists]. destruct (names_slot (names (w_session w)) (numCommand (names (w_session w)) - 2)) as [x ->];
      [lia|]. by eexists. }
  cbn [mbind outcome_bind]. destruct o as [b|]; [|by eexists _, _; split; [done|]; simpl; split_and!; auto].
  destruct (starts "ipython" b || starts "isympy" b || starts "python" b); eexists _, _; (split; [done|]); simpl; split_and!; auto; same_releases.
Qed.
(** The marks the command set when it started. *)
Definition marks_of (p : functionParameters) (t : interpreters) : option (list bool) :=
  let n := argv0 p in
  if starts "python" n then Some (PythonIsRunning t)
  else if starts "perl" n then Some (PerlIsRunning t)
  else if bool_decide (n ∈ TeXcommands) then Some (TeXIsRunning t)
  else if bool_decide (n = "ssh"%string) || bool_decide (n = "scp"%string) || bool_decide (n = "sftp"%string)
  then Some (sshIsRunning t)
  else None.

Definition marks_ok (p : functionParameters) (t : interpreters) : Prop :=
  ∀ l, marks_of p t = Some l → 0 ≤ numInterpreter p < zlen l.

Lemma unmark_ok i l : 0 ≤ i < zlen l → unmark i l = Ret (<[Z.to_nat i := false]> l) ∧ <[Z.to_nat i := false]> l !! Z.to_nat i = Some false.
Proof.
  intros Hi. unfold unmark, zlen in *. destruct (lookup_lt_is_Some_2 l (Z.to_nat i)) as [x Hx]; [lia|].
  replace (slot l i) with (Ret x); [split; [done|apply list_lookup_insert_eq; lia]|].
  symmetry. replace i with (Z.of_nat (Z.to_nat i)) by lia. by apply slot_ok.
Qed.

Lemma release_interpreter_ok p w : interp_handle p ≠ Unset → marks_ok p (w_interp w) →
  ∃ b w', release_interpreter TeXcommands p w = Ret (b, w') ∧ w_session w' = w_session w ∧ w_table w' = w_table w ∧
    w_pid w' = w_pid w ∧ w_closed w' = w_closed w ∧
    (interp_handle p = NullHandle → ∀ l, marks_of p (w_interp w') = Some l → l !! Z.to_nat (numInterpreter p) = Some false) ∧
    (∀ py, interp_handle p = SlotHandle py → b = negb py ∧ releases w' = S (releases w)).
Proof.
  intros Hh Hm. unfold release_interpreter. unfold marks_ok, marks_of in *.
  destruct (interp_handle p) as [| |py]; [done| |].
  2: { eexists _, _. split; [done|]. split_and!; try done. intros ? [= <-]. split; [done|]. rewrite releases_log.
       exact (Nat.add_1_r _). }
  destruct (starts "python" (argv0 p)); [|destruct (starts "perl" (argv0 p)); [|destruct (bool_decide (argv0 p ∈ TeXcommands));
    [|destruct (bool_decide (argv0 p = "ssh"%string) || bool_decide (argv0 p = "scp"%string) || bool_decide (argv0 p = "sftp"%string));
      [|destruct (bool_decide (argv0 p = "curl"%string))]]]].
  1-4: (edestruct unmark_ok as [-> Hl]; [by apply Hm|]); eexists _, _; (split; [done|]); split_and!; try done;
       by intros _ l [= <-].
  all: eexists _, _; (split; [done|]); by split_and!.
Qed.

Lemma release_thread_ok p thread b w k parent : thread ≠ 0 → table_wf (w_table w) → find_thread (w_table w) thread = Some k →
  previousPid (w_table w) !! k = Some parent →
  ∃ w', release_thread chdir_nolock p thread b w = Ret w' ∧ w_interp w' = w_interp w ∧ w_closed w' = w_closed w ∧
    thread_ids (w_table w') = <[k := 0]> (thread_ids (w_table w)) ∧ w_pid w' = parent ∧
    names (w_session w') = names (w_session w) ∧
    current_command_root_thread (w_session w') ≠ thread ∧ lastThreadId (w_session w') ≠ thread ∧
    mainThreadId (w_session w') ≠ thread ∧ releases w' = releases w.
Proof.
  intros Ht Hw Hk Hpar. unfold release_thread.
  set (w1 := if bool_decide (lastThreadId _ = _) then _ else _).
  set (w2 := if _ && b then _ else w1).
  assert (w_table w2 = w_table w ∧ w_interp w2 = w_interp w ∧ w_closed w2 = w_closed w ∧
    names (w_session w2) = names (w_session w) ∧ lastThreadId (w_session w2) ≠ thread ∧ releases w2 = releases w)
    as (E1 & E2 & E3 & E4 & E5 & E6).
  { subst w2 w1. case_bool_decide; destruct (negb (backgroundCommand p) && b); simpl; split_and!;
      same_releases || done || by apply not_eq_sym. }
  assert (∃ t, (if backgroundCommand p then ios_releaseBackgroundThread (w_table w2) (w_pid w2) thread
      else ios_releaseThread chdir_nolock (w_table w2) (w_pid w2) thread) = Ret (t, parent) ∧
      thread_ids t = <[k := 0]> (thread_ids (w_table w))) as (t & -> & Htt).
  { rewrite E1. pose proof (find_thread_lt _ _ _ Hk) as Hlt. rewrite (wf_threads _ Hw) in Hlt.
    destruct (backgroundCommand p); [unfold ios_releaseBackgroundThread|unfold ios_releaseThread; rewrite (bool_decide_eq_false_2 _ Ht)];
      rewrite Hk, (slot_ok _ _ _ Hpar); simpl.
    - by eexists.
    - destruct (lookup_lt_is_Some_2 (previousDirectory (w_table w)) k) as [d Hd]; [by rewrite (wf_dir _ Hw)|].
      rewrite (slot_ok _ _ _ Hd). simpl. by eexists. }
  cbn [mbind outcome_bind]. eexists. split; [done|]. rewrite <- E6. simpl.
  repeat case_bool_decide; simpl in *; split_and!; same_releases || done || by apply not_eq_sym.
Qed.

Lemma cleanup_ok p thread w k parent :
  is_sh p = false → interp_handle p ≠ Unset → marks_ok p (w_interp w) → names_ok (names (w_session w)) →
  p_stdin p ∉ w_closed w → p_stdout p ∉ w_closed w → p_stderr p ∉ w_closed w →
  p_stdin p ≠ p_stdout p → p_stdin p ≠ p_stderr p →
  thread ≠ 0 → table_wf (w_table w) → find_thread (w_table w) thread = Some k → previousPid (w_table w) !! k = Some parent →
  ∃ w', cleanup p thread w = Ret w' ∧
    (p_stdout p ∈ w_closed w' ↔ own_stdout p (w_session w)) ∧
    (p_stderr p ∈ w_closed w' ↔ own_stderr p (w_session w) ∨ p_stderr p = p_stdout p ∧ own_stdout p (w_session w)) ∧
    (p_stdin p ∈ w_closed w' → own_stdin p (w_session w)) ∧
    w_closed w' ⊆ w_closed w ∪ {[ p_stdin p; p_stdout p; p_stderr p ]} ∧
    thread_ids (w_table w') = <[k := 0]> (thread_ids (w_table w)) ∧ w_pid w' = parent ∧
    names (w_session w') = pop_name (names (w_session w)) ∧
    current_command_root_thread (w_session w') ≠ thread ∧ lastThreadId (w_session w') ≠ thread ∧
    mainThreadId (w_session w') ≠ thread ∧
    (interp_handle p = NullHandle → ∀ l, marks_of p (w_interp w') = Some l → l !! Z.to_nat (numInterpreter p) = Some false) ∧
    (∀ py, interp_handle p = SlotHandle py → releases w' = S (releases w) ∧ (py = true → p_stdin p ∉ w_closed w')).
Proof.
  intros Hsh Hh Hm Hn Hi Ho He Hio Hie Ht Hw Hk Hpar. unfold cleanup, cleanup_function.
  destruct (pager_exit_ok p w Hn) as (b & w1 & -> & T1 & P1 & I1 & C1 & S1 & L1). cbn [mbind outcome_bind].
  set (w2 := log [Flush] _).
  assert (w_table w2 = w_table w ∧ w_interp w2 = w_interp w ∧ w_closed w2 = w_closed w ∧
    names (w_session w2) = names (w_session w) ∧ s_stdin (w_session w2) = s_stdin (w_session w) ∧
    s_stdout (w_session w2) = s_stdout (w_session w) ∧ s_stderr (w_session w2) = s_stderr (w_session w) ∧ releases w2 = releases w)
    as (T2 & I2 & C2 & N2 & Sin & Sout & Serr & L2).
  { subst w2. rewrite <- L1. unfold leave_pipe. destruct (in_pipe _ _ && _); simpl; destruct S1 as [-> | ->]; split_and!;
      same_releases || done. }
  destruct (release_interpreter_ok p w2 Hh) as (may & w3 & -> & S3 & T3 & _ & C3 & M3 & L3); [by rewrite I2|]. cbn [mbind outcome_bind].
  set (w4 := with_session _ w3).
  assert (own_stderr p (w_session w4) ↔ own_stderr p (w_session w)) as Eerr by (unfold own_stderr; simpl; rewrite S3, Serr, Sout; done).
  assert (own_stdout p (w_session w4) ↔ own_stdout p (w_session w)) as Eout by (unfold own_stdout; simpl; rewrite S3, Sout; done).
  assert (own_stdin p (w_session w4) ↔ own_stdin p (w_session w)) as Ein by (unfold own_stdin; simpl; rewrite S3, Sin; done).
  assert (w_closed w4 = w_closed w) as C4 by (simpl; by rewrite C3).
  destruct (close_stderr_ok p w4) as (w5 & -> & (S5 & T5 & _ & I5 & L5) & C5); [by rewrite ?C4..|]. cbn [mbind outcome_bind].
  assert (p_stdout p ∉ w_closed w5 ∧ p_stdin p ∉ w_closed w5) as [Ho5 Hi5].
  { rewrite C5, C4. destruct (decide (own_stderr _ _)) as [(_ & _ & _ & _ & Hne & _)|]; [|clear - Hi Ho; set_solver].
    assert (p_stderr p ≠ p_stdout p) as Hne' by congruence. clear - Hi Ho Hie Hne'. set_solver. }
  destruct (close_stdout_ok p w5) as (w6 & -> & (S6 & T6 & _ & I6 & L6) & C6); [done..|]. cbn [mbind outcome_bind].
  assert (p_stdin p ∉ w_closed w6) as Hi6 by (rewrite C6; clear - Hi5 Hio; destruct (decide _); set_solver).
  assert (names (w_session w4) = pop_name (names (w_session w))) as N4 by (simpl; by rewrite S3, N2).
  destruct (close_stdin_ok (bool_decide (fileno (p_stdin p) ≠ fileno std_in) && may) p w6)
    as (w7 & -> & (S7 & T7 & _ & I7 & L7) & C7 & C7'); [done|done| |..].
  { rewrite S6, S5, N4. destruct Hn as [Hn1 Hn2]. unfold pop_name, names_ok, zlen in *. case_bool_decide; simpl; [lia|].
    rewrite length_insert. lia. }
  { intros [Hb _]%andb_true_iff. by apply bool_decide_eq_true in Hb. }
  cbn [mbind outcome_bind]. set (w8 := if dynamic_library p then _ else w7).
  assert (w_session w8 = w_session w4 ∧ w_table w8 = w_table w ∧ w_interp w8 = w_interp w3 ∧ w_closed w8 = w_closed w7 ∧ releases w8 = releases w3)
    as (S8 & T8 & I8 & C8 & L8).
  { assert (releases w8 = releases w7) as -> by (subst w8; destruct (dynamic_library p); same_releases).
    rewrite L7, L6, L5. subst w8. destruct (dynamic_library p); simpl; rewrite S7, S6, S5, T7, T6, T5, I7, I6, I5; simpl; by rewrite T3, T2. }
  destruct (release_thread_ok p thread b w8 k parent Ht) as (w9 & -> & I9 & C9 & T9 & P9 & N9 & R1 & R2 & R3 & L9);
    [by rewrite T8..|]. exists w9. rewrite C9, C8, N9, T9, T8, S8, N4, I9, I8. rewrite S5 in C6. rewrite S6, S5 in C7.
  assert (∀ x, x ∈ w_closed w6 ↔ x ∈ w_closed w ∨ (x = p_stderr p ∧ own_stderr p (w_session w)) ∨
    (x = p_stdout p ∧ own_stdout p (w_session w))) as Hc6.
  { intros x. rewrite C6, C5, C4. rewrite <- Eerr, <- Eout. clear.
    destruct (decide (own_stderr _ _)), (decide (own_stdout _ _)); set_solver. }
  assert (∀ x, x ∈ w_closed w7 ↔ x ∈ w_closed w6 ∨ (x = p_stdin p ∧ p_stdin p ∈ w_closed w7)) as Hc7.
  { intros x. clear - C7. destruct C7 as [-> | [-> _]]; set_solver. }
  assert (¬ (p_stderr p = p_stdout p ∧ own_stderr p (w_session w))) as Hx.
  { intros [E (_ & _ & _ & _ & Hne & _)]. by rewrite E in Hne. }
  split_and!; try done.
  - rewrite Hc7, Hc6. clear - Ho Hio Hx. naive_solver.
  - rewrite Hc7, Hc6. clear - He Hie Hx. naive_solver.
  - intros Hin. apply Ein. destruct C7 as [E|[_ Hown]]; [rewrite E in Hin; done|done].
  - intros x. rewrite Hc7, Hc6. clear. set_solver.
  - intros py Hpy. destruct (L3 py Hpy) as [-> Hrel]. rewrite L9, L8, Hrel, L2. split; [done|]. intros ->.
    rewrite C7' by apply andb_false_r. done.
Qed.

(** The handle nobody stored is read before anything else can go wrong. *)
Lemma cleanup_unset p thread w : names_ok (names (w_session w)) → interp_handle p = Unset →
  cleanup p thread w = Undef Uninitialised.
Proof.
  intros Hn Hh. unfold cleanup, cleanup_function. destruct (pager_exit_ok p w Hn) as (b & w1 & -> & _).
  cbn [mbind outcome_bind]. unfold release_interpreter. by rewrite Hh.
Qed.
End gives_back.

(** The parameters with the number of the process. *)
Definition with_pid (pid : Z) (p : functionParameters) : functionParameters :=
  Parameters (argv0 p) (p_stdin p) (p_stdout p) (p_stderr p) (isPipeIn p) (isPipeOut p) (isPipeErr p) (backgroundCommand p)
    (numInterpreter p) (interp_handle p) (storeRootThread p) (dynamic_library p) pid.

(** The thread of a command is found in the slot of its number. *)
Lemma find_stored t p thread : thread ∉ thread_ids t → (p < length (thread_ids t))%nat →
  list_find (λ x, x = thread) (<[p := thread]> (thread_ids t)) = Some (p, thread).
Proof.
  intros Hni Hp. apply list_find_Some. split; [by apply list_lookup_insert_eq|]. split; [done|].
  intros j y Hj Hlt. rewrite list_lookup_insert_ne in Hj by lia. intros ->.
  apply Hni. by eapply list_elem_of_lookup_2.
Qed.

Lemma wf_thread_id t p x : table_wf t → table_wf (set_thread_id t p x).
Proof. intros []. split; simpl; try done. by rewrite length_insert. Qed.

(** Announcing the thread of a forked process. *)
Lemma run_start_ok p thread s t ip closed : table_wf t → thread ≠ 0 → thread ≠ -1 → 0 ≤ p_pid p ≤ 127 →
  thread_ids t !! Z.to_nat (p_pid p) = Some (-1) →
  ∃ w, run_start p thread (World s t (p_pid p) ip closed []) = Ret w ∧
    w_table w = set_thread_id t (Z.to_nat (p_pid p)) thread ∧ w_closed w = closed ∧ w_interp w = ip ∧
    w_log w = [] ∧
    names (w_session w) = names s ∧ s_stdin (w_session w) = s_stdin s ∧ s_stdout (w_session w) = s_stdout s ∧
    s_stderr (w_session w) = s_stderr s.
Proof.
  intros Hw H0 H1 Hp Ht. unfold run_start, ios_storeThreadId. simpl.
  replace (slot (thread_ids t) (p_pid p)) with (Ret (-1)).
  2: { symmetry. rewrite <- (Z2Nat.id (p_pid p)) by lia. by apply slot_ok. }
  simpl. rewrite (bool_decide_eq_false_2 _ H0). simpl. eexists. split; [done|].
  destruct (storeRootThread p), (is_pager (argv0 p)); by split_and!.
Qed.

(** C17: the life of a command from the fork through the start of its thread to
    the end of [cleanup_function], for every content of the field [interp_handle],
    which the code stores for commands of Python only.  When the field was never
    stored the end of the command reads it and is undefined.  Otherwise nothing
    is undefined and the command gives back what it took: its process number is
    free and the slots are as before, the caller's number is current again, the
    session no longer names the thread as the first, last or main one, the slot
    of a stored handle is released once (where the memory happens to hold [NULL],
    the mark of the command is cleared), and its output and error streams are
    closed exactly when they are its own, its input only then, and never for
    Python. *)
Theorem command_life (fileno : stream → Z) (std_in std_out std_err : stream) (TeXcommands : list string)
    (joinMainThread stdin_is_file : bool) (chdir_nolock : string → string → string)
    (p : functionParameters) (thread : Z) (s : session) (t : process_table) (current_pid : Z) (vars : list string)
    (ip : interpreters) (closed : gset stream) :
  table_wf t → 0 ≤ current_pid ≤ 127 → visible_vars t (Z.to_nat current_pid) vars →
  (∃ q, 1 ≤ q ≤ 127 ∧ pid_free t q) → thread ≠ 0 → thread ≠ -1 → thread ∉ thread_ids t →
  is_sh p = false → marks_ok TeXcommands p ip → names_ok (names s) →
  p_stdin p ∉ closed → p_stdout p ∉ closed → p_stderr p ∉ closed →
  p_stdin p ≠ p_stdout p → p_stdin p ≠ p_stderr p →
  let cleanup := cleanup_function fileno std_in std_out std_err TeXcommands joinMainThread stdin_is_file chdir_nolock in
  ∃ t1 pid w1,
    ios_nextAvailablePid 127 t current_pid = Ret (t1, pid) ∧
    run_start (with_pid pid p) thread (World s t1 pid ip closed []) = Ret w1 ∧
    (interp_handle p = Unset → cleanup (with_pid pid p) thread w1 = Undef Uninitialised) ∧
    (interp_handle p ≠ Unset → ∃ w2, cleanup (with_pid pid p) thread w1 = Ret w2 ∧
      thread_ids (w_table w2) = thread_ids t ∧ w_pid w2 = current_pid ∧
      (p_stdout p ∈ w_closed w2 ↔ own_stdout fileno std_out p s) ∧
      (p_stderr p ∈ w_closed w2 ↔ own_stderr fileno std_err p s ∨ p_stderr p = p_stdout p ∧ own_stdout fileno std_out p s) ∧
      (p_stdin p ∈ w_closed w2 → own_stdin fileno std_in p s) ∧
      names (w_session w2) = pop_name (names s) ∧
      current_command_root_thread (w_session w2) ≠ thread ∧ lastThreadId (w_session w2) ≠ thread ∧
      mainThreadId (w_session w2) ≠ thread ∧
      (interp_handle p = NullHandle → ∀ l, marks_of TeXcommands p (w_interp w2) = Some l →
         l !! Z.to_nat (numInterpreter p) = Some false) ∧
      (∀ py, interp_handle p = SlotHandle py → releases w2 = 1%nat ∧ (py = true → p_stdin p ∉ w_closed w2))).
Proof.
  intros Hw Hc Hv Hex H0 H1 Hni Hsh Hm Hn Hi Ho He Hio Hie cleanup.
  destruct (fork_ok t current_pid vars Hw Hc Hv Hex)
    as (t1 & pid & k & E & Hr & Hfree & _ & _ & Hw1 & Ht & _ & Hpp & _).
  exists t1, pid. assert (Z.to_nat pid < length (thread_ids t))%nat as Hp by (rewrite (wf_threads _ Hw); lia).
  destruct (run_start_ok (with_pid pid p) thread s t1 ip closed Hw1 H0 H1)
    as (w1 & E1 & T1 & C1 & I1 & L1 & N1 & Sin & Sout & Serr);
    [simpl; lia|by rewrite Ht; apply list_lookup_insert_eq|]. simpl in E1, T1.
  exists w1. split; [done|]. split; [done|]. split; [intros Hh; apply cleanup_unset; [by rewrite N1|done]|]. intros Hh.
  destruct (cleanup_ok fileno std_in std_out std_err TeXcommands joinMainThread stdin_is_file chdir_nolock
    (with_pid pid p) thread w1 (Z.to_nat pid) current_pid)
    as (w2 & E2 & Q1 & Q2 & Q3 & _ & Q4 & Q5 & Q6 & Q7 & Q8 & Q9 & Q10 & Q11);
    try done; rewrite ?C1, ?I1, ?N1; try done.
  - rewrite T1. by apply wf_thread_id.
  - rewrite T1. unfold find_thread. simpl. rewrite Ht, list_insert_insert_eq. by rewrite find_stored.
  - rewrite T1. simpl. rewrite Hpp. apply list_lookup_insert_eq. rewrite (wf_prev _ Hw). lia.
  - exists w2. unfold own_stdout, own_stderr, own_stdin in *. rewrite Sin, Sout, Serr, N1 in *.
    unfold releases in Q11. rewrite L1 in Q11.
    split_and!; try done. rewrite Q4, T1. simpl. rewrite Ht, !list_insert_insert_eq. by apply list_insert_id.
Qed.

(** [python3 > out], run by thread 77 of a session with streams 1, 2 and 3 in the
    first slot of the pool. *)
Definition demo_parameters : functionParameters :=
  set_pipe_flags 1 2 3 (Parameters "python3" 1 9 3 false false false false 0 (SlotHandle true) true false 0).
Definition demo_session : session := Session (NameStack ("python3"%string :: replicate 9 EmptyString) 1) 0 0 0 false 0 1 2 3.
Definition demo_interpreters : interpreters :=
  Interpreters (replicate 6 false) (replicate 4 false) (replicate 2 false) (replicate 2 false) false.

Lemma command_life_witness :
  ∃ t1 pid w1 w2,
    ios_nextAvailablePid 127 (start_table [] "/") 0 = Ret (t1, pid) ∧
    run_start (with_pid pid demo_parameters) 77 (World demo_session t1 pid demo_interpreters ∅ []) = Ret w1 ∧
    cleanup_function Zpos 1 2 3 [] true true no_chdir (with_pid pid demo_parameters) 77 w1 = Ret w2 ∧
    thread_ids (w_table w2) = replicate 128 0 ∧ 9%positive ∈ w_closed w2 ∧ releases w2 = 1%nat.
Proof.
  destruct (command_life Zpos 1 2 3 [] true true no_chdir demo_parameters 77 demo_session (start_table [] "/") 0 []
    demo_interpreters ∅) as (t1 & pid & w1 & E1 & E2 & _ & H); try done; try (by apply not_elem_of_empty).
  - right. split; by vm_compute.
  - exists 1. split; [lia|by vm_compute].
  - apply (bool_decide_unpack _). by vm_compute.
  - intros l [= <-]. by vm_compute.
  - destruct H as (w2 & E3 & E4 & _ & E5 & _ & _ & _ & _ & _ & _ & _ & E6); [done|].
    exists t1, pid, w1, w2. split_and!; [exact E1|exact E2|exact E3|exact E4| |by apply (E6 true)]. apply E5. by vm_compute.
Defined.

(** ** What the code gets wrong *)

(** [ios_system] allocates the parameters with [malloc] and sets [interp_handle]
    only for the commands of Python: the end of any other command reads a
    pointer nobody stored. *)
Theorem cleanup_unset_handle fileno std_in std_out std_err TeXcommands join is_file chdir_nolock p thread w :
  interp_handle p = Unset → is_pager (argv0 p) = false →
  cleanup_function fileno std_in std_out std_err TeXcommands join is_file chdir_nolock p thread w = Undef Uninitialised.
Proof. intros Hh Hp. unfold cleanup_function, pager_exit, release_interpreter. by rewrite Hp, Hh. Qed.

(** A command that called [dup2(fileno(stderr), 1)] before it started another
    one gives it a second stream on the descriptor of the session's error
    stream.  The test before [fclose] is against the output of the session only,
    so the descriptor of the session's error stream is closed with the command. *)
Definition onto_stderr : functionParameters :=
  set_pipe_flags 4 5 6 (Parameters "sort" 4 9 6 false false false false 0 NullHandle false false 1).
Definition redirected_session : session := Session (NameStack ("sort"%string :: replicate 9 EmptyString) 1) 0 0 0 false 0 4 5 6.
Definition same_descriptor (s : stream) : Z := if bool_decide (s = 9%positive) then 6 else Zpos s.

Theorem session_stderr_closed :
  ∃ w, close_stdout same_descriptor 2 onto_stderr
         (World redirected_session (start_table [] "/") 1 demo_interpreters ∅ []) = Ret w ∧
    9%positive ∈ w_closed w ∧ same_descriptor 9 = same_descriptor (s_stderr (w_session w)).
Proof. eexists. split_and!; by vm_compute. Qed.
