(* ===== verification/Variables.v ===== *)
(** * Variables and home directories in words ([src/ios_system.m])

    Before a command runs, [parseArgument] expands the variables and the [~] of
    its arguments, and [ios_expandFilename] those of the files of redirections.
    - A word is the list of its characters, in UTF-8: the characters searched
      for are ASCII.  The methods of [NSString] the code calls are written out.
    - [getenv k name] is what [ios_getenv] answers to the [k]-th question:
      [RANDOM] differs from one to the next.
    - The loop over the variables searches the whole word again after each
      replacement.  It ends when no value contains a dollar
      ([expansion_terminates]), and then, if no name is the beginning of another,
      the word is the one with every variable replaced ([parseArgument_spec]).
    - Two variables that name each other are expanded for ever
      ([variables_cycle]), in the name of a file one that names itself
      ([filename_cycle]); a name that continues another is replaced in part
      ([longer_name]); a bookmark is replaced in the directories below it
      ([bookmark_everywhere]). *)

From Stdlib Require Import Ascii.
From stdpp Require Import pretty.
From S2P Require Import Prelude CString Quoting Substitution Arguments Paths.

(** ** Strings of Foundation *)

Definition TILDE : ascii := ascii_of_nat 126.

Definition begins (p s : text) : bool := bool_decide (take (length p) s = p).
Definition ends_with (p s : text) : bool := bool_decide (drop (length s - length p) s = p ∧ length p ≤ length s).
Definition contains (p s : text) : bool := bool_decide (is_Some (strstr s p)).

(** [stringByReplacingOccurrencesOfString:withString:]; [skip] characters of an
    occurrence are still to be passed over. *)
Fixpoint replace_from (p r : text) (skip : nat) (s : text) : text :=
  match s with
  | [] => []
  | c :: rest =>
      match skip with
      | S skip => replace_from p r skip rest
      | 0 => if begins p s then r ++ replace_from p r (length p - 1) rest else c :: replace_from p r 0 rest
      end
  end.
Definition replace_all (p r s : text) : text := if bool_decide (p = []) then s else replace_from p r 0 s.

(** [componentsSeparatedByString:]. *)
Fixpoint components_from (p : text) (skip : nat) (s current : text) : list text :=
  match s with
  | [] => [current]
  | c :: rest =>
      match skip with
      | S skip => components_from p skip rest current
      | 0 => if begins p s then current :: components_from p (length p - 1) rest []
             else components_from p 0 rest (current ++ [c])
      end
  end.
Definition components (p s : text) : list text := components_from p 0 s [].

(** ** The variables of a session *)

Record variables := Variables {
  columns : text;
  lines : text;
  directory : text;                       (* [currentDir] *)
  random_number : nat → Z;                (* the answers of [random] *)
  libc_getenv : text → option text }.

Definition ios_getenv (v : variables) (k : nat) (name : text) : option text :=
  if bool_decide (name = chars "COLUMNS") then Some (columns v)
  else if bool_decide (name = chars "LINES") then Some (lines v)
  else if bool_decide (name = chars "ROWS") then Some (lines v)
  else if bool_decide (name = chars "PWD") then Some (directory v)
  else if bool_decide (name = chars "RANDOM") then Some (chars (pretty (Z.land (random_number v k) 32767)))
  else libc_getenv v name.

(** [environmentAsArray]; [env_pid] are the variables of the process. *)
Definition environmentAsArray (v : variables) (env_pid : list text) : list text :=
  env_pid ++ [chars "ROWS=" ++ columns v; chars "PWD=" ++ directory v].

(** ** Expansion *)

Section expansion.
Context (getenv : nat → text → option text) (home : text) (bookmarks : option (text → option text)).

(** The length of a name: to the next slash, or colon if [colon] is set. *)
Definition name_length (colon : bool) (rest : text) : nat :=
  match strchr rest SLASH, (if colon then strchr rest COLON else None) with
  | None, None => length rest
  | None, Some r3 => r3
  | Some r2, None => r2
  | Some r2, Some r3 => if bool_decide (r3 < r2) then r3 else r2
  end.

(** The loop over the variables; [guard] is the test for a value that contains
    its own variable. *)
Fixpoint expand_loop (colon guard : bool) (fuel k : nat) (s : text) : outcome text :=
  match strchr s DOLLAR with
  | None => Ret s
  | Some r1 =>
      match fuel with
      | 0 => Undef OutOfFuel
      | S fuel =>
          let rest := drop (S r1) s in
          let name := take (name_length colon rest) rest in
          match getenv k name with
          | None => Ret s
          | Some variable =>
              let s' := replace_all (DOLLAR :: name) variable s in
              if guard && contains (DOLLAR :: name) variable then Ret s'
              else expand_loop colon guard fuel (S k) s'
          end
      end
  end.

(** [~], [~/...] and [~bookmark/...]. *)
Definition expand_tilde (colon : bool) (s : text) : text :=
  if begins [TILDE] s then
    if begins [TILDE; SLASH] s || (colon && begins [TILDE; COLON] s) || bool_decide (length s = 1) then home ++ drop 1 s
    else
      match bookmarks with
      | None => s
      | Some dictionary =>
          let component := take (name_length true s) s in
          match dictionary (drop 1 component) with
          | Some path => path ++ drop (length component) s
          | None => s
          end
      end
  else s.

Definition COLON_TILDE : text := [COLON; TILDE].

(** [:~] in the value of a variable. *)
Definition expand_home_path (s : text) : text :=
  if bool_decide (home = []) then s
  else if contains [COLON; TILDE; SLASH] s then replace_all [COLON; TILDE; SLASH] (COLON :: home ++ [SLASH]) s
  else if ends_with COLON_TILDE s then take (length s - 2) s ++ COLON :: home
  else if ends_with [COLON] s then take (length s - 2) s ++ replace_all [COLON] (COLON :: home) (drop (length s - 2) s)
  else s.

Definition expand_bookmark (dictionary : text → option text) (result component : text) : text :=
  let name := default [] (head (components [SLASH] component)) in
  match dictionary name with
  | Some path => result ++ COLON :: replace_all name path component
  | None => result ++ COLON_TILDE ++ component
  end.

Definition expand_path_list (s : text) : text :=
  if contains COLON_TILDE s then
    let s := expand_home_path s in
    match bookmarks with
    | None => s
    | Some dictionary =>
        match components COLON_TILDE s with
        | [] => s
        | first :: others => foldl (expand_bookmark dictionary) first others
        end
    end
  else s.

(** A path that starts above the directory is made absolute. *)
Definition leave_directory (currentDir s : text) : text :=
  if begins (chars "../") s || begins (chars "./..") s || bool_decide (s = DOTDOT)
  then pathJoin (Some currentDir) (Some s) else s.

Definition expand_argument (fuel : nat) (currentDir command s : text) : outcome text :=
  s ← expand_loop true true fuel 0 s;
  let s := expand_tilde true s in
  let s := if bool_decide (command = chars "setenv") || bool_decide (command = chars "export")
           then expand_path_list s else s in
  Ret (leave_directory currentDir s).

Definition parseArgument (fuel : nat) (currentDir argument command : text) : outcome text :=
  if bool_decide (command = chars "export") then
    match strchr argument EQUALS with
    | None => Ret argument
    | Some equalSign =>
        s ← expand_argument fuel currentDir command (unquoteArgument (drop (S equalSign) argument));
        Ret (take equalSign argument ++ EQUALS :: s)
    end
  else expand_argument fuel currentDir command argument.

Definition ios_expandFilename (fuel : nat) (filename : text) : outcome text :=
  if bool_decide (filename = []) then Ret filename
  else expand_loop false false fuel 0 (expand_tilde false filename).
End expansion.

(** ** The loop ends *)

Definition dollars (s : text) : nat := length (filter (λ c, c = DOLLAR) s).

Lemma dollars_app s t : dollars (s ++ t) = dollars s + dollars t.
Proof. unfold dollars. by rewrite list.filter_app, length_app. Qed.

Lemma dollars_cons c s : dollars (c :: s) = (if decide (c = DOLLAR) then 1 else 0) + dollars s.
Proof. unfold dollars. rewrite filter_cons. by case_decide. Qed.

Lemma dollars_none s : DOLLAR ∉ s → dollars s = 0.
Proof.
  induction s as [|c s IH]; [done|]. intros [Hc Hs]%not_elem_of_cons. rewrite dollars_cons, decide_False by done. by apply IH.
Qed.

Lemma dollars_drop k s : dollars (drop k s) ≤ dollars s.
Proof. rewrite <- (take_drop k s) at 2. rewrite dollars_app. lia. Qed.

Lemma strchr_split s c i : strchr s c = Some i → s = take i s ++ c :: drop (S i) s ∧ c ∉ take i s.
Proof.
  revert i. induction s as [|x s IH]; intros i; simpl; [done|]. case_bool_decide as Hx.
  - intros [= <-]. subst. simpl. split; [by rewrite drop_0|set_solver].
  - destruct (strchr s c) as [j|]; simpl; [|done]. intros [= <-]. destruct (IH j eq_refl) as [E Hn].
    simpl. split; [by f_equal|]. apply not_elem_of_cons. split; [congruence|done].
Qed.

Lemma strchr_None_elem s c : strchr s c = None ↔ c ∉ s.
Proof.
  induction s as [|x s IH]; simpl; [set_solver|]. rewrite not_elem_of_cons. case_bool_decide as Hx.
  - split; [done|]. intros [? _]. congruence.
  - rewrite fmap_None, IH. naive_solver.
Qed.

Lemma begins_app p s : begins p (p ++ s) = true.
Proof. apply bool_decide_eq_true. by rewrite take_app_length. Qed.

Lemma begins_split p s : begins p s = true → s = p ++ drop (length p) s.
Proof. intros H%bool_decide_eq_true. rewrite <- H at 1. by rewrite take_drop. Qed.

(** Replacing puts no dollar in, and takes one away at an occurrence. *)
Lemma replace_dollars p r k s : DOLLAR ∉ r → dollars (replace_from (DOLLAR :: p) r k s) ≤ dollars (drop k s).
Proof.
  intros Hr. revert k. induction s as [|c s IH]; intros k; [by destruct k|]. destruct k as [|k]; simpl; [|apply IH].
  destruct (begins _ _) eqn:Hb.
  - rewrite dollars_app, (dollars_none r Hr). specialize (IH (length p - 0)).
    pose proof (dollars_drop (length p - 0) s). rewrite dollars_cons. lia.
  - rewrite !dollars_cons. specialize (IH 0). rewrite drop_0 in IH. lia.
Qed.

Lemma replace_from_pass p r a s : DOLLAR ∉ a → replace_from (DOLLAR :: p) r 0 (a ++ s) = a ++ replace_from (DOLLAR :: p) r 0 s.
Proof.
  induction a as [|c a IH]; simpl; [done|]. intros [Hc Ha]%not_elem_of_cons.
  replace (begins (DOLLAR :: p) (c :: a ++ s)) with false; [by rewrite IH|].
  symmetry. apply bool_decide_eq_false. simpl. congruence.
Qed.

Lemma replace_from_skip p r a s : replace_from p r (length a) (a ++ s) = replace_from p r 0 s.
Proof. by induction a. Qed.

Lemma replace_from_hit p r s : replace_from (DOLLAR :: p) r 0 ((DOLLAR :: p) ++ s) = r ++ replace_from (DOLLAR :: p) r 0 s.
Proof.
  cbn [app replace_from]. pose proof (begins_app (DOLLAR :: p) s) as H. cbn [app] in H. rewrite H. f_equal.
  cbn [length]. replace (S (length p) - 1) with (length p) by lia. apply replace_from_skip.
Qed.

Lemma replace_all_first p r pre s : DOLLAR ∉ pre →
  replace_all (DOLLAR :: p) r (pre ++ (DOLLAR :: p) ++ s) = pre ++ r ++ replace_from (DOLLAR :: p) r 0 s.
Proof.
  intros Hp. unfold replace_all. rewrite bool_decide_eq_false_2 by done. by rewrite replace_from_pass, replace_from_hit.
Qed.

Lemma replace_progress p r pre s : DOLLAR ∉ pre → DOLLAR ∉ r →
  dollars (replace_all (DOLLAR :: p) r (pre ++ (DOLLAR :: p) ++ s)) < dollars (pre ++ (DOLLAR :: p) ++ s).
Proof.
  intros Hp Hr. rewrite replace_all_first by done. rewrite !dollars_app, (dollars_none r Hr), dollars_cons, decide_True by done.
  pose proof (replace_dollars p r 0 s Hr) as H. rewrite drop_0 in H. lia.
Qed.

(** What the loop does with the first variable. *)
Lemma expand_loop_first getenv colon guard fuel k s r1 : strchr s DOLLAR = Some r1 →
  let rest := drop (S r1) s in let name := take (name_length colon rest) rest in
  s = take r1 s ++ (DOLLAR :: name) ++ drop (name_length colon rest) rest ∧ DOLLAR ∉ take r1 s ∧
  expand_loop getenv colon guard (S fuel) k s =
    match getenv k name with
    | None => Ret s
    | Some variable =>
        let s' := replace_all (DOLLAR :: name) variable s in
        if guard && contains (DOLLAR :: name) variable then Ret s' else expand_loop getenv colon guard fuel (S k) s'
    end.
Proof.
  intros H rest name. destruct (strchr_split _ _ _ H) as [E Hn]. split_and!; [|done|simpl; by rewrite H].
  unfold name. cbn [app]. by rewrite take_drop.
Qed.

(** when no value contains a dollar the loops of parseArgument and of
    ios_expandFilename end, after at most as many rounds as the word has
    dollars. *)
Theorem expansion_terminates getenv colon guard : (∀ k n v, getenv k n = Some v → DOLLAR ∉ v) →
  ∀ s k fuel, dollars s ≤ fuel → ∃ s', expand_loop getenv colon guard fuel k s = Ret s'.
Proof.
  intros Hv s k fuel. revert s k. induction fuel as [|fuel IH]; intros s k Hs.
  - simpl. destruct (strchr s DOLLAR) as [r1|] eqn:H; [|by eexists].
    destruct (strchr_split _ _ _ H) as [E _]. rewrite E, dollars_app, dollars_cons, decide_True in Hs by done. lia.
  - destruct (strchr s DOLLAR) as [r1|] eqn:H; [|simpl; rewrite H; by eexists].
    destruct (expand_loop_first getenv colon guard fuel k s r1 H) as (E & Hn & ->).
    destruct (getenv k _) as [v|] eqn:Hg; [|by eexists]. cbn zeta. destruct (guard && _); [by eexists|].
    apply IH. pose proof (replace_progress (take (name_length colon (drop (S r1) s)) (drop (S r1) s)) v
      (take r1 s) (drop (name_length colon (drop (S r1) s)) (drop (S r1) s)) Hn (Hv _ _ _ Hg)) as Hp.
    rewrite <- E in Hp. lia.
Qed.

(** ** The result *)

(** A word as text and variables. *)
Inductive segment : Type :=
  | Lit (t : text)
  | Ref (n : text).

Definition render1 (x : segment) : text := match x with Lit t => t | Ref n => DOLLAR :: n end.
Definition render (ss : list segment) : text := concat (render1 <$> ss).

Definition delimiter (colon : bool) (c : ascii) : Prop := c = SLASH ∨ colon = true ∧ c = COLON.
Definition variable_name (colon : bool) (n : text) : Prop := DOLLAR ∉ n ∧ ∀ c, delimiter colon c → c ∉ n.

(** The end of a name is the end of the word or a delimiter. *)
Definition name_ends (colon : bool) (ss : list segment) : Prop :=
  match ss with
  | [] => True
  | Lit (c :: _) :: _ => delimiter colon c
  | _ => False
  end.

Fixpoint well_written (colon : bool) (ss : list segment) : Prop :=
  match ss with
  | [] => True
  | Lit t :: ss => DOLLAR ∉ t ∧ well_written colon ss
  | Ref n :: ss => variable_name colon n ∧ name_ends colon ss ∧ well_written colon ss
  end.

(** No variable's name continues another's. *)
Definition no_longer_name (ss : list segment) : Prop := ∀ n m, Ref n ∈ ss → Ref m ∈ ss → n `prefix_of` m → m = n.

(** The meaning of a word, and of one variable in it. *)
Definition meaning (f : text → text) (x : segment) : segment := match x with Lit t => Lit t | Ref n => Lit (f n) end.
Definition set_variable (n v : text) (x : segment) : segment :=
  match x with Lit t => Lit t | Ref m => if bool_decide (m = n) then Lit v else Ref m end.

Fixpoint references (ss : list segment) : nat :=
  match ss with
  | [] => 0
  | Lit _ :: ss => references ss
  | Ref _ :: ss => S (references ss)
  end.

Lemma render_cons x ss : render (x :: ss) = render1 x ++ render ss.
Proof. done. Qed.

Lemma render_app ss ss' : render (ss ++ ss') = render ss ++ render ss'.
Proof. unfold render. by rewrite fmap_app, concat_app. Qed.

Lemma name_ends_render colon ss : name_ends colon ss → render ss = [] ∨ ∃ c rest, render ss = c :: rest ∧ delimiter colon c.
Proof. destruct ss as [|[[|c t]|n] ss]; simpl; try done; [by left|]. intros H. right. by exists c, (t ++ render ss). Qed.

Lemma not_begins colon n m rest : variable_name colon n → m ≠ n → ¬ (n `prefix_of` m) →
  rest = [] ∨ (∃ c r, rest = c :: r ∧ delimiter colon c) → begins (DOLLAR :: n) (DOLLAR :: m ++ rest) = false.
Proof.
  intros [_ Hd] Hne Hp Hr. apply bool_decide_eq_false. simpl. intros [= H].
  assert (n `prefix_of` m ++ rest) as [x Hx] by (rewrite <- H; apply prefix_take).
  destruct (decide (length n ≤ length m)) as [Hle|Hle].
  { apply Hp. rewrite <- H. rewrite take_app_le by lia. apply prefix_take. }
  destruct Hr as [-> |(c & r & -> & Hc)].
  { rewrite app_nil_r in Hx. apply (f_equal length) in Hx. rewrite length_app in Hx. lia. }
  apply (Hd c Hc). rewrite <- H. apply list_elem_of_lookup. exists (length m).
  rewrite lookup_take_lt by lia. by rewrite lookup_app_r, Nat.sub_diag by lia.
Qed.

Lemma replace_render colon n v ss : well_written colon ss → variable_name colon n →
  (∀ m, Ref m ∈ ss → n `prefix_of` m → m = n) →
  replace_from (DOLLAR :: n) v 0 (render ss) = render (set_variable n v <$> ss).
Proof.
  intros Hw Hn. revert Hw. induction ss as [|[t|m] ss IH]; intros Hw Hp; [done|..].
  - destruct Hw as [Ht Hw]. rewrite fmap_cons, !render_cons. cbn [render1 set_variable].
    rewrite replace_from_pass by done. rewrite IH; [done|done|]. intros x Hx. apply Hp. by apply list_elem_of_further.
  - destruct Hw as (Hm & He & Hw). rewrite fmap_cons, !render_cons. cbn [render1 set_variable].
    case_bool_decide as Hmn.
    + subst. rewrite replace_from_hit. rewrite IH; [done|done|]. intros x Hx. apply Hp. by apply list_elem_of_further.
    + cbn [app replace_from]. rewrite (not_begins colon); [|done|done| |by apply name_ends_render].
      2: { intros Hpre. apply Hmn, Hp; [set_solver|done]. }
      rewrite replace_from_pass by (destruct Hm; done). rewrite IH; [done|done|]. intros x Hx. apply Hp. by apply list_elem_of_further.
Qed.

Lemma well_written_set colon n v ss : DOLLAR ∉ v → well_written colon ss → well_written colon (set_variable n v <$> ss).
Proof.
  intros Hv. induction ss as [|[t|m] ss IH]; simpl; [done|naive_solver|]. intros (Hm & He & Hw).
  case_bool_decide; simpl; [by split; [|apply IH]|]. split_and!; [done| |by apply IH].
  by destruct ss as [|[[|c t]|x] ss].
Qed.

Lemma references_set n v ss : references (set_variable n v <$> ss) ≤ references ss.
Proof.
  induction ss as [|[t|m] ss IH]; rewrite ?fmap_cons; cbn [references set_variable]; [done|done|].
  case_bool_decide; cbn [references]; lia.
Qed.

Lemma references_set_in n v ss : Ref n ∈ ss → references (set_variable n v <$> ss) < references ss.
Proof.
  induction ss as [|[t|m] ss IH]; rewrite ?fmap_cons; cbn [references set_variable]; [set_solver|..].
  - intros [?|?]%elem_of_cons; [done|by apply IH].
  - pose proof (references_set n v ss). case_bool_decide as Hm; cbn [references]; [lia|].
    intros [?|?]%elem_of_cons; [congruence|]. specialize (IH ltac:(done)). lia.
Qed.

(** The first variable of a word. *)
Lemma first_reference ss : references ss = 0 ∧ (∀ x, x ∈ ss → ∃ t, x = Lit t) ∨
  ∃ ts n rest, ss = (Lit <$> ts) ++ Ref n :: rest.
Proof.
  induction ss as [|[t|n] ss IH]; simpl; [left; split; [done|set_solver]|..].
  - destruct IH as [[Hr Hl]|(ts & n & rest & ->)].
    + left. split; [done|]. intros x [-> |Hx]%elem_of_cons; [by eexists|by apply Hl].
    + right. by exists (t :: ts), n, rest.
  - right. by exists [], n, ss.
Qed.

Lemma no_reference f ss : references ss = 0 → meaning f <$> ss = ss.
Proof. induction ss as [|[t|n] ss IH]; intros H; rewrite ?fmap_cons; cbn in *; [done| |done]. by rewrite IH. Qed.

Lemma literal_dollar colon ss : references ss = 0 → well_written colon ss → DOLLAR ∉ render ss.
Proof.
  induction ss as [|[t|n] ss IH]; cbn [references]; [set_solver| |done]. intros Hr [Ht Hw].
  rewrite render_cons. cbn [render1]. specialize (IH Hr Hw). set_solver.
Qed.

Lemma well_written_app colon ts ss : well_written colon ((Lit <$> ts) ++ ss) ↔ DOLLAR ∉ render (Lit <$> ts) ∧ well_written colon ss.
Proof.
  induction ts as [|t ts IH]; [split; [split; [set_solver|done]|naive_solver]|].
  rewrite fmap_cons, <- app_comm_cons, render_cons. cbn [well_written render1]. rewrite IH, elem_of_app. naive_solver.
Qed.

Lemma strchr_name n c rest : c ∉ n → strchr (n ++ rest) c = (λ i, length n + i) <$> strchr rest c.
Proof.
  induction n as [|x n IH]; simpl; [by rewrite option_fmap_id|]. intros [Hx Hn]%not_elem_of_cons.
  rewrite bool_decide_eq_false_2, IH by done. by destruct (strchr rest c).
Qed.

Lemma name_length_name colon n ss : variable_name colon n → name_ends colon ss →
  name_length colon (n ++ render ss) = length n.
Proof.
  intros [_ Hd] He. unfold name_length. rewrite strchr_name by (apply Hd; by left).
  assert ((if colon then strchr (n ++ render ss) COLON else None) = (λ i, length n + i) <$> (if colon then strchr (render ss) COLON else None)) as ->.
  { destruct colon; [|done]. apply strchr_name, Hd. by right. }
  destruct (name_ends_render _ _ He) as [-> |(c & rest & -> & [-> |[-> ->]])]; simpl.
  - rewrite app_nil_r. by destruct colon.
  - destruct (if colon then _ else None); simpl; [case_bool_decide|]; lia.
  - destruct (strchr rest SLASH); simpl; [case_bool_decide|]; lia.
Qed.

Lemma contains_plain n v : DOLLAR ∉ v → contains (DOLLAR :: n) v = false.
Proof.
  intros Hv. apply bool_decide_eq_false. rewrite <- eq_None_not_Some. induction v as [|c v IH]; simpl; [done|].
  apply not_elem_of_cons in Hv as [Hc Hv]. rewrite bool_decide_eq_false_2 by congruence. by rewrite IH.
Qed.

Lemma drop_behind {A} (a : list A) x b : drop (S (length a)) (a ++ x :: b) = b.
Proof. induction a; simpl; [by rewrite drop_0|done]. Qed.

Lemma meaning_set n f x : meaning f (set_variable n (f n) x) = meaning f x.
Proof. destruct x as [t|m]; simpl; [done|]. by case_bool_decide; subst. Qed.

Lemma reference_of_set n v m (ss : list segment) : Ref m ∈ set_variable n v <$> ss → Ref m ∈ ss.
Proof.
  intros (x & E & Hx)%list_elem_of_fmap. destruct x as [t|m']; simpl in E; [done|]. case_bool_decide; congruence.
Qed.

(** The loop replaces every variable by its value. *)
Lemma expand_segments getenv colon guard f : ∀ fuel k ss,
  references ss ≤ fuel → well_written colon ss → no_longer_name ss →
  (∀ n j, Ref n ∈ ss → getenv j n = Some (f n) ∧ DOLLAR ∉ f n) →
  expand_loop getenv colon guard fuel k (render ss) = Ret (render (meaning f <$> ss)).
Proof.
  induction fuel as [|fuel IH]; intros k ss Hr Hw Hn Hf.
  { rewrite no_reference by lia. simpl. rewrite (proj2 (strchr_None_elem _ _)); [done|]. by apply (literal_dollar colon); [lia|]. }
  destruct (first_reference ss) as [[H0 _]|(ts & n & rest & ->)].
  { rewrite no_reference by done. simpl. rewrite (proj2 (strchr_None_elem _ _)); [done|]. by apply (literal_dollar colon). }
  destruct (proj1 (well_written_app _ _ _) Hw) as (Ht & Hname & He & Hrest).
  assert (Ref n ∈ (Lit <$> ts) ++ Ref n :: rest) as Hin by (apply elem_of_app; right; by left).
  destruct (Hf n k Hin) as [Hg Hv].
  assert (strchr (render ((Lit <$> ts) ++ Ref n :: rest)) DOLLAR = Some (length (render (Lit <$> ts)))) as Hs.
  { rewrite render_app, render_cons. cbn [render1 app]. by apply strchr_first. }
  destruct (expand_loop_first getenv colon guard fuel k _ _ Hs) as (_ & _ & ->).
  assert (drop (S (length (render (Lit <$> ts)))) (render ((Lit <$> ts) ++ Ref n :: rest)) = n ++ render rest) as ->.
  { rewrite render_app, render_cons. apply drop_behind. }
  rewrite (name_length_name colon), take_app_length, Hg, contains_plain, andb_false_r by done. cbn zeta.
  unfold replace_all. rewrite bool_decide_eq_false_2 by done.
  rewrite (replace_render colon) by (try done; intros m Hm; by apply Hn). rewrite IH.
  - do 2 f_equal. rewrite <- list_fmap_compose. apply list_fmap_ext. intros _ x _. apply meaning_set.
  - pose proof (references_set_in n (f n) _ Hin). lia.
  - by apply well_written_set.
  - intros m m' ?%reference_of_set ?%reference_of_set. by apply Hn.
  - intros m j ?%reference_of_set. by apply Hf.
Qed.


(** [cat $DIR/notes:$USER], with two variables. *)
Definition demo_value (n : text) : option text :=
  if bool_decide (n = chars "DIR") then Some (chars "~/docs") else if bool_decide (n = chars "USER") then Some (chars "me") else None.
Definition demo_word : list segment := [Ref (chars "DIR"); Lit (chars "/notes:"); Ref (chars "USER")].


(** ** What goes wrong *)

(** Two variables that name each other: the guard looks for the variable in its
    own value only, and the loop never ends. *)
Definition cycle (k : nat) (n : text) : option text :=
  if bool_decide (n = chars "A") then Some (chars "$B") else if bool_decide (n = chars "B") then Some (chars "$A") else None.

Theorem variables_cycle fuel k :
  expand_loop cycle true true fuel k (chars "$A") = Undef OutOfFuel ∧
  expand_loop cycle true true fuel k (chars "$B") = Undef OutOfFuel.
Proof. revert k. induction fuel as [|fuel IH]; intros k; [done|]. split; apply IH. Qed.

(** In the name of a file there is no guard at all. *)
Theorem filename_cycle fuel :
  ios_expandFilename (λ _ n, if bool_decide (n = chars "A") then Some (chars "$A") else None) [] None fuel (chars "$A") =
  Undef OutOfFuel.
Proof.
  unfold ios_expandFilename. simpl. generalize 0. induction fuel as [|fuel IH]; intros k; [done|]. apply IH.
Qed.

(** [echo $A:$AB] with [A=x] and [AB=y] prints [x:xB]. *)
Theorem longer_name :
  parseArgument (λ _ n, if bool_decide (n = chars "A") then Some (chars "x")
                        else if bool_decide (n = chars "AB") then Some (chars "y") else None)
    [] None 2 [] (chars "$A:$AB") (chars "echo") = Ret (chars "x:xB").
Proof. by vm_compute. Qed.

(** [export P=/bin:~src/main/src] with the bookmark [src]: the second [src] is
    replaced as well; and a bookmark is recognised only up to a slash. *)
Definition bookmark (n : text) : option text := if bool_decide (n = chars "src") then Some (chars "/code") else None.

Theorem bookmark_everywhere :
  parseArgument (λ _ _, None) (chars "/home") (Some bookmark) 1 [] (chars "P=/bin:~src/main/src") (chars "export") =
    Ret (chars "P=/bin:/code/main//code") ∧
  parseArgument (λ _ _, None) (chars "/home") (Some bookmark) 1 [] (chars "P=/bin:~src:/usr") (chars "export") =
    Ret (chars "P=/bin:~src:/usr").
Proof. split; by vm_compute. Qed.

(** Of two [:~] only those before a slash become the home directory. *)
Theorem home_once :
  parseArgument (λ _ _, None) (chars "/home") None 1 [] (chars "P=a:~/b:~") (chars "export") = Ret (chars "P=a:/home/b:~").
Proof. by vm_compute. Qed.

(** A process sees the number of columns in [ROWS]. *)
Theorem rows_are_columns v : ∃ env, environmentAsArray v env = [chars "ROWS=" ++ columns v; chars "PWD=" ++ directory v] ∧
  ios_getenv v 0 (chars "ROWS") = Some (lines v).
Proof. by exists []. Qed.
