(* ===== verification/Aliases.v ===== *)
(** * Aliases ([src/ios_system.m])

    [alias] and [unalias] keep a dictionary, from which [ios_system] replaces the
    first word of a line: by a text, or by texts before and behind the first
    ([!^]) or all ([!*]) arguments.
    - Texts are the bytes of UTF-8.  [utf16_length] is what [length] of an
      [NSString] counts; the buffers for the new line are sized with it and
      written in bytes, so writing behind them is a result.
    - [alias_main] gives the value it returns, what it prints and the new
      dictionary; an exception of Foundation is a result too.
    - A line whose first word was made an alias becomes the line that was asked
      for, when the alias is ASCII ([alias_spec]).  With other characters the
      buffer is too short ([alias_buffer_short]); a lone quote behind the equal
      sign raises an exception ([alias_lone_quote]). *)

From Stdlib Require Import Ascii.
From stdpp Require Import gmap.
From S2P Require Import Prelude Quoting Arguments Variables Redirections.

Inductive position : Set := NoPosition | AfterFirst | AfterLast.
Global Instance position_eq_dec : EqDecision position.
Proof. solve_decision. Defined.

Record alias := Alias {
  before : text;
  after : text;
  place : position }.

Abbreviation dictionary := (gmap (list ascii) alias) (only parsing).

(** Code units of UTF-16: none for a continuation byte, two for the first of
    four bytes. *)
Definition code_units (c : ascii) : nat :=
  let n := nat_of_ascii c in
  if bool_decide (128 ≤ n < 192) then 0 else if bool_decide (240 ≤ n) then 2 else 1.
Definition utf16_length (s : text) : nat := sum_list_with code_units s.

Definition MARK_FIRST : text := chars "!^".
Definition MARK_ALL : text := chars "!*".
Definition DASH : ascii := ascii_of_nat 45.

(** ** The command [alias] *)

(** An alias as it is printed; [tail] is put behind the texts of [!*]. *)
Definition show_alias (tail : text) (a : alias) : text :=
  before a ++
  match place a with
  | NoPosition => []
  | AfterFirst => chars " !^ " ++ after a
  | AfterLast => chars " !* " ++ after a ++ tail
  end.

(** The quotes around the whole of a command; [substringToIndex:] of an empty
    string raises an exception. *)
Definition strip_quotes (commandArray : list text) : outcome (list text) :=
  let commandArray := match commandArray with [] => [] | first :: others => drop 1 first :: others end in
  match list.last commandArray with
  | None => Ret []
  | Some l => if bool_decide (l = []) then Undef OutOfBounds
              else Ret (take (length commandArray - 1) commandArray ++ [take (length l - 1) l])
  end.

Definition enclosed (q : ascii) (commandArray : list text) : bool :=
  begins [q] (default [] (head commandArray)) && ends_with [q] (default [] (list.last commandArray)).

(** [commandArray[i] = component]: the component is added when [i] is the number
    of components. *)
Definition set_component (commandArray : list text) (i : nat) (component : text) : list text :=
  if bool_decide (i = length commandArray) then commandArray ++ [component] else <[i := component]> commandArray.

(** A single text is taken apart at its spaces. *)
Fixpoint split_command (fuel : nat) (aliasCommand : text) (i : nat) (commandArray : list text) : list text :=
  match fuel with
  | 0 => commandArray
  | S fuel =>
      match strstrquoted aliasCommand [SPACE] with
      | Some nextSpace =>
          let commandArray := set_component commandArray i (take nextSpace aliasCommand) in
          let rest := drop (S nextSpace) aliasCommand in
          if bool_decide (rest = []) then commandArray else split_command fuel rest (S i) commandArray
      | None => if bool_decide (aliasCommand = []) then commandArray else set_component commandArray i aliasCommand
      end
  end.

(** The components before and after the first marker, each followed by a space. *)
Definition add_component (marker : text) (st : bool * text * text) (component : text) : bool * text * text :=
  let '(foundMarker, before, after) := st in
  if bool_decide (component = marker) then (true, before, after)
  else if foundMarker : bool then (foundMarker, before, after ++ component ++ [SPACE])
  else (foundMarker, before ++ component ++ [SPACE], after).

Definition around (marker : text) (commandArray : list text) : text * text :=
  let '(_, before, after) := foldl (add_component marker) (false, [], []) commandArray in
  (trim_whitespace before, trim_whitespace after).

Definition make_alias (commandArray : list text) : option alias :=
  if bool_decide (MARK_FIRST ∈ commandArray) && bool_decide (MARK_ALL ∈ commandArray) then None
  else if bool_decide (MARK_FIRST ∈ commandArray) then
    let '(b, a) := around MARK_FIRST commandArray in Some (Alias b a AfterFirst)
  else if bool_decide (MARK_ALL ∈ commandArray) then
    let '(b, a) := around MARK_ALL commandArray in Some (Alias b a AfterLast)
  else Some (Alias (trim_whitespace (concat ((λ c, c ++ [SPACE]) <$> commandArray))) [] NoPosition).

Definition usage : text := chars "usage: alias command new command".
Definition both_markers : text := chars "alias: can't pecify both !^ and !*, sorry.".

(** The value, the lines on the output and on the error output (of the usage the
    first only), and the dictionary. *)
Definition alias_main (argv : list text) (aliases : dictionary) : outcome (Z * list text * list text * dictionary) :=
  match drop 1 argv with
  | [] => Ret (0%Z, (λ '(command, a), command ++ TAB :: show_alias [] a) <$> map_to_list aliases, [], aliases)
  | arg :: others =>
      if bool_decide (head arg = Some DASH) then
        Ret (0%Z, [], (if begins (chars "-h") arg || begins (chars "--help") arg then []
                       else [chars "alias: unrecognized option " ++ arg]) ++ [usage], aliases)
      else
        match strchr arg EQUALS, others with
        | None, [] => Ret (0%Z, option_list (show_alias (chars "  ") <$> (aliases !! arg)), [], aliases)
        | equalSign, _ =>
            let command := match equalSign with Some n => take n arg | None => arg end in
            let commandArray := match equalSign with Some n => drop (S n) arg :: others | None => others end in
            commandArray ← (if bool_decide (is_Some equalSign) || bool_decide (length commandArray = 1) then
                              if enclosed DQUOTE commandArray then strip_quotes commandArray
                              else if enclosed SQUOTE commandArray then strip_quotes commandArray
                              else Ret commandArray
                            else Ret commandArray);
            let commandArray := match commandArray with
                                | [single] => split_command (S (length single)) single 0 commandArray
                                | _ => commandArray
                                end in
            match make_alias commandArray with
            | None => Ret (1%Z, [], [both_markers], aliases)
            | Some a => Ret (0%Z, [], [], <[command := a]> aliases)
            end
        end
  end.

Definition aliasedCommand (aliases : dictionary) (command : text) : text :=
  if begins [BACKSLASH] command then drop 1 command
  else match aliases !! command with None => command | Some a => show_alias [] a end.

(** With the lines on the error output. *)
Definition unalias_main (argv : list text) (aliases : dictionary) : Z * list text * dictionary :=
  match drop 1 argv with
  | [] => (0%Z, [chars "usage: unalias [command|-a]"], aliases)
  | arg :: _ =>
      if bool_decide (head arg = Some DASH) && negb (begins (chars "-a") arg)
      then (0%Z, [chars "usage: unalias [command|-a]"], aliases)
      else if begins (chars "-a") arg then (0%Z, [], ∅)
      else (0%Z, [], foldl (λ d command, delete command d) aliases (drop 1 argv))
  end.

(** ** The expansion in [ios_system] *)

(** [sprintf] into a buffer of [size] bytes. *)
Definition print_into (size : nat) (s : text) : outcome text :=
  if bool_decide (length s + 1 ≤ size) then Ret s else Undef OutOfBounds.

Definition expand_with (a : alias) (arguments : option text) : outcome text :=
  match place a, arguments with
  | NoPosition, None => Ret (before a)
  | NoPosition, Some args => print_into (utf16_length (before a) + 2 + length args) (before a ++ SPACE :: args)
  | _, None => print_into (utf16_length (before a) + 2 + utf16_length (after a)) (before a ++ SPACE :: after a)
  | AfterLast, Some args =>
      print_into (utf16_length (before a) + 2 + utf16_length (after a) + (length args + 1))
        (before a ++ SPACE :: args ++ SPACE :: after a)
  | AfterFirst, Some args =>
      match strstrquoted args [SPACE] with
      | None => print_into (utf16_length (before a) + 2 + utf16_length (after a) + (length args + 1))
                  (before a ++ SPACE :: args ++ SPACE :: after a)
      | Some secondSpace =>
          let argument := take secondSpace args in
          let otherArguments := drop (S secondSpace) args in
          print_into (utf16_length (before a) + 2 + utf16_length (after a) + (length argument + length otherArguments + 2))
            (before a ++ SPACE :: argument ++ SPACE :: after a ++ SPACE :: otherArguments)
      end
  end.

Definition expand_alias (aliases : dictionary) (command : text) : outcome text :=
  if begins [BACKSLASH] command then Ret command
  else
    let firstSpace := strstrquoted command [SPACE] in
    let name := match firstSpace with Some n => take n command | None => command end in
    match aliases !! name with
    | None => Ret command
    | Some a => expand_with a ((λ n, drop (S n) command) <$> firstSpace)
    end.

(** ** Words and sentences *)

Definition ascii_text (s : text) : Prop := Forall (λ c, nat_of_ascii c < 128) s.

Lemma utf16_ascii s : ascii_text s → utf16_length s = length s.
Proof.
  unfold utf16_length. induction 1 as [|c s Hc _ IH]; simpl; [done|]. rewrite IH. unfold code_units.
  rewrite !bool_decide_eq_false_2 by lia. lia.
Qed.

(** A component of an alias. *)
Record token (w : text) : Prop := {
  token_nonempty : w ≠ [];
  token_blank : Forall (λ c, is_blank c = false) w;
  token_ascii : ascii_text w;
  token_quote : head w ≠ Some DQUOTE ∧ head w ≠ Some SQUOTE;
  token_mark : w ≠ MARK_FIRST ∧ w ≠ MARK_ALL }.

(** A word of a line, with its quotes. *)
Record word (w : text) : Prop := {
  word_closed : closed w;
  word_spaces : ∀ i, ¬ occurs w [SPACE] i }.

Lemma first_space w rest : word w → strstrquoted (w ++ SPACE :: rest) [SPACE] = Some (length w).
Proof. intros [Hc Hs]. apply (strstrquoted_piece w SPACE 0 rest Hc eq_refl Hs). by left. Qed.

Lemma no_space w : word w → strstrquoted w [SPACE] = None.
Proof. intros [_ Hs]. by apply (strstrquoted_none w SPACE 0). Qed.

Definition spaced (ws : list text) : text := concat ((λ c, c ++ [SPACE]) <$> ws).

Lemma spaced_join ws : ws ≠ [] → spaced ws = join ws ++ [SPACE].
Proof.
  induction ws as [|w ws IH]; [done|]. intros _. unfold spaced in *. rewrite fmap_cons. cbn [concat].
  destruct ws as [|w' ws]; [apply app_nil_r|]. rewrite IH, (join_line_cons w) by done. by rewrite <- !app_assoc.
Qed.

Lemma trim_spaced s : s ≠ [] → Forall (λ c, is_blank c = false) (option_list (head s)) →
  Forall (λ c, is_blank c = false) (option_list (list.last s)) → trim_whitespace (s ++ [SPACE]) = s.
Proof.
  destruct s as [|c t]; [done|]. intros _ [Hc _]%Forall_cons_1 Hl. unfold trim_whitespace. simpl. rewrite Hc. simpl. f_equal.
  destruct t as [|d t _] using rev_ind; [done|]. rewrite app_comm_cons, last_snoc in Hl.
  apply Forall_cons_1 in Hl as [Hd _]. rewrite !rev_app_distr. simpl. rewrite Hd. simpl. by rewrite rev_involutive.
Qed.

Lemma tokens_ends ws : Forall token ws → ws ≠ [] →
  Forall (λ c, is_blank c = false) (option_list (head (join ws))) ∧
  Forall (λ c, is_blank c = false) (option_list (list.last (join ws))) ∧ join ws ≠ [].
Proof.
  intros Hws Hne. assert (∀ w, token w → ∃ c t, w = c :: t ∧ is_blank c = false) as Hhead.
  { intros w [Hn Hb _ _ _]. destruct w as [|c t]; [done|]. exists c, t. by apply Forall_cons_1 in Hb as [? _]. }
  assert (∀ w, token w → ∃ t c, w = t ++ [c] ∧ is_blank c = false) as Hlast.
  { intros w [Hn Hb _ _ _]. destruct w as [|c t _] using rev_ind; [done|]. exists t, c.
    by apply Forall_app in Hb as [_ [? _]%Forall_cons_1]. }
  split_and!.
  - destruct ws as [|w ws]; [done|]. apply Forall_cons_1 in Hws as [(c & t & -> & Hc)%Hhead _].
    destruct ws; simpl; by repeat constructor.
  - destruct ws as [|w ws _] using rev_ind; [done|]. apply Forall_app in Hws as [_ [(t & c & -> & Hc)%Hlast _]%Forall_cons_1].
    destruct (decide (ws = [])) as [-> |Hw]; [simpl; rewrite last_snoc; by repeat constructor|].
    rewrite join_app by done. simpl. rewrite app_comm_cons, app_assoc, last_snoc. by repeat constructor.
  - destruct ws as [|w ws]; [done|]. apply Forall_cons_1 in Hws as [(c & t & -> & Hc)%Hhead _]. by destruct ws.
Qed.

Lemma trim_tokens ws : Forall token ws → trim_whitespace (spaced ws) = join ws.
Proof.
  intros Hws. destruct (decide (ws = [])) as [-> |Hne]; [done|]. destruct (tokens_ends ws Hws Hne) as (? & ? & ?).
  rewrite spaced_join by done. by apply trim_spaced.
Qed.

Lemma join_ascii ws : Forall token ws → ascii_text (join ws).
Proof.
  induction 1 as [|w ws Hw Hws IH]; [constructor|]. destruct (decide (ws = [])) as [-> |Hne]; [apply Hw|].
  rewrite join_line_cons by done. apply Forall_app. split; [apply Hw|]. constructor; [|done]. apply (bool_decide_unpack _). by vm_compute.
Qed.

(** ** Making an alias and using it *)

Definition markers (m : position) : list text :=
  match m with NoPosition => [] | AfterFirst => [MARK_FIRST] | AfterLast => [MARK_ALL] end.

(** The words the alias stands for. *)
Definition aliased (m : position) (bs asx args : list text) : list text :=
  match m with
  | NoPosition => bs ++ args
  | AfterFirst => bs ++ take 1 args ++ asx ++ drop 1 args
  | AfterLast => bs ++ args ++ asx
  end.

Lemma around_words marker bs asx : marker ∉ bs → marker ∉ asx →
  around marker (bs ++ marker :: asx) = (trim_whitespace (spaced bs), trim_whitespace (spaced asx)).
Proof.
  intros Hb Ha. unfold around. rewrite foldl_app. cbn [foldl].
  assert (∀ ws st b a, marker ∉ ws → foldl (add_component marker) (st, b, a) ws =
    if st : bool then (st, b, a ++ spaced ws) else (st, b ++ spaced ws, a)) as Hfold.
  { induction ws as [|w ws IH]; intros st b a Hw; simpl; [destruct st; by rewrite app_nil_r|].
    apply not_elem_of_cons in Hw as [Hw Hws]. rewrite bool_decide_eq_false_2 by done.
    destruct st; rewrite IH by done; unfold spaced; rewrite fmap_cons; cbn [concat]; by rewrite <- !app_assoc. }
  rewrite Hfold by done. cbn [add_component]. rewrite bool_decide_eq_true_2 by done. by rewrite Hfold.
Qed.

Lemma token_list_marks ws : Forall token ws → MARK_FIRST ∉ ws ∧ MARK_ALL ∉ ws.
Proof. intros Hws. split; intros Hin; by destruct (token_mark _ (proj1 (list.Forall_forall _ _) Hws _ Hin)). Qed.

Lemma make_alias_words (bs : list text) (m : position) (asx : list text) : Forall token bs → Forall token asx → (m = NoPosition → asx = []) →
  make_alias (bs ++ markers m ++ asx) = Some (Alias (join bs) (join asx) m).
Proof.
  intros Hb Ha Hm. destruct (token_list_marks _ Hb) as [B1 B2], (token_list_marks _ Ha) as [A1 A2].
  unfold make_alias. destruct m; cbn [markers app].
  - rewrite Hm, app_nil_r by done. rewrite !bool_decide_eq_false_2 by done. simpl. by rewrite <- (trim_tokens bs).
  - rewrite (bool_decide_eq_true_2 (MARK_FIRST ∈ _)) by set_solver.
    rewrite (bool_decide_eq_false_2 (MARK_ALL ∈ _)) by (rewrite elem_of_app, elem_of_cons; naive_solver).
    simpl. rewrite around_words by done. by rewrite !trim_tokens.
  - rewrite (bool_decide_eq_false_2 (MARK_FIRST ∈ _)) by (rewrite elem_of_app, elem_of_cons; naive_solver).
    rewrite (bool_decide_eq_true_2 (MARK_ALL ∈ _)) by set_solver. simpl. rewrite around_words by done. by rewrite !trim_tokens.
Qed.

(** A component without spaces is taken apart into itself. *)
Lemma split_token w : token w → split_command (S (length w)) w 0 [w] = [w].
Proof.
  intros [Hn Hb _ _ _]. cbn [split_command].
  assert (strstrquoted w [SPACE] = None) as ->.
  { apply (strstrquoted_none w SPACE 0); [done|]. intros i [_ Ho]. destruct (Ho 0 SPACE) as [Hi _]; [done|].
    eapply Forall_lookup_1 in Hi; [|exact Hb]. done. }
  rewrite bool_decide_eq_false_2 by done. unfold set_component. by rewrite bool_decide_eq_false_2 by done.
Qed.

Lemma not_enclosed q w ws : head w ≠ Some q → enclosed q (w :: ws) = false.
Proof.
  intros Hq. unfold enclosed. simpl. replace (begins [q] w) with false; [done|]. symmetry. apply bool_decide_eq_false.
  destruct w as [|c w]; [done|]. simpl. rewrite take_0. intros [= ->]. done.
Qed.

Lemma alias_main_words (name : text) (bs : list text) (m : position) (asx : list text) (aliases : dictionary) :
  head name ≠ Some DASH → EQUALS ∉ name → bs ≠ [] → Forall token bs → Forall token asx → (m = NoPosition → asx = []) →
  alias_main (chars "alias" :: name :: bs ++ markers m ++ asx) aliases =
  Ret (0%Z, [], [], <[name := Alias (join bs) (join asx) m]> aliases).
Proof.
  intros Hd He Hne Hb Ha Hm. unfold alias_main. cbn [drop]. rewrite bool_decide_eq_false_2 by done.
  rewrite (proj2 (strchr_None_elem name EQUALS)) by done.
  destruct bs as [|b bs]; [done|]. cbn [app]. rewrite (bool_decide_eq_false_2 (is_Some None)) by by intros [? [=]].
  destruct (Forall_cons_1 _ _ _ Hb) as [Hw _]. destruct (token_quote b Hw) as [Q1 Q2].
  rewrite !not_enclosed by done. cbn [orb].
  replace (if bool_decide _ then Ret _ else Ret _) with (Ret (b :: bs ++ markers m ++ asx)) by (by destruct (bool_decide _)).
  cbn [mbind outcome_bind].
  replace (match bs ++ markers m ++ asx with [] => _ | _ :: _ => _ end) with ((b :: bs) ++ markers m ++ asx).
  2: { destruct (bs ++ markers m ++ asx) eqn:E; [|by rewrite <- E]. by rewrite split_token, <- app_comm_cons, E. }
  by rewrite make_alias_words.
Qed.

Lemma print_fits n s : length s + 1 ≤ n → print_into n s = Ret s.
Proof. intros H. unfold print_into. by rewrite bool_decide_eq_true_2. Qed.

Ltac fits :=
  apply print_fits; cbn [join]; rewrite ?utf16_ascii by (by apply join_ascii);
  repeat first [rewrite length_app | rewrite length_cons]; lia.

Lemma expand_words (bs : list text) (m : position) (asx args : list text) : bs ≠ [] → Forall token bs → Forall token asx → (m = NoPosition → asx = []) →
  (m ≠ NoPosition → asx ≠ []) → Forall word args →
  expand_with (Alias (join bs) (join asx) m) (match args with [] => None | _ => Some (join args) end) =
  Ret (join (aliased m bs asx args)).
Proof.
  intros Hne Hb Ha Hm Hm' Hargs.
  unfold expand_with. destruct args as [|a args]; cbn [place before after].
  - destruct m; cbn [aliased]; rewrite ?app_nil_r; [done|..]; simpl;
      (rewrite join_app by (done || by apply Hm')); fits.
  - apply Forall_cons_1 in Hargs as [Hw Hargs].
    assert (a :: args ≠ []) as Hane by done. destruct m; cbn [aliased].
    + rewrite join_app by done. fits.
    + assert (asx ≠ []) as Hax by by apply Hm'. change (take 1 (a :: args)) with [a]. change (drop 1 (a :: args)) with args. destruct args as [|a' args].
      * cbn [join]. rewrite no_space by done. rewrite app_nil_r, !join_app by done. fits.
      * rewrite (join_line_cons a) by done. rewrite first_space by done. rewrite take_app_length, drop_behind.
        rewrite !join_app by (done || by destruct asx). fits.
    + assert (asx ≠ []) as Hax by by apply Hm'. rewrite !join_app by done. fits.
Qed.



(** ** What goes wrong *)

(** [alias p printf é], then [p x]: the buffer is sized in UTF-16 units and
    written in bytes. *)
Theorem alias_buffer_short :
  let e_acute := [ascii_of_nat 195; ascii_of_nat 169] in
  ∃ aliases, alias_main [chars "alias"; chars "p"; chars "printf"; e_acute] ∅ = Ret (0%Z, [], [], aliases) ∧
    expand_alias aliases (chars "p x") = Undef OutOfBounds.
Proof. eexists. split; [by vm_compute|]. by vm_compute. Qed.

(** [alias x=] followed by a lone quote: the only component is a quote at both
    ends. *)
Theorem alias_lone_quote :
  alias_main [chars "alias"; chars "x=" ++ [DQUOTE]] ∅ = Undef OutOfBounds.
Proof. by vm_compute. Qed.
