(* ===== verification/CommandLine.v ===== *)
(** * From the line to the command ([src/ios_system.m])

    Before redirections and words, [ios_system] takes quotes or parentheses off
    the line, sets the variables written in front of the command, and replaces a
    variable, command substitutions and an alias.
    - The line lies in an allocated block, and three pointers go into it: [cmd],
      [command] and [originalCommand], the one that is freed in the end.  Blocks
      that were freed are [None]; writing into them or freeing a pointer that is
      not the start of a block is undefined.
    - [getenv] and the substitution of commands ([expand], modelled in
      [Substitution]) are arguments; [expand] gives [None] where the code gives
      the same pointer back.
    - [prologue_memory] says for every line whether this is defined: only when
      a substitution meets a command behind a parenthesis or behind variables
      is the block freed in its middle.  [prologue_spec] is the result for lines
      with variables and an alias; [substitution_leaks] the block that is lost. *)

From Stdlib Require Import Ascii.
From stdpp Require Import gmap.
From S2P Require Import Prelude Quoting Arguments Variables Redirections Aliases.

Definition pointer : Type := nat * nat.       (* block and offset *)

Record line := Line {
  blocks : list (option text);
  cmd : pointer;
  command : pointer;
  originalCommand : pointer }.

(** The string at a pointer. *)
Definition string_at (l : line) (p : pointer) : outcome text :=
  match blocks l !! p.1 with
  | Some (Some s) => if bool_decide (p.2 ≤ length s) then Ret (drop p.2 s) else Undef OutOfBounds
  | _ => Undef UseAfterFree
  end.

Definition write_at (l : line) (p : pointer) (c : ascii) : outcome line :=
  match blocks l !! p.1 with
  | Some (Some s) =>
      if bool_decide (p.2 < length s)
      then Ret (Line (<[p.1 := Some (<[p.2 := c]> s)]> (blocks l)) (cmd l) (command l) (originalCommand l))
      else Undef OutOfBounds
  | _ => Undef UseAfterFree
  end.

Definition free (l : line) (p : pointer) : outcome line :=
  match blocks l !! p.1 with
  | Some (Some _) =>
      if bool_decide (p.2 = 0) then Ret (Line (<[p.1 := None]> (blocks l)) (cmd l) (command l) (originalCommand l))
      else Undef BadFree
  | _ => Undef DoubleFree
  end.

(** [strdup] of a text that becomes all three pointers. *)
Definition use_new (s : text) (l : line) : line :=
  let p := (length (blocks l), 0) in Line (blocks l ++ [Some s]) p p p.

Definition plus (p : pointer) (n : nat) : pointer := (p.1, p.2 + n).

Definition start_line (inputCmd : text) : line := use_new inputCmd (Line [] (0, 0) (0, 0) (0, 0)).

(** The quote in front, and the next one. *)
Definition strip_quote (l : line) : outcome line :=
  s ← string_at l (cmd l);
  if bool_decide (head s = Some DQUOTE) then
    match strchr (drop 1 s) DQUOTE with
    | Some endCmd =>
        l ← write_at l (plus (cmd l) (1 + endCmd)) SPACE;
        Ret (Line (blocks l) (plus (cmd l) 1) (command l) (originalCommand l))
    | None => Ret l
    end
  else Ret l.

(** The parenthesis in front, and the next one that closes. *)
Definition strip_parenthesis (l : line) : outcome line :=
  s ← string_at l (cmd l);
  if bool_decide (head s = Some LPAREN) then
    let l := Line (blocks l) (cmd l) (plus (cmd l) 1) (originalCommand l) in
    match strstrquoted (drop 1 s) [RPAREN] with
    | Some endCmd => write_at l (plus (command l) endCmd) SPACE
    | None => Ret l
    end
  else Ret (Line (blocks l) (cmd l) (cmd l) (originalCommand l)).

(** The variables in front of the command: what is given to [ios_setenv], and
    how far [command] moves. *)
Fixpoint assignments (fuel : nat) (commandForParsing : text) : outcome (list (text * text) * nat) :=
  match fuel with
  | 0 => Undef OutOfFuel
  | S fuel =>
      match strstrquoted commandForParsing [SPACE] with
      | None => Ret ([], 0)
      | Some firstSpace =>
          let word := take firstSpace commandForParsing in
          match strchr word EQUALS with
          | None => Ret ([], 0)
          | Some equalSign =>
              '(others, n) ← assignments fuel (drop (S firstSpace) commandForParsing);
              Ret ((take equalSign word, drop (S equalSign) word) :: others, firstSpace + 1 + n)
          end
      end
  end.

(** Both steps up to the command; the result says what was set. *)
Definition find_command (l : line) : outcome (list (text * text) * line) :=
  l ← strip_quote l;
  l ← strip_parenthesis l;
  s ← string_at l (command l);
  '(vars, n) ← assignments (S (length s)) s;
  Ret (vars, Line (blocks l) (cmd l) (plus (command l) n) (originalCommand l)).

(** A command that is a variable. *)
Definition command_variable (getenv : text → option text) (l : line) : outcome line :=
  s ← string_at l (command l);
  if bool_decide (head s = Some DOLLAR) then
    match getenv (drop 1 s) with
    | Some newName => l ← free l (originalCommand l); Ret (use_new newName l)
    | None => Ret l
    end
  else Ret l.

Definition substitute (expand : text → option text) (l : line) : outcome line :=
  s ← string_at l (command l);
  match expand s with
  | None => Ret l
  | Some expandedCmd =>
      l ← (if bool_decide (command l ≠ originalCommand l) && bool_decide (command l ≠ cmd l) then free l (command l) else Ret l);
      l ← (if bool_decide (originalCommand l ≠ cmd l) then free l (originalCommand l) else Ret l);
      Ret (use_new expandedCmd l)
  end.

Definition replace_alias (aliases : gmap (list ascii) alias) (l : line) : outcome line :=
  s ← string_at l (command l);
  let name := match strstrquoted s [SPACE] with Some n => take n s | None => s end in
  if begins [BACKSLASH] s || bool_decide (aliases !! name = None) then Ret l
  else
    newCommand ← expand_alias aliases s;
    l ← free l (originalCommand l);
    Ret (use_new newCommand l).

(** All of it for a line that is a single command. *)
Definition prologue (getenv expand : text → option text) (aliases : gmap (list ascii) alias) (inputCmd : text)
    : outcome (list (text * text) * line) :=
  '(vars, l) ← find_command (start_line inputCmd);
  l ← command_variable getenv l;
  l ← substitute expand l;
  l ← replace_alias aliases l;
  Ret (vars, l).

(** ** The pointers stay in one block *)

(** The block of [originalCommand], which is its start, is allocated with the
    string [s], and the two other pointers go into it. *)
Record in_block (l : line) (s : text) : Prop := {
  ib_start : (originalCommand l).2 = 0;
  ib_block : blocks l !! (originalCommand l).1 = Some (Some s);
  ib_cmd : (cmd l).1 = (originalCommand l).1 ∧ (cmd l).2 ≤ length s;
  ib_command : (command l).1 = (originalCommand l).1 ∧ (command l).2 ≤ length s }.

Lemma use_new_in s l : in_block (use_new s l) s.
Proof.
  split; simpl; [done| |split; [done|lia]..]. by rewrite lookup_app_r, Nat.sub_diag.
Qed.

Lemma string_at_in l s p : in_block l s → p.1 = (originalCommand l).1 → p.2 ≤ length s → string_at l p = Ret (drop p.2 s).
Proof. intros Hl E Hp. unfold string_at. rewrite E, (ib_block l s Hl). by rewrite bool_decide_eq_true_2. Qed.

Lemma string_at_cmd l s : in_block l s → string_at l (cmd l) = Ret (drop (cmd l).2 s).
Proof. intros Hl. destruct (ib_cmd l s Hl). by apply string_at_in. Qed.

Lemma string_at_command l s : in_block l s → string_at l (command l) = Ret (drop (command l).2 s).
Proof. intros Hl. destruct (ib_command l s Hl). by apply string_at_in. Qed.

Lemma write_at_in l s p c : in_block l s → p.1 = (originalCommand l).1 → p.2 < length s →
  ∃ l', write_at l p c = Ret l' ∧ in_block l' (<[p.2 := c]> s) ∧ cmd l' = cmd l ∧ command l' = command l ∧
    originalCommand l' = originalCommand l.
Proof.
  intros Hl E Hp. unfold write_at. rewrite E, (ib_block l s Hl), bool_decide_eq_true_2 by done.
  eexists. split; [done|]. split; [|done]. destruct Hl as [H1 H2 H3 H4].
  split; simpl; rewrite ?length_insert; try done. apply list_lookup_insert_eq. by eapply lookup_lt_Some.
Qed.

Lemma free_original l s : in_block l s →
  free l (originalCommand l) = Ret (Line (<[(originalCommand l).1 := None]> (blocks l)) (cmd l) (command l) (originalCommand l)).
Proof. intros Hl. unfold free. rewrite (ib_block l s Hl). by rewrite bool_decide_eq_true_2 by apply Hl. Qed.

Lemma strchr_lt s c n : strchr s c = Some n → n < length s.
Proof.
  revert n. induction s as [|x s IH]; intros n; simpl; [done|]. case_bool_decide; [intros [= <-]; lia|].
  intros (k & Hk & ->)%fmap_Some. apply IH in Hk. lia.
Qed.

Lemma strstrquoted_lt s c n : is_quote c = false → strstrquoted s [c] = Some n → n < length s.
Proof. intros Hc Hs. pose proof (strstrquoted_is_first s c 0 Hc) as H. simpl in H. rewrite Hs in H. destruct H as [[? _] _]. simpl in *. lia. Qed.

Lemma strip_quote_in l s : in_block l s → ∃ l' s', strip_quote l = Ret l' ∧ in_block l' s' ∧
  originalCommand l' = originalCommand l ∧ length (blocks l') = length (blocks l).
Proof.
  intros Hl. unfold strip_quote. rewrite (string_at_cmd l s) by done. cbn [mbind outcome_bind].
  case_bool_decide as Hq; [|by exists l, s]. destruct (strchr _ _) as [e|] eqn:He; [|by exists l, s].
  apply strchr_lt in He. rewrite !length_drop in He. destruct (ib_cmd l s Hl) as [Hc1 Hc2].
  unfold write_at. cbn [plus fst snd]. rewrite Hc1, (ib_block l s Hl), bool_decide_eq_true_2 by lia. cbn [mbind outcome_bind].
  eexists _, (<[(cmd l).2 + (1 + e) := SPACE]> s). split; [done|]. simpl. split; [|by rewrite length_insert]. destruct Hl as [H1 H2 H3 H4].
  split; simpl; rewrite ?length_insert; [done| |split; [done|lia]|done]. apply list_lookup_insert_eq. by eapply lookup_lt_Some.
Qed.

Lemma strip_parenthesis_in l s : in_block l s → ∃ l' s', strip_parenthesis l = Ret l' ∧ in_block l' s' ∧
  originalCommand l' = originalCommand l ∧ length (blocks l') = length (blocks l) ∧ cmd l' = cmd l.
Proof.
  intros Hl. unfold strip_parenthesis. rewrite (string_at_cmd l s) by done. cbn [mbind outcome_bind].
  destruct (ib_cmd l s Hl) as [Hc1 Hc2]. case_bool_decide as Hq.
  2: { eexists _, s. split; [done|]. simpl. split; [|done]. by destruct Hl; split. }
  assert (drop (cmd l).2 s ≠ []) as Hne by by intros E; rewrite E in Hq.
  assert ((cmd l).2 < length s) as Hlt.
  { destruct (decide ((cmd l).2 < length s)); [done|]. by rewrite drop_ge in Hne by lia. }
  set (l1 := Line _ _ _ _). assert (in_block l1 s) as Hl1 by (destruct Hl; split; simpl; try done; split; [done|lia]).
  destruct (strstrquoted _ _) as [e|] eqn:He; [|by exists l1, s].
  apply strstrquoted_lt in He; [|done]. rewrite !length_drop in He.
  destruct (write_at_in l1 s (plus (command l1) e) SPACE Hl1) as (l2 & E2 & Hl2 & C2 & _ & O2); [done|simpl; lia|].
  exists l2. eexists. split; [exact E2|]. split; [exact Hl2|]. rewrite O2, C2. split_and!; [done| |done].
  unfold write_at in E2. destruct (blocks l1 !! _) as [[?|]|]; [|done|done]. case_bool_decide; [|done]. injection E2 as <-.
  simpl. by rewrite length_insert.
Qed.

Lemma assignments_defined fuel s : length s < fuel → ∃ vars n, assignments fuel s = Ret (vars, n) ∧ n ≤ length s.
Proof.
  revert s. induction fuel as [|fuel IH]; intros s Hf; [lia|]. cbn [assignments].
  destruct (strstrquoted s [SPACE]) as [i|] eqn:Hs; [|by exists [], 0; split; [|lia]].
  apply strstrquoted_lt in Hs; [|done]. cbn zeta. destruct (strchr _ _) as [e|]; [|by exists [], 0; split; [|lia]].
  destruct (IH (drop (S i) s)) as (vars & n & -> & Hn); [rewrite length_drop; lia|]. rewrite length_drop in Hn.
  eexists _, _. split; [done|]. lia.
Qed.

(** Up to the command nothing is undefined, and only one block is in use. *)
Lemma find_command_defined inputCmd : ∃ vars l s, find_command (start_line inputCmd) = Ret (vars, l) ∧ in_block l s.
Proof.
  unfold find_command. destruct (strip_quote_in (start_line inputCmd) inputCmd) as (l1 & s1 & -> & H1 & _); [apply use_new_in|].
  cbn [mbind outcome_bind]. destruct (strip_parenthesis_in l1 s1 H1) as (l2 & s2 & -> & H2 & _). cbn [mbind outcome_bind].
  rewrite (string_at_command l2 s2) by done. cbn [mbind outcome_bind].
  destruct (assignments_defined (S (length (drop (command l2).2 s2))) (drop (command l2).2 s2)) as (vars & n & -> & Hn); [lia|].
  cbn [mbind outcome_bind]. eexists _, _, s2. split; [done|]. rewrite length_drop in Hn.
  destruct H2 as [? ? ? [? ?]]. split; simpl; try done. split; [done|lia].
Qed.

Lemma command_variable_defined getenv l s : in_block l s → ∃ l' s', command_variable getenv l = Ret l' ∧ in_block l' s'.
Proof.
  intros Hl. unfold command_variable. rewrite (string_at_command l s) by done. cbn [mbind outcome_bind].
  case_bool_decide; [|by exists l, s]. destruct (getenv _) as [v|]; [|by exists l, s].
  rewrite (free_original l s) by done. cbn [mbind outcome_bind]. eexists _, v. split; [done|]. apply use_new_in.
Qed.

(** Whether [substitute] frees the block in its middle. *)
Definition behind (l : line) : Prop := command l ≠ originalCommand l ∧ command l ≠ cmd l.

Lemma substitute_defined expand l s : in_block l s →
  let text := drop (command l).2 s in
  (expand text = None ∨ ¬ behind l → ∃ l' s', substitute expand l = Ret l' ∧ in_block l' s' ∧
     string_at l' (command l') = Ret (default text (expand text))) ∧
  (is_Some (expand text) → behind l → substitute expand l = Undef BadFree).
Proof.
  intros Hl text. unfold substitute. rewrite (string_at_command l s) by done. cbn [mbind outcome_bind]. fold text. split.
  - intros Hd. destruct (expand text) as [t|]; [|exists l, s; split_and!; [done|done|by apply string_at_command]].
    destruct Hd as [?|Hd]; [done|]. replace (bool_decide _ && bool_decide _) with false.
    2: { unfold behind in Hd. repeat case_bool_decide; simpl; tauto. }
    cbn [mbind outcome_bind]. destruct (bool_decide (originalCommand l ≠ cmd l)).
    + rewrite (free_original l s) by done. cbn [mbind outcome_bind]. eexists _, t. split; [done|].
      pose proof (use_new_in t (Line (<[(originalCommand l).1 := None]> (blocks l)) (cmd l) (command l) (originalCommand l))) as Hn.
      split; [done|]. rewrite (string_at_command _ _ Hn). by rewrite drop_0.
    + cbn [mbind outcome_bind]. eexists _, t. split; [done|]. pose proof (use_new_in t l) as Hn.
      split; [done|]. rewrite (string_at_command _ _ Hn). by rewrite drop_0.
  - intros [t ->] [Hb1 Hb2]. rewrite !bool_decide_eq_true_2 by done. cbn [andb]. unfold free.
    destruct (ib_command l s Hl) as [E1 E2]. rewrite E1, (ib_block l s Hl).
    rewrite (bool_decide_eq_false_2 ((command l).2 = 0)); [done|]. intros E. apply Hb1.
    pose proof (ib_start l s Hl). destruct (command l), (originalCommand l); simpl in *. congruence.
Qed.

Lemma replace_alias_defined aliases l s : in_block l s →
  ∀ t, expand_alias aliases (drop (command l).2 s) = Ret t → ∃ l' s', replace_alias aliases l = Ret l' ∧ in_block l' s' ∧
    string_at l' (command l') = Ret t.
Proof.
  intros Hl t Ht. unfold replace_alias. rewrite (string_at_command l s) by done. cbn [mbind outcome_bind].
  destruct (begins _ _ || bool_decide _) eqn:Hb.
  - exists l, s. split_and!; [done|done|]. rewrite (string_at_command l s) by done. rewrite <- Ht. unfold expand_alias.
    destruct (begins _ _); [done|]. apply bool_decide_eq_true in Hb. destruct (strstrquoted _ _); by rewrite Hb.
  - rewrite Ht. cbn [mbind outcome_bind]. rewrite (free_original l s) by done. cbn [mbind outcome_bind].
    eexists _, t. split; [done|]. split; [apply use_new_in|].
    pose proof (use_new_in t (Line (<[(originalCommand l).1 := None]> (blocks l)) (cmd l) (command l) (originalCommand l))) as Hn.
    rewrite (string_at_command _ _ Hn). by rewrite drop_0.
Qed.

Definition ascii_aliases (aliases : gmap (list ascii) alias) : Prop :=
  ∀ name a, aliases !! name = Some a → ascii_text (before a) ∧ ascii_text (after a).

Lemma expand_alias_defined aliases s : ascii_aliases aliases → ∃ t, expand_alias aliases s = Ret t.
Proof.
  intros Ha. unfold expand_alias. destruct (begins _ _); [by eexists|]. destruct (aliases !! _) as [a|] eqn:E; [|by eexists].
  destruct (Ha _ _ E) as [Hb Hc]. unfold expand_with. rewrite !utf16_ascii by done.
  assert (∀ n x, length x + 1 ≤ n → ∃ t, print_into n x = Ret t) as Hp by (intros; eexists; by apply print_fits).
  destruct (place a), (_ <$> strstrquoted s [SPACE]) as [args|]; try (by eexists);
    try destruct (strstrquoted args [SPACE]); apply Hp; repeat first [rewrite length_app | rewrite length_cons]; lia.
Qed.

(** The steps one after another, for every line. *)
Lemma prologue_defined getenv expand aliases inputCmd : ascii_aliases aliases →
  ∃ vars l1 l2 s, find_command (start_line inputCmd) = Ret (vars, l1) ∧ command_variable getenv l1 = Ret l2 ∧
    string_at l2 (command l2) = Ret s ∧ (∃ b, in_block l1 b) ∧ (∃ b, in_block l2 b) ∧
    (is_Some (expand s) ∧ behind l2 → prologue getenv expand aliases inputCmd = Undef BadFree) ∧
    (¬ (is_Some (expand s) ∧ behind l2) → ∃ l t, prologue getenv expand aliases inputCmd = Ret (vars, l) ∧
       string_at l (command l) = Ret t ∧ expand_alias aliases (default s (expand s)) = Ret t ∧ ∃ b, in_block l b).
Proof.
  intros Ha. destruct (find_command_defined inputCmd) as (vars & l1 & s1 & E1 & H1).
  destruct (command_variable_defined getenv l1 s1 H1) as (l2 & s2 & E2 & H2).
  exists vars, l1, l2, (drop (command l2).2 s2). split_and!; [done|done|by apply string_at_command|by exists s1|by exists s2|..];
    unfold prologue; rewrite E1; cbn [mbind outcome_bind]; rewrite E2; cbn [mbind outcome_bind];
    destruct (substitute_defined expand l2 s2 H2) as [Hok Hbad].
  - intros [? ?]. by rewrite Hbad.
  - intros Hn. destruct Hok as (l3 & s3 & -> & H3 & S3).
    { destruct (expand _); [right|by left]. intros ?. apply Hn. by split; [eexists|]. }
    cbn [mbind outcome_bind]. set (x := default _ _) in *. destruct (expand_alias_defined aliases x Ha) as [t Ht].
    rewrite (string_at_command l3 s3 H3) in S3. injection S3 as S3. rewrite <- S3 in Ht.
    destruct (replace_alias_defined aliases l3 s3 H3 t Ht) as (l4 & s4 & -> & H4 & S4). exists l4, t.
    split_and!; [done|done|by rewrite <- S3|by exists s4].
Qed.

(** C25: what ios_system does with a line before redirections, for every line
    and any ASCII aliases: up to the command nothing is undefined.  When the
    command has a substitution and lies behind a parenthesis or variables, the
    block of the line is then freed in its middle.  In all other cases all steps
    are defined, the command in the end is the one with its substitutions, and
    then its alias, replaced, and the three pointers go into one allocated block,
    which originalCommand is the start of. *)
Theorem prologue_memory getenv expand aliases inputCmd : ascii_aliases aliases →
  ∃ vars l1 l2 s, find_command (start_line inputCmd) = Ret (vars, l1) ∧ command_variable getenv l1 = Ret l2 ∧
    string_at l2 (command l2) = Ret s ∧ (∃ b, in_block l1 b) ∧ (∃ b, in_block l2 b) ∧
    (is_Some (expand s) ∧ behind l2 → prologue getenv expand aliases inputCmd = Undef BadFree) ∧
    (¬ (is_Some (expand s) ∧ behind l2) → ∃ l t, prologue getenv expand aliases inputCmd = Ret (vars, l) ∧
       string_at l (command l) = Ret t ∧ expand_alias aliases (default s (expand s)) = Ret t ∧ ∃ b, in_block l b).
Proof. apply prologue_defined. Qed.

(** ** Variables and an alias *)

Definition assignment (nv : text * text) : text := nv.1 ++ EQUALS :: nv.2.

(** A word that sets a variable. *)
Definition sets_variable (nv : text * text) : Prop := word (assignment nv) ∧ EQUALS ∉ nv.1.

Lemma assignments_words nvs rest fuel : Forall sets_variable nvs → length (join ((assignment <$> nvs) ++ rest)) < fuel →
  rest ≠ [] → Forall word rest → EQUALS ∉ default [] (head rest) →
  ∃ n, assignments fuel (join ((assignment <$> nvs) ++ rest)) = Ret (nvs, n) ∧
    drop n (join ((assignment <$> nvs) ++ rest)) = join rest ∧ n ≤ length (join ((assignment <$> nvs) ++ rest)).
Proof.
  intros Hnv Hf Hne Hr He. revert fuel Hf. induction Hnv as [|[a v] nvs [Hw Hn] _ IH]; intros fuel Hf.
  - simpl in *. exists 0. split; [|split; [done|lia]]. destruct fuel as [|fuel]; [lia|]. cbn [assignments].
    destruct rest as [|w rest]; [done|]. apply Forall_cons_1 in Hr as [Hw Hr]. destruct rest as [|w' rest].
    + simpl. by rewrite no_space.
    + rewrite join_line_cons, first_space by done. rewrite take_app_length. simpl in He.
      by rewrite (proj2 (strchr_None_elem w EQUALS)).
  - rewrite fmap_cons, <- app_comm_cons in *.
    assert ((assignment <$> nvs) ++ rest ≠ []) as Hne' by by destruct nvs.
    rewrite join_line_cons in * by done. destruct fuel as [|fuel]; [lia|]. cbn [assignments].
    rewrite first_space, take_app_length, drop_behind by done. cbn [fst snd] in *.
    assert (strchr (assignment (a, v)) EQUALS = Some (length a)) as -> by by apply strchr_first.
    destruct (IH fuel) as (n & -> & Hd & Hl); [rewrite length_app, length_cons in Hf; lia|]. cbn [mbind outcome_bind].
    exists (length (assignment (a, v)) + 1 + n).
    split; [unfold assignment; cbn [fst snd]; by rewrite take_app_length, drop_behind|].
    rewrite length_app, length_cons. split; [|lia].
    replace (length (assignment (a, v)) + 1 + n) with (S (length (assignment (a, v))) + n) by lia.
    by rewrite <- drop_drop, drop_behind.
Qed.

(** a line of words that set variables, the name of an alias and its
    arguments: the variables are set in their order, and the command is the one
    the alias stands for; in front of a command that is no alias the variables
    are taken off. *)
Theorem prologue_spec getenv expand aliases nvs name args bs (m : position) (asx : list text) :
  Forall sets_variable nvs → Forall word (name :: args) → EQUALS ∉ name →
  head (join ((assignment <$> nvs) ++ name :: args)) ≠ Some DQUOTE →
  head (join ((assignment <$> nvs) ++ name :: args)) ≠ Some LPAREN →
  head (join (name :: args)) ≠ Some DOLLAR → head (join (name :: args)) ≠ Some BACKSLASH →
  expand (join (name :: args)) = None →
  ascii_aliases aliases →
  ∃ l, prologue getenv expand aliases (join ((assignment <$> nvs) ++ name :: args)) = Ret (nvs, l) ∧
    (aliases !! name = None → string_at l (command l) = Ret (join (name :: args))) ∧
    (aliases !! name = Some (Alias (join bs) (join asx) m) → bs ≠ [] → Forall token bs → Forall token asx →
     (m = NoPosition ↔ asx = []) → string_at l (command l) = Ret (join (aliased m bs asx args))).
Proof.
  intros Hnv Hw He Hq Hp Hd Hb Hx Ha. set (input := join _) in *.
  destruct (assignments_words nvs (name :: args) (S (length input)) Hnv) as (n & An & Dn & Ln); [fold input; lia|done|done|done|].
  fold input in An, Dn, Ln.
  assert (find_command (start_line input) = Ret (nvs, Line [Some input] (0, 0) (0, n) (0, 0))) as E1.
  { unfold find_command, strip_quote. pose proof (use_new_in input (Line [] (0, 0) (0, 0) (0, 0))) as H0.
    fold (start_line input) in H0. rewrite (string_at_cmd _ _ H0). cbn [mbind outcome_bind]. rewrite drop_0.
    rewrite bool_decide_eq_false_2 by done. cbn [mbind outcome_bind]. unfold strip_parenthesis.
    rewrite (string_at_cmd _ _ H0). cbn [mbind outcome_bind]. rewrite drop_0, bool_decide_eq_false_2 by done.
    cbn [mbind outcome_bind]. pose proof (string_at_command _ _ H0) as Hc. unfold start_line, use_new in Hc. cbn -[string_at] in Hc. cbn -[assignments string_at].
    rewrite Hc. cbn [mbind outcome_bind]. rewrite drop_0, An. done. }
  destruct (prologue_defined getenv expand aliases input Ha) as (vars & l1 & l2 & s & F1 & F2 & F3 & _ & _ & _ & F5).
  rewrite E1 in F1. injection F1 as <- <-. set (l1 := Line _ _ _ _) in *.
  assert (string_at l1 (command l1) = Ret (join (name :: args))) as S1.
  { unfold string_at. simpl. rewrite bool_decide_eq_true_2 by done. by rewrite Dn. }
  assert (l2 = l1) as ->.
  { unfold command_variable in F2. rewrite S1 in F2. cbn [mbind outcome_bind] in F2.
    rewrite bool_decide_eq_false_2 in F2 by done. congruence. }
  rewrite S1 in F3. assert (s = join (name :: args)) as -> by congruence. destruct F5 as (l & t & -> & Ht & Hal & _); [rewrite Hx; by intros [[? ?] _]|].
  exists l. split; [done|]. rewrite Hx in Hal. cbn [from_option] in Hal. rewrite Ht. unfold expand_alias in Hal.
  replace (begins [BACKSLASH] (join (name :: args))) with false in Hal.
  2: { symmetry. apply bool_decide_eq_false. destruct (join (name :: args)); simpl; [done|]. rewrite take_0. intros [= ->]. done. }
  apply Forall_cons_1 in Hw as [Hw Hargs].
  assert (∃ o, o = match args with [] => None | _ => Some (join args) end ∧
    match aliases !! name with None => Ret (join (name :: args)) | Some a => expand_with a o end = Ret t) as (o & Ho & Hal').
  { destruct args as [|a args].
    - exists None. split; [done|]. cbn [join] in Hal. by rewrite no_space in Hal by done.
    - exists (Some (join (a :: args))). split; [done|]. rewrite join_line_cons, first_space in Hal by done.
      cbn [fmap option_fmap option_map] in Hal. by rewrite take_app_length, drop_behind in Hal. }
  split.
  - intros E. rewrite E in Hal'. congruence.
  - intros E Hne Hbs Has Hm. rewrite E, Ho, expand_words in Hal'; [congruence|done..| | |done]; tauto.
Qed.

(** [A=1 ll /tmp] with [ll] for [ls -l]. *)
Definition demo_aliases : gmap (list ascii) alias := {[ chars "ll" := Alias (chars "ls -l") [] NoPosition ]}.

Lemma demo_ascii : ascii_aliases demo_aliases.
Proof.
  intros name a. unfold demo_aliases. intros [_ <-]%lookup_singleton_Some. split; by apply (bool_decide_unpack _).
Qed.

Lemma prologue_memory_witness :
  prologue (λ _, None) (λ _, Some (chars "now")) ∅ (chars "(echo $(date))") = Undef BadFree ∧
  (∃ l, prologue (λ _, None) (λ _, None) demo_aliases (chars "A=1 ll /tmp") = Ret ([(chars "A", chars "1")], l) ∧
     string_at l (command l) = Ret (chars "ls -l /tmp")).
Proof.
  split.
  - destruct (prologue_memory (λ _, None) (λ _, Some (chars "now")) ∅ (chars "(echo $(date))"))
      as (vars & l1 & l2 & s & E1 & E2 & E3 & _ & _ & Hbad & _); [by intros ? ?|].
    apply Hbad. split; [by eexists|]. vm_compute in E1. injection E1 as <- <-. vm_compute in E2. injection E2 as <-.
    split; by vm_compute.
  - destruct (prologue_memory (λ _, None) (λ _, None) demo_aliases (chars "A=1 ll /tmp") demo_ascii)
      as (vars & l1 & l2 & s & E1 & E2 & E3 & _ & _ & _ & Hok).
    destruct Hok as (l & t & E & S & Ht & _); [by intros [[? [=]] _]|]. exists l.
    vm_compute in E1. injection E1 as <- <-. vm_compute in E2. injection E2 as <-. vm_compute in E3. injection E3 as <-.
    vm_compute in Ht. injection Ht as <-. split; [exact E|exact S].
Defined.

Lemma prologue_spec_witness :
  ∃ l, prologue (λ _, None) (λ _, None) demo_aliases (chars "A=1 ll /tmp") = Ret ([(chars "A", chars "1")], l) ∧
    string_at l (command l) = Ret (chars "ls -l /tmp").
Proof.
  destruct (prologue_spec (λ _, None) (λ _, None) demo_aliases [(chars "A", chars "1")] (chars "ll") [chars "/tmp"]
    [chars "ls"; chars "-l"] NoPosition []) as (l & E & _ & H).
  - repeat constructor; try by apply (bool_decide_unpack _).
    apply (strstrquoted_None (chars "A=1") SPACE 0 eq_refl). by vm_compute.
  - repeat constructor; try by apply (bool_decide_unpack _).
    + apply (strstrquoted_None (chars "ll") SPACE 0 eq_refl). by vm_compute.
    + apply (strstrquoted_None (chars "/tmp") SPACE 0 eq_refl). by vm_compute.
  - by apply (bool_decide_unpack _).
  - done.
  - done.
  - done.
  - done.
  - done.
  - exact demo_ascii.
  - exists l. split; [exact E|]. apply H; try done; repeat constructor; try done; by apply (bool_decide_unpack _).
Defined.

(** ** What goes wrong *)

(** [A=1 echo $(date)]: the pointer behind the variables is freed. *)
Theorem assignment_then_substitution :
  prologue (λ _, None) (λ _, Some (chars "echo now")) ∅ (chars "A=1 echo $(date)") = Undef BadFree.
Proof. by vm_compute. Qed.

(** With no parenthesis and no variables nothing is freed at all: the block of
    the line is lost. *)
Theorem substitution_leaks :
  ∃ l, prologue (λ _, None) (λ _, Some (chars "echo now")) ∅ (chars "echo $(date)") = Ret ([], l) ∧
    originalCommand l = (1, 0) ∧ blocks l !! 0 = Some (Some (chars "echo $(date)")).
Proof. eexists. split_and!; by vm_compute. Qed.

(** [A='x y' cmd]: the quotes become part of the value. *)
Theorem assignment_keeps_quotes :
  ∃ l, prologue (λ _, None) (λ _, None) ∅ (chars "A='x y' cmd") = Ret ([(chars "A", chars "'x y'")], l) ∧
    string_at l (command l) = Ret (chars "cmd").
Proof. eexists. split; by vm_compute. Qed.
