(* ===== verification/Wildcards.v ===== *)
(** * Wildcards ([src/ios_system.m])

    [ios_system] replaces an argument with [*], [?] or [\[] by the names that
    match it, in place: the vector is enlarged, what follows is moved up, and
    the names are stored in the gap.
    - A vector is the list of its cells, which have no value, [NULL] or a
      string; [glob] is an argument ([None]: no match).
    - The loop does what replacing every word by its matches does, with [NULL]
      behind the last one and no access outside the vectors ([wildcards_spec]).
      With the first matches a flag nobody stored is copied
      ([unassigned_flag_copied]). *)

From Stdlib Require Import Ascii.
From S2P Require Import Prelude Quoting.

Inductive cell : Type :=
  | Unset
  | Null
  | Str (s : text).

(** [realloc] to [n] cells. *)
Definition realloc {A} (unset : A) (n : nat) (l : list A) : list A := take n l ++ replicate (n - length l) unset.

Definition load {A} (l : list A) (i : nat) : outcome A :=
  match l !! i with Some x => Ret x | None => Undef OutOfBounds end.
Definition store {A} (l : list A) (i : nat) (x : A) : outcome (list A) :=
  if bool_decide (i < length l) then Ret (<[i := x]> l) else Undef OutOfBounds.

(** A cell without a value is moved like any other.
    [for (j = top; ...; j--) l\[j\] = l\[j - by\]], [k] times. *)
Fixpoint move_up {A} (k : nat) (top up : nat) (l : list A) : outcome (list A) :=
  match k with
  | 0 => Ret l
  | S k =>
      x ← load l (top - up);
      l ← store l top x;
      move_up k (top - 1) up l
  end.

Fixpoint store_all {A} (l : list A) (i : nat) (xs : list A) : outcome (list A) :=
  match xs with
  | [] => Ret l
  | x :: xs => l ← store l i x; store_all l (S i) xs
  end.

Definition STAR : ascii := ascii_of_nat 42.
Definition QUESTION : ascii := ascii_of_nat 63.
Definition LBRACKET : ascii := ascii_of_nat 91.

Definition has_wildcard (s : text) : bool :=
  bool_decide (is_Some (strstrquoted s [STAR])) || bool_decide (is_Some (strstrquoted s [QUESTION])) ||
  bool_decide (is_Some (strstrquoted s [LBRACKET])).

Section expansion.
Context (glob : text → option (list text)).

(** One argument with wildcards and its [m] matches. *)
Definition insert_matches (argc i : nat) (argv : list cell) (dontExpand : list (option bool)) (matches : list text)
    : outcome (nat * list cell * list (option bool)) :=
  let m := length matches in
  let argc' := argc + m - 1 in
  let argv := realloc Unset (argc' + 1) argv in
  let dontExpand := realloc None (argc' + 1) dontExpand in
  argv ← move_up (argc' + 1 - m - i) argc' (m - 1) argv;
  dontExpand ← move_up (argc' + 1 - m - i) argc' (m - 1) dontExpand;
  argv ← store_all argv i (Str <$> matches);
  Ret (argc', argv, dontExpand).

Fixpoint wildcard_loop (fuel argc i : nat) (argv : list cell) (dontExpand : list (option bool))
    : outcome (nat * list cell) :=
  if bool_decide (i < argc) then
    match fuel with
    | 0 => Undef OutOfFuel
    | S fuel =>
        d ← load dontExpand i;
        match d with
        | None => Undef Uninitialised
        | Some true => wildcard_loop fuel argc (S i) argv dontExpand
        | Some false =>
            c ← load argv i;
            match c with
            | Str s =>
                if has_wildcard s then
                  match glob s with
                  | Some matches =>
                      '(argc, argv, dontExpand) ← insert_matches argc i argv dontExpand matches;
                      wildcard_loop fuel argc (i + length matches) argv dontExpand
                  | None => wildcard_loop fuel argc (S i) argv dontExpand
                  end
                else wildcard_loop fuel argc (S i) argv dontExpand
            | _ => Undef NullDeref
            end
        end
    end
  else Ret (argc, argv).

(** The words an argument stands for. *)
Definition expand_word (dontExpand : bool) (s : text) : list text :=
  if negb dontExpand && has_wildcard s then default [s] (glob s) else [s].

(** ** Moving up *)

Lemma load_app {A} (l1 : list A) x l2 : load (l1 ++ x :: l2) (length l1) = Ret x.
Proof. unfold load. by rewrite lookup_app_r, Nat.sub_diag by lia. Qed.

Lemma store_app {A} (l1 : list A) x l2 y : store (l1 ++ x :: l2) (length l1) y = Ret (l1 ++ y :: l2).
Proof.
  unfold store. rewrite bool_decide_eq_true_2 by (rewrite length_app; simpl; lia). f_equal.
  rewrite insert_app_r_alt, Nat.sub_diag by lia. done.
Qed.

(** The cells of [b] move up by the length of [u]; what lies between is not
    said. *)
Lemma move_up_block {A} (p b u s : list A) : ∃ u', length u' = length u ∧
  move_up (length b) (length p + length b + length u - 1) (length u) (p ++ b ++ u ++ s) = Ret (p ++ u' ++ b ++ s).
Proof.
  revert u s. induction b as [|x b IH] using rev_ind; intros u s; [by exists u|].
  rewrite length_app. cbn [length]. replace (length b + 1) with (S (length b)) by lia. cbn [move_up].
  replace (length p + S (length b) + length u - 1 - length u) with (length (p ++ b)) by (rewrite length_app; lia).
  replace (p ++ (b ++ [x]) ++ u ++ s) with ((p ++ b) ++ x :: u ++ s) by (by rewrite <- !app_assoc).
  rewrite load_app. cbn [mbind outcome_bind].
  assert (∃ u1, length u1 = length u ∧
    store ((p ++ b) ++ x :: u ++ s) (length p + S (length b) + length u - 1) x = Ret (p ++ b ++ u1 ++ x :: s)) as (u1 & Hu & ->).
  { destruct u as [|y u _] using rev_ind.
    - exists []. split; [done|]. replace (_ + length [] - 1) with (length (p ++ b)) by (rewrite length_app; simpl; lia).
      rewrite store_app. by rewrite <- app_assoc.
    - exists (x :: u). split; [by rewrite length_app; simpl; lia|].
      replace ((p ++ b) ++ x :: (u ++ [y]) ++ s) with ((p ++ b ++ x :: u) ++ y :: s) by (by rewrite <- !app_assoc).
      replace (length p + _ + _ - 1) with (length (p ++ b ++ x :: u)) by (rewrite !length_app; simpl; lia).
      rewrite store_app. by rewrite <- !app_assoc. }
  cbn [mbind outcome_bind]. destruct (IH u1 (x :: s)) as (u' & Hu' & E). exists u'. split; [congruence|].
  rewrite Hu in E. replace (length p + S (length b) + length u - 1 - 1) with (length p + length b + length u - 1) by lia.
  rewrite E. by rewrite <- !app_assoc.
Qed.

Lemma store_all_block {A} (p x s xs : list A) : length x = length xs →
  store_all (p ++ x ++ s) (length p) xs = Ret (p ++ xs ++ s).
Proof.
  revert p x. induction xs as [|y xs IH]; intros p [|z x] Hl; try done. cbn [store_all].
  rewrite <- app_comm_cons, store_app. cbn [mbind outcome_bind].
  replace (S (length p)) with (length (p ++ [y])) by (rewrite length_app; simpl; lia).
  replace (p ++ y :: x ++ s) with ((p ++ [y]) ++ x ++ s) by (by rewrite <- app_assoc).
  rewrite IH by (simpl in Hl; lia). by rewrite <- app_assoc.
Qed.

Lemma realloc_grow {A} (unset : A) l k : realloc unset (length l + k) l = l ++ replicate k unset.
Proof. unfold realloc. rewrite take_ge by lia. by replace (length l + k - length l) with k by lia. Qed.
End expansion.

Lemma realloc_keep {A} (unset : A) n a b : length a ≤ n → realloc unset n (a ++ b) = a ++ realloc unset (n - length a) b.
Proof.
  intros Hn. unfold realloc. rewrite take_app_ge by done. rewrite length_app, <- app_assoc. do 3 f_equal. lia.
Qed.

Lemma length_realloc {A} (unset : A) n l : length (realloc unset n l) = n.
Proof. unfold realloc. rewrite length_app, length_take, length_replicate. lia. Qed.

(** ** The loop *)

Section spec.
Context (glob : text → option (list text)) (glob_some : ∀ s ms, glob s = Some ms → ms ≠ []).

(** One argument is replaced by its matches; the marks of what follows move
    along. *)
Lemma insert_matches_spec p s args df f fs e extra ms : ms ≠ [] → length df = length p → length fs = length args →
  ∃ df', length df' = length p + length ms ∧
  insert_matches (length p + S (length args)) (length p) ((Str <$> p) ++ Str s :: (Str <$> args) ++ [Null])
    (df ++ f :: (Some <$> fs) ++ e :: extra) ms =
  Ret (length p + length ms + length args, (Str <$> p ++ ms) ++ (Str <$> args) ++ [Null], df' ++ (Some <$> fs) ++ [e]).
Proof.
  intros Hms Hdf Hfs. unfold insert_matches. cbn zeta.
  assert (∃ k, length ms = S k) as [k Hk] by (destruct ms as [|x ms]; [done|by exists (length ms)]).
  replace (length p + S (length args) + length ms - 1) with (length p + length args + length ms) by lia.
  replace (length p + length args + length ms + 1 - length ms - length p) with (S (length args)) by lia.
  replace (length ms - 1) with k by lia. rewrite Hk.
  assert (realloc Unset (length p + length args + S k + 1) ((Str <$> p) ++ Str s :: (Str <$> args) ++ [Null]) =
    ((Str <$> p) ++ [Str s]) ++ ((Str <$> args) ++ [Null]) ++ replicate k Unset ++ []) as ->.
  { set (l := (Str <$> p) ++ Str s :: _).
    assert (length l = length p + length args + 2) as Hl by (unfold l; rewrite !length_app; simpl; rewrite !length_app, !length_fmap; simpl; lia).
    replace (length p + length args + S k + 1) with (length l + k) by lia. rewrite realloc_grow. unfold l.
    by rewrite <- !app_assoc, app_nil_r, <- app_comm_cons, <- app_assoc. }
  destruct (move_up_block ((Str <$> p) ++ [Str s]) ((Str <$> args) ++ [Null]) (replicate k Unset) []) as (u' & Hu' & E).
  rewrite !length_app, !length_fmap, length_replicate in E. cbn [length] in E.
  replace (length args + 1) with (S (length args)) in E by lia.
  replace (length p + 1 + S (length args) + k - 1) with (length p + length args + S k) in E by lia.
  rewrite E. cbn [mbind outcome_bind].
  assert (∃ E', length E' = k ∧ realloc None (length p + length args + S k + 1) (df ++ f :: (Some <$> fs) ++ e :: extra) =
    (df ++ [f]) ++ ((Some <$> fs) ++ [e]) ++ E' ++ []) as (E' & HE' & ->).
  { exists (realloc None k extra). split; [apply length_realloc|].
    replace (df ++ f :: (Some <$> fs) ++ e :: extra) with ((df ++ f :: (Some <$> fs) ++ [e]) ++ extra)
      by (by rewrite <- app_assoc, <- app_comm_cons, <- app_assoc).
    rewrite realloc_keep by (rewrite length_app; simpl; rewrite length_app, length_fmap; simpl; lia).
    rewrite app_nil_r, <- !app_assoc. cbn [app]. rewrite <- app_assoc. do 5 f_equal.
    rewrite length_app. simpl. rewrite length_app, length_fmap. simpl. lia. }
  destruct (move_up_block (df ++ [f]) ((Some <$> fs) ++ [e]) E' []) as (v' & Hv' & F).
  rewrite !length_app, !length_fmap, HE' in F. cbn [length] in F.
  replace (length fs + 1) with (S (length args)) in F by lia.
  replace (length df + 1 + S (length args) + k - 1) with (length p + length args + S k) in F by lia.
  rewrite F. cbn [mbind outcome_bind].
  rewrite length_replicate in Hu'.
  pose proof (store_all_block (Str <$> p) (Str s :: u') ((Str <$> args) ++ [Null]) (Str <$> ms)) as S.
  rewrite !length_fmap in S. specialize (S ltac:(simpl; lia)).
  replace (((Str <$> p) ++ [Str s]) ++ u' ++ ((Str <$> args) ++ [Null]) ++ [])
    with ((Str <$> p) ++ (Str s :: u') ++ (Str <$> args) ++ [Null]) by (by rewrite app_nil_r, <- !app_assoc).
  rewrite S.
  cbn [mbind outcome_bind]. exists (df ++ [f] ++ v'). split; [rewrite !length_app; simpl; lia|].
  f_equal. f_equal; [f_equal; [lia|]|].
  - by rewrite fmap_app, <- app_assoc.
  - by rewrite <- !app_assoc.
Qed.

Lemma wildcard_loop_spec args : ∀ fs p df extra fuel, length df = length p → length fs = length args → extra ≠ [] →
  length args ≤ fuel →
  let words := p ++ concat (zip_with (expand_word glob) fs args) in
  wildcard_loop glob fuel (length p + length args) (length p) ((Str <$> p) ++ (Str <$> args) ++ [Null])
    (df ++ (Some <$> fs) ++ extra) = Ret (length words, (Str <$> words) ++ [Null]).
Proof.
  induction args as [|s args IH]; intros fs p df extra fuel Hdf Hfs Hex Hfuel words.
  - destruct fs; [|done]. unfold words. simpl. rewrite app_nil_r, Nat.add_0_r.
    destruct fuel; simpl; by rewrite bool_decide_eq_false_2 by lia.
  - destruct fs as [|f fs]; [done|]. destruct fuel as [|fuel]; [simpl in Hfuel; lia|]. simpl in Hfs, Hfuel.
    cbn [wildcard_loop length]. rewrite bool_decide_eq_true_2 by lia.
    assert (expand_word glob f s = [s] → wildcard_loop glob fuel (length p + S (length args)) (S (length p))
      ((Str <$> p) ++ (Str <$> s :: args) ++ [Null]) (df ++ (Some <$> f :: fs) ++ extra) = Ret (length words, (Str <$> words) ++ [Null]))
      as Hskip.
    { intros Hone. specialize (IH fs (p ++ [s]) (df ++ [Some f]) extra fuel).
      rewrite !length_app in IH. cbn [length] in IH. specialize (IH ltac:(lia) ltac:(lia) Hex ltac:(lia)).
      rewrite fmap_app, <- !app_assoc in IH. unfold words. cbn [zip_with concat]. rewrite Hone.
      replace (length p + S (length args)) with (length p + 1 + length args) by lia.
      replace (S (length p)) with (length p + 1) by lia. cbn [app] in IH |- *. exact IH. }
    assert (load (df ++ (Some <$> f :: fs) ++ extra) (length p) = Ret (Some f)) as -> by (rewrite <- Hdf; apply load_app).
    cbn [mbind outcome_bind].
    destruct f; [by apply Hskip|].
    assert (load ((Str <$> p) ++ (Str <$> s :: args) ++ [Null]) (length p) = Ret (Str s)) as ->.
    { rewrite <- (length_fmap Str p). apply load_app. }
    cbn [mbind outcome_bind]. destruct (has_wildcard s) eqn:Hw; [|apply Hskip; unfold expand_word; by rewrite Hw].
    destruct (glob s) as [ms|] eqn:Hg; [|apply Hskip; unfold expand_word; by rewrite Hw, Hg].
    destruct extra as [|e extra]; [done|].
    destruct (insert_matches_spec p s args df (Some false) fs e extra ms) as (df' & Hdf' & E); [by eapply glob_some|done|lia|].
    rewrite !fmap_cons, <- !app_comm_cons. rewrite E. cbn [mbind outcome_bind].
    specialize (IH fs (p ++ ms) df' [e] fuel). rewrite length_app in IH.
    specialize (IH ltac:(lia) ltac:(lia) ltac:(done) ltac:(lia)). cbn zeta in IH. rewrite IH.
    assert (expand_word glob false s = ms) as Hx by (unfold expand_word; by rewrite Hw, Hg).
    unfold words. cbn [zip_with concat]. rewrite Hx. by rewrite <- app_assoc.
Qed.
End spec.

(** C23: whatever the arguments and the files, the loop over the wildcards ends
    with the vector in which every argument that was not in quotes and has
    matches is replaced by them, in order, with NULL behind the last one.  Every
    access is inside the two vectors, and only arguments and flags that have a
    value are looked at; cells without one are at most moved along. *)
Theorem wildcards_spec (glob : text → option (list text)) name args first flags extra :
  (∀ s ms, glob s = Some ms → ms ≠ []) → length flags = length args → extra ≠ [] →
  let words := name :: concat (zip_with (expand_word glob) flags args) in
  wildcard_loop glob (length args) (S (length args)) 1 ((Str <$> name :: args) ++ [Null])
    ((Some <$> first :: flags) ++ extra) = Ret (length words, (Str <$> words) ++ [Null]).
Proof.
  intros Hg Hl He. apply (wildcard_loop_spec glob Hg args flags [name] [Some first] extra (length args)); done || lia.
Qed.

(** [ls *.c b 'x*'] with two matches. *)
Definition demo_glob (s : text) : option (list text) :=
  if bool_decide (s = chars "*.c") then Some [chars "a.c"; chars "z.c"] else None.

Lemma wildcards_spec_witness :
  wildcard_loop demo_glob 3 4 1 ((Str <$> [chars "ls"; chars "*.c"; chars "b"; chars "x*"]) ++ [Null])
    (Some <$> [false; false; false; true] ++ [false]) =
  Ret (5, (Str <$> [chars "ls"; chars "a.c"; chars "z.c"; chars "b"; chars "x*"]) ++ [Null]).
Proof.
  apply (wildcards_spec demo_glob (chars "ls") [chars "*.c"; chars "b"; chars "x*"] false [false; false; true] [Some false]).
  - intros s ms. unfold demo_glob. case_bool_decide; [by intros [= <-]|done].
  - done.
  - done.
Defined.

(** [ls *.c] with two matches: the loop that makes room starts with the cell
    behind the last flag, which was never stored, and copies it. *)
Theorem unassigned_flag_copied :
  let flags := [Some false; Some false; None; None] in
  load (realloc None 4 flags) 2 = Ret None ∧
  move_up 2 3 1 (realloc None 4 flags) = Ret [Some false; Some false; Some false; None].
Proof. split; by vm_compute. Qed.
