(* ===== verification/Scripts.v ===== *)
(** * Looking up commands ([src/ios_system.m])

    Before a command is taken for one of its own, [ios_system] searches the
    directories of [PATH] for a file of its name: bitcode and WebAssembly run
    under an interpreter, scripts under the one of their first line, which are
    put in front of the vector of arguments.
    - The file system is given by the section's variables: what exists, what
      [stat] and [open] can reach, the bytes of files, how Foundation decodes
      them (its result in UTF-8) and appends a name to a directory.
    - Vectors are lists of cells, as in [Wildcards]; the path that is copied into
      the vector is measured in UTF-16 units ([Aliases.utf16_length]) and
      written in bytes.
    - The first directory with a script of the name decides, and the command
      becomes the interpreter with its options, the path and the arguments
      ([lookup_script]).
    - The vector is too short for bitcode ([bitcode_overruns]) and has no [NULL]
      behind the last argument for WebAssembly ([wasm_unterminated]); a first
      line that ends behind [env] raises an exception ([env_alone]), two spaces
      behind it name an empty interpreter ([env_two_spaces]); a text that starts
      with the line [asm] is taken for WebAssembly ([asm_text]). *)

From Stdlib Require Import Ascii.
From S2P Require Import Prelude Quoting Substitution Arguments Paths Variables Redirections Aliases Wildcards.

(** ** Words in front of the vector *)

(** [argv\[i\] = realloc(argv\[i\], path.length + 1); strcpy(argv\[i\], path)]. *)
Definition copy_path (argv : list cell) (i : nat) (path : text) : outcome (list cell) :=
  if bool_decide (length path ≤ utf16_length path) then store argv i (Str path) else Undef OutOfBounds.

(** The vector gets [size] cells, [count] of them move up from [top] on. *)
Definition put_in_front (size count top : nat) (words : list text) (path : text) (argv : list cell) : outcome (list cell) :=
  let argv := realloc Unset size argv in
  argv ← move_up count top (length words) argv;
  argv ← copy_path argv (length words) path;
  store_all argv 0 (Str <$> words).

(** What the code does for [.bc] and [.ll], for [.wasm] and [.wasm3], for scripts,
    and for files with the signature of WebAssembly. *)
Definition run_bitcode (path : text) (argc : nat) (argv : list cell) : outcome (nat * list cell) :=
  let argc := argc + 1 in
  argv ← put_in_front argc argc argc [chars "lli"] path argv; Ret (argc, argv).
Definition run_suffix (interpreter path : text) (argc : nat) (argv : list cell) : outcome (nat * list cell) :=
  let argc := argc + 1 in
  argv ← put_in_front (argc + 1) (argc - 1) (argc - 1) [interpreter] path argv; Ret (argc, argv).
Definition run_script (components : list text) (path : text) (argc : nat) (argv : list cell) : outcome (nat * list cell) :=
  let argc := argc + length components in
  argv ← put_in_front (argc + 1) (argc + 1 - length components) argc components path argv; Ret (argc, argv).
Definition run_signature (path : text) (argc : nat) (argv : list cell) : outcome (nat * list cell) :=
  let argc := argc + 1 in
  argv ← put_in_front (argc + 1) argc argc [chars "wasm"] path argv; Ret (argc, argv).

(** ** The first line *)

Definition HASH_BANG : text := chars "#!".

Definition first_line (fileContent : text) : text :=
  match strchr fileContent NEWLINE with Some n => take n fileContent | None => fileContent end.

(** [componentsSeparatedByCharactersInSet:] for the white space. *)
Fixpoint split_blanks (s current : text) : list text :=
  match s with
  | [] => [current]
  | c :: s => if is_blank c then current :: split_blanks s [] else split_blanks s (current ++ [c])
  end.

Definition rename_interpreter (name : text) : text :=
  if bool_decide (name = chars "sh") then chars "dash" else if bool_decide (name = chars "node") then chars "jsc" else name.

(** The last part of a path. *)
Definition script_name (path : text) : text := default [] (list.last (split path)).

(** [basename]. *)
Definition basename (s : text) : text :=
  if bool_decide (s = []) then DOT
  else
    let s := rev (skip_while (λ c, bool_decide (c = SLASH)) (rev s)) in
    if bool_decide (s = []) then [SLASH] else script_name s.

Definition MH_MAGIC_64 : text := ascii_of_nat <$> [207; 250; 237; 254].

(** The file system: the kind of a file ([Some true]: a directory), what [stat]
    and [open] reach, the resources of the application, the bytes of a file, the
    text Foundation makes of them, and [stringByAppendingPathComponent:]. *)
Class FileSystem := {
  file_exists : text → option bool;
  stat_ok : text → bool;
  open_ok : text → bool;
  in_bundle : text → bool;
  content : text → text;
  decode : text → option text;
  path_component : text → text → text }.

Section lookup.
Context `{FileSystem} (home : text).

(** Neither empty nor a Mach-O binary. *)
Definition isRealCommand (fileName : text) : bool :=
  stat_ok fileName && bool_decide (content fileName ≠ []) && open_ok fileName &&
  bool_decide (4 ≤ length (content fileName)) && bool_decide (take 4 (content fileName) ≠ MH_MAGIC_64).

(** The first of these files of a directory. *)
Definition first_file (directory name : text) (suffixes : list text) : option text :=
  head (filter (λ f, file_exists f = Some false) ((λ suffix, path_component directory name ++ suffix) <$> suffixes)).

(** The three characters behind a NUL; a shorter text raises an exception. *)
Definition signature (data fileContent : text) : outcome (option text) :=
  if bool_decide (head data = Some NUL) then
    if bool_decide (utf16_length fileContent < 4) then Undef OutOfBounds else Ret (Some (take 3 (drop 1 fileContent)))
  else Ret None.

(** A WebAssembly file with the name of an interpreter. *)
Fixpoint beforeScriptCommandName (directoriesInPath : list text) (scriptName : text) : outcome (option text) :=
  match directoriesInPath with
  | [] => Ret None
  | directory :: directoriesInPath =>
      if bool_decide (file_exists directory = Some true) then
        match first_file directory scriptName [[]; chars ".wasm3"; chars ".wasm"] with
        | None => beforeScriptCommandName directoriesInPath scriptName
        | Some locationName =>
            if negb (in_bundle directory) && negb (stat_ok locationName)
            then beforeScriptCommandName directoriesInPath scriptName
            else if negb (isRealCommand locationName) then Ret None
            else
              sig ← (match decode (content locationName) with
                     | Some fileContent => signature (content locationName) fileContent
                     | None => Ret None
                     end);
              if bool_decide (sig = Some (chars "asm")) then Ret (Some (chars "wasm " ++ locationName))
              else beforeScriptCommandName directoriesInPath scriptName
        end
      else beforeScriptCommandName directoriesInPath scriptName
  end.

(** The words of the first line; an index behind the last component raises an
    exception. *)
Definition script_components (directoriesInPath : list text) (firstLine : text) : outcome (list text) :=
  let components := split_blanks (trim_whitespace (drop 2 firstLine)) [] in
  let components := if ends_with (chars "env") (default [] (head components)) then drop 1 components else components in
  match components with
  | [] => Undef OutOfBounds
  | scriptNameString :: options =>
      let scriptNameString := rename_interpreter (script_name scriptNameString) in
      before ← beforeScriptCommandName directoriesInPath scriptNameString;
      Ret (match before with
           | None => scriptNameString :: options
           | Some beforeCommand => split_blanks beforeCommand [] ++ options
           end)
  end.

(** The file of a command in a directory. *)
Definition candidate (directory commandName : text) : option text :=
  first_file directory commandName [[]; chars ".bc"; chars ".ll"; chars ".wasm3"; chars ".wasm"].

(** What a directory gives: the search goes on or has ended. *)
Inductive look : Type :=
  | GoOn (cmdIsReal : bool)
  | Stop (cmdIsReal : bool) (argc : nat) (argv : list cell).

Definition stop_with (cmdIsReal : bool) (r : outcome (nat * list cell)) : outcome look :=
  '(argc, argv) ← r; Ret (Stop cmdIsReal argc argv).

Definition look_in (allDirectories : list text) (cmdIsAFile : bool) (commandName directory : text) (cmdIsReal : bool)
    (argc : nat) (argv : list cell) : outcome look :=
  if bool_decide (file_exists directory = Some true) then
    let file := if cmdIsAFile then Some commandName
                else match candidate directory commandName with
                     | Some f => if in_bundle directory || stat_ok f then Some f else None
                     | None => None
                     end in
    match file with
    | None => Ret (GoOn cmdIsReal)
    | Some locationName =>
        let go_on real := if cmdIsAFile then Ret (Stop real argc argv) else Ret (GoOn real) in
        if ends_with (chars ".bc") locationName || ends_with (chars ".ll") locationName
        then stop_with cmdIsReal (run_bitcode locationName argc argv)
        else if ends_with (chars ".wasm") locationName
        then stop_with cmdIsReal (run_suffix (chars "wasm") locationName argc argv)
        else if ends_with (chars ".wasm3") locationName
        then stop_with cmdIsReal (run_suffix (chars "wasm3") locationName argc argv)
        else if isRealCommand locationName then
          match decode (content locationName) with
          | None => go_on true
          | Some fileContent =>
              if begins HASH_BANG (first_line fileContent) then
                components ← script_components allDirectories (first_line fileContent);
                stop_with true (run_script components locationName argc argv)
              else
                sig ← signature (content locationName) fileContent;
                if bool_decide (default (first_line fileContent) sig = chars "asm")
                then stop_with true (run_signature locationName argc argv)
                else go_on true
          end
        else go_on false
    end
  else Ret (GoOn cmdIsReal).

Fixpoint search_path (allDirectories : list text) (cmdIsAFile : bool) (commandName : text) (directoriesInPath : list text) (cmdIsReal : bool)
    (argc : nat) (argv : list cell) : outcome (bool * nat * list cell) :=
  match directoriesInPath with
  | [] => Ret (cmdIsReal, argc, argv)
  | directory :: directoriesInPath =>
      r ← look_in allDirectories cmdIsAFile commandName directory cmdIsReal argc argv;
      match r with
      | Stop real argc argv => Ret (real, argc, argv)
      | GoOn real => search_path allDirectories cmdIsAFile commandName directoriesInPath real argc argv
      end
  end.

(** The whole look-up for the command [argv0] of a vector. *)
Definition find_command_file (directoriesInPath : list text) (argv0 : text) (argc : nat) (argv : list cell)
    : outcome (nat * list cell) :=
  if begins [BACKSLASH] argv0 then argv ← store argv 0 (Str (drop 1 argv0)); Ret (argc, argv)
  else
    let commandName := if begins (chars "~/") argv0 then home ++ drop 1 argv0 else argv0 in
    let cmdIsAFile := bool_decide (file_exists commandName = Some false) && stat_ok commandName in
    let cmdIsReal := cmdIsAFile && isRealCommand commandName in
    let cmdIsAPath := bool_decide (SLASH ∈ commandName) in
    '(cmdIsReal, argc, argv) ←
      (if negb cmdIsAPath || cmdIsAFile then search_path directoriesInPath cmdIsAFile commandName directoriesInPath cmdIsReal argc argv
       else Ret (cmdIsReal, argc, argv));
    if negb cmdIsReal || (cmdIsAPath && negb cmdIsAFile) then
      c ← load argv 0;
      match c with
      | Str s => argv ← store argv 0 (Str (basename s)); Ret (argc, argv)
      | _ => Undef NullDeref
      end
    else Ret (argc, argv).

(** ** The vector *)

Lemma copy_path_ok argv i path : ascii_text path → i < length argv → copy_path argv i path = Ret (<[i := Str path]> argv).
Proof. intros Ha Hi. unfold copy_path. rewrite bool_decide_eq_true_2 by (by rewrite utf16_ascii). unfold store. by rewrite bool_decide_eq_true_2. Qed.

(** Any words fit in front of a vector that is terminated. *)
Lemma run_script_ok words path name args : words ≠ [] → ascii_text path →
  run_script words path (S (length args)) ((Str <$> name :: args) ++ [Null]) =
  Ret (length words + S (length args), (Str <$> words ++ path :: args) ++ [Null]).
Proof.
  intros Hw Ha. unfold run_script, put_in_front. cbn zeta.
  assert (∃ k, length words = S k) as [k Hk] by (destruct words as [|x ms]; [done|by exists (length ms)]).
  set (l := (Str <$> name :: args) ++ [Null]).
  assert (length l = length args + 2) as Hl by (unfold l; rewrite length_app, length_fmap; simpl; lia).
  replace (S (length args) + length words + 1) with (length l + length words) by lia. rewrite realloc_grow.
  replace (length l + length words - length words) with (length l) by lia.
  destruct (move_up_block [] l (replicate (length words) Unset) []) as (u & Hu & E).
  rewrite length_replicate in Hu, E. cbn [length] in E. rewrite !app_nil_l, !app_nil_r in E.
  replace (0 + length l + length words - 1) with (S (length args) + length words) in E by lia.
  rewrite E. cbn [mbind outcome_bind].
  rewrite copy_path_ok by (rewrite ?length_app; lia || done). cbn [mbind outcome_bind].
  assert (<[length words := Str path]> (u ++ l) = u ++ (Str <$> path :: args) ++ [Null]) as ->.
  { rewrite insert_app_r_alt by lia. by rewrite Hu, Nat.sub_diag. }
  pose proof (store_all_block [] u ((Str <$> path :: args) ++ [Null]) (Str <$> words)) as S.
  cbn [app length] in S. rewrite length_fmap in S. rewrite S by done. cbn [mbind outcome_bind].
  do 2 f_equal; [lia|]. by rewrite fmap_app, <- app_assoc.
Qed.
End lookup.

(** ** The words of the first line *)

Definition line_word (w : text) : Prop := w ≠ [] ∧ Forall (λ c, is_blank c = false ∧ c ≠ NEWLINE) w.

(** The interpreter of a first line of words and its options. *)
Definition interpreter (i : text) (options : list text) : option (text * list text) :=
  if ends_with (chars "env") i then
    match options with [] => None | c :: options => Some (rename_interpreter (script_name c), options) end
  else Some (rename_interpreter (script_name i), options).

(** The words it stands for. *)
Definition interpreter_words (name : text) (before : option text) : list text :=
  match before with None => [name] | Some wasm => split_blanks wasm [] end.

Lemma line_word_ends w : line_word w → (∃ c t, w = c :: t ∧ is_blank c = false) ∧ (∃ t c, w = t ++ [c] ∧ is_blank c = false).
Proof.
  intros [Hn Hw]. split.
  - destruct w as [|c t]; [done|]. exists c, t. by apply Forall_cons_1 in Hw as [[? _] _].
  - destruct w as [|c t _] using rev_ind; [done|]. exists t, c. by apply Forall_app in Hw as [_ [[? _] _]%Forall_cons_1].
Qed.

Lemma split_blanks_word w rest current : Forall (λ c, is_blank c = false ∧ c ≠ NEWLINE) w →
  split_blanks (w ++ SPACE :: rest) current = (current ++ w) :: split_blanks rest [] ∧ split_blanks w current = [current ++ w].
Proof.
  intros Hw. revert current. induction Hw as [|c w [Hc _] _ IH]; intros current; [by rewrite app_nil_r|].
  cbn [app split_blanks]. rewrite Hc. destruct (IH (current ++ [c])) as [-> ->]. by rewrite <- app_assoc.
Qed.

Lemma split_blanks_join ws : Forall line_word ws → ws ≠ [] → split_blanks (join ws) [] = ws.
Proof.
  induction 1 as [|w ws [_ Hw] Hws IH]; [done|]. intros _. destruct (decide (ws = [])) as [-> |Hne].
  - by apply (split_blanks_word w [] []).
  - rewrite join_line_cons by done. destruct (split_blanks_word w (join ws) [] Hw) as [-> _]. by rewrite IH.
Qed.

Lemma skip_blanks b s : Forall (λ c, is_blank c = true) b → skip_while is_blank (b ++ s) = skip_while is_blank s.
Proof. induction 1 as [|c b Hc _ IH]; simpl; [done|]. by rewrite Hc. Qed.

Lemma trim_line b ws : Forall (λ c, is_blank c = true) b → Forall line_word ws → ws ≠ [] →
  trim_whitespace (b ++ join ws) = join ws.
Proof.
  intros Hb Hws Hne. unfold trim_whitespace. rewrite skip_blanks by done.
  assert (∃ c t, join ws = c :: t ∧ is_blank c = false) as (c & t & E & Hc).
  { destruct ws as [|w ws]; [done|]. apply Forall_cons_1 in Hws as [[(c & t & -> & Hc) _]%line_word_ends _].
    destruct ws; simpl; by eexists _, _. }
  assert (∃ t c, join ws = t ++ [c] ∧ is_blank c = false) as (t' & c' & E' & Hc').
  { destruct ws as [|w ws _] using rev_ind; [done|].
    apply Forall_app in Hws as [_ [[_ (t' & c' & -> & Hc')]%line_word_ends _]%Forall_cons_1].
    destruct (decide (ws = [])) as [-> |Hw]; [by eexists _, _|]. rewrite join_app by done. simpl.
    rewrite app_comm_cons, app_assoc. by eexists _, _. }
  rewrite E. cbn [skip_while]. rewrite Hc. cbn [trim_end]. f_equal. rewrite E in E'.
  destruct t as [|d t _] using rev_ind; [done|]. rewrite app_comm_cons in E'. apply app_inj_tail in E' as [_ ->].
  rewrite rev_app_distr. simpl. rewrite Hc'. simpl. by rewrite rev_involutive.
Qed.

Lemma first_line_words b ws rest : Forall (λ c, is_blank c = true) b → Forall line_word ws →
  first_line (HASH_BANG ++ b ++ join ws ++ NEWLINE :: rest) = HASH_BANG ++ b ++ join ws.
Proof.
  intros Hb Hws. unfold first_line. rewrite !(app_assoc _ _ (NEWLINE :: rest)).
  assert (NEWLINE ∉ join ws) as Hj.
  { induction Hws as [|w ws [_ Hw] Hws IH]; [by apply not_elem_of_nil|].
    assert (NEWLINE ∉ w) as Hn by (intros Hin; by destruct (proj1 (list.Forall_forall _ _) Hw _ Hin)).
    destruct (decide (ws = [])) as [-> |Hne]; [done|]. rewrite join_line_cons by done.
    rewrite not_elem_of_app, not_elem_of_cons. by split_and!. }
  assert (NEWLINE ∉ b) as Hnb by (intros Hin; by pose proof (proj1 (list.Forall_forall _ _) Hb _ Hin)).
  rewrite strchr_first; [by rewrite take_app_length|]. rewrite !not_elem_of_app. split_and!; [|done|done].
  by apply (bool_decide_unpack _).
Qed.

Section look_up.
Context `{FileSystem}.

Lemma script_components_words ds b i options n others before :
  Forall (λ c, is_blank c = true) b → Forall line_word (i :: options) →
  interpreter i options = Some (n, others) → beforeScriptCommandName ds n = Ret before →
  script_components ds (HASH_BANG ++ b ++ join (i :: options)) = Ret (interpreter_words n before ++ others).
Proof.
  intros Hb Hws Hi Hbefore. unfold script_components. change (drop 2 (HASH_BANG ++ b ++ join (i :: options))) with (b ++ join (i :: options)).
  rewrite trim_line, split_blanks_join by done. cbn [head from_option id]. unfold interpreter in *.
  destruct (ends_with _ i).
  - destruct options as [|c options]; [done|]. change (drop 1 (i :: c :: options)) with (c :: options). cbn iota beta zeta.
    injection Hi as -> ->. rewrite Hbefore. by destruct before.
  - injection Hi as -> ->. cbn zeta. rewrite Hbefore. by destruct before.
Qed.

Lemma split_blanks_cons s current : split_blanks s current ≠ [].
Proof. revert current. induction s as [|c s IH]; intros current; simpl; [done|]. by destruct (is_blank c). Qed.

Lemma interpreter_words_cons n before others : interpreter_words n before ++ others ≠ [].
Proof. destruct before as [s|]; simpl; [|done]. pose proof (split_blanks_cons s []). by destruct (split_blanks s []). Qed.

(** A file that runs itself: no suffix of bitcode or WebAssembly. *)
Definition no_suffix (f : text) : Prop :=
  Forall (λ suffix, ends_with (chars suffix) f = false) [".bc"; ".ll"; ".wasm"; ".wasm3"]%string.

(** A directory of PATH whose file of the name, if there is one, does not stop
    the search: it cannot be reached, is empty or a Mach-O binary, or is a text
    without an interpreter. *)
Definition passed_over (name d : text) : Prop :=
  file_exists d ≠ Some true ∨ candidate d name = None ∨
  ∃ f, candidate d name = Some f ∧
    (in_bundle d || stat_ok f = false ∨
     no_suffix f ∧
     (isRealCommand f = false ∨
      ∃ t, decode (content f) = Some t ∧ begins HASH_BANG (first_line t) = false ∧
        head (content f) ≠ Some NUL ∧ first_line t ≠ chars "asm")).

(** The file a command stands for: itself, when it is a file and PATH has any
    directory, or the first one in PATH that is not passed over. *)
Inductive chosen (ds : list text) (name : text) : text → Prop :=
  | chosen_itself d : file_exists name = Some false → stat_ok name = true → d ∈ ds → file_exists d = Some true → chosen ds name name
  | chosen_in_path ds1 d ds2 f : SLASH ∉ name → file_exists name ≠ Some false → ds = ds1 ++ d :: ds2 →
      Forall (passed_over name) ds1 → file_exists d = Some true → candidate d name = Some f →
      in_bundle d || stat_ok f = true → chosen ds name f.

Lemma passed_over_goes_on ds name d real argc argv : passed_over name d →
  ∃ real', look_in ds false name d real argc argv = Ret (GoOn real').
Proof.
  intros Hd. unfold look_in. case_bool_decide as Hdir; [|by eexists].
  destruct Hd as [?|[->|(f & -> & [->|[Hs Hf]])]]; [done|by eexists|by eexists|].
  destruct (in_bundle d || stat_ok f); [|by eexists]. cbn zeta.
  unfold no_suffix in Hs. do 4 (apply Forall_cons_1 in Hs as [-> Hs]). cbn [orb].
  destruct Hf as [->|(t & Ht & Hb & Hn & Ha)]; [by eexists|]. destruct (isRealCommand f); [|by eexists].
  rewrite Ht, Hb. unfold signature. rewrite bool_decide_eq_false_2 by done. cbn [mbind outcome_bind default from_option id].
  rewrite bool_decide_eq_false_2 by done. by eexists.
Qed.
End look_up.

(** What runs a script. *)
Record script `{FileSystem} (ds : list text) (loc : text) (words : list text) : Prop := {
  sc_suffix : no_suffix loc;
  sc_real : isRealCommand loc = true;
  sc_ascii : ascii_text loc;
  sc_words : ∃ b i options n others before rest,
    decode (content loc) = Some (HASH_BANG ++ b ++ join (i :: options) ++ NEWLINE :: rest) ∧
    Forall (λ c, is_blank c = true) b ∧ Forall line_word (i :: options) ∧ interpreter i options = Some (n, others) ∧
    beforeScriptCommandName ds n = Ret before ∧ words = interpreter_words n before ++ others }.

Lemma look_in_script `{FileSystem} (ds : list text) (is_file : bool) (name d : text) (real : bool) (loc : text)
    (words args : list text) (arg0 : text) : file_exists d = Some true → script ds loc words →
  (if is_file then loc = name else candidate d name = Some loc ∧ in_bundle d || stat_ok loc = true) →
  look_in ds is_file name d real (S (length args)) ((Str <$> arg0 :: args) ++ [Null]) =
  Ret (Stop true (length (words ++ loc :: args)) ((Str <$> words ++ loc :: args) ++ [Null])).
Proof.
  intros Hd [Hsuf Hreal Hasc (b & i & options & n & others & before & rest & Hcont & Hb & Hws & Hint & Hbefore & ->)] Hloc.
  unfold look_in. rewrite bool_decide_eq_true_2 by done.
  assert ((if is_file then Some name else match candidate d name with
    | Some f => if in_bundle d || stat_ok f then Some f else None | None => None end) = Some loc) as ->.
  { destruct is_file; [by subst|]. by destruct Hloc as [-> ->]. }
  cbn zeta. unfold no_suffix in Hsuf. do 4 (apply Forall_cons_1 in Hsuf as [-> Hsuf]). cbn [orb]. rewrite Hreal, Hcont.
  rewrite first_line_words by done. replace (begins HASH_BANG (HASH_BANG ++ b ++ join (i :: options))) with true
    by (symmetry; apply begins_app).
  rewrite (script_components_words ds b i options n others before) by done. cbn [mbind outcome_bind].
  rewrite run_script_ok by (done || apply interpreter_words_cons). cbn [mbind outcome_bind stop_with].
  by rewrite (length_app (_ ++ _)).
Qed.

(** C18: a command that does not start with a backslash or ~/ stands for a file:
    itself, when it is a file (and PATH has a directory), else, when it has no
    slash, the first file of its name in PATH, alone or with a suffix, that is
    not unreachable, empty, a Mach-O binary or a text without an interpreter.
    When that file has an ASCII path and is a script, one whose first line is #!
    with an interpreter and options, the vector becomes the interpreter - for
    env the next word - without its directory, with dash for sh and jsc for node,
    or wasm and its file when PATH has it as WebAssembly, then its options, the
    path of the script and the arguments, with NULL behind them. *)
Theorem lookup_script `{FileSystem} home ds name args loc words :
  head name ≠ Some BACKSLASH → begins (chars "~/") name = false →
  chosen ds name loc → script ds loc words →
  find_command_file home ds name (S (length args)) ((Str <$> name :: args) ++ [Null]) =
  Ret (length (words ++ loc :: args), (Str <$> words ++ loc :: args) ++ [Null]).
Proof.
  intros Hbs Htilde Hch Hsc. unfold find_command_file.
  replace (begins [BACKSLASH] name) with false.
  2: { symmetry. apply bool_decide_eq_false. destruct name as [|y t]; [done|]. simpl. intros [= ->]. done. }
  rewrite Htilde. cbn zeta. destruct Hch as [d Hf Hst Hin Hd|ds1 d ds2 f Hsl Hnf -> Hds1 Hd Hc Hst].
  - rewrite (bool_decide_eq_true_2 (file_exists name = _)), Hst by done. cbn [andb].
    assert (∀ all real, script all name words → search_path all true name ds real (S (length args)) ((Str <$> name :: args) ++ [Null]) =
      Ret (true, length (words ++ name :: args), (Str <$> words ++ name :: args) ++ [Null])) as Hs.
    2: { rewrite orb_true_r, (Hs ds _ Hsc). cbn [mbind outcome_bind negb orb]. by rewrite andb_false_r. }
    intros all real Hall. clear Hsc. induction ds as [|d1 ds IH]; [by apply not_elem_of_nil in Hin|]. cbn [search_path].
    destruct (decide (file_exists d1 = Some true)) as [Hd1|Hd1].
    + by rewrite (look_in_script all true name d1 real name words args name Hd1 Hall).
    + unfold look_in at 1. rewrite bool_decide_eq_false_2 by done. cbn [mbind outcome_bind].
      apply IH. apply elem_of_cons in Hin as [-> |Hin]; done.
  - rewrite (bool_decide_eq_false_2 (file_exists name = _)), (bool_decide_eq_false_2 (SLASH ∈ name)) by done. cbn [andb negb orb].
    assert (∀ all real, script all f words →
      search_path all false name (ds1 ++ d :: ds2) real (S (length args)) ((Str <$> name :: args) ++ [Null]) =
      Ret (true, length (words ++ f :: args), (Str <$> words ++ f :: args) ++ [Null])) as Hs.
    2: by rewrite (Hs (ds1 ++ d :: ds2) _ Hsc).
    intros all real Hall. clear Hsc. revert real. induction Hds1 as [|d1 ds1 Hd1 _ IH]; intros real; cbn [app search_path].
    + by rewrite (look_in_script all false name d real f words args name Hd Hall).
    + destruct (passed_over_goes_on all name d1 real (S (length args)) ((Str <$> name :: args) ++ [Null]) Hd1) as [real' ->].
      apply IH.
Qed.

(** [hg st] with the script [/bin/hg], found in the second directory; the
    interpreter [python] is the WebAssembly file [/sbin/python.wasm]. *)
Definition demo_exists (f : text) : option bool :=
  if bool_decide (f = chars "/sbin" ∨ f = chars "/bin") then Some true
  else if bool_decide (f = chars "/bin/hg" ∨ f = chars "/sbin/python.wasm") then Some false else None.
Definition demo_script : text := chars "#! /usr/bin/env python -u" ++ NEWLINE :: chars "print".
Definition demo_files (script wasm : text) : FileSystem := {|
  file_exists := demo_exists; stat_ok _ := true; open_ok _ := true; in_bundle _ := false;
  content f := if bool_decide (f = chars "/bin/hg") then script else wasm;
  decode s := Some s; path_component d f := d ++ SLASH :: f |}.
Definition demo_system : FileSystem := demo_files demo_script (NUL :: chars "asm...").

Lemma lookup_script_witness :
  find_command_file (H := demo_system) [] [chars "/sbin"; chars "/bin"] (chars "hg") 2 ((Str <$> [chars "hg"; chars "st"]) ++ [Null]) =
  Ret (5, (Str <$> [chars "wasm"; chars "/sbin/python.wasm"; chars "-u"; chars "/bin/hg"; chars "st"]) ++ [Null]).
Proof.
  apply (lookup_script (H := demo_system) [] [chars "/sbin"; chars "/bin"] (chars "hg") [chars "st"] (chars "/bin/hg")
    [chars "wasm"; chars "/sbin/python.wasm"; chars "-u"]); [done|by vm_compute|..].
  - apply (chosen_in_path (H := demo_system) _ _ [chars "/sbin"] (chars "/bin") []); try done.
    + by apply (bool_decide_unpack _).
    + apply Forall_singleton. right. left. by vm_compute.
  - split; [repeat constructor|by vm_compute|by apply (bool_decide_unpack _)|].
    exists [SPACE], (chars "/usr/bin/env"), [chars "python"; chars "-u"], (chars "python"), [chars "-u"],
      (Some (chars "wasm /sbin/python.wasm")), (chars "print").
    split_and!; try (by vm_compute); [by repeat constructor|].
    repeat (apply Forall_cons_2; [split; [done|repeat constructor; done]|]). apply Forall_nil_2.
Defined.

(** ** What goes wrong *)

(** [clang] bitcode: the vector is enlarged by one cell too few. *)
Theorem bitcode_overruns path name args :
  run_bitcode path (S (length args)) ((Str <$> name :: args) ++ [Null]) = Undef OutOfBounds.
Proof.
  unfold run_bitcode, put_in_front. cbn zeta. set (l := realloc _ _ _).
  assert (length l = S (length args) + 1) as Hl by apply length_realloc.
  replace (S (length args) + 1) with (S (S (length args))) by lia. cbn [move_up length].
  unfold load, store. destruct (l !! _) eqn:E; [|done]. cbn [mbind outcome_bind].
  by rewrite bool_decide_eq_false_2 by lia.
Qed.

(** WebAssembly found by its suffix: the cell behind the last argument has no
    value. *)
Theorem wasm_unterminated :
  run_suffix (chars "wasm") (chars "/bin/x.wasm") 2 ((Str <$> [chars "x"; chars "-v"]) ++ [Null]) =
  Ret (3, (Str <$> [chars "wasm"; chars "/bin/x.wasm"; chars "-v"]) ++ [Unset]).
Proof. by vm_compute. Qed.

(** A path with other than ASCII characters does not fit into its copy. *)
Theorem script_path_short :
  let path := chars "/bin/" ++ [ascii_of_nat 195; ascii_of_nat 169] in
  run_script [chars "python"] path 1 ((Str <$> [chars "x"]) ++ [Null]) = Undef OutOfBounds.
Proof. by vm_compute. Qed.

(** The line [#! /usr/bin/env] alone: the words are looked at after the only one
    was removed. *)
Theorem env_alone `{FileSystem} ds : script_components ds (chars "#! /usr/bin/env") = Undef OutOfBounds.
Proof. by vm_compute. Qed.

(** Two spaces behind [env]: the interpreter has an empty name. *)
Theorem env_two_spaces `{FileSystem} : script_components [] (chars "#! /usr/bin/env  python") = Ret [[]; chars "python"].
Proof. by vm_compute. Qed.

(** A text file whose first line is [asm] runs as WebAssembly. *)
Theorem asm_text :
  find_command_file (H := demo_files (chars "asm" ++ NEWLINE :: chars "rest") []) [] [chars "/bin"] (chars "hg") 1
    ((Str <$> [chars "hg"]) ++ [Null]) = Ret (2, (Str <$> [chars "wasm"; chars "/bin/hg"]) ++ [Null]).
Proof. by vm_compute. Qed.
