(* ===== verification/Slots.v ===== *)
(** * Copies of interpreters ([src/ios_system.m])

    Several copies of Perl, TeX, ssh and Python can run at a time, each from a
    library of its own; the copies in use are marked in arrays of booleans.
    - [SlotPolicy] is what a way of choosing a copy promises: the copy was free,
      and there is none only if all are in use.  The copies in turn and the
      libraries of Python fulfil it ([slots_exclusive]): the copies held are
      distinct and exactly the marked ones.
    - Perl and TeX take the copies in turn first and then search
      ([rotate_policy]); [ios_getPythonLibraryName] tests its copy in turn
      ([library_policy]).
    - ssh waits: it looks again and again for a second.  Without success it marks
      the first copy anyway ([ssh_marks_after_timeout]).
    - The names of the libraries determine the copies
      ([python_library_roundtrip]); the pool of [ios_interp_acquire] hands out the
      same libraries without looking at the marks ([libraries_clash]). *)

From Stdlib Require Import Ascii.
From S2P Require Import Prelude Quoting.

Record slots := Slots {
  current : nat;              (* [currentPerlInterpreter] *)
  running : list bool;        (* [PerlIsRunning] *)
  number : nat }.             (* [numPerlInterpreters] *)

Definition set_running (l : list bool) (s : slots) : slots := Slots (current s) l (number s).

(** The search from the first copy; [number] when there is none. *)
Fixpoint search (l : list bool) (i k : nat) : outcome nat :=
  match k with
  | 0 => Ret i
  | S k =>
      match l !! i with
      | None => Undef OutOfBounds
      | Some false => Ret i
      | Some true => search l (S i) k
      end
  end.

Definition mark (i : nat) (s : slots) : outcome (option nat * slots) :=
  if bool_decide (i < number s) then
    if bool_decide (i < length (running s)) then Ret (Some i, set_running (<[i := true]> (running s)) s) else Undef OutOfBounds
  else Ret (None, s).

(** Perl and TeX. *)
Definition take_in_turn (s : slots) : outcome (option nat * slots) :=
  if bool_decide (current s < number s) then mark (current s) (Slots (current s + 1) (running s) (number s))
  else i ← search (running s) 0 (number s); mark i s.

(** Python's libraries. *)
Definition take_library (s : slots) : outcome (option nat * slots) :=
  match (if bool_decide (current s < number s) then running s !! current s else Some true) with
  | None => Undef OutOfBounds
  | Some false => mark (current s) (Slots (current s + 1) (running s) (number s))
  | Some true =>
      i ← search (running s) 0 (number s);
      if bool_decide (number s ≤ i) then Ret (None, s) else mark i (Slots i (running s) (number s))
  end.

(** The end of the command, or [ios_releasePythonLibraryName]. *)
Definition give_back (i : nat) (s : slots) : slots := set_running (<[i := false]> (running s)) s.

(** ssh: [looks] are the marks that the rounds of the loop see; [None] is a
    command that was not started. *)
Fixpoint look_again (looks : list (list bool)) (k : nat) : outcome (option nat) :=
  match looks with
  | [] => Ret None
  | l :: looks => i ← search l 0 k; if bool_decide (i < k) then Ret (Some i) else look_again looks k
  end.

(** The copy that is marked, and whether the command starts. *)
Definition take_ssh (looks : list (list bool)) (s : slots) : outcome (bool * option nat * slots) :=
  if bool_decide (current s < number s) then
    '(i, s) ← mark (current s) (Slots (current s + 1) (running s) (number s)); Ret (true, i, s)
  else
    r ← look_again looks (number s);
    '(i, s) ← mark (default 0 r) s;
    Ret (bool_decide (is_Some r), i, s).

(** ** Names of libraries *)

Definition CAPITAL_A : nat := 65.

Definition library_name (numInterpreter : nat) : text :=
  if bool_decide (0 < numInterpreter) then chars "python" ++ [ascii_of_nat (CAPITAL_A + (numInterpreter - 1))]
  else chars "python3_ios".

Definition ios_getPythonLibraryName (s : slots) : outcome (option text * slots) :=
  '(i, s) ← take_library s; Ret (option_map library_name i, s).

(** The number in a name; [max] is the length of the array. *)
Definition library_number (max : nat) (name : text) : option nat :=
  match name !! 6 with
  | None => None
  | Some libNumber =>
      if bool_decide (libNumber = ascii_of_nat 51) then Some 0
      else
        let n := wrapS 8 (Z.of_nat (nat_of_ascii libNumber) - 64) in
        if bool_decide (0 < n < Z.of_nat max)%Z then Some (Z.to_nat n) else None
  end.

Definition ios_releasePythonLibraryName (name : text) (s : slots) : slots :=
  match library_number (length (running s)) name with Some i => give_back i s | None => s end.

(** The library of a Python command that got copy [numInterpreter] of the pool. *)
Definition pool_library (commandLibrary : text) (numInterpreter : nat) : text :=
  if bool_decide (0 < numInterpreter) then
    let commandName := chars "python" ++ [ascii_of_nat (CAPITAL_A + (numInterpreter - 1))] in
    commandName ++ chars ".framework/" ++ commandName
  else commandLibrary.

(** ** The promise *)

Definition fits (s : slots) : Prop := number s ≤ length (running s).

Class SlotPolicy (take : slots → outcome (option nat * slots)) (fresh : slots → Prop) : Prop := {
  take_some s i s' : fits s → fresh s → take s = Ret (Some i, s') →
    i < number s ∧ running s !! i = Some false ∧ running s' = <[i := true]> (running s) ∧ number s' = number s ∧ fresh s';
  take_none s s' : fits s → fresh s → take s = Ret (None, s') →
    (∀ i, i < number s → running s !! i = Some true) ∧ s' = s;
  take_defined s : fits s → fresh s → ∃ r, take s = Ret r;
  give_back_fresh s i : fresh s → running s !! i = Some true → fresh (give_back i s) }.

(** ** Histories *)

Inductive slot_call : Set := Take | GiveBack (k : nat).

(** The copies held, newest first; [GiveBack k] ends the [k]-th of them. *)
Definition slot_step (take : slots → outcome (option nat * slots)) (c : slot_call) (st : list nat * slots)
    : outcome (list nat * slots) :=
  let '(held, s) := st in
  match c with
  | Take => '(r, s) ← take s; Ret (option_list r ++ held, s)
  | GiveBack k => Ret (match held !! k with Some i => (delete k held, give_back i s) | None => (held, s) end)
  end.

Fixpoint slot_run (take : slots → outcome (option nat * slots)) (cs : list slot_call) (st : list nat * slots)
    : outcome (list nat * slots) :=
  match cs with
  | [] => Ret st
  | c :: cs => st ← slot_step take c st; slot_run take cs st
  end.

Record slots_inv (fresh : slots → Prop) (held : list nat) (s : slots) : Prop := {
  si_nodup : NoDup held;
  si_held i : i ∈ held ↔ running s !! i = Some true;
  si_fits : fits s;
  si_fresh : fresh s }.

Lemma search_ok l k : ∀ i, i + k ≤ length l → ∃ j, search l i k = Ret j ∧ i ≤ j ≤ i + k ∧
  (j < i + k → l !! j = Some false) ∧ (∀ m, i ≤ m < j → l !! m = Some true).
Proof.
  induction k as [|k IH]; intros i Hl; simpl; [exists i; split_and!; try lia; done|].
  destruct (lookup_lt_is_Some_2 l i) as [b Hb]; [lia|]. rewrite Hb. destruct b.
  - destruct (IH (S i)) as (j & -> & Hj & Hf & Ht); [lia|]. exists j. split_and!; [done|lia|lia|intros; apply Hf; lia|].
    intros m Hm. destruct (decide (m = i)) as [-> |]; [done|]. apply Ht. lia.
  - exists i. split_and!; [done|lia|lia|done|lia].
Qed.

Lemma mark_ok i s : fits s → i < number s → mark i s = Ret (Some i, set_running (<[i := true]> (running s)) s).
Proof. intros Hs Hi. unfold mark. by rewrite !bool_decide_eq_true_2 by (unfold fits in *; lia). Qed.

(** In turn: a copy whose turn has not come is not in use. *)
Definition not_yet (s : slots) : Prop := ∀ i, current s ≤ i < number s → running s !! i = Some false.

Global Instance rotate_policy : SlotPolicy take_in_turn not_yet.
Proof.
  split.
  - intros s i s' Hs Hf. unfold take_in_turn. case_bool_decide as Hc.
    + rewrite mark_ok by (done || simpl; lia). intros [= <- <-]. simpl.
      split_and!; [done|by apply Hf|done|done|]. intros j Hj. simpl in *. rewrite list_lookup_insert_ne by lia. apply Hf. lia.
    + destruct (search_ok (running s) (number s) 0 Hs) as (j & -> & Hj & Hfree & _). cbn [mbind outcome_bind].
      destruct (decide (j < number s)) as [Hlt|Hge].
      * rewrite mark_ok by done. intros [= <- <-]. split_and!; [done|by apply Hfree|done|done|]. intros k Hk. simpl in *. lia.
      * unfold mark. by rewrite bool_decide_eq_false_2.
  - intros s s' Hs Hf. unfold take_in_turn. case_bool_decide as Hc; [by rewrite mark_ok by (done || simpl; lia)|].
    destruct (search_ok (running s) (number s) 0 Hs) as (j & -> & Hj & Hfree & Ht). cbn [mbind outcome_bind].
    destruct (decide (j < number s)) as [Hlt|Hge]; [by rewrite mark_ok|].
    unfold mark. rewrite bool_decide_eq_false_2 by done. intros [= <-]. split; [|done]. intros i Hi. apply Ht. lia.
  - intros s Hs Hf. unfold take_in_turn. case_bool_decide as Hc; [eexists; by apply mark_ok|].
    destruct (search_ok (running s) (number s) 0 Hs) as (j & -> & _). cbn [mbind outcome_bind].
    unfold mark. case_bool_decide; [|by eexists]. rewrite bool_decide_eq_true_2 by (unfold fits in *; lia). by eexists.
  - intros s i Hf Hi j Hj. simpl in *. destruct (decide (i = j)) as [-> |].
    + apply list_lookup_insert_eq. by eapply lookup_lt_Some.
    + rewrite list_lookup_insert_ne by done. by apply Hf.
Qed.

Global Instance library_policy : SlotPolicy take_library (λ _, True).
Proof.
  assert (∀ s, fits s → take_library s =
    match (if bool_decide (current s < number s) then running s !! current s else Some true) with
    | Some false => Ret (Some (current s), Slots (current s + 1) (<[current s := true]> (running s)) (number s))
    | _ => i ← search (running s) 0 (number s);
           if bool_decide (number s ≤ i) then Ret (None, s) else Ret (Some i, Slots i (<[i := true]> (running s)) (number s))
    end) as Heq.
  { intros s Hs. unfold take_library. case_bool_decide as Hc.
    - destruct (lookup_lt_is_Some_2 (running s) (current s)) as [b Hb]; [unfold fits in *; lia|]. rewrite Hb. destruct b.
      + destruct (search_ok (running s) (number s) 0 Hs) as (j & -> & Hj & _). cbn [mbind outcome_bind].
        case_bool_decide; [done|]. by rewrite mark_ok by (done || simpl; lia).
      + by rewrite mark_ok by (done || simpl; lia).
    - destruct (search_ok (running s) (number s) 0 Hs) as (j & -> & Hj & _). cbn [mbind outcome_bind].
      case_bool_decide; [done|]. by rewrite mark_ok by (done || simpl; lia). }
  assert (∀ s, fits s → ∃ r, take_library s = Ret r ∧
    match r with
    | (Some i, s') => i < number s ∧ running s !! i = Some false ∧ running s' = <[i := true]> (running s) ∧ number s' = number s
    | (None, s') => (∀ i, i < number s → running s !! i = Some true) ∧ s' = s
    end) as Hall.
  { intros s Hs. rewrite Heq by done. destruct (search_ok (running s) (number s) 0 Hs) as (j & -> & Hj & Hf & Ht).
    cbn [mbind outcome_bind].
    assert (∃ r, (if bool_decide (number s ≤ j) then Ret (None, s) else Ret (Some j, Slots j (<[j := true]> (running s)) (number s))) = Ret r ∧
      match r with
      | (Some i, s') => i < number s ∧ running s !! i = Some false ∧ running s' = <[i := true]> (running s) ∧ number s' = number s
      | (None, s') => (∀ i, i < number s → running s !! i = Some true) ∧ s' = s
      end) as Hsearch.
    { case_bool_decide; eexists; (split; [done|]); [split; [intros i Hi; apply Ht; lia|done]|]. split_and!; [lia|apply Hf; lia|done|done]. }
    destruct (decide (current s < number s)) as [Hc|Hc]; [rewrite (bool_decide_eq_true_2 _ Hc)|rewrite (bool_decide_eq_false_2 _ Hc); exact Hsearch].
    destruct (running s !! current s) as [[]|] eqn:Hb; [exact Hsearch| |exact Hsearch].
    eexists. split; [done|]. by split_and!. }
  split.
  - intros s i s' Hs _ E. destruct (Hall s Hs) as (r & E' & H). rewrite E in E'. injection E' as <-. naive_solver.
  - intros s s' Hs _ E. destruct (Hall s Hs) as (r & E' & H). rewrite E in E'. by injection E' as <-.
  - intros s Hs _. destruct (Hall s Hs) as (r & E' & _). by exists r.
  - done.
Qed.

(** ** The histories *)

Section histories.
Context (take : slots → outcome (option nat * slots)) (fresh : slots → Prop) `{!SlotPolicy take fresh}.

Lemma slot_step_inv c held s : slots_inv fresh held s → ∃ held' s', slot_step take c (held, s) = Ret (held', s') ∧
  slots_inv fresh held' s' ∧ number s' = number s.
Proof.
  intros [Hn Hh Hs Hf]. destruct c as [|k]; simpl.
  - destruct (take_defined s Hs Hf) as [[r s'] E]. rewrite E. simpl. eexists _, _. split; [done|]. destruct r as [i|]; simpl.
    + destruct (take_some s i s' Hs Hf E) as (Hi & Hfree & Hr & Hnum & Hf'). split; [|done].
      assert (i ∉ held) as Hni by (rewrite Hh, Hfree; done). assert (i < length (running s)) as Hl by by eapply lookup_lt_Some.
      split; [by apply list.NoDup_cons| |unfold fits in *; by rewrite Hr, Hnum, length_insert|done].
      intros j. rewrite elem_of_cons, Hh, Hr. destruct (decide (j = i)) as [-> |Hne].
      * rewrite list_lookup_insert_eq by done. naive_solver.
      * rewrite list_lookup_insert_ne by done. naive_solver.
    + by destruct (take_none s s' Hs Hf E) as [_ ->].
  - destruct (held !! k) as [i|] eqn:Hk; [|by eexists _, _]. eexists _, _. split; [done|]. split; [|done].
    assert (i ∈ held) as Hin by by eapply list_elem_of_lookup_2.
    assert (running s !! i = Some true) as Hi by by apply Hh. assert (i < length (running s)) as Hl by by eapply lookup_lt_Some.
    assert (held ≡ₚ i :: delete k held) as Hperm by by apply delete_Permutation.
    assert (NoDup (i :: delete k held)) as [Hni Hnd]%list.NoDup_cons by by rewrite <- Hperm.
    assert (∀ x, x ∈ held ↔ x = i ∨ x ∈ delete k held) as Hmem by (intros x; rewrite <- elem_of_cons; by rewrite <- Hperm).
    split; [done| |unfold fits in *; simpl; by rewrite length_insert|by eapply give_back_fresh].
    intros j. simpl. destruct (decide (j = i)) as [-> |Hne].
    + rewrite list_lookup_insert_eq by done. naive_solver.
    + rewrite list_lookup_insert_ne, <- Hh, Hmem by done. naive_solver.
Qed.

Lemma slot_run_inv cs held s : slots_inv fresh held s → ∃ held' s', slot_run take cs (held, s) = Ret (held', s') ∧
  slots_inv fresh held' s' ∧ number s' = number s.
Proof.
  revert held s. induction cs as [|c cs IH]; intros held s H; cbn [slot_run]; [by eexists _, _|].
  destruct (slot_step_inv c held s H) as (held1 & s1 & -> & H1 & N1). cbn [mbind outcome_bind].
  destruct (IH held1 s1 H1) as (held2 & s2 & -> & H2 & N2). eexists _, _. split_and!; [done|done|congruence].
Qed.
End histories.

(** The two ways of choosing a copy. *)
Inductive way : Set := InTurn | ByLibrary.
Definition take_by (w : way) : slots → outcome (option nat * slots) :=
  match w with InTurn => take_in_turn | ByLibrary => take_library end.

(** The copies of Perl that [ios_system] takes in turn, and the libraries of
    [ios_getPythonLibraryName], in an application that allows no more copies than
    there are marks, from a state with none in use.  After every sequence of
    takes and ends no two of the copies held are the same, the marks are exactly
    the copies held, and nothing outside the array was read or written; a further
    take marks a copy that was not held, and it is refused only when all are. *)
Theorem slots_exclusive (w : way) cs s : number s ≤ length (running s) → (∀ i b, running s !! i = Some b → b = false) →
  ∃ held s', slot_run (take_by w) cs ([], s) = Ret (held, s') ∧ NoDup held ∧ (∀ i, i ∈ held ↔ running s' !! i = Some true) ∧
    match take_by w s' with
    | Ret (Some i, s'') => i < number s ∧ i ∉ held ∧ running s'' = <[i := true]> (running s')
    | Ret (None, s'') => (∀ i, i < number s → i ∈ held) ∧ s'' = s'
    | Undef _ => False
    end.
Proof.
  intros Hs Hidle.
  assert (∀ take fresh, SlotPolicy take fresh → fresh s → ∃ held s', slot_run take cs ([], s) = Ret (held, s') ∧ NoDup held ∧
    (∀ i, i ∈ held ↔ running s' !! i = Some true) ∧
    match take s' with
    | Ret (Some i, s'') => i < number s ∧ i ∉ held ∧ running s'' = <[i := true]> (running s')
    | Ret (None, s'') => (∀ i, i < number s → i ∈ held) ∧ s'' = s'
    | Undef _ => False
    end) as H.
  { intros take fresh HP Hf. destruct (slot_run_inv take fresh cs [] s) as (held & s' & E & [Hn Hh Hs' Hf'] & Hnum).
    { split; [by apply NoDup_nil_2| |done|done]. intros i. split; [by intros ?%not_elem_of_nil|]. by intros ?%Hidle. }
    exists held, s'. split_and!; [done|done|done|]. destruct (take_defined s' Hs' Hf') as [[r s''] E']. rewrite E', <- Hnum.
    destruct r as [i|].
    - destruct (take_some s' i s'' Hs' Hf' E') as (Hi & Hfree & Hr & _). split_and!; [done| |done]. by rewrite Hh, Hfree.
    - destruct (take_none s' s'' Hs' Hf' E') as [Hall ->]. split; [|done]. intros i Hi. by apply Hh, Hall. }
  destruct w; [eapply (H _ _ rotate_policy)|by eapply (H _ _ library_policy)].
  intros i Hi. destruct (lookup_lt_is_Some_2 (running s) i) as [b Hb]; [lia|]. by rewrite Hb, (Hidle i b Hb).
Qed.

(** The copies of Perl when the application starts. *)
Definition perl_start : slots := Slots 0 (replicate 4 false) 4.

Lemma slots_exclusive_witness :
  ∃ held s', slot_run take_in_turn [Take; Take; GiveBack 1; Take; Take; Take] ([], perl_start) = Ret (held, s') ∧
    held = [0; 3; 2; 1] ∧ NoDup held.
Proof.
  destruct (slots_exclusive InTurn [Take; Take; GiveBack 1; Take; Take; Take] perl_start) as (held & s' & E & Hn & _).
  - by apply (bool_decide_unpack _).
  - intros i b Hb. by apply (lookup_replicate_1 4) in Hb as [-> _].
  - exists held, s'. split_and!; [exact E| |exact Hn]. vm_compute in E. by injection E as <- _.
Defined.

(** the name ios_getPythonLibraryName makes of a copy gives the copy back in
    ios_releasePythonLibraryName, for every array of at most 26 copies. *)
Theorem python_library_roundtrip (s : slots) i : length (running s) ≤ 26 → i < length (running s) →
  ios_releasePythonLibraryName (library_name i) s = give_back i s.
Proof.
  intros Hl Hi. unfold ios_releasePythonLibraryName. revert Hi. generalize (length (running s)) Hl. intros max Hmax Hi.
  assert (library_number max (library_name i) = Some i) as ->; [|done].
  destruct (decide (i = 0)) as [-> |Hne]; [done|]. unfold library_name, library_number. rewrite bool_decide_eq_true_2 by lia.
  set (c := ascii_of_nat (CAPITAL_A + (i - 1))). change ((chars "python" ++ [c]) !! 6) with (Some c). cbv iota.
  assert (nat_of_ascii c = 64 + i) as Hc.
  { unfold c. rewrite nat_ascii_embedding; unfold CAPITAL_A; lia. }
  rewrite bool_decide_eq_false_2 by (intros E; rewrite E in Hc; vm_compute in Hc; lia).
  rewrite Hc, wrapS_small by lia. rewrite bool_decide_eq_true_2 by lia. f_equal. lia.
Qed.

Lemma python_library_roundtrip_witness :
  library_name 2 = chars "pythonB" ∧
  ios_releasePythonLibraryName (chars "pythonB") (Slots 0 [true; true; true] 3) = Slots 0 [true; true; false] 3.
Proof.
  split; [by vm_compute|]. apply (python_library_roundtrip (Slots 0 [true; true; true] 3) 2); simpl; lia.
Defined.

(** ** What goes wrong *)

(** The copies are in use whenever ssh looks, and then the first one is given
    back: the command is refused, but the first copy is marked, and as the
    refused command gives nothing back it stays so. *)
Theorem ssh_marks_after_timeout :
  take_ssh [[true; true]; [true; true]] (Slots 2 [false; true] 2) = Ret (false, Some 0, Slots 2 [true; true] 2).
Proof. by vm_compute. Qed.

(** A command gets the second copy of the pool, and a command that loads Python
    asks for a library: both get the same one. *)
Theorem libraries_clash :
  ∃ s, ios_getPythonLibraryName (Slots 1 (replicate 6 false) 6) = Ret (Some (chars "pythonA"), s) ∧
    pool_library (chars "python3_ios.framework/python3_ios") 1 = chars "pythonA.framework/pythonA".
Proof. eexists. split; by vm_compute. Qed.

(** An application that allows more copies than there are marks. *)
Theorem too_many_copies : take_in_turn (Slots 4 (replicate 4 true) 5) = Undef OutOfBounds.
Proof. by vm_compute. Qed.
