(* ===== verification/ChildStreams.v ===== *)
(** * Streams for the next command ([src/ios_system.m])

    A program that was written for [dup2], [fork] and [exec] or for [popen] sets
    the streams of the command it starts: [ios_dup2] and [ios_setChildStreams]
    store them in [child_stdin], [child_stdout] and [child_stderr], which the
    next [ios_system] takes, or [ios_activateChildStreams] makes the thread's own.
    - Streams are numbered; [files] has their descriptors, [fdopen] makes a new
      one on an open descriptor.
    - [dup2_spec]: what the stream of the next command writes to after a call;
      [redirect_both]: [dup2(fd, 1)] and [dup2(1, 2)] give one stream.
      [activate_restores]: activating gives back what is needed to undo it.
    - [ios_popen] hands one end of a buffered pipe to [ios_system] and returns the
      other; the pipe is alive or destroyed, and [ios_system] is an argument.
      When the command cannot be started the call is undefined, whatever
      [ios_system] does with the streams ([popen_failure_undefined]); when it is,
      the pipe is never destroyed ([popen_leaks]).
    - [dup2] of the descriptor of the thread's output to 2 is lost
      ([stderr_to_stdout_lost]); a second stream is opened on the descriptor of
      the child's output ([two_streams_one_descriptor]). *)

From Stdlib Require Import Ascii.
From S2P Require Import Prelude.

Local Open Scope Z_scope.

Definition stream_number : Type := nat.

Record streams := Streams {
  files : list Z;
  open_fds : gset Z;
  child_stdin : option stream_number;
  child_stdout : option stream_number;
  child_stderr : option stream_number;
  thread_stdin : option stream_number;
  thread_stdout : option stream_number;
  thread_stderr : option stream_number }.

Definition with_child (i o e : option stream_number) (s : streams) : streams :=
  Streams (files s) (open_fds s) i o e (thread_stdin s) (thread_stdout s) (thread_stderr s).
Definition set_child_stdin (f : option stream_number) (s : streams) : streams := with_child f (child_stdout s) (child_stderr s) s.
Definition set_child_stdout (f : option stream_number) (s : streams) : streams := with_child (child_stdin s) f (child_stderr s) s.
Definition set_child_stderr (f : option stream_number) (s : streams) : streams := with_child (child_stdin s) (child_stdout s) f s.

Definition fileno (s : streams) (f : stream_number) : Z := default (-1) (files s !! f).

(** [f != NULL && fileno(f) == fd]. *)
Definition is_on (s : streams) (f : option stream_number) (fd : Z) : bool :=
  match f with Some f => bool_decide (fileno s f = fd) | None => false end.

Definition fdopen (fd : Z) (s : streams) : option stream_number * streams :=
  if bool_decide (fd ∈ open_fds s) then
    (Some (length (files s)),
     Streams (files s ++ [fd]) (open_fds s) (child_stdin s) (child_stdout s) (child_stderr s)
       (thread_stdin s) (thread_stdout s) (thread_stderr s))
  else (None, s).

(** A stream of the child is opened on a descriptor. *)
Definition open_child (set : option stream_number → streams → streams) (fd : Z) (s : streams) : streams :=
  let '(f, s) := fdopen fd s in set f s.

(** The descriptors below 3 that stand for streams of the child. *)
Definition child_of (s : streams) (fd1 : Z) : option stream_number :=
  if bool_decide (fd1 = 0) then child_stdin s
  else if bool_decide (fd1 = 1) then child_stdout s
  else if bool_decide (fd1 = 2) then child_stderr s else None.

(** [fcntl] and [close] for other descriptors; [limit] is the number of
    descriptors a process can have. *)
Definition dup_descriptor (limit fd1 fd2 : Z) (s : streams) : Z * streams :=
  if bool_decide (fd1 ∉ open_fds s) then (-1, s)
  else if bool_decide (0 ≤ fd2 < limit) then
    (fd2, Streams (files s) ({[ fd2 ]} ∪ open_fds s) (child_stdin s) (child_stdout s) (child_stderr s)
       (thread_stdin s) (thread_stdout s) (thread_stderr s))
  else (-1, s).

Definition ios_dup2 (limit fd1 fd2 : Z) (s : streams) : Z * streams :=
  let stream1 := child_of s fd1 in
  if bool_decide (is_Some stream1) && bool_decide (fd2 = 0) then (fd2, set_child_stdin stream1 s)
  else if bool_decide (is_Some stream1) && bool_decide (fd2 = 1) then (fd2, set_child_stdout stream1 s)
  else if bool_decide (is_Some stream1) && bool_decide (fd2 = 2) then (fd2, set_child_stderr stream1 s)
  else if bool_decide (fd2 = 0) then (fd2, open_child set_child_stdin fd1 s)
  else if bool_decide (fd2 = 1) then (fd2, open_child set_child_stdout fd1 s)
  else if bool_decide (fd2 = 2) then
    let s := if is_on s (child_stdout s) fd1 then set_child_stderr (child_stdout s) s else s in
    (fd2, if is_on s (thread_stdout s) fd1 then set_child_stderr (child_stdout s) s
          else if bool_decide (fd1 = 1) then set_child_stderr (thread_stdout s) s
          else open_child set_child_stderr fd1 s)
  else if is_on s (thread_stdin s) fd2 then (fd2, open_child set_child_stdin fd1 s)
  else if is_on s (thread_stdout s) fd2 then (fd2, open_child set_child_stdout fd1 s)
  else if is_on s (thread_stderr s) fd2 then
    (fd2, if is_on s (child_stdout s) fd1 then set_child_stderr (child_stdout s) s else open_child set_child_stderr fd1 s)
  else if bool_decide (fd1 ≠ fd2) then dup_descriptor limit fd1 fd2 s
  else (fd2, s).

Definition ios_setChildStreams (i o e : option stream_number) (s : streams) : streams := with_child i o e s.

(** The old streams that are stored, and the new state. *)
Definition ios_activateChildStreams (s : streams)
    : (option (option stream_number) * option (option stream_number) * option (option stream_number)) * streams :=
  let old child thread := match child with Some _ => Some thread | None => (None : option (option stream_number)) end in
  let new (child thread : option stream_number) := match child with Some f => Some f | None => thread end in
  ((old (child_stdin s) (thread_stdin s), old (child_stdout s) (thread_stdout s), old (child_stderr s) (thread_stderr s)),
   Streams (files s) (open_fds s) None None None (new (child_stdin s) (thread_stdin s))
     (new (child_stdout s) (thread_stdout s)) (new (child_stderr s) (thread_stderr s))).

(** ** [dup2] *)

Lemma fdopen_ok fd s : fd ∈ open_fds s →
  ∃ f s', fdopen fd s = (Some f, s') ∧ fileno s' f = fd ∧ (∀ g, is_Some (files s !! g) → fileno s' g = fileno s g) ∧
    child_stdin s' = child_stdin s ∧ child_stdout s' = child_stdout s ∧ child_stderr s' = child_stderr s ∧
    thread_stdin s' = thread_stdin s ∧ thread_stdout s' = thread_stdout s ∧ thread_stderr s' = thread_stderr s.
Proof.
  intros Hfd. unfold fdopen. rewrite bool_decide_eq_true_2 by done. eexists _, _. split; [done|].
  split_and!; try done; unfold fileno; simpl.
  - by rewrite lookup_app_r, Nat.sub_diag by lia.
  - intros g [x Hx]. by rewrite (lookup_app_l_Some _ _ _ _ Hx), Hx.
Qed.

(** What the streams of the next command are on, in the order 0, 1, 2. *)
Definition child_fd (k : Z) (s : streams) : option Z := fileno s <$> child_of s k.

Lemma child_fd_eq s : child_fd 0 s = fileno s <$> child_stdin s ∧ child_fd 1 s = fileno s <$> child_stdout s ∧
  child_fd 2 s = fileno s <$> child_stderr s.
Proof. done. Qed.

(** A stream that is kept has the descriptor it had. *)
Lemma keep_fd s s' (c : option stream_number) : (∀ f, c = Some f → fileno s' f = fileno s f) → fileno s' <$> c = fileno s <$> c.
Proof. destruct c as [f|]; intros H; [|done]. simpl. f_equal. by apply H. Qed.

(** ios_dup2 of an open descriptor above 2 to 0, 1 or 2 returns the
    descriptor and makes the stream of the next command one on that descriptor,
    leaving the other two; the exception is 2 with the descriptor of the
    thread's own output, for which it becomes the child's output. *)
Theorem dup2_spec limit fd k s : 3 ≤ fd → 0 ≤ k ≤ 2 → fd ∈ open_fds s →
  (∀ j f, child_of s j = Some f → is_Some (files s !! f)) →
  let '(r, s') := ios_dup2 limit fd k s in
  r = k ∧ (∀ j, 0 ≤ j ≤ 2 → j ≠ k → child_fd j s' = child_fd j s) ∧
  child_fd k s' = (if bool_decide (k = 2) && is_on s (thread_stdout s) fd then child_fd 1 s else Some fd).
Proof.
  intros Hfd Hk Ho Hfiles. unfold ios_dup2.
  assert (child_of s fd = None) as -> by (unfold child_of; by rewrite !bool_decide_eq_false_2 by lia).
  rewrite (bool_decide_eq_false_2 (is_Some None)) by by intros [? [=]]. cbn [andb].
  assert (∀ (set : option stream_number → streams → streams) s0, open_fds s0 = open_fds s → ∃ f s1,
    open_child set fd s0 = set (Some f) s1 ∧ fileno s1 f = fd ∧ (∀ g, is_Some (files s0 !! g) → fileno s1 g = fileno s0 g) ∧
    child_stdin s1 = child_stdin s0 ∧ child_stdout s1 = child_stdout s0 ∧ child_stderr s1 = child_stderr s0) as Hopen.
  { intros set s0 E. destruct (fdopen_ok fd s0) as (f & s1 & E1 & ? & ? & ? & ? & ? & _); [by rewrite E|].
    exists f, s1. unfold open_child. rewrite E1. by split_and!. }
  assert (∀ f, child_stdin s = Some f → is_Some (files s !! f)) as F0 by exact (λ f, Hfiles 0 f).
  assert (∀ f, child_stdout s = Some f → is_Some (files s !! f)) as F1 by exact (λ f, Hfiles 1 f).
  assert (∀ f, child_stderr s = Some f → is_Some (files s !! f)) as F2 by exact (λ f, Hfiles 2 f).
  assert (∀ s', child_fd 0 s' = fileno s' <$> child_stdin s') as C0 by done.
  assert (∀ s', child_fd 1 s' = fileno s' <$> child_stdout s') as C1 by done.
  assert (∀ s', child_fd 2 s' = fileno s' <$> child_stderr s') as C2 by done.
  assert (k = 0 ∨ k = 1 ∨ k = 2) as [-> |[-> | ->]] by lia; simpl.
  - destruct (Hopen set_child_stdin s eq_refl) as (f & s1 & -> & Hf & Hg & H0 & H1 & H2).
    split_and!; [done| |rewrite C0; simpl; by f_equal].
    intros j Hj Hne. assert (j = 1 ∨ j = 2) as [-> | ->] by lia; rewrite ?C1, ?C2; simpl; rewrite ?H1, ?H2; apply keep_fd;
      intros g E; apply Hg; auto.
  - destruct (Hopen set_child_stdout s eq_refl) as (f & s1 & -> & Hf & Hg & H0 & H1 & H2).
    split_and!; [done| |rewrite C1; simpl; by f_equal].
    intros j Hj Hne. assert (j = 0 ∨ j = 2) as [-> | ->] by lia; rewrite ?C0, ?C2; simpl; rewrite ?H0, ?H2; apply keep_fd;
      intros g E; apply Hg; auto.
  - set (s0 := if is_on s (child_stdout s) fd then _ else s).
    assert (files s0 = files s ∧ open_fds s0 = open_fds s ∧ child_stdin s0 = child_stdin s ∧ child_stdout s0 = child_stdout s ∧
      thread_stdout s0 = thread_stdout s) as (E1 & E2 & E3 & E4 & E5) by (unfold s0; by destruct (is_on s _ fd)).
    replace (is_on s0 (thread_stdout s0) fd) with (is_on s (thread_stdout s) fd) by (unfold is_on, fileno; by rewrite E1, E5).
    assert (∀ g, fileno s0 g = fileno s g) as Hsame by (intros g; unfold fileno; by rewrite E1).
    rewrite (bool_decide_eq_false_2 (fd = 1)) by lia. destruct (is_on s (thread_stdout s) fd).
    + split_and!; [done| |rewrite C1, C2; simpl; rewrite E4; apply keep_fd; intros g _; apply Hsame].
      intros j Hj Hne. assert (j = 0 ∨ j = 1) as [-> | ->] by lia; rewrite ?C0, ?C1; simpl; rewrite ?E3, ?E4; apply keep_fd; intros g _; apply Hsame.
    + destruct (Hopen set_child_stderr s0 E2) as (f & s1 & -> & Hf & Hg & H0 & H1 & H2).
      split_and!; [done| |rewrite C2; simpl; by f_equal]. rewrite E1 in Hg.
      intros j Hj Hne. assert (j = 0 ∨ j = 1) as [-> | ->] by lia; rewrite ?C0, ?C1; simpl; rewrite ?H0, ?H1, ?E3, ?E4;
        apply keep_fd; intros g E; rewrite <- Hsame; apply Hg; auto.
Qed.

(** The streams of [cmd > f 2>&1]. *)
Lemma dup2_spec_witness :
  let s := Streams [0; 1; 2] {[ 0; 1; 2; 7 ]} None None None (Some 0%nat) (Some 1%nat) (Some 2%nat) in
  child_fd 1 (ios_dup2 256 7 1 s).2 = Some 7.
Proof.
  intros s. pose proof (dup2_spec 256 7 1 s) as H. destruct (ios_dup2 256 7 1 s) as [r s'].
  destruct H as (_ & _ & H); [lia|lia|by apply (bool_decide_unpack _)|..].
  - intros j f. unfold child_of. simpl. by repeat case_bool_decide.
  - exact H.
Defined.

(** [dup2(fd, 1)] and then [dup2(1, 2)]: one stream for both. *)
Theorem redirect_both limit fd s : 3 ≤ fd → fd ∈ open_fds s →
  let s' := (ios_dup2 limit 1 2 (ios_dup2 limit fd 1 s).2).2 in
  child_stdout s' = child_stderr s' ∧ child_fd 1 s' = Some fd.
Proof.
  intros Hfd Ho. destruct (fdopen_ok fd s Ho) as (f & s1 & E & Hf & _).
  assert (ios_dup2 limit fd 1 s = (1, set_child_stdout (Some f) s1)) as E1.
  { unfold ios_dup2. assert (child_of s fd = None) as -> by (unfold child_of; by rewrite !bool_decide_eq_false_2 by lia).
    unfold open_child. by rewrite E. }
  rewrite E1. split; [done|]. unfold child_fd. simpl. by f_equal.
Qed.

(** Activating and putting the stored streams back. *)
Definition restore (old : option (option stream_number)) (current : option stream_number) : option stream_number :=
  default current old.

Theorem activate_restores s :
  let '(old_in, old_out, old_err, s') := ios_activateChildStreams s in
  child_stdin s' = None ∧ child_stdout s' = None ∧ child_stderr s' = None ∧
  restore old_in (thread_stdin s') = thread_stdin s ∧ restore old_out (thread_stdout s') = thread_stdout s ∧
  restore old_err (thread_stderr s') = thread_stderr s.
Proof. destruct s as [fs ofs [ci|] [co|] [ce|] ti to te]; done. Qed.

(** ** What goes wrong with [dup2] *)

(** A thread whose output has descriptor 5 sends its errors there. *)
Theorem stderr_to_stdout_lost :
  let s := Streams [0; 5; 2] {[ 0; 2; 5 ]} None None None (Some 0%nat) (Some 1%nat) (Some 2%nat) in
  child_stderr (ios_dup2 256 5 2 s).2 = None.
Proof. by vm_compute. Qed.

(** [dup2(7, 1)] and [dup2(7, 2)]: the stream found for the errors is replaced
    by another one on the same descriptor. *)
Theorem two_streams_one_descriptor :
  let s := Streams [0; 1; 2] {[ 0; 1; 2; 7 ]} None None None (Some 0%nat) (Some 1%nat) (Some 2%nat) in
  let s' := (ios_dup2 256 7 2 (ios_dup2 256 7 1 s).2).2 in
  child_stdout s' = Some 3%nat ∧ child_stderr s' = Some 4%nat ∧ fileno s' 3%nat = 7 ∧ fileno s' 4%nat = 7.
Proof. by vm_compute. Qed.

(** ** [ios_popen] *)

Inductive pipe_end : Set := ReadEnd | WriteEnd.
Global Instance pipe_end_eq_dec : EqDecision pipe_end.
Proof. solve_decision. Defined.

(** The pipe of the call, its two streams as far as they are open, and the
    child's streams as far as they are ends of this pipe. *)
Record popen_state := PopenState {
  pipe_alive : bool;
  end_open : pipe_end → bool;
  child_in : option pipe_end;
  child_out : option pipe_end }.

Definition set_end (e : pipe_end) (b : bool) (st : popen_state) : popen_state :=
  PopenState (pipe_alive st) (λ e', if bool_decide (e' = e) then b else end_open st e') (child_in st) (child_out st).
Definition set_children (i o : option pipe_end) (st : popen_state) : popen_state :=
  PopenState (pipe_alive st) (end_open st) i o.

Definition ios_pipe_destroy (st : popen_state) : outcome popen_state :=
  if pipe_alive st then Ret (PopenState false (end_open st) (child_in st) (child_out st)) else Undef DoubleFree.

(** [fclose], whose callback closes the end of the pipe. *)
Definition fclose (f : option pipe_end) (st : popen_state) : outcome popen_state :=
  match f with
  | None => Undef NullDeref
  | Some e =>
      if negb (end_open st e) then Undef DoubleFree
      else if pipe_alive st then Ret (set_end e false st) else Undef UseAfterFree
  end.

Section popen.
(** [funopen] for the two ends, and [ios_system], which takes the child's
    streams or, when it returns before that, leaves them. *)
Context (funopen_ok : pipe_end → bool) (ios_system : string → popen_state → Z * popen_state).

Definition fdopen_end (e : pipe_end) (st : popen_state) : option pipe_end * popen_state :=
  if funopen_ok e then (Some e, set_end e true st) else (None, st).

(** The part for one type: [mine] is the child's end, [child] and [set] read and
    store the child's stream. *)
Definition popen_with (mine yours : pipe_end) (child : popen_state → option pipe_end)
    (set : option pipe_end → popen_state → popen_state) (command : string) (st : popen_state)
    : outcome (option (option pipe_end) * popen_state) :=
  let '(f, st) := fdopen_end mine st in
  let st := set f st in
  match f with
  | None => st ← ios_pipe_destroy st; Ret (Some None, st)
  | Some _ =>
      let '(returnValue, st) := ios_system command st in
      if bool_decide (returnValue = 0) then
        let '(g, st) := fdopen_end yours st in
        match g with
        | None => st ← fclose (child st) st; Ret (Some None, set None st)
        | Some _ => Ret (Some g, st)
        end
      else
        st ← fclose (child st) st;
        st ← ios_pipe_destroy (set None st);
        Ret (None, st)
  end.

(** The command without spaces in front, given to [ios_system]; [malloc_ok]: the
    pipe could be created. *)
Definition ios_popen (malloc_ok : bool) (command : string) (type : Ascii.ascii) (st : popen_state)
    : outcome (option pipe_end * popen_state) :=
  if negb malloc_ok then Ret (None, st)
  else
    '(r, st) ← (if bool_decide (type = "w"%char) then
                  popen_with ReadEnd WriteEnd child_in (λ f st, set_children f (child_out st) st) command st
                else if bool_decide (type = "r"%char) then
                  popen_with WriteEnd ReadEnd child_out (λ f st, set_children (child_in st) f st) command st
                else Ret (None, st));
    match r with
    | Some r => Ret (r, st)
    | None => st ← ios_pipe_destroy st; Ret (None, st)
    end.
End popen.

Definition new_pipe : popen_state := PopenState true (λ _, false) None None.

(** [ios_system] may take the child's stream and close its end, but destroys no
    pipe. *)
Definition keeps_pipe (ios_system : string → popen_state → Z * popen_state) : Prop :=
  ∀ c st, pipe_alive (ios_system c st).2 = pipe_alive st.

(** C39: when ios_system answers that the command could not be run, popen has
    undefined behaviour, whether or not ios_system had taken the stream: it
    closes a stream that is NULL or closed, or destroys the pipe twice. *)
Theorem popen_failure_undefined funopen_ok ios_system command type :
  keeps_pipe ios_system → type = "w"%char ∨ type = "r"%char → (∀ e, funopen_ok e = true) →
  (∀ st, (ios_system command st).1 ≠ 0) →
  ∃ u, ios_popen funopen_ok ios_system true command type new_pipe = Undef u.
Proof.
  intros Hkeep Htype Hok Hfail.
  assert (∀ mine yours child set, (∀ f st, pipe_alive (set f st) = pipe_alive st) →
    ∃ u, ('(r, st) ← popen_with funopen_ok ios_system mine yours child set command new_pipe;
          match r with Some r => Ret (r, st) | None => st ← ios_pipe_destroy st; Ret (None, st) end) =
         (Undef u : outcome (option pipe_end * popen_state))) as Hwith.
  { intros mine yours child set Hset. unfold popen_with, fdopen_end. rewrite Hok. cbn zeta iota.
    destruct (ios_system command _) as [v st] eqn:E. rewrite bool_decide_eq_false_2.
    2: { pose proof (Hfail (set (Some mine) (set_end mine true new_pipe))) as H. by rewrite E in H. }
    destruct (fclose (child st) st) as [st1|u] eqn:Ec; [|by exists u]. cbn [mbind outcome_bind].
    destruct (ios_pipe_destroy (set None st1)) as [st2|u] eqn:Ed; [|by exists u]. cbn [mbind outcome_bind].
    unfold ios_pipe_destroy in Ed. destruct (pipe_alive _); [|done]. injection Ed as <-. by eexists. }
  unfold ios_popen. destruct Htype as [-> | ->]; simpl; by apply Hwith.
Qed.

Definition refuses (c : string) (st : popen_state) : Z * popen_state := (127, set_children None None st).
Definition accepts (c : string) (st : popen_state) : Z * popen_state := (0, set_children None None st).

Lemma popen_failure_undefined_witness :
  ∃ u, ios_popen (λ _, true) refuses true "nothing" "r" new_pipe = Undef u.
Proof. apply (popen_failure_undefined (λ _, true) refuses "nothing"); try done. by right. Defined.

(** A pipe that is in use is not destroyed by anyone: closing both streams
    leaves it. *)
Theorem popen_leaks :
  ∃ st st1 st2, ios_popen (λ _, true) accepts true "cat" "r" new_pipe = Ret (Some ReadEnd, st) ∧
    fclose (Some ReadEnd) st = Ret st1 ∧ fclose (Some WriteEnd) st1 = Ret st2 ∧ pipe_alive st2 = true.
Proof. eexists _, _, _. by split_and!. Qed.
