(* ===== verification/CommandList.v ===== *)
(** * Finding and running the function of a command ([src/ios_system.m])

    The commands are a dictionary of libraries and names of functions, which an
    application can change with [replaceCommand], [addCommandList] and
    [registerCommandFunction]; [ios_system] looks a command up in a cache, in the
    dictionary and in the registered functions, chooses the copy of an
    interpreter ([Slots]) and opens its library; [cleanup_function] closes the
    library when the command has ended.
    - The dynamic linker is an argument: which libraries open, and the functions
      they have.  Its count of openings is part of the state, and a function of
      a library closed as often as opened is undefined to call.  The pool of
      Python's interpreters ([InterpreterPool]) and the marks that the waiting
      ssh sees come in as [answers].
    - [replaceCommand_spec]: which commands a replacement changes.
      [runs_spec]: runs one after the other find what the dictionary says, and
      are defined exactly as long as no command that the cache holds with a
      library of its own runs twice: each end closes the library, but only the
      first run has opened it.
    - A command that ran once is not replaced any more ([replace_after_use]); a
      registered function without an entry is not found ([register_alone]); TeX
      and scp come from the cache without a copy of their own
      ([tex_from_cache]). *)

From Stdlib Require Import Ascii.
From stdpp Require Import gmap.
From S2P Require Import Prelude Quoting Variables Scripts Slots.

(** The four components of an entry. *)
Record entry := Entry {
  libraryName : text;
  functionName : text;
  getopt_string : text;
  operates_on : text }.
Global Instance entry_eq_dec : EqDecision entry.
Proof. solve_decision. Defined.

Abbreviation command_list := (gmap (list ascii) entry) (only parsing).
Abbreviation function := positive (only parsing).

Inductive handle : Type :=
  | NoHandle
  | RTLD_SELF
  | RTLD_MAIN_ONLY
  | Library (name : text).

Record commands := Commands {
  commandList : command_list;
  registered : gmap (list ascii) function;
  cache : gmap (list ascii) (handle * function) }.

Definition set_list (l : command_list) (c : commands) : commands := Commands l (registered c) (cache c).

Section lookup.
(** The functions of the dynamic linker: in a handle, and in [RTLD_DEFAULT]. *)
Context (dlopen_ok : text → bool) (dlsym : handle → text → option function) (dlsym_default : text → option function).
Context (command_not_found too_many_scripts : function).

(** ** Changing the dictionary *)

Definition main_entry (name : text) : entry := Entry (chars "MAIN") name [] (chars "file").

Definition replace_key (oldFunctionName : text) (new : entry) (d : command_list) (existingCommand : text) : command_list :=
  match d !! existingCommand with
  | Some currentPosition =>
      if bool_decide (functionName currentPosition = oldFunctionName) then <[existingCommand := new]> d else d
  | None => d
  end.

Definition replaceCommand (commandName name : text) (allOccurences : bool) (c : commands) : commands :=
  match (match dlsym RTLD_MAIN_ONLY name with Some f => Some f | None => dlsym_default name end) with
  | None => c
  | Some _ =>
      let oldValues := commandList c !! commandName in
      let mutableDict := <[commandName := main_entry name]> (commandList c) in
      set_list (match oldValues with
                | Some old => if allOccurences
                              then foldl (replace_key (functionName old) (main_entry name)) mutableDict (map_to_list mutableDict).*1
                              else mutableDict
                | None => mutableDict
                end) c
  end.

(** [newCommandList] is what the file holds, none when it is not found or not
    read: an error. The entries of the new list win. *)
Definition addCommandList (newCommandList : option command_list) (c : commands) : bool * commands :=
  match newCommandList with
  | None => (false, c)
  | Some l => (true, set_list (l ∪ commandList c) c)
  end.

Definition registerCommandFunction (commandName : option text) (f : option function) (c : commands) : commands :=
  match commandName, f with
  | Some name, Some f => Commands (commandList c) (<[name := f]> (registered c)) (cache c)
  | _, _ => c
  end.

(** Whether a command, given by its name or a path to it, is in the dictionary. *)
Definition ios_executable (c : commands) (inputCmd : text) : bool := bool_decide (is_Some (commandList c !! basename inputCmd)).
Definition getoptString (c : commands) (commandName : text) : text := default [] (getopt_string <$> commandList c !! commandName).
Definition operatesOn (c : commands) (commandName : text) : text := default [] (operates_on <$> commandList c !! commandName).

(** ** Looking up *)

(** Commands that are not looked up in the cache, and those not stored in it. *)
Definition not_from_cache (name : text) : bool :=
  begins (chars "python") name || begins (chars "perl") name || begins (chars "tex") name || begins (chars "latex") name ||
  begins (chars "ssh") name || bool_decide (name = chars "curl").
Definition not_into_cache (name : text) : bool :=
  not_from_cache name || bool_decide (name = chars "dash") || bool_decide (name = chars "sh").

(** *** The copies *)

Record interpreters := Interpreters { perl : slots; tex : slots; ssh : slots; curlIsRunning : bool }.

(** The copy from [ios_interp_acquire], and what the loop of ssh sees. *)
Record answers := Answers { python_copy : option nat; ssh_looks : list (list bool) }.

(** The name and the library for the look-up, and [argv[0]]. *)
Record choice := Choice { commandName : text; library : text; argv0 : text }.

Definition suffix (numInterpreter : nat) : text := [ascii_of_nat (CAPITAL_A + (numInterpreter - 1))].

Definition tex_names : list text := chars <$>
  ["amstex"; "cslatex"; "csplain"; "eplain"; "etex"; "jadetex"; "latex"; "mex"; "mllatex"; "mltex"; "pdfsclatex";
   "pdfcsplain"; "pdfetex"; "pdfjadetex"; "pdflatex"; "pdfmex"; "pdftex"; "pdfxmltex"; "tex"; "texsis"; "utf8mex"; "xmltex";
   "texlua"; "texluac"; "dvilualatex"; "dviluatex"; "lualatex"; "luatex"; "luahbtex"; "mptopdf"; "optex"; "xetex"; "xelatex";
   "dvipdfmx"; "xdvipdfmx"]%string.
Definition TeXcommands : list text := tex_names ++ ((λ name, name ++ chars "A") <$> tex_names).

Definition is_ssh (name : text) : bool :=
  bool_decide (name = chars "ssh") || bool_decide (name = chars "scp") || bool_decide (name = chars "sftp").

Definition choose_python (numInterpreter : nat) (name : text) (e : entry) : choice :=
  if bool_decide (0 < numInterpreter)
  then Choice (chars "python" ++ suffix numInterpreter) (pool_library (libraryName e) numInterpreter) (take 6 name ++ suffix numInterpreter)
  else Choice name (libraryName e) (take 7 name).

Definition choose_perl (numInterpreter : nat) (name : text) (e : entry) : choice :=
  if bool_decide (0 < numInterpreter)
  then let commandName := chars "perl" ++ suffix numInterpreter in
       Choice commandName (replace_all (chars "perl") commandName (libraryName e)) name
  else Choice name (libraryName e) name.

Definition choose_ssh (numInterpreter : nat) (name : text) (e : entry) : choice :=
  if bool_decide (0 < numInterpreter)
  then let commandName := chars "ssh_cmd" ++ suffix numInterpreter in
       Choice commandName (replace_all (chars "ssh_cmd") commandName (libraryName e)) name
  else Choice name (libraryName e) name.

(** The copy of the first engine that the library begins with. *)
Definition tex_library (numInterpreter : nat) (libraryName : text) : text :=
  match filter (λ engine, begins engine libraryName = true)
          (chars <$> ["pdftex"; "luatex"; "luahbtex"; "xetex"; "xdvipdfmx"]%string) with
  | engine :: _ => replace_all engine (engine ++ suffix numInterpreter) libraryName
  | [] => libraryName
  end.

Definition choose_tex (numInterpreter : nat) (name : text) (e : entry) : choice :=
  Choice name (if bool_decide (0 < numInterpreter) then tex_library numInterpreter (libraryName e) else libraryName e) name.

(** No choice is [too_many_scripts]. *)
Definition choose (a : answers) (name : text) (e : entry) (i : interpreters) : outcome (option choice * interpreters) :=
  if begins (chars "python") name then Ret (option_map (λ n, choose_python n name e) (python_copy a), i)
  else if begins (chars "perl") name then
    '(n, p) ← take_in_turn (perl i);
    Ret (option_map (λ n, choose_perl n name e) n, Interpreters p (tex i) (ssh i) (curlIsRunning i))
  else if bool_decide (name ∈ TeXcommands) then
    '(n, t) ← take_in_turn (tex i);
    Ret (option_map (λ n, choose_tex n name e) n, Interpreters (perl i) t (ssh i) (curlIsRunning i))
  else if is_ssh name then
    '(started, n, s) ← take_ssh (ssh_looks a) (ssh i);
    Ret (if started : bool then option_map (λ n, choose_ssh n name e) n else None, Interpreters (perl i) (tex i) s (curlIsRunning i))
  else if bool_decide (name = chars "curl") then
    Ret (if curlIsRunning i then None else Some (Choice name (libraryName e) name), Interpreters (perl i) (tex i) (ssh i) true)
  else Ret (Some (Choice name (libraryName e) name), i).

(** *** The function *)

(** The commands, the copies, and how often each library is open. *)
Record system := System {
  dictionary : commands;
  copies : interpreters;
  opened : gmap (list ascii) nat }.

Definition opens (st : system) (library : text) : nat := default 0 (opened st !! library).
Definition set_opens (library : text) (n : nat) (st : system) : system :=
  System (dictionary st) (copies st) (<[library := n]> (opened st)).

(** The handle of a library. *)
Definition open_handle (library : text) : option handle :=
  if bool_decide (library = chars "SELF") then Some RTLD_SELF
  else if bool_decide (library = chars "MAIN") then Some RTLD_MAIN_ONLY
  else if dlopen_ok library then Some (Library library) else None.

Definition opened_with (h : handle) (st : system) : system :=
  match h with Library l => set_opens l (S (opens st l)) st | _ => st end.

Definition find_symbol (h : handle) (name : text) : option function :=
  match dlsym h name, h with
  | Some f, _ => Some f
  | None, RTLD_MAIN_ONLY => dlsym_default name
  | None, _ => None
  end.

(** What is going to run: the function, the handle to close, and [argv[0]]. *)
Record found := Found { found_function : function; found_handle : handle; found_argv0 : text }.

Definition store (name : text) (h : handle) (f : function) (st : system) : system :=
  if not_into_cache name then st
  else let c := dictionary st in
       System (Commands (commandList c) (registered c) (<[name := (h, f)]> (cache c))) (copies st) (opened st).

(** Without the cache. *)
Definition load_function (a : answers) (name : text) (st : system) : outcome (found * system) :=
  match commandList (dictionary st) !! name with
  | None => Ret (Found command_not_found NoHandle name, st)
  | Some e =>
      '(chosen, i) ← choose a name e (copies st);
      let st := System (dictionary st) i (opened st) in
      match chosen with
      | None => Ret (Found too_many_scripts NoHandle (chars "x" ++ drop 1 name), st)
      | Some ch =>
          match registered (dictionary st) !! commandName ch with
          | Some f => Ret (Found f NoHandle (argv0 ch), st)
          | None =>
              match open_handle (library ch) with
              | None => Ret (Found command_not_found NoHandle (argv0 ch), st)
              | Some h =>
                  let st := opened_with h st in
                  match find_symbol h (functionName e) with
                  | None => Ret (Found command_not_found h (argv0 ch), st)
                  | Some f => Ret (Found f h (argv0 ch), store (commandName ch) h f st)
                  end
              end
          end
      end
  end.

Definition find_function (a : answers) (name : text) (st : system) : outcome (found * system) :=
  match (if not_from_cache name then None else cache (dictionary st) !! name) with
  | Some (h, f) => Ret (Found f h name, st)
  | None => load_function a name st
  end.

(** [ios_system] turns [sh] into [dash] first. *)
Definition real_name (name : text) : text := if bool_decide (name = chars "sh") then chars "dash" else name.
Definition look_up (a : answers) (name : text) (st : system) : outcome (found * system) := find_function a (real_name name) st.

(** *** The run *)

(** The function of a library that is not open any more must not be called. *)
Definition call (r : found) (st : system) : outcome () :=
  match found_handle r with
  | Library l => if bool_decide (opens st l = 0) then Undef UseAfterFree else Ret ()
  | _ => Ret ()
  end.

(** [dlclose] in [cleanup_function]. *)
Definition close_handle (h : handle) (st : system) : system :=
  match h with Library l => set_opens l (opens st l - 1) st | _ => st end.

Definition run (a : answers) (name : text) (st : system) : outcome (found * system) :=
  '(r, st) ← look_up a name st; _ ← call r st; Ret (r, close_handle (found_handle r) st).

(** Commands one after the other. *)
Fixpoint run_all (calls : list (answers * text)) (st : system) : outcome (list found * system) :=
  match calls with
  | [] => Ret ([], st)
  | (a, name) :: calls => '(r, st) ← run a name st; '(rs, st) ← run_all calls st; Ret (r :: rs, st)
  end.

(** ** What the dictionary says *)

(** Commands without copies. *)
Definition single (name : text) : bool :=
  negb (begins (chars "python") name || begins (chars "perl") name || bool_decide (name ∈ TeXcommands) || is_ssh name ||
        bool_decide (name = chars "curl")).

(** The library and the function of a command. *)
Definition source (c : commands) (name : text) : option (handle * option function) :=
  match commandList c !! name, registered c !! name with
  | Some e, None => (λ h, (h, find_symbol h (functionName e))) <$> open_handle (libraryName e)
  | _, _ => None
  end.

Definition answer (c : commands) (name : text) : found :=
  match commandList c !! name, registered c !! name, source c name with
  | None, _, _ => Found command_not_found NoHandle name
  | Some _, Some f, _ => Found f NoHandle name
  | Some _, None, Some (h, f) => Found (default command_not_found f) h name
  | Some _, None, None => Found command_not_found NoHandle name
  end.

(** The cache holds the command with a library of its own. *)
Definition holds_library (c : commands) (name : text) : bool :=
  match source c name with Some (Library _, Some _) => negb (not_into_cache name) | _ => false end.

(** Nothing is open, and what is in the cache is what the dictionary says. *)
Record at_rest (c : commands) (st : system) : Prop := {
  ar_list : commandList (dictionary st) = commandList c;
  ar_registered : registered (dictionary st) = registered c;
  ar_closed l : opens st l = 0;
  ar_cache name h f : cache (dictionary st) !! name = Some (h, f) → source c name = Some (h, Some f) ∧ not_into_cache name = false }.

Lemma choose_single a name e i : single name = true → choose a name e i = Ret (Some (Choice name (libraryName e) name), i).
Proof. unfold single. intros H%negb_true_iff. rewrite !orb_false_iff in H. destruct H as [[[[H1 H2] H3] H4] H5]. unfold choose. by rewrite H1, H2, H3, H4, H5. Qed.

Lemma opens_set st l n l' : opens (set_opens l n st) l' = if decide (l' = l) then n else opens st l'.
Proof. unfold opens, set_opens. simpl. case_decide as H; [subst; by rewrite lookup_insert_eq|by rewrite lookup_insert_ne]. Qed.

Lemma call_opened f h n st : call (Found f h n) (opened_with h st) = Ret ().
Proof. destruct h; [done..|]. unfold call. cbn [found_handle opened_with]. by rewrite opens_set, decide_True. Qed.

Lemma call_store r name h f st : call r (store name h f st) = call r st.
Proof. unfold call, store. by destruct (found_handle r), (not_into_cache name). Qed.

Lemma close_store name h f h' st : close_handle h' (store name h f st) = store name h f (close_handle h' st).
Proof. unfold store, close_handle. by destruct h', (not_into_cache name). Qed.

(** Opening and closing leaves the rest as it was. *)
Lemma rest_open c h st : at_rest c st → at_rest c (close_handle h (opened_with h st)).
Proof.
  intros [Hl Hr Hz Hc]. destruct h as [| | |l']; [done..|]. split; [done|done| |done]. intros l. cbn [close_handle opened_with].
  rewrite !opens_set, !Hz. by repeat case_decide.
Qed.

Lemma rest_store c name h f st : at_rest c st → source c name = Some (h, Some f) → at_rest c (store name h f st).
Proof.
  intros [Hl Hr Hz Hc] Hs. unfold store. destruct (not_into_cache name) eqn:Hn; [done|]. split; [done|done|done|].
  intros n h' f'. simpl. destruct (decide (n = name)) as [-> |Hne].
  - rewrite lookup_insert_eq. by intros [= <- <-].
  - rewrite lookup_insert_ne by done. apply Hc.
Qed.

(** The cache after loading a command. *)
Definition holds_more (c : commands) (name : text) (st st' : system) : Prop := ∀ n, holds_library c n = true →
  (is_Some (cache (dictionary st') !! n) ↔ n = name ∨ is_Some (cache (dictionary st) !! n)).

Lemma holds_same c name st st' : cache (dictionary st') = cache (dictionary st) → holds_library c name = false → holds_more c name st st'.
Proof. intros E Hn n Hh. rewrite E. split; [by right|]. intros [-> |?]; [congruence|done]. Qed.

Lemma holds_store c name h f st st1 : dictionary st1 = dictionary st → not_into_cache name = false →
  holds_more c name st (store name h f st1).
Proof.
  intros E Hn n _. unfold store. rewrite Hn. simpl. rewrite E. destruct (decide (n = name)) as [-> |Hne].
  - rewrite lookup_insert_eq. split; [by left|by eexists].
  - rewrite lookup_insert_ne by done. naive_solver.
Qed.

(** Loading finds what the dictionary says, and the cache then holds the command. *)
Lemma load_step c a name st : at_rest c st → single name = true →
  ∃ st1, load_function a name st = Ret (answer c name, st1) ∧ call (answer c name) st1 = Ret () ∧
    at_rest c (close_handle (found_handle (answer c name)) st1) ∧
    holds_more c name st (close_handle (found_handle (answer c name)) st1).
Proof.
  intros Hrest Hs. pose proof Hrest as [Hl Hr Hz Hc].
  assert (∀ v, source c name = v → holds_library c name = match v with Some (Library _, Some _) => negb (not_into_cache name) | _ => false end)
    as Hhold by (intros v <-; done).
  unfold load_function, answer. destruct (source c name) as [v|] eqn:Hsrc; specialize (Hhold _ eq_refl); pose proof Hsrc as Hsrc';
    unfold source in Hsrc; rewrite Hl.
  all: destruct (commandList c !! name) as [e|]; [|first [done|exists st; split_and!; [done..|by apply holds_same]]].
  all: rewrite choose_single by done; cbn [mbind outcome_bind commandName library argv0 dictionary].
  all: replace (System (dictionary st) (copies st) (opened st)) with st by (by destruct st); rewrite Hr.
  all: destruct (registered c !! name) as [f|]; [first [done|exists st; split_and!; [done..|by apply holds_same]]|].
  all: destruct (open_handle (libraryName e)) as [h|]; [try done|first [done|exists st; split_and!; [done..|by apply holds_same]]].
  injection Hsrc as <-. destruct (find_symbol h (functionName e)) as [f|] eqn:Hf; eexists; (split; [done|]); cbn [default found_handle].
  - rewrite call_store, call_opened, close_store. split_and!; [done|by apply rest_store; [apply rest_open|]|].
    destruct (not_into_cache name) eqn:Hn.
    + apply holds_same; [unfold store; rewrite Hn; by destruct h|]. rewrite Hhold. by destruct h.
    + apply holds_store; [by destruct h|done].
  - rewrite call_opened. split_and!; [done|by apply rest_open|]. apply holds_same; [by destruct h|]. rewrite Hhold. by destruct h.
Qed.

(** A run of a command with a library of its own that the cache holds calls a
    function of a closed library; every other run is as the dictionary says. *)
Lemma run_step c a name st : at_rest c st → single (real_name name) = true →
  if holds_library c (real_name name) && bool_decide (is_Some (cache (dictionary st) !! real_name name))
  then run a name st = Undef UseAfterFree
  else ∃ st', run a name st = Ret (answer c (real_name name), st') ∧ at_rest c st' ∧ holds_more c (real_name name) st st'.
Proof.
  intros Hrest Hs. unfold run, look_up, find_function. set (n := real_name name) in *.
  destruct (cache (dictionary st) !! n) as [[h f]|] eqn:Hk.
  - destruct (ar_cache c st Hrest n h f Hk) as [Hsrc Hn].
    assert (not_from_cache n = false) as -> by (unfold not_into_cache in Hn; by rewrite !orb_false_iff in Hn; destruct Hn as [[? _] _]).
    cbn [mbind outcome_bind]. rewrite (bool_decide_eq_true_2 (is_Some (Some (h, f)))), andb_true_r by by eexists.
    assert (answer c n = Found f h n) as Ha.
    { unfold answer. rewrite Hsrc. unfold source in Hsrc. by destruct (commandList c !! n), (registered c !! n). }
    unfold holds_library at 1. rewrite Hsrc, Hn. destruct h as [| | |l]; cbn [negb].
    1-3: exists st; rewrite Ha; split_and!; [done..|]; apply holds_same; [done|]; unfold holds_library; by rewrite Hsrc.
    unfold call. cbn [found_handle]. by rewrite (ar_closed c st Hrest).
  - rewrite (bool_decide_eq_false_2 (is_Some None)), andb_false_r by (by intros []).
    destruct (load_step c a n st Hrest Hs) as (st1 & E & Hcall & Hrest' & Hmore).
    replace (match (if not_from_cache n then None else None) with Some (h, f) => Ret (Found f h n, st) | None => load_function a n st end)
      with (load_function a n st) by (by destruct (not_from_cache n)).
    rewrite E. cbn [mbind outcome_bind]. rewrite Hcall. cbn [mbind outcome_bind]. by eexists.
Qed.

(** The commands of which every run after the first is undefined. *)
Definition once_only (c : commands) (names : list text) : list text := filter (λ n, holds_library c n = true) names.

Definition runs_once (c : commands) (names : list text) (st : system) : Prop :=
  NoDup (once_only c names) ∧ ∀ n, n ∈ once_only c names → cache (dictionary st) !! n = None.

Lemma runs_once_cons c n names st st1 : holds_more c n st st1 →
  holds_library c n && bool_decide (is_Some (cache (dictionary st) !! n)) = false →
  runs_once c (n :: names) st ↔ runs_once c names st1.
Proof.
  intros Hmore Hb. unfold runs_once, once_only. rewrite filter_cons. fold (once_only c names).
  assert (∀ m, m ∈ once_only c names → holds_library c m = true) as Hin by (by intros m [? _]%list_elem_of_filter).
  assert (∀ m, m ∈ once_only c names → cache (dictionary st1) !! m = None ↔ m ≠ n ∧ cache (dictionary st) !! m = None) as Hnone.
  { intros m Hm. rewrite !eq_None_not_Some, (Hmore m) by by apply Hin. naive_solver. }
  case_decide as Hh.
  - rewrite Hh in Hb. apply bool_decide_eq_false in Hb. apply eq_None_not_Some in Hb. rewrite list.NoDup_cons.
    setoid_rewrite elem_of_cons. split; [|].
    + intros [[Hn Hd] Hall]. split; [done|]. intros m Hm. apply Hnone; [done|]. split; [by intros ->|]. apply Hall. by right.
    + intros [Hd Hall]. split_and!; [|done|].
      * intros Hm. by destruct (proj1 (Hnone n Hm) (Hall n Hm)) as [? _].
      * intros m [-> |Hm]; [done|]. by apply Hnone; [|apply Hall].
  - split; intros [Hd Hall]; (split; [done|]); intros m Hm.
    + apply Hnone; [done|]. split; [|by apply Hall]. intros ->. by apply Hh, Hin.
    + by apply Hnone; [|apply Hall].
Qed.

Lemma runs_ok c calls : (∀ x, x ∈ calls → single (real_name x.2) = true) → ∀ st, at_rest c st →
  let names := (λ x, real_name x.2) <$> calls in
  (runs_once c names st → ∃ st', run_all calls st = Ret (answer c <$> names, st') ∧ at_rest c st') ∧
  (¬ runs_once c names st → run_all calls st = Undef UseAfterFree).
Proof.
  induction calls as [|[a name] calls IH]; intros Hs st Hrest names.
  { split; [by exists st|]. intros []. split; [apply NoDup_nil_2|]. by intros n ?%not_elem_of_nil. }
  subst names. cbn [fmap list_fmap snd]. set (n := real_name name). set (names := (λ x, real_name x.2) <$> calls).
  pose proof (run_step c a name st Hrest (Hs (a, name) ltac:(by left))) as Hrun. fold n in Hrun. cbn [run_all].
  destruct (holds_library c n && bool_decide (is_Some (cache (dictionary st) !! n))) eqn:Hb.
  - rewrite Hrun. split; [|done]. intros [_ H]. apply andb_true_iff in Hb as [Hh Hk%bool_decide_eq_true].
    rewrite (H n) in Hk; [by destruct Hk|]. apply list_elem_of_filter. split; [done|by left].
  - destruct Hrun as (st1 & -> & Hrest1 & Hmore). cbn [mbind outcome_bind].
    destruct (IH (λ x Hx, Hs x ltac:(by right)) st1 Hrest1) as [H1 H2]. fold names in H1, H2.
    rewrite (runs_once_cons c n names st st1 Hmore Hb). split.
    + intros Hf. destruct (H1 Hf) as (st2 & -> & Hrest2). by exists st2.
    + intros Hf. by rewrite (H2 Hf).
Qed.

(** C27: commands without copies that run one after the other, from an empty
    cache and with no library open, while the dictionary stays as it is.  If none
    of those that the cache holds with a library of its own runs twice, all find
    exactly the function, the library and the name that the dictionary gives,
    cached or not, and leave no library open; and if one of them does, its second
    run takes the function out of the cache after the end of the first has closed
    the library. *)
Theorem runs_spec c i calls : cache c = ∅ → (∀ x, x ∈ calls → single (real_name x.2) = true) →
  let names := (λ x, real_name x.2) <$> calls in
  (NoDup (once_only c names) →
     ∃ st', run_all calls (System c i ∅) = Ret (answer c <$> names, st') ∧ (∀ l, opens st' l = 0) ∧
       commandList (dictionary st') = commandList c) ∧
  (¬ NoDup (once_only c names) → run_all calls (System c i ∅) = Undef UseAfterFree).
Proof.
  intros He Hs names.
  assert (at_rest c (System c i ∅)) as Hrest.
  { split; [done|done| |]; [intros l; unfold opens; simpl; by rewrite lookup_empty|]. intros n h f. simpl. rewrite He. by rewrite lookup_empty. }
  destruct (runs_ok c calls Hs (System c i ∅) Hrest) as [H1 H2]. fold names in H1, H2. split; intros Hn.
  - destruct H1 as (st' & E & Hr); [|exists st'; split_and!; [done|apply Hr|apply Hr]].
    split; [done|]. intros n _. simpl. rewrite He. by rewrite lookup_empty.
  - apply H2. by intros [? _].
Qed.
End lookup.

(** ** Replacing *)

Lemma replace_keys (old : text) (new : entry) (ks : list text) (d : command_list) (k : text) : NoDup ks →
  foldl (replace_key old new) d ks !! k =
  match d !! k with
  | Some e => if bool_decide (functionName e = old) && bool_decide (k ∈ ks) then Some new else Some e
  | None => None
  end.
Proof.
  intros Hn. revert d. induction Hn as [|k' ks Hk' _ IH]; intros d; cbn [foldl].
  - destruct (d !! k); [|done]. rewrite (bool_decide_eq_false_2 (k ∈ [])) by apply not_elem_of_nil. by rewrite andb_false_r.
  - rewrite IH. destruct (decide (k = k')) as [<-|Hk].
    + rewrite (bool_decide_eq_false_2 (k ∈ ks)), (bool_decide_eq_true_2 (k ∈ k :: ks)) by (done || by left).
      unfold replace_key. destruct (d !! k) as [e|] eqn:E; [|by rewrite E]. rewrite andb_true_r.
      destruct (bool_decide (functionName e = old)); [by rewrite lookup_insert_eq, andb_false_r|by rewrite E, andb_false_r].
    + assert (replace_key old new d k' !! k = d !! k) as ->.
      { unfold replace_key. destruct (d !! k') as [e|]; [|done]. destruct (bool_decide (functionName e = old)); [|done]. by rewrite lookup_insert_ne. }
      destruct (d !! k) as [e|]; [|done]. rewrite (bool_decide_ext (k ∈ k' :: ks) (k ∈ ks)); [done|].
      rewrite elem_of_cons. naive_solver.
Qed.

(** Two commands have entries with the same function. *)
Definition same_function (d : command_list) (k k' : text) : bool :=
  match d !! k, d !! k' with Some e, Some e' => bool_decide (functionName e = functionName e') | _, _ => false end.

Lemma replaceCommand_lookup dlsym dlsym_default (commandName name : text) (all : bool) (c : commands) (k : text) f :
  match dlsym RTLD_MAIN_ONLY name with Some f => Some f | None => dlsym_default name end = Some f →
  commandList (replaceCommand dlsym dlsym_default commandName name all c) !! k =
  if bool_decide (k = commandName) || all && same_function (commandList c) k commandName then Some (main_entry name)
  else commandList c !! k.
Proof.
  intros Hf. unfold replaceCommand. rewrite Hf. cbn [commandList set_list].
  set (d := commandList c). unfold same_function. destruct (d !! commandName) as [old|] eqn:Ho.
  - destruct all; cbn [andb].
    + rewrite replace_keys by (apply NoDup_fst_map_to_list). destruct (decide (k = commandName)) as [-> |Hk].
      * rewrite lookup_insert_eq, (bool_decide_eq_true_2 (commandName = commandName)) by done. simpl. by destruct (_ && _).
      * rewrite lookup_insert_ne, (bool_decide_eq_false_2 (k = commandName)) by done. simpl.
        destruct (d !! k) as [e|] eqn:Hk'; [|done].
        rewrite (bool_decide_eq_true_2 (k ∈ _)), andb_true_r; [done|].
        apply list_elem_of_fmap. exists (k, e). split; [done|]. apply elem_of_map_to_list. by rewrite lookup_insert_ne.
    + rewrite orb_false_r. case_bool_decide as Hk; [subst; by rewrite lookup_insert_eq|by rewrite lookup_insert_ne].
  - replace (all && match d !! k with Some _ => false | None => false end) with false by (by destruct all, (d !! k)).
    rewrite orb_false_r. case_bool_decide as Hk; [subst; by rewrite lookup_insert_eq|by rewrite lookup_insert_ne].
Qed.

(** replaceCommand of a function that the linker knows gives the command
    the new entry and, when the third argument is set, also every command with
    the function it had before; all others, and with an unknown function all
    commands, keep theirs. *)
Theorem replaceCommand_spec dlsym dlsym_default (commandName name : text) (all : bool) (c : commands) (k : text) :
  commandList (replaceCommand dlsym dlsym_default commandName name all c) !! k =
  if bool_decide (dlsym RTLD_MAIN_ONLY name = None) && bool_decide (dlsym_default name = None) then commandList c !! k
  else if bool_decide (k = commandName) || all && same_function (commandList c) k commandName then Some (main_entry name)
  else commandList c !! k.
Proof.
  destruct (match dlsym RTLD_MAIN_ONLY name with Some f => Some f | None => dlsym_default name end) as [f|] eqn:Hf.
  - rewrite (replaceCommand_lookup dlsym dlsym_default commandName name all c k f Hf).
    destruct (dlsym RTLD_MAIN_ONLY name); [by rewrite (bool_decide_eq_false_2 (Some _ = None))|]. rewrite Hf.
    by rewrite (bool_decide_eq_true_2 (None = None)).
  - unfold replaceCommand. rewrite Hf. destruct (dlsym RTLD_MAIN_ONLY name); [done|]. rewrite Hf.
    by rewrite (bool_decide_eq_true_2 (None = None)).
Qed.

(** ** Concrete commands *)

(** A dictionary with [ls], [cd], [pdftex] and [scp]. *)
Definition demo_commands : commands :=
  Commands (<[chars "ls" := Entry (chars "files.framework/files") (chars "ls_main") [] []]>
           (<[chars "cd" := Entry (chars "SELF") (chars "cd_main") [] []]>
           (<[chars "pdftex" := Entry (chars "pdftex.framework/pdftex") (chars "pdftex_main") [] []]>
           (<[chars "scp" := Entry (chars "ssh_cmd.framework/ssh_cmd") (chars "scp_main") [] []]> ∅)))) ∅ ∅.
Definition demo_dlsym (h : handle) (name : text) : option function :=
  if bool_decide (name = chars "ls_main") then Some 1%positive
  else if bool_decide (name = chars "my_ls") then Some 2%positive
  else if bool_decide (name = chars "pdftex_main") then
    match h with Library l => if bool_decide (l = chars "pdftex.framework/pdftex") then Some 3%positive else Some 4%positive | _ => None end
  else if bool_decide (name = chars "cd_main") then Some 5%positive
  else if bool_decide (name = chars "scp_main") then Some 6%positive
  else None.
Definition no_answers : answers := Answers None [].
Definition two_copies : slots := Slots 0 (replicate 2 false) 2.
Definition demo_copies : interpreters := Interpreters perl_start two_copies two_copies false.
Definition demo_system : system := System demo_commands demo_copies ∅.
Definition demo_look_up := look_up (λ _, true) demo_dlsym (λ _, None) 9 8 no_answers.
Definition demo_run_all (names : list text) : outcome (list found * system) :=
  run_all (λ _, true) demo_dlsym (λ _, None) 9 8 ((λ name, (no_answers, name)) <$> names) demo_system.

Lemma runs_spec_witness :
  (∃ st, demo_run_all [chars "cd"; chars "ls"; chars "cd"] =
     Ret ([Found 5 RTLD_SELF (chars "cd"); Found 1 (Library (chars "files.framework/files")) (chars "ls"); Found 5 RTLD_SELF (chars "cd")], st)) ∧
  demo_run_all [chars "ls"; chars "cd"; chars "ls"] = Undef UseAfterFree.
Proof.
  split.
  - destruct (runs_spec (λ _, true) demo_dlsym (λ _, None) 9 8 demo_commands demo_copies
      ((λ name, (no_answers, name)) <$> [chars "cd"; chars "ls"; chars "cd"])) as [H _]; [done| |].
    { intros x Hx. repeat (apply elem_of_cons in Hx as [-> |Hx]; [by vm_compute|]). by apply not_elem_of_nil in Hx. }
    destruct H as (st & E & _); [by apply (bool_decide_unpack _)|]. exists st. exact E.
  - apply (runs_spec (λ _, true) demo_dlsym (λ _, None) 9 8 demo_commands demo_copies
      ((λ name, (no_answers, name)) <$> [chars "ls"; chars "cd"; chars "ls"])); [done| |].
    { intros x Hx. repeat (apply elem_of_cons in Hx as [-> |Hx]; [by vm_compute|]). by apply not_elem_of_nil in Hx. }
    by apply (bool_decide_unpack _).
Defined.

(** ** What goes wrong *)

(** The function of a command, after other changes of a system. *)
Definition function_after (name : text) (st : system) : outcome function :=
  '(r, _) ← demo_look_up name st; Ret (found_function r).

(** [ls] has run once; the application replaces it: the next look-up still finds
    the old function. *)
Theorem replace_after_use :
  match run (λ _, true) demo_dlsym (λ _, None) 9 8 no_answers (chars "ls") demo_system with
  | Ret (_, st) =>
      let c := replaceCommand demo_dlsym (λ _, None) (chars "ls") (chars "my_ls") false (dictionary st) in
      function_after (chars "ls") (System c (copies st) (opened st)) = Ret 1%positive ∧
      functionName <$> commandList c !! chars "ls" = Some (chars "my_ls")
  | Undef _ => False
  end.
Proof. vm_compute. split; reflexivity. Qed.

(** A function is registered for a command without an entry. *)
Theorem register_alone :
  function_after (chars "mine") (System (registerCommandFunction (Some (chars "mine")) (Some 7%positive) demo_commands) demo_copies ∅) =
  Ret 9%positive.
Proof. by vm_compute. Qed.

(** The first [ls] opens and closes its library; the second takes the function
    from the cache and calls it in the closed library. *)
Theorem second_run_undefined : demo_run_all [chars "ls"; chars "ls"] = Undef UseAfterFree.
Proof. by vm_compute. Qed.

(** [pdftex] or [scp] starts once: the second look-up takes its function from the
    cache, and no second copy is marked, although one was free. *)
Definition twice (name : text) : outcome (handle * interpreters * interpreters) :=
  '(_, st1) ← demo_look_up name demo_system;
  '(r, st2) ← demo_look_up name st1;
  Ret (found_handle r, copies st1, copies st2).

Theorem tex_from_cache :
  match twice (chars "pdftex"), twice (chars "scp") with
  | Ret (ht, _, it), Ret (hs, _, iss) =>
      ht = Library (chars "pdftex.framework/pdftex") ∧ running (tex it) = [true; false] ∧
      hs = Library (chars "ssh_cmd.framework/ssh_cmd") ∧ running (ssh iss) = [true; false]
  | _, _ => False
  end.
Proof. vm_compute. repeat split. Qed.
